(* ===== verification/_CoqProject ===== *)
-Q . S2P
Prelude.v
Sequences.v
Binary.v
Bytes.v
Text.v
Spsc.v
Ipc.v
Events.v
Osc.v
SmallVector.v
OscLive.v
Scheduler.v
Rcu.v
Modulator.v
Period.v
ShiftRegister.v
Logic.v
Signal.v
Chaos.v
Engine.v
EngineConc.v
Edn.v
Graph.v
LogicSpec.v
SignalSpec.v
ChaosSpec.v
Mts.v
Control.v
ControlSpec.v
ThreadSpec.v
Live.v
Outbound.v
Shutdown.v
Sockets.v
Mcp.v
Evaluate.v
Args.v
Luajit.v
LuaLife.v
Audio.v
Process.v
