(* ===== verification/Prelude.v ===== *)
(** * nomos-rt: a model of the real-time runtime and its correctness

    nomos-rt is the C++ runtime a music process is built on.  A control thread
    accepts clients on a Unix socket and decodes EDN messages; notes, bundles of
    timed events, parameters and modulators go from there, through lock-free
    queues and an RCU-protected table, to the threads that render sound; MIDI
    and OSC go in and out; a LuaJIT participant evaluates scripts; a small
    bridge exposes evaluation to MCP clients.  Sources are named relative to
    [src/] of the repository.

    ** How the parts interact

    A frame travels [Mcp] (bridge) -> [Ipc] (frame channel) -> [Control]
    (message handlers).  A handler pushes to a queue of [Spsc], changes the
    engine of [Engine] (whose table is the RCU cell of [Rcu]), sends MIDI
    ([Events], [Mts]) or OSC ([Osc]), evaluates a script ([Luajit]) or answers
    ([Outbound]).  The scheduler of [Scheduler] drains its queue on each tick
    and delivers notes and datagrams by beat.  The engine ticks its modulators
    ([ShiftRegister], [Logic], [Signal], [Chaos], [Graph]), which read one
    another's last outputs.

    Components are proved against each other's interfaces: the class
    [BoundedQueue] (instances: the SPSC queues of the program), the class
    [Modulator] (instances: the modulators, packed as [any_mod] in the
    engine), the abstract engine [abs_engine] and the abstract scheduler.

    ** Files

    - [Prelude]: machine integers, notations, tactics, hint databases, generic
      lemmas.  [Sequences]: transition systems, reachability, invariants.
    - [Binary]: IEEE floats and doubles.  [Bytes], [Text]: words in memory, the
      text functions of the C and C++ libraries.
    - [Spsc]: [include/nomos/rt/spsc_queue.hpp], as functions and as two threads
      with acquire and release accesses (Module [Conc]).
    - [Ipc]: [ipc.hpp], [ipc_channel.hpp/.cpp].  [Events]: CLAP events, MIDI
      input and output, the collectors.  [Osc]: [osc_encode.hpp],
      [osc_event.hpp], [osc_server].  [SmallVector]: [small_vector.hpp], whose
      array refines the list [Osc] uses.  [OscLive]: the server as its peers see
      it, and the life of its thread.
    - [Scheduler]: [event_scheduler.hpp], [time_identity.hpp].  [Rcu]: [rcu.hpp].
    - [Modulator]: the interface and what the modulators share.  [Period]:
      periods of linear maps.  [ShiftRegister], [Logic], [Signal], [Chaos],
      [Graph]: the modulators, with [LogicSpec], [SignalSpec], [ChaosSpec].
      [Engine]: the engine and the registry.  [EngineConc]: a tick with the
      control thread's calls in between.
    - [Edn]: what is used of edn-cpp.  [Mts]: tuning dumps, UUIDs.  [Control],
      [ControlSpec]: [rt_control_thread.cpp], [session.cpp].  [ThreadSpec]: the
      protocol as a specification on lists, which the thread refines.  [Outbound]: the
      frames a client receives.  [Shutdown]: [stop] against the threads it ends.
      [Sockets]: [start] and [stop] by their system calls.  [Live]: clients'
      messages followed to the engine and the plugins.
    - [Mcp]: [tools/nomos-mcp.cpp].  [Evaluate]: the bridge, the channel and the
      control thread together.  [Args]: [common_args.hpp].  [Luajit]:
      [luajit_participant.cpp].  [LuaLife]: its timer thread, construction and
      destruction.  [Audio]: [audio_device.cpp].  [Process]:
      [signal_handlers.hpp], [heartbeat.hpp], [version.cpp].

    ** Conventions

    The state of a class is a record with the names of its members; a method is
    a function from the state (and arguments) to the state and the result.
    Calls to the outside (writes, datagrams, MIDI bytes) are returned as lists
    of effects, in order.  [None] is undefined behaviour, or a call that never
    returns, as each file says.  Integers are [Z] with the wrap-around written
    out ([u8] ... [i64] of [Prelude]).  A float is a [spec_float]; every
    operation rounds to nearest even on its own, without fused operations;
    NaN payloads are not represented.

    Threads are step relations whose steps are the atomic accesses, the calls
    or the critical sections; the theorems are about every reachable state.
    What happens in the end is stated of measures that every step decreases, or
    of fair runs.  User code a thread runs (an evaluation, a scheduled thunk)
    may not return: the steps say which, and the theorems on the end of a thread
    are about the calls that return.

    The control thread is sequential in [Control] to [Live]: frames from shared
    memory ([dispatch_ctrl_frame], which any thread may call) are steps between
    those of the connection; calls at the same time are not modelled.

    Loops over input streams are structural recursions on the list of what the
    calls meet.  The other loops have fuel, and the theorems say how much is
    enough: [serve] needs one turn per message and one for the end
    ([connection_dispatches]), the bridge's [main] one turn per byte
    ([bridge_serves]), a tick of the Fennel prelude one turn per event queued
    or added ([tick_fires_due]).  The parser of control graphs recurses on the
    size of the EDN value, which the class [Edn] makes decrease.

    ** What the theorems show

    - Queues and memory: the ring buffer refines a bounded FIFO queue under any
      interleaving with stale loads, without a race; the RCU cell never frees an
      object in use, frees nothing twice, and in every fair run frees every
      object that was replaced ([rcu_reclaims]).
    - Messages: frames and OSC packets are read back as written under any
      fragmentation; a connection dispatches the messages its bytes hold;
      frames from shared memory act alike; malformed messages do nothing; and
      over any history the thread does what its protocol says: each message ends
      up in the queue, the engine, the bytes or the answer it is for
      ([thread_refines], against the specification [spec_message] of
      [ThreadSpec], which reads messages on its own and knows lists only).
    - Time: the scheduler refines a list of waiting events; the notes and
      datagrams of a bundle are played at its beats ([bundle_played]); a tick of the prelude fires what is due, once.
    - Modulators: the engine refines the ordered list of running modulators; a
      compiled control graph computes its expression; the shift register has
      maximal period; the cipher, the stochastic loop, the genie and the squid
      axon do what their names say.
    - Composition: a graph sent by a client makes the engine play the expressions
      it was written as ([graph_message_plays]): [Live] makes equivalent
      modulators a setoid the engine respects, so that what [Graph] proves of
      the modulator holds of the connection.  The notes a client plays reach the
      plugins, oldest first ([notes_reach_plugins]); so do those of OSC peers,
      whose other messages are answered or go to the scripts
      ([osc_stream_played]).  A tick of the engine that takes no lock is atomic
      all the same ([tick_linearizable]).
    - Evaluation: an expression goes through the bridge, the socket, the control
      thread and back, a failed one as a result that is an error map
      ([evaluate_end_to_end]); scripts receive the OSC arguments that were sent; every
      call of the participant leaves the Lua stack as it was.
    - Life and death: [stop] returns unless a push is stuck on a client that
      does not read or the handler under way does not return ([stop_returns]), that of the OSC server whenever its callbacks do
      ([osc_stop_returns]); the listening socket neither leaks nor
      leaves its name behind when the path fits ([listener_life_cycle]); one
      thread at a time is in the Lua state once it is loaded, and its destructor
      ends unless the tick under way does not return ([lua_exclusive]); a script that registers an OSC handler deadlocks
      ([register_never_returns]); pushed frames arrive whole, responses may cut
      them ([pushed_frames_intact]).

    ** Parameters

    Code that is not under [src/] is a class or an argument with the behaviour
    its documentation gives: [Edn] (edn-cpp), [Txlog], [Lua] and [LuaRuntime]
    (LuaJIT and Fennel), [RtMidi], [RtAudio], [Urcu] (liburcu), [DspBlock]
    (Faust), [Libm] (the transcendental functions, with their ranges),
    [inet_pton], [atof] and the formats of [printf].  Every theorem that assumes
    a law has a witness with a concrete instance.

    ** Not modelled

    [link_peer] and [faust_dsp_adapter] forward to third-party objects;
    [luajit_iface.h] only declares.  In modelled files: the listing of devices
    and log output; the creation of a thread is the step after which it runs.
    [result.hpp] is a sum type and appears as the results of [Ipc].  Tests, build
    files and fetched libraries are not part of the program. *)
From Stdlib Require Export ZArith Lia Bool.
From stdpp Require Export base numbers strings option gmap list.

(** ** Notations of the development *)

Declare Scope rt_scope.
Delimit Scope rt_scope with rt.

(** [a ⊕ b] is the bitwise exclusive or of two machine words. *)
Notation "a ⊕ b" := (Z.lxor a b) (at level 50, left associativity) : rt_scope.

(** ** Machine integers

    A [w]-bit unsigned integer is a [Z] reduced modulo [2^w]; a conversion to a
    signed type keeps the low bits and reads them in two's complement, as C++20
    prescribes for [static_cast] between integer types. *)

Definition wrapu (w z : Z) : Z := (z mod 2 ^ w)%Z.
Definition wraps (w z : Z) : Z := ((z + 2 ^ (w - 1)) mod 2 ^ w - 2 ^ (w - 1))%Z.

Definition u8 : Z → Z := wrapu 8.
Definition u16 : Z → Z := wrapu 16.
Definition u32 : Z → Z := wrapu 32.
Definition u64 : Z → Z := wrapu 64.
Definition i8 : Z → Z := wraps 8.
Definition i16 : Z → Z := wraps 16.
Definition i32 : Z → Z := wraps 32.
Definition i64 : Z → Z := wraps 64.

(** Predicates: the value fits the type. *)
Definition is_u8 (z : Z) : Prop := (0 <= z < 256)%Z.
Definition is_u32 (z : Z) : Prop := (0 <= z < 2 ^ 32)%Z.

(** An [int] computation that leaves the range of [int] is undefined behaviour:
    [int32 z] is the value when it is representable. *)
Definition int32 (z : Z) : option Z :=
  if (- 2 ^ 31 <=? z)%Z && (z <? 2 ^ 31)%Z then Some z else None.

Create HintDb rt discriminated.

(** ** Tactics *)

(** Case analysis on the first conditional or match met in the goal. *)
Ltac case_if :=
  match goal with
  | |- context [if ?b then _ else _] => destruct b eqn:?
  | H : context [if ?b then _ else _] |- _ => destruct b eqn:?
  end.

Ltac case_match_goal :=
  match goal with
  | |- context [match ?x with _ => _ end] => destruct x eqn:?
  end.

(** Turn boolean comparisons on [Z] and [nat] into propositions. *)
Ltac bool_to_prop :=
  repeat match goal with
  | H : (_ && _) = true |- _ => apply andb_true_iff in H; destruct H
  | H : (_ || _) = false |- _ => apply orb_false_iff in H; destruct H
  | H : negb _ = true |- _ => apply negb_true_iff in H
  | H : negb _ = false |- _ => apply negb_false_iff in H
  | H : (_ <? _)%Z = true |- _ => apply Z.ltb_lt in H
  | H : (_ <? _)%Z = false |- _ => apply Z.ltb_ge in H
  | H : (_ <=? _)%Z = true |- _ => apply Z.leb_le in H
  | H : (_ <=? _)%Z = false |- _ => apply Z.leb_gt in H
  | H : (_ =? _)%Z = true |- _ => apply Z.eqb_eq in H
  | H : (_ =? _)%Z = false |- _ => apply Z.eqb_neq in H
  | H : (_ <? _)%nat = true |- _ => apply Nat.ltb_lt in H
  | H : (_ <? _)%nat = false |- _ => apply Nat.ltb_ge in H
  | H : (_ <=? _)%nat = true |- _ => apply Nat.leb_le in H
  | H : (_ <=? _)%nat = false |- _ => apply Nat.leb_gt in H
  | H : (_ =? _)%nat = true |- _ => apply Nat.eqb_eq in H
  | H : (_ =? _)%nat = false |- _ => apply Nat.eqb_neq in H
  end.

Ltac zmod := Z.div_mod_to_equations; lia.

(** ** Lemmas on machine integers *)

Lemma wrapu_range w z : (0 <= w)%Z → (0 <= wrapu w z < 2 ^ w)%Z.
Proof. intros. apply Z.mod_pos_bound, Z.pow_pos_nonneg; lia. Qed.

Lemma wrapu_small w z : (0 <= z < 2 ^ w)%Z → wrapu w z = z.
Proof. intros. by apply Z.mod_small. Qed.

Lemma wraps_range w z :
  (0 < w)%Z → (- 2 ^ (w - 1) <= wraps w z < 2 ^ (w - 1))%Z.
Proof.
  intros Hw. unfold wraps.
  assert (2 ^ w = 2 * 2 ^ (w - 1))%Z as E.
  { rewrite <- Z.pow_succ_r by lia. f_equal. lia. }
  pose proof (Z.mod_pos_bound (z + 2 ^ (w - 1)) (2 ^ w)).
  pose proof (Z.pow_pos_nonneg 2 (w - 1)). lia.
Qed.

Lemma wraps_small w z :
  (0 < w)%Z → (- 2 ^ (w - 1) <= z < 2 ^ (w - 1))%Z → wraps w z = z.
Proof.
  intros Hw Hz. unfold wraps.
  assert (2 ^ w = 2 * 2 ^ (w - 1))%Z as E.
  { rewrite <- Z.pow_succ_r by lia. f_equal. lia. }
  rewrite Z.mod_small; lia.
Qed.

Lemma u8_range z : is_u8 (u8 z).
Proof. apply (wrapu_range 8). lia. Qed.

Lemma u8_small z : is_u8 z → u8 z = z.
Proof. apply (wrapu_small 8). Qed.

Lemma u32_range z : is_u32 (u32 z).
Proof. apply (wrapu_range 32). lia. Qed.

Lemma u32_small z : is_u32 z → u32 z = z.
Proof. apply (wrapu_small 32). Qed.

#[export] Hint Resolve u8_range u32_range : rt.

Lemma int32_Some z v : int32 z = Some v ↔ v = z ∧ (- 2 ^ 31 <= z < 2 ^ 31)%Z.
Proof.
  unfold int32. split.
  - case_if; intros; simplify_eq; bool_to_prop; lia.
  - intros [-> ?]. case_if; [done|].
    apply andb_false_iff in Heqb as [?|?]; bool_to_prop; lia.
Qed.

(** Masking with [2^k - 1] is reduction modulo [2^k]. *)
Lemma land_mask k x : (0 <= k)%Z → Z.land x (2 ^ k - 1) = (x mod 2 ^ k)%Z.
Proof.
  intros. rewrite <- Z.land_ones by lia. by rewrite Z.ones_equiv, Z.sub_1_r.
Qed.

Lemma land_mask_range k x : (0 <= k)%Z → (0 <= Z.land x (2 ^ k - 1) < 2 ^ k)%Z.
Proof. intros. rewrite land_mask by lia. apply (wrapu_range k). lia. Qed.

(** ** Lemmas on lists *)

Lemma lookup_snoc_Some {A} (l : list A) x i y :
  (l ++ [x]) !! i = Some y ↔ (l !! i = Some y) ∨ (i = length l ∧ y = x).
Proof.
  destruct (decide (i < length l)) as [?|?].
  - rewrite lookup_app_l by lia. split; [auto|intros [?|[? ?]]; [done|lia]].
  - rewrite lookup_app_r by lia.
    assert (l !! i = None) as -> by (apply lookup_ge_None; lia).
    destruct (decide (i = length l)) as [->|?].
    + rewrite Nat.sub_diag. simpl. naive_solver.
    + rewrite (proj2 (lookup_ge_None _ _)) by (simpl; lia). naive_solver lia.
Qed.

Lemma drop_S_lookup {A} (l : list A) n x :
  l !! n = Some x → drop n l = x :: drop (S n) l.
Proof. intros. by apply drop_S. Qed.

Lemma take_snoc_lookup {A} (l : list A) n x :
  l !! n = Some x → take (S n) l = take n l ++ [x].
Proof. intros. by apply take_S_r. Qed.

(** ** Finite checks *)

(** A decidable property of the integers below [n], by evaluation. *)
Lemma check_range (P : Z → Prop) {HP : ∀ z, Decision (P z)} (n : nat) :
  forallb (λ i, bool_decide (P (Z.of_nat i))) (seq 0 n) = true →
  ∀ z, (0 <= z < Z.of_nat n)%Z → P z.
Proof.
  rewrite forallb_forall. intros Hall z Hz.
  rewrite <- (Z2Nat.id z) by lia. eapply bool_decide_eq_true_1, Hall, in_seq. lia.
Qed.

(** ** Strings *)

(** [s.find(pat) != npos]. *)
Fixpoint str_contains (pat s : string) : bool :=
  String.prefix pat s ||
  match s with EmptyString => false | String _ s => str_contains pat s end.

Lemma str_contains_spec pat s :
  str_contains pat s = true ↔ ∃ a b, s = (a +:+ pat +:+ b)%string.
Proof.
  assert (∀ p s, String.prefix p s = true ↔ ∃ b, s = (p +:+ b)%string) as Hp.
  { induction p as [|c p IH]; intros [|d t]; simpl; split; try done.
    - by exists ""%string. - by exists (String d t).
    - by intros [? ?].
    - destruct (Ascii.ascii_dec c d) as [->|]; [|done].
      intros [b ->]%IH. by exists b.
    - intros [b Hb]. cbn in Hb. injection Hb as -> ->.
      destruct (Ascii.ascii_dec c c); [|done]. apply IH. eauto. }
  induction s as [|c s IH]; cbn [str_contains]; rewrite orb_true_iff, Hp.
  - split.
    + intros [[b Hb]|]; [|done]. by exists ""%string, b.
    + intros (a & b & Hab). left. destruct a; [|done]. eauto.
  - rewrite IH. split.
    + intros [[b Hb]|(a & b & ->)]; [by exists ""%string, b|]. by exists (String c a), b.
    + intros ([|d a] & b & Hab); [left; eauto|right]. cbn in Hab. injection Hab as -> ->. eauto.
Qed.
