(* ===== verification/Sequences.v ===== *)
(** Transition systems: reachability and invariants.

    The concurrent components (the queue, the RCU cell, the sockets) are step
    relations; their theorems are about every state reachable from the initial
    one, and are proved by showing an invariant inductive. *)
From S2P Require Import Prelude.

Section system.
Context {A : Type} (step : A → A → Prop).

(** [reach a b]: [b] is reached from [a] by finitely many steps. *)
Inductive reach (a : A) : A → Prop :=
| reach_refl : reach a a
| reach_step b c : reach a b → step b c → reach a c.

Lemma reach_trans a b c : reach a b → reach b c → reach a c.
Proof. intros H. induction 1; eauto using reach. Qed.

Lemma reach_one a b : step a b → reach a b.
Proof. eauto using reach. Qed.

(** An inductive invariant holds in every reachable state. *)
Lemma reach_invariant (I : A → Prop) a :
  I a → (∀ b c, I b → step b c → I c) → ∀ b, reach a b → I b.
Proof. intros H0 Hs b. induction 1; eauto. Qed.
End system.

#[export] Hint Constructors reach : rt.
