(* ===== verification/Binary.v ===== *)
(** IEEE-754 arithmetic of [float] and [double].

    A floating-point value is a [spec_float] of the standard library: [float] is
    the format with 24 bits of precision and [emax = 128], [double] the one with
    53 bits and [emax = 1024].  Each C++ operation is the correctly rounded one
    (round to nearest, ties to even), without contraction to fused operations or
    excess precision; NaN payloads are not represented.  [std::min], [std::max]
    and [std::clamp] are written as the comparisons the standard prescribes, so
    they do with a NaN what the program does with it.  Functions of the
    mathematical library whose rounding the standard leaves open ([std::exp],
    [std::sin], ...) are the fields of the class [Libm]. *)
From S2P Require Import Prelude.
From Stdlib Require Export SpecFloat.

Abbreviation f32 := spec_float.
Abbreviation f64 := spec_float.

(** ** Arithmetic *)

Definition fadd : f32 → f32 → f32 := SFadd 24 128.
Definition fsub : f32 → f32 → f32 := SFsub 24 128.
Definition fmul : f32 → f32 → f32 := SFmul 24 128.
Definition fdiv : f32 → f32 → f32 := SFdiv 24 128.
Definition dadd : f64 → f64 → f64 := SFadd 53 1024.
Definition dsub : f64 → f64 → f64 := SFsub 53 1024.
Definition dmul : f64 → f64 → f64 := SFmul 53 1024.
Definition ddiv : f64 → f64 → f64 := SFdiv 53 1024.

Notation "x +f y" := (fadd x y) (at level 50, left associativity) : rt_scope.
Notation "x -f y" := (fsub x y) (at level 50, left associativity) : rt_scope.
Notation "x *f y" := (fmul x y) (at level 40, left associativity) : rt_scope.
Notation "x /f y" := (fdiv x y) (at level 40, left associativity) : rt_scope.
Notation "x +d y" := (dadd x y) (at level 50, left associativity) : rt_scope.
Notation "x -d y" := (dsub x y) (at level 50, left associativity) : rt_scope.
Notation "x *d y" := (dmul x y) (at level 40, left associativity) : rt_scope.
Notation "x /d y" := (ddiv x y) (at level 40, left associativity) : rt_scope.
Notation "x <f y" := (SFltb x y) (at level 70) : rt_scope.
Notation "x <=f y" := (SFleb x y) (at level 70) : rt_scope.
Notation "x >f y" := (SFltb y x) (at level 70, only parsing) : rt_scope.
Notation "x >=f y" := (SFleb y x) (at level 70, only parsing) : rt_scope.
Open Scope rt_scope.

Definition is_nan (x : spec_float) : bool :=
  match x with S754_nan => true | _ => false end.

Definition fmin (a b : spec_float) : spec_float := if b <f a then b else a.
Definition fmax (a b : spec_float) : spec_float := if a <f b then b else a.
Definition clampf (v lo hi : spec_float) : spec_float :=
  if v <f lo then lo else if hi <f v then hi else v.

(** ** Conversions *)

(** The quotient [n / d] rounded to the format: a decimal literal. *)
Definition of_ratio (prec emax : Z) (n : Z) (d : positive) : spec_float :=
  let go s m :=
    let '(mz, ez, lz) := SFdiv_core_binary prec emax (Zpos m) 0 (Zpos d) 0 in
    binary_round_aux prec emax s mz ez lz in
  match n with
  | Z0 => S754_zero false
  | Zpos m => go false m
  | Zneg m => go true m
  end.
Definition lit32 : Z → positive → f32 := of_ratio 24 128.
Definition lit64 : Z → positive → f64 := of_ratio 53 1024.

Definition f32_of_Z (z : Z) : f32 := binary_normalize 24 128 z 0 false.
Definition f64_of_Z (z : Z) : f64 := binary_normalize 53 1024 z 0 false.

Definition convert (prec emax : Z) (x : spec_float) : spec_float :=
  match x with S754_finite s m e => binary_round prec emax s m e | _ => x end.
Definition f32_of_f64 : f64 → f32 := convert 24 128.
Definition f64_of_f32 : f32 → f64 := convert 53 1024.

(** The integer part towards zero, and the nearest integer (halfway cases away
    from zero), of a finite value. *)
Definition scaled (m : positive) (e : Z) (half : bool) : Z :=
  if (0 <=? e)%Z then Z.shiftl (Zpos m) e
  else if half then Z.shiftr (Zpos m + Z.shiftl 1 (- e - 1)) (- e)
  else Z.shiftr (Zpos m) (- e).

Definition to_Z (half : bool) (x : spec_float) : option Z :=
  match x with
  | S754_zero _ => Some 0%Z
  | S754_finite s m e => Some (cond_Zopp s (scaled m e half))
  | S754_infinity _ | S754_nan => None
  end.

(** [static_cast<int>(x)]: undefined when the truncated value is not an [int]. *)
Definition f_to_int (x : spec_float) : option Z := to_Z false x ≫= int32.

(** [static_cast<int>(std::round(x))]. *)
Definition f_round_int (x : spec_float) : option Z := to_Z true x ≫= int32.

Definition dround (x : f64) : f64 :=
  match x with
  | S754_finite s m e =>
      if (0 <=? e)%Z then x
      else binary_normalize 53 1024 (cond_Zopp s (scaled m e true)) 0 s
  | _ => x
  end.

(** [std::floor]. *)
Definition floor_at (prec emax : Z) (x : spec_float) : spec_float :=
  match x with
  | S754_finite s m e =>
      if (0 <=? e)%Z then x
      else binary_normalize prec emax (Z.shiftr (cond_Zopp s (Zpos m)) (- e)) 0 s
  | _ => x
  end.
Definition ffloor : f32 → f32 := floor_at 24 128.
Definition dfloor : f64 → f64 := floor_at 53 1024.

(** [std::fmod], whose result is always exact. *)
Definition ffmod (x y : f32) : f32 :=
  match x, y with
  | S754_nan, _ | _, S754_nan => S754_nan
  | S754_infinity _, _ | _, S754_zero _ => S754_nan
  | S754_zero _, _ | _, S754_infinity _ => x
  | S754_finite sx mx ex, S754_finite _ my ey =>
      let e := Z.min ex ey in
      let r := (Z.shiftl (Zpos mx) (ex - e) mod Z.shiftl (Zpos my) (ey - e))%Z in
      binary_normalize 24 128 (cond_Zopp sx r) e sx
  end.

(** ** The bit pattern of a [float] *)

Definition bits_of_f32 (x : f32) : Z :=
  let sign (s : bool) := if s then (2 ^ 31)%Z else 0%Z in
  match x with
  | S754_zero s => sign s
  | S754_infinity s => (sign s + 255 * 2 ^ 23)%Z
  | S754_nan => (255 * 2 ^ 23 + 2 ^ 22)%Z
  | S754_finite s m e =>
      if (Zpos m <? 2 ^ 23)%Z then (sign s + Zpos m)%Z
      else (sign s + (e + 150) * 2 ^ 23 + (Zpos m - 2 ^ 23))%Z
  end.

Definition f32_of_bits (z : Z) : f32 :=
  let s := (2 ^ 31 <=? z)%Z in
  let r := (z mod 2 ^ 31)%Z in
  let ex := (r / 2 ^ 23)%Z in
  let m := (r mod 2 ^ 23)%Z in
  if (ex =? 255)%Z then (if (m =? 0)%Z then S754_infinity s else S754_nan)
  else if (ex =? 0)%Z then
    match m with Zpos p => S754_finite s p (-149) | _ => S754_zero s end
  else match (m + 2 ^ 23)%Z with
       | Zpos p => S754_finite s p (ex - 150)
       | _ => S754_zero s
       end.

(** ** The mathematical library *)

Class Libm := {
  expf : f32 → f32;  logf : f32 → f32;
  sinf : f32 → f32;  cosf : f32 → f32;
  powf : f32 → f32 → f32;
  lerpf : f32 → f32 → f32 → f32;
  log2d : f64 → f64;  powd : f64 → f64 → f64
}.

(** A library of coarse approximations, to evaluate the models with. *)
Definition coarse_libm : Libm := {|
  expf x := lit32 1 1 +f x; logf x := x -f lit32 1 1; sinf x := x;
  cosf x := lit32 1 1 -f x *f x; powf x _ := x;
  lerpf a b t := a +f t *f (b -f a); log2d x := x; powd x _ := x |}.

(** ** Order

    [fkey] embeds the non-NaN values in triples of integers compared
    lexicographically, so facts about comparisons are linear arithmetic. *)

Definition fkey (x : spec_float) : Z * Z * Z :=
  match x with
  | S754_infinity true => (-2, 0, 0)
  | S754_finite true m e => (-1, - e, Zneg m)
  | S754_zero _ | S754_nan => (0, 0, 0)
  | S754_finite false m e => (1, e, Zpos m)
  | S754_infinity false => (2, 0, 0)
  end%Z.

Definition key_lt (a b : Z * Z * Z) : Prop :=
  let '(a1, a2, a3) := a in let '(b1, b2, b3) := b in
  (a1 < b1 ∨ a1 = b1 ∧ (a2 < b2 ∨ a2 = b2 ∧ a3 < b3))%Z.

Lemma SFcompare_key x y :
  is_nan x = false → is_nan y = false →
  (SFcompare x y = Some Lt ∧ key_lt (fkey x) (fkey y)) ∨
  (SFcompare x y = Some Eq ∧ fkey x = fkey y) ∨
  (SFcompare x y = Some Gt ∧ key_lt (fkey y) (fkey x)).
Proof.
  intros Hx Hy.
  destruct x as [sx|sx| |sx mx ex], y as [sy|sy| |sy my ey]; try discriminate;
    try destruct sx; try destruct sy; simpl; auto 10 with lia;
    try (left; split; [done|lia]); try (right; right; split; [done|lia]).
  all: fold (Pos.compare mx my); destruct (Z.compare_spec ex ey); simpl; subst;
    try destruct (Pos.compare_spec mx my); simpl; subst;
    first [ left; split; [done|lia]
          | right; left; split; [done|congruence]
          | right; right; split; [done|lia] ].
Qed.

Lemma SFltb_key x y : is_nan x = false → is_nan y = false →
  x <f y = true ↔ key_lt (fkey x) (fkey y).
Proof.
  intros Hx Hy. unfold SFltb.
  destruct (SFcompare_key x y Hx Hy) as [[-> ?]|[[-> E]|[-> ?]]]; [done| |];
    (split; [done|]); destruct (fkey x) as [[? ?] ?], (fkey y) as [[? ?] ?];
    simpl in *; simplify_eq; lia.
Qed.

Lemma SFleb_key x y : is_nan x = false → is_nan y = false →
  x <=f y = true ↔ ¬ key_lt (fkey y) (fkey x).
Proof.
  intros Hx Hy. unfold SFleb.
  destruct (SFcompare_key x y Hx Hy) as [[-> ?]|[[-> E]|[-> ?]]];
    destruct (fkey x) as [[? ?] ?], (fkey y) as [[? ?] ?];
    simpl in *; simplify_eq; split; intros; try done; lia.
Qed.

Lemma SFltb_nan_l x y : x <f y = true → is_nan x = false ∧ is_nan y = false.
Proof. by destruct x, y. Qed.

Lemma SFleb_nan_l x y : x <=f y = true → is_nan x = false ∧ is_nan y = false.
Proof. by destruct x, y. Qed.

Lemma SFltb_false x y : is_nan x = false → is_nan y = false →
  x <f y = false → y <=f x = true.
Proof.
  intros Hx Hy E. apply SFleb_key; try done. rewrite <- SFltb_key by done. by rewrite E.
Qed.

Lemma SFleb_trans x y z : x <=f y = true → y <=f z = true → x <=f z = true.
Proof.
  intros H1 H2. destruct (SFleb_nan_l _ _ H1), (SFleb_nan_l _ _ H2).
  rewrite SFleb_key in * by done.
  destruct (fkey x) as [[? ?] ?], (fkey y) as [[? ?] ?], (fkey z) as [[? ?] ?].
  simpl in *. lia.
Qed.

Lemma SFleb_refl x : is_nan x = false → x <=f x = true.
Proof.
  intros H. apply SFleb_key; try done.
  destruct (fkey x) as [[? ?] ?]; simpl; lia.
Qed.

Lemma SFleb_total x y : is_nan x = false → is_nan y = false →
  x <=f y = true ∨ y <=f x = true.
Proof.
  intros. destruct (x <f y) eqn:E.
  - left. rewrite SFleb_key by done. rewrite SFltb_key in E by done.
    destruct (fkey x) as [[? ?] ?], (fkey y) as [[? ?] ?]; simpl in *; lia.
  - right. by apply SFltb_false.
Qed.

(** [clampf] puts every number, infinities included, in the range; a NaN
    passes through unchanged. *)
Lemma clampf_range v lo hi :
  is_nan v = false → lo <=f hi = true →
  lo <=f clampf v lo hi = true ∧ clampf v lo hi <=f hi = true.
Proof.
  intros Hv Hle. destruct (SFleb_nan_l _ _ Hle). unfold clampf.
  destruct (v <f lo) eqn:E1; [auto using SFleb_refl|].
  destruct (hi <f v) eqn:E2; [auto using SFleb_refl|].
  auto using SFltb_false.
Qed.

Lemma clampf_nan lo hi : clampf S754_nan lo hi = S754_nan.
Proof. by destruct lo, hi. Qed.

Lemma clampf_id v lo hi :
  lo <=f v = true → v <=f hi = true → clampf v lo hi = v.
Proof.
  intros H1 H2. destruct (SFleb_nan_l _ _ H1), (SFleb_nan_l _ _ H2). unfold clampf.
  destruct (v <f lo) eqn:E1.
  { apply SFltb_key in E1; [|done..]. by rewrite SFleb_key in H1. }
  destruct (hi <f v) eqn:E2; [|done].
  apply SFltb_key in E2; [|done..]. by rewrite SFleb_key in H2.
Qed.

(** ** Bit patterns *)

Definition valid32 (x : f32) : Prop := valid_binary 24 128 x = true.

Lemma digits2_pos_bound p : (2 ^ (Zpos (digits2_pos p) - 1) <= Zpos p < 2 ^ Zpos (digits2_pos p))%Z.
Proof.
  induction p as [p IH|p IH|]; simpl digits2_pos; [| |split; reflexivity].
  all: rewrite Pos2Z.inj_succ; replace (Z.succ _ - 1)%Z with (Z.succ (Zpos (digits2_pos p) - 1)) by lia;
    rewrite !Z.pow_succ_r by lia; lia.
Qed.

Lemma valid32_finite s m e :
  valid32 (S754_finite s m e) →
  ((Zpos m < 2 ^ 23 ∧ e = -149) ∨ (2 ^ 23 <= Zpos m < 2 ^ 24 ∧ -149 <= e <= 104))%Z.
Proof.
  unfold valid32, valid_binary, bounded, canonical_mantissa, fexp, emin.
  intros [H1%Z.eqb_eq H2%Z.leb_le]%andb_true_iff.
  pose proof (digits2_pos_bound m) as [Hl Hu].
  remember (Zpos (digits2_pos m)) as d eqn:Ed.
  assert (1 <= d)%Z by lia.
  destruct (Z.max_spec (d + e - 24) (3 - 128 - 24)) as [[? E]|[? E]]; rewrite E in H1.
  - destruct (decide (d = 24)%Z) as [->|?]; [lia|]. left. split; [|lia].
    apply Z.lt_le_trans with (2 ^ d)%Z; [done|]. apply Z.pow_le_mono_r; lia.
  - right. assert (d = 24)%Z as -> by lia. lia.
Qed.

Lemma f32_of_bits_of_f32 x : valid32 x → is_nan x = false → f32_of_bits (bits_of_f32 x) = x.
Proof.
  intros Hv Hn. destruct x as [[]|[]| |s m e]; try reflexivity; try discriminate.
  apply valid32_finite in Hv. unfold bits_of_f32.
  destruct Hv as [[Hm ->]|[Hm He]].
  - rewrite (proj2 (Z.ltb_lt _ _)) by lia. unfold f32_of_bits.
    assert ((if s then 2 ^ 31 else 0) + Z.pos m = (if s then 1 else 0) * 2 ^ 31 + Z.pos m)%Z as -> by (destruct s; lia).
    rewrite Z.add_comm, Z_mod_plus_full, (Z.mod_small (Zpos m)) by lia.
    rewrite Z.div_small, Z.mod_small by lia. simpl.
    f_equal. destruct s; [apply Z.leb_le|apply Z.leb_gt]; lia.
  - rewrite (proj2 (Z.ltb_ge _ _)) by lia. unfold f32_of_bits.
    remember (Zpos m - 2 ^ 23)%Z as r eqn:Er.
    assert (2 ^ 31 <=? (if s then 2 ^ 31 else 0) + (e + 150) * 2 ^ 23 + r = s)%Z as ->.
    { destruct s; [apply Z.leb_le|apply Z.leb_gt]; lia. }
    assert (((if s then 2 ^ 31 else 0) + (e + 150) * 2 ^ 23 + r) mod 2 ^ 31 =
            r + (e + 150) * 2 ^ 23)%Z as ->.
    { replace (_ + _ + r)%Z with (r + (e + 150) * 2 ^ 23 + (if s then 1 else 0) * 2 ^ 31)%Z
        by (destruct s; lia).
      rewrite Z_mod_plus_full. apply Z.mod_small. lia. }
    rewrite Z.div_add, (Z.div_small r), Z_mod_plus_full, (Z.mod_small r) by lia.
    rewrite Z.add_0_l, (proj2 (Z.eqb_neq _ _)), (proj2 (Z.eqb_neq _ _)) by lia.
    replace (r + 2 ^ 23)%Z with (Zpos m) by lia. f_equal. lia.
Qed.

Lemma bits_of_f32_range x : valid32 x → is_u32 (bits_of_f32 x).
Proof.
  unfold is_u32. destruct x as [[]|[]| |s m e]; intros Hv.
  1-5: by vm_compute.
  apply valid32_finite in Hv. unfold bits_of_f32.
  destruct Hv as [[Hm ->]|[Hm He]].
  - rewrite (proj2 (Z.ltb_lt _ _)) by lia. destruct s; lia.
  - rewrite (proj2 (Z.ltb_ge _ _)) by lia. destruct s; lia.
Qed.

(** ** Exact results *)

Lemma round_aux_exact s m e :
  digits2_pos m = 24%positive → (-149 <= e <= 104)%Z →
  binary_round_aux 24 128 s (Zpos m) e loc_Exact = S754_finite s m e.
Proof.
  intros Hd He. unfold binary_round_aux, shr_fexp. cbn [Zdigits2]. rewrite Hd.
  assert (fexp 24 128 (24 + e) - e = 0)%Z as E by (unfold fexp, emin; lia).
  rewrite E. simpl. rewrite Hd, E. simpl. by rewrite (proj2 (Z.leb_le _ _)) by lia.
Qed.

Lemma digits2_pos_iter_xO k m : Zpos (digits2_pos (Pos.iter xO m k)) = (Zpos (digits2_pos m) + Zpos k)%Z.
Proof.
  induction k as [|k IH] using Pos.peano_ind; [simpl; lia|]. rewrite Pos.iter_succ. simpl. lia.
Qed.

(** Integers of at most 24 bits are floats. *)
Lemma f32_of_Z_exact p :
  (Zpos p < 2 ^ 24)%Z →
  ∃ m e, f32_of_Z (Zpos p) = S754_finite false m e ∧ digits2_pos m = 24%positive ∧ (-23 <= e <= 0)%Z.
Proof.
  intros Hp. pose proof (digits2_pos_bound p) as [Hl Hu].
  assert (Zpos (digits2_pos p) <= 24)%Z as Hd.
  { destruct (Z.le_gt_cases (Zpos (digits2_pos p)) 24) as [?|?]; [done|].
    assert (2 ^ 24 <= 2 ^ (Zpos (digits2_pos p) - 1))%Z by (apply Z.pow_le_mono_r; lia). lia. }
  unfold f32_of_Z, binary_normalize, binary_round, fexp, emin, shl_align.
  assert (Z.max (Zpos (digits2_pos p) + 0 - 24) (3 - 128 - 24) - 0 = Zpos (digits2_pos p) - 24)%Z as -> by lia.
  destruct (Zpos (digits2_pos p) - 24)%Z as [|k|k] eqn:Ek; [|lia|].
  - exists p, 0%Z. rewrite round_aux_exact by lia. split_and!; [done|lia..].
  - set (m := Pos.iter xO p k).
    assert (digits2_pos m = 24%positive) as Hm by (pose proof (digits2_pos_iter_xO k p) as E; fold m in E; lia).
    exists m, (Z.max (Zpos (digits2_pos p) + 0 - 24) (3 - 128 - 24)).
    rewrite round_aux_exact by (done || lia). split_and!; [done..|lia|lia].
Qed.

(** Scaling by a power of two is exact. *)
Lemma fmul_pow2_exact s m e k :
  digits2_pos m = 24%positive → (-149 <= e + k + 23 <= 104)%Z →
  S754_finite s m e *f S754_finite false 8388608 k = S754_finite s m (e + k + 23).
Proof.
  intros Hd He. unfold fmul, SFmul. rewrite xorb_false_r.
  replace (m * 8388608)%positive with (Pos.iter xO m 23) by (simpl; lia).
  unfold binary_round_aux, shr_fexp. cbn [Zdigits2]. rewrite digits2_pos_iter_xO, Hd.
  assert (fexp 24 128 (24 + 23 + (e + k)) - (e + k) = 23)%Z as -> by (unfold fexp, emin; lia).
  cbn. rewrite Hd.
  assert (fexp 24 128 (24 + (e + k + 23)) - (e + k + 23) = 0)%Z as -> by (unfold fexp, emin; lia).
  cbn. by rewrite (proj2 (Z.leb_le _ _)) by lia.
Qed.
