(* ===== verification/Bytes.v ===== *)
(** Words in memory: loading and storing 32-bit integers on a little-endian
    host, the byte swap, and the big-endian byte strings of the wire formats. *)
From S2P Require Import Prelude.
Local Open Scope Z_scope.

(** The word whose bytes in memory are [a b c d] ([std::memcpy] into a
    [uint32_t] on a little-endian host). *)
Definition load_le (a b c d : Z) : Z := a + b * 2 ^ 8 + c * 2 ^ 16 + d * 2 ^ 24.

Definition store_le (v : Z) : list Z :=
  [Z.land v 255; Z.land (Z.shiftr v 8) 255; Z.land (Z.shiftr v 16) 255; Z.land (Z.shiftr v 24) 255].

Definition bytes_be (v : Z) : list Z :=
  [Z.land (Z.shiftr v 24) 255; Z.land (Z.shiftr v 16) 255; Z.land (Z.shiftr v 8) 255; Z.land v 255].

(** [__builtin_bswap32]. *)
Definition bswap32 (v : Z) : Z :=
  Z.lor (Z.lor (Z.lor (Z.shiftr (Z.land v (Z.shiftl 255 24)) 24)
                      (Z.shiftr (Z.land v (Z.shiftl 255 16)) 8))
               (Z.shiftl (Z.land v (Z.shiftl 255 8)) 8))
        (Z.shiftl (Z.land v 255) 24).

(** The characters of a [std::string]. *)
Definition bytes_of_string (s : string) : list Z :=
  map (λ c, Z.of_nat (Ascii.nat_of_ascii c)) (String.list_ascii_of_string s).

Definition bytes_ok (l : list Z) : Prop := Forall is_u8 l.

Lemma land_255 x : Z.land x 255 = x mod 256.
Proof. apply (land_mask 8). lia. Qed.

Lemma land_shiftl_mask x n k : 0 <= k → 0 <= n →
  Z.land x (Z.shiftl (2 ^ n - 1) k) = ((x / 2 ^ k) mod 2 ^ n) * 2 ^ k.
Proof.
  intros. rewrite <- Z.shiftl_mul_pow2, <- land_mask, Z.shiftl_land, <- Z.shiftr_div_pow2 by lia.
  rewrite <- Z.ldiff_ones_r by lia. apply Z.bits_inj'. intros i ?.
  rewrite !Z.land_spec, Z.ldiff_spec. destruct (decide (i < k)).
  - rewrite Z.shiftl_spec_low by lia. by rewrite !andb_false_r.
  - rewrite Z.ones_spec_high by lia. by rewrite andb_true_r.
Qed.

Lemma lor_add a b n : 0 <= n → 0 <= a < 2 ^ n → Z.lor a (b * 2 ^ n) = a + b * 2 ^ n.
Proof.
  intros. rewrite Z.add_nocarry_lor; [done|]. apply Z.bits_inj'. intros i ?.
  rewrite Z.land_spec, Z.bits_0. destruct (decide (i < n)).
  - rewrite Z.mul_pow2_bits_low by lia. by rewrite andb_false_r.
  - replace (Z.testbit a i) with false; [done|]. symmetry.
    rewrite <- (Z.mod_small a (2 ^ n)) by lia. apply Z.mod_pow2_bits_high. lia.
Qed.

Lemma lor_add' a b n : 0 <= n → 0 <= a < 2 ^ n → Z.lor (b * 2 ^ n) a = b * 2 ^ n + a.
Proof. intros. rewrite Z.lor_comm, lor_add by lia. lia. Qed.

Lemma load_le_byte a b c d : is_u8 a → is_u8 b → is_u8 c → is_u8 d →
  store_le (load_le a b c d) = [a; b; c; d].
Proof.
  unfold is_u8, store_le, load_le. intros.
  rewrite !Z.shiftr_div_pow2, !land_255 by lia. repeat f_equal; zmod.
Qed.

Lemma bytes_be_rev v : bytes_be v = rev (store_le v).
Proof. done. Qed.

(** The byte swap of a word reverses its bytes. *)
Lemma bswap32_load a b c d : is_u8 a → is_u8 b → is_u8 c → is_u8 d →
  bswap32 (load_le a b c d) = load_le d c b a.
Proof.
  unfold is_u8, bswap32. intros.
  change 255 with (2 ^ 8 - 1). rewrite !land_shiftl_mask by lia.
  change (2 ^ 8 - 1) with 255. rewrite land_255.
  rewrite !Z.shiftr_div_pow2, !Z.shiftl_mul_pow2 by lia.
  set (x := load_le a b c d).
  assert (x / 2 ^ 24 = d) as -> by (unfold x, load_le; zmod).
  assert (x / 2 ^ 16 = c + d * 2 ^ 8) as -> by (unfold x, load_le; zmod).
  assert (x / 2 ^ 8 = b + (c + d * 2 ^ 8) * 2 ^ 8) as -> by (unfold x, load_le; zmod).
  assert (x mod 256 = a) as -> by (unfold x, load_le; zmod).
  rewrite !Z_mod_plus_full, !Z.mod_small by lia. clear x. rewrite Z.div_mul by lia.
  replace (c * 2 ^ 16 / 2 ^ 8) with (c * 2 ^ 8) by zmod.
  replace (b * 2 ^ 8 * 2 ^ 8) with (b * 2 ^ 16) by lia.
  rewrite (lor_add d) by lia. rewrite (lor_add (d + _)) by lia. rewrite lor_add by lia.
  unfold load_le. lia.
Qed.

Lemma store_le_bytes v : bytes_ok (store_le v).
Proof. unfold store_le. rewrite !land_255. repeat constructor; unfold is_u8; zmod. Qed.

Lemma bytes_be_bytes v : bytes_ok (bytes_be v).
Proof. unfold bytes_be. rewrite !land_255. repeat constructor; unfold is_u8; zmod. Qed.

Lemma load_store_le v : is_u32 v →
  ∃ a b c d, store_le v = [a; b; c; d] ∧ is_u8 a ∧ is_u8 b ∧ is_u8 c ∧ is_u8 d ∧
             v = load_le a b c d.
Proof.
  intros Hv. pose proof (store_le_bytes v) as Hb. unfold store_le in *.
  do 4 eexists. split; [done|].
  repeat (apply Forall_cons in Hb as [? Hb]). split_and!; try done.
  unfold load_le, is_u32 in *. rewrite !land_255, !Z.shiftr_div_pow2 by lia. zmod.
Qed.

(** Storing the swapped word is writing the word big-endian. *)
Lemma store_bswap32 v : is_u32 v → store_le (bswap32 v) = bytes_be v.
Proof.
  intros Hv. destruct (load_store_le v Hv) as (a & b & c & d & Hs & ? & ? & ? & ? & ->).
  rewrite bytes_be_rev, Hs, bswap32_load, load_le_byte by done. done.
Qed.

Lemma load_bytes_be v : is_u32 v →
  ∃ a b c d, bytes_be v = [a; b; c; d] ∧ bswap32 (load_le a b c d) = v.
Proof.
  intros Hv. destruct (load_store_le v Hv) as (a & b & c & d & Hs & ? & ? & ? & ? & E).
  exists d, c, b, a. rewrite bytes_be_rev, Hs. split; [done|].
  by rewrite bswap32_load, E.
Qed.

Lemma load_le_range a b c d : is_u8 a → is_u8 b → is_u8 c → is_u8 d → is_u32 (load_le a b c d).
Proof. unfold is_u8, is_u32, load_le. lia. Qed.

#[export] Hint Resolve store_le_bytes bytes_be_bytes load_le_range : rt.
