(* ===== verification/Text.v ===== *)
(** The C and C++ library functions on text the program's parsers use, on byte
    strings: [find], skipping, [std::to_string], [atoi] and [strtol]. *)
From stdpp Require Import pretty.
From S2P Require Import Prelude Bytes.
Local Open Scope Z_scope.

(** A character class as a test; literals are written by code. *)
Definition is_space (c : Z) : bool := (c =? 32) || ((9 <=? c) && (c <=? 13)).
Definition is_digit (c : Z) : bool := (48 <=? c) && (c <=? 57).

Fixpoint skip (p : Z → bool) (s : list Z) : list Z :=
  match s with c :: s' => if p c then skip p s' else s | [] => [] end.

(** The longest beginning whose characters satisfy [p]. *)
Fixpoint span (p : Z → bool) (s : list Z) : list Z :=
  match s with c :: s => if p c then c :: span p s else [] | [] => [] end.

Fixpoint starts_with (pat s : list Z) : bool :=
  match pat, s with
  | [], _ => true
  | a :: pat, b :: s => (a =? b) && starts_with pat s
  | _, [] => false
  end.

Definition ends_with (pat s : list Z) : bool := starts_with (rev pat) (rev s).

(** [std::string_view::find]: the position of the first occurrence. *)
Fixpoint find (pat s : list Z) : option nat :=
  if starts_with pat s then Some O
  else match s with [] => None | _ :: s => S <$> find pat s end.

(** [std::to_string]. *)
Definition to_string (n : Z) : list Z := bytes_of_string (pretty n).

(** The value of the leading digits, after [acc]. *)
Fixpoint digits (acc : Z) (s : list Z) : Z :=
  match s with
  | c :: s => if is_digit c then digits (acc * 10 + (c - 48)) s else acc
  | [] => acc
  end.

(** Leading white space and a sign. *)
Definition signed (s : list Z) : bool * list Z :=
  match skip is_space s with
  | 45 :: s => (true, s)
  | 43 :: s => (false, s)
  | s => (false, s)
  end.

(** [atoi]; undefined when the value is not an [int]. *)
Definition atoi (s : list Z) : option Z :=
  let '(neg, s) := signed s in int32 (if neg then - digits 0 s else digits 0 s).

(** [strtol] in base 10: the saturated value and the unread rest; nothing when
    there are no digits. *)
Definition strtol (s : list Z) : option (Z * list Z) :=
  let '(neg, s) := signed s in
  match s with
  | c :: _ =>
      if is_digit c then
        let v := digits 0 s in
        Some (Z.max (- 2 ^ 63) (Z.min (2 ^ 63 - 1) (if neg then - v else v)), skip is_digit s)
      else None
  | [] => None
  end.

(** ** Searching *)

Lemma starts_with_app pat s : starts_with pat (pat ++ s) = true.
Proof. induction pat as [|a pat IH]; simpl; [done|]. by rewrite Z.eqb_refl. Qed.

Lemma starts_with_spec pat s : starts_with pat s = true ↔ ∃ rest, s = pat ++ rest.
Proof.
  split; [|by intros [rest ->]; apply starts_with_app].
  revert s. induction pat as [|a pat IH]; intros [|b s] Hs; simpl in *; [by eexists|by eexists|done|].
  apply andb_true_iff in Hs as [->%Z.eqb_eq Hs]. apply IH in Hs as [rest ->]. by exists rest.
Qed.

Lemma find_here pat s : find pat (pat ++ s) = Some O.
Proof.
  pose proof (starts_with_app pat s) as Hs. destruct (pat ++ s) as [|c l]; simpl; by rewrite Hs.
Qed.

(** No occurrence starts inside [pre]. *)
Lemma find_skip pat pre s :
  (∀ i, (i < length pre)%nat → starts_with pat (drop i pre ++ s) = false) →
  find pat (pre ++ s) = (λ n, (length pre + n)%nat) <$> find pat s.
Proof.
  induction pre as [|c pre IH]; intros Hn; simpl; [by destruct (find pat s)|].
  pose proof (Hn O ltac:(simpl; lia)) as H0. simpl in H0. rewrite H0. rewrite IH.
  - by destruct (find pat s).
  - intros i Hi. exact (Hn (S i) ltac:(simpl; lia)).
Qed.

Lemma skip_stop p c s : p c = false → skip p (c :: s) = c :: s.
Proof. simpl. by intros ->. Qed.

Lemma skip_all p l s : Forall (λ c, p c = true) l → skip p (l ++ s) = skip p s.
Proof. induction 1 as [|c l Hc _ IH]; simpl; [done|]. by rewrite Hc. Qed.

Lemma span_app p l c s : Forall (λ c, p c = true) l → p c = false → span p (l ++ c :: s) = l.
Proof. intros Hl Hc. induction Hl as [|x l Hx _ IH]; simpl; [by rewrite Hc|]. by rewrite Hx, IH. Qed.

(** ** Numbers *)

Lemma bytes_of_string_app a b : bytes_of_string (a +:+ b) = bytes_of_string a ++ bytes_of_string b.
Proof. induction a as [|c a IH]; simpl; [done|]. unfold bytes_of_string in *. simpl. by rewrite IH. Qed.

Lemma pretty_char_digit x : (x < 10)%N →
  Z.of_nat (Ascii.nat_of_ascii (pretty_N_char x)) = 48 + Z.of_N x.
Proof.
  intros Hx. rewrite <- (N2Nat.id x) in *. set (k := N.to_nat x) in *. clearbody k.
  do 10 (destruct k as [|k]; [by vm_compute|]). lia.
Qed.

Lemma is_digit_in c : 48 <= c <= 57 → is_digit c = true.
Proof. intros [? ?]. unfold is_digit. by rewrite (proj2 (Z.leb_le 48 c)), (proj2 (Z.leb_le c 57)). Qed.

Lemma pretty_digit x : is_digit (48 + Z.of_N (x mod 10)) = true.
Proof. apply is_digit_in. rewrite N2Z.inj_mod. pose proof (Z.mod_pos_bound (Z.of_N x) 10). lia. Qed.

Lemma digits_pretty_go x : ∀ s rest,
  digits 0 (bytes_of_string (pretty_N_go x s) ++ rest) = digits (Z.of_N x) (bytes_of_string s ++ rest).
Proof.
  induction (N.lt_wf_0 x) as [x _ IH]. intros s rest. destruct (decide (0 < x)%N) as [Hx|Hx].
  - rewrite pretty_N_go_step by done. rewrite IH by (apply N.div_lt; lia).
    unfold bytes_of_string at 1. cbn [String.list_ascii_of_string map app digits].
    pose proof (N.mod_lt x 10 ltac:(lia)). rewrite pretty_char_digit by done.
    rewrite pretty_digit.
    change (map _ (String.list_ascii_of_string s)) with (bytes_of_string s).
    replace (Z.of_N (x / 10) * 10 + (48 + Z.of_N (x mod 10) - 48)) with (Z.of_N x); [done|].
    rewrite N2Z.inj_mod, N2Z.inj_div. zmod.
  - assert (x = 0)%N as -> by lia. by rewrite pretty_N_go_0.
Qed.

Definition all_digits (s : list Z) : Prop := Forall (λ c, is_digit c = true) s.

Lemma pretty_go_digits x : ∀ s,
  all_digits (bytes_of_string s) → all_digits (bytes_of_string (pretty_N_go x s)).
Proof.
  induction (N.lt_wf_0 x) as [x _ IH]. intros s Hs. destruct (decide (0 < x)%N) as [Hx|Hx].
  - rewrite pretty_N_go_step by done. apply IH; [apply N.div_lt; lia|]. constructor; [|done].
    pose proof (N.mod_lt x 10 ltac:(lia)). rewrite pretty_char_digit by done.
    apply pretty_digit.
  - assert (x = 0)%N as -> by lia. by rewrite pretty_N_go_0.
Qed.

Lemma to_string_pos p : to_string (Zpos p) = bytes_of_string (pretty_N_go (Npos p) EmptyString).
Proof. reflexivity. Qed.

(** The decimal digits of a natural number, not empty. *)
Lemma to_string_digits n : 0 <= n →
  all_digits (to_string n) ∧ ∃ c s, to_string n = c :: s ∧ is_digit c = true.
Proof.
  intros Hn. assert (all_digits (to_string n) ∧ to_string n ≠ []) as [Hd Hne].
  { destruct n as [|p|p]; [by repeat constructor| |lia]. rewrite to_string_pos. split.
    - by apply pretty_go_digits; constructor.
    - intros He. pose proof (digits_pretty_go (Npos p) EmptyString []) as Hg. rewrite He in Hg. simpl in Hg. lia. }
  split; [done|]. destruct (to_string n) as [|c s]; [done|]. apply Forall_cons in Hd as [? _]. eauto.
Qed.

Lemma digits_stop v c s : is_digit c = false → digits v (c :: s) = v.
Proof. simpl. by intros ->. Qed.

Lemma digits_to_string n rest : 0 <= n →
  digits 0 (to_string n ++ rest) = digits n rest.
Proof.
  intros Hn. destruct n as [|p|p]; [done| |lia]. by rewrite to_string_pos, digits_pretty_go.
Qed.

Lemma signed_digit c s : is_digit c = true → signed (c :: s) = (false, c :: s).
Proof.
  unfold is_digit. intros Hd. bool_to_prop. unfold signed. cbn [skip].
  assert (is_space c = false) as -> by (unfold is_space; by destruct (c =? 32) eqn:?, (9 <=? c) eqn:?, (c <=? 13) eqn:?; bool_to_prop; try lia).
  destruct c as [|p|p]; try lia. do 6 (destruct p as [p|p|]; try lia; try done).
Qed.

(** [atoi] reads back what [to_string] prints. *)
Lemma atoi_to_string n rest : 0 <= n < 2 ^ 31 →
  digits n rest = n → atoi (to_string n ++ rest) = Some n.
Proof.
  intros Hn Hr. unfold atoi. destruct (to_string_digits n ltac:(lia)) as (_ & c & s & Hs & Hc).
  pose proof (digits_to_string n rest ltac:(lia)) as Hd. rewrite Hs in *. cbn [app] in *.
  rewrite signed_digit, Hd, Hr by done. unfold int32.
  by rewrite (proj2 (Z.leb_le _ _)), (proj2 (Z.ltb_lt _ _)) by lia.
Qed.

Lemma strtol_to_string n : 0 <= n < 2 ^ 63 → strtol (to_string n) = Some (n, []).
Proof.
  intros Hn. unfold strtol. destruct (to_string_digits n ltac:(lia)) as (Ha & c & s & Hs & Hc).
  pose proof (digits_to_string n [] ltac:(lia)) as Hd. rewrite app_nil_r in Hd.
  pose proof (skip_all is_digit (to_string n) [] Ha) as Hk. rewrite app_nil_r in Hk.
  rewrite Hs in *. rewrite signed_digit, Hc, Hd, Hk by done. do 2 f_equal. simpl. lia.
Qed.
