(* ===== verification/Spsc.v ===== *)
(** The lock-free single-producer/single-consumer ring buffer
    ([include/nomos/rt/spsc_queue.hpp]).

    First part: [push], [pop], [empty] and [size] as functions on the object's
    state, with the bounded FIFO queue they implement ([spsc_rep]); the class
    [BoundedQueue] is the contract the queue's clients are proved against.

    Second part: the two threads as a step relation.  Every atomic access is a
    step of its own.  An acquire load may return any value of the location's
    modification order that is not older than the last one the same thread
    read, so the model has the stale reads a release/acquire execution has. *)
From S2P Require Import Prelude Sequences.

(** ** What a queue promises to its clients *)

Class BoundedQueue (Q T : Type) := {
  bq_push : Q → T → Q * bool;
  bq_pop : Q → Q * option T;
  (** [bq_rep q xs]: [q] holds [xs], oldest first. *)
  bq_rep : Q → list T → Prop;
  bq_room : nat;
  bq_push_ok q xs x : bq_rep q xs → length xs < bq_room →
    ∃ q', bq_push q x = (q', true) ∧ bq_rep q' (xs ++ [x]);
  bq_push_full q xs x : bq_rep q xs → length xs = bq_room → bq_push q x = (q, false);
  bq_pop_cons q x xs : bq_rep q (x :: xs) →
    ∃ q', bq_pop q = (q', Some x) ∧ bq_rep q' xs;
  bq_pop_nil q : bq_rep q [] → bq_pop q = (q, None);
  bq_rep_room q xs : bq_rep q xs → length xs ≤ bq_room
}.

(** The bounded queue as a list: what [push] leaves and returns. *)
Definition queue_push {T} (room : nat) (xs : list T) (x : T) : list T * bool :=
  if length xs <? room then (xs ++ [x], true) else (xs, false).

Section client.
Context {Q T : Type} `{BoundedQueue Q T}.

Lemma bq_push_spec q xs x :
  bq_rep q xs →
  ∃ q', bq_push q x = (q', (queue_push bq_room xs x).2) ∧
        bq_rep q' (queue_push bq_room xs x).1.
Proof.
  intros Hr. unfold queue_push. case_if; bool_to_prop; simpl.
  - by apply bq_push_ok.
  - exists q. split; [|done]. eapply bq_push_full; [done|].
    pose proof (bq_rep_room _ _ Hr). lia.
Qed.

(** Pushes one after the other; those beyond the room are lost. *)
Definition push_list (q : Q) (ys : list T) : Q := foldl (λ q y, (bq_push q y).1) q ys.

Lemma bq_push_list ys : ∀ q xs, bq_rep q xs → bq_rep (push_list q ys) (take bq_room (xs ++ ys)).
Proof.
  unfold push_list. induction ys as [|y ys IH]; intros q xs Hq; cbn [foldl]; pose proof (bq_rep_room q xs Hq).
  - by rewrite app_nil_r, take_ge by done.
  - destruct (bq_push_spec q xs y Hq) as (q' & -> & Hq'). cbn [fst]. specialize (IH q' _ Hq').
    unfold queue_push in IH. case_if; bool_to_prop; cbn [fst] in IH; [by rewrite <- app_assoc in IH|].
    rewrite take_app_ge in IH |- * by lia. replace (bq_room - length xs) with 0 in * by lia. by rewrite !take_0 in *.
Qed.

(** Pop until empty; the fuel bounds the iterations of the client's loop. *)
Fixpoint bq_drain (fuel : nat) (q : Q) : Q * list T :=
  match fuel with
  | O => (q, [])
  | S fuel =>
      match bq_pop q with
      | (q', Some x) => let '(q'', xs) := bq_drain fuel q' in (q'', x :: xs)
      | (q', None) => (q', [])
      end
  end.

Lemma bq_drain_spec xs : ∀ fuel q,
  bq_rep q xs → length xs < fuel →
  ∃ q', bq_drain fuel q = (q', xs) ∧ bq_rep q' [].
Proof.
  induction xs as [|x xs IH]; intros [|fuel] q Hr Hf; simpl in *; try lia.
  - rewrite bq_pop_nil by done. eauto.
  - destruct (bq_pop_cons _ _ _ Hr) as (q' & -> & Hr').
    destruct (IH fuel q' Hr') as (q'' & -> & ?); [lia|]. eauto.
Qed.
End client.

(** ** The ring buffer *)

Record spsc (T : Type) := Spsc { slots_ : list T; head_ : Z; tail_ : Z }.
Arguments Spsc {T}. Arguments slots_ {T}. Arguments head_ {T}. Arguments tail_ {T}.

Section spsc.
(** [Capacity = 2 ^ k], at least two; [dflt] is [T{}]. *)
Context {T : Type} (dflt : T) (k : Z).

Definition Capacity : Z := 2 ^ k.
Definition mask_ : Z := Capacity - 1.

Definition spsc_init : spsc T := Spsc (replicate (Z.to_nat Capacity) dflt) 0 0.

Definition push (q : spsc T) (item : T) : spsc T * bool :=
  let head := head_ q in
  let next := Z.land (u64 (head + 1)) mask_ in
  if (next =? tail_ q)%Z then (q, false)
  else (Spsc (<[Z.to_nat head := item]> (slots_ q)) next (tail_ q), true).

Definition pop (q : spsc T) : spsc T * option T :=
  let tail := tail_ q in
  if (tail =? head_ q)%Z then (q, None)
  else match slots_ q !! Z.to_nat tail with
       | Some item =>
           (Spsc (slots_ q) (head_ q) (Z.land (u64 (tail + 1)) mask_), Some item)
       | None => (q, None) (* outside the array: excluded by [spsc_rep] *)
       end.

Definition empty (q : spsc T) : bool := (head_ q =? tail_ q)%Z.

Definition size (q : spsc T) : Z :=
  let h := head_ q in
  let t := tail_ q in
  Z.land (u64 (h - t)) mask_.
End spsc.

Section spsc_seq.
Context {T : Type} (dflt : T) (k : Z) (Hk : (1 <= k < 64)%Z).
Abbreviation Cap := (Capacity k).

Lemma Cap_pos : (2 <= Cap)%Z.
Proof using Hk.
  unfold Capacity. replace k with (Z.succ (k - 1)) by lia.
  rewrite Z.pow_succ_r by lia. pose proof (Z.pow_pos_nonneg 2 (k - 1)). lia.
Qed.

Lemma land_u64_mask x : Z.land (u64 x) (mask_ k) = (x mod Cap)%Z.
Proof using Hk.
  unfold mask_, Capacity. rewrite land_mask by lia. unfold u64, wrapu.
  rewrite Z.mod_mod_divide; [done|].
  exists (2 ^ (64 - k))%Z. rewrite <- Z.pow_add_r by lia. f_equal. lia.
Qed.

(** Two positions less than a lap apart fall on the same slot only if equal. *)
Lemma slot_inj a b : (a mod Cap = b mod Cap → a <= b < a + Cap → a = b)%Z.
Proof using Hk.
  intros E ?. pose proof Cap_pos.
  assert ((b - a) mod Cap = 0)%Z as E'.
  { by rewrite Zminus_mod, <- E, Z.sub_diag, Z.mod_0_l by lia. }
  rewrite Z.mod_small in E'; lia.
Qed.

Lemma slot_inj_small t a : (0 <= t < Cap → a mod Cap = t → t <= a < t + Cap → a = t)%Z.
Proof using Hk.
  intros ? E ?. symmetry. apply slot_inj; [|done]. rewrite E. by apply Z.mod_small.
Qed.

(** [q] holds [xs]: slot [tail + i] of the ring is the [i]-th element. *)
Definition spsc_rep (q : spsc T) (xs : list T) : Prop :=
  (0 <= tail_ q < Cap)%Z ∧
  head_ q = ((tail_ q + Z.of_nat (length xs)) mod Cap)%Z ∧
  (Z.of_nat (length xs) < Cap)%Z ∧
  Z.of_nat (length (slots_ q)) = Cap ∧
  ∀ i x, xs !! i = Some x →
    slots_ q !! Z.to_nat ((tail_ q + Z.of_nat i) mod Cap) = Some x.

Lemma spsc_init_rep : spsc_rep (spsc_init dflt k) [].
Proof using Hk.
  pose proof Cap_pos. split_and!; cbn [spsc_init head_ tail_ slots_ length]; try lia.
  - symmetry. apply Z.mod_small. lia.
  - rewrite length_replicate. lia.
  - done.
Qed.

Lemma spsc_push_ok q xs x :
  spsc_rep q xs → (length xs < Z.to_nat (Cap - 1)) →
  ∃ q', push k q x = (q', true) ∧ spsc_rep q' (xs ++ [x]).
Proof using Hk.
  intros (Ht & Hh & Hl & Hs & Hc) Hlt. pose proof Cap_pos.
  unfold push. rewrite land_u64_mask.
  assert ((head_ q + 1) mod Cap = (tail_ q + Z.of_nat (length xs) + 1) mod Cap)%Z as En.
  { rewrite Hh, Zplus_mod_idemp_l. done. }
  case_if; bool_to_prop.
  - exfalso. rewrite En in Heqb. apply slot_inj_small in Heqb; lia.
  - eexists. split; [done|]. simpl.
    assert (0 <= head_ q < Cap)%Z by (rewrite Hh; apply Z.mod_pos_bound; lia).
    split; [done|]. split_and!; cbn [slots_ head_ tail_].
    + rewrite En, length_app. simpl. f_equal. lia.
    + rewrite length_app. simpl. lia.
    + by rewrite length_insert.
    + intros i y [Hy|[-> ->]]%lookup_snoc_Some.
      * rewrite list_lookup_insert_ne; [by apply Hc|].
        apply lookup_lt_Some in Hy. rewrite Hh.
        intros E%Z2Nat.inj; try (apply Z.mod_pos_bound; lia).
        symmetry in E. apply slot_inj in E; lia.
      * rewrite Hh, list_lookup_insert_eq; [done|].
        rewrite <- Hh. lia.
Qed.

Lemma spsc_push_full q xs x :
  spsc_rep q xs → length xs = Z.to_nat (Cap - 1) → push k q x = (q, false).
Proof using Hk.
  intros (Ht & Hh & Hl & Hs & Hc) E. pose proof Cap_pos.
  unfold push. rewrite land_u64_mask, Hh, Zplus_mod_idemp_l.
  replace (tail_ q + Z.of_nat (length xs) + 1)%Z with (tail_ q + 1 * Cap)%Z by lia.
  rewrite Z_mod_plus_full, Z.mod_small by lia. by rewrite Z.eqb_refl.
Qed.

Lemma spsc_pop_cons q x xs :
  spsc_rep q (x :: xs) → ∃ q', pop k q = (q', Some x) ∧ spsc_rep q' xs.
Proof using Hk.
  intros (Ht & Hh & Hl & Hs & Hc). pose proof Cap_pos. simpl in *.
  unfold pop. case_if; bool_to_prop.
  - exfalso. symmetry in Heqb. rewrite Hh in Heqb. apply slot_inj_small in Heqb; lia.
  - pose proof (Hc 0 x eq_refl) as H0. rewrite Z.add_0_r, Z.mod_small in H0 by lia.
    rewrite H0. eexists. split; [done|]. rewrite land_u64_mask.
    split; [apply Z.mod_pos_bound; lia|]. split_and!; cbn [head_ tail_ slots_].
    + rewrite Hh, Zplus_mod_idemp_l. f_equal. lia.
    + lia.
    + done.
    + intros i y Hy. rewrite Zplus_mod_idemp_l. rewrite <- (Hc (S i) y) by done.
      do 2 f_equal. f_equal. lia.
Qed.

Lemma spsc_pop_nil q : spsc_rep q [] → pop k q = (q, None).
Proof using Hk.
  intros (Ht & Hh & _). unfold pop. simpl in Hh.
  rewrite Z.add_0_r, Z.mod_small in Hh by lia. by rewrite Hh, Z.eqb_refl.
Qed.

Lemma spsc_rep_room q xs : spsc_rep q xs → length xs ≤ Z.to_nat (Cap - 1).
Proof using Hk. intros (_ & _ & ? & _). lia. Qed.

#[export] Instance spsc_queue : BoundedQueue (spsc T) T := {
  bq_push := push k; bq_pop := pop k; bq_rep := spsc_rep;
  bq_room := Z.to_nat (Cap - 1);
  bq_push_ok := spsc_push_ok; bq_push_full := spsc_push_full;
  bq_pop_cons := spsc_pop_cons; bq_pop_nil := spsc_pop_nil;
  bq_rep_room := spsc_rep_room }.

Lemma size_spec q xs : spsc_rep q xs → size k q = Z.of_nat (length xs).
Proof using Hk.
  intros (Ht & Hh & Hl & Hs & Hc). unfold size. rewrite land_u64_mask, Hh.
  rewrite Zminus_mod_idemp_l. replace (_ - _)%Z with (Z.of_nat (length xs)) by lia.
  apply Z.mod_small. lia.
Qed.

Lemma empty_spec q xs : spsc_rep q xs → empty q = true ↔ xs = [].
Proof using Hk.
  intros (Ht & Hh & Hl & Hs & Hc). unfold empty. rewrite Z.eqb_eq, Hh. split.
  - intros E. apply slot_inj_small in E; [|done|lia]. apply length_zero_iff_nil. lia.
  - intros ->. simpl. rewrite Z.add_0_r. apply Z.mod_small. lia.
Qed.
End spsc_seq.

(** ** The two threads

    The producer runs [push], the consumer runs [pop]; each line of the source
    that touches shared memory is one step. *)

Module Conc.
Section conc.
Context {T : Type} (k : Z).

(** Where the producer is in [push]. *)
Inductive producer :=
| PIdle
| PHead (item : T) (head next : Z)   (* head_ loaded, next computed *)
| PFree (item : T) (head next : Z)   (* tail_ loaded, not full *)
| PWrote (item : T) (next : Z).      (* slot written *)

(** Where the consumer is in [pop]. *)
Inductive consumer :=
| CIdle
| CTail (tail : Z)                   (* tail_ loaded *)
| CReady (tail : Z)                  (* head_ loaded, not empty *)
| CRead (tail : Z) (item : T).       (* slot read *)

(** [heads] and [tails] are the modification orders of the two atomics, the
    initial value first; [seen_tail] and [seen_head] the positions of the last
    acquire load by the other thread.  [pushed] and [popped] record the items
    whose [push] and [pop] have taken effect. *)
Record state := State {
  slots : list T; heads : list Z; tails : list Z;
  prod : producer; cons : consumer;
  seen_tail : nat; seen_head : nat;
  pushed : list T; popped : list T }.

Definition init (dflt : T) : state :=
  State (replicate (Z.to_nat (Capacity k)) dflt) [0%Z] [0%Z] PIdle CIdle 0 0 [] [].

Inductive step : state → state → Prop :=
| p_load_head item h ss hs ts c sv sh pu po :
    last hs = Some h →
    step (State ss hs ts PIdle c sv sh pu po)
         (State ss hs ts (PHead item h (Z.land (u64 (h + 1)) (mask_ k))) c sv sh pu po)
| p_full item h next ss hs ts c sv sh pu po j :
    sv ≤ j → ts !! j = Some next →
    step (State ss hs ts (PHead item h next) c sv sh pu po)
         (State ss hs ts PIdle c j sh pu po)
| p_free item h next ss hs ts c sv sh pu po j v :
    sv ≤ j → ts !! j = Some v → next ≠ v →
    step (State ss hs ts (PHead item h next) c sv sh pu po)
         (State ss hs ts (PFree item h next) c j sh pu po)
| p_write item h next ss hs ts c sv sh pu po :
    step (State ss hs ts (PFree item h next) c sv sh pu po)
         (State (<[Z.to_nat h := item]> ss) hs ts (PWrote item next) c sv sh pu po)
| p_store item next ss hs ts c sv sh pu po :
    step (State ss hs ts (PWrote item next) c sv sh pu po)
         (State ss (hs ++ [next]) ts PIdle c sv sh (pu ++ [item]) po)
| c_load_tail t ss hs ts p sv sh pu po :
    last ts = Some t →
    step (State ss hs ts p CIdle sv sh pu po)
         (State ss hs ts p (CTail t) sv sh pu po)
| c_empty t ss hs ts p sv sh pu po j :
    sh ≤ j → hs !! j = Some t →
    step (State ss hs ts p (CTail t) sv sh pu po)
         (State ss hs ts p CIdle sv j pu po)
| c_ready t ss hs ts p sv sh pu po j v :
    sh ≤ j → hs !! j = Some v → t ≠ v →
    step (State ss hs ts p (CTail t) sv sh pu po)
         (State ss hs ts p (CReady t) sv j pu po)
| c_read t item ss hs ts p sv sh pu po :
    ss !! Z.to_nat t = Some item →
    step (State ss hs ts p (CReady t) sv sh pu po)
         (State ss hs ts p (CRead t item) sv sh pu po)
| c_store t item ss hs ts p sv sh pu po :
    step (State ss hs ts p (CRead t item) sv sh pu po)
         (State ss hs (ts ++ [Z.land (u64 (t + 1)) (mask_ k)]) p CIdle sv sh pu (po ++ [item])).

(** The slot a thread is about to touch, if any. *)
Definition writing (s : state) : option Z :=
  match prod s with PFree _ h _ => Some h | _ => None end.
Definition reading (s : state) : option Z :=
  match cons s with CReady t => Some t | _ => None end.
End conc.
End Conc.

(** ** The invariant of the two threads *)

Section conc_inv.
Context {T : Type} (k : Z) (Hk : (1 <= k < 64)%Z).
Import Conc.
Abbreviation Cap := (Capacity k).
Abbreviation cap := (Z.to_nat (Capacity k)).

(** The [i]-th value stored to a counter is [i] reduced to the ring. *)
Definition counts (hist : list Z) (n : nat) : Prop :=
  length hist = S n ∧ ∀ i, i ≤ n → hist !! i = Some (Z.of_nat i mod Cap)%Z.

Definition prod_ok (hn tv : nat) (ss : list T) (p : producer) : Prop :=
  match p with
  | PIdle => True
  | PHead _ h nx => h = (Z.of_nat hn mod Cap)%Z ∧ nx = (Z.of_nat (S hn) mod Cap)%Z
  | PFree _ h nx =>
      h = (Z.of_nat hn mod Cap)%Z ∧ nx = (Z.of_nat (S hn) mod Cap)%Z ∧ S hn < tv + cap
  | PWrote x nx =>
      nx = (Z.of_nat (S hn) mod Cap)%Z ∧ S hn < tv + cap ∧
      ss !! Z.to_nat (Z.of_nat hn mod Cap) = Some x
  end.

Definition cons_ok (tn hv : nat) (pu : list T) (c : consumer) : Prop :=
  match c with
  | CIdle => True
  | CTail t => t = (Z.of_nat tn mod Cap)%Z
  | CReady t => t = (Z.of_nat tn mod Cap)%Z ∧ tn < hv
  | CRead t x => t = (Z.of_nat tn mod Cap)%Z ∧ tn < hv ∧ pu !! tn = Some x
  end.

Record inv (s : state) : Prop := Inv {
  i_heads : counts (heads s) (length (pushed s));
  i_tails : counts (tails s) (length (popped s));
  i_seen_t : seen_tail s ≤ length (popped s);
  i_seen_h : length (popped s) ≤ seen_head s ≤ length (pushed s);
  i_room : length (pushed s) < seen_tail s + cap;
  i_len : length (slots s) = cap;
  i_slots : ∀ i x, length (popped s) ≤ i → pushed s !! i = Some x →
    slots s !! Z.to_nat (Z.of_nat i mod Cap) = Some x;
  i_popped : popped s = take (length (popped s)) (pushed s);
  i_prod : prod_ok (length (pushed s)) (seen_tail s) (slots s) (prod s);
  i_cons : cons_ok (length (popped s)) (seen_head s) (pushed s) (cons s) }.

Lemma counts_last hist n : counts hist n → last hist = Some (Z.of_nat n mod Cap)%Z.
Proof.
  intros [Hl Hi]. rewrite last_lookup, Hl. simpl. by apply Hi.
Qed.

Lemma counts_snoc hist n :
  counts hist n → counts (hist ++ [Z.of_nat (S n) mod Cap]%Z) (S n).
Proof.
  intros [Hl Hi]. split; [rewrite length_app; simpl; lia|].
  intros i ?. apply lookup_snoc_Some.
  destruct (decide (i = S n)) as [->|?]; [right; by rewrite Hl|left; apply Hi; lia].
Qed.

Lemma counts_lookup hist n j v :
  counts hist n → hist !! j = Some v → j ≤ n ∧ v = (Z.of_nat j mod Cap)%Z.
Proof.
  intros [Hl Hi] Hj. assert (j ≤ n) by (apply lookup_lt_Some in Hj; lia).
  rewrite Hi in Hj by done. by simplify_eq.
Qed.

Lemma slot_lt n : Z.to_nat (Z.of_nat n mod Cap) < cap.
Proof using Hk.
  pose proof (Cap_pos k Hk). pose proof (Z.mod_pos_bound (Z.of_nat n) Cap). lia.
Qed.

Lemma slot_ne a b : a < b < a + cap →
  Z.to_nat (Z.of_nat a mod Cap) ≠ Z.to_nat (Z.of_nat b mod Cap).
Proof using Hk.
  intros ? E. pose proof (Cap_pos k Hk).
  apply Z2Nat.inj in E; try (apply Z.mod_pos_bound; lia).
  apply slot_inj in E; lia.
Qed.

Lemma mod_succ n : Z.land (u64 (Z.of_nat n mod Cap + 1)) (mask_ k) = (Z.of_nat (S n) mod Cap)%Z.
Proof using Hk.
  rewrite land_u64_mask, Zplus_mod_idemp_l by done. f_equal. lia.
Qed.

Lemma inv_init dflt : inv (init k dflt : state).
Proof using Hk.
  pose proof (Cap_pos k Hk).
  split; simpl; try done; try lia.
  - split; [done|]. intros i ?. by replace i with 0 by lia.
  - split; [done|]. intros i ?. by replace i with 0 by lia.
  - by rewrite length_replicate.
Qed.

Lemma inv_step s s' : inv s → step k s s' → inv s'.
Proof using Hk.
  intros [Hh Ht Hst Hsh Hroom Hlen Hsl Hpo Hp Hc] Hstep.
  pose proof (Cap_pos k Hk) as HC.
  destruct Hstep; cbn [heads tails seen_tail seen_head pushed popped slots prod cons] in *.
  - apply counts_last in Hh as Hl. split; cbn; try done.
    simplify_eq. by rewrite mod_succ.
  - destruct (counts_lookup _ _ _ _ Ht H0) as [? ?]. split; cbn; try done; lia.
  - destruct (counts_lookup _ _ _ _ Ht H0) as [? ->]. destruct Hp as [-> ->].
    split; cbn; try done; try lia. split_and!; try done.
    assert (S (length pu) ≠ j + cap); [|lia]. intros E. apply H1.
    replace (Z.of_nat (S (length pu))) with (Z.of_nat j + 1 * Cap)%Z by lia.
    apply Z_mod_plus_full.
  - destruct Hp as (-> & -> & ?). split; cbn; try done.
    + by rewrite length_insert.
    + intros i x ? Hx. rewrite list_lookup_insert_ne; [by apply Hsl|].
      apply lookup_lt_Some in Hx. apply not_eq_sym, slot_ne. lia.
    + split_and!; try done. apply list_lookup_insert_eq. rewrite Hlen. apply slot_lt.
  - destruct Hp as (-> & ? & Hx). split; cbn; try done; try (rewrite ?length_app; simpl; lia).
    + rewrite length_app, Nat.add_1_r. by apply counts_snoc.
    + intros i y ? [?|[-> ->]]%lookup_snoc_Some; [by apply Hsl|done].
    + rewrite take_app_le by lia. done.
    + destruct c; simpl in *; try done. naive_solver eauto using lookup_app_l_Some.
  - apply counts_last in Ht as Hl. split; cbn; try done. by simplify_eq.
  - destruct (counts_lookup _ _ _ _ Hh H0) as [? ?]. split; cbn; try done; lia.
  - destruct (counts_lookup _ _ _ _ Hh H0) as [? ->]. simpl in Hc. subst t.
    split; cbn; try done; try lia. split; [done|].
    assert (length po ≠ j) by congruence. lia.
  - destruct Hc as [-> ?]. split; cbn; try done. split_and!; try done.
    destruct (lookup_lt_is_Some_2 pu (length po)) as [x Hx]; [lia|].
    rewrite Hx. rewrite (Hsl (length po) x) in H by done. congruence.
  - destruct Hc as (-> & ? & Hx). rewrite mod_succ. split; cbn; try done.
    + rewrite length_app, Nat.add_1_r. by apply counts_snoc.
    + rewrite length_app. simpl. lia.
    + rewrite length_app. simpl. lia.
    + intros i y Hi ?. apply Hsl; [|done]. rewrite length_app in Hi. simpl in Hi. lia.
    + rewrite length_app, Nat.add_1_r, (take_S_r _ _ item) by done. by rewrite <- Hpo.
Qed.

Lemma inv_reach dflt s : reach (step k) (init k dflt) s → inv s.
Proof using Hk. apply reach_invariant; [apply inv_init|apply inv_step]. Qed.
End conc_inv.

(** ** Properties *)

Section conc_props.
Context {T : Type} (k : Z) (Hk : (1 <= k < 64)%Z).
Import Conc.

(** What the queue holds: the pushed items that have not been popped. *)
Definition in_flight (s : state (T := T)) : list T := drop (length (popped s)) (pushed s).

Lemma in_flight_room s : inv k s → length (in_flight s) ≤ Z.to_nat (Capacity k - 1).
Proof using Hk.
  intros []. unfold in_flight. rewrite length_drop. pose proof (Cap_pos k Hk). lia.
Qed.
End conc_props.

(** C1: seen through [in_flight], every step of the two threads, in any
    interleaving and with stale acquire loads, leaves the queue unchanged,
    appends one item to a queue that is not full, or removes the oldest item:
    the ring buffer refines the bounded FIFO queue, so items come out in the
    order they went in, each once, never more than [Capacity - 1] waiting. *)
Theorem spsc_conc_refines {T} (k : Z) (dflt : T) (s s' : Conc.state) :
  (1 <= k < 64)%Z → reach (Conc.step k) (Conc.init k dflt) s → Conc.step k s s' →
  Conc.popped s = take (length (Conc.popped s)) (Conc.pushed s) ∧
  let room := Z.to_nat (Capacity k - 1) in
  (in_flight s' = in_flight s ∧ Conc.popped s' = Conc.popped s
    ∨ (∃ x, queue_push room (in_flight s) x = (in_flight s', true) ∧
            Conc.pushed s' = Conc.pushed s ++ [x])
    ∨ (∃ x, in_flight s = x :: in_flight s' ∧ Conc.popped s' = Conc.popped s ++ [x])).
Proof.
  intros Hk Hr Hs. apply (inv_reach k Hk) in Hr as Hi.
  pose proof (inv_step k Hk _ _ Hi Hs) as Hi'. pose proof (Cap_pos k Hk).
  split; [apply Hi|]. destruct Hi as [? ? ? ? ? ? ? ? Hp Hc], Hi' as [? ? ? ? Hr' ? ? ? ? ?].
  unfold in_flight, queue_push.
  destruct Hs; cbn [Conc.pushed Conc.popped Conc.seen_tail Conc.seen_head] in *; auto.
  - right; left. exists item. rewrite length_drop, (proj2 (Nat.ltb_lt _ _)).
    + by rewrite drop_app_le by lia.
    + rewrite length_app in Hr'. simpl in Hr'. lia.
  - right; right. exists item. destruct Hc as (_ & _ & Hx).
    by rewrite (drop_S_lookup _ _ _ Hx), length_app, Nat.add_1_r.
Qed.

Lemma spsc_conc_refines_witness :
  let s0 := Conc.init 1 0%Z in
  ∃ s', Conc.step 1 s0 s' ∧ Conc.popped s0 = take (length (Conc.popped s0)) (Conc.pushed s0).
Proof.
  eexists. split.
  - apply (Conc.p_load_head 1 7%Z 0%Z). reflexivity.
  - eapply (spsc_conc_refines 1 0%Z); [lia|apply reach_refl|].
    apply (Conc.p_load_head 1 7%Z 0%Z). reflexivity.
Defined.

(** C20: the slots are never raced on.  When the producer is about to write slot
    [h] and the consumer about to read slot [t] they are different slots;
    whatever item was in slot [h] before was popped by a [tail_] store the
    producer has acquired; and the item the consumer is about to read was
    published by a [head_] store the consumer has acquired. *)
Theorem spsc_race_free {T} (k : Z) (dflt : T) (s : Conc.state) :
  (1 <= k < 64)%Z → reach (Conc.step k) (Conc.init k dflt) s →
  (∀ h t, Conc.writing s = Some h → Conc.reading s = Some t → h ≠ t) ∧
  (∀ h i, Conc.writing s = Some h → i < length (Conc.pushed s) →
     (Z.of_nat i mod Capacity k)%Z = h → i < Conc.seen_tail s) ∧
  (∀ t, Conc.reading s = Some t →
     t = (Z.of_nat (length (Conc.popped s)) mod Capacity k)%Z ∧
     length (Conc.popped s) < Conc.seen_head s).
Proof.
  intros Hk Hr. destruct (inv_reach k Hk _ _ Hr) as [? ? ? ? ? ? ? ? Hp Hc].
  pose proof (Cap_pos k Hk). unfold Conc.writing, Conc.reading. split_and!.
  - intros h t Ew Er. destruct (Conc.prod s), (Conc.cons s); simplify_eq.
    destruct Hp as (-> & _ & ?), Hc as [-> ?]. intros E. symmetry in E.
    apply (slot_inj k Hk) in E; lia.
  - intros h i Ew ? Ei. destruct (Conc.prod s); simplify_eq.
    destruct Hp as (E & _ & ?). destruct (decide (i < Conc.seen_tail s)) as [|?]; [done|].
    apply (slot_inj k Hk) in E; lia.
  - intros t Er. by destruct (Conc.cons s); simplify_eq.
Qed.

Lemma spsc_race_free_witness :
  let s := Conc.State [7%Z; 0%Z; 0%Z; 0%Z] [0%Z; 1%Z] [0%Z]
             (Conc.PFree 8%Z 1 2) (Conc.CReady 0) 0 1 [7%Z] [] in
  Conc.writing s = Some 1%Z ∧ Conc.reading s = Some 0%Z ∧ (1 ≠ 0)%Z.
Proof.
  split; [reflexivity|split; [reflexivity|]].
  refine (proj1 (spsc_race_free 2 0%Z
            (Conc.State [7%Z; 0%Z; 0%Z; 0%Z] [0%Z; 1%Z] [0%Z]
               (Conc.PFree 8%Z 1 2) (Conc.CReady 0) 0 1 [7%Z] []) _ _) _ _ eq_refl eq_refl).
  - lia.
  - eapply reach_step; [eapply reach_step; [eapply reach_step; [eapply reach_step;
      [eapply reach_step; [eapply reach_step; [eapply reach_step;
      [eapply reach_step; [apply reach_refl|]|]|]|]|]|]|]|].
    + apply (Conc.p_load_head 2 7%Z 0%Z). reflexivity.
    + apply (Conc.p_free 2 7%Z 0 1 _ _ _ _ 0 _ _ _ 0 0%Z); [lia|reflexivity|lia].
    + apply Conc.p_write.
    + apply Conc.p_store.
    + apply (Conc.c_load_tail 2 0%Z). reflexivity.
    + apply (Conc.c_ready 2 0%Z _ _ _ _ _ 0 _ _ 1 1%Z); [lia|reflexivity|lia].
    + apply (Conc.p_load_head 2 8%Z 1%Z). reflexivity.
    + apply (Conc.p_free 2 8%Z 1 2 _ _ _ _ 0 _ _ _ 0 0%Z); [lia|reflexivity|lia].
Defined.

(** [push] returns false only when [Capacity - 1] items separate its
    [head_] from the [tail_] value it loaded, and [pop] returns nothing only
    when its [tail_] equals the [head_] value it loaded: with up-to-date loads,
    exactly when the queue is full, respectively empty. *)
Theorem spsc_full_empty_exact {T} (k : Z) (dflt : T) (s s' : Conc.state) :
  (1 <= k < 64)%Z → reach (Conc.step k) (Conc.init k dflt) s → Conc.step k s s' →
  (∀ x h n, Conc.prod s = Conc.PHead x h n → Conc.prod s' = Conc.PIdle →
     length (Conc.pushed s) = Conc.seen_tail s' + Z.to_nat (Capacity k - 1)) ∧
  (∀ t, Conc.cons s = Conc.CTail t → Conc.cons s' = Conc.CIdle →
     Conc.seen_head s' = length (Conc.popped s)).
Proof.
  intros Hk Hr Hs. destruct (inv_reach k Hk _ _ Hr) as [Hh Ht ? ? ? ? ? ? Hp Hc].
  pose proof (Cap_pos k Hk). split.
  - intros x h n Ep Ep'. destruct Hs; cbn in *; simplify_eq.
    destruct (counts_lookup _ _ _ _ _ Ht H1) as [? E]. destruct Hp as [-> ->].
    destruct (decide (S (length pu) = j + Z.to_nat (Capacity k))) as [?|?]; [lia|].
    symmetry in E. apply (slot_inj k Hk) in E; lia.
  - intros t Ec Ec'. destruct Hs; cbn in *; simplify_eq.
    destruct (counts_lookup _ _ _ _ _ Hh H1) as [? E].
    pose proof (slot_inj k Hk (Z.of_nat (length po)) (Z.of_nat j)). lia.
Qed.

Lemma spsc_full_empty_exact_witness :
  let s := Conc.State [0%Z; 0%Z] [0%Z] [0%Z] Conc.PIdle (Conc.CTail 0) 0 0 [] [] in
  let s' := Conc.State [0%Z; 0%Z] [0%Z] [0%Z] Conc.PIdle Conc.CIdle 0 0 [] [] in
  Conc.seen_head s' = length (Conc.popped s).
Proof.
  eapply (spsc_full_empty_exact 1 0%Z); [lia| | |reflexivity|reflexivity].
  - eapply reach_step; [apply reach_refl|].
    apply (Conc.c_load_tail 1 0%Z). reflexivity.
  - apply (Conc.c_empty 1 0%Z _ _ _ _ _ _ _ _ 0); [lia|reflexivity].
Defined.

(** A client's sequence of operations, run on the ring buffer and on a list. *)
Inductive qop (T : Type) := QPush (x : T) | QPop | QSize | QEmpty.
Arguments QPush {T}. Arguments QPop {T}. Arguments QSize {T}. Arguments QEmpty {T}.

Inductive qres (T : Type) := RBool (b : bool) | RItem (x : option T) | RSize (n : Z).
Arguments RBool {T}. Arguments RItem {T}. Arguments RSize {T}.

Definition spsc_op {T} (k : Z) (q : spsc T) (o : qop T) : spsc T * qres T :=
  match o with
  | QPush x => let '(q', b) := push k q x in (q', RBool b)
  | QPop => let '(q', x) := pop k q in (q', RItem x)
  | QSize => (q, RSize (size k q))
  | QEmpty => (q, RBool (empty q))
  end.

Definition list_op {T} (room : nat) (xs : list T) (o : qop T) : list T * qres T :=
  match o with
  | QPush x => let '(xs', b) := queue_push room xs x in (xs', RBool b)
  | QPop => match xs with [] => ([], RItem None) | x :: xs' => (xs', RItem (Some x)) end
  | QSize => (xs, RSize (Z.of_nat (length xs)))
  | QEmpty => (xs, RBool (bool_decide (xs = [])))
  end.

Fixpoint run_ops {S O R} (f : S → O → S * R) (s : S) (os : list O) : S * list R :=
  match os with
  | [] => (s, [])
  | o :: os => let '(s', r) := f s o in let '(s'', rs) := run_ops f s' os in (s'', r :: rs)
  end.

Lemma spsc_op_refines {T} k (q : spsc T) xs o :
  (1 <= k < 64)%Z → spsc_rep k q xs →
  (spsc_op k q o).2 = (list_op (Z.to_nat (Capacity k - 1)) xs o).2 ∧
  spsc_rep k (spsc_op k q o).1 (list_op (Z.to_nat (Capacity k - 1)) xs o).1.
Proof.
  intros Hk Hr. destruct o; simpl.
  - destruct (bq_push_spec (H := spsc_queue k Hk) q xs x Hr) as (q' & E & Hr').
    cbn [bq_push bq_rep bq_room spsc_queue] in *. rewrite E.
    by destruct (queue_push _ xs x).
  - destruct xs as [|x xs].
    + by rewrite (spsc_pop_nil k Hk).
    + by destruct (spsc_pop_cons k Hk q x xs Hr) as (q' & -> & ?).
  - by rewrite (size_spec k Hk q xs Hr).
  - split; [|done]. f_equal. apply eq_bool_prop_intro.
    rewrite !Is_true_true, bool_decide_eq_true. by apply (empty_spec k Hk).
Qed.

(** any sequence of [push], [pop], [size] and [empty] on a fresh ring buffer
    returns what the same sequence returns on a list of at most [Capacity - 1]
    items. *)
Theorem spsc_run_refines {T} (k : Z) (dflt : T) (os : list (qop T)) :
  (1 <= k < 64)%Z →
  (run_ops (spsc_op k) (spsc_init dflt k) os).2 =
  (run_ops (list_op (Z.to_nat (Capacity k - 1))) [] os).2.
Proof.
  intros Hk. pose proof (spsc_init_rep dflt k Hk) as Hr. revert Hr.
  generalize (spsc_init dflt k) as q, (@nil T) as xs.
  induction os as [|o os IH]; intros q xs Hr; [done|]. simpl.
  destruct (spsc_op_refines k q xs o Hk Hr) as [Er Hr'].
  destruct (spsc_op k q o), (list_op _ xs o). simpl in *. subst.
  specialize (IH _ _ Hr'). by do 2 destruct (run_ops _ _ os); simpl in *; subst.
Qed.

Lemma spsc_run_refines_witness :
  (run_ops (spsc_op 2) (spsc_init 0%Z 2)
     [QPush 1; QPush 2; QPush 3; QPush 4; QPop; QSize; QPop; QPop; QPop]%Z).2 =
  [RBool true; RBool true; RBool true; RBool false; RItem (Some 1%Z); RSize 2;
   RItem (Some 2%Z); RItem (Some 3%Z); RItem None].
Proof. rewrite spsc_run_refines by lia. vm_compute. reflexivity. Defined.
