(* ===== verification/Ipc.v ===== *)
(** The IPC frame channel ([include/nomos/rt/ipc.hpp],
    [include/nomos/rt/ipc_channel.hpp], [src/ipc_channel.cpp]).

    A connected descriptor is the list of what its successive [read] (or
    [write]) calls will meet: data arriving in arbitrary fragments, an
    interrupted call, an error, the end of the stream.  [read_exact] and
    [write_exact] loop over that list, so they are structural recursions and
    block (never return) exactly when the list runs out.  The theorems say what
    is read depends only on the bytes and on how the stream ends, never on the
    fragmentation. *)
From S2P Require Import Prelude Bytes.

(** ** Opcodes *)

Inductive opcode :=
| msg_tx_log | msg_session_open | msg_session_close | msg_register_source
| msg_graph_load | msg_graph_reset | msg_plugin_list_req | msg_plugin_list_resp
| msg_link_set_tempo | msg_link_start_transport | msg_link_stop_transport
| msg_param_set | msg_note_on | msg_note_off | msg_midi_in | msg_wasm_hot_swap
| msg_schedule_bundle | msg_modulator_start | msg_modulator_stop
| msg_modulator_update | msg_cc | msg_pitch_bend | msg_chan_pressure | msg_sysex
| msg_mts | msg_tick | msg_midi_event | msg_route_set | msg_graph_load_ack
| msg_midi_diag | msg_repl_eval | msg_repl_eval_response | msg_osc | msg_tap.

#[export] Instance opcode_eq_dec : EqDecision opcode.
Proof. solve_decision. Defined.

Definition opcode_code (o : opcode) : Z :=
  match o with
  | msg_tx_log => 0x30 | msg_session_open => 0x31 | msg_session_close => 0x32
  | msg_register_source => 0x33 | msg_graph_load => 0x34 | msg_graph_reset => 0x35
  | msg_plugin_list_req => 0x36 | msg_plugin_list_resp => 0x37
  | msg_link_set_tempo => 0x38 | msg_link_start_transport => 0x39
  | msg_link_stop_transport => 0x3A | msg_param_set => 0x40 | msg_note_on => 0x41
  | msg_note_off => 0x42 | msg_midi_in => 0x43 | msg_wasm_hot_swap => 0x44
  | msg_schedule_bundle => 0x45 | msg_modulator_start => 0x46
  | msg_modulator_stop => 0x47 | msg_modulator_update => 0x48 | msg_cc => 0x49
  | msg_pitch_bend => 0x4A | msg_chan_pressure => 0x4B | msg_sysex => 0x4C
  | msg_mts => 0x4D | msg_tick => 0x50 | msg_midi_event => 0x51
  | msg_route_set => 0x52 | msg_graph_load_ack => 0x53 | msg_midi_diag => 0x54
  | msg_repl_eval => 0x55 | msg_repl_eval_response => 0x56 | msg_osc => 0x57
  | msg_tap => 0x58
  end%Z.

Definition opcodes : list opcode :=
  [msg_tx_log; msg_session_open; msg_session_close; msg_register_source;
   msg_graph_load; msg_graph_reset; msg_plugin_list_req; msg_plugin_list_resp;
   msg_link_set_tempo; msg_link_start_transport; msg_link_stop_transport;
   msg_param_set; msg_note_on; msg_note_off; msg_midi_in; msg_wasm_hot_swap;
   msg_schedule_bundle; msg_modulator_start; msg_modulator_stop;
   msg_modulator_update; msg_cc; msg_pitch_bend; msg_chan_pressure; msg_sysex;
   msg_mts; msg_tick; msg_midi_event; msg_route_set; msg_graph_load_ack;
   msg_midi_diag; msg_repl_eval; msg_repl_eval_response; msg_osc; msg_tap].

(** The opcode a type byte names, if any: the [switch] on [msg.type()]. *)
Definition opcode_of (t : Z) : option opcode :=
  List.find (λ o, (opcode_code o =? t)%Z) opcodes.

Lemma opcode_of_code o : opcode_of (opcode_code o) = Some o.
Proof. by destruct o. Qed.

(** ** Frames *)

Definition header_size : nat := 8.
Definition max_payload_bytes : Z := Z.shiftl 1 20.

Record header := Header { payload_len : Z; htype : Z; reserved : list Z }.
Record message := Message { hdr : header; payload : list Z }.

Inductive channel_error := eof | io_error | frame_too_large.

(** [header hdr{}] as the eight bytes of the struct, and back. *)
Definition header_bytes (h : header) : list Z :=
  store_le (payload_len h) ++ [htype h] ++ reserved h.

Definition header_of_bytes (l : list Z) : header :=
  match l with
  | [a; b; c; d; t; r0; r1; r2] => Header (load_le a b c d) t [r0; r1; r2]
  | _ => Header 0 0 [0; 0; 0]%Z
  end.

(** ** System calls *)

Inductive errno := ENONE | EINTR | ECONNRESET | EOTHER.
#[export] Instance errno_eq_dec : EqDecision errno.
Proof. solve_decision. Defined.

(** What a call of [read] finds: at least one byte, the end, or an error. *)
Inductive read_ev := RdData (b : Z) (bs : list Z) | RdEof | RdErr (e : errno).

(** What a call of [write] does: accepts up to [S n] bytes, none, or fails. *)
Inductive write_ev := WrTake (n : nat) | WrZero | WrErr (e : errno).

Inductive rx := RxOk (bs : list Z) | RxFail (e : errno) | RxBlocked.
Inductive wx := WxOk | WxFail | WxBlocked.

(** The unread tail of a fragment stays in the descriptor's buffer. *)
Definition unread (bs : list Z) (fd : list read_ev) : list read_ev :=
  match bs with [] => fd | b :: bs => RdData b bs :: fd end.

Fixpoint read_exact (n : nat) (fd : list read_ev) : rx * list read_ev :=
  match n with
  | O => (RxOk [], fd)
  | S _ =>
      match fd with
      | [] => (RxBlocked, [])
      | RdEof :: _ => (RxFail ENONE, fd) (* errno = 0 *)
      | RdErr EINTR :: fd' => read_exact n fd'
      | RdErr e :: fd' => (RxFail e, fd')
      | RdData b bs :: fd' =>
          let l := b :: bs in
          if n <=? length l then (RxOk (take n l), unread (drop n l) fd')
          else match read_exact (n - length l) fd' with
               | (RxOk r, fd'') => (RxOk (l ++ r), fd'')
               | other => other
               end
      end
  end.

(** Also returns the bytes that reached the peer. *)
Fixpoint write_exact (buf : list Z) (fd : list write_ev) : wx * list Z * list write_ev :=
  match buf with
  | [] => (WxOk, [], fd)
  | _ :: _ =>
      match fd with
      | [] => (WxBlocked, [], [])
      | WrErr EINTR :: fd' => write_exact buf fd'
      | WrErr _ :: fd' => (WxFail, [], fd')
      | WrZero :: fd' => (WxFail, [], fd')
      | WrTake n :: fd' =>
          let '(r, out, fd'') := write_exact (drop (S n) buf) fd' in
          (r, take (S n) buf ++ out, fd'')
      end
  end.

(** ** [read_message] and [write_message] *)

Inductive read_result := RMsg (m : message) | RErr (e : channel_error) | RBlocked.
Inductive write_result := WOk | WErr (e : channel_error) | WBlocked.

(** [errno == 0 || errno == ECONNRESET ? eof : io_error]. *)
Definition read_failure (e : errno) : channel_error :=
  match e with ENONE | ECONNRESET => eof | _ => io_error end.

Definition read_message (fd : list read_ev) : read_result * list read_ev :=
  match read_exact header_size fd with
  | (RxFail e, fd) => (RErr (read_failure e), fd)
  | (RxBlocked, fd) => (RBlocked, fd)
  | (RxOk hb, fd) =>
      let h := header_of_bytes hb in
      let len := bswap32 (payload_len h) in
      if (max_payload_bytes <? len)%Z then (RErr frame_too_large, fd)
      else
        let h := Header len (htype h) (reserved h) in
        if (0 <? len)%Z then
          match read_exact (Z.to_nat len) fd with
          | (RxFail e, fd) => (RErr (read_failure e), fd)
          | (RxBlocked, fd) => (RBlocked, fd)
          | (RxOk bs, fd) => (RMsg (Message h bs), fd)
          end
        else (RMsg (Message h []), fd)
  end.

Definition write_message (fd : list write_ev) (type : Z) (payload : list Z)
  : write_result * list Z * list write_ev :=
  let len := u32 (Z.of_nat (length payload)) in
  let h := Header (bswap32 len) type [0; 0; 0]%Z in
  match write_exact (header_bytes h) fd with
  | (WxFail, out, fd) => (WErr io_error, out, fd)
  | (WxBlocked, out, fd) => (WBlocked, out, fd)
  | (WxOk, out, fd) =>
      if (0 <? len)%Z then
        match write_exact (take (Z.to_nat len) payload) fd with
        | (WxFail, out', fd) => (WErr io_error, out ++ out', fd)
        | (WxBlocked, out', fd) => (WBlocked, out ++ out', fd)
        | (WxOk, out', fd) => (WOk, out ++ out', fd)
        end
      else (WOk, out, fd)
  end.

(** ** The frame as bytes *)

(** Wire format: length big-endian, type, three zero bytes, payload. *)
Definition frame (type : Z) (payload : list Z) : list Z :=
  bytes_be (Z.of_nat (length payload)) ++ type :: [0; 0; 0]%Z ++ payload.

(** What a stream holds before it ends, and how it ends. *)
Fixpoint stream_data (fd : list read_ev) : list Z :=
  match fd with
  | RdData b bs :: fd => b :: bs ++ stream_data fd
  | RdErr EINTR :: fd => stream_data fd
  | _ => []
  end.

Inductive ending := EndEof | EndErr (e : errno) | EndOpen.

Fixpoint stream_end (fd : list read_ev) : ending :=
  match fd with
  | RdData _ _ :: fd => stream_end fd
  | RdErr EINTR :: fd => stream_end fd
  | RdErr e :: _ => EndErr e
  | RdEof :: _ => EndEof
  | [] => EndOpen
  end.

(** What a read of more bytes than there are returns, by the stream's end. *)
Definition end_rx (e : ending) : rx :=
  match e with EndEof => RxFail ENONE | EndErr e => RxFail e | EndOpen => RxBlocked end.
Definition end_result (e : ending) : read_result :=
  match e with
  | EndEof => RErr eof
  | EndErr e => RErr (read_failure e)
  | EndOpen => RBlocked
  end.

(** [read_message] as a function of the bytes and the end of the stream. *)
Definition decode (bs : list Z) (e : ending) : read_result :=
  if length bs <? header_size then end_result e
  else
    let h := header_of_bytes (take header_size bs) in
    let len := bswap32 (payload_len h) in
    if (max_payload_bytes <? len)%Z then RErr frame_too_large
    else
      let rest := drop header_size bs in
      if length rest <? Z.to_nat len then end_result e
      else RMsg (Message (Header len (htype h) (reserved h)) (take (Z.to_nat len) rest)).

Lemma unread_data bs fd : stream_data (unread bs fd) = bs ++ stream_data fd.
Proof. by destruct bs. Qed.

Lemma unread_end bs fd : stream_end (unread bs fd) = stream_end fd.
Proof. by destruct bs. Qed.

(** [read_exact] on any fragmentation of the stream. *)
Lemma read_exact_spec fd : ∀ n,
  if length (stream_data fd) <? n then (read_exact n fd).1 = end_rx (stream_end fd)
  else ∃ fd', read_exact n fd = (RxOk (take n (stream_data fd)), fd') ∧
              stream_data fd' = drop n (stream_data fd) ∧ stream_end fd' = stream_end fd.
Proof.
  induction fd as [|[b bs| |e] fd IH]; intros [|n]; cbn [read_exact].
  1,3,5,7: rewrite (proj2 (Nat.ltb_ge _ _)) by lia; rewrite take_0, drop_0; eauto.
  - done.
  - destruct (S n <=? length (b :: bs)) eqn:E; bool_to_prop; cbn [stream_data stream_end].
    + rewrite (proj2 (Nat.ltb_ge _ _)) by (simpl in *; rewrite length_app; lia).
      exists (unread (drop (S n) (b :: bs)) fd).
      rewrite unread_data, unread_end, app_comm_cons, take_app_le, drop_app_le by done.
      done.
    + specialize (IH (S n - length (b :: bs))).
      rewrite app_comm_cons, length_app.
      destruct (length (stream_data fd) <? _) eqn:E1; bool_to_prop.
      * rewrite (proj2 (Nat.ltb_lt _ _)) by lia.
        destruct (read_exact _ fd) as [[] fd']; simpl in *; try done.
        by destruct (stream_end fd).
      * rewrite (proj2 (Nat.ltb_ge _ _)) by lia.
        destruct IH as (fd' & -> & Hd & He). exists fd'.
        by rewrite take_app_ge, drop_app_ge by lia.
  - done.
  - destruct e; cbn [stream_data stream_end]; try done. apply IH.
Qed.

(** A read that meets the stream's end fails the way [decode] says. *)
Lemma read_exact_short n fd :
  length (stream_data fd) < n → (read_exact n fd).1 = end_rx (stream_end fd).
Proof.
  intros H. pose proof (read_exact_spec fd n) as R.
  by rewrite (proj2 (Nat.ltb_lt _ _)) in R by done.
Qed.

Lemma read_exact_full n fd :
  n <= length (stream_data fd) →
  ∃ fd', read_exact n fd = (RxOk (take n (stream_data fd)), fd') ∧
         stream_data fd' = drop n (stream_data fd) ∧ stream_end fd' = stream_end fd.
Proof.
  intros H. pose proof (read_exact_spec fd n) as R.
  by rewrite (proj2 (Nat.ltb_ge _ _)) in R by done.
Qed.

#[global] Opaque max_payload_bytes bswap32 header_of_bytes.

(** What the source does with the outcome of a failed [read_exact]. *)
Definition rx_result (r : rx) (ok : list Z → read_result) : read_result :=
  match r with
  | RxOk l => ok l
  | RxFail e => RErr (read_failure e)
  | RxBlocked => RBlocked
  end.

Lemma rx_result_end e ok : rx_result (end_rx e) ok = end_result e.
Proof. by destruct e. Qed.

(** [read_message] with both failure branches written once. *)
Lemma read_message_eq fd :
  read_message fd =
  let '(r, fd1) := read_exact header_size fd in
  match r with
  | RxOk hb =>
      let h := header_of_bytes hb in
      let len := bswap32 (payload_len h) in
      if (max_payload_bytes <? len)%Z then (RErr frame_too_large, fd1)
      else
        let h := Header len (htype h) (reserved h) in
        if (0 <? len)%Z then
          let '(r2, fd2) := read_exact (Z.to_nat len) fd1 in
          (rx_result r2 (λ bs, RMsg (Message h bs)), fd2)
        else (RMsg (Message h []), fd1)
  | _ => (rx_result r (λ _, RBlocked), fd1)
  end.
Proof.
  unfold read_message. destruct (read_exact header_size fd) as [[hb|e|] fd1]; try done.
  cbv zeta. case_if; [done|]. case_if; [|done].
  by destruct (read_exact _ fd1) as [[] ?].
Qed.

(** The bytes a message takes on the wire. *)
Definition message_size (m : message) : nat := header_size + Z.to_nat (payload_len (hdr m)).

Lemma read_message_spec fd :
  (read_message fd).1 = decode (stream_data fd) (stream_end fd) ∧
  match (read_message fd).1 with
  | RMsg m => stream_data (read_message fd).2 = drop (message_size m) (stream_data fd) ∧
              stream_end (read_message fd).2 = stream_end fd
  | _ => True
  end.
Proof.
  rewrite read_message_eq. unfold decode.
  destruct (length (stream_data fd) <? header_size) eqn:E; bool_to_prop.
  - pose proof (read_exact_short header_size fd E) as H.
    destruct (read_exact header_size fd) as [r fd1]. cbn [fst] in H. subst r.
    by destruct (stream_end fd).
  - destruct (read_exact_full header_size fd E) as (fd1 & -> & Hd & He). cbv zeta.
    set (h := header_of_bytes _). set (len := bswap32 _).
    destruct (max_payload_bytes <? len)%Z; [done|]. rewrite <- Hd, <- He.
    destruct (0 <? len)%Z eqn:E0; bool_to_prop.
    + destruct (length (stream_data fd1) <? Z.to_nat len) eqn:E1; bool_to_prop.
      * pose proof (read_exact_short _ fd1 E1) as H.
        destruct (read_exact (Z.to_nat len) fd1) as [r fd2]. cbn [fst snd] in *. subst r.
        rewrite rx_result_end. by destruct (stream_end fd1).
      * destruct (read_exact_full _ fd1 E1) as (fd2 & -> & Hd2 & He2).
        cbn [fst snd rx_result]. unfold message_size. cbn [hdr payload_len].
        by rewrite Hd2, Hd, drop_drop.
    + replace (Z.to_nat len) with 0 by lia.
      rewrite (proj2 (Nat.ltb_ge _ _)) by lia. cbn [fst snd].
      unfold message_size. cbn [hdr payload_len].
      replace (Z.to_nat len) with 0 by lia. by rewrite take_0, Hd.
Qed.

(** C25: however the stream is cut into fragments and interrupted calls, the
    result of [read_message] is the one [decode] computes from the stream's
    bytes and the way it ends; and when a message comes back exactly its bytes
    have been consumed. *)
Theorem read_message_decode fd :
  (read_message fd).1 = decode (stream_data fd) (stream_end fd) ∧
  match (read_message fd).1 with
  | RMsg m => stream_data (read_message fd).2 = drop (message_size m) (stream_data fd) ∧
              stream_end (read_message fd).2 = stream_end fd
  | _ => True
  end.
Proof. apply read_message_spec. Qed.

(** ** Writing *)

Lemma write_exact_spec fd : ∀ buf r out fd',
  write_exact buf fd = (r, out, fd') →
  out `prefix_of` buf ∧ (r = WxOk → out = buf).
Proof.
  induction fd as [|[n| |e] fd IH]; intros [|b buf] r out fd' H; cbn [write_exact] in H;
    try (simplify_eq; split; [apply prefix_nil || done | done]).
  - destruct (write_exact (drop (S n) (b :: buf)) fd) as [[r1 o1] f1] eqn:E.
    simplify_eq. destruct (IH _ _ _ _ E) as [Hp Hok].
    rewrite <- (take_drop (S n) (b :: buf)) at 2 4. split.
    + by apply prefix_app.
    + intros ->. by rewrite Hok.
  - destruct e; [simplify_eq; split; [apply prefix_nil|done] ..| | |].
    + eapply IH, H.
    + simplify_eq. split; [apply prefix_nil|done].
    + simplify_eq. split; [apply prefix_nil|done].
Qed.

Lemma header_frame n type : is_u32 n →
  header_bytes (Header (bswap32 n) type [0; 0; 0]%Z) = bytes_be n ++ [type; 0; 0; 0]%Z.
Proof. intros. unfold header_bytes. cbn [payload_len htype reserved]. by rewrite store_bswap32. Qed.

Lemma write_message_spec fd type payload :
  (Z.of_nat (length payload) < 2 ^ 32)%Z →
  let '(r, out, _) := write_message fd type payload in
  out `prefix_of` frame type payload ∧
  (r = WOk → out = frame type payload) ∧
  (∀ e, r = WErr e → e = io_error).
Proof.
  intros Hl. unfold write_message, frame. set (n := Z.of_nat (length payload)) in *.
  rewrite u32_small by (unfold is_u32; lia). rewrite header_frame by (unfold is_u32; lia).
  replace (Z.to_nat n) with (length payload) by lia. rewrite firstn_all.
  change (bytes_be n ++ type :: ([0; 0; 0]%Z ++ payload))
    with (bytes_be n ++ [type; 0; 0; 0]%Z ++ payload). rewrite app_assoc.
  generalize (bytes_be n ++ [type; 0; 0; 0]%Z) as hb. intros hb.
  destruct (write_exact hb fd) as [[[] out] fd1] eqn:E;
    destruct (write_exact_spec _ _ _ _ _ E) as [Hp Hok].
  2, 3: split; [by apply prefix_app_r|split; [done|intros; by simplify_eq]].
  rewrite Hok by done. case_if.
  - destruct (write_exact payload fd1) as [[[] out2] fd2] eqn:E2;
      destruct (write_exact_spec _ _ _ _ _ E2) as [Hp2 Hok2];
      (split; [by apply prefix_app|split; [|intros; by simplify_eq]]).
    + by rewrite Hok2. + done. + done.
  - destruct payload; [|simpl in *; lia]. by rewrite app_nil_r.
Qed.

(** C29: whatever the descriptor does (short writes, interrupts, errors),
    [write_message] reports success only after exactly the frame of the message
    has reached the peer, and otherwise leaves a prefix of that frame; its only
    error is [io_error]. *)
Theorem write_message_frame fd type payload :
  (Z.of_nat (length payload) < 2 ^ 32)%Z →
  let '(r, out, _) := write_message fd type payload in
  out `prefix_of` frame type payload ∧
  (r = WOk → out = frame type payload) ∧
  (∀ e, r = WErr e → e = io_error).
Proof. apply write_message_spec. Qed.

Lemma write_message_frame_witness :
  (Z.of_nat (length [7; 8; 9]) < 2 ^ 32)%Z ∧
  let '(r, out, _) := write_message [WrTake 2; WrErr EINTR; WrTake 6; WrTake 0; WrTake 9] 0x41 [7; 8; 9]%Z in
  out `prefix_of` frame 0x41 [7; 8; 9]%Z ∧ (r = WOk → out = frame 0x41 [7; 8; 9]%Z) ∧
  (∀ e, r = WErr e → e = io_error).
Proof. split; [simpl; lia|]. apply write_message_frame. simpl; lia. Defined.

(** ** Frames come back *)

Definition host_message (type : Z) (payload : list Z) : message :=
  Message (Header (Z.of_nat (length payload)) type [0; 0; 0]%Z) payload.

(** What fits in a frame: at most 1 MiB, as [read_message] insists. *)
Definition fits (p : list Z) : Prop := (Z.of_nat (length p) <= max_payload_bytes)%Z.

Lemma max_payload_eq : max_payload_bytes = (2 ^ 20)%Z.
Proof. done. Qed.

Lemma fits_u32 p : fits p → is_u32 (Z.of_nat (length p)).
Proof. unfold fits. rewrite max_payload_eq. unfold is_u32. lia. Qed.

Lemma frame_header type p : is_u32 (Z.of_nat (length p)) →
  ∃ a b c d, frame type p = [a; b; c; d; type; 0; 0; 0]%Z ++ p ∧
             bswap32 (load_le a b c d) = Z.of_nat (length p).
Proof.
  intros (a & b & c & d & Hb & Hv)%load_bytes_be. exists a, b, c, d. split; [|done].
  unfold frame. by rewrite Hb.
Qed.

Lemma header_of_bytes_eq a b c d t r0 r1 r2 :
  header_of_bytes [a; b; c; d; t; r0; r1; r2] = Header (load_le a b c d) t [r0; r1; r2].
Proof. done. Qed.

Lemma decode_frame type p rest e : fits p →
  decode (frame type p ++ rest) e = RMsg (host_message type p).
Proof.
  intros Hf. destruct (frame_header type p) as (a & b & c & d & -> & Hv); [by apply fits_u32|].
  unfold decode. rewrite <- app_assoc. cbn [app].
  change (take header_size _) with [a; b; c; d; type; 0; 0; 0]%Z.
  change (drop header_size _) with (p ++ rest).
  rewrite (proj2 (Nat.ltb_ge _ _)) by (unfold header_size; cbn [length]; lia).
  rewrite header_of_bytes_eq. cbn [payload_len htype reserved]. rewrite Hv.
  rewrite (proj2 (Z.ltb_ge _ _)) by apply Hf. rewrite Nat2Z.id.
  rewrite (proj2 (Nat.ltb_ge _ _)) by (rewrite length_app; lia).
  by rewrite take_app_length.
Qed.

Lemma length_frame type p : is_u32 (Z.of_nat (length p)) →
  length (frame type p) = header_size + length p.
Proof. intros H. destruct (frame_header type p H) as (a & b & c & d & -> & _). done. Qed.

(** Reading until the first error, as every client of the channel does. *)
Fixpoint read_all (fuel : nat) (fd : list read_ev) : list message * read_result :=
  match fuel with
  | O => ([], RBlocked)
  | S fuel =>
      match read_message fd with
      | (RMsg m, fd) => let '(ms, r) := read_all fuel fd in (m :: ms, r)
      | (r, _) => ([], r)
      end
  end.

Lemma read_all_S fuel fd :
  read_all (S fuel) fd =
  match read_message fd with
  | (RMsg m, fd) => let '(ms, r) := read_all fuel fd in (m :: ms, r)
  | (r, _) => ([], r)
  end.
Proof. done. Qed.

Lemma read_all_frames ms : ∀ fd rest,
  Forall (fits ∘ snd) ms →
  stream_data fd = concat (map (uncurry frame) ms) ++ rest →
  length rest < header_size →
  read_all (S (length ms)) fd = (map (uncurry host_message) ms, end_result (stream_end fd)).
Proof.
  induction ms as [|[t p] ms IH]; intros fd rest Hf Hd Hr;
    destruct (read_message_spec fd) as [H1 H2]; rewrite read_all_S;
    destruct (read_message fd) as [r fd1]; cbn [fst snd] in *; subst r.
  - rewrite Hd in *. cbn [map concat app] in *. unfold decode.
    rewrite (proj2 (Nat.ltb_lt _ _)) by done. by destruct (stream_end fd).
  - inv Hf. cbn [map concat uncurry] in Hd. rewrite <- app_assoc in Hd.
    rewrite Hd, decode_frame in * by done. destruct H2 as [H2 He]. cbn [length].
    rewrite (IH fd1 rest); [by rewrite He|done| |done].
    rewrite H2. unfold message_size, host_message. cbn [hdr payload_len].
    rewrite Nat2Z.id, <- (length_frame t) by (by apply fits_u32). apply drop_app_length.
Qed.

(** Several messages written one after the other. *)
Fixpoint write_all (fd : list write_ev) (ms : list (Z * list Z)) : option (list Z) :=
  match ms with
  | [] => Some []
  | (t, p) :: ms =>
      match write_message fd t p with
      | (WOk, out, fd) => app out <$> write_all fd ms
      | _ => None
      end
  end.

Lemma write_all_frames ms : ∀ fd out,
  Forall (fits ∘ snd) ms → write_all fd ms = Some out → out = concat (map (uncurry frame) ms).
Proof.
  induction ms as [|[t p] ms IH]; intros fd out Hf H; cbn [write_all] in H; [by simplify_eq|].
  inv Hf. pose proof (write_message_spec fd t p) as Hw.
  destruct (write_message fd t p) as [[[] o] fd1]; [|done|done].
  apply fmap_Some in H as (o2 & H & ->). cbn [map concat uncurry].
  f_equal; [apply Hw; [by apply fits_u32|done]|by eapply IH].
Qed.

(** C8: what one side writes with successive [write_message] calls, the other
    side's [read_message] calls return in order and unchanged, under every
    splitting of the writes and of the reads, and the reader then sees how the
    connection ends (a clean close, in the middle of a header or not, is
    [eof]). *)
Theorem ipc_round_trip ms wfd rfd out rest :
  Forall (fits ∘ snd) ms →
  write_all wfd ms = Some out →
  stream_data rfd = out ++ rest → length rest < header_size →
  read_all (S (length ms)) rfd = (map (uncurry host_message) ms, end_result (stream_end rfd)).
Proof. intros Hf Hw%write_all_frames Hd Hr; [|done]. subst. by eapply read_all_frames. Qed.

Lemma ipc_round_trip_witness : ∃ wfd rfd out,
  write_all wfd [(0x50, [1; 2; 3]); (0x39, [])]%Z = Some out ∧ stream_data rfd = out ++ [0; 0]%Z ∧
  read_all 3 rfd = (map (uncurry host_message) [(0x50, [1; 2; 3]); (0x39, [])]%Z, RErr eof).
Proof.
  exists [WrTake 0; WrTake 9; WrErr EINTR; WrTake 1; WrTake 9; WrTake 9].
  exists [RdData 0 [0; 0]; RdErr EINTR; RdData 3 [0x50]; RdData 0 [0; 0; 1; 2]; RdData 3 [0; 0; 0];
          RdData 0 [0x39; 0; 0; 0]; RdData 0 [0]; RdEof]%Z.
  eexists. split; [vm_compute; reflexivity|]. split; [reflexivity|].
  match goal with |- read_all 3 ?r = _ =>
    eapply (ipc_round_trip [(0x50, [1; 2; 3]); (0x39, [])]%Z
             [WrTake 0; WrTake 9; WrErr EINTR; WrTake 1; WrTake 9; WrTake 9] r _ [0; 0]%Z) end.
  - repeat constructor; vm_compute; discriminate.
  - vm_compute. reflexivity.
  - reflexivity.
  - vm_compute. lia.
Defined.

