(* ===== verification/Events.v ===== *)
(** CLAP events, their MIDI translation in both directions and the event
    buffers of the process thread ([include/nomos/rt/input_event.hpp],
    [src/input_event_buffer.hpp/.cpp], [src/midi_out_event.hpp],
    [src/event_collector.hpp/.cpp], [src/midi_io.hpp/.cpp]).

    The union of CLAP events is an inductive type: its constructor is
    [header.type].  An array filled up to [count_] is the list of its first
    [count_] elements.  RtMidi is third-party: its objects are the class
    [RtMidi], whose calls fail (throw) by returning [None]. *)
From S2P Require Import Prelude Bytes Spsc Binary.

(** ** CLAP events *)

Record clap_header := Header { time : Z; live : bool }.
Record clap_event_note := Note {
  nheader : clap_header; note_id : Z; port_index : Z; channel : Z; key : Z; velocity : f64 }.
Record clap_event_midi := Midi {
  mheader : clap_header; mport_index : Z; data0 : Z; data1 : Z; data2 : Z }.

Inductive clap_event :=
| EvNoteOn (n : clap_event_note)
| EvNoteOff (n : clap_event_note)
| EvMidi (m : clap_event_midi)
| EvOther (h : clap_header).

Definition event_header (e : clap_event) : clap_header :=
  match e with
  | EvNoteOn n | EvNoteOff n => nheader n
  | EvMidi m => mheader m
  | EvOther h => h
  end.

(** ** [input_event_buffer] *)

Section input_buffer.
Context {Q : Type} `{BoundedQueue Q clap_event}.

Definition max_input_events : nat := 64.

(** [while (count_ < max_events)]: at most 64 iterations, the fuel. *)
Fixpoint drain_from (fuel : nat) (buf : list clap_event) (q : Q) : list clap_event * Q :=
  match fuel with
  | O => (buf, q)
  | S fuel =>
      if length buf <? max_input_events then
        match bq_pop q with
        | (q', Some ev) => drain_from fuel (buf ++ [ev]) q'
        | (q', None) => (buf, q')
        end
      else (buf, q)
  end.
Definition drain (buf : list clap_event) (q : Q) : list clap_event * Q :=
  drain_from max_input_events buf q.

(** [clear()] then [drain] of each queue in turn. *)
Fixpoint drain_queues (buf : list clap_event) (qs : list Q) : list clap_event * list Q :=
  match qs with
  | [] => (buf, [])
  | q :: qs =>
      let '(buf, q) := drain buf q in
      let '(buf, qs) := drain_queues buf qs in
      (buf, q :: qs)
  end.
End input_buffer.

Definition size_impl (buf : list clap_event) : Z := u32 (Z.of_nat (length buf)).
Definition get_impl (buf : list clap_event) (index : nat) : option clap_header :=
  if length buf <=? index then None else event_header <$> buf !! index.

(** ** [event_collector] *)

Record midi_out_event := MidiOut {
  sample_offset : Z; oport : Z; osize : Z; odata : Z * Z * Z }.

Definition collector_max_events : nat := 128.

Definition midi_message_size (status : Z) : Z :=
  if (0xF8 <=? status)%Z then 1
  else if (0xF0 <=? status)%Z then 3
  else let n := Z.land status 0xF0 in
       if (n =? 0xC0)%Z || (n =? 0xD0)%Z then 2 else 3.

Definition clampi (v lo hi : Z) : Z :=
  if (v <? lo)%Z then lo else if (hi <? v)%Z then hi else v.

(** A CLAP note as MIDI bytes; [None]: discarded.  The cast of
    [velocity * 127.0] to [int] is undefined outside [int] (outer [option]). *)
Definition note_bytes (status : Z) (n : clap_event_note) : option (option (Z * Z * Z)) :=
  if (channel n <? 0)%Z || (key n <? 0)%Z then Some None
  else
    let ch := u8 (Z.land (channel n) 0x0F) in
    let k := u8 (Z.land (key n) 0x7F) in
    v ← f_to_int (velocity n *d lit64 127 1);
    Some (Some (u8 (Z.lor status ch), k, u8 (clampi v 0 127))).

(** What [try_push_impl] appends for an event when there is room. *)
Definition translate (e : clap_event) : option (option midi_out_event) :=
  let offset := u16 (Z.min (time (event_header e)) 0xFFFF) in
  match e with
  | EvNoteOn n => option_map (MidiOut offset 0 3) <$> note_bytes 0x90 n
  | EvNoteOff n => option_map (MidiOut offset 0 3) <$> note_bytes 0x80 n
  | EvMidi m =>
      let size := midi_message_size (data0 m) in
      Some (if (0 <? size)%Z then
              Some (MidiOut offset (u8 (Z.land (mport_index m) 0xFF)) size
                      (data0 m, data1 m, data2 m))
            else None)
  | EvOther _ => Some None
  end.

Definition try_push (evs : list midi_out_event) (e : clap_event)
  : option (list midi_out_event * bool) :=
  if collector_max_events <=? length evs then Some (evs, false)
  else t ← translate e;
       Some (match t with Some o => evs ++ [o] | None => evs end, true).

(** Every event a plugin pushes in one block. *)
Fixpoint push_all (evs : list midi_out_event) (es : list clap_event)
  : option (list midi_out_event) :=
  match es with
  | [] => Some evs
  | e :: es => r ← try_push evs e; push_all r.1 es
  end.

(** One [midi_event_block]: its [events[]] up to [count]. *)
Abbreviation midi_event_block := (list midi_out_event).

Section flush.
Context {Q : Type} `{BoundedQueue Q midi_event_block}.

(** The outer loop of [flush_to]; a pass takes at least one event. *)
Fixpoint flush_from (fuel : nat) (evs : list midi_out_event) (q : Q) (pushed : nat) : Q * nat :=
  match fuel with
  | O => (q, pushed)
  | S fuel =>
      match evs with
      | [] => (q, pushed)
      | _ => flush_from fuel (drop 7 evs) (bq_push q (take 7 evs)).1 (S pushed)
      end
  end.
Definition flush_to (evs : list midi_out_event) (q : Q) : Q * nat :=
  flush_from (length evs) evs q 0.
End flush.

(** ** [midi_io] *)

Class RtMidi (R : Type) := {
  getPortCount : R → nat;
  getPortName : R → nat → string;
  openPort : R → nat → option R;
  openVirtualPort : R → string → option R;
  isPortOpen : R → bool;
  closePort : R → R;
  sendMessage : R → list Z → option R
}.

(** What callbacks and RtMidi see. *)
Inductive midi_fx := FxSent (bytes : list Z) | FxTap (bytes : list Z) | FxEcho (bytes : list Z).

Section midi_io.
Context {R Q : Type} `{RtMidi R, BoundedQueue Q clap_event}.

(** [echo_cb_] and [send_cb_] record whether a callback is registered. *)
Record midi_io := MidiIo {
  out_ : R; in_ : R; in_queue_ : option Q; echo_cb_ : bool; send_cb_ : bool;
  virtual_port_open_ : bool }.

Definition open_port (m : midi_io) (index : nat) : midi_io * bool :=
  if getPortCount (out_ m) <=? index then (m, false)
  else match openPort (out_ m) index with
       | Some r => (MidiIo r (in_ m) (in_queue_ m) (echo_cb_ m) (send_cb_ m) (virtual_port_open_ m), true)
       | None => (m, false)
       end.

(** Index of the first port whose name contains [name]. *)
Definition find_port (r : R) (name : string) : option nat :=
  List.find (λ i, str_contains name (getPortName r i)) (seq 0 (getPortCount r)).

Definition open_port_by_name (m : midi_io) (name : string) : midi_io * bool :=
  match find_port (out_ m) name with
  | Some i => open_port m i
  | None => (m, false)
  end.

Definition open_virtual_port (m : midi_io) (name : string) : midi_io * bool :=
  match openVirtualPort (out_ m) name with
  | Some r => (MidiIo r (in_ m) (in_queue_ m) (echo_cb_ m) (send_cb_ m) true, true)
  | None => (m, false)
  end.

Definition close (m : midi_io) : midi_io :=
  let r := if isPortOpen (out_ m) then closePort (out_ m) else out_ m in
  MidiIo r (in_ m) (in_queue_ m) (echo_cb_ m) (send_cb_ m) false.

Definition is_open (m : midi_io) : bool := isPortOpen (out_ m) || virtual_port_open_ m.

Definition send (m : midi_io) (bytes : list Z) : midi_io * list midi_fx :=
  if is_open m then
    match sendMessage (out_ m) bytes with
    | Some r =>
        (MidiIo r (in_ m) (in_queue_ m) (echo_cb_ m) (send_cb_ m) (virtual_port_open_ m),
         FxSent bytes :: if send_cb_ m then [FxTap bytes] else [])
    | None => (m, [])
    end
  else (m, []).

(** The channel argument is 1-indexed. *)
Definition status_byte (kind channel : Z) : Z :=
  u8 (Z.lor kind (u8 (Z.land (channel - 1) 0x0F))).
Definition note_on m channel note velocity := send m [status_byte 0x90 channel; note; velocity].
Definition note_off m channel note := send m [status_byte 0x80 channel; note; 0%Z].
Definition cc m channel cc_num value := send m [status_byte 0xB0 channel; cc_num; value].
Definition pitch_bend m channel value14 :=
  send m [status_byte 0xE0 channel; u8 (Z.land value14 0x7F);
          u8 (Z.land (Z.shiftr value14 7) 0x7F)].
Definition channel_pressure m channel pressure := send m [status_byte 0xD0 channel; pressure].
Definition realtime m byte := send m [byte].

Definition open_input_port (m : midi_io) (index : nat) (q : Q) : midi_io * bool :=
  if getPortCount (in_ m) <=? index then (m, false)
  else match openPort (in_ m) index with
       | Some r => (MidiIo (out_ m) r (Some q) (echo_cb_ m) (send_cb_ m) (virtual_port_open_ m), true)
       | None => (MidiIo (out_ m) (in_ m) None (echo_cb_ m) (send_cb_ m) (virtual_port_open_ m), false)
       end.

Definition open_input_port_by_name (m : midi_io) (name : string) (q : Q) : midi_io * bool :=
  match find_port (in_ m) name with
  | Some i => open_input_port m i q
  | None => (m, false)
  end.

Definition close_input (m : midi_io) : midi_io :=
  if isPortOpen (in_ m) then
    MidiIo (out_ m) (closePort (in_ m)) None (echo_cb_ m) (send_cb_ m) (virtual_port_open_ m)
  else m.

Definition input_is_open (m : midi_io) : bool := isPortOpen (in_ m).

(** The callbacks given to the setters; an empty [std::function] is [false]. *)
Definition set_echo_callback (m : midi_io) (cb : bool) : midi_io :=
  MidiIo (out_ m) (in_ m) (in_queue_ m) cb (send_cb_ m) (virtual_port_open_ m).
Definition set_send_callback (m : midi_io) (cb : bool) : midi_io :=
  MidiIo (out_ m) (in_ m) (in_queue_ m) (echo_cb_ m) cb (virtual_port_open_ m).

(** The destructor, before its members go. *)
Definition destroy (m : midi_io) : midi_io := close (close_input m).

(** The CLAP event [midi_callback] makes of a non-empty message. *)
Definition midi_event (status : Z) (rest : list Z) : clap_event :=
  let nibble := Z.land status 0xF0 in
  let byte1 := default 0%Z (rest !! 0) in
  let byte2 := default 0%Z (rest !! 1) in
  let h := Header 0 true in
  if (nibble =? 0x90)%Z || (nibble =? 0x80)%Z then
    let is_off := (nibble =? 0x80)%Z || ((nibble =? 0x90)%Z && (byte2 =? 0)%Z) in
    let n := Note h (-1) 0 (Z.land status 0x0F) byte1
               (if is_off then S754_zero false else f64_of_Z byte2 /d lit64 127 1) in
    if is_off then EvNoteOff n else EvNoteOn n
  else EvMidi (Midi h 0 status byte1 byte2).

Definition midi_callback (m : midi_io) (msg : list Z) : midi_io * list midi_fx :=
  match msg with
  | [] => (m, [])
  | status :: rest =>
      if echo_cb_ m then (m, [FxEcho msg])
      else match in_queue_ m with
           | None => (m, [])
           | Some q =>
               (MidiIo (out_ m) (in_ m) (Some (bq_push q (midi_event status rest)).1)
                  (echo_cb_ m) (send_cb_ m) (virtual_port_open_ m), [])
           end
  end.
End midi_io.

(** ** Input buffer *)

Section input_buffer_spec.
Context {Q : Type} `{BoundedQueue Q clap_event}.

Lemma drain_from_spec fuel : ∀ buf (q : Q) xs,
  bq_rep q xs → max_input_events <= length buf + fuel →
  let room := max_input_events - length buf in
  ∃ q', drain_from fuel buf q = (buf ++ take room xs, q') ∧ bq_rep q' (drop room xs).
Proof.
  induction fuel as [|fuel IH]; intros buf q xs Hq Hf room; cbn [drain_from].
  - assert (room = 0) as -> by (unfold room; lia).
    rewrite take_0, drop_0, app_nil_r. eauto.
  - case_if; bool_to_prop.
    + destruct xs as [|x xs].
      * rewrite bq_pop_nil by done. rewrite take_nil, drop_nil, app_nil_r. eauto.
      * destruct (bq_pop_cons _ _ _ Hq) as (q' & -> & Hq').
        assert (room = S (max_input_events - length (buf ++ [x]))) as ->.
        { unfold room. rewrite length_app. simpl. lia. }
        destruct (IH (buf ++ [x]) q' xs Hq') as (q'' & -> & ?).
        { rewrite length_app. simpl. lia. }
        exists q''. by rewrite <- app_assoc.
    + assert (room = 0) as -> by (unfold room; lia).
      rewrite take_0, drop_0, app_nil_r. eauto.
Qed.

Lemma drain_queues_spec (qs : list Q) : ∀ buf xss,
  Forall2 bq_rep qs xss →
  let room := max_input_events - length buf in
  ∃ qs' xss', drain_queues buf qs = (buf ++ take room (concat xss), qs') ∧
              Forall2 bq_rep qs' xss' ∧ concat xss' = drop room (concat xss) ∧
              length xss' = length xss.
Proof.
  induction qs as [|q qs IH]; intros buf xss Hr room.
  - apply Forall2_nil_inv_l in Hr as ->. exists [], []. cbn [drain_queues concat]. rewrite take_nil, drop_nil, app_nil_r. eauto.
  - apply Forall2_cons_inv_l in Hr as (xs & yss & Hq & Hqs & ->). cbn [drain_queues concat].
    unfold drain. destruct (drain_from_spec max_input_events buf q xs Hq) as (q' & -> & Hq'); [lia|].
    fold room in Hq' |- *. destruct (IH (buf ++ take room xs) yss Hqs) as (qs' & yss' & -> & ? & Hd & ?).
    assert (max_input_events - length (buf ++ take room xs) = room - length xs) as E.
    { rewrite length_app, length_take. unfold room. lia. }
    exists (q' :: qs'), (drop room xs :: yss'). rewrite E in *. split_and!.
    + by rewrite <- app_assoc, take_app.
    + by constructor.
    + cbn [concat]. by rewrite Hd, drop_app.
    + simpl. lia.
Qed.
End input_buffer_spec.

(** Draining the input queues in turn into a cleared buffer presents the
    first 64 of the queued events, the queues' order and the order within each
    queue kept; every event that did not fit is still in its queue. *)
Theorem drain_queues_fifo {Q} `{BoundedQueue Q clap_event} (qs : list Q) xss :
  Forall2 bq_rep qs xss →
  ∃ qs' xss', drain_queues [] qs = (take 64 (concat xss), qs') ∧
              Forall2 bq_rep qs' xss' ∧ length xss' = length xss ∧
              concat xss' = drop 64 (concat xss).
Proof.
  intros Hr. destruct (drain_queues_spec qs [] xss Hr) as (qs' & xss' & -> & ? & ? & ?).
  by exists qs', xss'.
Qed.

Lemma in_queue_bits : (1 <= 8 < 64)%Z.
Proof. lia. Qed.

(** [input_event_queue]: 256 slots. *)
Definition input_event_queue : BoundedQueue (spsc clap_event) clap_event :=
  spsc_queue 8 in_queue_bits.

Lemma drain_queues_fifo_witness :
  let ev i := EvOther (Header i false) in
  let q0 := @spsc_init clap_event (ev 0%Z) 8 in
  ∃ qs' xss', drain_queues (H := input_event_queue) [] [q0; q0] = ([], qs') ∧
    Forall2 (@bq_rep _ _ input_event_queue) qs' xss' ∧ length xss' = 2 ∧ concat xss' = [].
Proof.
  apply (drain_queues_fifo (H := input_event_queue)
           [spsc_init (EvOther (Header 0 false)) 8; spsc_init (EvOther (Header 0 false)) 8] [[]; []]).
  repeat constructor; by apply spsc_init_rep.
Defined.

(** ** Collector *)

Lemma push_all_full es : ∀ evs, collector_max_events <= length evs → push_all evs es = Some evs.
Proof.
  induction es as [|e es IH]; intros evs Hl; cbn [push_all]; [done|].
  unfold try_push. rewrite (proj2 (Nat.leb_le _ _)) by done. simpl. by apply IH.
Qed.

Lemma push_all_spec es : ∀ ts evs,
  mapM translate es = Some ts →
  push_all evs es = Some (evs ++ take (collector_max_events - length evs) (omap id ts)).
Proof.
  induction es as [|e es IH]; intros ts evs Ht.
  - injection Ht as <-. cbn [push_all omap list_omap]. by rewrite take_nil, app_nil_r.
  - apply bind_Some in Ht as (t & Ht & (ts' & Hts & [= <-])%bind_Some).
    destruct (decide (collector_max_events <= length evs)).
    + rewrite push_all_full by done. replace (_ - _) with 0 by lia.
      by rewrite take_0, app_nil_r.
    + cbn [push_all]. unfold try_push. rewrite (proj2 (Nat.leb_gt _ _)) by lia.
      rewrite Ht. cbn [mbind option_bind fst]. rewrite (IH ts') by done.
      destruct t as [o|]; cbn [omap list_omap id]; [|done].
      rewrite length_app, <- app_assoc. simpl length.
      replace (collector_max_events - length evs)
        with (S (collector_max_events - (length evs + 1))) by lia. done.
Qed.

Section flush_spec.
Context {Q : Type} `{BoundedQueue Q midi_event_block}.

Lemma flush_from_spec fuel : ∀ evs (q : Q) pushed xs,
  bq_rep q xs → length evs <= fuel →
  ∃ q' blocks, flush_from fuel evs q pushed = (q', pushed + length blocks) ∧
    concat blocks = evs ∧ Forall (λ b, 1 <= length b <= 7) blocks ∧
    length blocks = (length evs + 6) `div` 7 ∧
    bq_rep q' (xs ++ take (bq_room - length xs) blocks).
Proof.
  induction fuel as [|fuel IH]; intros evs q pushed xs Hq Hl.
  { destruct evs; [|simpl in *; lia]. exists q, []. cbn [flush_from length].
    rewrite take_nil, app_nil_r, Nat.add_0_r. split_and!; done. }
  destruct evs as [|e evs].
  { exists q, []. cbn [flush_from length]. rewrite take_nil, app_nil_r, Nat.add_0_r. split_and!; done. }
  cbn [flush_from]. remember (e :: evs) as l. assert (1 <= length l) by (subst; simpl; lia).
  pose proof (bq_push_spec q xs (take 7 l) Hq) as (q' & Hp & Hq'). rewrite Hp. cbn [fst].
  destruct (IH (drop 7 l) q' (S pushed) _ Hq') as (q'' & bl & -> & Hc & Hf & Hn & Hr).
  { rewrite length_drop. lia. }
  exists q'', (take 7 l :: bl). split_and!.
  - f_equal. simpl. lia.
  - cbn [concat]. by rewrite Hc, take_drop.
  - constructor; [rewrite length_take; lia|done].
  - cbn [length]. rewrite Hn, length_drop.
    destruct (decide (length l <= 7)).
    + replace (length l - 7) with 0 by lia.
      replace (length l + 6) with (length l - 1 + 1 * 7) by lia.
      rewrite Nat.div_add, (Nat.div_small (length l - 1)) by lia. done.
    + replace (length l + 6) with (length l - 7 + 6 + 1 * 7) by lia.
      rewrite Nat.div_add by lia. lia.
  - pose proof (bq_rep_room _ _ Hq). unfold queue_push in Hr. case_if; bool_to_prop; cbn [fst] in Hr.
    + rewrite length_app, <- app_assoc in Hr. simpl length in Hr.
      replace (bq_room - length xs) with (S (bq_room - (length xs + 1))) by lia. done.
    + replace (bq_room - length xs) with 0 in * by lia. done.
Qed.
End flush_spec.

(** C35: one block of plugin output: the collector keeps the first 128
    translatable events in order, and [flush_to] packs exactly those, in order,
    into the fewest blocks of at most seven; the queue receives the blocks it
    has room for.  The number returned counts every block, the ones the full
    queue refused included. *)
Theorem collect_and_flush {Q} `{BoundedQueue Q midi_event_block} (q : Q) xs es ts :
  mapM translate es = Some ts → bq_rep q xs →
  ∃ evs q' blocks,
    push_all [] es = Some evs ∧ evs = take 128 (omap id ts) ∧
    flush_to evs q = (q', length blocks) ∧
    concat blocks = evs ∧ Forall (λ b, 1 <= length b <= 7) blocks ∧
    length blocks = (length evs + 6) `div` 7 ∧
    bq_rep q' (xs ++ take (bq_room - length xs) blocks).
Proof.
  intros Ht Hq. exists (take 128 (omap id ts)).
  destruct (flush_from_spec _ (take 128 (omap id ts)) q 0 xs Hq (le_n _))
    as (q' & blocks & Hf & ?).
  exists q', blocks. split; [|by unfold flush_to; rewrite Hf].
  rewrite (push_all_spec _ ts) by done. done.
Qed.

Lemma midi_queue_bits : (1 <= 9 < 64)%Z.
Proof. lia. Qed.

(** [midi_event_queue]: 512 slots. *)
Definition midi_event_queue : BoundedQueue (spsc midi_event_block) midi_event_block :=
  spsc_queue 9 midi_queue_bits.

Definition note_60 : clap_event_note :=
  Note (Header 5 false) (-1) 0 2 60 (lit64 1 2).

Lemma collect_and_flush_witness : ∃ evs q' blocks,
  push_all [] [EvNoteOn note_60; EvOther (Header 0 false)] = Some evs ∧
  evs = [MidiOut 5 0 3 (0x92, 60, 63)%Z] ∧
  flush_to (H := midi_event_queue) evs (@spsc_init midi_event_block [] 9) = (q', length blocks) ∧
  concat blocks = evs ∧ Forall (λ b, 1 <= length b <= 7) blocks ∧
  length blocks = (length evs + 6) `div` 7 ∧
  @bq_rep _ _ midi_event_queue q'
    ([] ++ take (@bq_room _ _ midi_event_queue - 0) blocks).
Proof.
  apply (collect_and_flush (H := midi_event_queue) _ [] _
           [Some (MidiOut 5 0 3 (0x92, 60, 63)%Z); None]).
  - vm_compute. reflexivity.
  - by apply spsc_init_rep.
Defined.

(** ** Both translations *)

(** A channel message as it comes out: a note-on of velocity 0 is a note-off,
    and a note-off has release velocity 0. *)
Definition normalise (status k v : Z) : Z * Z * Z :=
  let nibble := Z.land status 0xF0 in
  if (nibble =? 0x80)%Z || (nibble =? 0x90)%Z && (v =? 0)%Z
  then (Z.lor 0x80 (Z.land status 0x0F), k, 0)%Z
  else (status, k, v).

(** [v / 127.0 * 127.0] truncates back to [v]. *)
Lemma velocity_round_trip v : (0 <= v < 128)%Z →
  f_to_int ((f64_of_Z v /d lit64 127 1) *d lit64 127 1) = Some v.
Proof.
  intros Hv.
  apply (check_range (λ v, f_to_int ((f64_of_Z v /d lit64 127 1) *d lit64 127 1) = Some v) 128);
    [by vm_compute|lia].
Qed.

Lemma zero_velocity : f_to_int (S754_zero false *d lit64 127 1) = Some 0%Z.
Proof. done. Qed.

Lemma nibbles status : (0 <= status < 256)%Z →
  Z.lor (Z.land status 0xF0) (Z.land status 0x0F) = status ∧
  (0 <= Z.land status 0x0F < 16)%Z.
Proof.
  intros Hs. split.
  - rewrite <- Z.land_lor_distr_r. change (Z.lor 0xF0 0x0F) with (2 ^ 8 - 1)%Z.
    rewrite land_mask by lia. by apply Z.mod_small.
  - change 0x0F%Z with (2 ^ 4 - 1)%Z. apply (land_mask_range 4). lia.
Qed.

Lemma lor_nibble_u8 kind n : (kind = 0x80 ∨ kind = 0x90)%Z → (0 <= n < 16)%Z →
  u8 (Z.lor kind (u8 (Z.land n 0x0F))) = Z.lor kind n.
Proof.
  intros Hk Hn. change 0x0F%Z with (2 ^ 4 - 1)%Z. rewrite land_mask, Z.mod_small by lia.
  rewrite (u8_small n) by (unfold is_u8; lia).
  destruct Hk as [-> | ->];
    [apply (check_range (λ n, u8 (Z.lor 0x80 n) = Z.lor 0x80 n)%Z 16)
    |apply (check_range (λ n, u8 (Z.lor 0x90 n) = Z.lor 0x90 n)%Z 16)];
    first [by vm_compute|lia].
Qed.

Lemma u8_mask7 k : (0 <= k < 128)%Z → u8 (Z.land k 0x7F) = k.
Proof.
  intros. change 0x7F%Z with (2 ^ 7 - 1)%Z. rewrite land_mask, Z.mod_small by lia.
  apply u8_small. unfold is_u8. lia.
Qed.

Lemma u8_clampi v : (0 <= v < 128)%Z → u8 (clampi v 0 127) = v.
Proof.
  intros. unfold clampi. repeat (case_if; bool_to_prop; try lia).
  apply u8_small. unfold is_u8. lia.
Qed.

Lemma note_bytes_round_trip kind n v :
  (kind = 0x80 ∨ kind = 0x90)%Z → (0 <= channel n < 16)%Z → (0 <= key n < 128)%Z →
  (0 <= v < 128)%Z → f_to_int (velocity n *d lit64 127 1) = Some v →
  note_bytes kind n = Some (Some (Z.lor kind (channel n), key n, v)).
Proof.
  intros Hk Hc Hy Hv Hf. unfold note_bytes.
  rewrite (proj2 (Z.ltb_ge _ _)), (proj2 (Z.ltb_ge _ _)) by lia. cbn [orb].
  rewrite Hf. cbn [mbind option_bind].
  by rewrite lor_nibble_u8, u8_mask7, u8_clampi by done.
Qed.

(** What [midi_callback] makes of a message, the collector turns back into
    that message. *)
Lemma midi_event_thru status k v :
  (0 <= status < 256)%Z → (0 <= k < 128)%Z → (0 <= v < 128)%Z →
  translate (midi_event status [k; v]) =
    Some (Some (MidiOut 0 0 (midi_message_size status) (normalise status k v))).
Proof.
  intros Hs Hk Hv. destruct (nibbles status Hs) as [Hlor Hch]. unfold midi_event, normalise.
  cbn [default lookup list_lookup from_option id]. set (nib := Z.land status 0xF0) in *.
  assert (nib = 0x80 ∨ nib = 0x90 → midi_message_size status = 3)%Z as Hsz.
  { intros Hn. unfold midi_message_size. fold nib.
    assert (status < 0xF0)%Z.
    { rewrite <- Hlor. destruct Hn as [-> | ->];
        change 0x80%Z with (8 * 2 ^ 4)%Z || change 0x90%Z with (9 * 2 ^ 4)%Z;
        rewrite (Z.lor_comm _ (Z.land _ _)), lor_add by lia; lia. }
    repeat rewrite (proj2 (Z.leb_gt _ _)) by lia. by destruct Hn as [-> | ->]. }
  destruct (Z.eqb_spec nib 0x80) as [E|N1]; [|destruct (Z.eqb_spec nib 0x90) as [E|N2]];
    rewrite ?orb_true_r; cbn [orb andb].
  - unfold translate.
    rewrite (note_bytes_round_trip 0x80 _ 0) by (cbn [channel key velocity]; auto; lia).
    cbn [channel key]. by rewrite Hsz by auto.
  - destruct (Z.eqb_spec v 0) as [->|Hv0]; cbn [orb andb]; unfold translate.
    + rewrite (note_bytes_round_trip 0x80 _ 0) by (cbn [channel key velocity]; auto; lia).
      cbn [channel key]. by rewrite Hsz by auto.
    + rewrite (note_bytes_round_trip 0x90 _ v)
        by (cbn [channel key velocity]; auto using velocity_round_trip).
      cbn [channel key]. rewrite Hsz by auto. by rewrite <- E, Hlor.
  - unfold translate. cbn [data0 data1 data2 mport_index event_header mheader time].
    rewrite (proj2 (Z.ltb_lt _ _)); [done|].
    unfold midi_message_size. repeat case_if; lia.
Qed.

(** C36: MIDI through: a three-byte message received while no echo callback is
    set is queued as one event, behind those that wait, and goes back out through
    the collector as the same message, up to the two normalisations of
    note-offs.  With an echo callback set the callback gets the bytes and
    nothing is queued, so that a port looped back to itself does not feed
    itself. *)
Theorem midi_thru {R Q} `{BoundedQueue Q clap_event} (m : midi_io (R := R) (Q := Q)) q xs status k v :
  (0 <= status < 256)%Z → (0 <= k < 128)%Z → (0 <= v < 128)%Z →
  in_queue_ m = Some q → bq_rep q xs → length xs < bq_room →
  (∃ q' e,
    midi_callback (set_echo_callback m false) [status; k; v] =
      (MidiIo (out_ m) (in_ m) (Some q') false (send_cb_ m) (virtual_port_open_ m), []) ∧
    bq_rep q' (xs ++ [e]) ∧
    translate e = Some (Some (MidiOut 0 0 (midi_message_size status) (normalise status k v)))) ∧
  midi_callback (set_echo_callback m true) [status; k; v] =
    (set_echo_callback m true, [FxEcho [status; k; v]]).
Proof.
  intros Hs Hk Hv Hm Hq Hl. split; [|done].
  destruct (bq_push_ok q xs (midi_event status [k; v]) Hq Hl) as (q' & Hp & Hq').
  exists q', (midi_event status [k; v]). split_and!; [|done|by apply midi_event_thru].
  unfold midi_callback, set_echo_callback. cbn [echo_cb_ in_queue_ out_ in_ send_cb_ virtual_port_open_].
  by rewrite Hm, Hp.
Qed.

(** An open input port with an empty queue. *)
Definition idle_midi : midi_io (R := unit) (Q := spsc clap_event) :=
  MidiIo tt tt (Some (spsc_init (EvOther (Header 0 false)) 8)) true false false.

Lemma midi_thru_witness :
  midi_callback (H0 := input_event_queue) (set_echo_callback idle_midi true) [0x9F; 60; 100]%Z =
    (set_echo_callback idle_midi true, [FxEcho [0x9F; 60; 100]%Z]).
Proof.
  eapply (midi_thru (H := input_event_queue) idle_midi _ [] 0x9F 60 100); [lia..|reflexivity| |].
  - by apply spsc_init_rep.
  - change (@bq_room _ _ input_event_queue) with 255. simpl. lia.
Defined.

Lemma note_bytes_valid kind n b0 b1 b2 : (kind = 0x80 ∨ kind = 0x90)%Z →
  note_bytes kind n = Some (Some (b0, b1, b2)) →
  (0 <= channel n)%Z ∧ (0 <= key n)%Z ∧ b0 = (kind + channel n mod 16)%Z ∧
  b1 = (key n mod 128)%Z ∧ (0 <= b2 < 128)%Z.
Proof.
  intros Hk H. unfold note_bytes in H. case_if; [done|]. bool_to_prop.
  destruct (f_to_int _) as [v|]; [|done].
  change 0x0F%Z with (2 ^ 4 - 1)%Z in H. change 0x7F%Z with (2 ^ 7 - 1)%Z in H.
  rewrite !land_mask in H by lia. cbn [mbind option_bind] in H.
  injection H as <- <- <-. change (2 ^ 4)%Z with 16%Z. change (2 ^ 7)%Z with 128%Z.
  split; [done|]. split; [done|].
  assert (0 <= channel n mod 16 < 16)%Z by (apply Z.mod_pos_bound; lia).
  assert (0 <= key n mod 128 < 128)%Z by (apply Z.mod_pos_bound; lia).
  rewrite (u8_small (channel n mod 16)), (u8_small (key n mod 128)) by (unfold is_u8; lia).
  split_and!; [|done|..].
  - assert (Z.lor kind (channel n mod 16) = kind + channel n mod 16)%Z as ->.
    { destruct Hk as [-> | ->]; [apply (lor_add' _ 8 4)|apply (lor_add' _ 9 4)]; lia. }
    apply u8_small. unfold is_u8. lia.
  - apply u8_range.
  - unfold clampi. repeat case_if; bool_to_prop; rewrite u8_small; unfold is_u8; lia.
Qed.

(** The note of a note event. *)
Definition event_note (e : clap_event) : option clap_event_note :=
  match e with EvNoteOn n | EvNoteOff n => Some n | _ => None end.

(** a note a plugin emits, whatever its channel, key, velocity and time,
    comes out as a well-formed three-byte note message on its channel and key
    (modulo 16 and 128), with a velocity below 128 and the sample offset
    saturated at 65535; nothing comes out only for the negative wildcards. *)
Theorem note_out_valid e n t :
  event_note e = Some n → (0 <= time (nheader n))%Z → translate e = Some t →
  match t with
  | Some o =>
      osize o = 3%Z ∧ oport o = 0%Z ∧ sample_offset o = Z.min (time (nheader n)) 65535 ∧
      let '(b0, b1, b2) := odata o in
      b0 = ((if e is EvNoteOn _ then 0x90 else 0x80) + channel n mod 16)%Z ∧
      b1 = (key n mod 128)%Z ∧ (0 <= b2 < 128)%Z
  | None => (channel n < 0 ∨ key n < 0)%Z
  end.
Proof.
  intros He Ht Htr.
  assert (u16 (Z.min (time (nheader n)) 0xFFFF) = Z.min (time (nheader n)) 65535) as Hoff.
  { apply (wrapu_small 16). lia. }
  assert (∃ kind, (kind = 0x80 ∨ kind = 0x90)%Z ∧ kind = (if e is EvNoteOn _ then 0x90 else 0x80)%Z ∧
    option_map (MidiOut (u16 (Z.min (time (nheader n)) 0xFFFF)) 0 3) <$> note_bytes kind n = Some t)
    as (kind & Hk & <- & Hf).
  { destruct e; simplify_eq/=; eauto 10. }
  rewrite Hoff in Hf. apply fmap_Some in Hf as ([[[b0 b1] b2]|] & Hf & ->); cbn [option_map].
  - destruct (note_bytes_valid _ _ _ _ _ Hk Hf) as (_ & _ & ? & ? & ?). done.
  - unfold note_bytes in Hf. case_if; [apply orb_true_iff in Heqb as [?|?]; bool_to_prop; auto|].
    by destruct (f_to_int _).
Qed.

Lemma note_out_valid_witness :
  event_note (EvNoteOn note_60) = Some note_60 ∧
  (3 = 3 ∧ 0 = 0 ∧ 5 = Z.min 5 65535 ∧ 0x92 = 0x90 + 2 mod 16 ∧ 60 = 60 mod 128 ∧ 0 <= 63 < 128)%Z.
Proof.
  split; [done|].
  apply (note_out_valid (EvNoteOn note_60) note_60 (Some (MidiOut 5 0 3 (0x92, 60, 63)%Z)));
    [done|simpl; lia|vm_compute; reflexivity].
Defined.
