(* ===== verification/Osc.v ===== *)
(** Open Sound Control: the fixed-capacity buffer
    ([include/nomos/rt/small_vector.hpp]), the encoder
    ([include/nomos/rt/osc_encode.hpp]), resolved datagrams
    ([include/nomos/rt/osc_event.hpp]) and the UDP server's parser and routes
    ([src/osc_server.hpp/.cpp]).

    Byte strings are lists of bytes.  A [small_vector] is the list of its first
    [size_] elements.  [inet_pton], the socket calls and the Fennel callbacks
    are parameters. *)
From S2P Require Import Prelude Bytes Spsc Binary Events.
Local Open Scope Z_scope.

(** ** [small_vector] *)

Section small_vector.
Context {T : Type} (N : nat).

Definition sv_of_list (init : list T) : list T := take N init.
Definition sv_push_back (v : T) (out : list T) : list T * bool :=
  if (length out =? N)%nat then (out, false) else (out ++ [v], true).
Definition sv_append (src : list T) (out : list T) : list T * bool :=
  if (N - length out <? length src)%nat then (out, false) else (out ++ src, true).

(** [if (!a) return false; b]. *)
Definition andthen (a b : list T → list T * bool) (out : list T) : list T * bool :=
  let '(out, ok) := a out in if ok then b out else (out, false).

Definition done_ (out : list T) : list T * bool := (out, true).
Definition fail_ (out : list T) : list T * bool := (out, false).
Definition each {A} (f : A → list T → list T * bool) (l : list A) : list T → list T * bool :=
  foldr (λ a rest, andthen (f a) rest) done_ l.
End small_vector.

Notation "a ;;; b" := (andthen a b) (at level 62, right associativity) : rt_scope.

(** ** Encoding *)

Record arg := Arg { tag : Z; arg_i : Z; arg_f : f32; arg_s : list Z }.
Definition tag_i : Z := 105. (* 'i' *)
Definition tag_f : Z := 102. (* 'f' *)
Definition tag_s : Z := 115. (* 's' *)
Definition comma : Z := 44.
Definition make_i (v : Z) : arg := Arg tag_i v (S754_zero false) [].
Definition make_f (v : f32) : arg := Arg tag_f 0 v [].
Definition make_s (v : list Z) : arg := Arg tag_s 0 (S754_zero false) v.

Section encode.
Context (N : nat).

Definition append_osc_string (s : list Z) (out : list Z) : list Z * bool :=
  let padded := ((length s / 4 + 1) * 4)%nat in
  if (N - length out <? padded)%nat then (out, false)
  else
    let out := (sv_append N s out).1 in
    let pad := each (λ _, λ o, ((sv_push_back N 0 o).1, true)) (seq (length s) (padded - length s)) in
    pad out.

Definition append_u32_be (v : Z) : list Z → list Z * bool :=
  sv_append N [u8 (Z.land (Z.shiftr v 24) 0xFF); u8 (Z.land (Z.shiftr v 16) 0xFF);
               u8 (Z.land (Z.shiftr v 8) 0xFF); u8 (Z.land v 0xFF)].

Definition append_arg (a : arg) : list Z → list Z * bool :=
  if tag a =? tag_i then append_u32_be (u32 (arg_i a))
  else if tag a =? tag_f then append_u32_be (bits_of_f32 (arg_f a))
  else if tag a =? tag_s then append_osc_string (arg_s a)
  else fail_.

Definition encode (address : list Z) (args : list arg) : list Z * bool :=
  let tags_len := (length args + 1)%nat in
  let tags_padded := ((tags_len / 4 + 1) * 4)%nat in
  (append_osc_string address ;;;
   sv_push_back N comma ;;;
   each (λ a, sv_push_back N (u8 (tag a))) args ;;;
   each (λ _, sv_push_back N 0) (seq tags_len (tags_padded - tags_len)) ;;;
   each append_arg args) [].
End encode.

(** ** Resolved datagrams *)

Record sockaddr_in := SockAddr { sin_port : Z; sin_addr : Z }.
Record osc_event := OscEvent { dest : sockaddr_in; obytes : list Z }.
Definition osc_event_max_bytes : nat := 256.

(** [strnlen] on a buffer, and the C string it holds. *)
Fixpoint strnlen (l : list Z) : nat :=
  match l with [] => 0%nat | b :: l => if b =? 0 then 0%nat else S (strnlen l) end.

Definition htons (p : Z) : Z := Z.lor (Z.shiftl (Z.land p 0xFF) 8) (Z.shiftr p 8).

Section resolve.
(** [inet_pton] on a C string: the address, when it is a dotted quad. *)
Context (inet_pton : list Z → option Z).

Definition resolve_osc_endpoint (host : list Z) (port : Z) : option sockaddr_in :=
  if (64 <=? length host)%nat then None
  else
    let host_c := if decide (host = bytes_of_string "localhost")
                  then bytes_of_string "127.0.0.1" else take (strnlen host) host in
    SockAddr (htons port) <$> inet_pton host_c.

Definition build_osc_event (host : list Z) (port : Z) (address : list Z) (args : list arg)
  : option osc_event :=
  d ← resolve_osc_endpoint host port;
  match encode osc_event_max_bytes address args with
  | (out, true) => Some (OscEvent d out)
  | (_, false) => None
  end.
End resolve.

(** ** The server *)

Definition pad4 (n : Z) : Z := Z.land (u64 (n + 3)) (u64 (Z.lnot 3)).

Definition osc_u32 (p : list Z) : Z :=
  match p with a :: b :: c :: d :: _ => bswap32 (load_le a b c d) | _ => 0 end.
Definition osc_int32 (p : list Z) : Z := i32 (osc_u32 p).
Definition osc_float (p : list Z) : f32 := f32_of_bits (osc_u32 p).

(** [memcpy] into a zeroed buffer at an offset. *)
Definition blit (pkt : list Z) (pos : nat) (src : list Z) : list Z :=
  take pos pkt ++ src ++ drop (pos + length src) pkt.

Definition build_osc_string_msg (addr payload : list Z) : list Z :=
  let addr_len := (strnlen addr + 1)%nat in
  let addr_padded := Z.to_nat (pad4 (Z.of_nat addr_len)) in
  let tags_padded := 4%nat in
  let str_padded := Z.to_nat (pad4 (Z.of_nat (length payload) + 1)) in
  let pkt := replicate (addr_padded + tags_padded + str_padded) 0 in
  let pkt := blit pkt 0 (take (strnlen addr) addr ++ [0]) in
  let pos := addr_padded in
  let pkt := <[pos := comma]> pkt in
  let pkt := <[(pos + 1)%nat := tag_s]> pkt in
  let pos := (pos + tags_padded)%nat in
  blit pkt pos (payload ++ [0]).

(** Address, type tags without the comma, and argument bytes of a packet. *)
Record packet := Packet { address : list Z; types : list Z; args : list Z }.

Definition parse_packet (buf : list Z) : option packet :=
  let len := length buf in
  if (len <? 8)%nat then None
  else
    let addr_len := strnlen buf in
    if (len <=? addr_len)%nat then None
    else
      let tags_off := Z.to_nat (pad4 (Z.of_nat addr_len + 1)) in
      if (len <=? tags_off)%nat then None
      else
        let tags_cstr := drop tags_off buf in
        if negb (default 0 (head tags_cstr) =? comma) then None
        else
          let tags_len := strnlen tags_cstr in
          let args_off := (tags_off + Z.to_nat (pad4 (Z.of_nat tags_len + 1)))%nat in
          Some (Packet (take addr_len buf) (take (tags_len - 1) (drop 1 tags_cstr))
                  (drop args_off buf)).

(** The dispatch callbacks of the Fennel side, when set. *)
Record dispatch_fns := DispatchFns { has_dispatch : bool; get_endpoints : option (list Z) }.

Record osc_server := OscServer {
  port_ : Z; sock_ : bool; running_ : bool; dispatch_fns_ : dispatch_fns;
  last_sender_ : sockaddr_in; has_sender_ : bool }.

Inductive osc_fx :=
| FxQueue (ev : clap_event)                         (* queue_.push(ev) *)
| FxSendTo (dest : sockaddr_in) (bytes : list Z)    (* sendto *)
| FxDispatch (p : packet).                          (* dispatch_fns_.dispatch *)

Definition send_udp (s : osc_server) (dest : sockaddr_in) (data : list Z) : list osc_fx :=
  if negb (sock_ s) || (length data =? 0)%nat then [] else [FxSendTo dest data].

Definition osc_note (p : list Z) (velocity : f64) : clap_event_note :=
  Note (Header 0 false) (-1) (i16 (osc_int32 p)) (i16 (osc_int32 (drop 4 p)))
    (i16 (osc_int32 (drop 8 p))) velocity.

Definition route (s : osc_server) (p : packet) : list osc_fx :=
  let avail := length (args p) in
  let matches (a t : string) (n : nat) :=
    bool_decide (address p = bytes_of_string a) && bool_decide (types p = bytes_of_string t) &&
    (n <=? avail)%nat in
  if matches "/nous/note/on" "iiif" 16%nat then
    [FxQueue (EvNoteOn (osc_note (args p) (f64_of_f32 (osc_float (drop 12 (args p))))))]
  else if matches "/nous/note/off" "iii" 12%nat then
    [FxQueue (EvNoteOff (osc_note (args p) (S754_zero false)))]
  else if matches "/nous/midi" "iiii" 16%nat then
    [FxQueue (EvMidi (Midi (Header 0 false) (u16 (osc_int32 (args p)))
       (u8 (osc_int32 (drop 4 (args p)))) (u8 (osc_int32 (drop 8 (args p))))
       (u8 (osc_int32 (drop 12 (args p))))))]
  else if bool_decide (address p = bytes_of_string "/nous/endpoints") then
    match get_endpoints (dispatch_fns_ s) with
    | None => []
    | Some paths =>
        if has_sender_ s
        then send_udp s (last_sender_ s)
               (build_osc_string_msg (bytes_of_string "/nous/endpoints") paths)
        else []
    end
  else if has_dispatch (dispatch_fns_ s) then [FxDispatch p] else [].

Definition handle_packet (s : osc_server) (buf : list Z) : list osc_fx :=
  match parse_packet buf with None => [] | Some p => route s p end.

(** One turn of [run]: [recvfrom] fills at most 1500 bytes, and an empty
    datagram is taken for a timeout. *)
Definition run_step (s : osc_server) (dgram : option (sockaddr_in * list Z))
  : osc_server * list osc_fx :=
  match dgram with
  | None | Some (_, []) => (s, [])
  | Some (sender, data) =>
      let s := OscServer (port_ s) (sock_ s) (running_ s) (dispatch_fns_ s) sender true in
      (s, handle_packet s (take 1500 data))
  end.

Definition push_endpoints (s : osc_server) : list osc_fx :=
  match get_endpoints (dispatch_fns_ s) with
  | None => []
  | Some paths =>
      if has_sender_ s
      then send_udp s (last_sender_ s)
             (build_osc_string_msg (bytes_of_string "/nous/endpoints") paths)
      else []
  end.

Definition send_event (s : osc_server) (ev : osc_event) : list osc_fx :=
  send_udp s (dest ev) (obytes ev).

Definition send_osc inet_pton (s : osc_server) host port address args : bool * list osc_fx :=
  if sock_ s then
    match build_osc_event inet_pton host port address args with
    | Some ev => (true, send_event s ev)
    | None => (false, [])
    end
  else (false, []).

(** [start] given whether [socket] and [bind] succeed; [stop]. *)
Definition start (s : osc_server) (socket_ok bind_ok : bool) : osc_server :=
  if socket_ok && bind_ok
  then OscServer (port_ s) true true (dispatch_fns_ s) (last_sender_ s) (has_sender_ s)
  else OscServer (port_ s) false (running_ s) (dispatch_fns_ s) (last_sender_ s) (has_sender_ s).

Definition stop (s : osc_server) : osc_server :=
  if running_ s
  then OscServer (port_ s) false false (dispatch_fns_ s) (last_sender_ s) (has_sender_ s)
  else s.

(** ** The wire layout *)

Definition osc_string (s : list Z) : list Z :=
  s ++ replicate ((length s / 4 + 1) * 4 - length s) 0.

Definition known_tag (a : arg) : Prop := tag a = tag_i ∨ tag a = tag_f ∨ tag a = tag_s.

Definition arg_bytes (a : arg) : list Z :=
  if tag a =? tag_i then bytes_be (u32 (arg_i a))
  else if tag a =? tag_f then bytes_be (bits_of_f32 (arg_f a))
  else osc_string (arg_s a).

Definition osc_message (address : list Z) (args : list arg) : list Z :=
  osc_string address ++ osc_string (comma :: map tag args) ++ concat (map arg_bytes args).

Lemma padded_bounds n : (n < (n / 4 + 1) * 4 <= n + 4)%nat.
Proof. pose proof (Nat.div_mod_eq n 4). pose proof (Nat.mod_upper_bound n 4). lia. Qed.

(** [op] appends exactly [l], when there is room for it. *)
Definition appends (N : nat) (op : list Z → list Z * bool) (l : list Z) : Prop :=
  ∀ out, (length out <= N)%nat →
    ((length out + length l <= N)%nat → op out = (out ++ l, true)) ∧
    ((N < length out + length l)%nat → (op out).2 = false).

Section appends.
Context (N : nat).

Lemma appends_then a b la lb :
  appends N a la → appends N b lb → appends N (a ;;; b) (la ++ lb).
Proof.
  intros Ha Hb out Ho. rewrite length_app. unfold andthen. destruct (Ha out Ho) as [Ha1 Ha2].
  split; intros Hl.
  - rewrite Ha1 by lia. rewrite app_assoc. apply Hb; rewrite length_app; lia.
  - destruct (decide (length out + length la <= N)%nat) as [Hr|Hr].
    + rewrite Ha1 by lia. apply Hb; rewrite length_app; lia.
    + specialize (Ha2 ltac:(lia)). destruct (a out) as [? []]; [done|done].
Qed.

Lemma each_cons {T A} (f : A → list T → list T * bool) a l :
  each f (a :: l) = (f a ;;; each f l).
Proof. done. Qed.

Lemma appends_done : appends N done_ [].
Proof. intros out Ho. rewrite app_nil_r, Nat.add_0_r. split; [done|]. intros. lia. Qed.

Lemma appends_each {A} (f : A → list Z → list Z * bool) g l :
  Forall (λ a, appends N (f a) (g a)) l → appends N (each f l) (concat (map g l)).
Proof.
  induction 1; simpl; [apply appends_done|]. by apply appends_then.
Qed.

Lemma appends_push v : appends N (sv_push_back N v) [v].
Proof.
  intros out Ho. unfold sv_push_back. cbn [length].
  destruct (Nat.eqb_spec (length out) N); split; intros; try done; lia.
Qed.

Lemma appends_u32 v : appends N (append_u32_be N v) (bytes_be v).
Proof.
  assert (append_u32_be N v = sv_append N (bytes_be v)) as ->.
  { unfold append_u32_be, bytes_be. rewrite !land_255.
    by rewrite !(u8_small (_ mod 256)) by (unfold is_u8; apply Z.mod_pos_bound; lia). }
  intros out Ho. unfold sv_append. change (length (bytes_be v)) with 4%nat.
  split; intros.
  - by rewrite (proj2 (Nat.ltb_ge _ _)) by lia.
  - by rewrite (proj2 (Nat.ltb_lt _ _)) by lia.
Qed.

Lemma each_push_zero l : ∀ out, (length out + length l <= N)%nat →
  each (λ _ : nat, λ o, ((sv_push_back N 0 o).1, true)) l out = (out ++ replicate (length l) 0, true).
Proof.
  induction l as [|x l IH]; intros out Ho; cbn [length replicate].
  - by rewrite app_nil_r.
  - cbn [length] in Ho. rewrite each_cons. unfold andthen.
    assert (sv_push_back N 0 out = (out ++ [0], true)) as ->.
    { unfold sv_push_back. by rewrite (proj2 (Nat.eqb_neq _ _)) by lia. }
    cbn [fst]. rewrite IH by (rewrite length_app; simpl; lia). by rewrite <- app_assoc.
Qed.

Lemma length_osc_string s : length (osc_string s) = ((length s / 4 + 1) * 4)%nat.
Proof.
  unfold osc_string. rewrite length_app, length_replicate. pose proof (padded_bounds (length s)). lia.
Qed.

Lemma appends_string s : appends N (append_osc_string N s) (osc_string s).
Proof.
  intros out Ho. rewrite length_osc_string. unfold append_osc_string.
  pose proof (padded_bounds (length s)). split; intros.
  - rewrite (proj2 (Nat.ltb_ge _ _)) by lia. unfold sv_append.
    rewrite (proj2 (Nat.ltb_ge _ _)) by lia. cbn [fst].
    rewrite each_push_zero by (rewrite length_app, length_seq; lia).
    unfold osc_string. by rewrite <- app_assoc, length_seq.
  - by rewrite (proj2 (Nat.ltb_lt _ _)) by lia.
Qed.

Lemma appends_arg a : known_tag a → appends N (append_arg N a) (arg_bytes a).
Proof.
  unfold append_arg, arg_bytes. intros [-> | [-> | ->]]; cbn [Z.eqb Pos.eqb tag_i tag_f tag_s];
    auto using appends_u32, appends_string.
Qed.

Lemma concat_singletons {A B} (f : A → B) l : concat (map (λ x, [f x]) l) = map f l.
Proof. induction l; simpl; by f_equal. Qed.

Lemma concat_zeros (l : list nat) : concat (map (λ _, [0]) l) = replicate (length l) 0.
Proof. induction l; simpl; by f_equal. Qed.

Lemma known_tag_u8 a : known_tag a → u8 (tag a) = tag a.
Proof. by intros [-> | [-> | ->]]. Qed.

Lemma encode_appends address args : Forall known_tag args →
  ((length (osc_message address args) <= N)%nat →
    encode N address args = (osc_message address args, true)) ∧
  ((N < length (osc_message address args))%nat → (encode N address args).2 = false).
Proof.
  intros Hk. unfold encode.
  match goal with |- context [?op []] => assert (appends N op (osc_message address args)) as Ha end.
  { unfold osc_message. apply appends_then; [apply appends_string|].
    unfold osc_string at 1. cbn [length]. rewrite length_map.
    replace (S (length args)) with (length args + 1)%nat by lia.
    change (comma :: map tag args) with ([comma] ++ map tag args). rewrite <- !app_assoc.
    apply appends_then; [apply appends_push|].
    apply appends_then; [|apply appends_then].
    - rewrite <- concat_singletons. apply appends_each.
      apply (Forall_impl _ _ _ Hk). intros a Ha. rewrite <- known_tag_u8 at 2 by done. apply appends_push.
    - set (m := (_ - _)%nat). rewrite <- (length_seq m (length args + 1)) at 2.
      rewrite <- concat_zeros.
      apply appends_each, Forall_true. intros. apply appends_push.
    - apply appends_each, (Forall_impl _ _ _ Hk). intros. by apply appends_arg. }
  destruct (Ha []) as [H1 H2]; [simpl; lia|]. split; intros; [by apply H1|by apply H2].
Qed.

Lemma each_fails {A} (f : A → list Z → list Z * bool) l :
  Exists (λ a, ∀ out, (f a out).2 = false) l → ∀ out, (each f l out).2 = false.
Proof.
  induction 1 as [a l Ha|a l _ IH]; intros out; simpl; unfold andthen.
  - specialize (Ha out). by destruct (f a out) as [? []].
  - destruct (f a out) as [? []]; [apply IH|done].
Qed.

Lemma then_fails (a b : list Z → list Z * bool) out :
  (∀ out, (b out).2 = false) → ((a ;;; b) out).2 = false.
Proof. intros Hb. unfold andthen. by destruct (a out) as [? []]. Qed.
End appends.

#[global] Instance known_tag_dec a : Decision (known_tag a).
Proof. unfold known_tag. apply _. Defined.

Lemma encode_spec N address args :
  if decide (Forall known_tag args ∧ (length (osc_message address args) <= N)%nat)
  then encode N address args = (osc_message address args, true)
  else (encode N address args).2 = false.
Proof.
  case_decide as Hd; [destruct Hd; by apply encode_appends|].
  destruct (decide (Forall known_tag args)) as [Hk|Hk].
  - apply encode_appends; [done|]. destruct (decide (length (osc_message address args) <= N)%nat); [|lia].
    by destruct Hd.
  - unfold encode. do 4 (apply then_fails; intros). apply each_fails.
    apply not_Forall_Exists in Hk; [|apply _]. apply (Exists_impl _ _ _ Hk).
    intros b Hb o. change (¬ known_tag b) in Hb. unfold known_tag in Hb. unfold append_arg.
    rewrite !(proj2 (Z.eqb_neq _ _)) by tauto. done.
Qed.

(** C28: [encode] succeeds exactly when every argument has a known tag and the
    whole message fits the buffer, and then leaves the OSC 1.0 message:
    address, comma and tags, each zero-padded past its end to a multiple of
    four, and the arguments big-endian.  The bound of each check never lets a
    partial message through. *)
Theorem encode_exact N address args :
  if decide (Forall known_tag args ∧ (length (osc_message address args) <= N)%nat)
  then encode N address args = (osc_message address args, true)
  else (encode N address args).2 = false.
Proof.
  apply encode_spec.
Qed.

(** ** Parsing what was encoded *)

Lemma pad4_spec n : 0 <= n < 2 ^ 63 → pad4 n = (n + 3) / 4 * 4.
Proof.
  intros. unfold pad4. change (u64 (Z.lnot 3)) with (Z.shiftl (2 ^ 62 - 1) 2).
  rewrite land_shiftl_mask by lia. change (2 ^ 2) with 4.
  assert (u64 (n + 3) = n + 3) as -> by (apply (wrapu_small 64); lia).
  f_equal. apply Z.mod_small. zmod.
Qed.

(** A buffer that fits the address space. *)
Definition small_len (l : list Z) : Prop := Z.of_nat (length l) < 2 ^ 32.

Lemma pad4_string s : small_len s →
  Z.to_nat (pad4 (Z.of_nat (length s) + 1)) = length (osc_string s).
Proof.
  unfold small_len. intros. rewrite pad4_spec by lia. rewrite length_osc_string.
  replace (Z.of_nat (length s) + 1 + 3) with (Z.of_nat (length s + 1 * 4)) by lia.
  change 4 with (Z.of_nat 4). rewrite <- Nat2Z.inj_div, Nat.div_add by lia. lia.
Qed.

Lemma osc_string_zero s : ∃ z, osc_string s = s ++ 0 :: z.
Proof.
  unfold osc_string. pose proof (padded_bounds (length s)).
  destruct (_ - _)%nat eqn:E; [lia|]. by exists (replicate n 0).
Qed.

Lemma strnlen_app s r : Forall (λ b, b ≠ 0) s → strnlen (s ++ 0 :: r) = length s.
Proof.
  induction 1 as [|b s Hb _ IH]; [done|]. cbn [app strnlen length].
  rewrite (proj2 (Z.eqb_neq _ _)) by done. by rewrite IH.
Qed.

Lemma strnlen_osc_string s r : Forall (λ b, b ≠ 0) s → strnlen (osc_string s ++ r) = length s.
Proof.
  intros. destruct (osc_string_zero s) as [z ->]. rewrite <- app_assoc. by apply strnlen_app.
Qed.

Lemma take_osc_string s r : take (length s) (osc_string s ++ r) = s.
Proof. unfold osc_string. rewrite <- app_assoc. apply take_app_length. Qed.

Lemma length_osc_string_bounds s :
  (4 <= length (osc_string s))%nat ∧ (length s < length (osc_string s))%nat.
Proof. rewrite length_osc_string. pose proof (padded_bounds (length s)). lia. Qed.

Lemma parse_layout a t p :
  Forall (λ b, b ≠ 0) a → Forall (λ b, b ≠ 0) t → small_len a → small_len (comma :: t) →
  parse_packet (osc_string a ++ osc_string (comma :: t) ++ p) = Some (Packet a t p).
Proof.
  intros Ha Ht Hla Hlt. unfold parse_packet.
  rewrite strnlen_osc_string, pad4_string, take_osc_string, drop_app_length by done.
  pose proof (length_osc_string_bounds a). pose proof (length_osc_string_bounds (comma :: t)).
  rewrite !length_app.
  rewrite (proj2 (Nat.ltb_ge _ _)), !(proj2 (Nat.leb_gt _ _)) by lia.
  rewrite (strnlen_osc_string (comma :: t)), (pad4_string (comma :: t)) by (done || by constructor).
  change (head (osc_string (comma :: t) ++ p)) with (Some comma). cbn [default from_option id].
  rewrite Z.eqb_refl. cbn [negb]. rewrite <- drop_drop, !drop_app_length.
  assert (take (length (comma :: t) - 1) (drop 1 (osc_string (comma :: t) ++ p)) = t) as ->; [|done].
  unfold osc_string. rewrite <- app_assoc. cbn [app drop length Nat.sub]. rewrite Nat.sub_0_r.
  apply take_app_length.
Qed.

Definition no_nul (l : list Z) : Prop := Forall (λ b, b ≠ 0) l.

Lemma encode_ok N a l out : encode N a l = (out, true) →
  Forall known_tag l ∧ out = osc_message a l ∧ (length out <= N)%nat.
Proof.
  intros He. pose proof (encode_spec N a l) as H. rewrite He in H. case_decide as Hd; [|done].
  simplify_eq. by destruct Hd.
Qed.

(** whatever the encoder sends, the server's parser reads back: the
    address, the type tags and the argument bytes of every message [encode]
    accepts for a datagram. *)
Theorem osc_round_trip a l out :
  no_nul a → encode osc_event_max_bytes a l = (out, true) →
  parse_packet out = Some (Packet a (map tag l) (concat (map arg_bytes l))).
Proof.
  intros Ha (Hk & -> & Hl)%encode_ok. unfold osc_message in *.
  rewrite !length_app in Hl. unfold osc_event_max_bytes in Hl.
  pose proof (length_osc_string_bounds a). pose proof (length_osc_string_bounds (comma :: map tag l)).
  apply parse_layout; [done| |unfold small_len; lia..].
  apply Forall_map, (Forall_impl _ _ _ Hk). intros b Hb. by destruct Hb as [-> | [-> | ->]].
Qed.

Lemma osc_round_trip_witness : ∃ out,
  encode osc_event_max_bytes (bytes_of_string "/synth") [make_i (-2); make_s [65; 66; 67]] = (out, true) ∧
  parse_packet out = Some (Packet (bytes_of_string "/synth") [tag_i; tag_s]
                             ([255; 255; 255; 254] ++ [65; 66; 67; 0])).
Proof.
  eexists. split; [vm_compute; reflexivity|].
  apply (osc_round_trip (bytes_of_string "/synth") [make_i (-2); make_s [65; 66; 67]]).
  - by repeat constructor.
  - vm_compute. reflexivity.
Defined.

(** An argument of one of the three kinds whose value the wire carries exactly. *)
Definition arg_ok (a : arg) : Prop :=
  (tag a = tag_i ∧ - 2 ^ 31 <= arg_i a < 2 ^ 31) ∨
  (tag a = tag_f ∧ valid32 (arg_f a) ∧ is_nan (arg_f a) = false) ∨
  (tag a = tag_s ∧ no_nul (arg_s a) ∧ small_len (arg_s a)).

(** The event a note message stands for. *)
Definition note_args (p c k : Z) (v : f32) : list arg := [make_i p; make_i c; make_i k; make_f v].

Lemma osc_u32_be v r : is_u32 v → osc_u32 (bytes_be v ++ r) = v.
Proof. intros (a & b & c & d & -> & Hv)%load_bytes_be. done. Qed.

Lemma osc_int32_be v r : - 2 ^ 31 <= v < 2 ^ 31 → osc_int32 (bytes_be (u32 v) ++ r) = v.
Proof.
  intros. unfold osc_int32. rewrite osc_u32_be by apply u32_range.
  unfold i32, wraps, u32, wrapu. change (2 ^ (32 - 1)) with (2 ^ 31). zmod.
Qed.

Lemma drop4_be v r : drop 4 (bytes_be v ++ r) = r.
Proof. done. Qed.

(** An encoded [/nous/note/on] message makes the server queue the note-on
    it describes: 32-bit arguments truncated to 16 bits, the float velocity
    exact. *)
Theorem note_on_received s p c k v out :
  - 2 ^ 31 <= p < 2 ^ 31 → - 2 ^ 31 <= c < 2 ^ 31 → - 2 ^ 31 <= k < 2 ^ 31 →
  valid32 v → is_nan v = false →
  encode osc_event_max_bytes (bytes_of_string "/nous/note/on") (note_args p c k v) = (out, true) →
  handle_packet s out =
    [FxQueue (EvNoteOn (Note (Header 0 false) (-1) (i16 p) (i16 c) (i16 k) (f64_of_f32 v)))].
Proof.
  intros Hp Hc Hk Hv Hn (Hkn & -> & Hl)%encode_ok. unfold handle_packet, osc_message.
  rewrite parse_layout; [|by repeat constructor|by repeat constructor|done|done].
  unfold route. cbn [args address types]. cbv zeta.
  rewrite !bool_decide_eq_true_2 by done. cbn [andb].
  cbn [note_args map concat arg_bytes make_i make_f tag arg_i arg_f Z.eqb Pos.eqb tag_i tag_f].
  rewrite app_nil_r. unfold osc_note, osc_float.
  rewrite (drop4_be (u32 p)), osc_int32_be by done.
  change (drop 8 (?x ++ ?y ++ ?r)) with r. change (drop 12 (?x ++ ?y ++ ?z ++ ?r)) with r.
  rewrite !osc_int32_be by done. rewrite <- (app_nil_r (bytes_be (bits_of_f32 v))).
  by rewrite osc_u32_be, f32_of_bits_of_f32 by auto using bits_of_f32_range.
Qed.

Lemma note_on_received_witness : ∃ out,
  let s := OscServer 9000 true true (DispatchFns true None) (SockAddr 0 0) false in
  handle_packet s out =
    [FxQueue (EvNoteOn (Note (Header 0 false) (-1) (i16 1) (i16 70000) (i16 60)
       (f64_of_f32 (lit32 1 2))))].
Proof.
  exists (osc_message (bytes_of_string "/nous/note/on") (note_args 1 70000 60 (lit32 1 2))).
  cbv zeta. apply note_on_received; [lia..|done|done|vm_compute; reflexivity].
Defined.

(** The reply of the pull endpoint, assembled in place in a zeroed
    buffer, is the OSC message with the path list as its one string
    argument. *)
Theorem build_osc_string_msg_layout addr payload :
  no_nul addr → small_len addr → small_len payload →
  build_osc_string_msg addr payload = osc_message addr [make_s payload].
Proof.
  intros Ha Hla Hlp. unfold build_osc_string_msg, osc_message.
  assert (strnlen addr = length addr) as ->.
  { clear Hla. induction Ha as [|b l Hb _ IH]; [done|]. cbn [strnlen length].
    rewrite (proj2 (Z.eqb_neq _ _)) by done. by rewrite IH. }
  rewrite Nat2Z.inj_add, !pad4_string by done. rewrite firstn_all.
  assert (∀ s, osc_string s = s ++ 0 :: replicate (length (osc_string s) - S (length s)) 0) as Hz.
  { intros s. rewrite length_osc_string. unfold osc_string. pose proof (padded_bounds (length s)).
    destruct (_ - length s)%nat eqn:E; [lia|]. cbn [replicate]. do 3 f_equal. lia. }
  set (na := length (osc_string addr)). set (np := length (osc_string payload)).
  assert (blit (replicate (na + 4 + np) 0) 0 (addr ++ [0]) = osc_string addr ++ replicate (4 + np) 0) as ->.
  { unfold blit. rewrite take_0, length_app, drop_replicate. cbn [app length].
    rewrite (Hz addr), <- !app_assoc. f_equal. cbn [app]. f_equal. rewrite <- replicate_add. f_equal.
    pose proof (length_osc_string_bounds addr). unfold na. lia. }
  rewrite (insert_app_r_alt _ _ na). 2: { unfold na. lia. }
  rewrite (insert_app_r_alt _ _ (na + 1)). 2: { unfold na. lia. }
  fold na. rewrite Nat.sub_diag. replace (na + 1 - na)%nat with 1%nat by lia.
  change (<[1%nat:=tag_s]> (<[0%nat:=comma]> (replicate (4 + np) 0)))
    with (osc_string (comma :: map tag [make_s payload]) ++ replicate np 0).
  change (concat (map arg_bytes [make_s payload])) with (osc_string payload ++ []).
  set (tags := osc_string (comma :: _)). assert (length tags = 4%nat) as Ht by done.
  rewrite app_nil_r, app_assoc. unfold blit.
  rewrite take_app_length' by (rewrite length_app; unfold na; lia).
  rewrite <- !app_assoc. do 2 f_equal. rewrite <- drop_drop, (app_assoc (osc_string addr)).
  rewrite drop_app_length' by (rewrite length_app; unfold na; lia).
  rewrite drop_replicate, length_app, (Hz payload). cbn [app length].
  do 3 f_equal. unfold np. lia.
Qed.

Lemma build_osc_string_msg_layout_witness :
  build_osc_string_msg (bytes_of_string "/nous/endpoints") (bytes_of_string "/a") =
  osc_message (bytes_of_string "/nous/endpoints") [make_s (bytes_of_string "/a")].
Proof.
  apply build_osc_string_msg_layout; [by repeat constructor|by vm_compute..].
Defined.
