(* ===== verification/SmallVector.v ===== *)
(** The fixed-capacity buffer as it is stored
    ([include/nomos/rt/small_vector.hpp]): an array of [Capacity] elements and a
    count.  The OSC encoder ([Osc]) is stated on the list of the first [size_]
    elements; here the array is shown to refine that list, so that neither a
    write past the array nor an element left over from before [clear] is ever
    seen. *)
From S2P Require Import Prelude Bytes Spsc Binary Events Osc.

Section small_vector.
Context {T : Type} (dflt : T) (Capacity : nat).

Record small_vector := SmallVector { data_ : list T; size_ : nat }.

(** [std::array<T, Capacity> data_{}]. *)
Definition empty_vector : small_vector := SmallVector (replicate Capacity dflt) 0.

Definition size (v : small_vector) : nat := size_ v.
Definition empty (v : small_vector) : bool := size_ v =? 0.
Definition full (v : small_vector) : bool := size_ v =? Capacity.
(** [begin()] to [end()]. *)
Definition live (v : small_vector) : list T := take (size_ v) (data_ v).
(** [data_[i]]; [None] outside the array. *)
Definition at_ (v : small_vector) (i : nat) : option T := data_ v !! i.

Definition push_back (v : small_vector) (x : T) : small_vector * bool :=
  if size_ v =? Capacity then (v, false)
  else (SmallVector (<[size_ v := x]> (data_ v)) (S (size_ v)), true).

(** The loop over the initialiser. *)
Fixpoint of_init (v : small_vector) (init : list T) : small_vector :=
  match init with
  | [] => v
  | x :: init => if size_ v =? Capacity then v else of_init (push_back v x).1 init
  end.

(** [for i < n: data_[size_ + i] = src[i]]. *)
Fixpoint store (d : list T) (i : nat) (src : list T) : list T :=
  match src with [] => d | x :: src => store (<[i := x]> d) (S i) src end.

Definition append (v : small_vector) (src : list T) : small_vector * bool :=
  if Capacity - size_ v <? length src then (v, false)
  else (SmallVector (store (data_ v) (size_ v) src) (size_ v + length src), true).

Definition clear (v : small_vector) : small_vector := SmallVector (data_ v) 0.

(** [v] holds [l]. *)
Definition holds (v : small_vector) (l : list T) : Prop :=
  length (data_ v) = Capacity ∧ size_ v ≤ Capacity ∧ live v = l.

Lemma holds_size v l : holds v l → size_ v = length l.
Proof. intros (Hd & Hs & <-). unfold live. rewrite length_take. lia. Qed.

Lemma store_keeps src : ∀ d i, length (store d i src) = length d.
Proof. induction src as [|x src IH]; intros d i; [done|]. simpl. by rewrite IH, length_insert. Qed.

Lemma store_take src : ∀ d i, i + length src ≤ length d → take (i + length src) (store d i src) = take i d ++ src.
Proof.
  induction src as [|x src IH]; intros d i Hl; cbn [length store] in *; [by rewrite Nat.add_0_r, app_nil_r|].
  replace (i + S (length src)) with (S i + length src) by lia.
  rewrite IH by (rewrite length_insert; lia).
  rewrite (take_S_r _ i x) by (apply list_lookup_insert_eq; lia).
  by rewrite take_insert_ge, <- app_assoc by lia.
Qed.

Lemma append_holds v l src : holds v l →
  holds (append v src).1 (sv_append Capacity src l).1 ∧ (append v src).2 = (sv_append Capacity src l).2.
Proof.
  intros Hv. pose proof (holds_size v l Hv) as Hsz. destruct Hv as (Hd & Hs & Hl).
  unfold append, sv_append. rewrite Hsz. case_if; [by repeat split|]. bool_to_prop. split; [|done].
  unfold holds, live. cbn [fst data_ size_]. rewrite store_keeps. split_and!; [done|lia|].
  rewrite store_take by lia. f_equal. rewrite <- Hsz. exact Hl.
Qed.

Lemma push_back_append v x : push_back v x = if size_ v =? Capacity then (v, false) else
  (SmallVector (store (data_ v) (size_ v) [x]) (size_ v + length [x]), true).
Proof. unfold push_back. cbn [store length]. by rewrite Nat.add_1_r. Qed.

Lemma push_back_holds v l x : holds v l →
  holds (push_back v x).1 (sv_push_back Capacity x l).1 ∧ (push_back v x).2 = (sv_push_back Capacity x l).2.
Proof.
  intros Hv. pose proof (append_holds v l [x] Hv) as Ha. pose proof (holds_size v l Hv) as Hsz.
  rewrite push_back_append. unfold append, sv_append, sv_push_back in *. rewrite Hsz in *.
  destruct Hv as (Hd & Hs & Hl). cbn [length] in Ha.
  destruct (Nat.eqb_spec (length l) Capacity) as [E|E]; [by repeat split|].
  by rewrite (proj2 (Nat.ltb_ge _ _)) in Ha by lia.
Qed.

Lemma of_init_holds init : ∀ v l, holds v l → holds (of_init v init) (take Capacity (l ++ init)).
Proof.
  induction init as [|x init IH]; intros v l Hv; pose proof (holds_size v l Hv) as Hsz; cbn [of_init].
  - destruct Hv as (Hd & Hs & Hl). rewrite app_nil_r, take_ge by lia. done.
  - case_if; bool_to_prop.
    + by rewrite take_app_length' by lia.
    + pose proof (push_back_holds v l x Hv) as [Hp _]. apply IH in Hp.
      unfold sv_push_back in Hp. rewrite (proj2 (Nat.eqb_neq _ _)) in Hp by lia.
      cbn [fst] in Hp. by rewrite <- app_assoc in Hp.
Qed.

(** A call of a buffer. *)
Inductive sv_op := OpPush (x : T) | OpAppend (src : list T) | OpClear.

Definition run_op (v : small_vector) (o : sv_op) : small_vector * bool :=
  match o with
  | OpPush x => push_back v x
  | OpAppend src => append v src
  | OpClear => (clear v, true)
  end.

Definition list_op (l : list T) (o : sv_op) : list T * bool :=
  match o with
  | OpPush x => sv_push_back Capacity x l
  | OpAppend src => sv_append Capacity src l
  | OpClear => ([], true)
  end.

(** The buffer and what the calls returned. *)
Definition run_calls {S} (f : S → sv_op → S * bool) (s : S) (os : list sv_op) : S * list bool :=
  foldl (λ '(s, bs) o, let '(s, b) := f s o in (s, bs ++ [b])) (s, []) os.

Lemma run_op_holds v l o : holds v l → holds (run_op v o).1 (list_op l o).1 ∧ (run_op v o).2 = (list_op l o).2.
Proof.
  intros Hv. destruct o as [x|src|]; [by apply push_back_holds|by apply append_holds|].
  destruct Hv as (Hd & Hs & Hl). split; [|done]. split_and!; [done|simpl; lia|done].
Qed.

(** The array behaves as the list: built from an initialiser and used by any
    sequence of calls, it returns what the list returns and [begin()] to
    [end()] is the list; the observers agree with it, and an index below the
    size finds its element inside the array. *)
Lemma small_vector_refines init os :
  let '(v, bs) := run_calls run_op (of_init empty_vector init) os in
  let '(l, bs') := run_calls list_op (sv_of_list Capacity init) os in
  bs = bs' ∧ live v = l ∧ size v = length l ∧ empty v = bool_decide (l = []) ∧
  full v = (length l =? Capacity) ∧ length l ≤ Capacity ∧
  ∀ i, i < size v → at_ v i = l !! i.
Proof.
  assert (∀ os v l bs, holds v l →
    let r := foldl (λ '(s, bs) o, let '(s, b) := run_op s o in (s, bs ++ [b])) (v, bs) os in
    let r' := foldl (λ '(s, bs) o, let '(s, b) := list_op s o in (s, bs ++ [b])) (l, bs) os in
    holds r.1 r'.1 ∧ r.2 = r'.2) as Hrun.
  { clear os. induction os as [|o os IH]; intros v l bs Hv; [done|]. cbn [foldl].
    pose proof (run_op_holds v l o Hv) as [Hv' Hb].
    destruct (run_op v o) as [v' b], (list_op l o) as [l' b']. cbn [fst snd] in *. subst b'. by apply IH. }
  assert (holds (of_init empty_vector init) (sv_of_list Capacity init)) as H0.
  { apply (of_init_holds init empty_vector []). split_and!; [apply length_replicate|simpl; lia|done]. }
  specialize (Hrun os _ _ [] H0). unfold run_calls. cbv zeta in Hrun.
  destruct (foldl _ (of_init _ _, _) _) as [v bs], (foldl _ (sv_of_list _ _, _) _) as [l bs'].
  destruct Hrun as [Hv Hb]. cbn [fst snd] in *. pose proof (holds_size v l Hv) as Hsz. destruct Hv as (Hd & Hs & Hl).
  unfold size, empty, full, at_. rewrite Hsz. split_and!; [done|done|done| |done|lia|].
  - by destruct l.
  - intros i Hi. rewrite <- Hl. unfold live. by rewrite lookup_take_lt by lia.
Qed.
End small_vector.
