(* ===== verification/OscLive.v ===== *)
(** The OSC server as its peers see it: a stream of datagrams, followed from the
    socket to the input queue and the plugins, and the life of the thread that
    receives them ([src/osc_server.cpp]). *)
From S2P Require Import Prelude Sequences Binary Bytes Spsc Events Osc.
Local Open Scope Z_scope.

(** ** What a message means *)

(** What [recvfrom] gives: nothing within its timeout, or a message. *)
Inductive incoming :=
| Quiet
| Message (sender : sockaddr_in) (addr : list Z) (params : list arg).

Definition dgram_of (i : incoming) : option (sockaddr_in * list Z) :=
  match i with
  | Quiet => None
  | Message sender a l => Some (sender, osc_message a l)
  end.

Definition int_arg (l : list arg) (i : nat) : Z := from_option arg_i 0 (l !! i).

Definition is_message (a : list Z) (l : list arg) (addr tags : string) : bool :=
  bool_decide (a = bytes_of_string addr) && bool_decide (map tag l = bytes_of_string tags).

(** The event of a static route. *)
Definition played_osc (a : list Z) (l : list arg) : option clap_event :=
  let note v := Note (Header 0 false) (-1) (i16 (int_arg l 0)) (i16 (int_arg l 1)) (i16 (int_arg l 2)) v in
  if is_message a l "/nous/note/on" "iiif"
  then Some (EvNoteOn (note (f64_of_f32 (from_option arg_f (S754_zero false) (l !! 3%nat)))))
  else if is_message a l "/nous/note/off" "iii" then Some (EvNoteOff (note (S754_zero false)))
  else if is_message a l "/nous/midi" "iiii"
  then Some (EvMidi (Midi (Header 0 false) (u16 (int_arg l 0)) (u8 (int_arg l 1)) (u8 (int_arg l 2)) (u8 (int_arg l 3))))
  else None.

Definition played_in (i : incoming) : option clap_event :=
  match i with Quiet => None | Message _ a l => played_osc a l end.

(** What the server does besides: the list of endpoints goes back to whoever
    asked, other messages go to the scripts. *)
Definition answered (s : osc_server) (i : incoming) : list osc_fx :=
  match i with
  | Quiet => []
  | Message sender a l =>
      match played_osc a l with
      | Some _ => []
      | None =>
          if bool_decide (a = bytes_of_string "/nous/endpoints") then
            match get_endpoints (dispatch_fns_ s) with
            | Some paths => if sock_ s then [FxSendTo sender (osc_message (bytes_of_string "/nous/endpoints") [make_s paths])] else []
            | None => []
            end
          else if has_dispatch (dispatch_fns_ s) then [FxDispatch (Packet a (map tag l) (concat (map arg_bytes l)))]
          else []
      end
  end.

(** Whole messages, as any client may send them; a datagram holds 1500 bytes. *)
Definition incoming_ok (i : incoming) : Prop :=
  match i with
  | Quiet => True
  | Message _ a l => no_nul a ∧ Forall arg_ok l ∧ (length (osc_message a l) <= 1500)%nat
  end.

(** ** The server's turns *)

Fixpoint run_steps (s : osc_server) (ds : list (option (sockaddr_in * list Z))) : osc_server * list osc_fx :=
  match ds with
  | [] => (s, [])
  | d :: ds => let '(s, fx) := run_step s d in let '(s, fx') := run_steps s ds in (s, fx ++ fx')
  end.

(** The events for the queue, and the rest. *)
Definition queued_fx (fx : list osc_fx) : list clap_event :=
  omap (λ f, match f with FxQueue ev => Some ev | _ => None end) fx.
Definition other_fx (fx : list osc_fx) : list osc_fx :=
  omap (λ f, match f with FxQueue _ => None | f => Some f end) fx.

Lemma arg_ok_int a : arg_ok a → tag a = tag_i → arg_bytes a = bytes_be (u32 (arg_i a)) ∧ - 2 ^ 31 <= arg_i a < 2 ^ 31.
Proof. intros [[Ht Hi]|[[Ht _]|[Ht _]]] E; rewrite Ht in E; [|done..]. unfold arg_bytes. by rewrite Ht. Qed.

Lemma arg_ok_float a : arg_ok a → tag a = tag_f →
  arg_bytes a = bytes_be (bits_of_f32 (arg_f a)) ∧ valid32 (arg_f a) ∧ is_nan (arg_f a) = false.
Proof. intros [[Ht _]|[[Ht Hf]|[Ht _]]] E; rewrite Ht in E; [done| |done]. unfold arg_bytes. by rewrite Ht. Qed.

(** Where the arguments are on the wire, up to the first string. *)
Definition word_arg (a : arg) : Prop := arg_ok a ∧ (tag a = tag_i ∨ tag a = tag_f).

Lemma word_arg_bytes a : word_arg a → ∃ v, arg_bytes a = bytes_be v.
Proof. intros [Ha [Ht|Ht]]; [destruct (arg_ok_int a Ha Ht)|destruct (arg_ok_float a Ha Ht)]; eauto. Qed.

Lemma wire_length l : Forall word_arg l → length (concat (map arg_bytes l)) = (4 * length l)%nat.
Proof.
  induction 1 as [|a l Ha _ IH]; [done|]. destruct (word_arg_bytes a Ha) as [v Hv].
  cbn [map concat length]. rewrite length_app, IH, Hv. change (length (bytes_be v)) with 4%nat. lia.
Qed.

Lemma wire_drop l : ∀ i, Forall word_arg l →
  drop (4 * i) (concat (map arg_bytes l)) = concat (map arg_bytes (drop i l)).
Proof.
  induction l as [|a l IH]; intros i Hl; [by rewrite drop_nil; apply drop_nil|]. apply Forall_cons in Hl as [Ha Hl].
  destruct i as [|i]; [done|]. destruct (word_arg_bytes a Ha) as [v Hv]. cbn [map concat drop].
  replace (4 * S i)%nat with (4 + 4 * i)%nat by lia. by rewrite Hv, <- drop_drop, drop4_be, IH.
Qed.

Lemma wire_int l i a : Forall word_arg l → l !! i = Some a → tag a = tag_i →
  osc_int32 (drop (4 * i) (concat (map arg_bytes l))) = arg_i a.
Proof.
  intros Hl Ha Ht. rewrite wire_drop by done. rewrite (drop_S l a i Ha). cbn [map concat].
  rewrite Forall_lookup in Hl. destruct (arg_ok_int a (proj1 (Hl i a Ha)) Ht) as [-> ?]. by apply osc_int32_be.
Qed.

Lemma wire_float l i a : Forall word_arg l → l !! i = Some a → tag a = tag_f →
  osc_float (drop (4 * i) (concat (map arg_bytes l))) = arg_f a.
Proof.
  intros Hl Ha Ht. rewrite wire_drop by done. rewrite (drop_S l a i Ha). cbn [map concat].
  rewrite Forall_lookup in Hl. destruct (arg_ok_float a (proj1 (Hl i a Ha)) Ht) as (-> & ? & ?). unfold osc_float.
  by rewrite osc_u32_be, f32_of_bits_of_f32 by auto using bits_of_f32_range.
Qed.

Section routing.
Context (s : osc_server).
Hypothesis endpoints_fit : ∀ paths, get_endpoints (dispatch_fns_ s) = Some paths → small_len paths.

Abbreviation response sender a l :=
  (match played_osc a l with Some ev => [FxQueue ev] | None => [] end ++ answered s (Message sender a l)).

Lemma tags_words l (t : list Z) : Forall arg_ok l → map tag l = t → Forall (λ b, b = tag_i ∨ b = tag_f) t →
  Forall word_arg l ∧ length l = length t.
Proof.
  intros Hok <- Ht. rewrite length_map. split; [|done]. rewrite Forall_map in Ht.
  rewrite !Forall_lookup in *. intros i a Ha. split; [by eapply Hok|by eapply Ht].
Qed.

Lemma int_arg_wire l i (t : list Z) : Forall word_arg l → map tag l = t → t !! i = Some tag_i →
  osc_int32 (drop (4 * i) (concat (map arg_bytes l))) = int_arg l i.
Proof.
  intros Hl <- Ht. rewrite list_lookup_fmap in Ht. unfold int_arg.
  destruct (l !! i) as [a|] eqn:Ha; [|done]. injection Ht as Ht. by apply wire_int.
Qed.

Lemma osc_note_wire l (t : list Z) v : Forall word_arg l → map tag l = t → take 3 t = [tag_i; tag_i; tag_i] →
  osc_note (concat (map arg_bytes l)) v =
    Note (Header 0 false) (-1) (i16 (int_arg l 0)) (i16 (int_arg l 1)) (i16 (int_arg l 2)) v.
Proof.
  intros Hl Ht H3. destruct t as [|t0 [|t1 [|t2 t]]]; [done..|]. injection H3 as -> -> ->. unfold osc_note.
  change (concat (map arg_bytes l)) with (drop (4 * 0) (concat (map arg_bytes l))) at 1.
  change 4%nat with (4 * 1)%nat at 2. change 8%nat with (4 * 2)%nat.
  by rewrite !(int_arg_wire l _ _ Hl Ht) by done.
Qed.

Lemma float_arg_wire l i (t : list Z) : Forall word_arg l → map tag l = t → t !! i = Some tag_f →
  osc_float (drop (4 * i) (concat (map arg_bytes l))) = from_option arg_f (S754_zero false) (l !! i).
Proof.
  intros Hl <- Ht. rewrite list_lookup_fmap in Ht.
  destruct (l !! i) as [a|] eqn:Ha; [|done]. injection Ht as Ht. by apply wire_float.
Qed.

(** A turn of the server on a message: what the peers see. *)
Lemma route_message a l : Forall arg_ok l → has_sender_ s = true →
  route s (Packet a (map tag l) (concat (map arg_bytes l))) = response (last_sender_ s) a l.
Proof.
  intros Hok Hs. unfold route, answered, played_osc, is_message. cbn [address types args]. cbv zeta.
  set (on := bool_decide (a = bytes_of_string "/nous/note/on")).
  set (off := bool_decide (a = bytes_of_string "/nous/note/off")).
  set (midi := bool_decide (a = bytes_of_string "/nous/midi")).
  assert (∀ (b : bool) (t : string), Forall (λ b, b = tag_i ∨ b = tag_f) (bytes_of_string t) →
    b && bool_decide (map tag l = bytes_of_string t) = true →
    Forall word_arg l ∧ length (concat (map arg_bytes l)) = (4 * length (bytes_of_string t))%nat ∧
    map tag l = bytes_of_string t) as Hw.
  { intros b t Ht [_ E%bool_decide_eq_true]%andb_prop. destruct (tags_words l _ Hok E Ht) as [Hl Hn].
    rewrite wire_length, Hn by done. done. }
  destruct (on && _) eqn:E1.
  { destruct (Hw on "iiif"%string) as (Hl & -> & Ht); [repeat constructor; (by left) || by right|done|].
    cbn [andb Nat.leb Nat.mul Nat.add length bytes_of_string app]. f_equal.
    change 12%nat with (4 * 3)%nat. by rewrite (osc_note_wire l _ _ Hl Ht), (float_arg_wire l 3 _ Hl Ht) by done. }
  cbn [andb]. destruct (off && _) eqn:E2.
  { destruct (Hw off "iii"%string) as (Hl & -> & Ht); [repeat constructor; by left|done|].
    cbn [andb Nat.leb Nat.mul Nat.add length bytes_of_string app]. by rewrite (osc_note_wire l _ _ Hl Ht). }
  cbn [andb]. destruct (midi && _) eqn:E3.
  { destruct (Hw midi "iiii"%string) as (Hl & -> & Ht); [repeat constructor; by left|done|].
    cbn [andb Nat.leb Nat.mul Nat.add length bytes_of_string app].
    change (osc_int32 (concat (map arg_bytes l))) with (osc_int32 (drop (4 * 0) (concat (map arg_bytes l)))).
    change 12%nat with (4 * 3)%nat. change 8%nat with (4 * 2)%nat. change 4%nat with (4 * 1)%nat.
    by rewrite !(int_arg_wire l _ _ Hl Ht). }
  cbn [andb app]. case_match; [|done].
  destruct (get_endpoints (dispatch_fns_ s)) as [paths|] eqn:Hp; [|done]. rewrite Hs.
  rewrite build_osc_string_msg_layout; [|by repeat constructor|done|by apply endpoints_fit].
  unfold send_udp. destruct (sock_ s); cbn [negb orb]; [|done].
  by rewrite (proj2 (Nat.eqb_neq _ _)).
Qed.
End routing.

(** ** A stream of datagrams *)

Definition sender_of (i : incoming) : option sockaddr_in :=
  match i with Quiet => None | Message sender _ _ => Some sender end.

(** The server remembers who sent last. *)
Definition heard (s : osc_server) (i : incoming) : osc_server :=
  match i with
  | Quiet => s
  | Message sender _ _ => OscServer (port_ s) (sock_ s) (running_ s) (dispatch_fns_ s) sender true
  end.

Definition endpoints_small (s : osc_server) : Prop :=
  ∀ paths, get_endpoints (dispatch_fns_ s) = Some paths → small_len paths.

Lemma run_step_message s i : endpoints_small s → incoming_ok i →
  run_step s (dgram_of i) = (heard s i, map FxQueue (option_list (played_in i)) ++ answered s i).
Proof.
  intros He Hi. destruct i as [|sender a l]; [done|]. destruct Hi as (Ha & Hok & Hl).
  unfold run_step, dgram_of, played_in, heard. pose proof (length_osc_string_bounds a).
  destruct (osc_message a l) as [|b bs] eqn:Hm.
  { exfalso. apply (f_equal length) in Hm. unfold osc_message in Hm. rewrite length_app in Hm. cbn [length] in Hm. lia. }
  rewrite take_ge by done. rewrite <- Hm in *. clear Hm. unfold handle_packet, osc_message in *. rewrite !length_app in Hl.
  pose proof (length_osc_string_bounds (comma :: map tag l)).
  rewrite parse_layout; [|done| |unfold small_len; lia..].
  - rewrite route_message; [|exact He|done|done]. f_equal. cbn [last_sender_].
    by destruct (played_osc a l).
  - apply Forall_map, (Forall_impl _ _ _ Hok). intros x [[-> _]|[[-> _]|[-> _]]]; done.
Qed.

Lemma answered_heard s i j : answered (heard s i) j = answered s j.
Proof. by destruct i. Qed.

Lemma run_steps_messages ins : ∀ s, endpoints_small s → Forall incoming_ok ins →
  run_steps s (map dgram_of ins) =
    (foldl heard s ins, concat (map (λ i, map FxQueue (option_list (played_in i)) ++ answered s i) ins)).
Proof.
  induction ins as [|i ins IH]; intros s He Hi; [done|]. apply Forall_cons in Hi as [Hi Hins].
  cbn [map run_steps foldl concat]. rewrite run_step_message by done.
  rewrite IH; [|by destruct i|done]. do 2 f_equal. f_equal. apply map_ext. intros j. by rewrite answered_heard.
Qed.

Lemma answered_no_queue s i : queued_fx (answered s i) = [] ∧ other_fx (answered s i) = answered s i.
Proof. destruct i as [|sender a l]; [done|]. unfold answered. by repeat case_match. Qed.

Lemma split_effects s ins :
  let fx := concat (map (λ i, map FxQueue (option_list (played_in i)) ++ answered s i) ins) in
  queued_fx fx = omap played_in ins ∧ other_fx fx = concat (map (answered s) ins).
Proof.
  induction ins as [|i ins [IHq IHo]]; [done|]. cbn [map concat]. unfold queued_fx, other_fx in *.
  destruct (answered_no_queue s i) as [Hq Ho]. unfold queued_fx, other_fx in Hq, Ho.
  rewrite !omap_app, IHq, IHo, Hq, Ho. cbn [omap list_omap]. by destruct (played_in i).
Qed.

Lemma foldl_heard ins : ∀ s,
  last_sender_ (foldl heard s ins) = default (last_sender_ s) (last (omap sender_of ins)) ∧
  has_sender_ (foldl heard s ins) = has_sender_ s || negb (bool_decide (omap sender_of ins = [])) ∧
  dispatch_fns_ (foldl heard s ins) = dispatch_fns_ s ∧ sock_ (foldl heard s ins) = sock_ s.
Proof.
  induction ins as [|i ins IH]; intros s; cbn [foldl]; [by rewrite orb_false_r|].
  destruct (IH (heard s i)) as (-> & -> & -> & ->). destruct i as [|sender a l]; [done|]. cbn [heard omap list_omap sender_of].
  split_and!; [|cbn; by rewrite orb_true_r|done|done]. rewrite last_cons. cbn [last_sender_].
  by destruct (last (omap sender_of ins)).
Qed.

(** C15: What OSC peers send reaches the plugins and the scripts.  Over a stream
    of datagrams holding whole messages, with timeouts anywhere: the notes and
    MIDI messages of the static routes are queued in order, with their arguments
    (integers cut to the widths of CLAP, the velocity exact), as far as the
    queue has room, and the next block presents the plugins the first 64 of
    them; each request for the endpoints is answered to the peer that made it,
    as an OSC message; every other message goes to the scripts unchanged, in
    order; and an unrequested list of endpoints goes to the peer heard last. *)
Theorem osc_stream_played {Q} `{BoundedQueue Q clap_event} s ins q xs :
  endpoints_small s → Forall incoming_ok ins → has_sender_ s = false → bq_rep q xs →
  let '(s', fx) := run_steps s (map dgram_of ins) in
  let queued := take bq_room (xs ++ omap played_in ins) in
  let q' := push_list q (queued_fx fx) in
  (bq_rep q' queued ∧ ∃ q'', drain [] q' = (take 64 queued, q'') ∧ bq_rep q'' (drop 64 queued)) ∧
  other_fx fx = concat (map (answered s) ins) ∧
  push_endpoints s' =
    match get_endpoints (dispatch_fns_ s), last (omap sender_of ins) with
    | Some paths, Some peer =>
        if sock_ s then [FxSendTo peer (osc_message (bytes_of_string "/nous/endpoints") [make_s paths])] else []
    | _, _ => []
    end.
Proof.
  intros He Hi Hs Hq. rewrite run_steps_messages by done. cbv zeta.
  destruct (split_effects s ins) as [-> ->]. pose proof (bq_push_list (omap played_in ins) q xs Hq) as Hr.
  split_and!; [done| |done|].
  - destruct (drain_from_spec max_input_events [] _ _ Hr) as (q'' & Hd & Hr'); [simpl; lia|]. by exists q''.
  - unfold push_endpoints. destruct (foldl_heard ins s) as (-> & -> & -> & Hsock).
    destruct (get_endpoints (dispatch_fns_ s)) as [paths|] eqn:Hp; [|done]. rewrite Hs.
    rewrite build_osc_string_msg_layout; [|by repeat constructor|done|by apply He].
    unfold send_udp. rewrite Hsock.
    destruct (omap sender_of ins) as [|p ps] eqn:Ho; [done|]. cbn [bool_decide negb orb].
    rewrite last_cons. destruct (last ps); destruct (sock_ s); done.
Qed.

(** Two peers: a note, a request and a message for the scripts. *)
Definition demo_server : osc_server :=
  OscServer 9000 true true (DispatchFns true (Some (bytes_of_string "/grid"))) (SockAddr 0 0) false.
Definition demo_stream : list incoming :=
  [Quiet; Message (SockAddr 1 1) (bytes_of_string "/nous/note/on") (note_args 0 70000 60 (lit32 1 2));
   Message (SockAddr 2 2) (bytes_of_string "/nous/endpoints") [];
   Message (SockAddr 1 1) (bytes_of_string "/grid") [make_i 7]].

Lemma osc_stream_played_witness :
  let '(s', fx) := run_steps demo_server (map dgram_of demo_stream) in
  (∃ q'', drain (H := input_event_queue) [] (push_list (H := input_event_queue) (spsc_init (EvOther (Header 0 false)) 8) (queued_fx fx)) =
     ([EvNoteOn (Note (Header 0 false) (-1) 0 4464 60 (lit64 1 2))], q'')) ∧
  other_fx fx = [FxSendTo (SockAddr 2 2) (osc_message (bytes_of_string "/nous/endpoints") [make_s (bytes_of_string "/grid")]);
                 FxDispatch (Packet (bytes_of_string "/grid") [tag_i] [0; 0; 0; 7])].
Proof.
  assert (Forall incoming_ok demo_stream) as Hok.
  { assert (∀ v, - 2 ^ 31 <= v < 2 ^ 31 → arg_ok (make_i v)) as Hi by (by left).
    assert (arg_ok (make_f (lit32 1 2))) as Hf by (by right; left).
    unfold demo_stream, note_args. repeat (apply Forall_cons; split); unfold incoming_ok; split_and?; try done;
      try (by repeat constructor); try (by vm_compute); repeat (apply Forall_cons; split); auto with lia. }
  pose proof (osc_stream_played (H := input_event_queue) demo_server demo_stream
    (spsc_init (EvOther (Header 0 false)) 8) [] ltac:(intros ? [= <-]; by vm_compute) Hok eq_refl
    ltac:(by apply spsc_init_rep)) as Ht.
  destruct (run_steps demo_server (map dgram_of demo_stream)) as [s' fx].
  destruct Ht as ((_ & q'' & Hd & _) & -> & _). split; [|by vm_compute].
  exists q''. rewrite Hd. by vm_compute.
Defined.

(** ** The life of the receiving thread *)

Module Life.
(** Where the thread is. *)
Inductive run_pc :=
| Checking       (* while (running_) *)
| Receiving      (* in recvfrom *)
| Handling       (* in handle_packet *)
| Finished.

(** Where the caller of [stop] is. *)
Inductive stop_pc := NotCalled | Closing | Joining | Returned.

(** [socket_open]: [sock_ >= 0]. *)
Record sys := Sys { running_ : bool; socket_open : bool; pc : run_pc; stop_at : stop_pc }.

(** After [start] has bound the socket. *)
Definition started : sys := Sys true true Checking NotCalled.

(** The thread.  [recvfrom] ends at the latest after 100 ms, or at once with
    an error when the socket is closed; a packet is handled with the callbacks. *)
Inductive thread_step : sys → sys → Prop :=
| t_check r o st : thread_step (Sys r o Checking st) (Sys r o (if r then Receiving else Finished) st)
| t_timeout r o st : thread_step (Sys r o Receiving st) (Sys r o Checking st)
| t_packet r st : thread_step (Sys r true Receiving st) (Sys r true Handling st)
| t_handled r o st : thread_step (Sys r o Handling st) (Sys r o Checking st).

(** The caller of [stop]. *)
Inductive stop_step : sys → sys → Prop :=
| s_exchange r o q : stop_step (Sys r o q NotCalled) (Sys false o q (if r then Closing else Returned))
| s_close r o q : stop_step (Sys r o q Closing) (Sys r false q Joining)
| s_join r o : stop_step (Sys r o Finished Joining) (Sys r o Finished Returned).

Definition step (s s' : sys) : Prop := thread_step s s' ∨ stop_step s s'.

Definition inv (s : sys) : Prop :=
  running_ s = match stop_at s with NotCalled => true | _ => false end ∧
  socket_open s = match stop_at s with NotCalled | Closing => true | _ => false end ∧
  (pc s = Finished → stop_at s ≠ NotCalled) ∧ (stop_at s = Returned → pc s = Finished).

Lemma osc_life_inv_step s s' : inv s → step s s' → inv s'.
Proof.
  intros (Hr & Ho & Hp & Hd) [Hst|Hst]; destruct Hst; unfold inv; cbn [running_ socket_open pc stop_at] in *;
    split_and!; try done; repeat case_match; naive_solver.
Qed.

Lemma osc_life_inv s : reach step started s → inv s.
Proof. apply reach_invariant; [by split_and!|exact osc_life_inv_step]. Qed.

(** What is left before [stop] returns. *)
Definition to_return (s : sys) : nat :=
  (match pc s with Receiving => 3 | Handling => 2 | Checking => 1 | Finished => 0 end) +
  (match stop_at s with NotCalled => 3 | Closing => 2 | Joining => 1 | Returned => 0 end).

Lemma osc_stopping_moves s : inv s → stop_at s ≠ NotCalled → stop_at s ≠ Returned →
  (∃ s', step s s') ∧ ∀ s', step s s' → (to_return s' < to_return s)%nat ∧ stop_at s' ≠ NotCalled.
Proof.
  intros (Hr & Ho & Hp & Hd) Hn Hne. destruct s as [r o q st]. cbn [running_ socket_open pc stop_at] in *. split.
  - destruct st; try done.
    + eexists. right. constructor.
    + destruct q; eexists; try (left; constructor); try (right; constructor); try done.
  - intros s' [Hst|Hst]; inversion Hst; subst; unfold to_return; cbn [pc stop_at]; split; try done; try lia.
    all: destruct st; try done; cbn; lia.
Qed.
Lemma osc_stopping_run n s s' : inv s → stop_at s ≠ NotCalled → nsteps step n s s' → (n + to_return s' <= to_return s)%nat.
Proof.
  intros Hi Hn Hst. revert Hi Hn. induction Hst as [s|n s t s' Hst Hrun IH]; intros Hi Hn; [lia|].
  destruct (decide (to_return s = 0)%nat) as [E|E].
  - exfalso. destruct s as [r o q st]. unfold to_return in E. cbn [pc stop_at] in *.
    destruct q, st; try (cbn in E; lia). by destruct Hst as [Hst|Hst]; inversion Hst.
  - assert (stop_at s ≠ Returned) as Hr.
    { intros Hr. apply E. destruct Hi as (_ & _ & _ & Hf). unfold to_return. by rewrite (Hf Hr), Hr. }
    destruct (proj2 (osc_stopping_moves s Hi Hn Hr) t Hst) as [Hlt Ht].
    specialize (IH (osc_life_inv_step _ _ Hi Hst) Ht). lia.
Qed.

Lemma receives_closed : ∃ s, reach step started s ∧ pc s = Receiving ∧ socket_open s = false.
Proof.
  exists (Sys false false Receiving Joining). split; [|done].
  apply (reach_step _ _ (Sys false true Receiving Closing)); [|by right; constructor].
  apply (reach_step _ _ (Sys true true Receiving NotCalled)); [|right; apply (s_exchange true)].
  apply reach_one. left. apply (t_check true).
Qed.

(** C31: [stop] returns whatever the peers do: once it has stored the flag,
    somebody can always move until it has returned, and at most five more steps
    are left, since a receive ends within its timeout (or fails, once the socket
    is closed), the callbacks of a packet return, and the flag is read after
    every one.  Then the thread is
    finished and the socket closed, and nothing moves any more.  But [stop]
    closes the socket before it joins: there is a reachable state in which the
    thread is in [recvfrom] on a descriptor that is closed. *)
Theorem osc_stop_returns :
  (∀ s, reach step started s → stop_at s ≠ NotCalled →
    (stop_at s ≠ Returned → ∃ s', step s s') ∧
    (∀ n s', nsteps step n s s' → (n <= 5)%nat) ∧
    (stop_at s = Returned → pc s = Finished ∧ socket_open s = false ∧ ∀ s', ¬ step s s')) ∧
  (∃ s, reach step started s ∧ pc s = Receiving ∧ socket_open s = false).
Proof.
  split; [|exact receives_closed]. intros s Hi%osc_life_inv Hn. split_and!.
  - intros Hr. by apply osc_stopping_moves.
  - intros n s' Hrun. pose proof (osc_stopping_run n s s' Hi Hn Hrun) as Hle.
    unfold to_return in Hle. destruct (pc s), (stop_at s); done || lia.
  - intros Hr. pose proof Hi as (_ & Ho & _ & Hf). rewrite Hr in Ho. split_and!; [by apply Hf|done|].
    intros s' Hst. pose proof (osc_stopping_run 1 s s' Hi Hn (nsteps_once _ _ Hst)) as Hle.
    unfold to_return in Hle. rewrite Hr, (Hf Hr) in Hle. lia.
Qed.
End Life.
