(* ===== verification/Scheduler.v ===== *)
(** The beat-quantised event scheduler
    ([include/nomos/rt/event_scheduler.hpp], [include/nomos/rt/scheduled_event.hpp])
    and the transport's pending transition ([include/nomos/rt/time_identity.hpp]).

    [std::stable_sort] is a stable insertion sort: under a strict weak order
    the sorted stable permutation is unique, so the algorithm does not matter.
    Comparing beats is such an order only without NaNs, the precondition of
    the sort in the source and a hypothesis here. *)
From S2P Require Import Prelude Spsc Binary Events Osc.
From Stdlib Require Import Sorting.Sorted.

(** ** Stable sorting *)

Section stable_sort.
Context {A : Type} (lt : A → A → bool).

Fixpoint insert_stable (x : A) (l : list A) : list A :=
  match l with
  | [] => [x]
  | y :: l' => if lt y x then y :: insert_stable x l' else x :: l
  end.

Definition stable_sort (l : list A) : list A := foldr insert_stable [] l.

(** A strict weak order on the values that are [good]. *)
Context (good : A → Prop).
Class StrictWeakOrder := {
  lt_asym x y : good x → good y → lt x y = true → lt y x = false;
  lt_cotrans x y z : good x → good y → good z →
    lt x z = true → lt x y = true ∨ lt y z = true
}.
Context `{StrictWeakOrder}.

Definition nle (x y : A) : Prop := lt y x = false.

Lemma Forall_insert x l : good x → Forall good l → Forall good (insert_stable x l).
Proof.
  intros Hx. induction 1 as [|y l Hy Hl IH]; simpl; [by repeat constructor|].
  destruct (lt y x); by repeat constructor.
Qed.

Lemma Forall_sort l : Forall good l → Forall good (stable_sort l).
Proof. induction 1; simpl; [constructor|by apply Forall_insert]. Qed.

Lemma insert_perm x l : Permutation (insert_stable x l) (x :: l).
Proof.
  induction l as [|y l IH]; simpl; [done|]. destruct (lt y x); [|done].
  by rewrite IH, Permutation_swap.
Qed.

Lemma sort_perm l : Permutation (stable_sort l) l.
Proof. induction l as [|x l IH]; simpl; [done|]. by rewrite insert_perm, IH. Qed.

Lemma nle_trans x y z : good x → good y → good z → nle x y → nle y z → nle x z.
Proof.
  unfold nle. intros Hx Hy Hz H1 H2. destruct (lt z x) eqn:E; [|done].
  destruct (lt_cotrans z y x) as [?|?]; auto; congruence.
Qed.

Lemma insert_sorted x l : good x → Forall good l →
  StronglySorted nle l → StronglySorted nle (insert_stable x l).
Proof.
  intros Hx Hg Hs. induction Hs as [|y l Hs IH Hy]; simpl; [by repeat constructor|].
  inv Hg. destruct (lt y x) eqn:E.
  - constructor; [auto|]. rewrite insert_perm. constructor; [|done]. by apply lt_asym.
  - constructor; [by constructor|]. constructor; [done|].
    rewrite Forall_forall in *. intros z Hz. eapply (nle_trans x y z); auto.
Qed.

Lemma sort_sorted l : Forall good l → StronglySorted nle (stable_sort l).
Proof.
  induction 1 as [|x l Hx Hl IH]; simpl; [constructor|].
  apply insert_sorted; auto using Forall_sort.
Qed.

(** Insertions at different positions commute. *)
Lemma insert_comm x y l : good x → good y → Forall good l → lt x y = true →
  insert_stable x (insert_stable y l) = insert_stable y (insert_stable x l).
Proof.
  intros Hx Hy Hl Hxy. induction Hl as [|m l Hm Hl IH]; simpl.
  - by rewrite Hxy, (lt_asym x y).
  - destruct (lt m y) eqn:E1; simpl.
    + destruct (lt m x) eqn:E2; simpl; rewrite ?E1, ?Hxy; [by rewrite IH|done].
    + rewrite (lt_asym x y) by done.
      destruct (lt m x) eqn:E2; simpl; [|by rewrite Hxy, E1].
      exfalso. destruct (lt_cotrans m y x) as [?|?]; auto; [congruence|].
      by rewrite (lt_asym x y) in *.
Qed.

Lemma foldr_insert_comm x l s : good x → Forall good l → Forall good s →
  foldr insert_stable s (insert_stable x l) = insert_stable x (foldr insert_stable s l).
Proof.
  intros Hx Hl Hs. induction Hl as [|y l Hy Hl IH]; simpl; [done|].
  destruct (lt y x) eqn:E; [|done]. simpl. rewrite IH. apply insert_comm; auto.
  clear IH. induction Hl; simpl; auto using Forall_insert.
Qed.

(** Sorting what was sorted earlier together with newcomers is sorting all. *)
Lemma sort_app_sorted l1 l2 : Forall good l1 → Forall good l2 →
  stable_sort (stable_sort l1 ++ l2) = stable_sort (l1 ++ l2).
Proof.
  intros H1 H2. unfold stable_sort at 1 3. rewrite !foldr_app. fold (stable_sort l2).
  induction H1 as [|x l Hx Hl IH]; simpl; [done|].
  rewrite foldr_insert_comm, IH; auto using Forall_sort.
Qed.

Lemma insert_low x l : Forall (λ z, lt z x = false) l → insert_stable x l = x :: l.
Proof. destruct 1 as [|y l Hy _]; simpl; [done|]. by rewrite Hy. Qed.

Lemma filter_Forall (P : A → Prop) (p : A → bool) l : Forall P l → Forall P (List.filter p l).
Proof. induction 1; simpl; [constructor|]. destruct (p x); auto. Qed.

(** Sorting and filtering commute. *)
Context (p : A → bool).

Lemma filter_insert x l : good x → Forall good l → StronglySorted nle l →
  List.filter p (insert_stable x l) =
  if p x then insert_stable x (List.filter p l) else List.filter p l.
Proof.
  intros Hx Hl Hs. induction Hs as [|y l Hs IH Hy]; simpl; [by destruct (p x)|].
  inv Hl as [|? ? Hgy Hgl]. destruct (lt y x) eqn:E; simpl.
  - rewrite IH by done. destruct (p y) eqn:Ey, (p x) eqn:Ex; simpl; try done; by rewrite E.
  - destruct (p x); [|done]. symmetry. apply insert_low.
    assert (Forall (λ z, lt z x = false) (y :: l)) as Hall.
    { constructor; [done|]. rewrite Forall_forall in *. intros z Hz.
      eapply (nle_trans x y z); auto. }
    by apply (filter_Forall _ p) in Hall.
Qed.

Lemma filter_sort l : Forall good l →
  List.filter p (stable_sort l) = stable_sort (List.filter p l).
Proof.
  induction 1 as [|x l Hx Hl IH]; simpl; [done|].
  rewrite filter_insert by auto using Forall_sort, sort_sorted.
  rewrite IH. by destruct (p x).
Qed.
End stable_sort.

(** ** Scheduled events *)

(** [kind] and the payload it selects. *)
Inductive sched_payload := sched_clap (ev : clap_event) | sched_osc (ev : osc_event).
Record scheduled_event := Scheduled { beat : f64; spayload : sched_payload }.

Definition beat_lt (a b : scheduled_event) : bool := beat a <f beat b.
Definition timed (e : scheduled_event) : Prop := is_nan (beat e) = false.

#[export] Instance beat_order : StrictWeakOrder beat_lt timed.
Proof.
  unfold timed, beat_lt. split; intros.
  - destruct (beat y <f beat x) eqn:E; [|done].
    rewrite !SFltb_key in * by done.
    destruct (fkey (beat x)) as [[? ?] ?], (fkey (beat y)) as [[? ?] ?]. simpl in *. lia.
  - rewrite !SFltb_key in * by done.
    destruct (fkey (beat x)) as [[? ?] ?], (fkey (beat y)) as [[? ?] ?], (fkey (beat z)) as [[? ?] ?].
    simpl in *. lia.
Qed.

(** What a tick sends out, in order: events to the callback, datagrams to the
    sender's queue. *)
Section scheduler.
Context {Q O : Type} `{BoundedQueue Q scheduled_event, BoundedQueue O osc_event}.

Record event_scheduler := Scheduler {
  staging_ : Q; pending_ : list scheduled_event; osc_out_ : option O }.

Definition set_osc_out (s : event_scheduler) (q : option O) : event_scheduler :=
  Scheduler (staging_ s) (pending_ s) q.

(** The firing loop: events with [beat <= current_beat] from the front. *)
Fixpoint fire (current_beat : f64) (l : list scheduled_event) (o : option O)
  : list clap_event * list scheduled_event * option O :=
  match l with
  | e :: l' =>
      if beat e <=f current_beat then
        match spayload e with
        | sched_osc m => fire current_beat l' (option_map (λ q, (bq_push q m).1) o)
        | sched_clap ev =>
            let '(out, rest, o) := fire current_beat l' o in (ev :: out, rest, o)
        end
      else ([], l, o)
  | [] => ([], [], o)
  end.

(** [fuel] bounds the draining loop: one more than the queue's capacity. *)
Definition tick (s : event_scheduler) (current_beat : f64) : event_scheduler * list clap_event :=
  let '(q, new) := bq_drain (S (@bq_room Q _ _)) (staging_ s) in
  let pending := pending_ s ++ new in
  match pending with
  | [] => (Scheduler q [] (osc_out_ s), [])
  | _ =>
      let '(out, rest, o) := fire current_beat (stable_sort beat_lt pending) (osc_out_ s) in
      (Scheduler q rest o, out)
  end.

Definition pending_count (s : event_scheduler) : nat := length (pending_ s).

(** ** What the scheduler promises

    The abstract scheduler keeps the waiting events in order of arrival.  A
    tick delivers the due ones sorted by beat, first come first served among
    equal beats, and keeps the others. *)

Definition due (t : f64) (e : scheduled_event) : bool := beat e <=f t.

Definition clap_of (e : scheduled_event) : option clap_event :=
  match spayload e with sched_clap ev => Some ev | sched_osc _ => None end.
Definition osc_of (e : scheduled_event) : option osc_event :=
  match spayload e with sched_osc m => Some m | sched_clap _ => None end.

Definition spec_tick (waiting : list scheduled_event) (t : f64)
  : list scheduled_event * list scheduled_event :=
  (List.filter (λ e, negb (due t e)) waiting, stable_sort beat_lt (List.filter (due t) waiting)).

(** The queue after a burst of pushes, full ones dropped. *)
Fixpoint push_each (o : O) (ms : list osc_event) : O :=
  match ms with [] => o | m :: ms => push_each (bq_push o m).1 ms end.

(** [s] represents [waiting]: the pending list is sorted, and the events still
    staged arrived after the pending ones. *)
Definition sched_rep (s : event_scheduler) (waiting : list scheduled_event) : Prop :=
  ∃ old staged, waiting = old ++ staged ∧ Forall timed waiting ∧
    bq_rep (staging_ s) staged ∧ stable_sort beat_lt (pending_ s) = stable_sort beat_lt old ∧
    Forall timed (pending_ s).

Lemma fire_spec t l : ∀ o,
  StronglySorted (nle beat_lt) l → Forall timed l → is_nan t = false →
  fire t l o = (omap clap_of (List.filter (due t) l), List.filter (λ e, negb (due t e)) l,
                option_map (λ q, push_each q (omap osc_of (List.filter (due t) l))) o).
Proof.
  induction l as [|e l IH]; intros o Hs Hg Ht; cbn [fire]; [by destruct o|].
  apply StronglySorted_inv in Hs as [Hs He]. apply Forall_cons in Hg as [Hge Hg].
  change (beat e <=f t) with (due t e). cbn [List.filter]. destruct (due t e) eqn:E; cbn [negb].
  - destruct (spayload e) as [ev|m] eqn:Ep; rewrite IH by done.
    + assert (clap_of e = Some ev) as Hc by (unfold clap_of; by rewrite Ep).
      assert (osc_of e = None) as Ho by (unfold osc_of; by rewrite Ep).
      simpl. by rewrite Hc, Ho.
    + assert (clap_of e = None) as Hc by (unfold clap_of; by rewrite Ep).
      assert (osc_of e = Some m) as Ho by (unfold osc_of; by rewrite Ep).
      simpl. rewrite Hc, Ho. by destruct o.
  - assert (Forall (λ e, due t e = false) l) as Hl.
    { rewrite Forall_forall in *. intros e' Hin. unfold due.
      destruct (beat e' <=f t) eqn:E'; [|done]. exfalso.
      assert (beat e <=f beat e' = true) as Hle.
      { apply SFltb_false; [by apply Hg|done|]. by apply He. }
      unfold due in E. by rewrite (SFleb_trans _ _ _ Hle E') in E. }
    assert (List.filter (due t) l = []) as ->.
    { clear -Hl. induction Hl as [|x l' Hx _ IHl]; simpl; [done|]. by rewrite Hx. }
    assert (List.filter (λ e, negb (due t e)) l = l) as ->; [|by destruct o].
    clear -Hl. induction Hl as [|x l' Hx _ IHl]; simpl; [done|]. by rewrite Hx, IHl.
Qed.

(** The two sides of the staging queue: a push by the control thread, a tick by
    the audio thread. *)
Definition stage (s : event_scheduler) (e : scheduled_event) : event_scheduler * bool :=
  let '(q, ok) := bq_push (staging_ s) e in (Scheduler q (pending_ s) (osc_out_ s), ok).

Lemma stage_rep s w e : timed e → sched_rep s w →
  ∃ s' ok, stage s e = (s', ok) ∧ osc_out_ s' = osc_out_ s ∧
           sched_rep s' (if ok then w ++ [e] else w).
Proof.
  intros He (old & staged & -> & Hg & Hq & Hp & Hpg). unfold stage.
  destruct (bq_push_spec _ _ e Hq) as (q' & -> & Hq'). eexists _, _. split; [done|].
  split; [done|]. unfold queue_push in *. destruct (_ <? _)%nat; cbn [snd fst] in *.
  - exists old, (staged ++ [e]). rewrite app_assoc. split_and!; try done.
    apply Forall_app; split; [done|by constructor].
  - by exists old, staged.
Qed.

Lemma tick_rep s w t : is_nan t = false → sched_rep s w →
  let '(w', fired) := spec_tick w t in
  ∃ s', tick s t = (s', omap clap_of fired) ∧ sched_rep s' w' ∧
        osc_out_ s' = option_map (λ q, push_each q (omap osc_of fired)) (osc_out_ s).
Proof.
  intros Ht (old & staged & -> & Hg & Hq & Hp & Hpg). unfold spec_tick, tick.
  destruct (bq_drain_spec staged (S (@bq_room Q _ _)) (staging_ s) Hq) as (q' & -> & Hq').
  { pose proof (bq_rep_room _ _ Hq). lia. }
  apply Forall_app in Hg as [Hgo Hgs].
  assert (stable_sort beat_lt (pending_ s ++ staged) = stable_sort beat_lt (old ++ staged)) as Hs.
  { rewrite <- (sort_app_sorted beat_lt timed (pending_ s)), Hp, (sort_app_sorted beat_lt timed) by done.
    done. }
  assert (Forall timed (pending_ s ++ staged)) as Hgp by by apply Forall_app.
  assert (Forall timed (old ++ staged)) as Hgw by by apply Forall_app.
  destruct (pending_ s ++ staged) as [|e0 l] eqn:El.
  { assert (old ++ staged = []) as Hnil.
    { apply Permutation_nil. rewrite <- (sort_perm beat_lt (old ++ staged)). by rewrite <- Hs. }
    rewrite Hnil. eexists. split; [done|]. split; [|by destruct (osc_out_ s)].
    exists [], []. simpl. split_and!; done. }
  rewrite <- El in *. rewrite Hs.
  rewrite fire_spec 
    by (done || by apply (sort_sorted beat_lt timed) || by apply (Forall_sort beat_lt timed)).
  rewrite !(filter_sort beat_lt timed) by done.
  eexists. split; [done|]. split; [|done].
  exists (List.filter (λ e, negb (due t e)) (old ++ staged)), []. rewrite app_nil_r.
  assert (Forall timed (List.filter (λ e, negb (due t e)) (old ++ staged))) as Hf
    by by apply filter_Forall.
  split_and!; try done; cbn [pending_]; [|by apply (Forall_sort beat_lt timed)].
  pose proof (sort_app_sorted beat_lt timed _ [] Hf ltac:(by constructor)) as Hss.
  by rewrite !app_nil_r in Hss.
Qed.

(** A history of the scheduler: events staged by the control thread and ticks
    of the audio thread, in the order in which they take effect. *)
Inductive sched_op := OpStage (e : scheduled_event) | OpTick (t : f64).

Fixpoint sched_run (s : event_scheduler) (ops : list sched_op)
  : event_scheduler * list (list clap_event) :=
  match ops with
  | [] => (s, [])
  | OpStage e :: ops => sched_run (stage s e).1 ops
  | OpTick t :: ops =>
      let '(s, out) := tick s t in let '(s, outs) := sched_run s ops in (s, out :: outs)
  end.

(** The same history of the abstract scheduler. *)
Fixpoint spec_run (waiting : list scheduled_event) (ops : list sched_op)
  : list scheduled_event * list (list scheduled_event) :=
  match ops with
  | [] => (waiting, [])
  | OpStage e :: ops => spec_run (waiting ++ [e]) ops
  | OpTick t :: ops =>
      let '(w, fired) := spec_tick waiting t in
      let '(w, outs) := spec_run w ops in (w, fired :: outs)
  end.

Definition op_timed (o : sched_op) : Prop :=
  match o with OpStage e => timed e | OpTick t => is_nan t = false end.

(** A tick delivers each waiting event at most once, loses none, delivers
    exactly the due ones, and in the order of their beats. *)
Lemma spec_tick_ok w t : Forall timed w → is_nan t = false →
  let '(w', fired) := spec_tick w t in
  Permutation w (fired ++ w') ∧
  Forall (λ e, due t e = true) fired ∧ Forall (λ e, due t e = false) w' ∧
  StronglySorted (nle beat_lt) fired.
Proof.
  intros Hw Ht. unfold spec_tick. split_and!.
  - rewrite (sort_perm beat_lt). clear.
    induction w as [|e w IH]; simpl; [done|]. destruct (due t e); simpl; [by constructor|].
    rewrite IH at 1. apply Permutation_middle.
  - rewrite (sort_perm beat_lt). clear.
    induction w as [|e w IH]; simpl; [constructor|].
    destruct (due t e) eqn:?; [by constructor|done].
  - clear. induction w as [|e w IH]; simpl; [constructor|].
    destruct (due t e) eqn:?; [done|by constructor].
  - apply (sort_sorted beat_lt timed). by apply filter_Forall.
Qed.

(** a tick delivers exactly the events whose beat has been reached: each
    once, in beat order, in order of arrival among equal beats, notes to the
    callback and datagrams, in the same order, to the sender's queue; past-due
    events are not dropped and the others stay. *)
Theorem tick_delivers s w t :
  is_nan t = false → sched_rep s w →
  ∃ s' fired w',
    spec_tick w t = (w', fired) ∧ tick s t = (s', omap clap_of fired) ∧ sched_rep s' w' ∧
    osc_out_ s' = option_map (λ q, push_each q (omap osc_of fired)) (osc_out_ s) ∧
    Permutation w (fired ++ w') ∧
    Forall (λ e, due t e = true) fired ∧ Forall (λ e, due t e = false) w' ∧
    StronglySorted (nle beat_lt) fired.
Proof.
  intros Ht Hs. pose proof (tick_rep s w t Ht Hs) as Hr.
  assert (Forall timed w) as Hw by by destruct Hs as (? & ? & -> & ? & _).
  pose proof (spec_tick_ok w t Hw Ht) as Hok.
  destruct (spec_tick w t) as [w' fired]. destruct Hr as (s' & ? & ? & ?).
  by exists s', fired, w'.
Qed.

(** The accepted part of a history: events refused by a full staging queue
    are dropped. *)
Fixpoint accepted (s : event_scheduler) (ops : list sched_op) : list sched_op :=
  match ops with
  | [] => []
  | OpStage e :: ops =>
      let '(s, ok) := stage s e in if ok then OpStage e :: accepted s ops else accepted s ops
  | OpTick t :: ops => OpTick t :: accepted (tick s t).1 ops
  end.

(** C7: over any history of stagings and ticks the scheduler delivers, tick by
    tick, what the arrival-ordered list of waiting events would: the staging
    queue, the sorted pending list and the repeated stable sorts are
    invisible. *)
Theorem scheduler_refines ops : ∀ s w,
  Forall op_timed ops → sched_rep s w →
  let '(s', outs) := sched_run s ops in
  let '(w', fired) := spec_run w (accepted s ops) in
  outs = map (omap clap_of) fired ∧ sched_rep s' w'.
Proof.
  induction ops as [|[e|t] ops IH]; intros s w Hops Hs; cbn [sched_run accepted spec_run map];
    [done|inv Hops as [|? ? Ht Hops']..].
  - destruct (stage_rep s w e Ht Hs) as (s' & ok & -> & _ & Hs'). cbn [fst].
    destruct ok; cbn [spec_run]; by apply IH.
  - pose proof (tick_rep s w t Ht Hs) as Hr. destruct (spec_tick w t) as [w1 fired1].
    destruct Hr as (s1 & -> & Hs1 & _). cbn [fst].
    specialize (IH s1 w1 Hops' Hs1). destruct (sched_run s1 ops) as [s2 outs].
    destruct (spec_run w1 _) as [w2 fired2]. destruct IH as [-> ?]. done.
Qed.
End scheduler.
Arguments event_scheduler : clear implicits.
Arguments Scheduler {Q O}.

(** ** Queues of the program *)

Lemma sched_queue_bits : (1 <= 10 < 64)%Z.
Proof. lia. Qed.
Lemma osc_queue_bits : (1 <= 8 < 64)%Z.
Proof. lia. Qed.

(** [sched_staging_queue]: 1024 slots; [osc_out_queue]: 256. *)
Definition sched_staging_queue : BoundedQueue (spsc scheduled_event) scheduled_event :=
  spsc_queue 10 sched_queue_bits.
Definition osc_out_queue : BoundedQueue (spsc osc_event) osc_event := spsc_queue 8 osc_queue_bits.

Definition sched_none : scheduled_event :=
  Scheduled (S754_zero false) (sched_clap (EvOther (Events.Header 0 false))).
Definition scheduler_init : event_scheduler (spsc scheduled_event) (spsc osc_event) :=
  Scheduler (spsc_init sched_none 10) [] None.

Lemma scheduler_init_rep :
  @sched_rep _ _ sched_staging_queue scheduler_init [].
Proof.
  exists [], []. split; [done|]. split; [constructor|]. split; [|done].
  apply (spsc_init_rep sched_none 10 sched_queue_bits).
Qed.

(** Two notes staged out of order, and one for later. *)
Definition sched_note (b k : Z) : scheduled_event :=
  Scheduled (f64_of_Z b)
    (sched_clap (EvNoteOn (Note (Events.Header 0 false) (-1) 0 0 k (S754_zero false)))).

Definition three_notes : list scheduled_event := [sched_note 3 60; sched_note 1 61; sched_note 7 62].
Definition scheduler_three : event_scheduler (spsc scheduled_event) (spsc osc_event) :=
  Scheduler (spsc_init sched_none 10) three_notes None.

Lemma scheduler_three_rep :
  @sched_rep _ _ sched_staging_queue scheduler_three three_notes.
Proof.
  exists three_notes, []. split; [done|]. split; [by repeat constructor|].
  split; [apply (spsc_init_rep sched_none 10 sched_queue_bits)|]. split; [done|].
  by repeat constructor.
Qed.

Lemma tick_delivers_witness : ∃ s' fired w',
  spec_tick three_notes (f64_of_Z 4) = (w', fired) ∧
  tick (H := sched_staging_queue) (H0 := osc_out_queue) scheduler_three (f64_of_Z 4)
    = (s', omap clap_of fired) ∧
  @sched_rep _ _ sched_staging_queue s' w' ∧
  osc_out_ s' = option_map (λ q, push_each (H0 := osc_out_queue) q (omap osc_of fired)) None ∧
  Permutation three_notes (fired ++ w') ∧ Forall (λ e, due (f64_of_Z 4) e = true) fired ∧
  Forall (λ e, due (f64_of_Z 4) e = false) w' ∧ StronglySorted (nle beat_lt) fired.
Proof.
  apply (tick_delivers (H := sched_staging_queue) (H0 := osc_out_queue)
           scheduler_three three_notes (f64_of_Z 4)).
  - done.
  - apply scheduler_three_rep.
Defined.

Definition three_ops : list sched_op :=
  [OpStage (sched_note 3 60); OpStage (sched_note 1 61); OpTick (f64_of_Z 2)].

Lemma scheduler_refines_witness :
  let '(s', outs) := sched_run (H := sched_staging_queue) (H0 := osc_out_queue) scheduler_init three_ops in
  let '(w', fired) := spec_run [] (accepted (H := sched_staging_queue) (H0 := osc_out_queue)
                                     scheduler_init three_ops) in
  outs = map (omap clap_of) fired ∧ @sched_rep _ _ sched_staging_queue s' w'.
Proof.
  apply (scheduler_refines (H := sched_staging_queue) (H0 := osc_out_queue) three_ops).
  - by repeat constructor.
  - apply scheduler_init_rep.
Defined.

(** ** [time_identity] *)

Record timeline := Timeline { bpm : f64; tl_beat : f64 }.
Record pending_transition := PendingTransition { tl : timeline; policy : string; apply_at : f64 }.
Record time_identity := TimeIdentity { current : timeline; tpending : option pending_transition }.

Definition transition_ready (t : time_identity) (current_beat : f64) : bool :=
  match tpending t with Some p => apply_at p <=f current_beat | None => false end.

Definition apply_if_ready (t : time_identity) (current_beat : f64) : time_identity * bool :=
  if transition_ready t current_beat then
    match tpending t with
    | Some p => (TimeIdentity (tl p) None, true)
    | None => (t, true) (* not reached: [transition_ready] has a value *)
    end
  else (t, false).

(** The transport over successive blocks. *)
Fixpoint apply_blocks (t : time_identity) (beats : list f64) : time_identity * list bool :=
  match beats with
  | [] => (t, [])
  | b :: beats =>
      let '(t, r) := apply_if_ready t b in
      let '(t, rs) := apply_blocks t beats in (t, r :: rs)
  end.

Lemma apply_blocks_none t beats : tpending t = None →
  apply_blocks t beats = (t, map (λ _, false) beats).
Proof.
  intros Hn. induction beats as [|b beats IH]; simpl; [done|].
  unfold apply_if_ready, transition_ready. by rewrite Hn, IH.
Qed.

(** Only the first [true] of a list. *)
Fixpoint first_true (l : list bool) : list bool :=
  match l with
  | [] => []
  | true :: l => true :: map (λ _, false) l
  | false :: l => false :: first_true l
  end.

(** Over a run of blocks a pending transition is promoted exactly once,
    at the first block whose beat reaches [apply_at]; it survives every earlier
    block unchanged and leaves no pending transition behind. *)
Theorem transition_once t p beats :
  tpending t = Some p →
  let ready b := apply_at p <=f b in
  apply_blocks t beats =
    (if existsb ready beats then TimeIdentity (tl p) None else t, first_true (map ready beats)).
Proof.
  intros Hp. cbv zeta. induction beats as [|b beats IH]; [done|].
  cbn [apply_blocks existsb map first_true].
  assert (apply_if_ready t b =
    if apply_at p <=f b then (TimeIdentity (tl p) None, true) else (t, false)) as ->.
  { unfold apply_if_ready, transition_ready. by rewrite Hp. }
  destruct (apply_at p <=f b); cbn [orb].
  - by rewrite apply_blocks_none, map_map.
  - by rewrite IH.
Qed.

Lemma transition_once_witness :
  let p := PendingTransition (Timeline (f64_of_Z 90) (f64_of_Z 36)) "bar-quantize" (f64_of_Z 36) in
  let t := TimeIdentity (Timeline (f64_of_Z 120) (f64_of_Z 0)) (Some p) in
  apply_blocks t [f64_of_Z 35; f64_of_Z 37; f64_of_Z 38] =
    (TimeIdentity (tl p) None, [false; true; false]).
Proof.
  set (p := PendingTransition _ _ _).
  exact (transition_once (TimeIdentity (Timeline (f64_of_Z 120) (f64_of_Z 0)) (Some p)) p
           [f64_of_Z 35; f64_of_Z 37; f64_of_Z 38] eq_refl).
Defined.
