(* ===== verification/Rcu.v ===== *)
(** Deferred reclamation with liburcu ([include/nomos/rt/rcu.hpp]).

    The writer installs a new object and hands the old one to [call_rcu]; a
    reader dereferences what it loaded inside its critical section.  Every
    shared access is a step of its own, by any number of reader threads, one
    writer (the callers of [store] hold a mutex) and liburcu's callback thread.
    liburcu is third-party: the class [Urcu] states its documented contract, a
    callback can run once every critical section open at the time of [call_rcu]
    has been left, and only then.

    Safety is about every reachable state; that replaced objects are deleted in
    the end is about fair runs ([fair_run]): guards are released, a store that
    has exchanged the pointer goes on to [call_rcu], and liburcu's thread does
    not leave a callback that can run aside for ever. *)
From S2P Require Import Prelude Sequences.
From stdpp Require Import fin_sets fin_maps.

Abbreviation tid := nat.
Abbreviation node := nat.   (* a [retire_node] *)
Abbreviation obj := nat.    (* a [T*] *)

(** ** The contract of liburcu *)

Class Urcu (U : Type) := {
  u_init : U;
  u_lock : tid → U → U;
  u_unlock : tid → U → U;
  u_call : node → U → U;
  (** The callback of [n] runs. *)
  u_run : node → U → U → Prop;
  (** Threads in a critical section; for each pending callback, those that
      have been in one since before its [call_rcu]. *)
  u_readers : U → gset tid;
  u_waits : U → gmap node (gset tid);
  u_init_readers : u_readers u_init = ∅;
  u_init_waits : u_waits u_init = ∅;
  u_lock_readers t u : u_readers (u_lock t u) = {[t]} ∪ u_readers u;
  u_lock_waits t u : u_waits (u_lock t u) = u_waits u;
  u_unlock_readers t u : u_readers (u_unlock t u) = u_readers u ∖ {[t]};
  u_unlock_waits t u : u_waits (u_unlock t u) = (λ w, w ∖ {[t]}) <$> u_waits u;
  u_call_readers n u : u_readers (u_call n u) = u_readers u;
  u_call_waits n u : u_waits (u_call n u) = <[n := u_readers u]> (u_waits u);
  u_run_readers n u u' : u_run n u u' → u_readers u' = u_readers u;
  u_run_waits n u u' : u_run n u u' → u_waits u' = delete n (u_waits u);
  (** The grace period is waited for, and is all that is waited for. *)
  u_run_grace n u u' : u_run n u u' → u_waits u !! n = Some ∅;
  u_run_enabled n u : u_waits u !! n = Some ∅ → ∃ u', u_run n u u'
}.

Section rcu.
Context {U : Type} `{Urcu U}.

(** Where a reader is in the life of its [reader_guard]. *)
Inductive reader := RLocked | RHolding (p : option obj).

(** Where the writer is in [store]: between the exchange and [call_rcu]. *)
Inductive writer := WIdle | WRetiring (outgoing : obj).

Record rcu := Rcu {
  urcu : U; ptr_ : option obj; readers : gmap tid reader; writing : writer;
  nodes : gmap node obj;
  alive : gset obj;   (* allocated and not deleted *)
  freed : list obj    (* every [delete], latest first *) }.

(** The constructor takes ownership of the initial object. *)
Definition rcu_init (p : option obj) : rcu :=
  Rcu u_init p ∅ WIdle ∅ (match p with Some o => {[o]} | None => ∅ end) [].

Inductive step : rcu → rcu → Prop :=
| s_lock t s :
    readers s !! t = None →
    step s (Rcu (u_lock t (urcu s)) (ptr_ s) (<[t := RLocked]> (readers s)) (writing s)
              (nodes s) (alive s) (freed s))
| s_load t s :
    readers s !! t = Some RLocked →
    step s (Rcu (urcu s) (ptr_ s) (<[t := RHolding (ptr_ s)]> (readers s)) (writing s)
              (nodes s) (alive s) (freed s))
| s_unlock t p s :
    readers s !! t = Some (RHolding p) →
    step s (Rcu (u_unlock t (urcu s)) (ptr_ s) (delete t (readers s)) (writing s)
              (nodes s) (alive s) (freed s))
| s_exchange incoming s :
    writing s = WIdle → incoming ∉ alive s → incoming ∉ freed s →
    step s (Rcu (urcu s) (Some incoming) (readers s)
              (match ptr_ s with Some outgoing => WRetiring outgoing | None => WIdle end)
              (nodes s) ({[incoming]} ∪ alive s) (freed s))
| s_exchange_null s :
    (* [store] of an empty pointer *)
    writing s = WIdle →
    step s (Rcu (urcu s) None (readers s)
              (match ptr_ s with Some outgoing => WRetiring outgoing | None => WIdle end)
              (nodes s) (alive s) (freed s))
| s_call n outgoing s :
    writing s = WRetiring outgoing → nodes s !! n = None →
    step s (Rcu (u_call n (urcu s)) (ptr_ s) (readers s) WIdle
              (<[n := outgoing]> (nodes s)) (alive s) (freed s))
| s_retire_cb n o u' s :
    u_run n (urcu s) u' → nodes s !! n = Some o →
    step s (Rcu u' (ptr_ s) (readers s) (writing s) (delete n (nodes s))
              (alive s ∖ {[o]}) (o :: freed s))
| s_destroy o s :
    (* the destructor, after [synchronize] and outside any use *)
    writing s = WIdle → readers s = ∅ → ptr_ s = Some o →
    step s (Rcu (urcu s) None (readers s) WIdle (nodes s) (alive s ∖ {[o]}) (o :: freed s)).

(** ** Invariant *)

(** The objects the program still has to delete, with their owner. *)
Definition owned (s : rcu) (o : obj) : Prop :=
  ptr_ s = Some o ∨ writing s = WRetiring o ∨ ∃ n, nodes s !! n = Some o.

Record inv (s : rcu) : Prop := Inv {
  inv_alive o : o ∈ alive s ↔ owned s o;
  inv_ptr_writer o : ptr_ s = Some o → writing s ≠ WRetiring o;
  inv_ptr_nodes o n : ptr_ s = Some o → nodes s !! n ≠ Some o;
  inv_writer_nodes o n : writing s = WRetiring o → nodes s !! n ≠ Some o;
  inv_nodes n n' o : nodes s !! n = Some o → nodes s !! n' = Some o → n = n';
  inv_freed o : o ∈ freed s → o ∉ alive s;
  inv_once : NoDup (freed s);
  inv_readers t : t ∈ u_readers (urcu s) ↔ is_Some (readers s !! t);
  inv_waits n : is_Some (u_waits (urcu s) !! n) ↔ is_Some (nodes s !! n);
  inv_inside n w : u_waits (urcu s) !! n = Some w → w ⊆ u_readers (urcu s);
  inv_hold t o : readers s !! t = Some (RHolding (Some o)) →
    ptr_ s = Some o ∨ writing s = WRetiring o ∨
    ∃ n w, nodes s !! n = Some o ∧ u_waits (urcu s) !! n = Some w ∧ t ∈ w }.

Lemma rcu_inv_init p : inv (rcu_init p).
Proof.
  split; unfold owned, rcu_init; cbn [urcu ptr_ readers writing nodes alive freed].
  - intros o. destruct p; set_solver.
  - done. - intros; set_solver. - done. - intros; set_solver. - set_solver. - constructor.
  - intros t. rewrite u_init_readers, lookup_empty. split; [set_solver|by intros []].
  - intros n. by rewrite u_init_waits, !lookup_empty.
  - intros n w. by rewrite u_init_waits, lookup_empty.
  - intros t o. by rewrite lookup_empty.
Qed.

Ltac rcu_simpl := cbn [urcu ptr_ readers writing nodes alive freed] in *.
Ltac rcu_split :=
  intros [Ha Hpw Hpn Hwn Hn Hf Ho Hr Hw Hi Hh]; split; unfold owned in *; rcu_simpl; try assumption.

Lemma inv_lock t s : readers s !! t = None → inv s →
  inv (Rcu (u_lock t (urcu s)) (ptr_ s) (<[t := RLocked]> (readers s)) (writing s)
         (nodes s) (alive s) (freed s)).
Proof.
  intros Ht. rcu_split.
  - intros t'. rewrite u_lock_readers, elem_of_union, elem_of_singleton, Hr, lookup_insert_is_Some.
    destruct (decide (t = t')); naive_solver.
  - intros n. by rewrite u_lock_waits.
  - intros n w. rewrite u_lock_waits, u_lock_readers. set_solver.
  - intros t' o. rewrite lookup_insert_Some, u_lock_waits. naive_solver.
Qed.

Lemma inv_load t s : readers s !! t = Some RLocked → inv s →
  inv (Rcu (urcu s) (ptr_ s) (<[t := RHolding (ptr_ s)]> (readers s)) (writing s)
         (nodes s) (alive s) (freed s)).
Proof.
  intros Ht. rcu_split.
  - intros t'. rewrite Hr, lookup_insert_is_Some. destruct (decide (t = t')) as [<-|]; naive_solver.
  - intros t' o. rewrite lookup_insert_Some. naive_solver.
Qed.

Lemma inv_unlock t p s : readers s !! t = Some (RHolding p) → inv s →
  inv (Rcu (u_unlock t (urcu s)) (ptr_ s) (delete t (readers s)) (writing s)
         (nodes s) (alive s) (freed s)).
Proof.
  intros Ht. rcu_split.
  - intros t'. rewrite u_unlock_readers, elem_of_difference, elem_of_singleton, Hr, lookup_delete_is_Some.
    naive_solver.
  - intros n. rewrite u_unlock_waits, lookup_fmap, fmap_is_Some. apply Hw.
  - intros n w. rewrite u_unlock_waits, u_unlock_readers, lookup_fmap, fmap_Some. set_solver.
  - intros t' o. rewrite lookup_delete_Some. intros [Hne Hl].
    destruct (Hh t' o Hl) as [?|[?|(n & w & ? & ? & ?)]]; [auto..|].
    right; right. exists n, (w ∖ {[t]}). rewrite u_unlock_waits, lookup_fmap.
    split; [done|]. split; [by simplify_option_eq|set_solver].
Qed.

Lemma inv_exchange incoming s : writing s = WIdle → incoming ∉ alive s → incoming ∉ freed s → inv s →
  inv (Rcu (urcu s) (Some incoming) (readers s)
         (match ptr_ s with Some outgoing => WRetiring outgoing | None => WIdle end)
         (nodes s) ({[incoming]} ∪ alive s) (freed s)).
Proof.
  intros Hwi Hna Hnf. rcu_split.
  - intros o. rewrite elem_of_union, elem_of_singleton, Ha. rewrite Hwi.
    destruct (ptr_ s); naive_solver.
  - intros o [= <-]. rewrite Ha in Hna. destruct (ptr_ s); naive_solver.
  - intros o n [= <-]. rewrite Ha in Hna. naive_solver.
  - intros o n. destruct (ptr_ s) eqn:E; [|done]. intros [= <-]. by apply Hpn.
  - intros o Ho'. rewrite elem_of_union, elem_of_singleton. pose proof (Hf o Ho'). naive_solver.
  - intros t o Hl. destruct (Hh t o Hl) as [E|[E|E]]; [rewrite E; auto|congruence|auto].
Qed.

Lemma inv_exchange_null s : writing s = WIdle → inv s →
  inv (Rcu (urcu s) None (readers s)
         (match ptr_ s with Some outgoing => WRetiring outgoing | None => WIdle end)
         (nodes s) (alive s) (freed s)).
Proof.
  intros Hwi. rcu_split; try done.
  - intros o. rewrite Ha, Hwi. destruct (ptr_ s); naive_solver.
  - intros o n. destruct (ptr_ s) eqn:E; [|done]. intros [= <-]. by apply Hpn.
  - intros t o Hl. destruct (Hh t o Hl) as [E|[E|E]]; [rewrite E; auto|congruence|auto].
Qed.

Lemma inv_call n outgoing s : writing s = WRetiring outgoing → nodes s !! n = None → inv s →
  inv (Rcu (u_call n (urcu s)) (ptr_ s) (readers s) WIdle
         (<[n := outgoing]> (nodes s)) (alive s) (freed s)).
Proof.
  intros Hwr Hnn. rcu_split.
  - intros o. rewrite Ha, Hwr. split.
    + intros [?|[[= <-]|[m Hm]]]; [auto| |].
      * right; right. exists n. by rewrite lookup_insert_eq.
      * right; right. exists m. rewrite lookup_insert_ne; [done|]. congruence.
    + intros [?|[?|[m Hm]]]; [auto|done|]. apply lookup_insert_Some in Hm as [[<- <-]|[_ Hm]]; eauto.
  - done.
  - intros o m Hp Hm. apply lookup_insert_Some in Hm as [[<- <-]|[_ Hm]]; [by eapply Hpw|by eapply Hpn].
  - done.
  - intros m m' o. rewrite !lookup_insert_Some. intros [[? ?]|[? Hm]] [[? ?]|[? Hm']]; simplify_eq; try done.
    + by destruct (Hwn o m' Hwr).
    + by destruct (Hwn o m Hwr).
    + eauto.
  - intros t. by rewrite u_call_readers.
  - intros m. rewrite u_call_waits, !lookup_insert_is_Some. destruct (decide (n = m)); naive_solver.
  - intros m w. rewrite u_call_waits, u_call_readers, lookup_insert_Some. set_solver.
  - intros t o Hl. rewrite u_call_waits. destruct (Hh t o Hl) as [?|[E|(m & w & Hm & Hmw & ?)]]; [auto| |].
    + right; right. exists n, (u_readers (urcu s)). rewrite !lookup_insert_eq.
      split; [congruence|]. split; [done|]. apply Hr. eauto.
    + right; right. exists m, w. assert (n ≠ m) by congruence. by rewrite !lookup_insert_ne.
Qed.

Lemma inv_retire_cb n o u' s : u_run n (urcu s) u' → nodes s !! n = Some o → inv s →
  inv (Rcu u' (ptr_ s) (readers s) (writing s) (delete n (nodes s)) (alive s ∖ {[o]}) (o :: freed s)).
Proof.
  intros Hrun Hno. pose proof (u_run_readers _ _ _ Hrun) as Hur. pose proof (u_run_waits _ _ _ Hrun) as Huw.
  pose proof (u_run_grace _ _ _ Hrun) as Hug. rcu_split.
  - intros o'. rewrite elem_of_difference, elem_of_singleton, Ha. split.
    + intros [[?|[?|[m Hm]]] Hne]; [auto..|]. right; right. exists m.
      rewrite lookup_delete_ne; [done|]. congruence.
    + intros [Hp|[Hp|[m Hm]]].
      * split; [auto|]. intros ->. by apply (Hpn o n).
      * split; [auto|]. intros ->. by apply (Hwn o n).
      * apply lookup_delete_Some in Hm as [Hne Hm]. split; [eauto|]. intros ->. apply Hne. eauto.
  - intros o' m Hp. rewrite lookup_delete_Some. naive_solver.
  - intros o' m Hp. rewrite lookup_delete_Some. naive_solver.
  - intros m m' o'. rewrite !lookup_delete_Some. naive_solver.
  - intros o' [->|Hin]%elem_of_cons; [set_solver|]. pose proof (Hf o' Hin). set_solver.
  - apply NoDup_cons. split; [|done]. intros Hin. apply (Hf o Hin), Ha. eauto.
  - intros t. by rewrite Hur.
  - intros m. rewrite Huw, !lookup_delete_is_Some, Hw. done.
  - intros m w. rewrite Huw, Hur, lookup_delete_Some. naive_solver.
  - intros t o' Hl. destruct (Hh t o' Hl) as [?|[?|(m & w & Hm & Hmw & Hin)]]; [auto..|].
    right; right. exists m, w. assert (n ≠ m) by (intros ->; simplify_eq; set_solver).
    by rewrite Huw, !lookup_delete_ne.
Qed.

Lemma inv_destroy o s : writing s = WIdle → readers s = ∅ → ptr_ s = Some o → inv s →
  inv (Rcu (urcu s) None (readers s) WIdle (nodes s) (alive s ∖ {[o]}) (o :: freed s)).
Proof.
  intros Hwi Hre Hp. rcu_split; try done.
  - intros o'. rewrite elem_of_difference, elem_of_singleton, Ha, Hp, Hwi. split.
    + intros [[[= ->]|[?|?]] Hne]; [done|auto..].
    + intros [?|[?|[m Hm]]]; [done..|]. split; [eauto|]. intros ->. by apply (Hpn o m).
  - intros o' [->|Hin]%elem_of_cons; [set_solver|]. pose proof (Hf o' Hin). set_solver.
  - apply NoDup_cons. split; [|done]. intros Hin. apply (Hf o Hin), Ha. auto.
  - intros t o'. by rewrite Hre, lookup_empty.
Qed.

Lemma rcu_inv_step s s' : inv s → step s s' → inv s'.
Proof.
  intros Hi Hs. destruct Hs;
    eauto using inv_lock, inv_load, inv_unlock, inv_exchange, inv_exchange_null, inv_call, inv_retire_cb, inv_destroy.
Qed.

Lemma rcu_inv_reach p s : reach step (rcu_init p) s → inv s.
Proof. apply (reach_invariant step inv); [apply rcu_inv_init|apply rcu_inv_step]. Qed.

Lemma held_alive s t o : inv s → readers s !! t = Some (RHolding (Some o)) → o ∈ alive s.
Proof.
  intros Hs Ht. apply (inv_alive s Hs).
  destruct (inv_hold s Hs t o Ht) as [?|[?|(n & w & ? & ? & ?)]]; unfold owned; eauto.
Qed.

(** Only its own release ends what a guard holds. *)
Lemma held_until_release s s' t p : step s s' → readers s !! t = Some (RHolding p) →
  readers s' !! t = Some (RHolding p) ∨ readers s' !! t = None.
Proof.
  intros Hs Ht. destruct Hs as [t' s E|t' s E|t' q s E|? s ? ? ?|s ?|? ? s ? ?|? ? ? s ? ?|? s ? ? ?]; rcu_simpl; auto.
  - left. rewrite lookup_insert_ne; [done|congruence].
  - left. rewrite lookup_insert_ne; [done|congruence].
  - destruct (decide (t' = t)) as [->|Hne]; [right; by rewrite lookup_delete_eq|left; by rewrite lookup_delete_ne].
Qed.

(** C6: in every interleaving of readers, writer and callbacks, the object a
    reader obtained from [read] is alive for as long as its guard exists: it
    has not been deleted, and no step but the guard's own release can change
    that.  Nothing is ever deleted twice. *)
Theorem rcu_no_use_after_free p s t o :
  reach step (rcu_init p) s → readers s !! t = Some (RHolding (Some o)) →
  o ∈ alive s ∧ o ∉ freed s ∧ NoDup (freed s) ∧
  (∀ s', step s s' → o ∈ alive s' ∨ readers s' !! t = None).
Proof.
  intros Hs%rcu_inv_reach Ht. pose proof (held_alive s t o Hs Ht) as Ha.
  split; [done|]. split; [intros Hf; by apply (inv_freed s Hs o Hf)|]. split; [apply Hs|].
  intros s' Hst. pose proof (rcu_inv_step s s' Hs Hst) as Hs'.
  destruct (held_until_release s s' t (Some o) Hst Ht) as [Hl|Hl]; eauto using held_alive.
Qed.

(** ** Liveness *)

Definition can_run (n : node) (s : rcu) : Prop := ∃ u', u_run n (urcu s) u'.

(** A run, idle steps included, in which everybody goes on: guards are
    released, [store] gets to its [call_rcu], and no callback stays ready to
    run for ever. *)
Record fair_run (p : option obj) (r : nat → rcu) : Prop := {
  run_start : r 0 = rcu_init p;
  run_next i : r (S i) = r i ∨ step (r i) (r (S i));
  run_guards i t : is_Some (readers (r i) !! t) → ∃ j, i ≤ j ∧ readers (r j) !! t = None;
  run_store i o : writing (r i) = WRetiring o → ∃ j, i ≤ j ∧ writing (r j) ≠ WRetiring o;
  run_callbacks i n : can_run n (r i) → ∃ j, i ≤ j ∧ ¬ can_run n (r j) }.

Lemma run_inv p r i : fair_run p r → inv (r i).
Proof.
  intros Hr. induction i as [|i IH]; [rewrite (run_start p r Hr); apply rcu_inv_init|].
  destruct (run_next p r Hr i) as [->|Hs]; eauto using rcu_inv_step.
Qed.

(** What every step preserves holds from then on. *)
Lemma run_stable p r (P : rcu → Prop) i j :
  fair_run p r → (∀ s s', inv s → step s s' → P s → P s') → i ≤ j → P (r i) → P (r j).
Proof.
  intros Hr HP. induction 1 as [|j Hj IH]; [done|]. intros Hi.
  destruct (run_next p r Hr j) as [->|Hs]; eauto using run_inv.
Qed.

(** A retired object waits in the hands of the writer, then in one node whose
    wait set only shrinks, and is then deleted for good. *)
Definition waiting (n : node) (o : obj) (W : gset tid) (s : rcu) : Prop :=
  (nodes s !! n = Some o ∧ ∃ w, u_waits (urcu s) !! n = Some w ∧ w ⊆ W) ∨ o ∈ freed s.

Definition retired (o : obj) (s : rcu) : Prop :=
  writing s = WRetiring o ∨ (∃ n, nodes s !! n = Some o) ∨ o ∈ freed s.

Lemma waiting_step n o W s s' : inv s → step s s' → waiting n o W s → waiting n o W s'.
Proof.
  intros Hi Hs [(Hn & w & Hw & Hsub)|Hf]; [|right; destruct Hs; rcu_simpl; set_solver].
  destruct Hs as [t s ?|t s ?|t q s ?|inc s ? ? ?|s ?|m out s ? Hm|m o' u' s Hrun Hm|o' s ? ? ?];
    unfold waiting; rcu_simpl; try (left; by eauto).
  - left. rewrite u_lock_waits. eauto.
  - left. split; [done|]. rewrite u_unlock_waits, lookup_fmap, Hw. eexists. split; [done|set_solver].
  - left. assert (m ≠ n) by congruence. rewrite u_call_waits, !lookup_insert_ne by done. eauto.
  - destruct (decide (m = n)) as [->|Hne].
    + right. simplify_eq. set_solver.
    + left. rewrite (u_run_waits _ _ _ Hrun), !lookup_delete_ne by done. eauto.
Qed.

Lemma retired_step o s s' : inv s → step s s' → retired o s → retired o s'.
Proof.
  intros _ Hs. destruct Hs as [t s ?|t s ?|t q s ?|inc s Hw ? ?|s Hw|m out s Hw Hm|m o' u' s Hrun Hm|o' s Hw ? ?];
    unfold retired; rcu_simpl; rewrite ?Hw; try done; try naive_solver.
  - intros [[= ->]|[[n Hn]|?]]; [|destruct (decide (m = n)); [congruence|]|auto].
    + right; left. exists m. by rewrite lookup_insert_eq.
    + right; left. exists n. by rewrite lookup_insert_ne.
  - intros [?|[[n Hn]|?]]; [auto| |set_solver].
    destruct (decide (m = n)) as [->|Hne]; [simplify_eq; set_solver|].
    right; left. exists n. by rewrite lookup_delete_ne.
  - set_solver.
Qed.

(** Once the grace period has elapsed, the callback deletes the object. *)
Lemma elapsed_freed p r i n o :
  fair_run p r → waiting n o ∅ (r i) → ∃ j, i ≤ j ∧ o ∈ freed (r j).
Proof.
  intros Hr Hi. destruct Hi as [(Hn & w & Hw & Hsub)|?]; [|by exists i].
  replace w with (∅ : gset tid) in Hw by set_solver.
  destruct (run_callbacks p r Hr i n (u_run_enabled _ _ Hw)) as (j & Hj & Hno).
  assert (waiting n o ∅ (r j)) as [(_ & w' & Hw' & Hsub')|?]; [| |by exists j].
  { apply (run_stable p r _ i j Hr (waiting_step n o ∅) Hj). left. eauto. }
  replace w' with (∅ : gset tid) in Hw' by set_solver. destruct (Hno (u_run_enabled _ _ Hw')).
Qed.

(** The threads waited for leave one by one. *)
Lemma waiting_freed p r n o W :
  fair_run p r → ∀ i, waiting n o W (r i) → ∃ j, i ≤ j ∧ o ∈ freed (r j).
Proof.
  intros Hr. induction (set_wf W) as [W _ IH]. intros i Hi.
  destruct (set_choose_or_empty W) as [[t Ht]|HW]; [|apply leibniz_equiv in HW as ->; by eapply elapsed_freed].
  assert (∃ j, i ≤ j ∧ readers (r j) !! t = None) as (j & Hj & Hnone).
  { destruct (readers (r i) !! t) eqn:E; [by apply (run_guards p r Hr i t); rewrite E|by exists i]. }
  assert (waiting n o (W ∖ {[t]}) (r j)) as Hwj.
  { destruct (run_stable p r _ i j Hr (waiting_step n o W) Hj Hi) as [(Hn & w & Hw & Hsub)|?]; [left|by right].
    split; [done|]. exists w. split; [done|]. pose proof (run_inv p r j Hr) as Hinv.
    pose proof (inv_inside _ Hinv n w Hw) as Hin. assert (t ∉ w); [|set_solver].
    intros Htw%Hin%(inv_readers _ Hinv). rewrite Hnone in Htw. by destruct Htw. }
  destruct (IH (W ∖ {[t]}) ltac:(set_solver) j Hwj) as (k & ? & ?). exists k. split; [lia|done].
Qed.

Lemma retired_freed p r i o : fair_run p r → retired o (r i) → ∃ j, i ≤ j ∧ o ∈ freed (r j).
Proof.
  intros Hr Hi.
  assert (∃ j, i ≤ j ∧ ((∃ n, nodes (r j) !! n = Some o) ∨ o ∈ freed (r j))) as (j & Hj & [[n Hn]|Hf]).
  - destruct Hi as [Hw|Hi]; [|by exists i].
    destruct (run_store p r Hr i o Hw) as (j & Hj & Hno). exists j. split; [done|].
    by destruct (run_stable p r _ i j Hr (retired_step o) Hj (or_introl Hw)).
  - pose proof (run_inv p r j Hr) as Hinv.
    destruct (proj2 (inv_waits _ Hinv n) (ex_intro _ o Hn)) as [w Hw].
    destruct (waiting_freed p r n o w Hr j) as (k & ? & ?); [left; eauto|]. exists k. split; [lia|done].
  - by exists j.
Qed.

(** C26: in every fair run, an object that is no longer the current one (it
    has been replaced) is deleted at some later time, once the readers that
    may hold it have released their guards; it is deleted once only, and stays
    deleted.  At every time what is alive is the current object, the one
    [store] is about to retire, and one object per pending callback: when no
    callback is pending and no store in progress, only the current object is
    left. *)
Theorem rcu_reclaims p r :
  fair_run p r →
  (∀ i o, o ∈ alive (r i) → ptr_ (r i) ≠ Some o →
   ∃ j, i ≤ j ∧ ∀ k, j ≤ k → o ∈ freed (r k) ∧ o ∉ alive (r k) ∧ NoDup (freed (r k))) ∧
  (∀ i o, o ∈ alive (r i) ↔ owned (r i) o) ∧
  (∀ i, writing (r i) = WIdle → nodes (r i) = ∅ →
   alive (r i) = match ptr_ (r i) with Some o => {[o]} | None => ∅ end).
Proof.
  intros Hr. split; [|split].
  - intros i o Ho Hp. pose proof (run_inv p r i Hr) as Hi. apply (inv_alive _ Hi) in Ho.
    destruct (retired_freed p r i o Hr) as (j & Hj & Hf); [unfold retired; destruct Ho as [?|[?|?]]; tauto|].
    exists j. split; [done|]. intros k Hk. pose proof (run_inv p r k Hr) as Hik.
    assert (o ∈ freed (r k)) as Hfk.
    { apply (run_stable p r (λ s, o ∈ freed s) j k Hr); [|exact Hk|exact Hf].
      intros s s' _ Hs. destruct Hs; rcu_simpl; set_solver. }
    split; [done|]. split; [by apply (inv_freed _ Hik)|apply Hik].
  - intros i. apply (inv_alive _ (run_inv p r i Hr)).
  - intros i Hw Hn. apply set_eq. intros o. rewrite (inv_alive _ (run_inv p r i Hr)).
    unfold owned. rewrite Hw, Hn. destruct (ptr_ (r i)); set_solver.
Qed.
End rcu.
Arguments rcu : clear implicits.

(** ** An instance of the contract *)

(** The wait sets themselves, run when empty. *)
Definition ideal : Type := gset tid * gmap node (gset tid).

#[export, refine] Instance ideal_urcu : Urcu ideal := {
  u_init := (∅, ∅);
  u_lock t u := ({[t]} ∪ u.1, u.2);
  u_unlock t u := (u.1 ∖ {[t]}, (λ w, w ∖ {[t]}) <$> u.2);
  u_call n u := (u.1, <[n := u.1]> u.2);
  u_run n u u' := u.2 !! n = Some ∅ ∧ u' = (u.1, delete n u.2);
  u_readers := fst; u_waits := snd }.
Proof. all: naive_solver. Defined.

(** A reader holds object 0 while the writer replaces it by 1. *)
Definition held_state : rcu ideal :=
  Rcu ({[7]}, {[3 := {[7]}]}) (Some 1) {[7 := RHolding (Some 0)]} WIdle {[3 := 0]} {[0; 1]} [].

Lemma held_reach : reach step (rcu_init (Some 0)) held_state.
Proof.
  set (s0 := rcu_init (Some 0)).
  assert (reach step s0 s0) as H0 by constructor.
  pose proof (reach_step _ _ _ _ H0 (s_lock 7 s0 eq_refl)) as H1.
  match type of H1 with reach _ _ ?s => pose proof (reach_step _ _ _ _ H1 (s_load 7 s eq_refl)) as H2 end.
  assert (1 ∉ ({[0]} : gset obj)) as Hn by set_solver.
  assert (1 ∉ ([] : list obj)) as Hf by set_solver.
  match type of H2 with reach _ _ ?s =>
    pose proof (reach_step _ _ _ _ H2 (s_exchange 1 s eq_refl Hn Hf)) as H3 end.
  match type of H3 with reach _ _ ?s =>
    exact (reach_step _ _ _ _ H3 (s_call 3 0 s eq_refl eq_refl)) end.
Qed.

Lemma rcu_no_use_after_free_witness :
  0 ∈ alive held_state ∧ 0 ∉ freed held_state ∧ NoDup (freed held_state) ∧
  (∀ s', step held_state s' → 0 ∈ alive s' ∨ readers s' !! 7 = None).
Proof. exact (rcu_no_use_after_free (Some 0) held_state 7 0 held_reach eq_refl). Defined.

(** The reader leaves and the callback deletes object 0; nothing happens
    afterwards. *)
Definition reclaimed_state : rcu ideal := Rcu (∅, ∅) (Some 1) ∅ WIdle ∅ {[1]} [0].

Definition reclaiming (i : nat) : rcu ideal :=
  nth i [rcu_init (Some 0);
         Rcu ({[7]}, ∅) (Some 0) {[7 := RLocked]} WIdle ∅ {[0]} [];
         Rcu ({[7]}, ∅) (Some 0) {[7 := RHolding (Some 0)]} WIdle ∅ {[0]} [];
         Rcu ({[7]}, ∅) (Some 1) {[7 := RHolding (Some 0)]} (WRetiring 0) ∅ {[0; 1]} [];
         held_state;
         Rcu (∅, {[3 := ∅]}) (Some 1) ∅ WIdle {[3 := 0]} {[0; 1]} []] reclaimed_state.

Lemma reclaiming_fair : fair_run (Some 0) reclaiming.
Proof.
  assert (∀ i, reclaiming (i + 6) = reclaimed_state) as Hlast.
  { intros i. unfold reclaiming. apply nth_overflow. simpl. lia. }
  split.
  - done.
  - intros i. destruct (decide (6 ≤ i)) as [Hi|Hi].
    + left. replace i with (i - 6 + 6) by lia. by rewrite <- Nat.add_succ_l, !Hlast.
    + right. destruct i as [|[|[|[|[|[|i]]]]]]; [..|lia]; clear Hlast.
      * exact (s_lock 7 (reclaiming 0) eq_refl).
      * exact (s_load 7 (reclaiming 1) eq_refl).
      * refine (s_exchange 1 (reclaiming 2) eq_refl _ _); set_solver.
      * exact (s_call 3 0 (reclaiming 3) eq_refl eq_refl).
      * exact (s_unlock 7 (Some 0) (reclaiming 4) eq_refl).
      * exact (s_retire_cb 3 0 (∅, ∅) (reclaiming 5) (conj eq_refl eq_refl) eq_refl).
  - intros i t _. exists (i + 6). rewrite Hlast. split; [lia|done].
  - intros i o _. exists (i + 6). rewrite Hlast. split; [lia|done].
  - intros i n _. exists (i + 6). rewrite Hlast. split; [lia|]. by intros [u' [? _]].
Qed.

Lemma rcu_reclaims_witness :
  (∃ j, 4 ≤ j ∧ ∀ k, j ≤ k → 0 ∈ freed (reclaiming k) ∧ 0 ∉ alive (reclaiming k) ∧ NoDup (freed (reclaiming k))).
Proof. exact (proj1 (rcu_reclaims (Some 0) reclaiming reclaiming_fair) 4 0
  (bool_decide_unpack (0 ∈ alive (reclaiming 4)) I) ltac:(done)). Defined.
