(* ===== verification/Modulator.v ===== *)
(** The modulator interface ([include/nomos/rt/abstract_modulator.hpp]) and what
    the modulators share: the output record, the reading of other modulators'
    outputs, the linear congruential generator and the float literals.

    [tick] and [update] return [None] where the source's behaviour is undefined
    (a float cast to [int] out of range, an overflowing [int]). *)
From S2P Require Import Prelude Binary.

(** ** Outputs *)

Definition kMaxOutputs : nat := 16.

Record modulator_output := Out {
  cv : f32; aux : f32; gate : bool; gate2 : bool; state : Z; outputs : list f32 }.

Abbreviation f0 := (S754_zero false).
Definition f1 : f32 := Eval vm_compute in lit32 1 1.
Definition fm1 : f32 := Eval vm_compute in lit32 (-1) 1.
Definition fhalf : f32 := Eval vm_compute in lit32 1 2.
Definition f2 : f32 := Eval vm_compute in lit32 2 1.

(** [modulator_output{}] and designated initialisers. *)
Definition no_outputs : list f32 := replicate kMaxOutputs f0.
Definition out_default : modulator_output := Out f0 f0 false false 0 no_outputs.
Definition out_cv (c : f32) : modulator_output := Out c f0 false false 0 no_outputs.
Definition out_cv_gate (c : f32) (g : bool) : modulator_output := Out c f0 g false 0 no_outputs.

(** [outputs[i] = v] for the first slots. *)
Definition set_outputs (l : list f32) : list f32 := l ++ drop (length l) no_outputs.

(** ** The interface *)

(** [engine->last_output]. *)
Definition last_output_fn : Type := string → option modulator_output.

Class Modulator (M : Type) := {
  mtick : last_output_fn → f64 → f32 → M → option (M * modulator_output);
  mupdate : string → f32 → M → option M
}.

(** [engine_ && !src.empty()] and the source has an output. *)
Definition read_src (engine : bool) (src : string) (lo : last_output_fn) : option modulator_output :=
  if engine && negb (src =? "")%string then lo src else None.

Definition read_cv_src engine src lo (fallback : f32) : f32 :=
  match read_src engine src lo with Some o => cv o | None => fallback end.

Definition read_gate_src engine src lo : bool :=
  match read_src engine src lo with Some o => gate o | None => false end.

(** ** The generator of the stochastic modulators *)

Definition lcg (r : Z) : Z := u32 (u32 (r * 1664525) + 1013904223).
Definition inv_2_24 : f32 := Eval vm_compute in f1 /f lit32 16777216 1.
Definition rand_float (r : Z) : f32 := f32_of_Z (Z.shiftr r 8) *f inv_2_24.
(** The new state and the value drawn. *)
Definition next_random (r : Z) : Z * f32 := let r := lcg r in (r, rand_float r).

(** ** Integers of the interface *)

Definition clamp_int (v lo hi : Z) : Z :=
  if (v <? lo)%Z then lo else if (hi <? v)%Z then hi else v.

Lemma clamp_int_range v lo hi : (lo <= hi)%Z → (lo <= clamp_int v lo hi <= hi)%Z.
Proof. intros. unfold clamp_int. repeat (case_if; bool_to_prop); lia. Qed.

(** Bit [i] of the word set when [b i]. *)
Fixpoint bitmap (bs : list bool) : Z :=
  match bs with
  | [] => 0
  | b :: bs => (if b then 1 else 0) + 2 * bitmap bs
  end.

Lemma bitmap_testbit bs i :
  Z.testbit (bitmap bs) (Z.of_nat i) = default false (bs !! i).
Proof.
  revert i. induction bs as [|b bs IH]; intros i; cbn [bitmap]; [by rewrite Z.bits_0|].
  destruct i as [|i].
  - change (Z.of_nat 0) with 0%Z. rewrite Z.add_comm.
    destruct b; [apply Z.testbit_odd_0|by rewrite Z.add_0_r, Z.testbit_even_0].
  - rewrite Nat2Z.inj_succ, Z.add_comm. cbn [lookup list_lookup]. rewrite <- IH.
    destruct b; [apply Z.testbit_odd_succ|rewrite Z.add_0_r; apply Z.testbit_even_succ]; lia.
Qed.

(** The value is a number in the closed interval. *)
Definition in_range (lo hi x : f32) : Prop := lo <=f x = true ∧ x <=f hi = true.

Lemma clampf_in_range v lo hi : is_nan v = false → lo <=f hi = true → in_range lo hi (clampf v lo hi).
Proof. by intros; apply clampf_range. Qed.

Lemma in_range_nan lo hi x : in_range lo hi x → is_nan x = false.
Proof. intros [H _]. by destruct (SFleb_nan_l _ _ H). Qed.
#[export] Hint Resolve clampf_in_range : rt.

(** ** The random generator's range *)

Lemma lcg_u32 r : is_u32 (lcg r).
Proof. apply u32_range. Qed.
#[export] Hint Resolve lcg_u32 : rt.

(** A draw is a number in [0, 1): the 24 bits it keeps are exact. *)
Lemma rand_float_range r : is_u32 r → f0 <=f rand_float r = true ∧ rand_float r <f f1 = true.
Proof.
  intros [H0 H1]. unfold rand_float.
  assert (0 <= Z.shiftr r 8 < 2 ^ 24)%Z as Hz by (rewrite Z.shiftr_div_pow2 by lia; zmod).
  destruct (Z.shiftr r 8) as [|p|p]; [by vm_compute| |lia].
  destruct (f32_of_Z_exact p) as (m & e & -> & Hm & He); [lia|].
  change inv_2_24 with (S754_finite false 8388608 (-47)). rewrite fmul_pow2_exact by (done || lia).
  split; [done|]. unfold SFltb, SFcompare, f1. by rewrite (proj2 (Z.compare_lt_iff _ _)) by lia.
Qed.
