(* ===== verification/Period.v ===== *)
(** Periods of linear maps on machine words, the tool behind the shift
    register's maximal-length theorem.

    A map on [N]-bit words that is linear for the exclusive or is given by the
    images of the [N] unit vectors; its powers are computed by repeated
    squaring of that matrix, so iterates of astronomical order are evaluated
    exactly.  If the [2^N - 1]-st power is the identity and no maximal proper
    divisor of [2^N - 1] is a period of one word, every non-zero word runs
    through all the others. *)
From S2P Require Import Prelude.
From Stdlib Require Import Znumtheory Finite.
Local Open Scope Z_scope.

(** ** Iteration *)

Abbreviation iter n f x := (Nat.iter n f x).

Lemma iter_add {A} (f : A → A) m n x : iter (m + n) f x = iter m f (iter n f x).
Proof. induction m; simpl; by f_equal. Qed.

Lemma iter_mul {A} (f : A → A) m n x : iter n f x = x → iter (m * n) f x = x.
Proof. intros Hn. induction m as [|m IH]; simpl; [done|]. by rewrite iter_add, IH. Qed.

Lemma iter_gcd {A} (f : A → A) x : ∀ a b,
  iter a f x = x → iter b f x = x → iter (Nat.gcd a b) f x = x.
Proof.
  induction a as [a IH] using lt_wf_ind. intros b Ha Hb.
  destruct a as [|a]; [done|]. change (Nat.gcd (S a) b) with (Nat.gcd (b mod S a) (S a)).
  apply IH; [by apply Nat.mod_upper_bound| |done].
  rewrite (Nat.div_mod_eq b (S a)), Nat.add_comm, iter_add, Nat.mul_comm in Hb.
  by rewrite iter_mul in Hb.
Qed.

(** ** Full orbits *)

Section orbit.
Context (f : Z → Z) (P : nat) (e : Z).
Definition in_orbit (x : Z) : Prop := 0 < x <= Z.of_nat P.
Context (Hmap : ∀ x, in_orbit x → in_orbit (f x)).
Context (Hfix : ∀ x, in_orbit x → iter P f x = x).
Context (He : in_orbit e) (HP : (0 < P)%nat).
Context (Hne : ∀ k, (0 < k < P)%nat → iter k f e ≠ e).

Lemma iter_in_orbit k x : in_orbit x → in_orbit (iter k f x).
Proof using Hmap. intros. induction k; simpl; auto. Qed.

Lemma iter_inj k x y : in_orbit x → in_orbit y → iter k f x = iter k f y → x = y.
Proof using Hmap Hfix HP.
  intros Hx Hy E. assert (iter (k * P) f x = iter (k * P) f y) as E2.
  { replace (k * P)%nat with ((k * P - k) + k)%nat by nia. rewrite !iter_add. by rewrite E. }
  by rewrite !iter_mul in E2 by auto.
Qed.

Lemma iter_distinct i j : (i < P)%nat → (j < P)%nat → iter i f e = iter j f e → i = j.
Proof using Hmap Hfix HP He Hne.
  assert (∀ i j, (i < j < P)%nat → iter i f e ≠ iter j f e) as Hlt.
  { intros i' j' Hij E. apply (Hne (j' - i')); [lia|]. symmetry.
    apply (iter_inj i'); [done|by apply iter_in_orbit|].
    rewrite <- iter_add. by replace (i' + (j' - i'))%nat with j' by lia. }
  intros Hi Hj E. destruct (lt_eq_lt_dec i j) as [[H|H]|H]; [exfalso|done|exfalso].
  - by apply (Hlt i j).
  - by apply (Hlt j i).
Qed.

(** The orbit of [e] is everything, by counting. *)
Lemma orbit_all x : in_orbit x → ∃ k, (k < P)%nat ∧ iter k f e = x.
Proof using Hmap Hfix HP He Hne.
  intros Hx.
  set (orbit := map (λ k, Z.to_nat (iter k f e)) (seq 0 P)).
  assert (List.NoDup orbit) as Hnd.
  { apply Finite.Injective_map_NoDup_in; [|apply seq_NoDup].
    intros i j Hi%in_seq Hj%in_seq E. apply iter_distinct; [lia..|].
    pose proof (iter_in_orbit i e He). pose proof (iter_in_orbit j e He).
    unfold in_orbit in *. lia. }
  assert (List.incl (seq 1 P) orbit) as Hincl.
  { apply List.NoDup_length_incl; [done|unfold orbit; by rewrite List.length_map, !List.length_seq|].
    intros n (k & <- & Hk%in_seq)%in_map_iff. apply in_seq.
    pose proof (iter_in_orbit k e He). unfold in_orbit in *. lia. }
  destruct (proj1 (in_map_iff _ _ _) (Hincl (Z.to_nat x) ltac:(apply in_seq; unfold in_orbit in *; lia)))
    as (k & Hk & Hin%in_seq).
  exists k. split; [lia|]. pose proof (iter_in_orbit k e He). unfold in_orbit in *. lia.
Qed.

Lemma orbit_reach x y : in_orbit x → in_orbit y → ∃ k, (k < P)%nat ∧ iter k f x = y.
Proof using Hmap Hfix HP He Hne.
  intros Hx Hy. destruct (orbit_all x Hx) as (i & Hi & <-), (orbit_all y Hy) as (j & Hj & <-).
  destruct (decide (i <= j)%nat).
  - exists (j - i)%nat. split; [lia|]. rewrite <- iter_add. f_equal. lia.
  - exists (j + P - i)%nat. split; [lia|]. rewrite <- iter_add.
    replace (j + P - i + i)%nat with (j + P)%nat by lia. rewrite iter_add. by rewrite Hfix.
Qed.

Lemma orbit_period x k : in_orbit x → (0 < k < P)%nat → iter k f x ≠ x.
Proof using Hmap Hfix HP He Hne.
  intros Hx Hk E. destruct (orbit_all x Hx) as (i & Hi & <-).
  apply (Hne k Hk), (iter_inj i); [by apply iter_in_orbit|done|].
  by rewrite <- iter_add, Nat.add_comm, iter_add.
Qed.
End orbit.

(** ** Primes and maximal divisors *)

(** Trial division by [k], [k + 1], ... for [fuel] steps. *)
Fixpoint no_divisor (p k : Z) (fuel : nat) : bool :=
  match fuel with
  | O => true
  | S fuel => negb (p mod k =? 0) && no_divisor p (k + 1) fuel
  end.
Definition is_prime (p : Z) : bool := (1 <? p) && no_divisor p 2 (Z.to_nat (Z.sqrt p)).

Lemma no_divisor_spec p fuel : ∀ k, no_divisor p k fuel = true →
  ∀ d, k <= d < k + Z.of_nat fuel → 0 < d → ¬ (d | p).
Proof.
  induction fuel as [|fuel IH]; intros k Hf d Hd H0 Hdiv; cbn [no_divisor] in Hf; [lia|].
  bool_to_prop. destruct (decide (d = k)) as [->|].
  - apply Z.mod_divide in Hdiv; lia.
  - eapply (IH (k + 1)); eauto; lia.
Qed.

Lemma is_prime_spec p : is_prime p = true → prime p.
Proof.
  intros [Hp%Z.ltb_lt Ht]%andb_true_iff. apply prime_alt. split; [done|]. intros n Hn [q Hq].
  pose proof (no_divisor_spec _ _ _ Ht) as Hnd.
  destruct (Z.sqrt_spec p) as [Hs1 Hs2]; [lia|]. pose proof (Z.sqrt_nonneg p).
  assert (1 < q < p) by nia.
  destruct (decide (n <= Z.sqrt p)).
  - apply (Hnd n); [lia..|]. by exists q.
  - apply (Hnd q); [|lia|by exists n; lia]. split; [lia|].
    assert (q <= Z.sqrt p) by (destruct (decide (q <= Z.sqrt p)); [done|nia]). lia.
Qed.

Definition product (fs : list Z) : Z := foldr Z.mul 1 fs.

(** A proper divisor of a product of primes divides it with one factor left
    out. *)
Lemma proper_divisor fs : Forall prime fs → ∀ d, 0 < d → (d | product fs) →
  d = product fs ∨ ∃ p, p ∈ fs ∧ (d | product fs / p).
Proof.
  induction 1 as [|p l Hp Hl IH]; intros d Hd Hdiv; cbn [product foldr] in *.
  - left. apply Z.divide_1_r_nonneg in Hdiv; lia.
  - fold (product l) in *. pose proof (prime_ge_2 p Hp).
    destruct (Zdivide_dec p d) as [[d' ->]|Hn].
    + assert (d' | product l) as Hd'.
      { rewrite (Z.mul_comm d') in Hdiv. by apply Z.mul_divide_cancel_l in Hdiv; [|lia]. }
      destruct (IH d' ltac:(nia) Hd') as [->|(q & Hq & [r Hr])]; [left; lia|right].
      exists q. split; [by right|]. pose proof (proj1 (Forall_forall _ _) Hl q Hq) as Hpq.
      pose proof (prime_ge_2 q Hpq). assert (q | product l) as [m Hm].
      { clear -Hq. induction l as [|x l IHl]; [by apply elem_of_nil in Hq|].
        cbn [product foldr]. fold (product l). apply elem_of_cons in Hq as [->|Hq].
        - apply Z.divide_factor_l. - by apply Z.divide_mul_r, IHl. }
      rewrite Hm in Hr |- *. rewrite Z.div_mul in Hr by lia. subst m.
      exists r. replace (p * (r * d' * q)) with ((p * r * d') * q) by lia.
      rewrite Z.div_mul by lia. lia.
    + right. exists p. split; [by left|]. rewrite Z.mul_comm, Z.div_mul by lia.
      apply Gauss with p; [done|]. apply rel_prime_sym, prime_rel_prime; done.
Qed.

(** ** Linear maps *)

Section linear.
Context (N : nat).
Definition word (x : Z) : Prop := 0 <= x < 2 ^ Z.of_nat N.

Record linear (f : Z → Z) : Prop := Linear {
  lin_word x : word x → word (f x);
  lin_xor x y : word x → word y → f (Z.lxor x y) = Z.lxor (f x) (f y) }.

(** The images of the unit vectors, and the map they define. *)
Fixpoint apply_from (cols : list Z) (i x : Z) : Z :=
  match cols with
  | [] => 0
  | c :: cols => Z.lxor (if Z.testbit x i then c else 0) (apply_from cols (i + 1) x)
  end.
Definition apply_cols (cols : list Z) (x : Z) : Z := apply_from cols 0 x.

Definition units : list Z := map (λ i, 2 ^ Z.of_nat i) (seq 0 N).
Definition cols_of (f : Z → Z) : list Z := map f units.

(** Columns of the [p]-th power. *)
Fixpoint pow_cols (p : positive) (cols : list Z) : list Z :=
  match p with
  | xH => cols
  | xO p => let c := pow_cols p cols in map (apply_cols c) c
  | xI p => let c := pow_cols p cols in map (apply_cols cols) (map (apply_cols c) c)
  end.

Lemma word_bits x : word x ↔ 0 <= x ∧ ∀ i, Z.of_nat N <= i → Z.testbit x i = false.
Proof.
  unfold word. split.
  - intros Hx. split; [lia|]. intros i Hi. rewrite <- (Z.mod_small x (2 ^ Z.of_nat N)) by done.
    by rewrite Z.mod_pow2_bits_high by lia.
  - intros [Hx Hb]. assert (x mod 2 ^ Z.of_nat N = x) as <-; [|apply Z.mod_pos_bound; lia].
    apply Z.bits_inj'. intros i Hi. destruct (decide (i < Z.of_nat N)).
    + by rewrite Z.mod_pow2_bits_low by lia.
    + rewrite Z.mod_pow2_bits_high by lia. by rewrite Hb by lia.
Qed.

Lemma word_lxor x y : word x → word y → word (Z.lxor x y).
Proof.
  rewrite !word_bits. intros [Hx Hbx] [Hy Hby]. split; [by apply Z.lxor_nonneg|].
  intros i Hi. by rewrite Z.lxor_spec, Hbx, Hby.
Qed.

Lemma linear_zero f : linear f → f 0 = 0.
Proof.
  intros Hf. assert (word 0) by (unfold word; lia).
  pose proof (lin_xor f Hf 0 0 H H) as E. by rewrite !Z.lxor_nilpotent in E.
Qed.

(** Words below [2^m] that agree with [x] on the bits from [i] on. *)
Lemma apply_from_spec f m : linear f → ∀ i x, (i + m = N)%nat →
  word x → (∀ j, 0 <= j < Z.of_nat i → Z.testbit x j = false) →
  apply_from (map f (map (λ i, 2 ^ Z.of_nat i) (seq i m))) (Z.of_nat i) x = f x.
Proof.
  intros Hf. induction m as [|m IH]; intros i x Hi Hx Hlow; cbn [seq map apply_from].
  - assert (x = 0) as ->; [|by rewrite linear_zero].
    apply Z.bits_inj'. intros n Hn. rewrite Z.bits_0. destruct (decide (n < Z.of_nat i)); [auto|].
    unfold word in Hx. destruct (decide (x = 0)) as [->|]; [by rewrite Z.bits_0|].
    apply Z.bits_above_log2; [lia|]. apply Z.log2_lt_pow2; [lia|].
    apply Z.lt_le_trans with (2 ^ Z.of_nat N); [lia|]. apply Z.pow_le_mono_r; lia.
  - assert (word (2 ^ Z.of_nat i)) as Hu.
    { unfold word. split; [lia|]. apply Z.pow_lt_mono_r; lia. }
    set (y := if Z.testbit x (Z.of_nat i) then Z.lxor x (2 ^ Z.of_nat i) else x).
    assert (word y) as Hy by (unfold y; destruct (Z.testbit _ _); auto using word_lxor).
    assert (∀ j, 0 <= j < Z.of_nat (S i) → Z.testbit y j = false) as Hly.
    { intros j Hj. unfold y. destruct (decide (j = Z.of_nat i)) as [->|].
      - destruct (Z.testbit x (Z.of_nat i)) eqn:E; [|done].
        by rewrite Z.lxor_spec, E, Z.pow2_bits_true by lia.
      - destruct (Z.testbit x (Z.of_nat i)); [|apply Hlow; lia].
        rewrite Z.lxor_spec, Z.pow2_bits_false by lia. rewrite Hlow by lia. done. }
    assert (∀ l k, (∀ j, k <= j → Z.testbit x j = Z.testbit y j) →
              apply_from l k x = apply_from l k y) as Hext.
    { induction l as [|c l IHl]; intros k Hk; cbn [apply_from]; [done|].
      rewrite (IHl (k + 1)) by (intros; apply Hk; lia). by rewrite (Hk k) by lia. }
    replace (Z.of_nat i + 1) with (Z.of_nat (S i)) by lia.
    rewrite (Hext _ (Z.of_nat (S i))), IH; [|lia|done|done|].
    + unfold y. destruct (Z.testbit x (Z.of_nat i)) eqn:E.
      * rewrite (lin_xor f Hf) by done. rewrite (Z.lxor_comm (f x)), <- Z.lxor_assoc.
        by rewrite Z.lxor_nilpotent, Z.lxor_0_l.
      * by rewrite Z.lxor_0_l.
    + intros j Hj. unfold y. destruct (Z.testbit x (Z.of_nat i)); [|done].
      rewrite Z.lxor_spec, Z.pow2_bits_false by lia. by rewrite xorb_false_r.
Qed.

Lemma apply_cols_spec f x : linear f → word x → apply_cols (cols_of f) x = f x.
Proof. intros. apply (apply_from_spec f N); [done|lia|done|lia]. Qed.

Lemma linear_iter f k : linear f → linear (λ x, iter k f x).
Proof.
  intros Hf. assert (∀ x, word x → word (iter k f x)) as Hw.
  { intros x Hx. induction k; simpl; [done|]. by apply Hf. }
  split; [done|]. intros x y Hx Hy. clear Hw. induction k as [|k IH]; simpl; [done|].
  rewrite IH. apply Hf.
  - clear IH. induction k; simpl; [done|]. by apply Hf.
  - clear IH. induction k; simpl; [done|]. by apply Hf.
Qed.

Lemma units_word : Forall word units.
Proof.
  unfold units. rewrite List.Forall_forall. intros x (i & <- & Hi%in_seq)%in_map_iff.
  unfold word. split; [lia|]. apply Z.pow_lt_mono_r; lia.
Qed.

Lemma map_cols f g : linear f → linear g →
  map (apply_cols (cols_of f)) (cols_of g) = cols_of (λ x, f (g x)).
Proof.
  intros Hf Hg. unfold cols_of at 2 3. rewrite map_map. apply map_ext_in.
  intros x Hx. apply apply_cols_spec; [done|]. apply Hg.
  pose proof units_word as Hu. rewrite List.Forall_forall in Hu. auto.
Qed.

Lemma cols_ext f g : (∀ x, f x = g x) → cols_of f = cols_of g.
Proof. intros. by apply map_ext. Qed.

Lemma pow_cols_spec f p : linear f → pow_cols p (cols_of f) = cols_of (λ x, iter (Pos.to_nat p) f x).
Proof.
  intros Hf. induction p as [p IH|p IH|]; cbn [pow_cols].
  - pose proof (linear_iter f (Pos.to_nat p) Hf) as Hk. rewrite IH, (map_cols _ _ Hk Hk).
    pose proof (linear_iter f (Pos.to_nat p + Pos.to_nat p) Hf) as H2.
    rewrite (cols_ext (λ x, iter (Pos.to_nat p) f (iter (Pos.to_nat p) f x))
               (λ x, iter (Pos.to_nat p + Pos.to_nat p) f x)) by (intros; by rewrite iter_add).
    rewrite (map_cols _ _ Hf H2). apply cols_ext. intros x.
    replace (Pos.to_nat p~1) with (S (Pos.to_nat p + Pos.to_nat p))%nat by lia. done.
  - pose proof (linear_iter f (Pos.to_nat p) Hf) as Hk. rewrite IH, (map_cols _ _ Hk Hk).
    apply cols_ext. intros x. rewrite <- iter_add.
    by replace (Pos.to_nat p~0) with (Pos.to_nat p + Pos.to_nat p)%nat by lia.
  - done.
Qed.
End linear.

(** ** The criterion *)

(** [fs]: the prime factors of [2^N - 1] with their multiplicities. *)
Definition max_period_check (N : nat) (cols fs : list Z) : bool :=
  let P := 2 ^ Z.of_nat N - 1 in
  (product fs =? P) && forallb is_prime fs &&
  bool_decide (pow_cols (Z.to_pos P) cols = units N) &&
  forallb (λ p, negb (apply_cols (pow_cols (Z.to_pos (P / p)) cols) 1 =? 1)) fs.

Section max_period.
Context (N : nat) (f : Z → Z) (fs : list Z).
Context (Hf : linear N f) (HN : (0 < N)%nat).
Context (Hcheck : max_period_check N (cols_of N f) fs = true).
Let P := Z.to_nat (2 ^ Z.of_nat N - 1).

Lemma check_facts :
  product fs = 2 ^ Z.of_nat N - 1 ∧ Forall prime fs ∧
  (∀ x, word N x → iter P f x = x) ∧
  (∀ p, p ∈ fs → iter (Z.to_nat ((2 ^ Z.of_nat N - 1) / p)) f 1 ≠ 1).
Proof using Hcheck Hf HN.
  unfold max_period_check in Hcheck. apply andb_true_iff in Hcheck as [Hc H4].
  apply andb_true_iff in Hc as [Hc H3]. apply andb_true_iff in Hc as [H1 H2].
  apply Z.eqb_eq in H1. apply bool_decide_eq_true in H3.
  rewrite forallb_forall in H2, H4.
  assert (1 < 2 ^ Z.of_nat N) as Hpow by (apply Z.pow_gt_1; lia).
  assert (Forall prime fs) as Hps.
  { rewrite List.Forall_forall. intros p Hp. by apply is_prime_spec, H2. }
  assert (word N 1) as Hw1 by (unfold word; lia).
  split; [done|]. split; [done|]. split.
  - intros x Hx. rewrite pow_cols_spec in H3 by done.
    rewrite <- (apply_cols_spec N (λ x, iter P f x) x) by auto using linear_iter.
    replace (Pos.to_nat _) with P in H3 by (unfold P; lia). rewrite H3.
    transitivity (apply_cols (cols_of N (λ x, x)) x).
    { unfold cols_of. by rewrite map_id. }
    apply (apply_cols_spec N (λ x, x)); [by split|done].
  - intros p Hp E. apply list_elem_of_In in Hp. specialize (H4 p Hp). apply negb_true_iff, Z.eqb_neq in H4.
    apply H4. rewrite pow_cols_spec by done. rewrite apply_cols_spec; [|by apply linear_iter|done].
    assert (0 < (2 ^ Z.of_nat N - 1) / p) as Hq.
    2: { by replace (Pos.to_nat _) with (Z.to_nat ((2 ^ Z.of_nat N - 1) / p)) by lia. }
    rewrite List.Forall_forall in Hps. pose proof (prime_ge_2 p (Hps p Hp)).
    assert (p | 2 ^ Z.of_nat N - 1) as [m Hm].
    { rewrite <- H1. clear -Hp. induction fs as [|x l IHl]; [done|]. cbn [product foldr].
      fold (product l). destruct Hp as [->|Hp]; [apply Z.divide_factor_l|by apply Z.divide_mul_r, IHl]. }
    rewrite Hm, Z.div_mul by lia. nia.
Qed.

Lemma word_in_orbit x : word N x → x ≠ 0 → in_orbit P x.
Proof using HN. unfold word, in_orbit, P. lia. Qed.

Lemma in_orbit_word x : in_orbit P x → word N x ∧ x ≠ 0.
Proof using HN. unfold word, in_orbit, P. lia. Qed.

Lemma orbit_map x : in_orbit P x → in_orbit P (f x).
Proof using Hcheck Hf HN.
  intros [Hx Hnz]%in_orbit_word. destruct check_facts as (_ & _ & Hfix & _).
  apply word_in_orbit; [by apply Hf|]. intros E. apply Hnz.
  assert (1 < 2 ^ Z.of_nat N) as Hpow by (apply Z.pow_gt_1; lia).
  rewrite <- (Hfix x Hx). replace P with (P - 1 + 1)%nat by (unfold P; lia). rewrite iter_add.
  change (iter 1 f x) with (f x).
  rewrite E. clear E. induction (P - 1)%nat as [|k IH]; simpl; [done|].
  rewrite IH. by apply (linear_zero N).
Qed.

Lemma least_period k : (0 < k < P)%nat → iter k f 1 ≠ 1.
Proof using Hcheck Hf HN.
  intros Hk E. destruct check_facts as (Hprod & Hps & Hfix & Hne).
  assert (1 < 2 ^ Z.of_nat N) as Hpow by (apply Z.pow_gt_1; lia).
  assert (word N 1) as Hw1 by (unfold word; lia).
  pose proof (iter_gcd f 1 k P E (Hfix 1 Hw1)) as Hg.
  pose proof (Nat.gcd_divide_l k P) as [a Ha]. pose proof (Nat.gcd_divide_r k P) as [b Hb].
  set (g := Nat.gcd k P) in *. assert (0 < g < P)%nat as Hgb.
  { clearbody g. clearbody P. destruct a; [lia|]. destruct g; nia. }
  destruct (proper_divisor fs Hps (Z.of_nat g)) as [Hd|(p & Hp & [c Hc])]; [lia| | |].
  - rewrite Hprod. exists (Z.of_nat b). unfold P in Hb. lia.
  - rewrite Hprod in Hd. unfold P in Hgb. lia.
  - apply (Hne p Hp). rewrite Hprod in Hc. rewrite Hc.
    assert (0 <= (2 ^ Z.of_nat N - 1) / p).
    { apply Z.div_pos; [lia|]. rewrite Forall_forall in Hps. pose proof (prime_ge_2 p (Hps p Hp)). lia. }
    replace (Z.to_nat (c * Z.of_nat g)) with (Z.to_nat c * g)%nat by nia.
    by apply iter_mul.
Qed.

(** Every non-zero word has period exactly [2^N - 1] and meets all the
    others. *)
Lemma max_period x : word N x → x ≠ 0 →
  iter P f x = x ∧ (∀ k, (0 < k < P)%nat → iter k f x ≠ x) ∧
  (∀ y, word N y → y ≠ 0 → ∃ k, (k < P)%nat ∧ iter k f x = y).
Proof using Hcheck Hf HN.
  intros Hx Hnz. destruct check_facts as (_ & _ & Hfix & _).
  assert (1 < 2 ^ Z.of_nat N) as Hpow by (apply Z.pow_gt_1; lia).
  assert (∀ x, in_orbit P x → iter P f x = x) as Hfix' by (intros; by apply Hfix, in_orbit_word).
  assert (in_orbit P 1) as H1 by (unfold in_orbit, P; lia).
  assert (0 < P)%nat as HP by (unfold P; lia).
  pose proof (word_in_orbit x Hx Hnz) as Hox. split; [by apply Hfix|]. split.
  - intros k Hk. by apply (orbit_period f P 1 orbit_map Hfix' H1 HP least_period).
  - intros y Hy Hny. apply (orbit_reach f P 1 orbit_map Hfix' H1 HP least_period); [done|].
    by apply word_in_orbit.
Qed.
End max_period.
