(* ===== verification/ShiftRegister.v ===== *)
(** The clocked shift register with four feedback modes
    ([src/shift_register_modulator.hpp/.cpp]). *)
From S2P Require Import Prelude Binary Modulator Period.
Local Open Scope Z_scope.

Inductive mode := lfsr | rungler | turing | open.

Record shift_register := ShiftRegister {
  mode_ : mode; length_ : Z; dac_bits_ : Z; reg_ : Z; gate_out_ : bool;
  clock_rate_ : f32; data_ : f32; param_ : f32; depth_ : f32;
  clock_phase_ : f32; rand_state_ : Z }.

Definition lfsr_taps : list Z :=
  [0x00000000; 0x00000000; 0x00000003; 0x00000006; 0x0000000C; 0x00000014; 0x00000030;
   0x00000060; 0x000000B8; 0x00000110; 0x00000240; 0x00000500; 0x00000E08; 0x00001C80;
   0x00003802; 0x00006000; 0x0000D008; 0x00012000; 0x00020400; 0x00072000; 0x00090000;
   0x00140000; 0x00300000; 0x00420000; 0x00E10000; 0x01200000; 0x02000023; 0x04000013;
   0x09000000; 0x14000000; 0x20000029; 0x48000000; 0x80200003].

Definition reg_mask (length : Z) : Z :=
  if length <? 32 then u32 (Z.shiftl 1 length) - 1 else 0xFFFFFFFF.

Definition make (m : mode) (length dac_bits : Z) : shift_register :=
  let length := clamp_int length 2 32 in
  let reg := Z.land 0xACE1 (reg_mask length) in
  ShiftRegister m length (clamp_int dac_bits 1 (Z.min length 8))
    (if reg =? 0 then 1 else reg) false f2 fhalf fhalf f1 f0 0xACE1.

(** XOR-parity of the tapped bits. *)
Definition parity32 (x : Z) : Z :=
  let x := Z.lxor x (Z.shiftr x 16) in
  let x := Z.lxor x (Z.shiftr x 8) in
  let x := Z.lxor x (Z.shiftr x 4) in
  let x := Z.lxor x (Z.shiftr x 2) in
  let x := Z.lxor x (Z.shiftr x 1) in
  Z.land x 1.

Definition lfsr_new_bit (s : shift_register) : bool :=
  negb (parity32 (Z.land (reg_ s) (default 0 (lfsr_taps !! Z.to_nat (length_ s)))) =? 0).

Definition dac_output (s : shift_register) : f32 :=
  let shift := length_ s - dac_bits_ s in
  let raw := Z.land (Z.shiftr (reg_ s) shift) (u32 (Z.shiftl 1 (dac_bits_ s)) - 1) in
  let max_val := f32_of_Z (u32 (Z.shiftl 1 (dac_bits_ s)) - 1) in
  (f32_of_Z raw /f max_val) *f f2 -f f1.

Definition msb (s : shift_register) : bool :=
  negb (Z.land (Z.shiftr (reg_ s) (length_ s - 1)) 1 =? 0).

(** The bit the mode feeds in, and the generator's next state. *)
Definition feedback (s : shift_register) : bool * Z :=
  match mode_ s with
  | lfsr => (lfsr_new_bit s, rand_state_ s)
  | rungler => (xorb (data_ s >f param_ s) (msb s), rand_state_ s)
  | turing =>
      let '(r, u) := next_random (rand_state_ s) in
      (if u <f param_ s then negb (msb s) else msb s, r)
  | open => (data_ s >f fhalf, rand_state_ s)
  end.

(** A clock edge: the part of [tick] after [clock_phase_ -= 1]. *)
Definition clock_edge (s : shift_register) : shift_register :=
  let '(new_bit, r) := feedback s in
  ShiftRegister (mode_ s) (length_ s) (dac_bits_ s)
    (Z.land (Z.lor (u32 (Z.shiftl (reg_ s) 1)) (if new_bit then 1 else 0)) (reg_mask (length_ s)))
    new_bit (clock_rate_ s) (data_ s) (param_ s) (depth_ s) (clock_phase_ s) r.

Definition set_phase (s : shift_register) (p : f32) : shift_register :=
  ShiftRegister (mode_ s) (length_ s) (dac_bits_ s) (reg_ s) (gate_out_ s)
    (clock_rate_ s) (data_ s) (param_ s) (depth_ s) p (rand_state_ s).

Definition sr_out (s : shift_register) (g : bool) : modulator_output :=
  Out (dac_output s *f depth_ s) f0 g false (reg_ s) no_outputs.

Definition tick (tick_rate_hz : f32) (s : shift_register) : shift_register * modulator_output :=
  if tick_rate_hz <=f f0 then (s, sr_out s false)
  else
    let s := set_phase s (clock_phase_ s +f (clock_rate_ s /f tick_rate_hz)) in
    if clock_phase_ s <f f1 then (s, sr_out s false)
    else
      let s := clock_edge (set_phase s (clock_phase_ s -f f1)) in
      (s, sr_out s (gate_out_ s)).

Definition update (key : string) (value : f32) (s : shift_register) : shift_register :=
  let 'ShiftRegister m n d r g cr da pa de ph rs := s in
  if (key =? "clock_rate")%string then
    ShiftRegister m n d r g (clampf value (lit32 1 1000) (lit32 1000 1)) da pa de ph rs
  else if (key =? "data")%string then ShiftRegister m n d r g cr (clampf value f0 f1) pa de ph rs
  else if (key =? "param")%string then ShiftRegister m n d r g cr da (clampf value f0 f1) de ph rs
  else if (key =? "depth")%string then ShiftRegister m n d r g cr da pa (clampf value f0 f1) ph rs
  else s.

#[export] Instance shift_register_modulator : Modulator shift_register := {
  mtick _ _ rate s := Some (tick rate s); mupdate key v s := Some (update key v s) }.

(** ** The LFSR step is linear *)

Definition lfsr_step (n x : Z) : Z :=
  Z.land (Z.lor (u32 (Z.shiftl x 1))
            (if negb (parity32 (Z.land x (default 0 (lfsr_taps !! Z.to_nat n))) =? 0) then 1 else 0))
    (reg_mask n).

Lemma land_lxor_l x y m : Z.land (Z.lxor x y) m = Z.lxor (Z.land x m) (Z.land y m).
Proof.
  apply Z.bits_inj'. intros i Hi. rewrite !Z.land_spec, !Z.lxor_spec, !Z.land_spec.
  by destruct (Z.testbit x i), (Z.testbit y i), (Z.testbit m i).
Qed.

Lemma lxor_swap a b c d :
  Z.lxor (Z.lxor a b) (Z.lxor c d) = Z.lxor (Z.lxor a c) (Z.lxor b d).
Proof.
  rewrite <- !Z.lxor_assoc, (Z.lxor_assoc a b c), (Z.lxor_comm b c), <- Z.lxor_assoc. done.
Qed.

Definition fold_xor (k x : Z) : Z := Z.lxor x (Z.shiftr x k).

Lemma fold_xor_lxor k x y : fold_xor k (Z.lxor x y) = Z.lxor (fold_xor k x) (fold_xor k y).
Proof.
  unfold fold_xor. rewrite Z.shiftr_lxor. apply lxor_swap.
Qed.

Lemma parity32_folds x :
  parity32 x = Z.land (fold_xor 1 (fold_xor 2 (fold_xor 4 (fold_xor 8 (fold_xor 16 x))))) 1.
Proof. done. Qed.

Lemma parity32_lxor x y : parity32 (Z.lxor x y) = Z.lxor (parity32 x) (parity32 y).
Proof. by rewrite !parity32_folds, !fold_xor_lxor, land_lxor_l. Qed.

Lemma parity32_bit x : parity32 x = 0 ∨ parity32 x = 1.
Proof.
  rewrite parity32_folds. set (y := fold_xor 1 _).
  pose proof (land_mask_range 1 y ltac:(lia)) as H. change (2 ^ 1 - 1) with 1 in H. lia.
Qed.

Lemma reg_mask_eq n : 0 <= n <= 32 → reg_mask n = 2 ^ n - 1.
Proof.
  intros. unfold reg_mask. case_if; bool_to_prop.
  - rewrite Z.shiftl_1_l, u32_small; [done|]. unfold is_u32.
    split; [lia|]. apply Z.pow_lt_mono_r; lia.
  - by replace n with 32 by lia.
Qed.

(** Shifting in one bit: the bits above come from the word. *)
Lemma shift_in n x b : 0 <= n <= 32 → b = 0 ∨ b = 1 →
  Z.land (Z.lor (u32 (Z.shiftl x 1)) b) (2 ^ n - 1) =
  Z.lxor (Z.land (Z.shiftl x 1) (2 ^ n - 1)) (Z.land b (2 ^ n - 1)).
Proof.
  intros Hn Hb. rewrite Z.land_lor_distr_l.
  assert (Z.land (u32 (Z.shiftl x 1)) (2 ^ n - 1) = Z.land (Z.shiftl x 1) (2 ^ n - 1)) as ->.
  { rewrite !land_mask by lia. unfold u32, wrapu. rewrite Z.mod_mod_divide; [done|].
    exists (2 ^ (32 - n)). rewrite <- Z.pow_add_r by lia. f_equal. lia. }
  symmetry. apply Z.lxor_lor. rewrite Z.shiftl_mul_pow2 by lia. destruct Hb as [-> | ->].
  - by rewrite Z.land_0_l, Z.land_0_r.
  - rewrite <- Z.land_assoc, (Z.land_comm (2 ^ n - 1) (Z.land _ _)), Z.land_assoc, (Z.land_assoc _ 1).
    change 1 with (2 ^ 1 - 1) at 2. rewrite (land_mask 1) by lia.
    rewrite Z.mul_mod by lia. change ((2 ^ 1) mod 2 ^ 1) with 0. by rewrite Z.mul_0_r.
Qed.

Lemma lfsr_step_lxor n x : 0 <= n <= 32 →
  lfsr_step n x =
  Z.lxor (Z.land (Z.shiftl x 1) (2 ^ n - 1))
    (Z.land (parity32 (Z.land x (default 0 (lfsr_taps !! Z.to_nat n)))) (2 ^ n - 1)).
Proof.
  intros Hn. unfold lfsr_step. set (p := parity32 _).
  assert ((if negb (p =? 0) then 1 else 0) = p) as ->.
  { destruct (parity32_bit (Z.land x (default 0 (lfsr_taps !! Z.to_nat n)))) as [E|E];
      fold p in E; by rewrite E. }
  rewrite reg_mask_eq by done. apply shift_in; [done|]. apply parity32_bit.
Qed.

Lemma lfsr_step_linear n : 0 <= n <= 32 → linear (Z.to_nat n) (lfsr_step n).
Proof.
  intros Hn. split.
  - intros x _. unfold word, lfsr_step. rewrite reg_mask_eq, Z2Nat.id by lia. apply land_mask_range. lia.
  - intros x y _ _. rewrite !lfsr_step_lxor by done.
    rewrite land_lxor_l, parity32_lxor, !land_lxor_l, Z.shiftl_lxor, land_lxor_l.
    apply lxor_swap.
Qed.

(** The prime factors of [2^n - 1]. *)
Definition mersenne_factors : list (list Z) :=
  [[]; []; [3]; [7]; [3; 5]; [31]; [3; 3; 7]; [127]; [3; 5; 17]; [7; 73]; [3; 11; 31]; [23; 89];
   [3; 3; 5; 7; 13]; [8191]; [3; 43; 127]; [7; 31; 151]; [3; 5; 17; 257]; [131071];
   [3; 3; 3; 7; 19; 73]; [524287]; [3; 5; 5; 11; 31; 41]; [7; 7; 127; 337]; [3; 23; 89; 683];
   [47; 178481]; [3; 3; 5; 7; 13; 17; 241]; [31; 601; 1801]; [3; 2731; 8191]; [7; 73; 262657];
   [3; 5; 29; 43; 113; 127]; [233; 1103; 2089]; [3; 3; 7; 11; 31; 151; 331]; [2147483647];
   [3; 5; 17; 257; 65537]].

Lemma lfsr_checks :
  forallb (λ n, max_period_check n (cols_of n (lfsr_step (Z.of_nat n)))
                  (default [] (mersenne_factors !! n))) (seq 2 31) = true.
Proof. vm_compute. reflexivity. Qed.

Lemma lfsr_check n : 2 <= n <= 32 →
  max_period_check (Z.to_nat n) (cols_of (Z.to_nat n) (lfsr_step n))
    (default [] (mersenne_factors !! Z.to_nat n)) = true.
Proof.
  intros Hn. pose proof lfsr_checks as H. rewrite forallb_forall in H.
  specialize (H (Z.to_nat n) ltac:(apply in_seq; lia)). by rewrite Z2Nat.id in H by lia.
Qed.

Lemma lfsr_edge s : mode_ s = lfsr →
  reg_ (clock_edge s) = lfsr_step (length_ s) (reg_ s) ∧
  mode_ (clock_edge s) = lfsr ∧ length_ (clock_edge s) = length_ s.
Proof. intros Hm. unfold clock_edge, feedback. by rewrite Hm. Qed.

Lemma lfsr_edges k s : mode_ s = lfsr →
  reg_ (Nat.iter k clock_edge s) = Nat.iter k (lfsr_step (length_ s)) (reg_ s) ∧
  mode_ (Nat.iter k clock_edge s) = lfsr ∧ length_ (Nat.iter k clock_edge s) = length_ s.
Proof.
  intros Hm. induction k as [|k (IHr & IHm & IHl)]; cbn [Nat.iter]; [done|].
  destruct (lfsr_edge _ IHm) as (Hr & Hm' & Hl).
  change (Nat.iter (S k) clock_edge s) with (clock_edge (Nat.iter k clock_edge s)).
  rewrite Hr, Hm', Hl, IHl, IHr. done.
Qed.

(** C16: in LFSR mode, for every register length from 2 to 32, the tap table
    is that of a maximal-length sequence: from any non-zero word the register
    runs through all [2^N - 1] non-zero words and returns to the first one
    after exactly [2^N - 1] clock edges. *)
Theorem lfsr_maximal_period s :
  mode_ s = lfsr → 2 <= length_ s <= 32 → 0 < reg_ s < 2 ^ length_ s →
  let P := Z.to_nat (2 ^ length_ s - 1) in
  let reg k := reg_ (Nat.iter k clock_edge s) in
  reg P = reg_ s ∧ (∀ k, (0 < k < P)%nat → reg k ≠ reg_ s) ∧
  (∀ y, 0 < y < 2 ^ length_ s → ∃ k, (k < P)%nat ∧ reg k = y).
Proof.
  intros Hm Hn Hr. cbv zeta.
  destruct (max_period (Z.to_nat (length_ s)) (lfsr_step (length_ s)) _
              (lfsr_step_linear (length_ s) ltac:(lia)) ltac:(lia) (lfsr_check _ Hn) (reg_ s))
    as (H1 & H2 & H3); [unfold word; rewrite Z2Nat.id by lia; lia|lia|].
  rewrite Z2Nat.id in * by lia. split_and!.
  - rewrite (proj1 (lfsr_edges _ s Hm)). done.
  - intros k Hk. rewrite (proj1 (lfsr_edges _ s Hm)). auto.
  - intros y Hy. destruct (H3 y) as (k & Hk & <-); [unfold word; rewrite Z2Nat.id by lia; lia|lia|].
    exists k. split; [done|]. by rewrite (proj1 (lfsr_edges _ s Hm)).
Qed.

Lemma lfsr_maximal_period_witness :
  let s := make lfsr 16 3 in
  let P := Z.to_nat (2 ^ 16 - 1) in
  let reg k := reg_ (Nat.iter k clock_edge s) in
  reg P = 0xACE1 ∧ (∀ k, (0 < k < P)%nat → reg k ≠ 0xACE1) ∧
  (∀ y, 0 < y < 2 ^ 16 → ∃ k, (k < P)%nat ∧ reg k = y).
Proof.
  apply (lfsr_maximal_period (make lfsr 16 3)); [done|vm_compute; split; discriminate|done].
Defined.

(** ** Invariant *)

Definition unit_range (x : f32) : Prop := in_range f0 f1 x.

Record sr_ok (s : shift_register) : Prop := SrOk {
  sr_len : 2 <= length_ s <= 32;
  sr_dac : 1 <= dac_bits_ s <= Z.min (length_ s) 8;
  sr_reg : 0 <= reg_ s < 2 ^ length_ s;
  sr_nonzero : mode_ s = lfsr → reg_ s ≠ 0;
  sr_rate : in_range (lit32 1 1000) (lit32 1000 1) (clock_rate_ s);
  sr_data : unit_range (data_ s);
  sr_param : unit_range (param_ s);
  sr_depth : unit_range (depth_ s) }.

Lemma make_ok m len dac : sr_ok (make m len dac).
Proof.
  pose proof (clamp_int_range len 2 32 ltac:(lia)) as Hl. unfold make.
  set (n := clamp_int len 2 32) in *.
  pose proof (clamp_int_range dac 1 (Z.min n 8) ltac:(lia)) as Hd.
  split; cbn [length_ dac_bits_ reg_ mode_ clock_rate_ data_ param_ depth_]; try done.
  - rewrite reg_mask_eq by lia. pose proof (land_mask_range n 0xACE1 ltac:(lia)).
    case_if; [|done]. split; [lia|]. apply Z.pow_gt_1; lia.
  - intros _. case_if; bool_to_prop; lia.
Qed.

Lemma clock_edge_ok s : sr_ok s → sr_ok (clock_edge s).
Proof.
  intros Hs. pose proof (lfsr_edge s) as Hedge. unfold clock_edge in *.
  destruct (feedback s) as [b r]. destruct Hs as [Hl Hd Hr Hnz ? ? ? ?].
  split; cbn [length_ dac_bits_ reg_ mode_ clock_rate_ data_ param_ depth_] in *; try done.
  - rewrite reg_mask_eq by lia. apply land_mask_range. lia.
  - intros Hm. destruct (Hedge Hm) as (-> & _).
    pose proof (orbit_map (Z.to_nat (length_ s)) (lfsr_step (length_ s)) _
                  (lfsr_step_linear (length_ s) ltac:(lia)) ltac:(lia) (lfsr_check _ Hl) (reg_ s)) as Ho.
    rewrite Z2Nat.id in Ho by lia. unfold in_orbit in Ho. specialize (Hnz Hm). lia.
Qed.

Lemma set_phase_ok s p : sr_ok s → sr_ok (set_phase s p).
Proof. intros []. by split. Qed.

Lemma tick_ok rate s : sr_ok s → sr_ok (tick rate s).1.
Proof.
  intros Hs. unfold tick. cbv zeta. repeat case_if; cbn [fst]; auto using clock_edge_ok, set_phase_ok.
Qed.

Lemma update_ok key v s : is_nan v = false → sr_ok s → sr_ok (update key v s).
Proof.
  intros Hv Hs. destruct s. unfold update.
  repeat case_if; destruct Hs; split; cbn [length_ dac_bits_ reg_ mode_ clock_rate_ data_ param_ depth_] in *;
    unfold unit_range in *; auto with rt.
Qed.

(** The converter's value over all register contents. *)
Lemma dac_table d raw : 1 <= d <= 8 → 0 <= raw < 2 ^ d →
  in_range fm1 f1 ((f32_of_Z raw /f f32_of_Z (u32 (Z.shiftl 1 d) - 1)) *f f2 -f f1).
Proof.
  intros Hd Hr.
  assert (∀ d, 0 <= d < Z.of_nat 9 → 1 <= d →
    ∀ raw, 0 <= raw < 2 ^ d →
    in_range fm1 f1 ((f32_of_Z raw /f f32_of_Z (u32 (Z.shiftl 1 d) - 1)) *f f2 -f f1)) as Hall;
    [|apply Hall; [simpl; lia|lia|done]].
  clear. intros d Hd Hd1 raw Hraw.
  assert (d = 1 ∨ d = 2 ∨ d = 3 ∨ d = 4 ∨ d = 5 ∨ d = 6 ∨ d = 7 ∨ d = 8) as Hcases by lia.
  unfold in_range. 
  destruct Hcases as [->|[->|[->|[->|[->|[->|[->| ->]]]]]]];
  match type of Hraw with 0 <= _ < 2 ^ ?d =>
    let n := eval vm_compute in (Z.to_nat (2 ^ d)) in
    apply (check_range (λ raw, fm1 <=f ((f32_of_Z raw /f f32_of_Z (u32 (Z.shiftl 1 d) - 1)) *f f2 -f f1) = true ∧
             ((f32_of_Z raw /f f32_of_Z (u32 (Z.shiftl 1 d) - 1)) *f f2 -f f1) <=f f1 = true) n);
    [vm_compute; reflexivity|simpl; lia]
  end.
Qed.

Lemma dac_output_range s : sr_ok s → in_range fm1 f1 (dac_output s).
Proof.
  intros [Hl Hd Hr _ _ _ _ _]. unfold dac_output. apply dac_table; [lia|].
  assert (u32 (Z.shiftl 1 (dac_bits_ s)) = 2 ^ dac_bits_ s) as ->.
  { rewrite Z.shiftl_1_l. apply u32_small. unfold is_u32.
    split; [lia|]. apply Z.pow_lt_mono_r; lia. }
  apply land_mask_range. lia.
Qed.

(** A life of the modulator: ticks at any rate and parameter updates. *)
Inductive sr_op := SrTick (rate : f32) | SrUpdate (key : string) (value : f32).

Fixpoint sr_run (s : shift_register) (ops : list sr_op) : shift_register * list modulator_output :=
  match ops with
  | [] => (s, [])
  | SrTick rate :: ops =>
      let '(s, o) := tick rate s in let '(s, os) := sr_run s ops in (s, o :: os)
  | SrUpdate k v :: ops => sr_run (update k v s) ops
  end.

Definition sr_op_ok (o : sr_op) : Prop :=
  match o with SrTick _ => True | SrUpdate _ v => is_nan v = false end.

Lemma tick_out rate s : (tick rate s).2 =
  sr_out (tick rate s).1 (gate (tick rate s).2) ∧ mode_ (tick rate s).1 = mode_ s ∧
  length_ (tick rate s).1 = length_ s.
Proof.
  unfold tick. cbv zeta. do 2 (case_if; [done|]). cbn [fst snd]. split; [done|].
  unfold clock_edge. by destruct (feedback _).
Qed.

(** C38: whatever the constructor's arguments and whatever ticks and updates
    (with numbers) follow, the length stays in [2, 32], the converter width in
    [1, 8], the parameters in their ranges, and every output's [.state] is an
    [N]-bit word, non-zero in LFSR mode, with [.cv] the depth times a value of
    [-1, 1]. *)
Theorem shift_register_invariant ops m len dac :
  Forall sr_op_ok ops →
  let '(s, outs) := sr_run (make m len dac) ops in
  sr_ok s ∧
  Forall (λ o, 0 <= state o < 2 ^ length_ s ∧ (m = lfsr → state o ≠ 0) ∧
               ∃ d depth, in_range fm1 f1 d ∧ unit_range depth ∧ cv o = d *f depth) outs.
Proof.
  assert (∀ s, sr_ok s → Forall sr_op_ok ops →
    let '(s', outs) := sr_run s ops in sr_ok s' ∧ length_ s' = length_ s ∧
    Forall (λ o, 0 <= state o < 2 ^ length_ s ∧ (mode_ s = lfsr → state o ≠ 0) ∧
               ∃ d depth, in_range fm1 f1 d ∧ unit_range depth ∧ cv o = d *f depth) outs) as Hgen.
  { induction ops as [|[rate|k v] ops IH]; intros s Hs Hops; cbn [sr_run]; [done|inv Hops as [|? ? Hop Hops']..].
    - destruct (tick_out rate s) as (Ho & Hm & Hl). pose proof (tick_ok rate s Hs) as Hs1.
      destruct (tick rate s) as [s1 o]. cbn [fst snd] in *. specialize (IH s1 Hs1 Hops').
      destruct (sr_run s1 ops) as [s' os]. rewrite Hl, Hm in IH. destruct IH as (? & ? & Hall).
      split; [done|]. split; [done|]. constructor; [|done]. rewrite Ho. cbn [state sr_out cv].
      split; [rewrite <- Hl; apply Hs1|]. split; [rewrite <- Hm; apply Hs1|].
      exists (dac_output s1), (depth_ s1). split; [by apply dac_output_range|].
      split; [apply Hs1|done].
    - specialize (IH (update k v s) (update_ok k v s Hop Hs) Hops').
      assert (length_ (update k v s) = length_ s ∧ mode_ (update k v s) = mode_ s) as [<- <-]; [|done].
      destruct s. unfold update. by repeat case_if. }
  intros Hops. specialize (Hgen (make m len dac) (make_ok m len dac) Hops).
  destruct (sr_run _ ops) as [s outs]. by destruct Hgen as (? & -> & ?).
Qed.

Lemma shift_register_invariant_witness :
  let '(s, outs) := sr_run (make turing 40 3) [SrUpdate "depth" f2; SrTick (lit32 375 1); SrTick f1] in
  sr_ok s ∧
  Forall (λ o, 0 <= state o < 2 ^ length_ s ∧ (turing = lfsr → state o ≠ 0) ∧
               ∃ d depth, in_range fm1 f1 d ∧ unit_range depth ∧ cv o = d *f depth) outs.
Proof.
  apply (shift_register_invariant [SrUpdate "depth" f2; SrTick (lit32 375 1); SrTick f1] turing 40 3).
  by repeat constructor.
Defined.
