(* ===== verification/Logic.v ===== *)
(** The gate and voltage logic modulators: cipher, divine CMOS, bools ring,
    statues, CV channel decoder and let's splosh ([src/*_modulator.hpp/.cpp],
    [src/cv_channel_decoder.hpp/.cpp]), one Module each. *)
From S2P Require Import Prelude Binary Modulator.
Local Open Scope Z_scope.

(** [gate] of a source, or the level of a direct input. *)
Definition read_gate_level engine src lo (fallback : f32) : bool :=
  match read_src engine src lo with Some o => gate o | None => fallback >f fhalf end.

Definition bit (x : Z) (i : Z) : bool := negb (Z.land (Z.shiftr x i) 1 =? 0).

(** Sum of the weights whose flag is set, in order. *)
Definition weighted_sum (ws : list (bool * f32)) : f32 :=
  foldl (λ acc '(b, w), if (b : bool) then acc +f w else acc) f0 ws.

(** The one-pole smoothing of divine CMOS and bools ring. *)
Definition slew_alpha `{Libm} (slew tick_rate_hz : f32) : f32 :=
  let tc := slew *f lit32 4 1 in
  if (tick_rate_hz >f f0) && (tc >f f0) then expf (fm1 /f (tc *f tick_rate_hz)) else f0.
Definition slew_step `{Libm} (slew tick_rate_hz st x : f32) : f32 :=
  let alpha := slew_alpha slew tick_rate_hz in alpha *f st +f (f1 -f alpha) *f x.

(** ** Cipher *)

Module Cipher.
Record cipher := Mk {
  engine_ : bool; clock_src_ : string; data1_src_ : string; data2_src_ : string;
  strobe_src_ : string; inner_reg_ : Z; output_reg_ : Z; clock_prev_ : bool;
  clock_pending_ : bool; serial_out_ : bool; data1_ : f32; data2_ : f32; strobe_ : f32 }.

Definition make engine clock data1 data2 strobe : cipher :=
  Mk engine clock data1 data2 strobe 0 0 false false false f0 fm1 f0.

Definition kWeights : list f32 :=
  Eval vm_compute in [lit32 5 100; lit32 11 100; lit32 25 100; lit32 53 100].
Definition kWeightSum : f32 := Eval vm_compute in
  lit32 5 100 +f lit32 11 100 +f lit32 25 100 +f lit32 53 100.
Definition kCVBits : list (list Z) := [[0; 3; 4; 7]; [0; 1; 4; 5]; [1; 2; 5; 6]; [2; 3; 6; 7]].

Definition project_cv (output_reg : Z) (cv_idx : nat) : f32 :=
  weighted_sum (zip (map (bit output_reg) (default [] (kCVBits !! cv_idx))) kWeights) /f kWeightSum.

(** The new LSB on a clock edge. *)
Definition bit_in lo (s : cipher) : bool :=
  let d1 := read_gate_level (engine_ s) (data1_src_ s) lo (data1_ s) in
  if negb (data2_src_ s =? "")%string || (data2_ s >=f f0) then
    let d2 := if negb (data2_src_ s =? "")%string then read_gate_src (engine_ s) (data2_src_ s) lo
              else data2_ s >f fhalf in
    d1 || d2
  else
    let fb := xorb (bit (inner_reg_ s) 7) (bit (inner_reg_ s) 0) in fb || d1.

Definition shift (inner : Z) (b : bool) : Z := u8 (Z.lor (Z.shiftl inner 1) (if b then 1 else 0)).

Definition tick lo (s : cipher) : cipher * modulator_output :=
  let clk := if negb (clock_src_ s =? "")%string then read_gate_src (engine_ s) (clock_src_ s) lo
             else false in
  let clock_edge := (clk && negb (clock_prev_ s)) || clock_pending_ s in
  let serial := if clock_edge then bit (inner_reg_ s) 7 else false in
  let inner := if clock_edge then shift (inner_reg_ s) (bit_in lo s) else inner_reg_ s in
  let strobe_active := read_gate_level (engine_ s) (strobe_src_ s) lo (strobe_ s) in
  let output := if strobe_active then output_reg_ s else inner in
  (Mk (engine_ s) (clock_src_ s) (data1_src_ s) (data2_src_ s) (strobe_src_ s) inner output
     clk false serial (data1_ s) (data2_ s) (strobe_ s),
   Out (project_cv output 0) (project_cv output 1) serial strobe_active output
     (set_outputs (map (project_cv output) (seq 0 4)))).

Definition update (key : string) (value : f32) (s : cipher) : cipher :=
  let 'Mk e c a b st i o p pe so d1 d2 sb := s in
  if (key =? "data1")%string then Mk e c a b st i o p pe so value d2 sb
  else if (key =? "data2")%string then Mk e c a b st i o p pe so d1 value sb
  else if (key =? "strobe")%string then Mk e c a b st i o p pe so d1 d2 value
  else if (key =? "clock_tick")%string && (value >f fhalf) then Mk e c a b st i o p true so d1 d2 sb
  else if (key =? "data2_enable")%string then
    Mk e c a b st i o p pe so d1 (if value >f fhalf then f0 else fm1) sb
  else s.

#[export] Instance cipher_modulator : Modulator cipher := {
  mtick lo _ _ s := Some (tick lo s); mupdate k v s := Some (update k v s) }.
End Cipher.

(** ** Divine CMOS *)

Module DivineCmos.
Section divine.
Context `{Libm}.

Record divine_cmos := Mk {
  engine_ : bool; clock1_src_ : string; clock2_src_ : string; gains_ : list f32; slew_ : f32;
  counter1_ : Z; counter2_ : Z; clock1_prev_ : bool; clock2_prev_ : bool;
  clock1_pending_ : bool; clock2_pending_ : bool; slew_state_ : f32 }.

Definition make engine c1 c2 : divine_cmos :=
  Mk engine c1 c2 (replicate 4 f1) f0 0 0 false false false false f0.

(** Holds the last value when there is no source. *)
Definition read_gate engine src lo (prev : bool) : bool :=
  match read_src engine src lo with Some o => gate o | None => prev end.

(** One clock input: counter, previous gate and pending edge. *)
Definition advance (g : bool) (counter : Z) (prev pending : bool) : Z * bool * bool :=
  if (g && negb prev) || pending then (Z.land (counter + 1) 0x0F, g, false)
  else (counter, g, pending).

Definition main_out (gains : list f32) (xor_bits : Z) : f32 :=
  let gain_sum := foldl fadd f0 gains in
  let raw := weighted_sum (zip (map (bit xor_bits) [0; 1; 2; 3]) gains) in
  if gain_sum >f f0 then raw /f gain_sum else f0.

Definition tick lo (tick_rate_hz : f32) (s : divine_cmos) : divine_cmos * modulator_output :=
  let '(c1, p1, n1) := advance (read_gate (engine_ s) (clock1_src_ s) lo (clock1_prev_ s))
                         (counter1_ s) (clock1_prev_ s) (clock1_pending_ s) in
  let '(c2, p2, n2) := advance (read_gate (engine_ s) (clock2_src_ s) lo (clock2_prev_ s))
                         (counter2_ s) (clock2_prev_ s) (clock2_pending_ s) in
  let xor_bits := Z.land (Z.lxor c1 c2) 0x0F in
  let main := main_out (gains_ s) xor_bits in
  let slew_state := slew_step (slew_ s) tick_rate_hz (slew_state_ s) main in
  (Mk (engine_ s) (clock1_src_ s) (clock2_src_ s) (gains_ s) (slew_ s) c1 c2 p1 p2 n1 n2 slew_state,
   Out main slew_state (negb (Z.land xor_bits 1 =? 0)) (negb (Z.land xor_bits 2 =? 0)) xor_bits
     no_outputs).

Definition update (key : string) (value : f32) (s : divine_cmos) : divine_cmos :=
  let 'Mk e s1 s2 g sl c1 c2 p1 p2 n1 n2 st := s in
  let gain i := Mk e s1 s2 (<[i := clampf value f0 (lit32 5 1)]> g) sl c1 c2 p1 p2 n1 n2 st in
  if (key =? "gain0")%string then gain 0%nat
  else if (key =? "gain1")%string then gain 1%nat
  else if (key =? "gain2")%string then gain 2%nat
  else if (key =? "gain3")%string then gain 3%nat
  else if (key =? "slew")%string then Mk e s1 s2 g (clampf value f0 f1) c1 c2 p1 p2 n1 n2 st
  else if (key =? "clock1_tick")%string && (value >f fhalf) then Mk e s1 s2 g sl c1 c2 p1 p2 true n2 st
  else if (key =? "clock2_tick")%string && (value >f fhalf) then Mk e s1 s2 g sl c1 c2 p1 p2 n1 true st
  else s.

#[export] Instance divine_cmos_modulator : Modulator divine_cmos := {
  mtick lo _ r s := Some (tick lo r s); mupdate k v s := Some (update k v s) }.
End divine.
End DivineCmos.

(** ** Bools ring *)

Module BoolsRing.
Section bools.
Context `{Libm}.

Inductive mode := xor_mode | or_mode | and_mode | nor_mode | nand_mode | xnor_mode.

Record bools_ring := Mk {
  mode_ : mode; engine_ : bool; src_ : list string; sample_src_ : string; inputs_ : list f32;
  slew_ : f32; sampled_ : bool; sample_pending_ : bool; sample_prev_ : bool;
  slew_state_ : f32; latched_out_ : Z }.

Definition make m engine (src : list string) sample_src : bools_ring :=
  Mk m engine src sample_src (replicate 4 f0) f0 false false false f0 0.

Definition apply_logic (m : mode) (a b : bool) : bool :=
  match m with
  | xor_mode => xorb a b | or_mode => a || b | and_mode => a && b
  | nor_mode => negb (a || b) | nand_mode => negb (a && b) | xnor_mode => negb (xorb a b)
  end.

Definition kStepWeights : list f32 :=
  Eval vm_compute in [lit32 55 100; lit32 109 100; lit32 219 100; lit32 437 100].
Definition kStepMax : f32 := Eval vm_compute in
  lit32 55 100 +f lit32 109 100 +f lit32 219 100 +f lit32 437 100.

(** [ins[i]] with [ins[(i + 1) & 3]], for [i] from 0 to 3. *)
Definition ring (m : mode) (ins : list bool) : Z :=
  bitmap (map (λ i, apply_logic m (nth i ins false) (nth (Nat.land (i + 1) 3) ins false)) (seq 0 4)).

Definition step_dac (bits : Z) : f32 :=
  weighted_sum (zip (map (bit bits) [0; 1; 2; 3]) kStepWeights) /f kStepMax.

Definition tick lo (tick_rate_hz : f32) (s : bools_ring) : bools_ring * modulator_output :=
  let ins := zip_with (λ src v, read_gate_level (engine_ s) src lo v) (src_ s) (inputs_ s) in
  let bits := ring (mode_ s) ins in
  let '(bits, prev, pending, latched) :=
    if sampled_ s then
      let sgate := if negb (sample_src_ s =? "")%string
                   then read_gate_level (engine_ s) (sample_src_ s) lo f0 else false in
      let edge := (sgate && negb (sample_prev_ s)) || sample_pending_ s in
      let latched := if edge then bits else latched_out_ s in
      (latched, sgate, false, latched)
    else (bits, sample_prev_ s, sample_pending_ s, latched_out_ s) in
  let step_norm := step_dac bits in
  let slew_state := slew_step (slew_ s) tick_rate_hz (slew_state_ s) step_norm in
  (Mk (mode_ s) (engine_ s) (src_ s) (sample_src_ s) (inputs_ s) (slew_ s) (sampled_ s)
     pending prev slew_state latched,
   Out step_norm slew_state (negb (Z.land bits 1 =? 0)) (negb (Z.land bits 2 =? 0)) bits no_outputs).

Definition update (key : string) (value : f32) (s : bools_ring) : bools_ring :=
  let 'Mk m e src ss i sl sa pe pr st la := s in
  let input n := Mk m e src ss (<[n := value]> i) sl sa pe pr st la in
  if (key =? "in0")%string then input 0%nat
  else if (key =? "in1")%string then input 1%nat
  else if (key =? "in2")%string then input 2%nat
  else if (key =? "in3")%string then input 3%nat
  else if (key =? "slew")%string then Mk m e src ss i (clampf value f0 f1) sa pe pr st la
  else if (key =? "sampled")%string then Mk m e src ss i sl (value >f fhalf) pe pr st la
  else if (key =? "sample_tick")%string && (value >f fhalf) then Mk m e src ss i sl sa true pr st la
  else s.

#[export] Instance bools_ring_modulator : Modulator bools_ring := {
  mtick lo _ r s := Some (tick lo r s); mupdate k v s := Some (update k v s) }.
End bools.
End BoolsRing.

(** ** Statues *)

Module Statues.
Record statues := Mk {
  engine_ : bool; in_source_id_ : string; addr_source_id_ : string; slots_ : list f32;
  in_ : f32; addr_ : Z; addr_bits_ : list bool; use_addr_bits_ : bool; prev_addr_ : Z }.

Definition make engine in_src addr_src : statues :=
  Mk engine in_src addr_src (replicate 8 f0) f0 0 [false; false; false] false (-1).

Definition address lo (s : statues) : Z :=
  let direct :=
    if use_addr_bits_ s then
      Z.lor (Z.lor (if nth 0 (addr_bits_ s) false then 1 else 0) (if nth 1 (addr_bits_ s) false then 2 else 0))
            (if nth 2 (addr_bits_ s) false then 4 else 0)
    else addr_ s in
  let addr :=
    if engine_ s && negb (addr_source_id_ s =? "")%string then
      match lo (addr_source_id_ s) with
      | Some out => Z.land (i32 (state out)) 0x7
      | None => addr_ s
      end
    else direct in
  clamp_int addr 0 7.

Definition in_value lo (s : statues) : f32 := read_cv_src (engine_ s) (in_source_id_ s) lo (in_ s).

Definition tick lo (s : statues) : statues * modulator_output :=
  let in_val := in_value lo s in
  let addr := address lo s in
  let slots := <[Z.to_nat addr := in_val]> (slots_ s) in
  (Mk (engine_ s) (in_source_id_ s) (addr_source_id_ s) slots (in_ s) (addr_ s) (addr_bits_ s)
     (use_addr_bits_ s) addr,
   Out (nth (Z.to_nat addr) slots f0) in_val (negb (addr =? prev_addr_ s)) false addr
     (set_outputs slots)).

Definition update (key : string) (value : f32) (s : statues) : option statues :=
  let 'Mk e i a sl v ad b u p := s in
  let addr_bit n := Some (Mk e i a sl v ad (<[n := value >f fhalf]> b) true p) in
  if (key =? "in")%string then Some (Mk e i a sl (clampf value fm1 f1) ad b u p)
  else if (key =? "addr")%string then
    r ← f_round_int value; Some (Mk e i a sl v (clamp_int r 0 7) b false p)
  else if (key =? "addr0")%string then addr_bit 0%nat
  else if (key =? "addr1")%string then addr_bit 1%nat
  else if (key =? "addr2")%string then addr_bit 2%nat
  else Some s.

#[export] Instance statues_modulator : Modulator statues := {
  mtick lo _ _ s := Some (tick lo s); mupdate := update }.
End Statues.

(** ** CV channel decoder *)

Module CvChannel.
Inductive source_field := field_cv | field_aux | field_gate.

Record cv_channel := Mk {
  channels_ : Z; engine_ : bool; source_id_ : string; source_field_ : source_field; span_ : f32;
  space_ : f32; prev_span_ : f32; first_tick_ : bool; clocked_ : bool; clock_pending_ : bool;
  latched_state_ : Z }.

Definition make channels engine src field : cv_channel :=
  Mk (clamp_int channels 1 8) engine src field f0 f1 f0 true false false 0.

Definition read_span lo (s : cv_channel) : f32 :=
  match read_src (engine_ s) (source_id_ s) lo with
  | Some o => match source_field_ s with
              | field_cv => cv o | field_aux => aux o
              | field_gate => if gate o then f1 else fm1
              end
  | None => span_ s
  end.

Definition window (channels : Z) (space : f32) (ch : Z) : f32 * f32 :=
  let n := f32_of_Z channels in
  let hw := f1 /f n in
  let ctr := fm1 +f (f2 *f f32_of_Z ch +f f1) /f n in
  (ctr -f space *f hw, ctr +f space *f hw).

Definition channel_active (s : cv_channel) (ch : Z) (span : f32) : bool :=
  let '(lo, hi) := window (channels_ s) (space_ s) ch in (span >=f lo) && (span <=f hi).

Definition tick lo (tick_rate_hz : f32) (s : cv_channel) : cv_channel * modulator_output :=
  let span := read_span lo s in
  let velocity :=
    if negb (first_tick_ s) && (tick_rate_hz >f f0)
    then fmin f1 (SFabs (span -f prev_span_ s) *f tick_rate_hz *f fhalf) else f0 in
  let bits := bitmap (map (λ i, channel_active s (Z.of_nat i) span) (seq 0 (Z.to_nat (channels_ s)))) in
  let '(bits, pending, latched) :=
    if clocked_ s then
      if clock_pending_ s then (bits, false, bits)
      else (latched_state_ s, clock_pending_ s, latched_state_ s)
    else (bits, clock_pending_ s, latched_state_ s) in
  (Mk (channels_ s) (engine_ s) (source_id_ s) (source_field_ s) (span_ s) (space_ s) span false
     (clocked_ s) pending latched,
   Out velocity span (negb (bits =? 0)) false bits no_outputs).

Definition update (key : string) (value : f32) (s : cv_channel) : cv_channel :=
  let 'Mk c e i f sp w p ft cl pe la := s in
  if (key =? "span")%string then Mk c e i f (clampf value fm1 f1) w p ft cl pe la
  else if (key =? "space")%string then Mk c e i f sp (clampf value f0 f2) p ft cl pe la
  else if (key =? "clocked")%string then Mk c e i f sp w p ft (value >f fhalf) pe la
  else if (key =? "clock_tick")%string && (value >f fhalf) then Mk c e i f sp w p ft cl true la
  else s.

#[export] Instance cv_channel_modulator : Modulator cv_channel := {
  mtick lo _ r s := Some (tick lo r s); mupdate k v s := Some (update k v s) }.
End CvChannel.

(** ** Let's splosh *)

Module Splosh.
Record lets_splosh := Mk { engine_ : bool; src_ : list string; inputs_ : list f32 }.

Definition make engine (src : list string) : lets_splosh := Mk engine src (replicate 4 f0).

Definition inputs lo (s : lets_splosh) : list f32 :=
  zip_with (λ src v, read_cv_src (engine_ s) src lo v) (src_ s) (inputs_ s).

(** The inputs whose bit in the mask is [b], summed in order. *)
Definition group_sum (b : bool) (m : Z) (ins : list f32) : f32 :=
  weighted_sum (zip (map (λ i, eqb (bit m (Z.of_nat i)) b) (seq 0 (length ins))) ins).

Definition partition (ins : list f32) (m : Z) : f32 :=
  fmax f0 (group_sum true m ins -f group_sum false m ins).

Definition tick lo (s : lets_splosh) : lets_splosh * modulator_output :=
  let ins := inputs lo s in
  let outs := map (λ m, partition ins (Z.of_nat m)) (seq 0 16) in
  let aux := nth 15 outs f0 in
  (s, Out (nth 7 outs f0) aux (aux >f f0) false (bitmap (map (λ x, x >f fhalf) ins))
        (set_outputs outs)).

Definition update (key : string) (value : f32) (s : lets_splosh) : lets_splosh :=
  let input n := Mk (engine_ s) (src_ s) (<[n := value]> (inputs_ s)) in
  if (key =? "c")%string then input 0%nat
  else if (key =? "t")%string then input 1%nat
  else if (key =? "n")%string then input 2%nat
  else if (key =? "b")%string then input 3%nat
  else s.

#[export] Instance lets_splosh_modulator : Modulator lets_splosh := {
  mtick lo _ _ s := Some (tick lo s); mupdate k v s := Some (update k v s) }.
End Splosh.
