(* ===== verification/Signal.v ===== *)
(** The continuous and random modulators: slope, segment, slew, fractal,
    stochastic and the Faust wrapper ([src/*_modulator.hpp/.cpp],
    [include/nomos/rt/dsp_block.hpp]), one Module each. *)
From S2P Require Import Prelude Binary Modulator.
Local Open Scope Z_scope.

Definition kTwoPi : f32 := Eval vm_compute in
  f2 *f lit32 314159265358979323846 100000000000000000000.

(** [std::round] of a [float]. *)
Definition fround (x : f32) : f32 :=
  match x with
  | S754_finite s m e =>
      if (0 <=? e)%Z then x else binary_normalize 24 128 (cond_Zopp s (scaled m e true)) 0 s
  | _ => x
  end.

(** ** Slope *)

Module Slope.
Section slope.
Context `{Libm}.

Record slope := Mk {
  rate_ : f32; shape_ : f32; slope_ : f32; smoothness_ : f32; depth_ : f32; bipolar_ : bool;
  phase_ : f32; smooth_state_ : f32; last_output_ : f32 }.

Definition make : slope := Mk f1 f0 f0 f0 f1 true f0 fhalf f0.

(** Phase with the peak moved to [attack]. *)
Definition skewed (slope phase : f32) : f32 :=
  let attack := clampf (fhalf +f slope *f lit32 49 100) (lit32 1 100) (lit32 99 100) in
  if phase <f attack then phase /f attack *f fhalf
  else fhalf +f (phase -f attack) /f (f1 -f attack) *f fhalf.

Definition waveform (shape p : f32) : f32 :=
  let tri := if p <f fhalf then p *f f2 else (f1 -f p) *f f2 in
  let sin_v := fhalf -f fhalf *f cosf (kTwoPi *f p) in
  if shape <=f f0 then tri +f (shape +f f1) *f (sin_v -f tri)
  else powf (fmax sin_v (lit32 1 1000000)) (f1 +f shape *f f2).

(** The new filter state and the output. *)
Definition smooth (smoothness st output : f32) : f32 * f32 :=
  if smoothness <f f0 then
    let c := f1 +f smoothness in
    let st := st +f c *f c *f (output -f st) in (st, st)
  else if smoothness >f f0 then
    let x := output *f (f1 +f smoothness *f lit32 3 1) in
    let x := ffmod x f2 in
    (st, if x >f f1 then f2 -f x else x)
  else (st, output).

Definition tick (tick_rate_hz : f32) (s : slope) : slope * modulator_output :=
  if tick_rate_hz <=f f0 then (s, out_cv (last_output_ s))
  else
    let phase := phase_ s +f rate_ s /f tick_rate_hz in
    let phase := if phase >=f f1 then phase -f f1 else phase in
    let output := waveform (shape_ s) (skewed (slope_ s) phase) in
    let '(st, output) := smooth (smoothness_ s) (smooth_state_ s) output in
    let output := if bipolar_ s then output *f f2 -f f1 else output in
    let last := output *f depth_ s in
    (Mk (rate_ s) (shape_ s) (slope_ s) (smoothness_ s) (depth_ s) (bipolar_ s) phase st last,
     out_cv last).

Definition update (key : string) (value : f32) (s : slope) : slope :=
  let 'Mk r sh sl sm d b p st lo := s in
  if (key =? "rate")%string then Mk (clampf value (lit32 1 1000) (lit32 100 1)) sh sl sm d b p st lo
  else if (key =? "shape")%string then Mk r (clampf value fm1 f1) sl sm d b p st lo
  else if (key =? "slope")%string then Mk r sh (clampf value fm1 f1) sm d b p st lo
  else if (key =? "smoothness")%string then Mk r sh sl (clampf value fm1 f1) d b p st lo
  else if (key =? "depth")%string then Mk r sh sl sm (clampf value f0 f1) b p st lo
  else if (key =? "bipolar")%string then Mk r sh sl sm d (value >=f fhalf) p st lo
  else s.

#[export] Instance slope_modulator : Modulator slope := {
  mtick _ _ r s := Some (tick r s); mupdate k v s := Some (update k v s) }.
End slope.
End Slope.

(** ** Segment *)

Module Segment.
Inductive type := ramp | step | hold | alt.
Record segment_def := Def { kind : type; primary : f32; secondary : f32; loop : bool }.
Record segment := Mk {
  defs_ : list segment_def; n_defs_ : Z; depth_ : f32; rate_ : f32; phase_ : f32;
  cur_seg_ : Z; cycle_count_ : Z; seg_start_val_ : f32; cur_output_ : f32 }.

Definition kMaxSegments : nat := 36.
Definition default_def : segment_def := Def ramp fhalf fhalf false.

(** Reading [segments[0]] of an empty span is undefined. *)
Definition make (segments : list segment_def) : option segment :=
  match segments with
  | [] => None
  | _ =>
      let n := clamp_int (Z.of_nat (length segments)) 1 36 in
      let used := take (Z.to_nat n) segments in
      Some (Mk (used ++ replicate (kMaxSegments - length used) default_def) n f1 f1 f0 0 0 f0 f0)
  end.

Definition seg_output (d : segment_def) (start local_p : f32) (cycle : Z) : f32 :=
  match kind d with
  | ramp => start +f local_p *f (primary d -f start)
  | step => primary d
  | hold => start
  | alt => if (Z.rem cycle 2 =? 0)%Z then primary d else secondary d
  end.

Definition tick (tick_rate_hz : f32) (s : segment) : option (segment * modulator_output) :=
  if tick_rate_hz <=f f0 then Some (s, out_cv (cur_output_ s *f depth_ s))
  else
    let n := n_defs_ s in
    let phase := phase_ s +f rate_ s /f tick_rate_hz in
    let wrapped := phase >=f f1 in
    let phase := if wrapped then phase -f f1 else phase in
    cycle ← (if wrapped then int32 (cycle_count_ s + 1) else Some (cycle_count_ s));
    let seg_phase := phase *f f32_of_Z n in
    whole ← f_to_int seg_phase;
    let new_seg := Z.rem whole n in
    let local_p := seg_phase -f ffloor seg_phase in
    let start := if negb (new_seg =? cur_seg_ s) then cur_output_ s else seg_start_val_ s in
    d ← (if (0 <=? new_seg) then defs_ s !! Z.to_nat new_seg else None);
    let output := clampf (seg_output d start local_p cycle) f0 f1 in
    Some (Mk (defs_ s) n (depth_ s) (rate_ s) phase new_seg cycle start output,
          out_cv (output *f depth_ s)).

(** [key.find('_')]: what is before and after the first underscore. *)
Fixpoint split_underscore (s : string) : option (string * string) :=
  match s with
  | EmptyString => None
  | String c s =>
      if Ascii.eqb c (Ascii.ascii_of_nat 95) (* '_' *) then Some (EmptyString, s)
      else match split_underscore s with Some (a, b) => Some (String c a, b) | None => None end
  end.

(** The decimal loop: undefined on overflow (outer), not a number (inner). *)
Fixpoint decimal (s : string) (idx : Z) : option (option Z) :=
  match s with
  | EmptyString => Some (Some idx)
  | String c s =>
      let v := Z.of_nat (Ascii.nat_of_ascii c) in
      if (v <? 48) || (57 <? v) then Some None
      else i10 ← int32 (idx * 10); i ← int32 (i10 + (v - 48)); decimal s i
  end.

Definition set_def (i : nat) (d : segment_def) (s : segment) : segment :=
  Mk (<[i := d]> (defs_ s)) (n_defs_ s) (depth_ s) (rate_ s) (phase_ s) (cur_seg_ s)
    (cycle_count_ s) (seg_start_val_ s) (cur_output_ s).

Definition update (key : string) (value : f32) (s : segment) : option segment :=
  let 'Mk ds n d r p c cy st o := s in
  if (key =? "depth")%string then Some (Mk ds n (clampf value f0 f1) r p c cy st o)
  else if (key =? "rate")%string then
    Some (Mk ds n d (clampf value (lit32 1 1000) (lit32 100 1)) p c cy st o)
  else if (String.length key <=? 8)%nat || negb (String.prefix "segment_" key) then Some s
  else
    match split_underscore (String.substring 8 (String.length key - 8) key) with
    | None => Some s
    | Some (digits, field) =>
        r ← decimal digits 0;
        match r with
        | None => Some s
        | Some idx =>
            if (idx <? 0) || (n <=? idx) then Some s
            else
              let i := Z.to_nat idx in
              let v := clampf value f0 f1 in
              df ← ds !! i;
              Some (if (field =? "primary")%string
                    then set_def i (Def (kind df) v (secondary df) (loop df)) s
                    else if (field =? "secondary")%string
                    then set_def i (Def (kind df) (primary df) v (loop df)) s
                    else s)
        end
    end.

#[export] Instance segment_modulator : Modulator segment := {
  mtick _ _ r s := tick r s; mupdate := update }.
End Segment.

(** ** Slew *)

Module Slew.
Section slew.
Context `{Libm}.

Inductive stage := idle | rising | falling.
Record slew := Mk {
  rise_ : f32; fall_ : f32; input_ : f32; depth_ : f32; cycle_ : bool; stage_ : stage;
  current_ : f32; trig_pending_ : bool; eor_ : bool; eoc_ : bool }.

Definition make : slew :=
  Mk (lit32 1 10) (lit32 1 10) f0 f1 false idle f0 false false false.

Definition coeff (time_s tick_rate_hz : f32) : f32 :=
  f1 -f expf (lit32 (-22) 10 /f (time_s *f tick_rate_hz)).

Definition approach (current target time_s rate : f32) : f32 :=
  current +f (target -f current) *f coeff time_s rate.

Definition kThresh : f32 := lit32 1 1000.

(** The stage after trigger and cycle have been looked at. *)
Definition armed (s : slew) : stage * f32 :=
  let '(st, cur) := if trig_pending_ s then (rising, fm1) else (stage_ s, current_ s) in
  (match st with idle => if cycle_ s then rising else idle | _ => st end, cur).

(** New stage and value, end of rise, end of cycle. *)
Definition move (s : slew) (st : stage) (cur rate : f32) : stage * f32 * bool * bool :=
  match st with
  | idle =>
      let time_s := if input_ s >=f cur then rise_ s else fall_ s in
      (idle, approach cur (input_ s) time_s rate, false, false)
  | rising =>
      let cur := approach cur f1 (rise_ s) rate in
      if cur >=f f1 -f kThresh then (falling, f1, true, false) else (rising, cur, false, false)
  | falling =>
      let cur := approach cur fm1 (fall_ s) rate in
      if cur <=f fm1 +f kThresh then (idle, fm1, false, true) else (falling, cur, false, false)
  end.

Definition tick (tick_rate_hz : f32) (s : slew) : slew * modulator_output :=
  if tick_rate_hz <=f f0 then
    (Mk (rise_ s) (fall_ s) (input_ s) (depth_ s) (cycle_ s) (stage_ s) (current_ s)
       (trig_pending_ s) false false, out_cv (current_ s *f depth_ s))
  else
    let '(st, cur) := armed s in
    let '(st, cur, eor, eoc) := move s st cur tick_rate_hz in
    (Mk (rise_ s) (fall_ s) (input_ s) (depth_ s) (cycle_ s) st cur false eor eoc,
     Out (cur *f depth_ s) f0 eor eoc 0 no_outputs).

Definition update (key : string) (value : f32) (s : slew) : slew :=
  let 'Mk r f i d c st cu tr eo ec := s in
  if (key =? "rise")%string then Mk (clampf value (lit32 1 1000) (lit32 10 1)) f i d c st cu tr eo ec
  else if (key =? "fall")%string then Mk r (clampf value (lit32 1 1000) (lit32 10 1)) i d c st cu tr eo ec
  else if (key =? "input")%string then Mk r f (clampf value fm1 f1) d c st cu tr eo ec
  else if (key =? "depth")%string then Mk r f i (clampf value f0 f1) c st cu tr eo ec
  else if (key =? "cycle")%string then Mk r f i d (value >f fhalf) st cu tr eo ec
  else if (key =? "trig")%string && (value >f fhalf) then Mk r f i d c st cu true eo ec
  else s.

#[export] Instance slew_modulator : Modulator slew := {
  mtick _ _ r s := Some (tick r s); mupdate k v s := Some (update k v s) }.
End slew.
End Slew.

(** ** Fractal *)

Module Fractal.
Section fractal.
Context `{Libm}.

Definition kMaxOctaves : nat := 8.
Definition kSeeds : list Z :=
  [0xACE1; 0xDEAD; 0xBEEF; 0xCAFE; 0x1234; 0x5678; 0x9ABC; 0xDEF0].
Definition kPhi : f32 := lit32 618034 1000000.

Record fractal := Mk {
  base_rate_ : f32; lacunarity_ : f32; persistence_ : f32; threshold_ : f32; depth_ : f32;
  octaves_ : Z; shape_ : Z; phase_ : list f32; held_ : list f32; rand_ : list Z;
  prev_output_ : f32; gate_out_ : bool }.

(** One draw in [-1, 1), and the generator's next state. *)
Definition draw (r : Z) : Z * f32 :=
  let '(r, u) := next_random r in (r, u *f f2 -f f1).

Definition make : fractal :=
  Mk (lit32 1 10) f2 fhalf (lit32 2 10) f1 4 0
    (map (λ i, ffmod (f32_of_Z (Z.of_nat i) *f kPhi) f1) (seq 0 kMaxOctaves))
    (map (λ r, (draw r).2) kSeeds) (map (λ r, (draw r).1) kSeeds) f0 false.

Definition sample (shape : Z) (phase held : f32) : f32 :=
  if shape =? 1 then f1 -f lit32 4 1 *f SFabs (phase -f fhalf)
  else if shape =? 2 then held
  else sinf (kTwoPi *f phase).

(** One octave: phase, held value and generator after the block. *)
Definition octave (shape : Z) (inc phase held : f32) (r : Z) : f32 * f32 * Z :=
  let '(r, held) :=
    if (shape =? 2) && ((phase +f inc) >=f f1) then draw r else (r, held) in
  (ffmod (phase +f inc) f1, held, r).

(** The loop over the octaves in use: [n] octaves from index [i]. *)
Fixpoint octaves (n i : nat) (tick_rate_hz : f32) (s : fractal) (freq amp sum norm : f32)
  : fractal * f32 * f32 :=
  match n with
  | O => (s, sum, norm)
  | S n =>
      let inc := freq /f tick_rate_hz in
      let '(p, h, r) := octave (shape_ s) inc (nth i (phase_ s) f0) (nth i (held_ s) f0)
                          (nth i (rand_ s) 0) in
      let s := Mk (base_rate_ s) (lacunarity_ s) (persistence_ s) (threshold_ s) (depth_ s)
                 (octaves_ s) (shape_ s) (<[i := p]> (phase_ s)) (<[i := h]> (held_ s))
                 (<[i := r]> (rand_ s)) (prev_output_ s) (gate_out_ s) in
      octaves n (S i) tick_rate_hz s (freq *f lacunarity_ s) (amp *f persistence_ s)
        (sum +f amp *f sample (shape_ s) p h) (norm +f amp)
  end.

Definition set_out (s : fractal) (prev : f32) (g : bool) : fractal :=
  Mk (base_rate_ s) (lacunarity_ s) (persistence_ s) (threshold_ s) (depth_ s) (octaves_ s)
    (shape_ s) (phase_ s) (held_ s) (rand_ s) prev g.

Definition tick (tick_rate_hz : f32) (s : fractal) : fractal * modulator_output :=
  if tick_rate_hz <=f f0 then
    (set_out s (prev_output_ s) false, out_cv (prev_output_ s *f depth_ s))
  else
    let '(s, sum, norm) := octaves (Z.to_nat (octaves_ s)) 0 tick_rate_hz s (base_rate_ s) f1 f0 f0 in
    let output := if norm >f f0 then sum /f norm else f0 in
    let g := (output >=f threshold_ s) && (prev_output_ s <f threshold_ s) in
    (set_out s output g, out_cv_gate (clampf output fm1 f1 *f depth_ s) g).

Definition update (key : string) (value : f32) (s : fractal) : option fractal :=
  let 'Mk b l p t d o sh ph he ra pr g := s in
  if (key =? "base_rate")%string then
    Some (Mk (clampf value (lit32 1 1000) (lit32 100 1)) l p t d o sh ph he ra pr g)
  else if (key =? "octaves")%string then
    r ← f_round_int value; Some (Mk b l p t d (clamp_int r 1 8) sh ph he ra pr g)
  else if (key =? "lacunarity")%string then
    Some (Mk b (clampf value (lit32 11 10) (lit32 8 1)) p t d o sh ph he ra pr g)
  else if (key =? "persistence")%string then
    Some (Mk b l (clampf value (lit32 1 100) f2) t d o sh ph he ra pr g)
  else if (key =? "shape")%string then
    r ← f_round_int value; Some (Mk b l p t d o (clamp_int r 0 2) ph he ra pr g)
  else if (key =? "threshold")%string then
    Some (Mk b l p (clampf value fm1 f1) d o sh ph he ra pr g)
  else if (key =? "depth")%string then Some (Mk b l p t (clampf value f0 f1) o sh ph he ra pr g)
  else Some s.

#[export] Instance fractal_modulator : Modulator fractal := {
  mtick _ _ r s := Some (tick r s); mupdate := update }.
End fractal.
End Fractal.

(** ** Stochastic *)

Module Stochastic.
Section stochastic.
Context `{Libm}.

Definition kMaxLength : nat := 16.
Record stochastic := Mk {
  rate_ : f32; bias_ : f32; jitter_ : f32; spread_ : f32; deja_vu_ : f32; depth_ : f32;
  length_ : Z; steps_ : Z; clock_phase_ : f32; next_threshold_ : f32; cv_out_ : f32;
  gate_out_ : bool; cv_buf_ : list f32; gate_buf_ : list bool; write_pos_ : Z; read_pos_ : Z;
  rand_state_ : Z }.

(** The constructor's loop: a voltage, then a gate, per slot. *)
Fixpoint seed_buffers (n : nat) (r : Z) : list f32 * list bool * Z :=
  match n with
  | O => ([], [], r)
  | S n =>
      let '(r, u) := next_random r in
      let '(r, v) := next_random r in
      let '(cs, gs, r) := seed_buffers n r in
      ((u *f f2 -f f1) :: cs, (v >f fhalf) :: gs, r)
  end.

Definition make : stochastic :=
  let '(cs, gs, r) := seed_buffers kMaxLength 0xACE1 in
  Mk f2 fhalf f0 fhalf f0 f1 8 0 f0 f1 f0 false cs gs 0 0 r.

Definition generate_cv (s : stochastic) (r : Z) : Z * f32 :=
  let '(r, raw) := next_random r in
  let cv := clampf (bias_ s +f (raw -f fhalf) *f spread_ s *f f2) f0 f1 in
  let cv := if 0 <? steps_ s
            then fround (cv *f f32_of_Z (steps_ s)) /f f32_of_Z (steps_ s) else cv in
  (r, cv *f f2 -f f1).

(** [flag && next_rand() < p]: draws only when the flag is set. *)
Definition chance (flag : bool) (p : f32) (r : Z) : Z * bool :=
  if flag then let '(r, u) := next_random r in (r, u <f p) else (r, false).

Definition event (s : stochastic) (phase : f32) : stochastic :=
  let '(r, u) := next_random (rand_state_ s) in
  let threshold := lerpf f1 (SFopp (logf (fmax u (lit32 1 1000000)))) (jitter_ s) in
  let prob_replay := fmin (deja_vu_ s *f f2) f1 in
  let prob_freeze := fmax ((deja_vu_ s -f fhalf) *f f2) f0 in
  let '(r, replay) := chance (deja_vu_ s >f f0) prob_replay r in
  let '(r, freeze) := chance (deja_vu_ s >f fhalf) prob_freeze r in
  let '(r, cvs, gates, wpos) :=
    if replay then (r, cv_buf_ s, gate_buf_ s, write_pos_ s)
    else
      let '(r, u) := next_random r in
      let '(r, new_cv) := generate_cv s r in
      let w := Z.to_nat (write_pos_ s) in
      (r, <[w := new_cv]> (cv_buf_ s), <[w := u <f bias_ s]> (gate_buf_ s),
       Z.rem (write_pos_ s + 1) (length_ s)) in
  let rd := Z.to_nat (read_pos_ s) in
  Mk (rate_ s) (bias_ s) (jitter_ s) (spread_ s) (deja_vu_ s) (depth_ s) (length_ s) (steps_ s)
    phase threshold (nth rd cvs f0) (nth rd gates false) cvs gates wpos
    (if freeze then read_pos_ s else Z.rem (read_pos_ s + 1) (length_ s)) r.

Definition set_phase (s : stochastic) (phase : f32) : stochastic :=
  Mk (rate_ s) (bias_ s) (jitter_ s) (spread_ s) (deja_vu_ s) (depth_ s) (length_ s) (steps_ s)
    phase (next_threshold_ s) (cv_out_ s) false (cv_buf_ s) (gate_buf_ s) (write_pos_ s)
    (read_pos_ s) (rand_state_ s).

Definition tick (tick_rate_hz : f32) (s : stochastic) : stochastic * modulator_output :=
  if tick_rate_hz <=f f0 then (set_phase s (clock_phase_ s), out_cv (cv_out_ s *f depth_ s))
  else
    let phase := clock_phase_ s +f rate_ s /f tick_rate_hz in
    if phase <f next_threshold_ s then (set_phase s phase, out_cv (cv_out_ s *f depth_ s))
    else
      let s := event s (phase -f next_threshold_ s) in
      (s, out_cv_gate (cv_out_ s *f depth_ s) (gate_out_ s)).

Definition update (key : string) (value : f32) (s : stochastic) : option stochastic :=
  let 'Mk r b j sp dv d l st cp nt co go cb gb wp rp rs := s in
  let unit := clampf value f0 f1 in
  if (key =? "rate")%string then
    Some (Mk (clampf value (lit32 1 1000) (lit32 100 1)) b j sp dv d l st cp nt co go cb gb wp rp rs)
  else if (key =? "bias")%string then Some (Mk r unit j sp dv d l st cp nt co go cb gb wp rp rs)
  else if (key =? "jitter")%string then Some (Mk r b unit sp dv d l st cp nt co go cb gb wp rp rs)
  else if (key =? "spread")%string then Some (Mk r b j unit dv d l st cp nt co go cb gb wp rp rs)
  else if (key =? "deja_vu")%string then Some (Mk r b j sp unit d l st cp nt co go cb gb wp rp rs)
  else if (key =? "depth")%string then Some (Mk r b j sp dv unit l st cp nt co go cb gb wp rp rs)
  else if (key =? "length")%string then
    n ← f_round_int value;
    Some (Mk r b j sp dv d (clamp_int n 1 16) st cp nt co go cb gb wp rp rs)
  else if (key =? "steps")%string then
    n ← f_round_int value;
    Some (Mk r b j sp dv d l (clamp_int n 0 16) cp nt co go cb gb wp rp rs)
  else Some s.

#[export] Instance stochastic_modulator : Modulator stochastic := {
  mtick _ _ r s := Some (tick r s); mupdate := update }.
End stochastic.
End Stochastic.

(** ** Faust *)

Module Faust.
(** [dsp_block]: generated code behind a virtual interface.  [process] yields
    one sample per output channel. *)
Class DspBlock (D : Type) := {
  dsp_init : f32 → D → D;
  num_outputs : D → nat;
  set_param : string → f32 → D → D;
  process : D → D * list f32
}.

Section faust.
Context {D : Type} `{DspBlock D}.

Record faust := Mk { dsp_ : D; current_rate_ : f32; initialised_ : bool }.
Definition make (d : D) : faust := Mk d f0 false.
Definition kBufSize : nat := kMaxOutputs.

Definition ensure_init (tick_rate_hz : f32) (s : faust) : faust :=
  if negb (initialised_ s) || (SFabs (tick_rate_hz -f current_rate_ s) >f f1)
  then Mk (dsp_init tick_rate_hz (dsp_ s)) tick_rate_hz true else s.

(** Undefined when the block writes more channels than there are pointers. *)
Definition tick (beat : f64) (tick_rate_hz : f32) (s : faust) : option (faust * modulator_output) :=
  let s := ensure_init tick_rate_hz s in
  let beat_phase := f32_of_f64 (beat -d dfloor beat) in
  let d := set_param "beat" beat_phase (dsp_ s) in
  let n := Nat.min (num_outputs d) kBufSize in
  let '(d, samples) := process d in
  if (kBufSize <? length samples)%nat then None
  else
    let outs := take n samples in
    let out i := nth i (set_outputs outs) f0 in
    Some (Mk d (current_rate_ s) (initialised_ s),
          Out (out 0%nat) (if (1 <? n)%nat then out 1%nat else f0)
            (if (2 <? n)%nat then out 2%nat >f fhalf else false)
            (if (3 <? n)%nat then out 3%nat >f fhalf else false)
            (bitmap (map (λ x, x >f fhalf) outs)) (set_outputs outs)).

Definition update (key : string) (value : f32) (s : faust) : faust :=
  Mk (set_param key value (dsp_ s)) (current_rate_ s) (initialised_ s).

#[export] Instance faust_modulator : Modulator faust := {
  mtick _ b r s := tick b r s; mupdate k v s := Some (update k v s) }.
End faust.
Arguments faust : clear implicits.
End Faust.
