(* ===== verification/Chaos.v ===== *)
(** The chaotic modulators: squid axon, sloth chaos and genie
    ([src/squid_axon_modulator.*], [src/sloth_chaos_modulator.*],
    [src/genie_modulator.*]), one Module each. *)
From S2P Require Import Prelude Binary Modulator.
Local Open Scope Z_scope.

(** ** Squid axon *)

Module SquidAxon.
Record squid_axon := Mk {
  engine_ : bool; clock_src_ : string; in1_src_ : string; in2_src_ : string; in3_src_ : string;
  stage0 : f32; stage1 : f32; stage2 : f32; stage3 : f32; counter_ : Z; nl_fb_ : f32; lin_fb_ : f32;
  in1_ : f32; in2_ : f32; in3_ : f32; in3_patched_ : bool; clock_prev_ : bool; clock_pending_ : bool }.

Definition make engine clock i1 i2 i3 : squid_axon :=
  Mk engine clock i1 i2 i3 f0 f0 f0 f0 0 f0 f0 f0 f0 f0 false false false.

Definition nl_feedback (s : squid_axon) (out4 : f32) : f32 :=
  if nl_fb_ s <f lit32 1 10000 then f0
  else
    let threshold := fmax f0 (f1 -f nl_fb_ s /f lit32 4 1) in
    let excess := out4 -f threshold in
    if excess <=f f0 then f0 else lit32 (-7) 10 *f excess *f excess.

(** The value that enters OUT1 on a clock edge. *)
Definition mix lo (s : squid_axon) : f32 :=
  let in1 := read_cv_src (engine_ s) (in1_src_ s) lo (in1_ s) in
  let in2 := read_cv_src (engine_ s) (in2_src_ s) lo (in2_ s) in
  let in3 := if negb (in3_patched_ s) && (in3_src_ s =? "")%string then stage3 s
             else read_cv_src (engine_ s) (in3_src_ s) lo (in3_ s) in
  let nl := nl_feedback s (stage3 s) in
  let lin := lin_fb_ s *f stage3 s in
  clampf (in1 +f in2 +f in3 +f nl +f lin) f0 f1.

Definition clock_edge lo (s : squid_axon) : bool :=
  (read_gate_src (engine_ s) (clock_src_ s) lo && negb (clock_prev_ s)) || clock_pending_ s.

Definition tick lo (s : squid_axon) : squid_axon * modulator_output :=
  let clk := read_gate_src (engine_ s) (clock_src_ s) lo in
  let '(a, b, c, d, n) :=
    if clock_edge lo s
    then (mix lo s, stage0 s, stage1 s, stage2 s, Z.land (counter_ s + 1) 3)
    else (stage0 s, stage1 s, stage2 s, stage3 s, counter_ s) in
  (Mk (engine_ s) (clock_src_ s) (in1_src_ s) (in2_src_ s) (in3_src_ s) a b c d n (nl_fb_ s)
     (lin_fb_ s) (in1_ s) (in2_ s) (in3_ s) (in3_patched_ s) clk false,
   Out a d (a >f fhalf) false n (set_outputs [a; b; c; d])).

Definition update (key : string) (value : f32) (s : squid_axon) : squid_axon :=
  let 'Mk e c i1 i2 i3 a b d g n nl li v1 v2 v3 p pr pe := s in
  if (key =? "nl_fb")%string then
    Mk e c i1 i2 i3 a b d g n (clampf value f0 (lit32 4 1)) li v1 v2 v3 p pr pe
  else if (key =? "lin_fb")%string then Mk e c i1 i2 i3 a b d g n nl (clampf value f0 f1) v1 v2 v3 p pr pe
  else if (key =? "in1")%string then Mk e c i1 i2 i3 a b d g n nl li value v2 v3 p pr pe
  else if (key =? "in2")%string then Mk e c i1 i2 i3 a b d g n nl li v1 value v3 p pr pe
  else if (key =? "in3")%string then Mk e c i1 i2 i3 a b d g n nl li v1 v2 value p pr pe
  else if (key =? "in3_patched")%string then
    Mk e c i1 i2 i3 a b d g n nl li v1 v2 v3 (value >f fhalf) pr pe
  else if (key =? "clock_tick")%string && (value >f fhalf) then
    Mk e c i1 i2 i3 a b d g n nl li v1 v2 v3 p pr true
  else s.

#[export] Instance squid_axon_modulator : Modulator squid_axon := {
  mtick lo _ _ s := Some (tick lo s); mupdate k v s := Some (update k v s) }.
End SquidAxon.

(** ** Sloth chaos *)

Module SlothChaos.
Inductive variant := torpor | apathy | inertia | triple.

Record State := St { x : f32; w : f32; y : f32; z : f32; z_prev_positive : bool }.

Definition kTimeDilation : list f32 := [f1; lit32 274 1000; lit32 97 10000].
Definition kAlpha : f32 := lit32 35 100.
Definition kBeta : f32 := lit32 25 100.
Definition kGamma : f32 := lit32 15 100.
Definition kVRange : f32 := lit32 12 1.
Definition kZHigh : f32 := lit32 1138 100.
Definition kZLow : f32 := lit32 (-1064) 100.

Definition State_init : State := St (lit32 1 100) f0 f0 kZHigh true.

Definition step (h K z_bias cv_in : f32) (s : State) : State :=
  let z := if (x s +f cv_in) >f z_bias then kZHigh else kZLow in
  let dx := (y s -f x s *f K) *f kAlpha in
  let dw := (z -f x s) *f kBeta in
  let dy := SFopp (w s) *f kGamma in
  St (x s +f dx *f h) (w s +f dw *f h) (y s +f dy *f h) z (z_prev_positive s).

Definition norm (v : f32) : f32 := clampf ((v +f kVRange) /f (f2 *f kVRange)) f0 f1.
Definition x_norm (s : State) : f32 := norm (x s).
Definition y_norm (s : State) : f32 := norm (y s).
Definition w_norm (s : State) : f32 := norm (w s).

Record sloth_chaos := Mk {
  variant_ : variant; engine_ : bool; cv_src_ : string; states_ : State * State * State;
  knob_ : f32; cv_in_ : f32 }.

Definition make v engine src : sloth_chaos :=
  Mk v engine src (State_init, State_init, State_init) fhalf f0.

(** The four Euler sub-steps of circuit [vi]. *)
Definition integrate (vi : nat) (tick_rate_hz knob cv_in : f32) (s : State) : State :=
  let K := f1 +f (knob -f fhalf) *f lit32 4 10 in
  let z_bias := (knob -f fhalf) *f lit32 4 1 in
  let eff_dt := if tick_rate_hz >f f0 then nth vi kTimeDilation f0 /f tick_rate_hz else f0 in
  let h := eff_dt /f lit32 4 1 in
  Nat.iter 4 (step h K z_bias cv_in) s.

Definition lobe (s : State) : bool := z s >f f0.
Definition set_lobe (s : State) : State := St (x s) (w s) (y s) (z s) (lobe s).

(** One circuit: state and output. *)
Definition single_out (s : State) : State * modulator_output :=
  (set_lobe s,
   Out (x_norm s) (y_norm s) (lobe s) (negb (eqb (lobe s) (z_prev_positive s)))
     (if lobe s then 1 else 0)
     (set_outputs [x_norm s; y_norm s; w_norm s; if lobe s then f1 else f0])).

Definition triple_out (a b c : State) : modulator_output :=
  let combined_v := lit32 7 10 *f (z a -f (z b +f z c)) in
  let combined := clampf ((combined_v +f lit32 16 1) /f lit32 32 1) f0 f1 in
  Out (x_norm a) combined (lobe a) false
    (Z.lor (Z.lor (if lobe a then 1 else 0) (if lobe b then 2 else 0)) (if lobe c then 4 else 0))
    (set_outputs [x_norm a; y_norm a; x_norm b; y_norm b; x_norm c; y_norm c; combined]).

Definition tick lo (tick_rate_hz : f32) (s : sloth_chaos) : sloth_chaos * modulator_output :=
  let cv_in := read_cv_src (engine_ s) (cv_src_ s) lo (cv_in_ s) in
  let run vi st := integrate vi tick_rate_hz (knob_ s) cv_in st in
  let '(a, b, c) := states_ s in
  let with_states sts := Mk (variant_ s) (engine_ s) (cv_src_ s) sts (knob_ s) (cv_in_ s) in
  match variant_ s with
  | torpor => let '(a, o) := single_out (run 0%nat a) in (with_states (a, b, c), o)
  | apathy => let '(b, o) := single_out (run 1%nat b) in (with_states (a, b, c), o)
  | inertia => let '(c, o) := single_out (run 2%nat c) in (with_states (a, b, c), o)
  | triple =>
      let a := run 0%nat a in let b := run 1%nat b in let c := run 2%nat c in
      (with_states (set_lobe a, set_lobe b, set_lobe c), triple_out a b c)
  end.

Definition update (key : string) (value : f32) (s : sloth_chaos) : sloth_chaos :=
  if (key =? "knob")%string then
    Mk (variant_ s) (engine_ s) (cv_src_ s) (states_ s) (clampf value f0 f1) (cv_in_ s)
  else if (key =? "cv_in")%string then
    Mk (variant_ s) (engine_ s) (cv_src_ s) (states_ s) (knob_ s) value
  else s.

#[export] Instance sloth_chaos_modulator : Modulator sloth_chaos := {
  mtick lo _ r s := Some (tick lo r s); mupdate k v s := Some (update k v s) }.
End SlothChaos.

(** ** Genie *)

Module Genie.
Definition kMaxN : Z := 8.

Record genie := Mk {
  engine_ : bool; n_ : Z; in_src_ : list string; sense_ : list f32; response_ : list f32;
  gain_ : list f32; ext_in_ : list f32; state_ : list f32 }.

Definition make (n : Z) engine (in_src : list string) : genie :=
  Mk engine (clamp_int n 2 kMaxN) in_src (replicate 8 (lit32 25 10)) (replicate 8 (lit32 3 1))
    (replicate 8 (lit32 6 10)) (replicate 8 f0) (replicate 8 f0).

Definition neuron (input sense response : f32) : f32 :=
  let x := input +f sense in
  let rect := clampf x f0 (lit32 10 1) in
  let comp := if x >=f f0 then response else SFopp response in
  rect -f comp.

Definition neuron_norm (response raw : f32) : f32 :=
  let lo := SFopp response in
  let hi := fmax response (lit32 10 1 -f response) in
  if SFeqb hi lo then fhalf else clampf ((raw -f lo) /f (hi -f lo)) f0 f1.

Definition input lo (s : genie) (i : Z) : f32 :=
  let k := Z.to_nat i in
  let src := nth k (in_src_ s) "" in
  if (src =? "")%string
  then nth k (gain_ s) f0 *f nth (Z.to_nat (Z.rem (i + n_ s - 1) (n_ s))) (state_ s) f0
  else read_cv_src (engine_ s) src lo (nth k (ext_in_ s) f0).

(** [state_] after the tick: the first [n_] neurons fire together. *)
Definition fire lo (s : genie) : list f32 :=
  let n := Z.to_nat (n_ s) in
  map (λ i, neuron (input lo s (Z.of_nat i)) (nth i (sense_ s) f0) (nth i (response_ s) f0)) (seq 0 n)
  ++ drop n (state_ s).

Definition tick lo (s : genie) : genie * modulator_output :=
  let n := Z.to_nat (n_ s) in
  let st := fire lo s in
  let neu i := nth i st f0 in
  let n3 := if 3 <=? n_ s then neu 2%nat else neu 0%nat in
  let diff := neu 0%nat +f n3 -f neu 1%nat in
  let d_pos := fmax f0 diff in
  let d_pos_norm := clampf (d_pos /f lit32 17 1) f0 f1 in
  let nn i := neuron_norm (nth i (response_ s) f0) (neu i) in
  (Mk (engine_ s) (n_ s) (in_src_ s) (sense_ s) (response_ s) (gain_ s) (ext_in_ s) st,
   Out (nn 0%nat) d_pos_norm (diff >f f0) (diff <f f0)
     (bitmap (map (λ i, neu i >f f0) (seq 0 n))) (set_outputs (map nn (seq 0 n)))).

(** [key.back() - '0'], when it is an index. *)
Fixpoint last_char (c : Ascii.ascii) (s : string) : Ascii.ascii :=
  match s with EmptyString => c | String c s => last_char c s end.
Definition key_index (key : string) : option nat :=
  match key with
  | EmptyString => None
  | String c s =>
      (* [char] is signed: bytes above 127 are negative *)
      let i := i8 (Z.of_nat (Ascii.nat_of_ascii (last_char c s))) - 48 in
      if (0 <=? i) && (i <? kMaxN) then Some (Z.to_nat i) else None
  end.

(** A store past the end of an array is undefined: [None]. *)
Definition set_at (i : option nat) (v : f32) (l : list f32) : option (list f32) :=
  match i with
  | Some i => if (i <? length l)%nat then Some (<[i := v]> l) else None
  | None => Some l
  end.

Definition update (key : string) (value : f32) (s : genie) : option genie :=
  let 'Mk e n src se re ga ex st := s in
  let i := key_index key in
  if String.prefix "sense" key then
    se ← set_at i (clampf value f0 (lit32 5 1)) se; Some (Mk e n src se re ga ex st)
  else if String.prefix "response" key then
    re ← set_at i (clampf value f1 (lit32 10 1)) re; Some (Mk e n src se re ga ex st)
  else if String.prefix "gain" key then
    ga ← set_at i (clampf value f0 f1) ga; Some (Mk e n src se re ga ex st)
  else if String.prefix "in" key then
    ex ← set_at i value ex; Some (Mk e n src se re ga ex st)
  else Some s.

#[export] Instance genie_modulator : Modulator genie := {
  mtick lo _ _ s := Some (tick lo s); mupdate := update }.
End Genie.
