(* ===== verification/Engine.v ===== *)
(** The modulator engine and the registry of factories
    ([include/nomos/rt/modulator_engine.hpp], [src/modulator_engine.cpp],
    [include/nomos/rt/modulator_registry.hpp]).

    Modulators are shared objects: the tables of successive versions point to
    the same ones, and [update_param] changes an object that a tick on an older
    table may be using.  So the model has a heap, tables map identifiers to
    addresses, and a copied table shares them.  An address is never reused,
    which is what the reference counts and the RCU cell provide ([Rcu]). *)
From S2P Require Import Prelude Binary Modulator.

(** ** Virtual dispatch *)

Record any_mod := AnyMod { mod_type : Type; mod_inst : Modulator mod_type; mod_state : mod_type }.

Definition any_tick (lo : last_output_fn) (beat : f64) (rate : f32) (m : any_mod)
  : option (any_mod * modulator_output) :=
  '(st, out) ← @mtick _ (mod_inst m) lo beat rate (mod_state m);
  Some (AnyMod (mod_type m) (mod_inst m) st, out).

Definition any_update (key : string) (value : f32) (m : any_mod) : option any_mod :=
  st ← @mupdate _ (mod_inst m) key value (mod_state m);
  Some (AnyMod (mod_type m) (mod_inst m) st).

(** ** The engine *)

Record table_t := Table { mods : gmap string positive; tick_order : list string }.
Record modulator_engine := Engine {
  table_ : table_t; heap : gmap positive any_mod; last_outputs_ : gmap string modulator_output }.

Definition engine_init : modulator_engine := Engine (Table ∅ []) ∅ ∅.

Definition start (id : string) (m : any_mod) (e : modulator_engine) : modulator_engine :=
  let old := table_ e in
  let order := match mods old !! id with
               | None => tick_order old ++ [id]
               | Some _ => tick_order old
               end in
  let p := fresh (dom (heap e)) in
  Engine (Table (<[id := p]> (mods old)) order) (<[p := m]> (heap e)) (last_outputs_ e).

Definition stop (id : string) (e : modulator_engine) : modulator_engine :=
  let old := table_ e in
  Engine (Table (delete id (mods old)) (filter (λ x, x ≠ id) (tick_order old)))
    (heap e) (last_outputs_ e).

Definition update_param (id key : string) (value : f32) (e : modulator_engine)
  : option modulator_engine :=
  match mods (table_ e) !! id with
  | None => Some e
  | Some p =>
      m ← heap e !! p;
      m ← any_update key value m;
      Some (Engine (table_ e) (<[p := m]> (heap e)) (last_outputs_ e))
  end.

Definition last_output (e : modulator_engine) : last_output_fn := λ id, last_outputs_ e !! id.
Definition size (e : modulator_engine) : nat := map_size (mods (table_ e)).

(** One identifier of the loop of [tick], on the table [guard] protects. *)
Definition tick_one (beat : f64) (rate : f32) (guard : table_t) (id : string)
  (e : modulator_engine) : option (modulator_engine * list (string * modulator_output)) :=
  match mods guard !! id with
  | None => Some (e, [])
  | Some p =>
      m ← heap e !! p;
      '(m, out) ← any_tick (last_output e) beat rate m;
      Some (Engine (table_ e) (<[p := m]> (heap e)) (<[id := out]> (last_outputs_ e)), [(id, out)])
  end.

Fixpoint tick_ids (beat : f64) (rate : f32) (guard : table_t) (ids : list string)
  (e : modulator_engine) : option (modulator_engine * list (string * modulator_output)) :=
  match ids with
  | [] => Some (e, [])
  | id :: ids =>
      '(e, out) ← tick_one beat rate guard id e;
      '(e, outs) ← tick_ids beat rate guard ids e;
      Some (e, out ++ outs)
  end.

(** [tick]: what the callback receives, in order. *)
Definition tick (beat : f64) (rate : f32) (e : modulator_engine)
  : option (modulator_engine * list (string * modulator_output)) :=
  tick_ids beat rate (table_ e) (tick_order (table_ e)) e.

(** ** The registry *)

Definition modulator_factory : Type := unit → any_mod.
Definition modulator_registry : Type := gmap string modulator_factory.
Definition register_type (name : string) (fn : modulator_factory) (r : modulator_registry)
  : modulator_registry := <[name := fn]> r.
Definition make (name : string) (r : modulator_registry) : option any_mod :=
  match r !! name with Some f => Some (f tt) | None => None end.
Definition contains (name : string) (r : modulator_registry) : bool := bool_decide (is_Some (r !! name)).

(** ** What the engine promises

    The abstract engine is the list of running modulators in tick order. *)

Record abs_engine := Abs { running : list (string * any_mod); outs : gmap string modulator_output }.

Fixpoint abs_set (id : string) (f : any_mod → option any_mod) (l : list (string * any_mod))
  : option (list (string * any_mod)) :=
  match l with
  | [] => Some []
  | (i, m) :: l =>
      if decide (i = id) then m ← f m; Some ((i, m) :: l)
      else l ← abs_set id f l; Some ((i, m) :: l)
  end.

Definition abs_start (id : string) (m : any_mod) (a : abs_engine) : abs_engine :=
  Abs (if decide (id ∈ (running a).*1) then default [] (abs_set id (λ _, Some m) (running a))
       else running a ++ [(id, m)]) (outs a).

Definition abs_stop (id : string) (a : abs_engine) : abs_engine :=
  Abs (filter (λ x, x.1 ≠ id) (running a)) (outs a).

Definition abs_update (id key : string) (value : f32) (a : abs_engine) : option abs_engine :=
  l ← abs_set id (any_update key value) (running a); Some (Abs l (outs a)).

(** Each modulator sees the outputs already produced in this tick. *)
Fixpoint abs_tick_from (beat : f64) (rate : f32) (l : list (string * any_mod))
  (o : gmap string modulator_output)
  : option (list (string * any_mod) * gmap string modulator_output * list (string * modulator_output)) :=
  match l with
  | [] => Some ([], o, [])
  | (id, m) :: l =>
      '(m, out) ← any_tick (λ i, o !! i) beat rate m;
      '(l, o, cb) ← abs_tick_from beat rate l (<[id := out]> o);
      Some ((id, m) :: l, o, (id, out) :: cb)
  end.

Definition abs_tick (beat : f64) (rate : f32) (a : abs_engine)
  : option (abs_engine * list (string * modulator_output)) :=
  '(l, o, cb) ← abs_tick_from beat rate (running a) (outs a); Some (Abs l o, cb).

(** ** Refinement *)

Record rep (e : modulator_engine) (a : abs_engine) : Prop := Rep {
  rep_order : tick_order (table_ e) = (running a).*1;
  rep_nodup : NoDup (running a).*1;
  rep_dom id : is_Some (mods (table_ e) !! id) ↔ id ∈ (running a).*1;
  rep_inj i j p : mods (table_ e) !! i = Some p → mods (table_ e) !! j = Some p → i = j;
  rep_heap id m : (id, m) ∈ running a → ∃ p, mods (table_ e) !! id = Some p ∧ heap e !! p = Some m;
  rep_outs : last_outputs_ e = outs a }.

Lemma rep_init : rep engine_init (Abs [] ∅).
Proof.
  split; simpl; try done.
  - constructor.
  - intros id. rewrite lookup_empty. split; [by intros []|set_solver].
  - intros id m. set_solver.
Qed.

Lemma rep_ptr e a l1 id m l2 : rep e a → running a = l1 ++ (id, m) :: l2 →
  ∃ p, mods (table_ e) !! id = Some p ∧ heap e !! p = Some m.
Proof. intros Hr Hl. apply (rep_heap e a Hr). rewrite Hl. set_solver. Qed.

(** Changing one modulator in place. *)
Lemma rep_set e a l1 id m m' l2 p o :
  rep e a → running a = l1 ++ (id, m) :: l2 → mods (table_ e) !! id = Some p →
  rep (Engine (table_ e) (<[p := m']> (heap e)) o) (Abs (l1 ++ (id, m') :: l2) o).
Proof.
  intros [Ho Hn Hd Hi Hh Hl] Hrun Hp. rewrite Hrun in *.
  assert ((l1 ++ (id, m') :: l2).*1 = (l1 ++ (id, m) :: l2).*1) as E by by rewrite !fmap_app.
  split; cbn [table_ heap last_outputs_ running outs]; rewrite ?E; try done.
  intros i x Hin. destruct (decide (i = id)) as [->|Hne].
  - exists p. split; [done|]. rewrite lookup_insert_eq. f_equal.
    apply elem_of_app in Hin as [Hin|[[= ->]|Hin]%elem_of_cons]; [|done|]; exfalso.
    + rewrite fmap_app in Hn. apply NoDup_app in Hn as (_ & Hdis & _).
      apply (Hdis id); [by apply (list_elem_of_fmap_2 fst _ (id, x))|by left].
    + rewrite fmap_app in Hn. apply NoDup_app in Hn as (_ & _ & Hn).
      apply NoDup_cons in Hn as [Hn _]. apply Hn. by apply (list_elem_of_fmap_2 fst _ (id, x)).
  - destruct (Hh i x) as (q & Hq & Hqm).
    { apply elem_of_app in Hin as [Hin|[[= -> ->]|Hin]%elem_of_cons]; set_solver. }
    exists q. split; [done|]. rewrite lookup_insert_ne; [done|].
    intros ->. apply Hne. by apply (Hi _ _ q).
Qed.

Lemma abs_set_None id f l : id ∉ l.*1 → abs_set id f l = Some l.
Proof.
  induction l as [|[i m] l IH]; intros Hn; cbn [abs_set]; [done|].
  rewrite decide_False by set_solver. rewrite IH by set_solver. done.
Qed.

Lemma abs_set_mid id f l1 m l2 : id ∉ l1.*1 →
  abs_set id f (l1 ++ (id, m) :: l2) = m' ← f m; Some (l1 ++ (id, m') :: l2).
Proof.
  induction l1 as [|[i x] l1 IH]; intros Hn; cbn [abs_set app].
  - by rewrite decide_True.
  - rewrite decide_False by set_solver. rewrite IH by set_solver. by destruct (f m).
Qed.

(** A running identifier, with what surrounds it. *)
Lemma running_split a id : id ∈ (running a).*1 → NoDup (running a).*1 →
  ∃ l1 m l2, running a = l1 ++ (id, m) :: l2 ∧ id ∉ l1.*1.
Proof.
  intros ([i m] & -> & Hin)%list_elem_of_fmap_1 Hn.
  apply list_elem_of_split in Hin as (l1 & l2 & Hl). exists l1, m, l2. split; [done|].
  rewrite Hl, fmap_app in Hn. apply NoDup_app in Hn as (_ & Hd & _).
  intros Hin. apply (Hd i Hin). by left.
Qed.

Lemma rep_start id m e a : rep e a → rep (start id m e) (abs_start id m a).
Proof.
  intros Hr. unfold start, abs_start. set (p := fresh (dom (heap e))).
  assert (heap e !! p = None) as Hp by apply not_elem_of_dom, is_fresh.
  assert (∀ i, mods (table_ e) !! i ≠ Some p) as Hnp.
  { intros i Hi. pose proof (proj1 (rep_dom e a Hr i) (ex_intro _ p Hi)) as Hin.
    apply list_elem_of_fmap_1 in Hin as ([j x] & -> & Hin).
    destruct (rep_heap e a Hr _ _ Hin) as (q & Hq & Hqm). simpl in Hi. congruence. }
  destruct (decide (id ∈ (running a).*1)) as [Hin|Hin].
  - destruct (proj2 (rep_dom e a Hr id) Hin) as [q Hq]. rewrite Hq.
    destruct (running_split a id Hin (rep_nodup e a Hr)) as (l1 & x & l2 & Hl & Hn1).
    rewrite Hl, abs_set_mid by done. cbn [mbind option_bind from_option Datatypes.id].
    destruct Hr as [Ho Hn Hd Hi Hh Hl']. rewrite Hl in *.
    assert ((l1 ++ (id, m) :: l2).*1 = (l1 ++ (id, x) :: l2).*1) as E by by rewrite !fmap_app.
    split; cbn [table_ heap last_outputs_ running outs mods tick_order]; rewrite ?E; try done.
    + intros i. rewrite lookup_insert_is_Some, Hd. destruct (decide (id = i)); naive_solver.
    + intros i j r. rewrite !lookup_insert_Some. naive_solver.
    + intros i y Hy. destruct (decide (i = id)) as [->|Hne].
      * exists p. rewrite !lookup_insert_eq. split; [done|]. f_equal.
        apply elem_of_app in Hy as [Hy|[[= ->]|Hy]%elem_of_cons]; [|done|]; exfalso.
        -- apply Hn1. by apply (list_elem_of_fmap_2 fst _ (id, y)).
        -- rewrite fmap_app in Hn. apply NoDup_app in Hn as (_ & _ & [Hn _]%NoDup_cons).
           apply Hn. by apply (list_elem_of_fmap_2 fst _ (id, y)).
      * destruct (Hh i y) as (r & Hri & Hrm).
        { apply elem_of_app in Hy as [Hy|[[= -> ->]|Hy]%elem_of_cons]; set_solver. }
        exists r. rewrite !lookup_insert_ne by (congruence || (intros ->; by apply (Hnp i))). done.
  - assert (mods (table_ e) !! id = None) as ->.
    { apply eq_None_not_Some. by rewrite (rep_dom e a Hr). }
    destruct Hr as [Ho Hn Hd Hi Hh Hl].
    split; cbn [table_ heap last_outputs_ running outs mods tick_order]; rewrite ?fmap_app; try done.
    + by rewrite Ho.
    + apply NoDup_app. split; [done|]. split; [set_solver|apply NoDup_singleton].
    + intros i. rewrite lookup_insert_is_Some, Hd, elem_of_app. set_solver.
    + intros i j r. rewrite !lookup_insert_Some. naive_solver.
    + intros i y [Hy|[= -> ->]%list_elem_of_singleton]%elem_of_app.
      * destruct (Hh i y Hy) as (r & Hri & Hrm). exists r.
        assert (i ≠ id) by (intros ->; apply Hin, (list_elem_of_fmap_2 fst _ (id, y)), Hy).
        rewrite !lookup_insert_ne by (congruence || (intros ->; by apply (Hnp i))). done.
      * exists p. by rewrite !lookup_insert_eq.
Qed.

Lemma rep_stop id e a : rep e a → rep (stop id e) (abs_stop id a).
Proof.
  intros [Ho Hn Hd Hi Hh Hl]. unfold stop, abs_stop.
  assert ((filter (λ x, x.1 ≠ id) (running a)).*1 = filter (λ x, x ≠ id) (running a).*1) as E.
  { clear. induction (running a) as [|[i m] l IH]; [done|]. cbn [fmap list_fmap].
    rewrite !filter_cons. cbn [fst]. case_decide; cbn [fmap list_fmap]; by rewrite IH. }
  split; cbn [table_ heap last_outputs_ running outs mods tick_order]; rewrite ?E; try done.
  - by rewrite Ho.
  - by apply NoDup_filter.
  - intros i. rewrite lookup_delete_is_Some, Hd, list_elem_of_filter. naive_solver.
  - intros i j p. rewrite !lookup_delete_Some. naive_solver.
  - intros i m [Hne Hin]%list_elem_of_filter. cbn [fst] in Hne.
    destruct (Hh i m Hin) as (p & ? & ?). exists p. by rewrite lookup_delete_ne.
Qed.

Definition rep_opt {A} (r : option (modulator_engine * A)) (s : option (abs_engine * A)) : Prop :=
  match r, s with
  | Some (e, x), Some (a, y) => rep e a ∧ x = y
  | None, None => True
  | _, _ => False
  end.

Lemma rep_update id key v e a : rep e a →
  match update_param id key v e, abs_update id key v a with
  | Some e, Some a => rep e a | None, None => True | _, _ => False
  end.
Proof.
  intros Hr. unfold update_param, abs_update. destruct (decide (id ∈ (running a).*1)) as [Hin|Hin].
  - destruct (running_split a id Hin (rep_nodup e a Hr)) as (l1 & m & l2 & Hl & Hn1).
    destruct (rep_ptr _ _ _ _ _ _ Hr Hl) as (p & Hp & Hpm). rewrite Hp, Hpm, Hl, abs_set_mid by done.
    cbn [mbind option_bind]. destruct (any_update key v m) as [m'|]; cbn [mbind option_bind]; [|done].
    rewrite (rep_outs e a Hr). by eapply rep_set.
  - rewrite abs_set_None by done. cbn [mbind option_bind].
    assert (mods (table_ e) !! id = None) as ->; [|by destruct a].
    apply eq_None_not_Some. by rewrite (rep_dom e a Hr).
Qed.

(** The loop of [tick] from the middle of the table on. *)
Lemma rep_tick_ids beat rate l2 : ∀ l1 o e,
  rep e (Abs (l1 ++ l2) o) →
  rep_opt (tick_ids beat rate (table_ e) (l2.*1) e)
    ('(l, o, cb) ← abs_tick_from beat rate l2 o; Some (Abs (l1 ++ l) o, cb)).
Proof.
  induction l2 as [|[id m] l2 IH]; intros l1 o e Hr; cbn [fmap list_fmap fst tick_ids abs_tick_from].
  - by split.
  - destruct (rep_ptr _ _ _ _ _ _ Hr eq_refl) as (p & Hp & Hpm).
    unfold tick_one. rewrite Hp, Hpm. cbn [mbind option_bind].
    assert (last_output e = λ i, o !! i) as ->.
    { unfold last_output. by rewrite (rep_outs _ _ Hr). }
    destruct (any_tick (λ i, o !! i) beat rate m) as [[m' out]|]; cbn [mbind option_bind]; [|done].
    pose proof (rep_set _ _ _ _ _ m' _ p (<[id:=out]> o) Hr eq_refl Hp) as Hr'.
    rewrite (cons_middle (id, m') l1 l2), app_assoc in Hr'.
    specialize (IH _ _ _ Hr'). cbn [table_] in IH. rewrite (rep_outs _ _ Hr). cbn [outs].
    destruct (tick_ids _ _ _ _ _) as [[e' cb]|],
      (abs_tick_from beat rate l2 (<[id:=out]> o)) as [[[l' o'] cb']|];
      cbn [mbind option_bind rep_opt] in *; try done.
    destruct IH as [IH ->]. split; [|done].
    by rewrite (cons_middle (id, m') l1 l'), app_assoc.
Qed.

Lemma rep_tick beat rate e a : rep e a → rep_opt (tick beat rate e) (abs_tick beat rate a).
Proof.
  intros Hr. unfold tick, abs_tick. rewrite (rep_order _ _ Hr). destruct a as [l o].
  exact (rep_tick_ids beat rate l [] o e Hr).
Qed.

(** ** Histories *)

Inductive engine_op :=
| OpStart (id : string) (m : any_mod)
| OpStop (id : string)
| OpUpdate (id key : string) (value : f32)
| OpTick (beat : f64) (rate : f32).

(** What the callbacks of the ticks receive; [None] is undefined behaviour. *)
Fixpoint engine_run (e : modulator_engine) (ops : list engine_op)
  : option (list (list (string * modulator_output))) :=
  match ops with
  | [] => Some []
  | OpStart id m :: ops => engine_run (start id m e) ops
  | OpStop id :: ops => engine_run (stop id e) ops
  | OpUpdate id k v :: ops => e ← update_param id k v e; engine_run e ops
  | OpTick b r :: ops => '(e, cb) ← tick b r e; cbs ← engine_run e ops; Some (cb :: cbs)
  end.

Fixpoint abs_run (a : abs_engine) (ops : list engine_op)
  : option (list (list (string * modulator_output))) :=
  match ops with
  | [] => Some []
  | OpStart id m :: ops => abs_run (abs_start id m a) ops
  | OpStop id :: ops => abs_run (abs_stop id a) ops
  | OpUpdate id k v :: ops => a ← abs_update id k v a; abs_run a ops
  | OpTick b r :: ops => '(a, cb) ← abs_tick b r a; cbs ← abs_run a ops; Some (cb :: cbs)
  end.

Lemma run_refines ops : ∀ e a, rep e a → engine_run e ops = abs_run a ops.
Proof.
  induction ops as [|[id m|id|id k v|b r] ops IH]; intros e a Hr; cbn [engine_run abs_run]; [done|..].
  - by apply IH, rep_start.
  - by apply IH, rep_stop.
  - pose proof (rep_update id k v e a Hr) as Hu.
    destruct (update_param id k v e), (abs_update id k v a); try done. by apply IH.
  - pose proof (rep_tick b r e a Hr) as Ht. unfold rep_opt in Ht.
    destruct (tick b r e) as [[e' cb]|], (abs_tick b r a) as [[a' cb']|]; try done.
    destruct Ht as [Hr' ->]. cbn [mbind option_bind]. by rewrite (IH e' a').
Qed.

(** C10: over any history of starts, stops, parameter updates and ticks, the
    engine (copied tables over a shared heap, a hash map and an order vector)
    behaves as the plain list of running modulators in order of first start: a
    restart keeps the position, a stop removes, each tick calls back every
    running modulator once, in that order, and lets it see what the earlier
    ones have just produced.  Undefined behaviour of a modulator, and nothing
    else, stops the engine. *)
Theorem engine_refines ops : engine_run engine_init ops = abs_run (Abs [] ∅) ops.
Proof. apply run_refines, rep_init. Qed.
