(* ===== verification/EngineConc.v ===== *)
(** The engine under its two threads
    ([include/nomos/rt/modulator_engine.hpp], [src/modulator_engine.cpp]).

    The event thread runs [tick] on the table its read guard holds; meanwhile
    the control thread starts, stops and updates modulators.  The control
    thread's calls come between the modulators of the loop: each takes the
    write mutex and installs its table, or changes one modulator, at once.
    (Within one modulator, [update] and [tick] race on its members, which the
    source accepts; here a modulator's tick and an update are atomic.)  The RCU
    cell keeps the guarded table and its modulators alive ([Rcu]). *)
From S2P Require Import Prelude Binary Modulator Engine.

(** ** The control thread's calls *)

Inductive ctl :=
| CStart (id : string) (m : any_mod)
| CStop (id : string)
| CUpdate (id key : string) (value : f32).

Definition ctl1 (o : ctl) (e : modulator_engine) : option modulator_engine :=
  match o with
  | CStart id m => Some (start id m e)
  | CStop id => Some (stop id e)
  | CUpdate id k v => update_param id k v e
  end.

Fixpoint ctls (os : list ctl) (e : modulator_engine) : option modulator_engine :=
  match os with [] => Some e | o :: os => e ← ctl1 o e; ctls os e end.

(** ** A tick with calls in between

    [sched] lists the calls that come before each modulator of the loop, and
    after the last one. *)
Section tick.
Context (beat : f64) (rate : f32).

Fixpoint tick_with (guard : table_t) (sched : list (list ctl)) (ids : list string) (e : modulator_engine)
  : option (modulator_engine * list (string * modulator_output)) :=
  match ids with
  | [] => e ← ctls (concat sched) e; Some (e, [])
  | id :: ids =>
      e ← ctls (default [] (head sched)) e;
      '(e, out) ← tick_one beat rate guard id e;
      '(e, outs) ← tick_with guard (tail sched) ids e;
      Some (e, out ++ outs)
  end.

Definition concurrent_tick (sched : list (list ctl)) (e : modulator_engine) :=
  tick_with (table_ e) sched (tick_order (table_ e)) e.

(** Calls, a whole tick, calls. *)
Definition serial (guard : table_t) (ids : list string) (before after : list ctl) (e : modulator_engine) :=
  e ← ctls before e; '(e, outs) ← tick_ids beat rate guard ids e; e ← ctls after e; Some (e, outs).

(** [os] is a shuffle of [before] and [after]. *)
Inductive shuffle : list ctl → list ctl → list ctl → Prop :=
| shuffle_nil : shuffle [] [] []
| shuffle_before o before after os : shuffle before after os → shuffle (o :: before) after (o :: os)
| shuffle_after o before after os : shuffle before after os → shuffle before (o :: after) (o :: os).

Lemma shuffle_all os : shuffle [] os os.
Proof. induction os; by constructor. Qed.

(** ** Access to one modulator *)

Definition on_obj {A} (p : positive)
  (f : gmap string modulator_output → any_mod → option (any_mod * gmap string modulator_output * A))
  (e : modulator_engine) : option (modulator_engine * A) :=
  m ← heap e !! p; '(m, lo, x) ← f (last_outputs_ e) m; Some (Engine (table_ e) (<[p := m]> (heap e)) lo, x).

Definition upd_fn key v (lo : gmap string modulator_output) (m : any_mod)
  : option (any_mod * gmap string modulator_output * unit) := m ← any_update key v m; Some (m, lo, tt).
Definition tick_fn id (lo : gmap string modulator_output) (m : any_mod)
  : option (any_mod * gmap string modulator_output * list (string * modulator_output)) :=
  '(m, out) ← any_tick (λ i, lo !! i) beat rate m; Some (m, <[id := out]> lo, [(id, out)]).

Lemma update_on_obj id key v e :
  update_param id key v e =
  match mods (table_ e) !! id with None => Some e | Some p => fst <$> on_obj p (upd_fn key v) e end.
Proof.
  unfold update_param, on_obj, upd_fn. destruct (mods (table_ e) !! id) as [p|]; [|done].
  destruct (heap e !! p) as [m|]; [|done]. cbn. by destruct (any_update key v m).
Qed.

Lemma tick_on_obj guard id e :
  tick_one beat rate guard id e =
  match mods guard !! id with None => Some (e, []) | Some p => on_obj p (tick_fn id) e end.
Proof.
  unfold tick_one, on_obj, tick_fn, last_output. destruct (mods guard !! id) as [p|]; [|done].
  destruct (heap e !! p) as [m|]; [|done]. cbn. by destruct (any_tick _ beat rate m) as [[? ?]|].
Qed.

Lemma on_obj_keeps {A} p f e e' (x : A) :
  on_obj p f e = Some (e', x) → table_ e' = table_ e ∧ dom (heap e') = dom (heap e).
Proof.
  unfold on_obj. destruct (heap e !! p) as [m|] eqn:Hp; [|done]. cbn.
  destruct (f _ m) as [[[m' lo] y]|]; [|done]. cbn. intros [= <- <-]. split; [done|]. cbn [heap].
  rewrite dom_insert_L. apply elem_of_dom_2 in Hp. set_solver.
Qed.

Lemma upd_survives {A} p q key v f e e1 (x : A) : p ≠ q → on_obj p f e = Some (e1, x) →
  is_Some (on_obj q (upd_fn key v) e) → is_Some (on_obj q (upd_fn key v) e1).
Proof.
  intros Hne. unfold on_obj, upd_fn. destruct (heap e !! p) as [m|]; [|done]. cbn.
  destruct (f _ m) as [[[m' lo] y]|]; [|done]. cbn. intros [= <- <-]. cbn [heap]. rewrite lookup_insert_ne by done.
  destruct (heap e !! q) as [n|]; [|done]. cbn. destruct (any_update key v n); [|by intros []]. by eexists.
Qed.

(** An update commutes with an access to another modulator. *)
Lemma upd_commutes {A} p q key v f e : p ≠ q →
  ('(e, _) ← on_obj p (upd_fn key v) e; on_obj (A := A) q f e) =
  ('(e, x) ← on_obj q f e; '(e, _) ← on_obj p (upd_fn key v) e; Some (e, x)).
Proof.
  intros Hpq. unfold on_obj, upd_fn. destruct (heap e !! p) as [m|] eqn:Hp; cbn.
  - destruct (any_update key v m) as [m'|] eqn:Hu; cbn.
    + rewrite lookup_insert_ne by done. destruct (heap e !! q) as [n|]; [|done]. cbn.
      destruct (f _ n) as [[[n' lo] x]|]; [|done]. cbn. rewrite lookup_insert_ne, Hp by done. cbn. rewrite Hu. cbn.
      by rewrite insert_insert_ne.
    + destruct (heap e !! q) as [n|]; [|done]. cbn. destruct (f _ n) as [[[n' lo] x]|]; [|done]. cbn.
      rewrite lookup_insert_ne, Hp by done. cbn. by rewrite Hu.
  - destruct (heap e !! q) as [n|]; [|done]. cbn. destruct (f _ n) as [[[n' lo] x]|]; [|done]. cbn.
    by rewrite lookup_insert_ne, Hp by done.
Qed.

(** Starts and stops commute with an access to a live modulator. *)
Lemma stop_commutes {A} id p f e :
  on_obj (A := A) p f (stop id e) = ('(e, x) ← on_obj p f e; Some (stop id e, x)).
Proof.
  unfold on_obj, stop. cbn [heap last_outputs_ table_]. destruct (heap e !! p) as [m|]; [|done]. cbn.
  by destruct (f _ m) as [[[m' lo] x]|].
Qed.

Lemma start_commutes {A} id n p f e : p ∈ dom (heap e) →
  on_obj (A := A) p f (start id n e) = ('(e, x) ← on_obj p f e; Some (start id n e, x)).
Proof.
  intros Hp. pose proof (is_fresh (dom (heap e))) as Hf. set (r := fresh (dom (heap e))) in *.
  assert (r ≠ p) as Hne by congruence. apply elem_of_dom in Hp as [m Hm].
  unfold on_obj, start. fold r. cbn [heap last_outputs_ table_]. rewrite lookup_insert_ne, Hm by done. cbn.
  destruct (f _ m) as [[[m' lo] x]|]; [|done]. cbn.
  rewrite (dom_insert_lookup_L (heap e) p m') by eauto. fold r. by rewrite insert_insert_ne.
Qed.

(** ** Moving a call past a tick *)

(** Live guarded modulators and live current ones. *)
Definition live (guard : table_t) (e : modulator_engine) : Prop :=
  (∀ id p, mods guard !! id = Some p → p ∈ dom (heap e)) ∧
  (∀ id p, mods (table_ e) !! id = Some p → p ∈ dom (heap e)).

(** An update of a modulator the loop has still to tick. *)
Definition early (guard : table_t) (ids : list string) (e : modulator_engine) (o : ctl) : Prop :=
  match o with
  | CUpdate id _ _ => ∃ i p, i ∈ ids ∧ mods guard !! i = Some p ∧ mods (table_ e) !! id = Some p
  | _ => False
  end.

#[local] Instance early_dec guard ids e o : Decision (early guard ids e o).
Proof.
  destruct o as [id m|id|id k v]; [right; intros []..|]. cbn [early].
  destruct (mods (table_ e) !! id) as [q|] eqn:Hq; [|right; naive_solver].
  destruct (decide (Exists (λ i, mods guard !! i = Some q) ids)) as [H|H]; [left|right]; rewrite Exists_exists in H; naive_solver.
Defined.

Lemma ctl1_early_keeps guard ids e e' o : early guard ids e o → ctl1 o e = Some e' →
  table_ e' = table_ e ∧ dom (heap e') = dom (heap e).
Proof.
  destruct o as [| |id k v]; [done..|]. cbn [ctl1 early]. intros (i & p & _ & _ & Hp).
  rewrite update_on_obj, Hp. destruct (on_obj _ _ e) as [[e1 x]|] eqn:Ho; [|done]. cbn. intros [= <-].
  by apply on_obj_keeps in Ho.
Qed.

Lemma ctl1_live guard e e' o : live guard e → ctl1 o e = Some e' → live guard e'.
Proof.
  intros [Hg Ht]. destruct o as [id m|id|id k v]; cbn [ctl1].
  - intros [= <-]. unfold live, start. cbn [heap table_ mods]. split.
    + intros i p Hi. rewrite dom_insert. set_solver.
    + intros i p. rewrite lookup_insert_Some, dom_insert. intros [[_ <-]|[_ Hi]]; [set_solver|].
      apply Ht in Hi. set_solver.
  - intros [= <-]. unfold live, stop. cbn [heap table_ mods]. split; [done|].
    intros i p [_ Hi]%lookup_delete_Some. by apply (Ht i).
  - rewrite update_on_obj. destruct (mods (table_ e) !! id) as [p|]; [|by intros [= <-]].
    destruct (on_obj p _ e) as [[e1 x]|] eqn:Ho; [|done]. cbn. intros [= <-].
    apply on_obj_keeps in Ho as [Htb Hd]. unfold live. by rewrite Htb, Hd.
Qed.

Lemma tick_one_keeps guard id e e' out : tick_one beat rate guard id e = Some (e', out) →
  table_ e' = table_ e ∧ dom (heap e') = dom (heap e).
Proof.
  rewrite tick_on_obj. destruct (mods guard !! id); [|by intros [= <- <-]]. apply on_obj_keeps.
Qed.

(** A call that is not early commutes with a tick of the modulators in [ids]. *)
Lemma late_tick_one guard ids id e o : live guard e → id ∈ ids → ¬ early guard ids e o →
  (e ← ctl1 o e; tick_one beat rate guard id e) =
  ('(e, out) ← tick_one beat rate guard id e; e ← ctl1 o e; Some (e, out)).
Proof.
  intros [Hg Ht] Hin Hl. destruct o as [i n|i|i k v]; cbn [ctl1 mbind option_bind].
  - rewrite !tick_on_obj. destruct (mods guard !! id) as [p|] eqn:Hp; [|done].
    rewrite start_commutes by by eapply Hg. by destruct (on_obj _ _ e) as [[? ?]|].
  - rewrite !tick_on_obj. destruct (mods guard !! id) as [p|] eqn:Hp; [|done].
    rewrite stop_commutes. by destruct (on_obj _ _ e) as [[? ?]|].
  - rewrite tick_on_obj. rewrite update_on_obj. destruct (mods (table_ e) !! i) as [q|] eqn:Hq.
    + destruct (mods guard !! id) as [p|] eqn:Hp.
      * assert (q ≠ p) as Hne. { intros ->. apply Hl. exists id, p. done. }
        pose proof (upd_commutes q p k v (tick_fn id) e Hne) as Hc.
        destruct (on_obj q (upd_fn k v) e) as [[e1 []]|] eqn:Hu; cbn in Hc |- *.
        -- rewrite tick_on_obj, Hp, Hc. destruct (on_obj p _ e) as [[e2 out]|] eqn:Hk; [|done]. cbn.
           rewrite update_on_obj. apply on_obj_keeps in Hk as [-> _]. rewrite Hq.
           by destruct (on_obj q _ e2) as [[? ?]|].
        -- destruct (on_obj p _ e) as [[e2 out]|] eqn:Hk; [|done]. cbn in Hc |- *.
           rewrite update_on_obj. apply on_obj_keeps in Hk as [-> _]. rewrite Hq.
           by destruct (on_obj q _ e2) as [[? ?]|].
      * destruct (on_obj q _ e) as [[e1 []]|] eqn:Hu; cbn; [rewrite tick_on_obj, Hp; cbn|];
          rewrite update_on_obj, Hq, Hu; done.
    + cbn. rewrite tick_on_obj. destruct (mods guard !! id) as [p|] eqn:Hp; cbn; [|by rewrite update_on_obj, Hq].
      destruct (on_obj p _ e) as [[e2 out]|] eqn:Hk; [|done]. cbn. rewrite update_on_obj.
      apply on_obj_keeps in Hk as [-> _]. by rewrite Hq.
Qed.
Lemma early_table guard ids e e' o : table_ e' = table_ e → early guard ids e' o ↔ early guard ids e o.
Proof. intros Ht. destruct o; cbn [early]; by rewrite ?Ht. Qed.

Lemma live_keeps guard e e' : table_ e' = table_ e → dom (heap e') = dom (heap e) → live guard e → live guard e'.
Proof. unfold live. by intros -> ->. Qed.

(** A late call commutes with the rest of the loop. *)
Lemma late_tick_ids guard ids l : ∀ e o, live guard e → l ⊆ ids → ¬ early guard ids e o →
  (e ← ctl1 o e; tick_ids beat rate guard l e) =
  ('(e, outs) ← tick_ids beat rate guard l e; e ← ctl1 o e; Some (e, outs)).
Proof.
  induction l as [|id l IH]; intros e o Hlv Hl Ho; cbn [tick_ids].
  { cbn. by destruct (ctl1 o e). }
  pose proof (late_tick_one guard ids id e o Hlv ltac:(set_solver) Ho) as Hc.
  destruct (tick_one beat rate guard id e) as [[e1 out]|] eqn:Hk; cbn in Hc |- *.
  - apply tick_one_keeps in Hk as [Ht Hd].
    specialize (IH e1 o (live_keeps _ _ _ Ht Hd Hlv) ltac:(set_solver) ltac:(by rewrite early_table)).
    destruct (ctl1 o e) as [e2|]; cbn in Hc |- *.
    + rewrite Hc. destruct (ctl1 o e1) as [e3|]; cbn in IH |- *.
      * rewrite IH. destruct (tick_ids beat rate guard l e1) as [[e4 outs]|]; [|done]. cbn. by destruct (ctl1 o e4).
      * destruct (tick_ids beat rate guard l e1) as [[e4 outs]|]; [|done]. cbn in IH |- *. by destruct (ctl1 o e4).
    + destruct (ctl1 o e1) as [e3|]; [done|]. cbn in IH.
      destruct (tick_ids beat rate guard l e1) as [[e4 outs]|]; [|done]. cbn in IH |- *. by destruct (ctl1 o e4).
  - destruct (ctl1 o e) as [e2|]; [|done]. cbn in Hc |- *. by rewrite Hc.
Qed.

(** A late call does not change which updates are early, and commutes with them. *)
Lemma late_early guard ids e e' o b : live guard e → ¬ early guard ids e o → ctl1 o e = Some e' →
  early guard ids e' b →
  early guard ids e b ∧ ctl1 b e' = (e ← ctl1 b e; ctl1 o e) ∧ ∀ e1, ctl1 b e = Some e1 → is_Some (ctl1 o e1).
Proof.
  intros [Hg Ht] Ho He Hb. destruct b as [| |j k v]; [done..|]. destruct Hb as (i & p & Hi & Hp & Hj).
  pose proof (Hg _ _ Hp) as Hpd. cbn [ctl1]. rewrite !update_on_obj, Hj.
  destruct o as [x n|x|x k' v']; cbn [ctl1] in He.
  - injection He as <-. unfold start in Hj. cbn [table_ mods] in Hj. apply lookup_insert_Some in Hj as [[_ E]|[_ Hj]].
    { exfalso. apply (is_fresh (dom (heap e))). by rewrite E. }
    split; [by exists i, p|]. rewrite Hj, start_commutes by done. split; [|by eexists].
    by destruct (on_obj p _ e) as [[? ?]|].
  - injection He as <-. unfold stop in Hj. cbn [table_ mods] in Hj. apply lookup_delete_Some in Hj as [_ Hj].
    split; [by exists i, p|]. rewrite Hj, stop_commutes. split; [|by eexists]. by destruct (on_obj p _ e) as [[? ?]|].
  - rewrite update_on_obj in He. destruct (mods (table_ e) !! x) as [q|] eqn:Hq.
    + destruct (on_obj q (upd_fn k' v') e) as [[e1 []]|] eqn:Hu; [|done]. cbn in He. injection He as ->.
      pose proof (on_obj_keeps _ _ _ _ _ Hu) as [Htb _]. rewrite Htb in Hj. split; [by exists i, p|]. rewrite Hj.
      assert (q ≠ p) as Hne. { intros ->. apply Ho. by exists i, p. }
      pose proof (upd_commutes q p k' v' (upd_fn k v) e Hne) as Hc. rewrite Hu in Hc. cbn in Hc. rewrite Hc.
      destruct (on_obj p (upd_fn k v) e) as [[e2 []]|] eqn:Hk; [|done]. cbn. rewrite update_on_obj.
      pose proof (on_obj_keeps _ _ _ _ _ Hk) as [-> _]. rewrite Hq.
      destruct (upd_survives p q k' v' _ e e2 tt ltac:(done) Hk ltac:(by rewrite Hu)) as [[e3 []] He3]. rewrite He3.
      cbn. split; [done|]. intros e1 [= <-]. rewrite update_on_obj. apply on_obj_keeps in Hk as [-> _].
      rewrite Hq, He3. by eexists.
    + injection He as <-. split; [by exists i, p|]. rewrite Hj.
      destruct (on_obj p (upd_fn k v) e) as [[e2 []]|] eqn:Hk; [|done]. cbn. rewrite update_on_obj.
      apply on_obj_keeps in Hk as [Htb _]. rewrite Htb, Hq. split; [done|]. intros e1 [= <-].
      rewrite update_on_obj, Htb, Hq. by eexists.
Qed.

Lemma late_before guard ids before : ∀ e e' o, live guard e → ¬ early guard ids e o → ctl1 o e = Some e' →
  Forall (early guard ids e') before →
  Forall (early guard ids e) before ∧ ctls before e' = (e ← ctls before e; ctl1 o e).
Proof.
  induction before as [|b before IH]; intros e e' o Hlv Ho He Hb; [by split|]. apply Forall_cons in Hb as [Hb Hbs].
  destruct (late_early guard ids e e' o b Hlv Ho He Hb) as (Hb' & Hc & Hs).
  split.
  { constructor; [done|]. eapply Forall_impl; [exact Hbs|]. intros c Hc'. by eapply late_early. }
  cbn [ctls]. rewrite Hc. destruct (ctl1 b e) as [e1|] eqn:Hb1; [|done]. cbn in Hc |- *.
  destruct (ctl1_early_keeps guard ids e e1 b Hb' Hb1) as [Ht Hd].
  destruct (Hs e1 eq_refl) as [e1' He1']. rewrite He1' in Hc |- *. cbn.
  destruct (ctl1_early_keeps guard ids e' e1' b Hb Hc) as [Ht' _].
  apply (IH e1 e1' o); [by eapply live_keeps|by rewrite early_table|done|].
  eapply Forall_impl; [exact Hbs|]. intros c. by apply early_table.
Qed.

(** An early update commutes with the tick of a modulator that is not to be
    updated. *)
Lemma early_tick_one guard id ids before : ∀ e, live guard e → id ∉ ids →
  (∀ i j p, mods guard !! i = Some p → mods guard !! j = Some p → i = j) →
  Forall (early guard ids e) before →
  (e ← ctls before e; tick_one beat rate guard id e) =
  ('(e, out) ← tick_one beat rate guard id e; e ← ctls before e; Some (e, out)).
Proof.
  induction before as [|b before IH]; intros e Hlv Hid Hinj Hb; cbn [ctls].
  { cbn. by destruct (tick_one beat rate guard id e) as [[? ?]|]. }
  apply Forall_cons in Hb as [Hb Hbs].
  assert (¬ early guard [id] e b) as Hnb.
  { destruct b as [| |j k v]; [done..|]. intros (i' & p' & ->%list_elem_of_singleton & Hp' & Hj').
    destruct Hb as (i & p & Hi & Hp & Hj). rewrite Hj in Hj'. injection Hj' as ->. by rewrite (Hinj _ _ _ Hp Hp') in Hi. }
  pose proof (late_tick_one guard [id] id e b Hlv ltac:(set_solver) Hnb) as Hc.
  destruct (ctl1 b e) as [e1|] eqn:Hb1; cbn in Hc |- *.
  - destruct (ctl1_early_keeps guard ids e e1 b Hb Hb1) as [Ht Hd].
    rewrite IH; [|by eapply live_keeps|done|done|].
    2: { eapply Forall_impl; [exact Hbs|]. intros c. by apply early_table. }
    rewrite Hc. destruct (tick_one beat rate guard id e) as [[e2 out]|]; [|done]. cbn. by destruct (ctl1 b e2).
  - destruct (tick_one beat rate guard id e) as [[e2 out]|]; [|done]. cbn in Hc |- *. by destruct (ctl1 b e2).
Qed.

(** The result [r] is that of a serial execution of the calls [os]. *)
Definition linear guard ids (os : list ctl) (r : option (modulator_engine * list (string * modulator_output))) e : Prop :=
  ∃ before after, shuffle before after os ∧ Forall (early guard ids e) before ∧ r = serial guard ids before after e.

Lemma linear_call guard ids o os K e : live guard e →
  (∀ e1, ctl1 o e = Some e1 → linear guard ids os (K e1) e1) →
  linear guard ids (o :: os) (e ← ctl1 o e; K e) e.
Proof.
  intros Hlv HK. destruct (decide (early guard ids e o)) as [Ho|Ho].
  - destruct (ctl1 o e) as [e1|] eqn:He.
    + destruct (HK e1 eq_refl) as (before & after & Hsh & Hb & Hr). destruct (ctl1_early_keeps guard ids e e1 o Ho He) as [Ht _].
      exists (o :: before), after. split_and!; [by constructor| |unfold serial; cbn [ctls]; by rewrite He].
      constructor; [done|]. eapply Forall_impl; [exact Hb|]. intros c. by apply early_table.
    + exists [o], os. split_and!; [constructor; apply shuffle_all|by constructor|unfold serial; cbn [ctls]; by rewrite He].
  - pose proof (late_tick_ids guard ids ids e o Hlv ltac:(set_solver) Ho) as Hl.
    destruct (ctl1 o e) as [e1|] eqn:He.
    + destruct (HK e1 eq_refl) as (before & after & Hsh & Hb & Hr).
      destruct (late_before guard ids before e e1 o Hlv Ho He Hb) as [Hb' Hc].
      exists before, (o :: after). split_and!; [by constructor|done|]. cbn [mbind option_bind]. rewrite Hr. unfold serial.
      rewrite Hc. cbn [ctls]. clear Hl Hr HK. destruct (ctls before e) as [e2|] eqn:Hbs; [|done]. cbn.
      assert (live guard e2 ∧ table_ e2 = table_ e) as [Hlv2 Ht2].
      { clear -Hlv Hb' Hbs. revert e Hlv Hb' Hbs. induction before as [|b before IH]; intros e Hlv Hb' Hbs; cbn [ctls] in Hbs.
        - injection Hbs as ->. by split.
        - apply Forall_cons in Hb' as [Hb Hbs']. destruct (ctl1 b e) as [e3|] eqn:He3; [|done]. cbn in Hbs.
          destruct (ctl1_early_keeps guard ids e e3 b Hb He3) as [Ht Hd].
          destruct (IH e3) as [? Ht']; [by eapply live_keeps| |done|by rewrite Ht', Ht].
          eapply Forall_impl; [exact Hbs'|]. intros c. by apply early_table. }
      pose proof (late_tick_ids guard ids ids e2 o Hlv2 ltac:(set_solver) ltac:(by rewrite early_table)) as Hl2.
      destruct (ctl1 o e2) as [e3|] eqn:He3; cbn in Hl2 |- *.
      * rewrite Hl2. destruct (tick_ids beat rate guard ids e2) as [[e4 outs]|]; [|done]. cbn. by destruct (ctl1 o e4).
      * destruct (tick_ids beat rate guard ids e2) as [[e4 outs]|]; [|done]. cbn in Hl2 |- *. by destruct (ctl1 o e4).
    + exists [], (o :: os). split_and!; [apply shuffle_all|done|]. unfold serial. cbn [ctls mbind option_bind] in *.
      destruct (tick_ids beat rate guard ids e) as [[e4 outs]|]; [|done]. cbn in Hl |- *. by destruct (ctl1 o e4).
Qed.

Lemma linear_tick guard id ids os K e : live guard e → id ∉ ids →
  (∀ i j p, mods guard !! i = Some p → mods guard !! j = Some p → i = j) →
  (∀ e1 out, tick_one beat rate guard id e = Some (e1, out) → linear guard ids os (K e1) e1) →
  linear guard (id :: ids) os
    ('(e, out) ← tick_one beat rate guard id e; '(e, outs) ← K e; Some (e, out ++ outs)) e.
Proof.
  intros Hlv Hid Hinj HK. destruct (tick_one beat rate guard id e) as [[e1 out]|] eqn:Hk.
  - destruct (HK e1 out eq_refl) as (before & after & Hsh & Hb & Hr).
    pose proof (tick_one_keeps _ _ _ _ _ Hk) as [Ht _].
    assert (Forall (early guard ids e) before) as Hb'.
    { eapply Forall_impl; [exact Hb|]. intros c. by apply early_table. }
    exists before, after. split_and!; [done| |].
    { eapply Forall_impl; [exact Hb'|]. intros [| |j k v]; [done..|]. intros (i & p & ? & ? & ?). exists i, p. set_solver. }
    cbn [mbind option_bind]. rewrite Hr. unfold serial. cbn [tick_ids].
    pose proof (early_tick_one guard id ids before e Hlv Hid Hinj Hb') as Hc. rewrite Hk in Hc. cbn in Hc.
    destruct (ctls before e1) as [e2|] eqn:H2; cbn in Hc |- *.
    + destruct (ctls before e) as [e3|]; [|done]. cbn in Hc |- *. rewrite Hc. cbn.
      destruct (tick_ids beat rate guard ids e2) as [[e4 outs]|]; [|done]. cbn. by destruct (ctls after e4).
    + destruct (ctls before e) as [e3|]; [|done]. cbn in Hc |- *. by rewrite Hc.
  - exists [], os. split_and!; [apply shuffle_all|done|]. unfold serial. cbn [ctls mbind option_bind tick_ids]. by rewrite Hk.
Qed.

Lemma linear_calls guard ids os rest K : ∀ e, live guard e →
  (∀ e1, ctls os e = Some e1 → live guard e1 → linear guard ids rest (K e1) e1) →
  linear guard ids (os ++ rest) (e ← ctls os e; K e) e.
Proof.
  induction os as [|o os IH]; intros e Hlv HK; cbn [ctls app].
  - by apply HK.
  - replace (e1 ← (e0 ← ctl1 o e; ctls os e0); K e1) with (e0 ← ctl1 o e; e1 ← ctls os e0; K e1)
      by by destruct (ctl1 o e).
    apply (linear_call guard ids o (os ++ rest) (λ e0, e1 ← ctls os e0; K e1)); [done|].
    intros e1 He1. apply IH; [by eapply ctl1_live|]. intros e2 He2. apply HK. cbn [ctls]. by rewrite He1.
Qed.

Lemma tick_with_linear guard ids : ∀ sched e, live guard e → NoDup ids →
  (∀ i j p, mods guard !! i = Some p → mods guard !! j = Some p → i = j) →
  linear guard ids (concat sched) (tick_with guard sched ids e) e.
Proof.
  induction ids as [|id ids IH]; intros sched e Hlv Hn Hinj; cbn [tick_with].
  - exists [], (concat sched). split_and!; [apply shuffle_all|done|done].
  - apply NoDup_cons in Hn as [Hid Hn].
    replace (concat sched) with (default [] (head sched) ++ concat (tail sched)) by by destruct sched.
    apply (linear_calls guard (id :: ids) _ _ (λ e, '(e, out) ← tick_one beat rate guard id e;
      '(e, outs) ← tick_with guard (tail sched) ids e; Some (e, out ++ outs))); [done|].
    intros e1 _ Hlv1. apply (linear_tick guard id ids _ (tick_with guard (tail sched) ids)); [done..|].
    intros e2 out Hk. apply IH; [|done|done]. apply tick_one_keeps in Hk as [Ht Hd]. by eapply live_keeps.
Qed.

(** ** Against the list of running modulators *)

Definition abs_ctl1 (o : ctl) (a : abs_engine) : option abs_engine :=
  match o with
  | CStart id m => Some (abs_start id m a)
  | CStop id => Some (abs_stop id a)
  | CUpdate id k v => abs_update id k v a
  end.

Fixpoint abs_ctls (os : list ctl) (a : abs_engine) : option abs_engine :=
  match os with [] => Some a | o :: os => a ← abs_ctl1 o a; abs_ctls os a end.

Definition rep_state (e : option modulator_engine) (a : option abs_engine) : Prop :=
  match e, a with Some e, Some a => rep e a | None, None => True | _, _ => False end.

Lemma rep_ctls os : ∀ e a, rep e a → rep_state (ctls os e) (abs_ctls os a).
Proof.
  induction os as [|[id m|id|id k v] os IH]; intros e a Hr; cbn [ctls abs_ctls ctl1 abs_ctl1]; [done|..].
  - by apply IH, rep_start.
  - by apply IH, rep_stop.
  - pose proof (rep_update id k v e a Hr) as Hu.
    destruct (update_param id k v e), (abs_update id k v a); try done. by apply IH.
Qed.

Lemma rep_live e a : rep e a → live (table_ e) e.
Proof.
  intros Hr. assert (∀ id p, mods (table_ e) !! id = Some p → p ∈ dom (heap e)) as H; [|by split].
  intros id p Hp. pose proof (proj1 (rep_dom e a Hr id) (ex_intro _ p Hp)) as Hin.
  apply list_elem_of_fmap_1 in Hin as ([i m] & -> & Hin).
  destruct (rep_heap e a Hr _ _ Hin) as (q & Hq & Hm). cbn [fst] in Hp. rewrite Hp in Hq. injection Hq as <-.
  by apply elem_of_dom_2 in Hm.
Qed.

Lemma early_calls_keep guard ids before : ∀ e e', Forall (early guard ids e) before →
  ctls before e = Some e' → table_ e' = table_ e.
Proof.
  induction before as [|b before IH]; intros e e' Hb He; cbn [ctls] in He; [by injection He as ->|].
  apply Forall_cons in Hb as [Hb Hbs]. destruct (ctl1 b e) as [e1|] eqn:H1; [|done]. cbn in He.
  destruct (ctl1_early_keeps guard ids e e1 b Hb H1) as [Ht _]. rewrite <- Ht. apply IH; [|done].
  eapply Forall_impl; [exact Hbs|]. intros c. by apply early_table.
Qed.

(** An update of a modulator that runs when the tick begins. *)
Definition updates_running (a : abs_engine) (o : ctl) : Prop :=
  match o with CUpdate id _ _ => id ∈ (running a).*1 | _ => False end.

(** C4: A tick is atomic although it takes no lock.  Whatever the control thread
    does between the modulators of the loop, the callbacks and the engine that
    results are those of one of its serial executions: some of the updates, each
    of a modulator that was running when the tick began, then the whole tick on
    the modulators that were running, then everything else, both in the order
    in which they were called.  In particular starts, stops and replacements
    take effect with the next tick, and an update is never lost: it is heard in
    this tick or in the next. *)
Theorem tick_linearizable sched e a :
  rep e a →
  ∃ before after, shuffle before after (concat sched) ∧ Forall (updates_running a) before ∧
    rep_opt (concurrent_tick sched e)
      (a ← abs_ctls before a; '(a, cb) ← abs_tick beat rate a; a ← abs_ctls after a; Some (a, cb)).
Proof.
  intros Hr. pose proof (rep_order e a Hr) as Ho.
  destruct (tick_with_linear (table_ e) (tick_order (table_ e)) sched e) as (before & after & Hsh & Hb & Hres).
  { by eapply rep_live. } { rewrite Ho. apply (rep_nodup e a Hr). } { apply (rep_inj e a Hr). }
  exists before, after. split_and!; [done| |].
  { eapply Forall_impl; [exact Hb|]. intros [| |id k v]; [done..|]. intros (i & p & _ & _ & Hp).
    apply (rep_dom e a Hr). by eexists. }
  unfold concurrent_tick. rewrite Hres. unfold serial.
  pose proof (rep_ctls before e a Hr) as Hrb. destruct (ctls before e) as [e1|] eqn:He1, (abs_ctls before a) as [a1|]; try done.
  cbn [mbind option_bind]. rewrite <- (early_calls_keep _ _ _ _ _ Hb He1).
  pose proof (rep_tick beat rate e1 a1 Hrb) as Ht. unfold tick in Ht. unfold rep_opt in Ht |- *.
  destruct (tick_ids beat rate (table_ e1) _ e1) as [[e2 cb]|], (abs_tick beat rate a1) as [[a2 cb']|]; try done.
  destruct Ht as [Ht ->]. cbn [mbind option_bind].
  pose proof (rep_ctls after e2 a2 Ht) as Hra. by destruct (ctls after e2), (abs_ctls after a2).
Qed.
End tick.

(** A modulator that plays its parameter. *)
#[local] Instance level : Modulator f32 := {|
  mtick _ _ _ m := Some (m, out_cv m);
  mupdate _ v _ := Some v |}.

Definition two_levels : modulator_engine :=
  start "b" (AnyMod f32 level f1) (start "a" (AnyMod f32 level fhalf) engine_init).

(** After [a] has been ticked both are changed, and [b] is stopped: [b] plays its
    new value, [a] its old one. *)
Definition busy : list (list ctl) :=
  [[]; [CStop "a"; CUpdate "b" "level" f2; CStop "b"; CStart "c" (AnyMod f32 level f1)]].

Lemma tick_linearizable_witness :
  let a := abs_start "b" (AnyMod f32 level f1) (abs_start "a" (AnyMod f32 level fhalf) (Abs [] ∅)) in
  (map (λ '(id, o), (id, cv o)) ∘ snd <$> concurrent_tick f0 f1 busy two_levels = Some [("a"%string, fhalf); ("b"%string, f2)]) ∧
  ∃ before after, shuffle before after (concat busy) ∧ Forall (updates_running a) before ∧
    rep_opt (concurrent_tick f0 f1 busy two_levels)
      (a ← abs_ctls before a; '(a, cb) ← abs_tick f0 f1 a; a ← abs_ctls after a; Some (a, cb)).
Proof.
  split; [by vm_compute|]. apply tick_linearizable. apply rep_start, rep_start, rep_init.
Defined.
