(* ===== verification/Edn.v ===== *)
(** What the program uses of edn-cpp, the third-party EDN library.

    [edn::value] is a variant: [edn_view] says which alternative a value holds.
    The class states what the program relies on (a value is larger than what
    it contains); parsing is left abstract.  [tree] is an instance, for the
    witnesses. *)
From S2P Require Import Prelude Binary.

Inductive view (V : Type) :=
| VNil | VBool (b : bool) | VInt (z : Z) | VDouble (d : f64) | VString (s : string)
| VKeyword (name : string) | VVector (items : list V) | VMap (entries : list (V * V))
| VTagged (tag : string) (v : V) | VOther.
Arguments VNil {V}. Arguments VBool {V}. Arguments VInt {V}. Arguments VDouble {V}.
Arguments VString {V}. Arguments VKeyword {V}. Arguments VVector {V}. Arguments VMap {V}.
Arguments VTagged {V}. Arguments VOther {V}.

Class Edn (V : Type) := {
  edn_view : V → view V;
  edn_parse : string → option V;
  (** [map::find_kw]. *)
  find_kw : list (V * V) → string → option V;
  edn_size : V → nat;
  edn_size_pos v : 0 < edn_size v;
  edn_size_vector v l x : edn_view v = VVector l → x ∈ l → edn_size x < edn_size v;
  edn_size_map v m k x : edn_view v = VMap m → find_kw m k = Some x → edn_size x < edn_size v
}.

(** The accessors [is<T>] and [get<T>] in one. *)
Section accessors.
Context {V : Type} `{Edn V}.
Definition as_int (v : V) : option Z := match edn_view v with VInt z => Some z | _ => None end.
Definition as_double (v : V) : option f64 := match edn_view v with VDouble d => Some d | _ => None end.
Definition as_string (v : V) : option string := match edn_view v with VString s => Some s | _ => None end.
Definition as_bool (v : V) : option bool := match edn_view v with VBool b => Some b | _ => None end.
Definition as_keyword (v : V) : option string := match edn_view v with VKeyword k => Some k | _ => None end.
Definition as_vector (v : V) : option (list V) := match edn_view v with VVector l => Some l | _ => None end.
Definition as_map (v : V) : option (list (V * V)) := match edn_view v with VMap m => Some m | _ => None end.
End accessors.

(** ** A concrete value type *)

Inductive tree :=
| TNil | TBool (b : bool) | TInt (z : Z) | TDouble (d : f64) | TString (s : string)
| TKeyword (k : string) | TVector (l : list tree) | TMap (m : list (tree * tree)).

Fixpoint tree_size (t : tree) : nat :=
  match t with
  | TVector l => S (foldr (λ x n, tree_size x + n) 0 l)
  | TMap m => S (foldr (λ '(k, x) n, tree_size k + tree_size x + n) 0 m)
  | _ => 1
  end.

Definition tree_view (t : tree) : view tree :=
  match t with
  | TNil => VNil | TBool b => VBool b | TInt z => VInt z | TDouble d => VDouble d
  | TString s => VString s | TKeyword k => VKeyword k | TVector l => VVector l | TMap m => VMap m
  end.

Definition tree_find (m : list (tree * tree)) (k : string) : option tree :=
  snd <$> List.find (λ '(x, _), match x with TKeyword n => (n =? k)%string | _ => false end) m.

Lemma tree_size_pos t : 0 < tree_size t.
Proof. destruct t; simpl; lia. Qed.

Lemma tree_size_vector v l x : tree_view v = VVector l → x ∈ l → tree_size x < tree_size v.
Proof.
  intros Hv Hx. destruct v as [| | | | | |l'|]; simplify_eq/=.
  induction Hx as [x l|x y l Hx IH]; simpl; lia.
Qed.

Lemma tree_size_map v m k x : tree_view v = VMap m → tree_find m k = Some x → tree_size x < tree_size v.
Proof.
  intros Hv Hx. destruct v as [| | | | | | |m']; simplify_eq/=.
  unfold tree_find in Hx. apply fmap_Some in Hx as ([k' x'] & Hf & ->). apply List.find_some in Hf as [Hin _].
  simpl. induction m as [|[a b] m IH]; simpl in *; [done|]. destruct Hin as [[= -> ->]|Hin]; [lia|].
  specialize (IH Hin). lia.
Qed.

(** Parsing by a table of texts. *)
Definition tree_edn (texts : list (string * tree)) : Edn tree := {|
  edn_view := tree_view;
  edn_parse s := snd <$> List.find (λ '(x, _), (x =? s)%string) texts;
  find_kw := tree_find; edn_size := tree_size; edn_size_pos := tree_size_pos;
  edn_size_vector := tree_size_vector; edn_size_map := tree_size_map |}.
