(* ===== verification/Graph.v ===== *)
(** The control-graph interpreter ([src/graph_modulator.hpp/.cpp]): parsing an
    EDN expression into a topologically ordered array of nodes, and the forward
    pass that evaluates it on each tick. *)
From S2P Require Import Prelude Binary Modulator Edn.
Local Open Scope Z_scope.

(** ** Nodes *)

Inductive kind :=
| const_val | param_ref | mod_ref | beat_in | beat_phase | phasor | sin | cos | tri | saw
| square | scale | clamp | add | mul | neg | abs_val | mix | slew | sample_hold
| threshold | comparator.
#[export] Instance kind_eq_dec : EqDecision kind.
Proof. solve_decision. Defined.

Record cg_node := Node {
  type : kind; inputs : list Z; arg0 : f32; param_key : string; state0 : f32; state1 : f32 }.

Record control_graph := Graph {
  nodes : list cg_node; params : gmap string f32;
  out_cv : Z; out_aux : Z; out_gate : Z; out_gate2 : Z }.

Definition leaf (k : kind) (a : f32) (key : string) : cg_node :=
  Node k [-1; -1; -1; -1] a key f0 f0.
Definition pad_inputs (l : list Z) : list Z := l ++ replicate (4 - length l) (-1).
Definition inner (k : kind) (ins : list Z) : cg_node := Node k (pad_inputs ins) f0 "" f0 f0.

(** ** Parsing *)

(** The operators with inputs: for each slot, [None] is [child] and [Some def]
    is [child_or_const def]. *)
Definition op_spec (op : string) : option (kind * list (option f32)) :=
  if (op =? "beat-phase")%string then Some (beat_phase, [Some f1])
  else if (op =? "phasor")%string then Some (phasor, [Some f1])
  else if (op =? "sin")%string then Some (sin, [None])
  else if (op =? "cos")%string then Some (cos, [None])
  else if (op =? "tri")%string then Some (tri, [None])
  else if (op =? "saw")%string then Some (saw, [None])
  else if (op =? "square")%string then Some (square, [None; Some fhalf])
  else if (op =? "scale")%string then Some (scale, [None; Some f0; Some f1])
  else if (op =? "clamp")%string then Some (clamp, [None; Some f0; Some f1])
  else if (op =? "add")%string then Some (add, [None; None])
  else if (op =? "mul")%string then Some (mul, [None; None])
  else if (op =? "neg")%string then Some (neg, [None])
  else if (op =? "abs")%string then Some (abs_val, [None])
  else if (op =? "mix")%string then Some (mix, [None; None; Some fhalf])
  else if (op =? "slew")%string then Some (slew, [None; Some (lit32 1 100); Some (lit32 1 100)])
  else if (op =? "sample-hold")%string then Some (sample_hold, [None; None])
  else if (op =? "threshold")%string then Some (threshold, [None; Some fhalf])
  else if (op =? "comparator")%string then Some (comparator, [None; None])
  else None.

Definition mod_field (name : string) : f32 :=
  if (name =? "aux")%string then f1
  else if (name =? "gate")%string then f2
  else if (name =? "gate2")%string then lit32 3 1
  else f0.

Section parse.
Context {V : Type} `{Edn V}.

Definition leaf_op (op : string) (items : list V) : option cg_node :=
  let kw i := items !! i ≫= as_keyword in
  if (op =? "const")%string then
    Some (leaf const_val (match items !! 1%nat ≫= as_double with
                          | Some d => f32_of_f64 d | None => f0 end) "")
  else if (op =? "param")%string then Some (leaf param_ref f0 (default ""%string (kw 1%nat)))
  else if (op =? "mod-out")%string then
    Some (leaf mod_ref (match kw 2%nat with Some f => mod_field f | None => f0 end)
            (default ""%string (kw 1%nat)))
  else if (op =? "beat")%string then Some (leaf beat_in f0 "")
  else None.

(** Append a node; its index. *)
Definition emit (n : cg_node) (g : list cg_node) : list cg_node * Z :=
  (g ++ [n], Z.of_nat (length g)).

(** The slots of an operator, left to right, from the operand [args]. *)
Fixpoint parse_slots (parse : V → list cg_node → option (list cg_node * Z))
  (slots : list (option f32)) (args : list V) (g : list cg_node)
  : option (list cg_node * list Z) :=
  match slots with
  | [] => Some (g, [])
  | slot :: slots =>
      '(g, i) ← match args, slot with
                | v :: _, _ => parse v g
                | [], Some def => Some (emit (leaf const_val def "") g)
                | [], None => Some (g, -1)
                end;
      '(g, idxs) ← parse_slots parse slots (tail args) g;
      Some (g, i :: idxs)
  end.

(** [fuel]: the nesting depth; the outer [None] is exhausted fuel, the index
    [-1] an error. *)
Fixpoint parse_node (fuel : nat) (v : V) (g : list cg_node) : option (list cg_node * Z) :=
  match fuel with
  | O => None
  | S fuel =>
      match edn_view v with
      | VDouble d => Some (emit (leaf const_val (f32_of_f64 d) "") g)
      | VInt z => Some (emit (leaf const_val (f32_of_Z z) "") g)
      | VVector items =>
          match items with
          | [] => Some (g, -1)
          | hd :: args =>
              match as_keyword hd with
              | None => Some (g, -1)
              | Some op =>
                  match leaf_op op items with
                  | Some n => Some (emit n g)
                  | None =>
                      match op_spec op with
                      | None => Some (g, -1)
                      | Some (k, slots) =>
                          '(g, ins) ← parse_slots (parse_node fuel) slots args g;
                          Some (emit (inner k ins) g)
                      end
                  end
              end
          end
      | _ => Some (g, -1)
      end
  end.

Definition parse_out (fuel : nat) (m : list (V * V)) (kw : string) (g : list cg_node)
  : option (list cg_node * Z) :=
  match find_kw m kw with Some v => parse_node fuel v g | None => Some (g, -1) end.

Definition parse_control_graph (graph_expr : V) (ps : gmap string f32) : option control_graph :=
  let fuel := edn_size graph_expr in
  match edn_view graph_expr with
  | VMap m =>
      '(g, cv) ← parse_out fuel m "cv" [];
      '(g, aux) ← parse_out fuel m "aux" g;
      '(g, gate) ← parse_out fuel m "gate" g;
      '(g, gate2) ← parse_out fuel m "gate2" g;
      Some (Graph g ps cv aux gate gate2)
  | _ => '(g, cv) ← parse_node fuel graph_expr []; Some (Graph g ps cv (-1) (-1) (-1))
  end.
End parse.

(** ** Evaluation *)

Section eval.
Context `{Libm}.

Definition kTwoPi : f32 := lit32 6283185307 1000000000.

(** What a node reads besides its inputs: parameters, the engine's outputs
    ([None]: no engine), the beat and the tick length. *)
Record env := Env {
  e_params : gmap string f32; e_engine : option last_output_fn; e_beat : f64; e_dt : f32 }.

Definition with_state (n : cg_node) (s0 s1 : f32) : cg_node :=
  Node (type n) (inputs n) (arg0 n) (param_key n) s0 s1.

Definition mod_output (field : Z) (out : modulator_output) : f32 :=
  if field =? 1 then aux out
  else if field =? 2 then (if gate out then f1 else f0)
  else if field =? 3 then (if gate2 out then f1 else f0)
  else if (4 <=? field) && (field <? 4 + 16) then nth (Z.to_nat (field - 4)) (outputs out) f0
  else cv out.

(** [eval_node] on the values [x y z] of the first three inputs.  [None] where
    the source is undefined: [std::clamp] with its bounds crossed, the field
    cast out of range. *)
Definition eval_op (e : env) (n : cg_node) (x y z : f32) : option (f32 * cg_node) :=
  let ret v := Some (v, n) in
  match type n with
  | const_val => ret (arg0 n)
  | param_ref => ret (default f0 (e_params e !! param_key n))
  | mod_ref =>
      match e_engine e with
      | None => ret f0
      | Some lo =>
          match lo (param_key n) with
          | None => ret f0
          | Some out => field ← f_to_int (arg0 n); ret (mod_output field out)
          end
      end
  | beat_in => ret (f32_of_f64 (e_beat e))
  | beat_phase => ret (if x <=f f0 then f0 else ffmod (f32_of_f64 (e_beat e) /f x) f1)
  | phasor =>
      let ph := state0 n +f x *f e_dt e in
      let ph := if ph >=f f1 then ph -f ffloor ph else ph in
      Some (state0 n, with_state n ph (state1 n))
  | sin => ret (sinf (x *f kTwoPi))
  | cos => ret (cosf (x *f kTwoPi))
  | tri => ret (if x <f fhalf then lit32 4 1 *f x -f f1 else lit32 3 1 -f lit32 4 1 *f x)
  | saw => ret (x *f f2 -f f1)
  | square => ret (if x <f y then f1 else fm1)
  | scale => ret (y +f x *f (z -f y))
  | clamp => if z <f y then None else ret (clampf x y z)
  | add => ret (x +f y)
  | mul => ret (x *f y)
  | neg => ret (SFopp x)
  | abs_val => ret (SFabs x)
  | mix => let t := clampf z f0 f1 in ret (x *f (f1 -f t) +f y *f t)
  | slew =>
      let cur := state0 n in
      let cur :=
        if x >f cur then (if y >f f0 then fmin (cur +f e_dt e /f y) x else x)
        else (if z >f f0 then fmax (cur -f e_dt e /f z) x else x) in
      Some (cur, with_state n cur (state1 n))
  | sample_hold =>
      let held := if (y >f fhalf) && (state1 n <=f fhalf) then x else state0 n in
      Some (held, with_state n held y)
  | threshold => ret (if x >f y then f1 else f0)
  | comparator => ret (if x >f y then f1 else f0)
  end.

(** The lambda [in]: an unused or out-of-range slot reads 0. *)
Definition input (vals : list f32) (n : cg_node) (slot : nat) : f32 :=
  let idx := default (-1) (inputs n !! slot) in
  if (0 <=? idx) && (idx <? Z.of_nat (length vals)) then nth (Z.to_nat idx) vals f0 else f0.

Definition eval_node (e : env) (n : cg_node) (vals : list f32) : option (f32 * cg_node) :=
  eval_op e n (input vals n 0) (input vals n 1) (input vals n 2).

(** The forward pass from node [i] on; [vals] is the scratch buffer. *)
Fixpoint eval_from (e : env) (i : nat) (ns : list cg_node) (vals : list f32)
  : option (list cg_node * list f32) :=
  match ns with
  | [] => Some ([], vals)
  | n :: ns =>
      '(v, n) ← eval_node e n vals;
      '(ns, vals) ← eval_from e (S i) ns (<[i := v]> vals);
      Some (n :: ns, vals)
  end.

(** ** The modulator *)

Record graph_modulator := Mod {
  graph_ : control_graph; engine_ : bool; values_ : list f32 }.

Definition make (g : control_graph) (engine : bool) : graph_modulator :=
  Mod g engine (replicate (length (nodes g)) f0).

(** [values_[out]], when the output is wired. *)
Definition out_value (vals : list f32) (out : Z) : f32 :=
  if 0 <=? out then nth (Z.to_nat out) vals f0 else f0.

Definition tick (lo : last_output_fn) (beat : f64) (tick_rate_hz : f32) (m : graph_modulator)
  : option (graph_modulator * modulator_output) :=
  let g := graph_ m in
  let dt := if tick_rate_hz >f f0 then f1 /f tick_rate_hz else f0 in
  let e := Env (params g) (if engine_ m then Some lo else None) beat dt in
  let n := length (nodes g) in
  let vals := take n (values_ m) ++ replicate (n - length (values_ m)) f0 in
  '(ns, vals) ← eval_from e 0 (nodes g) vals;
  Some (Mod (Graph ns (params g) (out_cv g) (out_aux g) (out_gate g) (out_gate2 g)) (engine_ m) vals,
        Out (out_value vals (out_cv g)) (out_value vals (out_aux g))
          ((0 <=? out_gate g) && (out_value vals (out_gate g) >f fhalf))
          ((0 <=? out_gate2 g) && (out_value vals (out_gate2 g) >f fhalf)) 0 no_outputs).

Definition update (key : string) (value : f32) (m : graph_modulator) : graph_modulator :=
  let g := graph_ m in
  Mod (Graph (nodes g) (<[key := value]> (params g)) (out_cv g) (out_aux g) (out_gate g) (out_gate2 g))
    (engine_ m) (values_ m).

#[export] Instance graph_mod : Modulator graph_modulator := {
  mtick := tick; mupdate k v m := Some (update k v m) }.
End eval.

(** ** Reference semantics: expression trees

    A tree has no indices and no scratch buffer: a node holds its operator and
    state, and its slots hold sub-expressions ([None]: nothing connected). *)

Inductive expr := Expr (n : cg_node) (slots : list (option expr)).

Section expr_ind.
Variable P : expr → Prop.
Hypothesis Hstep : ∀ n slots, Forall (λ s, from_option P True s) slots → P (Expr n slots).
Fixpoint expr_ind' (x : expr) : P x :=
  match x with
  | Expr n slots =>
      Hstep n slots ((fix go l : Forall (λ s, from_option P True s) l :=
        match l with
        | [] => List.Forall_nil _
        | None :: l => List.Forall_cons _ _ _ (I : from_option P True None) (go l)
        | Some y :: l => List.Forall_cons _ _ _ (expr_ind' y : from_option P True (Some y)) (go l)
        end) slots)
  end.
End expr_ind.

Section ast.
Context {V : Type} `{Edn V}.

Fixpoint ast_slots (ast : V → option (option expr)) (slots : list (option f32)) (args : list V)
  : option (list (option expr)) :=
  match slots with
  | [] => Some []
  | slot :: slots =>
      s ← match args, slot with
          | v :: _, _ => ast v
          | [], Some def => Some (Some (Expr (leaf const_val def "") []))
          | [], None => Some None
          end;
      rest ← ast_slots ast slots (tail args);
      Some (s :: rest)
  end.

(** The tree an EDN form denotes; inner [None]: the form is not an expression. *)
Fixpoint ast (fuel : nat) (v : V) : option (option expr) :=
  match fuel with
  | O => None
  | S fuel =>
      match edn_view v with
      | VDouble d => Some (Some (Expr (leaf const_val (f32_of_f64 d) "") []))
      | VInt z => Some (Some (Expr (leaf const_val (f32_of_Z z) "") []))
      | VVector (hd :: args) =>
          match as_keyword hd with
          | None => Some None
          | Some op =>
              match leaf_op op (hd :: args), op_spec op with
              | Some n, _ => Some (Some (Expr n []))
              | None, None => Some None
              | None, Some (k, slots) =>
                  ins ← ast_slots (ast fuel) slots args; Some (Some (Expr (inner k []) ins))
              end
          end
      | _ => Some None
      end
  end.

Definition ast_out (fuel : nat) (m : list (V * V)) (kw : string) : option (option expr) :=
  match find_kw m kw with Some v => ast fuel v | None => Some None end.

(** The four outputs. *)
Definition ast_graph (v : V) : option (option expr * option expr * option expr * option expr) :=
  let fuel := edn_size v in
  match edn_view v with
  | VMap m =>
      cv ← ast_out fuel m "cv"; aux ← ast_out fuel m "aux";
      gate ← ast_out fuel m "gate"; gate2 ← ast_out fuel m "gate2";
      Some (cv, aux, gate, gate2)
  | _ => cv ← ast fuel v; Some (cv, None, None, None)
  end.
End ast.

Section eval_expr.
Context `{Libm}.

(** A slot's value, 0 when nothing is connected, and its next state. *)
Definition eval_opt (ev : expr → option (f32 * expr)) (s : option expr) : option (f32 * option expr) :=
  match s with
  | Some x => '(v, x) ← ev x; Some (v, Some x)
  | None => Some (f0, None)
  end.

Fixpoint eval_slots (ev : expr → option (f32 * expr)) (slots : list (option expr))
  : option (list f32 * list (option expr)) :=
  match slots with
  | [] => Some ([], [])
  | s :: slots =>
      '(v, s) ← eval_opt ev s;
      '(vs, slots) ← eval_slots ev slots;
      Some (v :: vs, s :: slots)
  end.

Fixpoint eval_expr (e : env) (x : expr) : option (f32 * expr) :=
  match x with
  | Expr n slots =>
      '(vs, slots) ← eval_slots (eval_expr e) slots;
      '(v, n) ← eval_op e n (nth 0 vs f0) (nth 1 vs f0) (nth 2 vs f0);
      Some (v, Expr n slots)
  end.

Record expr_mod := EMod {
  x_params : gmap string f32; x_engine : bool;
  x_cv : option expr; x_aux : option expr; x_gate : option expr; x_gate2 : option expr }.

Definition expr_tick (lo : last_output_fn) (beat : f64) (tick_rate_hz : f32) (m : expr_mod)
  : option (expr_mod * modulator_output) :=
  let dt := if tick_rate_hz >f f0 then f1 /f tick_rate_hz else f0 in
  let ev := eval_opt (eval_expr (Env (x_params m) (if x_engine m then Some lo else None) beat dt)) in
  '(a, cv) ← ev (x_cv m); '(b, aux) ← ev (x_aux m);
  '(c, gate) ← ev (x_gate m); '(d, gate2) ← ev (x_gate2 m);
  Some (EMod (x_params m) (x_engine m) cv aux gate gate2,
        Out a b (c >f fhalf) (d >f fhalf) 0 no_outputs).

Definition expr_update (key : string) (value : f32) (m : expr_mod) : expr_mod :=
  EMod (<[key := value]> (x_params m)) (x_engine m) (x_cv m) (x_aux m) (x_gate m) (x_gate2 m).

(** A history of ticks and updates, and the outputs of its ticks; the output
    [None] is undefined behaviour, after which the run ends. *)
Inductive graph_op := GTick (lo : last_output_fn) (beat : f64) (rate : f32) | GUpdate (key : string) (value : f32).

Definition graph_run := fix run (ops : list graph_op) (m : graph_modulator) : list (option modulator_output) :=
  match ops with
  | [] => []
  | GTick lo beat rate :: ops =>
      match tick lo beat rate m with Some (m, out) => Some out :: run ops m | None => [None] end
  | GUpdate k v :: ops => run ops (update k v m)
  end.

Definition expr_run := fix run (ops : list graph_op) (m : expr_mod) : list (option modulator_output) :=
  match ops with
  | [] => []
  | GTick lo beat rate :: ops =>
      match expr_tick lo beat rate m with Some (m, out) => Some out :: run ops m | None => [None] end
  | GUpdate k v :: ops => run ops (expr_update k v m)
  end.
End eval_expr.

(** ** Trees laid out as arrays *)

Definition set_inputs (n : cg_node) (idxs : list Z) : cg_node :=
  Node (type n) (pad_inputs idxs) (arg0 n) (param_key n) (state0 n) (state1 n).

(** The nodes of an optional tree laid out from index [b] on, and its index. *)
Definition lay_opt (lay : nat → expr → list cg_node) (b : nat) (s : option expr) : list cg_node * Z :=
  match s with
  | Some x => let ns := lay b x in (ns, Z.of_nat (b + length ns) - 1)
  | None => ([], -1)
  end.

Fixpoint lay_slots (lay : nat → expr → list cg_node) (b : nat) (slots : list (option expr))
  : list cg_node * list Z :=
  match slots with
  | [] => ([], [])
  | s :: slots =>
      let '(ns, i) := lay_opt lay b s in
      let '(ms, idxs) := lay_slots lay (b + length ns) slots in
      (ns ++ ms, i :: idxs)
  end.

Fixpoint lay (b : nat) (x : expr) : list cg_node :=
  match x with
  | Expr n slots => let '(ns, idxs) := lay_slots lay b slots in ns ++ [set_inputs n idxs]
  end.

Lemma lay_pos b x : (0 < length (lay b x))%nat.
Proof. destruct x as [n slots]. simpl. destruct (lay_slots _ _ _). rewrite length_app. simpl. lia. Qed.

(** An index a node may read at position [hi]: none, or an earlier one. *)
Definition idx_ok (hi : nat) (i : Z) : Prop := i = -1 ∨ 0 ≤ i < Z.of_nat hi.
(** [ns], laid out from [b] on, reads only backwards. *)
Definition topo (b : nat) (ns : list cg_node) : Prop :=
  ∀ k n, ns !! k = Some n → Forall (idx_ok (b + k)) (inputs n).

Lemma idx_ok_mono lo hi i : (lo ≤ hi)%nat → idx_ok lo i → idx_ok hi i.
Proof. unfold idx_ok. lia. Qed.

Lemma topo_app b ns ms : topo b ns → topo (b + length ns) ms → topo b (ns ++ ms).
Proof.
  intros H1 H2 k n [Hk|[Hle Hk]]%lookup_app_Some; [eauto|].
  specialize (H2 _ _ Hk). by replace (b + k)%nat with (b + length ns + (k - length ns))%nat by lia.
Qed.

Lemma topo_single b n idxs : Forall (idx_ok b) idxs → topo b [set_inputs n idxs].
Proof.
  intros H k m Hk. apply list_lookup_singleton_Some in Hk as [-> <-]. simpl. unfold pad_inputs.
  rewrite Nat.add_0_r. apply Forall_app. split; [done|]. apply Forall_replicate. by left.
Qed.

Definition lay_good (x : expr) : Prop := ∀ b, topo b (lay b x).

Lemma lay_opt_good b s ns i :
  from_option lay_good True s → lay_opt lay b s = (ns, i) → topo b ns ∧ idx_ok (b + length ns) i.
Proof.
  destruct s as [x|]; simpl; intros H [= <- <-].
  - split; [apply H|]. pose proof (lay_pos b x). right. lia.
  - split; [intros ? ? [=]|by left].
Qed.

Lemma lay_slots_good slots b ns idxs :
  Forall (λ s, from_option lay_good True s) slots → lay_slots lay b slots = (ns, idxs) →
  topo b ns ∧ Forall (idx_ok (b + length ns)) idxs ∧ length idxs = length slots.
Proof.
  intros HF. revert b ns idxs. induction HF as [|s slots Hs HF IH]; simpl; intros b ns idxs Hl.
  - simplify_eq. split_and!; [intros ? ? [=]|constructor|done].
  - destruct (lay_opt lay b s) as [n1 i] eqn:E1. destruct (lay_slots lay _ slots) as [n2 is2] eqn:E2.
    simplify_eq/=. apply lay_opt_good in E1 as [T1 I1]; [|done]. apply IH in E2 as (T2 & I2 & L2).
    rewrite length_app, Nat.add_assoc. split_and!; [by apply topo_app| |lia].
    constructor; [eapply idx_ok_mono; [|done]; lia|done].
Qed.

Lemma lay_topo x b : topo b (lay b x).
Proof.
  revert b. induction x as [n slots IH] using expr_ind'. intros b. simpl.
  destruct (lay_slots lay b slots) as [ns idxs] eqn:E. apply lay_slots_good in E as (T & I & _); [|done].
  apply topo_app; [done|]. by apply topo_single.
Qed.

Lemma all_lay_good slots : Forall (λ s, from_option lay_good True s) slots.
Proof. induction slots as [|[x|] l IH]; constructor; try done. exact (lay_topo x). Qed.

(** ** Parsing lays the denoted tree out *)

Section parse_spec.
Context {V : Type} `{Edn V}.

Definition placed (g : list cg_node) (s : option expr) : list cg_node * Z :=
  let '(ns, i) := lay_opt lay (length g) s in (g ++ ns, i).

Definition parses_to (parse : V → list cg_node → option (list cg_node * Z))
  (ast : V → option (option expr)) (v : V) : Prop := ∀ g, parse v g = placed g <$> ast v.

Lemma placed_leaf g n : inputs n = [-1; -1; -1; -1] → emit n g = placed g (Some (Expr n [])).
Proof.
  intros Hi. unfold placed, emit; simpl. f_equal; [|lia]. do 2 f_equal. destruct n. simpl in *. by subst.
Qed.

Lemma parse_slots_ast parse ast slots args g :
  Forall (parses_to parse ast) args →
  parse_slots parse slots args g =
  (λ ss, let '(ns, idxs) := lay_slots lay (length g) ss in (g ++ ns, idxs)) <$> ast_slots ast slots args.
Proof.
  revert args g. induction slots as [|slot slots IH]; intros args g Ha; simpl; [by rewrite app_nil_r|].
  set (so := match args with [] => _ | _ :: _ => _ end).
  set (so' := match args with [] => _ | _ :: _ => _ end).
  assert (so = placed g <$> so') as ->.
  { subst so so'. destruct Ha as [|v args Hv Ha]; [|apply Hv].
    destruct slot; simpl; [by rewrite placed_leaf|]. unfold placed; simpl. by rewrite app_nil_r. }
  destruct so' as [s|]; simpl; [|done]. unfold placed. destruct (lay_opt lay (length g) s) as [ns i] eqn:E.
  simpl. rewrite IH by (destruct Ha; simpl; [constructor|done]).
  destruct (ast_slots ast slots (tail args)) as [ss|]; simpl; [|done].
  rewrite E, length_app. destruct (lay_slots lay _ ss). by rewrite app_assoc.
Qed.

Lemma leaf_op_inputs op items n : leaf_op op items = Some n → inputs n = [-1; -1; -1; -1].
Proof. unfold leaf_op. intros Hl. repeat case_match; by simplify_eq. Qed.

Lemma parse_node_ast fuel v : parses_to (parse_node fuel) (ast fuel) v.
Proof.
  revert v. induction fuel as [|fuel IH]; intros v g; simpl; [done|].
  assert (∀ n, inputs n = [-1; -1; -1; -1] → Some (emit n g) = Some (placed g (Some (Expr n [])))) as Hleaf.
  { intros n Hn. f_equal. by apply placed_leaf. }
  assert ((g, -1) = placed g None) as Herr by (unfold placed; simpl; by rewrite app_nil_r).
  destruct (edn_view v) as [| |z|d| | |[|hd args]| | |]; simpl; try (by rewrite Herr); try (by apply Hleaf).
  destruct (as_keyword hd) as [op|]; [|by rewrite Herr].
  destruct (leaf_op op (hd :: args)) as [n|] eqn:El; [apply Hleaf; by eapply leaf_op_inputs|].
  destruct (op_spec op) as [[k slots]|]; [|by rewrite Herr].
  rewrite parse_slots_ast with (ast := ast fuel) by (apply Forall_forall; auto).
  destruct (ast_slots (ast fuel) slots args) as [ss|]; simpl; [|done].
  unfold placed, emit; simpl. destruct (lay_slots lay (length g) ss) as [ns idxs].
  f_equal. rewrite <- app_assoc. f_equal. rewrite !length_app. simpl. lia.
Qed.

(** The nesting depth is below the size of the value. *)
Lemma ast_slots_total (den : V → option (option expr)) slots args :
  Forall (λ v, is_Some (den v)) args → is_Some (ast_slots den slots args).
Proof.
  revert args. induction slots as [|slot slots IH]; intros args Ha; simpl; [eauto|].
  assert (is_Some (ast_slots den slots (tail args))) as [ss ->] by (apply IH; destruct Ha; simpl; [constructor|done]).
  destruct Ha as [|v args [s Hs] Ha]; [destruct slot; simpl; eauto|]. rewrite Hs. simpl. eauto.
Qed.

Lemma ast_total fuel v : (edn_size v ≤ fuel)%nat → is_Some (ast fuel v).
Proof.
  revert v. induction fuel as [|fuel IH]; intros v Hf; [pose proof (edn_size_pos v); lia|]. simpl.
  destruct (edn_view v) as [| | | | | |[|hd args]| | |] eqn:Ev; eauto.
  destruct (as_keyword hd); [|eauto]. destruct (leaf_op _ _); [eauto|]. destruct (op_spec _) as [[k slots]|]; [|eauto].
  destruct (ast_slots_total (ast fuel) slots args) as [ss ->]; [|simpl; eauto].
  apply Forall_forall. intros x Hx. apply IH.
  assert (edn_size x < edn_size v)%nat; [|lia]. eapply edn_size_vector; [done|]. by apply list_elem_of_further.
Qed.
End parse_spec.

(** ** The forward pass computes the values of the trees *)

Section forward.
Context `{Libm}.
Variable e : env.

Definition keeps (b : nat) (vals vals' : list f32) : Prop :=
  length vals' = length vals ∧ take b vals' = take b vals.
Definition reads (vals : list f32) (i : Z) (v : f32) : Prop :=
  (i = -1 ∧ v = f0) ∨ (0 ≤ i ∧ vals !! Z.to_nat i = Some v).

Lemma keeps_trans a b x y z : (a ≤ b)%nat → keeps a x y → keeps b y z → keeps a x z.
Proof.
  intros Hab [L1 T1] [L2 T2]. split; [congruence|]. rewrite <- T1.
  transitivity (take a (take b z)); [rewrite take_take; by f_equal; lia|].
  rewrite T2, take_take. f_equal. lia.
Qed.

Lemma keeps_reads b vals vals' i v : keeps b vals vals' → idx_ok b i → reads vals i v → reads vals' i v.
Proof.
  intros [_ T] Hi [?|[Hi0 Hv]]; [by left|]. right. split; [done|].
  destruct Hi as [->|Hi]; [lia|]. assert (Z.to_nat i < b)%nat by lia.
  by rewrite <- (lookup_take_lt vals' b), T, lookup_take_lt by done.
Qed.

Lemma eval_from_app i ns ms vals :
  eval_from e i (ns ++ ms) vals =
  ('(ns', vals) ← eval_from e i ns vals;
   '(ms', vals) ← eval_from e (i + length ns) ms vals; Some (ns' ++ ms', vals)).
Proof.
  revert i vals. induction ns as [|n ns IH]; intros i vals; simpl.
  - rewrite Nat.add_0_r. by destruct (eval_from e i ms vals) as [[]|].
  - destruct (eval_node e n vals) as [[v n']|]; simpl; [|done]. rewrite IH.
    destruct (eval_from e (S i) ns _) as [[ns' vals']|]; simpl; [|done].
    replace (S (i + length ns)) with (i + S (length ns))%nat by lia.
    by destruct (eval_from e (i + S (length ns)) ms vals') as [[]|].
Qed.

(** Evaluating what [lay] laid out is evaluating the tree. *)
Definition lay_evals (x : expr) : Prop := ∀ b vals,
  (b + length (lay b x) ≤ length vals)%nat →
  match eval_expr e x with
  | None => eval_from e b (lay b x) vals = None
  | Some (v, x') => length (lay b x') = length (lay b x) ∧ ∃ vals',
      eval_from e b (lay b x) vals = Some (lay b x', vals') ∧ keeps b vals vals' ∧
      vals' !! (b + length (lay b x) - 1)%nat = Some v
  end.

Lemma lay_opt_evals s b vals :
  from_option lay_evals True s → (b + length (lay_opt lay b s).1 ≤ length vals)%nat →
  match eval_opt (eval_expr e) s with
  | None => eval_from e b (lay_opt lay b s).1 vals = None
  | Some (v, s') =>
      length (lay_opt lay b s').1 = length (lay_opt lay b s).1 ∧
      (lay_opt lay b s').2 = (lay_opt lay b s).2 ∧ ∃ vals',
      eval_from e b (lay_opt lay b s).1 vals = Some ((lay_opt lay b s').1, vals') ∧ keeps b vals vals' ∧
      reads vals' (lay_opt lay b s).2 v
  end.
Proof.
  destruct s as [x|]; simpl; intros Hx Hb.
  - specialize (Hx b vals Hb). destruct (eval_expr e x) as [[v x']|]; simpl; [|done].
    destruct Hx as (Hl & vals' & He & Hk & Hv). split_and!; [done|by rewrite Hl|].
    exists vals'. split_and!; [done|done|]. right. pose proof (lay_pos b x). split; [lia|].
    rewrite <- Hv. f_equal. lia.
  - split_and!; [done|done|]. exists vals. split_and!; [done|done|by left].
Qed.

Lemma lay_slots_evals slots b vals :
  Forall (λ s, from_option lay_evals True s) slots →
  (b + length (lay_slots lay b slots).1 ≤ length vals)%nat →
  match eval_slots (eval_expr e) slots with
  | None => eval_from e b (lay_slots lay b slots).1 vals = None
  | Some (vs, slots') =>
      length (lay_slots lay b slots').1 = length (lay_slots lay b slots).1 ∧
      (lay_slots lay b slots').2 = (lay_slots lay b slots).2 ∧ ∃ vals',
      eval_from e b (lay_slots lay b slots).1 vals = Some ((lay_slots lay b slots').1, vals') ∧
      keeps b vals vals' ∧ Forall2 (reads vals') (lay_slots lay b slots).2 vs
  end.
Proof.
  intros HF. revert b vals. induction HF as [|s slots Hs HF IH]; intros b vals; simpl.
  { intros _. split_and!; [done|done|]. exists vals. split_and!; [done|done|constructor]. }
  destruct (lay_opt lay b s) as [n1 i] eqn:E1. destruct (lay_slots lay (b + length n1) slots) as [n2 is2] eqn:E2.
  simpl. rewrite length_app, eval_from_app. intros Hb.
  pose proof (lay_opt_evals s b vals Hs) as Ho. rewrite E1 in Ho. simpl in Ho. specialize (Ho ltac:(lia)).
  destruct (eval_opt (eval_expr e) s) as [[v s']|]; simpl; [|by rewrite Ho].
  destruct (lay_opt lay b s') as [n1' i'] eqn:E1'. simpl in Ho. destruct Ho as (Hl & -> & w & Hw & Hk & Hr).
  rewrite Hw. simpl. specialize (IH (b + length n1)%nat w). rewrite E2 in IH. simpl in IH.
  destruct Hk as [HkL HkT]. specialize (IH ltac:(lia)).
  destruct (eval_slots (eval_expr e) slots) as [[vs slots']|]; simpl; [|by rewrite IH].
  rewrite E1', Hl. destruct (lay_slots lay _ slots') as [n2' is2'] eqn:E2'. simpl in *.
  destruct IH as (Hl2 & -> & w2 & Hw2 & Hk2 & Hr2). rewrite !length_app. split_and!; [lia|done|].
  exists w2. rewrite Hw2. simpl. split_and!; [done|eapply keeps_trans; [|by split|done]; lia|].
  constructor; [|done]. eapply keeps_reads; [done| |done].
  by apply (lay_opt_good b s); [destruct s; simpl; [intros ?; apply lay_topo|]|].
Qed.

(** What [input] reads from the scratch buffer. *)
Lemma input_reads vals n idxs vs k :
  Forall2 (reads vals) idxs vs → (k < 4)%nat → input vals (set_inputs n idxs) k = nth k vs f0.
Proof.
  intros HF Hk. unfold input, set_inputs; simpl. unfold pad_inputs.
  destruct (idxs !! k) as [i|] eqn:Ei.
  - rewrite lookup_app_l by (by eapply lookup_lt_Some). rewrite Ei. simpl.
    destruct (Forall2_lookup_l _ _ _ _ _ HF Ei) as (v & Hv & [[-> ->]|[Hi Hr]]); simpl.
    + by rewrite (nth_lookup_Some _ _ _ _ Hv).
    + pose proof (lookup_lt_Some _ _ _ Hr). replace (_ && _) with true by (symmetry; lia).
      by rewrite (nth_lookup_Some _ _ _ _ Hr), (nth_lookup_Some _ _ _ _ Hv).
  - apply lookup_ge_None in Ei. rewrite lookup_app_r by done.
    rewrite lookup_replicate_2 by lia. simpl. symmetry. apply nth_overflow. by rewrite <- (Forall2_length _ _ _ HF).
Qed.

Lemma eval_op_inputs n idxs x y z :
  eval_op e (set_inputs n idxs) x y z =
  ('(v, n) ← eval_op e n x y z; Some (v, set_inputs n idxs)).
Proof.
  unfold eval_op. simpl. destruct (type n); try done; try (by case_match).
  destruct (e_engine e) as [lo|]; [|done]. destruct (lo (param_key n)); [|done]. by destruct (f_to_int (arg0 n)).
Qed.

Lemma lay_eval x : lay_evals x.
Proof.
  induction x as [n slots IH] using expr_ind'. intros b vals. simpl.
  pose proof (lay_slots_evals slots b vals IH) as Hs. destruct (lay_slots lay b slots) as [ns idxs] eqn:E.
  rewrite length_app, eval_from_app. simpl in *. intros Hb. specialize (Hs ltac:(lia)).
  destruct (eval_slots (eval_expr e) slots) as [[vs slots']|]; simpl; [|by rewrite Hs].
  destruct Hs as (Hl & Hi & w & Hw & [HkL HkT] & Hr). rewrite Hw. simpl.
  unfold eval_node. rewrite !(input_reads w n idxs vs) by (done || lia). rewrite eval_op_inputs.
  destruct (eval_op e n _ _ _) as [[v n']|]; simpl; [|done].
  destruct (lay_slots lay b slots') as [ns' idxs'] eqn:E'. simpl in *. subst idxs'.
  rewrite !length_app. split; [simpl; lia|]. eexists. split_and!; [done| |].
  - split; [by rewrite length_insert|]. rewrite take_insert_ge by lia. done.
  - replace (b + (length ns + 1) - 1)%nat with (b + length ns)%nat by lia. apply list_lookup_insert_eq. lia.
Qed.

Lemma all_lay_evals slots : Forall (λ s, from_option lay_evals True s) slots.
Proof. induction slots as [|[x|] l IH]; constructor; try done. exact (lay_eval x). Qed.
End forward.

(** ** The modulator *)

Definition outs (m : expr_mod) : list (option expr) := [x_cv m; x_aux m; x_gate m; x_gate2 m].

Definition layout (m : expr_mod) : control_graph :=
  let '(ns, idxs) := lay_slots lay 0 (outs m) in
  Graph ns (x_params m) (nth 0 idxs (-1)) (nth 1 idxs (-1)) (nth 2 idxs (-1)) (nth 3 idxs (-1)).

Definition as_expr_mod (engine : bool) (ps : gmap string f32)
  (o : option expr * option expr * option expr * option expr) : expr_mod :=
  let '(cv, aux, gate, gate2) := o in EMod ps engine cv aux gate gate2.

Section modulator.
Context `{Libm} {V : Type} `{Edn V}.

Lemma parse_out_ast fuel m kw g :
  parse_out fuel m kw g = placed g <$> ast_out fuel m kw.
Proof.
  unfold parse_out, ast_out. destruct (find_kw m kw); [apply parse_node_ast|].
  unfold placed. simpl. by rewrite app_nil_r.
Qed.

Lemma parse_control_graph_ast v ps engine :
  parse_control_graph v ps = (λ o, layout (as_expr_mod engine ps o)) <$> ast_graph v.
Proof.
  unfold parse_control_graph, ast_graph, layout, as_expr_mod, outs.
  assert (∀ s : option (option expr),
    ('(g, cv) ← placed [] <$> s; Some (Graph g ps cv (-1) (-1) (-1))) =
    (λ o, let '(cv, aux, gate, gate2) := o in
      let '(ns, idxs) := lay_slots lay 0 [cv; aux; gate; gate2] in
      Graph ns ps (nth 0 idxs (-1)) (nth 1 idxs (-1)) (nth 2 idxs (-1)) (nth 3 idxs (-1))) <$>
    (cv ← s; Some (cv, None, None, None))) as Hone.
  { intros [s|]; simpl; [|done]. unfold placed. simpl. destruct (lay_opt lay 0 s). simpl. by rewrite app_nil_r. }
  destruct (edn_view v) as [| | | | | | |m| |];
    try (rewrite parse_node_ast, Hone; by destruct (ast _ v)).
  rewrite parse_out_ast. destruct (ast_out _ m "cv") as [cv|]; simpl; [|done].
  destruct (placed [] cv) as [g1 i1] eqn:E1. simpl. rewrite parse_out_ast.
  destruct (ast_out _ m "aux") as [aux|]; simpl; [|done]. destruct (placed g1 aux) as [g2 i2] eqn:E2. simpl.
  rewrite parse_out_ast. destruct (ast_out _ m "gate") as [gt|]; simpl; [|done].
  destruct (placed g2 gt) as [g3 i3] eqn:E3. simpl. rewrite parse_out_ast.
  destruct (ast_out _ m "gate2") as [gt2|]; simpl; [|done]. destruct (placed g3 gt2) as [g4 i4] eqn:E4. simpl.
  unfold placed in *. repeat (case_match; simplify_eq/=). rewrite !length_app, ?Nat.add_0_r in *.
  repeat match goal with
    H1 : ?x = (_, _), H2 : ?x = (_, _) |- _ => rewrite H1 in H2; simplify_eq
  end.
  by rewrite app_nil_r, <- !app_assoc.
Qed.

Definition rep (m : expr_mod) (g : graph_modulator) : Prop :=
  graph_ g = layout m ∧ engine_ g = x_engine m.

Lemma reads_out_value vals i v : reads vals i v → out_value vals i = v.
Proof.
  unfold out_value. intros [[-> ->]|[Hi Hv]]; [done|]. replace (0 <=? i) with true by lia.
  by apply nth_lookup_Some.
Qed.

Lemma reads_gate vals i v : reads vals i v → (0 <=? i) && (out_value vals i >f fhalf) = (v >f fhalf).
Proof.
  intros Hr. rewrite (reads_out_value _ _ _ Hr). destruct Hr as [[-> ->]|[Hi _]]; [done|].
  by replace (0 <=? i) with true by lia.
Qed.

Lemma graph_tick_rep m g lo beat rate :
  rep m g →
  match expr_tick lo beat rate m with
  | None => tick lo beat rate g = None
  | Some (m', out) => ∃ g', tick lo beat rate g = Some (g', out) ∧ rep m' g'
  end.
Proof.
  intros [Hg He]. unfold tick, expr_tick. rewrite Hg, He.
  set (dt := if rate >f f0 then _ else _).
  set (e := Env _ (if x_engine m then _ else _) beat dt).
  set (vals := take _ (values_ g) ++ _).
  pose proof (lay_slots_evals e (outs m) 0 vals (all_lay_evals e _)) as Hs.
  assert (length vals = length (nodes (layout m))) as Hlen.
  { subst vals. rewrite length_app, length_replicate, length_take. lia. }
  unfold layout in *. destruct (lay_slots lay 0 (outs m)) as [ns idxs] eqn:E. simpl in *.
  specialize (Hs ltac:(lia)). simpl in e. fold e.
  destruct (eval_opt _ (x_cv m)) as [[a cv]|]; simpl in *; [|by rewrite Hs].
  destruct (eval_opt _ (x_aux m)) as [[b ax]|]; simpl in *; [|by rewrite Hs].
  destruct (eval_opt _ (x_gate m)) as [[c gt]|]; simpl in *; [|by rewrite Hs].
  destruct (eval_opt _ (x_gate2 m)) as [[d gt2]|]; simpl in *; [|by rewrite Hs].
  destruct Hs as (Hl & Hi & w & Hw & _ & Hr).
  assert (∃ i1 i2 i3 i4, idxs = [i1; i2; i3; i4]) as (i1 & i2 & i3 & i4 & ->).
  { apply Forall2_length in Hr as Hlr. simpl in Hlr. destruct idxs as [|? [|? [|? [|? [|]]]]]; simplify_eq/=. eauto. }
  repeat match goal with Hf : Forall2 _ (_ :: _) _ |- _ => inversion_clear Hf end.
  rewrite Hw. simpl. eexists. split.
  - erewrite !reads_gate, !reads_out_value by done. reflexivity.
  - split; [|done]. unfold layout, outs. simpl.
    repeat (case_match; simplify_eq/=). done.
Qed.

Lemma graph_update_rep m g key v : rep m g → rep (expr_update key v m) (update key v g).
Proof.
  intros [Hg He]. split; [|done]. unfold update. rewrite Hg. unfold layout, outs; simpl. by case_match.
Qed.

Lemma graph_run_expr ops m g : rep m g → graph_run ops g = expr_run ops m.
Proof.
  revert m g. induction ops as [|[lo beat rate|k v] ops IH]; intros m g Hr; simpl; [done| |].
  - pose proof (graph_tick_rep m g lo beat rate Hr) as Ht. destruct (expr_tick lo beat rate m) as [[m' out]|].
    + destruct Ht as (g' & -> & Hr'). by rewrite (IH _ _ Hr').
    + by rewrite Ht.
  - by apply IH, graph_update_rep.
Qed.

Lemma ast_graph_total v : is_Some (ast_graph v).
Proof.
  unfold ast_graph. destruct (ast_total (edn_size v) v) as [s Hs]; [done|].
  assert (∀ m kw, edn_view v = VMap m → is_Some (ast_out (edn_size v) m kw)) as Ho.
  { intros m kw Hv. unfold ast_out. destruct (find_kw m kw) as [x|] eqn:Ef; [|eauto].
    apply ast_total. pose proof (edn_size_map v m kw x Hv Ef). lia. }
  destruct (edn_view v) as [| | | | | | |m| |]; rewrite ?Hs; simpl; eauto.
  destruct (Ho m "cv" eq_refl) as [? ->], (Ho m "aux" eq_refl) as [? ->],
    (Ho m "gate" eq_refl) as [? ->], (Ho m "gate2" eq_refl) as [? ->]. simpl. eauto.
Qed.

(** A parsed graph, as the expressions it denotes. *)
Lemma parsed_graph_rep v ps engine :
  ∃ g o, parse_control_graph v ps = Some g ∧ ast_graph v = Some o ∧ rep (as_expr_mod engine ps o) (make g engine).
Proof.
  destruct (ast_graph_total v) as [o Ho]. pose proof (parse_control_graph_ast v ps engine) as Hp.
  rewrite Ho in Hp. eexists _, o. split_and!; [exact Hp|done|]. by destruct o as [[[]]].
Qed.

(** C5: Compiling and running a control graph is evaluating the expressions it
    was written as.  For every EDN value and every history of ticks and
    parameter updates, the modulator made from the parsed graph produces, tick
    by tick, what the recursive evaluation of the denoted expression trees
    produces (stateful operators included), undefined behaviour at the same
    tick included. *)
Theorem graph_evaluates_expressions (v : V) (ps : gmap string f32) (engine : bool) :
  ∃ g o, parse_control_graph v ps = Some g ∧ ast_graph v = Some o ∧
    ∀ ops, graph_run ops (make g engine) = expr_run ops (as_expr_mod engine ps o).
Proof.
  destruct (parsed_graph_rep v ps engine) as (g & o & Hg & Ho & Hr). exists g, o. eauto using graph_run_expr.
Qed.

(** C27: Parsing always terminates with a graph in topological order: every
    node reads only nodes before it (so one forward pass suffices and the
    recursion depth is the nesting of the form), and the wired outputs are
    nodes of the graph. *)
Theorem parse_topological (v : V) (ps : gmap string f32) :
  ∃ g, parse_control_graph v ps = Some g ∧ params g = ps ∧
    (∀ k n, nodes g !! k = Some n → Forall (λ i, i = -1 ∨ 0 ≤ i < Z.of_nat k) (inputs n)) ∧
    Forall (λ i, i = -1 ∨ 0 ≤ i < Z.of_nat (length (nodes g)))
      [out_cv g; out_aux g; out_gate g; out_gate2 g].
Proof.
  destruct (ast_graph_total v) as [[[[cv ax] gt] gt2] Ho]. pose proof (parse_control_graph_ast v ps true) as Hp.
  rewrite Ho in Hp. eexists. split; [exact Hp|]. unfold layout, as_expr_mod, outs.
  set (ss := [_; _; _; _]). assert (length ss = 4%nat) as Hss by done. clearbody ss.
  destruct (lay_slots lay 0 ss) as [ns idxs] eqn:E.
  apply lay_slots_good in E as (T & I & Hl); [|apply all_lay_good]. simpl. split_and!; [by destruct ns|exact T|].
  rewrite Hss in Hl. destruct idxs as [|? [|? [|? [|? [|]]]]]; simplify_eq/=. exact I.
Qed.
End modulator.
