(* ===== verification/LogicSpec.v ===== *)
(** What the gate and voltage logic modulators of [Logic] promise: the cipher
    is a delay line with a freezable tap, the bools ring a circular gate with a
    strictly monotone converter, the statues eight sample-and-holds, the CV
    channel decoder a partition of its span, let's splosh a set of exclusive
    partitions. *)
From S2P Require Import Prelude Binary Modulator Logic.
Local Open Scope Z_scope.

(** ** Cipher *)

Section cipher.
Import Cipher.

Definition edge lo (s : cipher) : bool :=
  ((if negb (clock_src_ s =? "")%string then read_gate_src (engine_ s) (clock_src_ s) lo else false)
   && negb (clock_prev_ s)) || clock_pending_ s.
Definition strobed lo (s : cipher) : bool :=
  read_gate_level (engine_ s) (strobe_src_ s) lo (strobe_ s).

(** The bits that entered the register, latest first, and those it held when
    it was last not strobed. *)
Definition pushed lo (s : cipher) (p : list bool) : list bool :=
  if edge lo s then bit_in lo s :: p else p.
Definition frozen lo (s : cipher) (p h : list bool) : list bool :=
  if strobed lo s then h else pushed lo s p.

Inductive cipher_reach : cipher → list bool → list bool → Prop :=
| cipher_made e c d1 d2 st : cipher_reach (make e c d1 d2 st) [] []
| cipher_ticked s p h lo :
    cipher_reach s p h → cipher_reach (tick lo s).1 (pushed lo s p) (frozen lo s p h)
| cipher_updated s p h k v : cipher_reach s p h → cipher_reach (update k v s) p h.

(** The eight latest bits as a register. *)
Definition word (p : list bool) : Z := bitmap (map (λ i, nth i p false) (seq 0 8)).

Lemma word_bits8 (P : list bool → Prop) p :
  (∀ b0 b1 b2 b3 b4 b5 b6 b7, P [b0; b1; b2; b3; b4; b5; b6; b7]) →
  P (map (λ i, nth i p false) (seq 0 8)).
Proof. intros H. apply H. Qed.

Lemma shift_word p b : shift (word p) b = word (b :: p).
Proof.
  unfold word. simpl (map _ (seq 0 8)). generalize (nth 0 p false), (nth 1 p false), (nth 2 p false),
    (nth 3 p false), (nth 4 p false), (nth 5 p false), (nth 6 p false), (nth 7 p false).
  by intros [] [] [] [] [] [] [] []; destruct b.
Qed.

Lemma bit_word_7 p : bit (word p) 7 = nth 7 p false.
Proof.
  unfold word. simpl (map _ (seq 0 8)). generalize (nth 0 p false), (nth 1 p false), (nth 2 p false),
    (nth 3 p false), (nth 4 p false), (nth 5 p false), (nth 6 p false), (nth 7 p false).
  by intros [] [] [] [] [] [] [] [].
Qed.

Lemma cipher_inv s p h :
  cipher_reach s p h → inner_reg_ s = word p ∧ output_reg_ s = word h.
Proof.
  induction 1 as [|s p h lo _ [Hi Ho]|s p h k v _ [Hi Ho]]; [done| |].
  - simpl. rewrite Hi, Ho. unfold pushed, frozen, pushed. fold (edge lo s) (strobed lo s).
    destruct (edge lo s), (strobed lo s); rewrite ?shift_word; done.
  - destruct s. unfold update. repeat case_match; done.
Qed.

(** The cipher is an eight-bit delay line with a freezable tap.  After any
    history, the serial output of a tick is high exactly on a clock edge that
    finds high the bit that entered eight edges before, the state word is the
    last eight bits that entered (the first eight bits of [p]) or, while the
    strobe is high, those of the last tick that was not strobed, and each
    voltage is the projection of that word. *)
Theorem cipher_delay_line s p h lo :
  cipher_reach s p h →
  let out := (tick lo s).2 in
  gate out = edge lo s && nth 7 p false ∧
  gate2 out = strobed lo s ∧
  state out = word (frozen lo s p h) ∧
  (∀ i v, (i < 4)%nat → outputs out !! i = Some v →
     v = project_cv (word (frozen lo s p h)) i) ∧
  cv out = project_cv (word (frozen lo s p h)) 0 ∧ aux out = project_cv (word (frozen lo s p h)) 1.
Proof.
  intros Hr out. pose proof (cipher_inv _ _ _ Hr) as [Hi Ho].
  pose proof (cipher_inv _ _ _ (cipher_ticked _ _ _ lo Hr)) as [_ Ho']. simpl in Ho'.
  subst out. simpl. fold (edge lo s) (strobed lo s) in *. rewrite Ho'. split_and!; try done.
  - destruct (edge lo s); [|done]. by rewrite Hi, bit_word_7.
  - intros i v Hlt. do 4 (destruct i as [|i]; [by intros [= <-]|]). lia.
Qed.

Lemma cipher_delay_line_witness :
  let s := update "clock_tick" f1 (make false "" "" "" "") in
  let out := (tick (λ _, None) s).2 in
  gate out = edge (λ _, None) s && nth 7 [] false ∧
  gate2 out = strobed (λ _, None) s ∧
  state out = word (frozen (λ _, None) s [] []) ∧
  (∀ i v, (i < 4)%nat → outputs out !! i = Some v →
     v = project_cv (word (frozen (λ _, None) s [] [])) i) ∧
  cv out = project_cv (word (frozen (λ _, None) s [] [])) 0 ∧
  aux out = project_cv (word (frozen (λ _, None) s [] [])) 1.
Proof.
  intros s. exact (cipher_delay_line s [] [] (λ _, None)
    (cipher_updated _ _ _ "clock_tick" f1 (cipher_made false "" "" "" ""))).
Defined.
End cipher.

(** ** Bools ring *)

Section bools.
Context `{Libm}.
Import BoolsRing.

Definition gates lo (s : bools_ring) : list bool :=
  zip_with (λ src v, read_gate_level (engine_ s) src lo v) (src_ s) (inputs_ s).

(** The converter, checked on its sixteen words. *)
Lemma step_dac_increasing a b : 0 <= a < 16 → 0 <= b < 16 → a < b → step_dac a <f step_dac b = true.
Proof.
  intros Ha Hb Hlt.
  assert (∀ k, 0 <= k < Z.of_nat 256 → k / 16 < k mod 16 →
    step_dac (k / 16) <f step_dac (k mod 16) = true) as H'.
  { refine (check_range (λ k, k / 16 < k mod 16 → step_dac (k / 16) <f step_dac (k mod 16) = true) 256 _).
    by vm_compute. }
  specialize (H' (a * 16 + b) ltac:(lia)).
  rewrite Z.div_add_l, (Z.div_small b), Z.add_0_r, Z.add_comm, Z_mod_plus_full, Z.mod_small in H' by lia.
  by apply H'.
Qed.

Lemma step_dac_range a : 0 <= a < 16 → in_range f0 f1 (step_dac a).
Proof. revert a. refine (check_range (λ a, f0 <=f step_dac a = true ∧ step_dac a <=f f1 = true) 16 _). by vm_compute. Qed.

Lemma ring_eq m ins :
  ring m ins = bitmap
    [apply_logic m (nth 0 ins false) (nth 1 ins false); apply_logic m (nth 1 ins false) (nth 2 ins false);
     apply_logic m (nth 2 ins false) (nth 3 ins false); apply_logic m (nth 3 ins false) (nth 0 ins false)].
Proof. reflexivity. Qed.

Lemma ring_range m ins : 0 <= ring m ins < 16.
Proof.
  assert (∀ b0 b1 b2 b3, 0 <= bitmap [b0; b1; b2; b3] < 16) as Hb by (intros [] [] [] []; simpl; lia).
  apply Hb.
Qed.

(** Xor and xnor of neighbours around the ring cancel out. *)
Lemma ring_parity m ins :
  m = xor_mode ∨ m = xnor_mode →
  xorb (xorb (Z.testbit (ring m ins) 0) (Z.testbit (ring m ins) 1))
       (xorb (Z.testbit (ring m ins) 2) (Z.testbit (ring m ins) 3)) = false.
Proof.
  intros Hm. rewrite ring_eq.
  generalize (nth 0 ins false), (nth 1 ins false), (nth 2 ins false), (nth 3 ins false).
  destruct Hm as [-> | ->]; intros [] [] [] []; reflexivity.
Qed.

(** The bools ring, when it does not sample: bit [i] of the state is the
    gate of input [i] and its clockwise neighbour, the gates are bits 0 and 1,
    the voltage is in [0, 1] and strictly increasing in the state (so it
    identifies it), and in the xor and xnor modes an even number of bits is
    set whatever the inputs. *)
Theorem bools_ring_outputs s lo rate :
  sampled_ s = false →
  let out := (tick lo rate s).2 in
  let ins := gates lo s in
  (∀ i, (i < 4)%nat → Z.testbit (state out) (Z.of_nat i) =
     apply_logic (mode_ s) (nth i ins false) (nth ((i + 1) mod 4) ins false)) ∧
  gate out = Z.testbit (state out) 0 ∧ gate2 out = Z.testbit (state out) 1 ∧
  in_range f0 f1 (cv out) ∧
  (∀ w, 0 <= w < 16 → (w < state out → step_dac w <f cv out = true) ∧
                      (state out < w → cv out <f step_dac w = true)) ∧
  (mode_ s = xor_mode ∨ mode_ s = xnor_mode →
   xorb (xorb (Z.testbit (state out) 0) (Z.testbit (state out) 1))
        (xorb (Z.testbit (state out) 2) (Z.testbit (state out) 3)) = false).
Proof.
  intros Hs. unfold tick. rewrite Hs. cbn [snd state cv gate gate2]. fold (gates lo s).
  pose proof (ring_range (mode_ s) (gates lo s)) as Hr. split_and!.
  - intros i Hi. rewrite ring_eq, bitmap_testbit.
    do 4 (destruct i as [|i]; [done|]). lia.
  - destruct (ring (mode_ s) (gates lo s)) as [|p|p]; [done| |lia]. by destruct p as [p|p|].
  - destruct (ring (mode_ s) (gates lo s)) as [|p|p]; [done| |lia].
    by destruct p as [[p|p|]|[p|p|]|].
  - by apply step_dac_range.
  - intros w Hw. split; intros; by apply step_dac_increasing.
  - apply ring_parity.
Qed.
End bools.

Lemma bools_ring_outputs_witness :
  let s := @BoolsRing.make BoolsRing.xor_mode false ["a"; "b"; "c"; "d"]%string "" in
  let out := (@BoolsRing.tick coarse_libm (λ _, None) f1 s).2 in
  state out = 0 ∧ in_range f0 f1 (cv out).
Proof.
  intros s out. split; [reflexivity|].
  exact (proj1 (proj2 (proj2 (proj2 (@bools_ring_outputs coarse_libm s (λ _, None) f1 eq_refl))))).
Defined.

(** ** Statues *)

Section statues.
Import Statues.

(** [mem k] is the value last written at address [k], 0 before any. *)
Inductive statues_reach : statues → (Z → f32) → Prop :=
| statues_made e i a : statues_reach (make e i a) (λ _, f0)
| statues_ticked s mem lo :
    statues_reach s mem →
    statues_reach (tick lo s).1 (λ k, if k =? address lo s then in_value lo s else mem k)
| statues_updated s mem k v s' :
    statues_reach s mem → update k v s = Some s' → statues_reach s' mem.

Lemma address_range lo s : 0 <= address lo s <= 7.
Proof. unfold address. apply clamp_int_range. lia. Qed.

Lemma statues_inv s mem :
  statues_reach s mem →
  length (slots_ s) = 8%nat ∧ ∀ k, 0 <= k < 8 → slots_ s !! Z.to_nat k = Some (mem k).
Proof.
  induction 1 as [|s mem lo _ [Hl Hm]|s mem k v s' _ [Hl Hm] Hu]; simpl.
  - split; [done|]. intros k Hk. change (replicate 8 f0 !! Z.to_nat k = Some f0). apply lookup_replicate_2. lia.
  - rewrite length_insert. split; [done|]. intros k Hk. pose proof (address_range lo s).
    destruct (Z.eqb_spec k (address lo s)) as [->|Hne].
    + apply list_lookup_insert_eq. lia.
    + rewrite list_lookup_insert_ne by lia. by apply Hm.
  - destruct s. unfold update in Hu. repeat case_match; simplify_eq/=; try done.
    destruct (f_round_int v); by simplify_eq/=.
Qed.

(** Statues are eight sample-and-holds.  After any history, a tick puts on
    output [k] the value of the input at the last tick that addressed slot [k]
    (this one included), 0 if none did; the address is always a slot, the main
    voltage is the input itself, and the gate is high exactly when the address
    differs from that of the previous tick. *)
Theorem statues_sample_hold s mem lo :
  statues_reach s mem →
  let out := (tick lo s).2 in
  let addr := address lo s in
  0 <= addr < 8 ∧ state out = addr ∧
  (∀ k, 0 <= k < 8 → outputs out !! Z.to_nat k =
     Some (if k =? addr then in_value lo s else mem k)) ∧
  cv out = in_value lo s ∧ aux out = in_value lo s ∧
  gate out = negb (addr =? prev_addr_ s) ∧ prev_addr_ (tick lo s).1 = addr.
Proof.
  intros Hr out addr. pose proof (address_range lo s) as Ha.
  pose proof (statues_inv _ _ Hr) as [Hl _].
  pose proof (statues_inv _ _ (statues_ticked _ _ lo Hr)) as [Hl' Hm]. simpl in Hl', Hm.
  subst out addr. simpl. split_and!; try done; try lia.
  - intros k Hk. unfold set_outputs. rewrite lookup_app_l by lia. by apply Hm.
  - apply nth_lookup_Some. rewrite Hm by lia. by rewrite Z.eqb_refl.
Qed.

Lemma statues_sample_hold_witness :
  let s := make false "" "" in
  let out := (tick (λ _, None) s).2 in
  0 <= address (λ _, None) s < 8 ∧ gate out = true ∧ outputs out !! 3%nat = Some f0.
Proof.
  intros s out.
  destruct (statues_sample_hold s (λ _, f0) (λ _, None) (statues_made false "" "")) as (H1 & _ & H2 & _ & _ & H3 & _).
  split_and!; [exact (proj1 H1)|exact (proj2 H1)|exact H3|exact (H2 3 ltac:(lia))].
Defined.
End statues.

(** ** CV channel decoder *)

Section cv_channel.
Import CvChannel.

(** The windows of two neighbours leave no float between them. *)
Definition adjacent (hi lo : f32) : bool :=
  (lo <=f hi) ||
  match hi, lo with
  | S754_finite false m e, S754_finite false m' e' => (e =? e')%Z && (Pos.succ m =? m')%positive
  | S754_finite true m e, S754_finite true m' e' => (e =? e')%Z && (m =? Pos.succ m')%positive
  | _, _ => false
  end.

Lemma adjacent_spec hi lo x :
  adjacent hi lo = true → is_nan hi = false → is_nan lo = false → is_nan x = false →
  x <=f hi = true ∨ lo <=f x = true.
Proof.
  unfold adjacent. intros [H|H]%orb_true_iff Hh Hl Hx.
  - destruct (SFleb_total x hi Hx Hh) as [?|?]; [by left|right]. by eapply SFleb_trans.
  - rewrite !SFleb_key by done.
    destruct hi as [| | |[] m e], lo as [| | |[] m' e']; try done;
      apply andb_true_iff in H as [->%Z.eqb_eq H%Pos.eqb_eq]; subst;
      destruct (fkey x) as [[a b] c]; simpl in *; lia.
Qed.

(** The top of the highest window: just below 1 with 5 or 7 channels. *)
Definition top (n : Z) : f32 := (window n f1 (n - 1)).2.

Definition covers (n : Z) : bool :=
  ((window n f1 0).1 <=f fm1) &&
  forallb (λ ch, adjacent (window n f1 (Z.of_nat ch)).2 (window n f1 (Z.of_nat ch + 1)).1)
    (seq 0 (Z.to_nat n - 1)) &&
  forallb (λ ch, let '(lo, hi) := window n f1 (Z.of_nat ch) in negb (is_nan lo) && negb (is_nan hi))
    (seq 0 (Z.to_nat n)).

Lemma covers_all n : 1 <= n <= 8 → covers n = true.
Proof.
  intros Hn. assert (∀ k, 0 <= k < Z.of_nat 8 → covers (k + 1) = true) as H.
  { refine (check_range (λ k, covers (k + 1) = true) 8 _). by vm_compute. }
  replace n with (n - 1 + 1) by lia. apply H. lia.
Qed.

(** Going up the windows from the lowest. *)
Lemma window_search n span k :
  covers n = true → in_range fm1 (window n f1 (Z.of_nat k)).2 span → (k < Z.to_nat n)%nat →
  ∃ ch, (ch <= k)%nat ∧ (window n f1 (Z.of_nat ch)).1 <=f span = true ∧
        span <=f (window n f1 (Z.of_nat ch)).2 = true.
Proof.
  intros Hc [Hlo Hhi] Hk. unfold covers in Hc.
  apply andb_true_iff in Hc as [[H0 Hadj]%andb_true_iff Hn].
  rewrite forallb_forall in Hadj, Hn.
  assert (is_nan span = false) as Hs by (by destruct (SFleb_nan_l _ _ Hlo)).
  assert (∀ ch, (ch < Z.to_nat n)%nat →
    is_nan (window n f1 (Z.of_nat ch)).1 = false ∧ is_nan (window n f1 (Z.of_nat ch)).2 = false) as Hnan.
  { intros ch Hch. specialize (Hn ch ltac:(apply in_seq; lia)). destruct (window n f1 (Z.of_nat ch)) as [lo hi].
    simpl. destruct (is_nan lo), (is_nan hi); done. }
  revert Hhi. induction k as [|k IH]; intros Hhi.
  - exists 0%nat. split_and!; [lia| |done]. by eapply SFleb_trans.
  - destruct (adjacent_spec (window n f1 (Z.of_nat k)).2 (window n f1 (Z.of_nat k + 1)).1 span) as [Hle|Hge].
    + apply Hadj, in_seq. lia.
    + apply Hnan. lia.
    + replace (Z.of_nat k + 1) with (Z.of_nat (S k)) by lia. apply Hnan. lia.
    + done.
    + destruct IH as (ch & ? & ?); [lia|done|]. exists ch. split; [lia|done].
    + exists (S k). replace (Z.of_nat (S k)) with (Z.of_nat k + 1) in * by lia. done.
Qed.

Definition bits lo (s : cv_channel) : Z :=
  bitmap (map (λ i, channel_active s (Z.of_nat i) (read_span lo s)) (seq 0 (Z.to_nat (channels_ s)))).

Lemma bits_zero lo s :
  bits lo s = 0 ↔ ∀ ch, (ch < Z.to_nat (channels_ s))%nat → channel_active s (Z.of_nat ch) (read_span lo s) = false.
Proof.
  unfold bits. generalize (read_span lo s). intros span.
  assert (∀ l, bitmap l = 0 ↔ Forall (λ b, b = false) l) as Hb.
  { intros l. induction l as [|b l IH]; cbn [bitmap]; [by split|].
    rewrite Forall_cons, <- IH. split; [destruct b; split; [lia|lia| |]; try lia; done|].
    intros [-> ->]. done. }
  rewrite Hb, Forall_map, Forall_forall. split.
  - intros H ch Hch. apply H, list_elem_of_In, in_seq. lia.
  - intros H ch Hch%list_elem_of_In%in_seq. apply H. lia.
Qed.

(** With the default [space] of 1 the decoder covers its band: whatever the
    number of channels, every span from -1 to the top of the highest window
    activates a channel.  That top is 1 itself except with 5 or 7 channels,
    where rounding puts it just below and full scale activates no channel. *)
Theorem cv_channel_coverage s lo rate :
  1 <= channels_ s <= 8 → space_ s = f1 → clocked_ s = false →
  let n := channels_ s in
  let out := (tick lo rate s).2 in
  (in_range fm1 (top n) (read_span lo s) → gate out = true) ∧
  (n ≠ 5 ∧ n ≠ 7 → top n = f1) ∧
  (n = 5 ∨ n = 7 → read_span lo s = f1 → gate out = false).
Proof.
  intros Hn Hsp Hcl n out. subst out. unfold tick. rewrite Hcl. cbn [snd gate]. fold (bits lo s).
  split_and!.
  - intros Hr. destruct (window_search n (read_span lo s) (Z.to_nat (n - 1))) as (ch & Hch & H1 & H2).
    + by apply covers_all.
    + rewrite Z2Nat.id by lia. done.
    + lia.
    + apply negb_true_iff, Z.eqb_neq. intros Hz. rewrite bits_zero in Hz. specialize (Hz ch ltac:(lia)).
      unfold channel_active in Hz. rewrite Hsp in Hz. subst n.
      destruct (window (channels_ s) f1 (Z.of_nat ch)) as [l h]. simpl in *. by rewrite H1, H2 in Hz.
  - intros [H5 H7]. assert (n = 1 ∨ n = 2 ∨ n = 3 ∨ n = 4 ∨ n = 6 ∨ n = 8) as Hc by lia.
    destruct Hc as [->|[->|[->|[->|[->| ->]]]]]; by vm_compute.
  - intros Hc Hspan. apply negb_false_iff, Z.eqb_eq, bits_zero. intros ch Hch. rewrite Hspan.
    unfold channel_active. rewrite Hsp. fold n. fold n in Hch.
    assert (∀ k, 0 <= k < Z.of_nat 7 →
      ((window 7 f1 k).1 <=f f1) && (f1 <=f (window 7 f1 k).2) = false ∧
      (k < 5 → ((window 5 f1 k).1 <=f f1) && (f1 <=f (window 5 f1 k).2) = false)) as H57.
    { refine (check_range (λ k, ((window 7 f1 k).1 <=f f1) && (f1 <=f (window 7 f1 k).2) = false ∧
      (k < 5 → ((window 5 f1 k).1 <=f f1) && (f1 <=f (window 5 f1 k).2) = false)) 7 _). by vm_compute. }
    specialize (H57 (Z.of_nat ch) ltac:(destruct Hc as [->| ->]; lia)) as [H7 H5].
    destruct Hc as [->| ->]; [specialize (H5 ltac:(lia))|]; by destruct (window _ f1 (Z.of_nat ch)).
Qed.

Lemma cv_channel_coverage_witness :
  let s := update "span" f1 (make 5 false "" field_cv) in
  gate (tick (λ _, None) f1 s).2 = false ∧ in_range fm1 (top 5) f0 ∧
  gate (tick (λ _, None) f1 (make 5 false "" field_cv)).2 = true.
Proof.
  intros s. split_and!.
  - exact (proj2 (proj2 (cv_channel_coverage s (λ _, None) f1 ltac:(vm_compute; split; discriminate) eq_refl eq_refl))
      (or_introl eq_refl) eq_refl).
  - by split; vm_compute.
  - exact (proj1 (cv_channel_coverage (make 5 false "" field_cv) (λ _, None) f1
      ltac:(vm_compute; split; discriminate) eq_refl eq_refl) ltac:(split; vm_compute; reflexivity)).
Defined.
End cv_channel.

(** ** Let's splosh *)

Section splosh.
Import Splosh.

Lemma round_not_positive m e l : f0 <f binary_round_aux 24 128 true m e l = false.
Proof.
  unfold binary_round_aux. destruct (shr_fexp 24 128 m e l) as [r e'].
  destruct (shr_fexp _ _ _ _ _) as [r' e'']. destruct (shr_m r'); [done| |done]. by destruct (e'' <=? _).
Qed.

Lemma binary_round_not_positive m e : f0 <f binary_round 24 128 true m e = false.
Proof. unfold binary_round. destruct (shl_align _ _ _). apply round_not_positive. Qed.

Lemma normalize_antisym d e :
  f0 <f binary_normalize 24 128 d e false = true → f0 <f binary_normalize 24 128 (- d) e false = false.
Proof.
  destruct d as [|p|p]; cbn [Z.opp binary_normalize]; [done|intros _; apply binary_round_not_positive|].
  by rewrite binary_round_not_positive.
Qed.

(** Rounding keeps the sign of a difference. *)
Lemma fsub_antisym x y : f0 <f (x -f y) = true → f0 <f (y -f x) = false.
Proof.
  intros H. destruct x as [[]|[]| |sx mx ex], y as [[]|[]| |sy my ey]; try done; try (by destruct sy);
    try (by destruct sx).
  unfold fsub, SFsub in *. rewrite (Z.min_comm ey ex).
  apply normalize_antisym in H. by rewrite Z.opp_sub_distr, Z.add_comm in H.
Qed.

Lemma partition_nth lo s m : (m < 16)%nat →
  outputs (tick lo s).2 !! m = Some (partition (inputs lo s) (Z.of_nat m)).
Proof.
  intros Hm. unfold tick. cbn [snd outputs]. unfold set_outputs.
  rewrite lookup_app_l by (rewrite length_map, length_seq; lia).
  rewrite list_lookup_fmap. rewrite lookup_seq_lt by lia. done.
Qed.

Lemma bit_partner m i : (m < 16)%nat → (i < 4)%nat →
  bit (Z.of_nat (15 - m)) (Z.of_nat i) = negb (bit (Z.of_nat m) (Z.of_nat i)).
Proof.
  intros Hm Hi. do 16 (destruct m as [|m]; [do 4 (destruct i as [|i]; [reflexivity|]); lia|]). lia.
Qed.

Lemma group_sum_partner b m ins :
  (m < 16)%nat → (length ins ≤ 4)%nat →
  group_sum b (Z.of_nat (15 - m)) ins = group_sum (negb b) (Z.of_nat m) ins.
Proof.
  intros Hm Hl. unfold group_sum. do 2 f_equal. apply map_ext_in. intros i [_ Hi]%in_seq.
  rewrite bit_partner by lia. by destruct b, (bit (Z.of_nat m) (Z.of_nat i)).
Qed.

Lemma fmax_positive x : f0 <f fmax f0 x = (f0 <f x).
Proof. unfold fmax. by destruct (f0 <f x) eqn:E. Qed.

(** The sixteen partitions come in exclusive pairs: of mask [m] and its
    complement at most one output is positive, whatever the inputs (NaN and
    infinities included); the all-positive partition is the second voltage and
    its gate, so the all-negative output is not positive when the gate is on. *)
Theorem splosh_partners_exclusive lo s m x y :
  length (src_ s) = 4%nat → (m < 16)%nat →
  let out := (tick lo s).2 in
  outputs out !! m = Some x → outputs out !! (15 - m)%nat = Some y →
  (f0 <f x = true → f0 <f y = false) ∧
  (gate out = true → f0 <f partition (inputs lo s) 0 = false).
Proof.
  intros Hl Hm out Hx Hy.
  assert (length (inputs lo s) ≤ 4)%nat as Hin by (unfold inputs; rewrite length_zip_with; lia).
  assert (∀ k, (k < 16)%nat → f0 <f partition (inputs lo s) (Z.of_nat k) = true →
    f0 <f partition (inputs lo s) (Z.of_nat (15 - k)) = false) as Hex.
  { intros k Hk. unfold partition. rewrite !group_sum_partner by done. simpl. rewrite !fmax_positive.
    apply fsub_antisym. }
  subst out. rewrite partition_nth in Hx, Hy by lia. simplify_eq. split; [by apply Hex|].
  intros Hg. apply (Hex 15%nat); [lia|exact Hg].
Qed.

Lemma splosh_partners_exclusive_witness :
  let s := update "c" f1 (make false ["";"";"";""]%string) in
  let out := (tick (λ _, None) s).2 in
  gate out = true ∧ (f0 <f f1 = true → f0 <f f0 = false).
Proof.
  intros s out. split; [reflexivity|].
  exact (proj1 (splosh_partners_exclusive (λ _, None) s 15 f1 f0 eq_refl ltac:(lia) eq_refl eq_refl)).
Defined.
End splosh.
