(* ===== verification/SignalSpec.v ===== *)
(** What the random and segmented modulators of [Signal] promise: the
    stochastic generator stays inside its buffers and loops or freezes exactly
    with [deja_vu]; [segment_<n>_<field>] keys address the segment they name. *)
From S2P Require Import Prelude Binary Modulator Signal.
From stdpp Require Import pretty.
Local Open Scope Z_scope.

(** ** Stochastic *)

Section stochastic.
Context `{Libm}.
Import Stochastic.

(** The states after any history of ticks and updates. *)
Inductive stochastic_reach : stochastic → Prop :=
| stochastic_made : stochastic_reach make
| stochastic_ticked s rate : stochastic_reach s → stochastic_reach (tick rate s).1
| stochastic_updated s k v s' : stochastic_reach s → update k v s = Some s' → stochastic_reach s'.

(** Every index the generator uses is inside its two buffers. *)
Record in_buffers (s : stochastic) : Prop := InBuffers {
  cv_len : length (cv_buf_ s) = kMaxLength;
  gate_len : length (gate_buf_ s) = kMaxLength;
  len_ok : 1 <= length_ s <= 16;
  write_ok : 0 <= write_pos_ s < 16;
  read_ok : 0 <= read_pos_ s < 16;
  rand_ok : is_u32 (rand_state_ s) }.

Lemma rem_range a n : 0 <= a → 1 <= n <= 16 → 0 <= Z.rem a n < 16.
Proof. intros. pose proof (Z.rem_bound_pos a n). lia. Qed.

Lemma chance_u32 flag p r : is_u32 r → is_u32 (chance flag p r).1.
Proof. intros Hr. unfold chance. destruct flag; [apply lcg_u32|done]. Qed.

Lemma generate_cv_u32 s r : is_u32 (generate_cv s r).1.
Proof. unfold generate_cv. destruct (next_random r) as [r' x] eqn:E. injection E as <- _. apply lcg_u32. Qed.

Lemma event_in_buffers s phase : in_buffers s → in_buffers (event s phase).
Proof.
  intros [Hc Hg Hl Hw Hr _]. unfold event.
  destruct (next_random (rand_state_ s)) as [r0 u] eqn:E0. injection E0 as Er _.
  assert (is_u32 r0) as Hr0 by (subst; apply lcg_u32).
  pose proof (chance_u32 (deja_vu_ s >f f0) (fmin (deja_vu_ s *f f2) f1) r0 Hr0) as Hr1.
  destruct (chance (deja_vu_ s >f f0) _ r0) as [r1 replay].
  pose proof (chance_u32 (deja_vu_ s >f fhalf) (fmax ((deja_vu_ s -f fhalf) *f f2) f0) r1 Hr1) as Hr2.
  destruct (chance (deja_vu_ s >f fhalf) _ r1) as [r2 freeze].
  assert (0 <= (if freeze then read_pos_ s else Z.rem (read_pos_ s + 1) (length_ s)) < 16)
    by (destruct freeze; [done|apply rem_range; lia]).
  destruct replay; [by split|].
  destruct (next_random r2) as [r3 w]. pose proof (generate_cv_u32 s r3) as Hr4.
  destruct (generate_cv s r3) as [r4 cv].
  split; cbn [cv_buf_ gate_buf_ length_ write_pos_ read_pos_ rand_state_]; rewrite ?length_insert; try done.
  apply rem_range; lia.
Qed.

Lemma tick_in_buffers s rate : in_buffers s → in_buffers (tick rate s).1.
Proof.
  intros Hs. unfold tick, set_phase. destruct (rate <=f f0); [by destruct Hs; split|].
  case_match; [by destruct Hs; split|]. by apply event_in_buffers.
Qed.

Lemma update_in_buffers s k v s' : in_buffers s → update k v s = Some s' → in_buffers s'.
Proof.
  intros [Hc Hg Hl Hw Hr Hs] Hu. destruct s. unfold update in Hu.
  repeat case_match; simplify_eq/=; try (split; assumption).
  all: destruct (f_round_int v) as [n|]; simplify_eq/=; split; try assumption; simpl.
  pose proof (clamp_int_range n 1 16). lia.
Qed.

Lemma stochastic_in_buffers s : stochastic_reach s → in_buffers s.
Proof.
  induction 1 as [|s rate _ IH|s k v s' _ IH Hu].
  - split; vm_compute; try done; split; done || (intros; discriminate).
  - by apply tick_in_buffers.
  - by eapply update_in_buffers.
Qed.

(** A probability of 1 always comes true. *)
Lemma chance_one flag r : flag = true → is_u32 r → (chance flag f1 r).2 = true.
Proof. intros -> Hr. unfold chance, next_random. simpl. by apply rand_float_range, lcg_u32. Qed.

(** One event with [deja_vu] at 0.5 ([stride] 1) or 1 ([stride] 0). *)
Lemma event_replay s phase stride :
  in_buffers s →
  (deja_vu_ s = fhalf ∧ stride = 1) ∨ (deja_vu_ s = f1 ∧ stride = 0) →
  let s' := event s phase in
  deja_vu_ s' = deja_vu_ s ∧ depth_ s' = depth_ s ∧ length_ s' = length_ s ∧
  cv_buf_ s' = cv_buf_ s ∧ gate_buf_ s' = gate_buf_ s ∧
  read_pos_ s' = (if stride =? 0 then read_pos_ s else (read_pos_ s + 1) mod length_ s) ∧
  cv_out_ s' = nth (Z.to_nat (read_pos_ s)) (cv_buf_ s) f0 ∧
  gate_out_ s' = nth (Z.to_nat (read_pos_ s)) (gate_buf_ s) false.
Proof.
  intros [_ _ Hl _ Hr _] Hd. unfold event.
  destruct (next_random (rand_state_ s)) as [r0 u] eqn:E0. injection E0 as Er _.
  assert (is_u32 r0) as Hr0 by (subst; apply lcg_u32).
  assert (f1 = fmin (deja_vu_ s *f f2) f1 ∧ (deja_vu_ s >f f0) = true ∧
    ((deja_vu_ s >f fhalf) = false ∧ stride = 1 ∨
     f1 = fmax ((deja_vu_ s -f fhalf) *f f2) f0 ∧ (deja_vu_ s >f fhalf) = true ∧ stride = 0)) as (<- & -> & Hf).
  { destruct Hd as [[-> ->]|[-> ->]]; (split_and!; [by vm_compute..|]); [left|right]; split_and!; by vm_compute. }
  pose proof (chance_one true r0 eq_refl Hr0) as Hc. pose proof (chance_u32 true f1 r0 Hr0) as Hr1.
  destruct (chance true f1 r0) as [r1 replay]. cbn [fst snd] in Hc, Hr1. subst replay.
  assert (∃ r2, chance (deja_vu_ s >f fhalf) (fmax ((deja_vu_ s -f fhalf) *f f2) f0) r1 = (r2, stride =? 0)) as [r2 ->].
  { destruct Hf as [[-> ->]|(<- & -> & ->)]; [by exists r1|].
    pose proof (chance_one true r1 eq_refl Hr1) as Hc. destruct (chance true f1 r1) as [r2 freeze].
    cbn [snd] in Hc. subst freeze. by exists r2. }
  cbv beta iota zeta. cbn [deja_vu_ depth_ length_ cv_buf_ gate_buf_ read_pos_ cv_out_ gate_out_].
  split_and!; try done.
  assert (stride = 0 ∨ stride = 1) as [->| ->] by (destruct Hd as [[_ ->]|[_ ->]]; auto);
    cbn [Z.eqb Pos.eqb]; [done|].
  apply Z.rem_mod_nonneg; lia.
Qed.

(** Whether a tick clocks a new step. *)
Definition clocks (rate : f32) (s : stochastic) : bool :=
  negb (rate <=f f0) && negb ((clock_phase_ s +f rate_ s /f rate) <f next_threshold_ s).

(** The steps clocked by a run of ticks: voltage and gate of each. *)
Fixpoint stochastic_steps (rates : list f32) (s : stochastic) : list (f32 * bool) :=
  match rates with
  | [] => []
  | rate :: rates =>
      let '(s', out) := tick rate s in
      (if clocks rate s then [(cv out, gate out)] else []) ++ stochastic_steps rates s'
  end.

(** The step a slot of the buffers holds. *)
Definition slot_step (s : stochastic) (i : Z) : f32 * bool :=
  (nth (Z.to_nat i) (cv_buf_ s) f0 *f depth_ s, nth (Z.to_nat i) (gate_buf_ s) false).

(** The slot step [k] of a locked generator plays.  The first is where the
    reader stands, which may be past [length_] after the loop was shortened. *)
Definition slot (s : stochastic) (stride : Z) (k : nat) : Z :=
  if (stride =? 0) || (k =? 0)%nat then read_pos_ s else (read_pos_ s + Z.of_nat k) mod length_ s.

Lemma steps_loop rates s stride :
  in_buffers s →
  (deja_vu_ s = fhalf ∧ stride = 1) ∨ (deja_vu_ s = f1 ∧ stride = 0) →
  stochastic_steps rates s = map (λ k, slot_step s (slot s stride k)) (seq 0 (length (stochastic_steps rates s))).
Proof.
  revert s. induction rates as [|rate rates IH]; intros s Hb Hd; [done|].
  simpl. pose proof (tick_in_buffers s rate Hb) as Hb'.
  unfold tick, clocks in *. destruct (rate <=f f0) eqn:E1; simpl in *.
  { rewrite (IH _ Hb') at 1 by done. done. }
  destruct (_ <f next_threshold_ s) eqn:E2; simpl in *.
  { rewrite (IH _ Hb') at 1 by done. done. }
  set (s' := event s _) in *.
  destruct (event_replay s (clock_phase_ s +f rate_ s /f rate -f next_threshold_ s) stride Hb Hd)
    as (Hv & Hdp & Hln & Hcv & Hgt & Hrd & Hco & Hgo). fold s' in Hv, Hdp, Hln, Hcv, Hgt, Hrd, Hco, Hgo.
  rewrite (IH s' Hb') at 1 by (by rewrite Hv). rewrite <- seq_shift, map_map. f_equal.
  - unfold slot_step, slot. rewrite orb_true_r. by rewrite Hco, Hgo, Hdp.
  - apply map_ext. intros k. unfold slot_step. rewrite Hcv, Hgt, Hdp. unfold slot. rewrite Hrd, Hln.
    destruct (stride =? 0); [done|]. cbn [orb Nat.eqb].
    replace (read_pos_ s + Z.of_nat (S k)) with (read_pos_ s + 1 + Z.of_nat k) by lia.
    destruct k as [|k]; cbn [Nat.eqb]; [by rewrite Z.add_0_r|by rewrite Zplus_mod_idemp_l].
Qed.

Lemma steps_slot s rates stride k step :
  in_buffers s → (deja_vu_ s = fhalf ∧ stride = 1) ∨ (deja_vu_ s = f1 ∧ stride = 0) →
  stochastic_steps rates s !! k = Some step → step = slot_step s (slot s stride k).
Proof.
  intros Hb Hd Hk. rewrite (steps_loop rates s stride Hb Hd) in Hk.
  by apply list_lookup_fmap_Some in Hk as (i & -> & [-> _]%lookup_seq).
Qed.

Lemma slot_period s k :
  in_buffers s → (0 < k)%nat ∨ read_pos_ s < length_ s →
  slot s 1 (k + Z.to_nat (length_ s)) = slot s 1 k.
Proof.
  intros [_ _ Hl _ Hr _] Hk. unfold slot. cbn [Z.eqb orb].
  assert ((k + Z.to_nat (length_ s) =? 0)%nat = false) as -> by (apply Nat.eqb_neq; lia).
  replace (read_pos_ s + Z.of_nat (k + Z.to_nat (length_ s)))
    with (read_pos_ s + Z.of_nat k + 1 * length_ s) by lia.
  rewrite Z_mod_plus_full. destruct (Nat.eqb_spec k 0) as [->|?]; [|done].
  rewrite Z.add_0_r. apply Z.mod_small. lia.
Qed.

(** C39: the stochastic generator never leaves its buffers, after any history
    of ticks and updates.  With [deja_vu] at 0.5 it is locked: from then on, at
    any tick rates, the steps it clocks are the buffered ones in order from
    where the reader stands, and each is heard again [length_] steps later.
    The one exception is the very first step when the reader stands past the
    end of a loop that was just shortened (slot 6, length 4): it plays that
    slot, once, and the loop starts with the second step.  With [deja_vu] at 1
    every step is the one the reader stands at. *)
Theorem stochastic_locked_loop s rates :
  stochastic_reach s →
  in_buffers s ∧
  (deja_vu_ s = fhalf → ∀ k step, stochastic_steps rates s !! k = Some step →
     step = slot_step s (if (k =? 0)%nat then read_pos_ s else (read_pos_ s + Z.of_nat k) mod length_ s) ∧
     ((0 < k)%nat ∨ read_pos_ s < length_ s → ∀ step',
        stochastic_steps rates s !! (k + Z.to_nat (length_ s))%nat = Some step' → step' = step)) ∧
  (deja_vu_ s = f1 → ∀ k step, stochastic_steps rates s !! k = Some step → step = slot_step s (read_pos_ s)).
Proof.
  intros Hr. pose proof (stochastic_in_buffers s Hr) as Hb. split; [done|]. split.
  - intros Hd k step Hk. split; [by apply (steps_slot s rates 1 k step Hb (or_introl (conj Hd eq_refl)))|].
    intros Hp step' Hk'.
    assert ((deja_vu_ s = fhalf ∧ 1 = 1) ∨ (deja_vu_ s = f1 ∧ 1 = 0)) as Hs by auto.
    rewrite (steps_slot s rates 1 k step Hb Hs Hk), (steps_slot s rates 1 _ step' Hb Hs Hk').
    by rewrite slot_period.
  - intros Hd k step Hk. apply (steps_slot s rates 0 k); auto.
Qed.
End stochastic.

Lemma updated_reach `{Libm} s k v :
  stochastic_reach s → stochastic_reach (default s (Stochastic.update k v s)).
Proof. intros Hs. destruct (Stochastic.update k v s) eqn:E; [by eapply stochastic_updated|done]. Qed.

Lemma ticks_reach `{Libm} rate (l : list nat) :
  stochastic_reach (fold_right (λ _ s, (Stochastic.tick rate s).1) Stochastic.make l).
Proof. induction l; [constructor|by apply stochastic_ticked]. Qed.

(** Six steps into the loop of eight it is shortened to four and locked. *)
Definition updated (k : string) (v : f32) (s : Stochastic.stochastic) : Stochastic.stochastic :=
  default s (Stochastic.update k v s).
Definition shortened : Stochastic.stochastic :=
  updated "deja_vu" fhalf (updated "length" (f32_of_Z 4)
    (fold_right (λ _ s, (@Stochastic.tick coarse_libm f1 s).1) (@Stochastic.make) (seq 0 6))).

Lemma shortened_reach : @stochastic_reach coarse_libm shortened.
Proof. do 2 apply updated_reach. exact (ticks_reach f1 (seq 0 6)). Qed.

Lemma stochastic_locked_loop_witness :
  Stochastic.read_pos_ shortened = 6 ∧ Stochastic.length_ shortened = 4 ∧
  ∃ a b c, let steps := @stochastic_steps coarse_libm (repeat f1 6) shortened in
  steps !! 0%nat = Some a ∧ steps !! 1%nat = Some b ∧ steps !! 5%nat = Some c ∧
  a = slot_step shortened 6 ∧ b = slot_step shortened 3 ∧ c = b.
Proof.
  split; [by vm_compute|]. split; [by vm_compute|].
  pose proof (proj1 (proj2 (@stochastic_locked_loop coarse_libm shortened (repeat f1 6) shortened_reach))
    ltac:(by vm_compute)) as Hloop.
  destruct (@stochastic_steps coarse_libm (repeat f1 6) shortened) as [|a [|b [|s2 [|s3 [|s4 [|c l]]]]]] eqn:E;
    try by vm_compute in E.
  exists a, b, c. do 3 (split; [reflexivity|]).
  destruct (Hloop 0%nat a eq_refl) as [Ha _]. destruct (Hloop 1%nat b eq_refl) as [Hb Hp].
  split; [by rewrite Ha; vm_compute|]. split; [by rewrite Hb; vm_compute|].
  apply Hp; [left; lia|done].
Defined.

(** ** Segment *)

Section segment.
Import Segment.

Lemma substring_all r : String.substring 0 (String.length r) r = r.
Proof. induction r as [|c r IH]; [done|]. simpl. by rewrite IH. Qed.

(** The number in front of the first underscore is read back. *)
Lemma index_read k r :
  0 <= k < 36 →
  split_underscore (pretty k +:+ String (Ascii.ascii_of_nat 95) r) = Some (pretty k, r) ∧
  decimal (pretty k) 0 = Some (Some k) ∧ (1 <= String.length (pretty k))%nat.
Proof.
  intros Hk.
  assert (∀ k, 0 <= k < Z.of_nat 36 → decimal (pretty k) 0 = Some (Some k) ∧ (1 <= String.length (pretty k))%nat ∧
    split_underscore (pretty k) = None) as H.
  { refine (check_range (λ k, decimal (pretty k) 0 = Some (Some k) ∧ (1 <= String.length (pretty k))%nat ∧
      split_underscore (pretty k) = None) 36 _). by vm_compute. }
  destruct (H k Hk) as (Hd & Hlen & Hu). split; [|done]. clear Hd Hlen H.
  induction (pretty k) as [|c d IH]; [done|]. simpl in *. destruct (Ascii.eqb c _); [done|].
  destruct (split_underscore d) as [[]|]; [done|]. by rewrite IH.
Qed.

(** The definition a field name selects. *)
Definition with_field (field : string) (v : f32) (d : segment_def) : segment_def :=
  if (field =? "primary")%string then Def (kind d) v (secondary d) (loop d)
  else if (field =? "secondary")%string then Def (kind d) (primary d) v (loop d)
  else d.

(** The key ["segment_<k>_<field>"] sets the named field of segment [k],
    clamped to [0, 1], and nothing else, for every segment in use; it changes
    nothing for a segment that is not in use or an unknown field. *)
Theorem segment_update_addresses s k field v :
  0 <= k < 36 → n_defs_ s <= 36 → length (defs_ s) = kMaxSegments →
  update ("segment_" +:+ pretty k +:+ "_" +:+ field) v s =
  Some (match defs_ s !! Z.to_nat k with
        | Some d => if k <? n_defs_ s then set_def (Z.to_nat k) (with_field field (clampf v f0 f1) d) s else s
        | None => s
        end).
Proof.
  intros Hk Hn Hl. destruct (index_read k field Hk) as (Hsp & Hd & Hlen). revert Hsp.
  change ("_" +:+ field) with (String (Ascii.ascii_of_nat 95) field).
  set (rest := pretty k +:+ _). intros Hsp.
  assert (1 <= String.length rest)%nat as Hr by (subst rest; destruct (pretty k); simpl in *; lia).
  clearbody rest. unfold update. destruct s as [ds n d r p c cy st o]. cbn [defs_ n_defs_] in *.
  change (String.length ("segment_" +:+ rest)) with (8 + String.length rest)%nat.
  rewrite (proj2 (Nat.leb_gt _ _)) by lia.
  replace (8 + String.length rest - 8)%nat with (String.length rest) by lia.
  change (String.substring 8 (String.length rest) ("segment_" +:+ rest)) with (String.substring 0 (String.length rest) rest).
  rewrite substring_all, Hsp, Hd.
  change ("segment_" +:+ rest =? "depth")%string with false. change ("segment_" +:+ rest =? "rate")%string with false.
  change (String.prefix "segment_" ("segment_" +:+ rest)) with (String.prefix "" rest).
  replace (String.prefix "" rest) with true by (by destruct rest). cbn [negb orb mbind option_bind].
  rewrite (proj2 (Z.ltb_ge k 0)) by lia. cbn [orb].
  assert (is_Some (ds !! Z.to_nat k)) as [df Hdf] by (apply lookup_lt_is_Some; rewrite Hl; unfold kMaxSegments; lia).
  rewrite Hdf. rewrite Z.leb_antisym. destruct (k <? n) eqn:Hkn; cbn [negb]; [|done].
  cbn [mbind option_bind]. unfold with_field.
  destruct (field =? "primary")%string; [done|]. destruct (field =? "secondary")%string; [done|].
  unfold set_def. cbn [defs_]. by rewrite list_insert_id.
Qed.

Lemma segment_update_addresses_witness :
  let s := default (Mk (replicate 36 default_def) 2 f1 f1 f0 0 0 f0 f0) (make [default_def; default_def]) in
  update "segment_1_primary" f2 s = Some (set_def 1 (Def ramp f1 fhalf false) s).
Proof.
  intros s. exact (segment_update_addresses s 1 "primary" f2 ltac:(lia) ltac:(vm_compute; discriminate) eq_refl).
Defined.
End segment.
