(* ===== verification/ChaosSpec.v ===== *)
(** What the chaotic modulators of [Chaos] promise: the squid axon is a clocked
    four-stage pipeline, the sloth reports its lobe and each change of lobe,
    the genie fires its ring of neurons on the previous tick's values. *)
From S2P Require Import Prelude Binary Modulator Chaos.
Local Open Scope Z_scope.

(** ** Squid axon *)

Section squid.
Import SquidAxon.

(** The values that entered the pipeline, latest first. *)
Definition entered lo (s : squid_axon) (l : list f32) : list f32 :=
  if clock_edge lo s then mix lo s :: l else l.

Inductive squid_reach : squid_axon → list f32 → Prop :=
| squid_made e c i1 i2 i3 : squid_reach (make e c i1 i2 i3) []
| squid_ticked s l lo : squid_reach s l → squid_reach (tick lo s).1 (entered lo s l)
| squid_updated s l k v : squid_reach s l → squid_reach (update k v s) l.

(** A voltage in [0, 1], unless an input was NaN. *)
Definition unit_or_nan (x : f32) : Prop := is_nan x = true ∨ in_range f0 f1 x.

Lemma mix_unit lo s : unit_or_nan (mix lo s).
Proof.
  unfold mix, unit_or_nan. set (m := _ +f _). destruct (is_nan m) eqn:E.
  - left. destruct m; try done.
  - right. by apply clampf_in_range.
Qed.

Record pipeline (s : squid_axon) (l : list f32) : Prop := Pipeline {
  p0 : stage0 s = nth 0 l f0; p1 : stage1 s = nth 1 l f0;
  p2 : stage2 s = nth 2 l f0; p3 : stage3 s = nth 3 l f0;
  p_count : counter_ s = Z.of_nat (length l) mod 4;
  p_unit : Forall unit_or_nan l }.

Lemma next_count n : Z.land (Z.of_nat n mod 4 + 1) 3 = Z.of_nat (S n) mod 4.
Proof.
  change 3 with (2 ^ 2 - 1). rewrite land_mask by lia. change (2 ^ 2) with 4.
  rewrite Zplus_mod_idemp_l. f_equal. lia.
Qed.

Lemma squid_pipeline_inv s l : squid_reach s l → pipeline s l.
Proof.
  induction 1 as [|s l lo _ [H0 H1 H2 H3 Hc Hu]|s l k v _ [H0 H1 H2 H3 Hc Hu]].
  - by split; try constructor.
  - unfold tick, entered. destruct (clock_edge lo s); [|by split].
    split; cbn [fst stage0 stage1 stage2 stage3 counter_]; try done.
    + rewrite Hc. apply next_count.
    + constructor; [apply mix_unit|done].
  - destruct s. unfold update. repeat case_match; by split.
Qed.

(** The squid axon is a four-stage pipeline clocked by its input.  After
    any history output [j] is the value that entered [j] clock edges before
    the latest (0 when there were fewer), so what enters reaches the last
    output, and the feedback, three edges later; an edge shifts all four
    stages; the counter is the number of edges modulo 4; and every voltage is
    in [0, 1] unless an input was NaN. *)
Theorem squid_axon_pipeline s l lo :
  squid_reach s l →
  let out := (tick lo s).2 in
  let l' := entered lo s l in
  (∀ j, (j < 4)%nat → outputs out !! j = Some (nth j l' f0)) ∧
  cv out = nth 0 l' f0 ∧ aux out = nth 3 l' f0 ∧
  state out = Z.of_nat (length l') mod 4 ∧
  Forall unit_or_nan l'.
Proof.
  intros Hr out l'. destruct (squid_pipeline_inv _ _ (squid_ticked _ _ lo Hr)) as [H0 H1 H2 H3 Hc Hu].
  fold l' in H0, H1, H2, H3, Hc, Hu. subst out. unfold tick in *.
  destruct (if clock_edge lo s then _ else _) as [[[[a b] c] d] n].
  cbn [fst snd stage0 stage1 stage2 stage3 counter_ outputs cv aux state] in *. subst.
  split_and!; try done. intros j Hj. do 4 (destruct j as [|j]; [done|]). lia.
Qed.

Lemma squid_axon_pipeline_witness :
  let s := update "in1" fhalf (update "clock_tick" f1 (make false "" "" "" "")) in
  cv (tick (λ _, None) s).2 = fhalf ∧ state (tick (λ _, None) s).2 = 1.
Proof.
  intros s.
  destruct (squid_axon_pipeline s [] (λ _, None)
    (squid_updated _ _ "in1" fhalf (squid_updated _ _ "clock_tick" f1 (squid_made false "" "" "" ""))))
    as (_ & Hcv & _ & Hst & _).
  split; [exact Hcv|exact Hst].
Defined.
End squid.

(** ** Sloth chaos *)

Section sloth.
Import SlothChaos.

(** A run of ticks, with the outputs. *)
Fixpoint sloth_run (ticks : list (last_output_fn * f32)) (s : sloth_chaos) : list modulator_output :=
  match ticks with
  | [] => []
  | (lo, rate) :: ticks => let '(s, out) := tick lo rate s in out :: sloth_run ticks s
  end.

(** Every output announces its change of lobe from [prev]. *)
Fixpoint lobes_announced (prev : bool) (outs : list modulator_output) : Prop :=
  match outs with
  | [] => True
  | out :: outs =>
      gate2 out = xorb (gate out) prev ∧ state out = (if gate out then 1 else 0) ∧
      outputs out !! 3%nat = Some (if gate out then f1 else f0) ∧ lobes_announced (gate out) outs
  end.

(** The lobe the circuit in use was in. *)
Definition last_lobe (s : sloth_chaos) : bool :=
  let '(a, b, c) := states_ s in
  z_prev_positive (match variant_ s with torpor | triple => a | apathy => b | inertia => c end).

Lemma sloth_lobes ticks s : variant_ s ≠ triple → lobes_announced (last_lobe s) (sloth_run ticks s).
Proof.
  revert s. induction ticks as [|[lo rate] ticks IH]; intros s Hv; [done|].
  simpl sloth_run. unfold tick, last_lobe in *. destruct (states_ s) as [[a b] c] eqn:Est.
  assert (∀ vi st cv, z_prev_positive (integrate vi rate (knob_ s) cv st) = z_prev_positive st) as Hz by done.
  destruct (variant_ s) eqn:Ev; [| | |done]; unfold single_out; cbn [lobes_announced gate gate2 state outputs];
    (split_and!; [by rewrite Hz; destruct (lobe _), (z_prev_positive _)|done|done|]);
    match goal with |- lobes_announced ?g (sloth_run _ ?s') => specialize (IH s') end;
    cbn [variant_ states_] in IH; by apply IH.
Qed.

(** In its single-circuit variants the sloth reports which lobe it is in
    on its gate, in its state and on output 3, and the second gate is high on
    exactly those ticks that changed lobe since the tick before, for any
    number of ticks at any rates and inputs. *)
Theorem sloth_transitions v e src ticks :
  v ≠ triple → lobes_announced true (sloth_run ticks (make v e src)).
Proof.
  intros Hv. pose proof (sloth_lobes ticks (make v e src) Hv) as H.
  replace (last_lobe _) with true in H by (by destruct v). done.
Qed.

Lemma sloth_transitions_witness :
  apathy ≠ triple ∧
  lobes_announced true (sloth_run [(λ _, None, f1)] (make apathy false "")).
Proof. split; [discriminate|exact (sloth_transitions apathy false "" [(λ _, None, f1)] ltac:(discriminate))]. Defined.
End sloth.

(** ** Genie *)

Section genie.
Import Genie.

Inductive genie_reach : genie → Prop :=
| genie_made n e srcs : length srcs = 8%nat → genie_reach (make n e srcs)
| genie_ticked s lo : genie_reach s → genie_reach (tick lo s).1
| genie_updated s k v s' : genie_reach s → update k v s = Some s' → genie_reach s'.

Record arrays_ok (s : genie) : Prop := ArraysOk {
  n_ok : 2 <= n_ s <= 8;
  src_len : length (in_src_ s) = 8%nat; sense_len : length (sense_ s) = 8%nat;
  response_len : length (response_ s) = 8%nat; gain_len : length (gain_ s) = 8%nat;
  ext_len : length (ext_in_ s) = 8%nat; state_len : length (state_ s) = 8%nat }.

Lemma length_set_at i v l l' : set_at i v l = Some l' → length l' = length l.
Proof. unfold set_at. intros. repeat case_match; simplify_eq; [apply length_insert|done]. Qed.

Lemma key_index_range key i : key_index key = Some i → (i < 8)%nat.
Proof. unfold key_index, kMaxN. intros. repeat case_match; simplify_eq. bool_to_prop. lia. Qed.

(** The guard on the index is what keeps the stores inside. *)
Lemma set_at_defined key v l : length l = 8%nat → is_Some (set_at (key_index key) v l).
Proof.
  intros Hl. unfold set_at. destruct (key_index key) as [i|] eqn:Hi; [|done].
  apply key_index_range in Hi. by rewrite (proj2 (Nat.ltb_lt _ _)) by lia.
Qed.

Lemma length_fire lo s : arrays_ok s → length (fire lo s) = 8%nat.
Proof.
  intros []. unfold fire. rewrite length_app, length_map, length_seq, length_drop. lia.
Qed.

Lemma genie_arrays s : genie_reach s → arrays_ok s.
Proof.
  induction 1 as [n e srcs Hl|s lo _ IH|s k v s' _ IH Hu].
  - split; try done. simpl. apply clamp_int_range. unfold kMaxN. lia.
  - pose proof (length_fire lo s IH). destruct IH. by split.
  - destruct s, IH. unfold update in Hu. repeat case_match; simplify_eq/=; try by split.
    all: apply bind_Some in Hu as (l & ?%length_set_at & ?); simplify_eq; split; simpl in *; congruence.
Qed.

Lemma genie_update_defined s k v : arrays_ok s → is_Some (update k v s).
Proof.
  intros []. destruct s. unfold update. simpl in *.
  repeat case_match; try done.
  all: match goal with |- is_Some (set_at _ ?x ?l ≫= _) => destruct (set_at_defined k x l) as [l' ->]; [done|] end.
  all: by eexists.
Qed.

(** C40: The genie's ring has one tick of latency and stays inside its arrays.
    After any history, with any update keys (the index a key ends in is checked
    before it is used, so no update stores outside): a neuron without a source fires on
    the scaled previous output of the neuron before it around the ring; bit
    [i] of the state is neuron [i] being positive, no bit is set beyond the
    neurons in use; and the two gates are never on together. *)
Theorem genie_ring s lo :
  genie_reach s →
  let s' := (tick lo s).1 in
  let out := (tick lo s).2 in
  arrays_ok s' ∧ (∀ k v, is_Some (update k v s)) ∧
  (∀ i, 0 <= i < n_ s → nth (Z.to_nat i) (in_src_ s) "" = ""%string →
     state_ s' !! Z.to_nat i =
     Some (neuron (nth (Z.to_nat i) (gain_ s) f0 *f nth (Z.to_nat ((i - 1) mod n_ s)) (state_ s) f0)
             (nth (Z.to_nat i) (sense_ s) f0) (nth (Z.to_nat i) (response_ s) f0))) ∧
  (∀ i, 0 <= i → Z.testbit (state out) i = (i <? n_ s) && (f0 <f nth (Z.to_nat i) (state_ s') f0)) ∧
  gate out && gate2 out = false.
Proof.
  intros Hr s' out. pose proof (genie_arrays s Hr) as Ha. pose proof (genie_arrays _ (genie_ticked s lo Hr)) as Ha'.
  split; [done|]. split; [intros k v; by apply genie_update_defined|].
  destruct Ha as [Hn _ _ _ _ _ _]. split_and!.
  - intros i Hi Hsrc. subst s'. unfold tick. cbn [fst state_]. unfold fire.
    rewrite lookup_app_l by (rewrite length_map, length_seq; lia).
    rewrite list_lookup_fmap, lookup_seq_lt by lia. simpl. do 2 f_equal. unfold input.
    rewrite Z2Nat.id by lia. rewrite Hsrc. simpl. do 2 f_equal.
    rewrite Z.rem_mod_nonneg by lia. replace (i + n_ s - 1) with (i - 1 + 1 * n_ s) by lia.
    by rewrite Z_mod_plus_full.
  - intros i Hi. subst s' out. unfold tick. cbn [fst snd state state_].
    rewrite <- (Z2Nat.id i) at 1 by lia. rewrite bitmap_testbit, list_lookup_fmap.
    destruct (Z.ltb_spec i (n_ s)).
    + by rewrite lookup_seq_lt by lia.
    + by rewrite lookup_seq_ge by lia.
  - subst out. unfold tick. cbn [snd gate gate2]. set (d := _ -f _).
    destruct (f0 <f d) eqn:E1; [|done]. simpl. destruct (d <f f0) eqn:E2; [|done].
    destruct (SFltb_nan_l _ _ E1). rewrite SFltb_key in E1, E2 by done.
    destruct (fkey d) as [[a b] c]. simpl in *. lia.
Qed.

Lemma genie_ring_witness :
  let s := make 3 false (replicate 8 ""%string) in
  arrays_ok (tick (λ _, None) s).1 ∧
  Z.testbit (state (tick (λ _, None) s).2) 7 = false.
Proof.
  intros s.
  destruct (genie_ring s (λ _, None) (genie_made 3 false (replicate 8 ""%string) eq_refl)) as (Ha & _ & _ & Hb & _).
  split; [exact Ha|exact (Hb 7 ltac:(lia))].
Defined.
End genie.
