(* ===== verification/Mts.v ===== *)
(** Two byte formats of the control thread ([src/rt_control_thread.cpp]): the
    MIDI Tuning Standard bulk dump, and UUIDs read from their text. *)
From S2P Require Import Prelude Binary Bytes.
Local Open Scope Z_scope.

(** ** MTS bulk dump *)

Section mts.
Context `{Libm}.

(** [None]: the conversion of the rounded value to [int] is undefined. *)
Definition mts_encode_note (key : Z) (hz : f64) : option (Z * Z * Z) :=
  let tet_hz := lit64 440 1 *d powd (lit64 2 1) (f64_of_Z (key - 69) /d lit64 12 1) in
  let use_hz := if hz >f S754_zero false then hz else tet_hz in
  let semitones := lit64 12 1 *d log2d (use_hz /d lit64 440 1) +d lit64 69 1 in
  xx ← f_round_int semitones;
  let bend_cents := (semitones -d f64_of_Z xx) *d lit64 100 1 in
  let flat := bend_cents <f S754_zero false in
  let bend_cents := if flat then bend_cents +d lit64 100 1 else bend_cents in
  xx ← (if flat then Z.max 0 <$> int32 (xx - 1) else Some xx);
  let xx := Z.max 0 (Z.min 127 xx) in
  fine ← f_round_int (bend_cents /d lit64 100 1 *d lit64 16384 1);
  let fine := Z.max 0 (Z.min 16383 fine) in
  Some (u8 xx, u8 (Z.land (Z.shiftr fine 7) 0x7F), u8 (Z.land fine 0x7F)).

(** The entries of the keys from [k] on. *)
Fixpoint mts_entries (tuning : gmap Z f64) (n : nat) (k : Z) : option (list Z) :=
  match n with
  | O => Some []
  | S n =>
      '(xx, yy, zz) ← mts_encode_note k (default (S754_zero false) (tuning !! k));
      rest ← mts_entries tuning n (k + 1);
      Some (xx :: yy :: zz :: rest)
  end.

Definition mts_header (prog device_id : Z) : list Z :=
  [0xF0; 0x7E; device_id; 0x08; 0x01; prog] ++ replicate 16 0x00.

Definition mts_bulk_dump (tuning : gmap Z f64) (prog device_id : Z) : option (list Z) :=
  entries ← mts_entries tuning 128 0;
  let out := mts_header prog device_id ++ entries in
  let csum := foldl Z.lxor 0 (drop 1 out) in
  Some (out ++ [Z.land csum 0x7F; 0xF7]).
End mts.

(** ** UUIDs *)

(** The lambda [h]; [char] is signed. *)
Definition hex_value (c : Ascii.ascii) : Z :=
  let v := i8 (Z.of_nat (Ascii.nat_of_ascii c)) in
  if v <=? 57 then u8 (v - 48) else u8 (Z.lor v 32 - 97 + 10).

(** The loop over the 36 characters: [bi] bytes read, from position [i].  A
    digit at the last position pairs with the terminating NUL.  Each turn
    advances, so the length is fuel enough. *)
Fixpoint parse_uuid_from (fuel : nat) (s : list Ascii.ascii) (bytes : list Z) : list Z :=
  match fuel with
  | O => bytes
  | S fuel =>
      match s with
      | [] => bytes
      | c :: s' =>
          if (16 <=? length bytes)%nat then bytes
          else if Ascii.eqb c (Ascii.ascii_of_nat 45) (* '-' *) then parse_uuid_from fuel s' bytes
          else
            let d := default Ascii.zero (head s') in
            parse_uuid_from fuel (tail s')
              (bytes ++ [u8 (Z.lor (Z.shiftl (hex_value c) 4) (hex_value d))])
      end
  end.

(** Bytes not read stay zero. *)
Definition parse_uuid (s : string) : list Z :=
  if (String.length s =? 36)%nat then
    let bytes := parse_uuid_from 36 (String.list_ascii_of_string s) [] in
    bytes ++ replicate (16 - length bytes) 0
  else replicate 16 0.

(** ** The dump is well formed *)

Definition is_7bit (b : Z) : Prop := 0 <= b < 128.

Section mts_spec.
Context `{Libm}.

Lemma land_7F_7bit x : is_7bit (Z.land x 0x7F).
Proof. unfold is_7bit. rewrite (land_mask 7) by lia. zmod. Qed.

Lemma u8_7bit x : is_7bit x → is_7bit (u8 x).
Proof. unfold is_7bit. intros. rewrite u8_small; unfold is_u8; lia. Qed.

Lemma mts_encode_note_7bit k hz a b c :
  mts_encode_note k hz = Some (a, b, c) → is_7bit a ∧ is_7bit b ∧ is_7bit c.
Proof.
  unfold mts_encode_note. set (semitones := _ +d _). intros Hm.
  apply bind_Some in Hm as (xx & _ & Hm). apply bind_Some in Hm as (xx' & _ & Hm).
  apply bind_Some in Hm as (fine & _ & Hm). simplify_eq.
  split_and!; apply u8_7bit; try apply land_7F_7bit. unfold is_7bit. lia.
Qed.

Lemma mts_entries_spec tuning n k l :
  mts_entries tuning n k = Some l → length l = (3 * n)%nat ∧ Forall is_7bit l.
Proof.
  revert k l. induction n as [|n IH]; intros k l Hl; cbn [mts_entries] in Hl.
  - simplify_eq. by repeat constructor.
  - apply bind_Some in Hl as ([[a b] c] & Hn & Hl). apply bind_Some in Hl as (rest & Hr & [= <-]).
    apply mts_encode_note_7bit in Hn as (? & ? & ?). apply IH in Hr as [Hlen Hf].
    split; [simpl; lia|by rewrite !Forall_cons].
Qed.

(** Entry [k] of the table. *)
Lemma mts_entries_nth tuning n k0 l k :
  mts_entries tuning n k0 = Some l → (k < n)%nat → ∃ a b c,
  mts_encode_note (k0 + Z.of_nat k) (default (S754_zero false) (tuning !! (k0 + Z.of_nat k))) = Some (a, b, c) ∧
  take 3 (drop (3 * k) l) = [a; b; c].
Proof.
  revert k0 l k. induction n as [|n IH]; intros k0 l k Hl Hk; [lia|]. cbn [mts_entries] in Hl.
  apply bind_Some in Hl as ([[a b] c] & Hn & Hl). apply bind_Some in Hl as (rest & Hr & [= <-]).
  destruct k as [|k].
  - exists a, b, c. by rewrite Z.add_0_r.
  - destruct (IH _ _ k Hr ltac:(lia)) as (a' & b' & c' & Hn' & Ht').
    exists a', b', c'. replace (k0 + Z.of_nat (S k)) with (k0 + 1 + Z.of_nat k) by lia.
    split; [done|]. by replace (3 * S k)%nat with (S (S (S (3 * k)))) by lia.
Qed.

Lemma lxor_7bit a b : is_7bit a → is_7bit b → is_7bit (Z.lxor a b).
Proof.
  intros Ha Hb.
  assert (∀ x, is_7bit x → Z.land x 0x7F = x) as Hm.
  { unfold is_7bit. intros x Hx. rewrite (land_mask 7) by lia. by apply Z.mod_small. }
  assert (Z.lxor a b = Z.land (Z.lxor a b) 0x7F) as ->; [|apply land_7F_7bit].
  rewrite <- (Hm a Ha), <- (Hm b Hb). apply Z.bits_inj'. intros i Hi.
  rewrite !Z.land_spec, !Z.lxor_spec, !Z.land_spec.
  by destruct (Z.testbit a i), (Z.testbit b i), (Z.testbit 0x7F i).
Qed.

Lemma foldl_lxor_7bit l acc : Forall is_7bit l → is_7bit acc → is_7bit (foldl Z.lxor acc l).
Proof. intros Hl. revert acc. induction Hl; intros acc Ha; simpl; [done|]. auto using lxor_7bit. Qed.

(** C37: Every bulk dump that is produced is a well-formed system exclusive
    message: 408 bytes, F0 7E <device> 08 01 <program>, a blank name, one
    three-byte entry per key as [mts_encode_note] gives it, a checksum that
    makes the exclusive or of all bytes between F0 and F7 vanish, and F7; with
    seven-bit program and device numbers, every byte between F0 and F7 has its
    high bit clear. *)
Theorem mts_bulk_dump_wellformed tuning prog device_id out :
  mts_bulk_dump tuning prog device_id = Some out → is_7bit prog → is_7bit device_id →
  length out = 408%nat ∧
  ∃ body, out = 0xF0 :: body ++ [0xF7] ∧ Forall is_7bit body ∧ foldl Z.lxor 0 body = 0 ∧
    take 5 body = [0x7E; device_id; 0x08; 0x01; prog] ∧
    ∀ k, (k < 128)%nat → ∃ a b c,
      mts_encode_note (Z.of_nat k) (default (S754_zero false) (tuning !! Z.of_nat k)) = Some (a, b, c) ∧
      take 3 (drop (21 + 3 * k) body) = [a; b; c].
Proof.
  intros Hd Hp Hv. apply bind_Some in Hd as (entries & He & Ho).
  pose proof (mts_entries_spec _ _ _ _ He) as [Hlen H7].
  set (head := [0x7E; device_id; 0x08; 0x01; prog] ++ replicate 16 0x00).
  set (csum := foldl Z.lxor 0 (head ++ entries)).
  assert (out = (0xF0 :: head ++ entries) ++ [Z.land csum 0x7F; 0xF7]) as -> by (injection Ho as <-; reflexivity).
  clear Ho.
  assert (length head = 21%nat ∧ take 5 head = [0x7E; device_id; 0x08; 0x01; prog]) as [Hh Ht] by done.
  assert (Forall is_7bit (head ++ entries)) as Hb.
  { apply Forall_app. split; [|done]. unfold head. simpl. rewrite !Forall_cons. split_and!; done || (unfold is_7bit; lia). }
  clearbody head. assert (is_7bit csum) as Hc by (apply foldl_lxor_7bit; [done|unfold is_7bit; lia]).
  assert (Z.land csum 0x7F = csum) as ->.
  { rewrite (land_mask 7) by lia. apply Z.mod_small. exact Hc. }
  split. { rewrite length_app. cbn [length]. rewrite length_app, Hlen, Hh. reflexivity. }
  exists (head ++ entries ++ [csum]). split_and!.
  - simpl. by rewrite <- !app_assoc.
  - rewrite app_assoc. apply Forall_app. split; [done|by constructor].
  - rewrite app_assoc, foldl_app. simpl. fold csum. apply Z.lxor_nilpotent.
  - by rewrite take_app_le by lia.
  - intros k Hk. rewrite drop_app_add' by done.
    destruct (mts_entries_nth tuning 128 0 entries k He Hk) as (a & b & c & Hn & Htk).
    exists a, b, c. split; [by rewrite Z.add_0_l in Hn|].
    rewrite drop_app_le by (rewrite Hlen; lia). rewrite take_app_le; [done|]. rewrite length_drop, Hlen. lia.
Qed.
End mts_spec.

Lemma mts_bulk_dump_wellformed_witness :
  ∃ out, @mts_bulk_dump coarse_libm ∅ 5 0x7F = Some out ∧ length out = 408%nat.
Proof.
  destruct (@mts_bulk_dump coarse_libm ∅ 5 0x7F) as [out|] eqn:E; [|by vm_compute in E].
  exists out. split; [reflexivity|].
  exact (proj1 (@mts_bulk_dump_wellformed coarse_libm ∅ 5 0x7F out E
    ltac:(unfold is_7bit; lia) ltac:(unfold is_7bit; lia))).
Defined.

(** ** UUIDs are read back *)

Definition hex_digit (v : Z) : Ascii.ascii :=
  Ascii.ascii_of_nat (Z.to_nat (if v <? 10 then v + 48 else v + 87)).
Definition hex_pair (b : Z) : list Ascii.ascii := [hex_digit (b / 16); hex_digit (b mod 16)].

(** The canonical text: groups of 4, 2, 2, 2 and 6 bytes. *)
Definition print_uuid (u : list Z) : string :=
  let dash := [Ascii.ascii_of_nat 45] in
  let group i n := concat (map hex_pair (take n (drop i u))) in
  String.string_of_list_ascii (group 0 4 ++ dash ++ group 4 2 ++ dash ++ group 6 2 ++ dash ++ group 8 2 ++
                        dash ++ group 10 6)%nat.

Lemma hex_pair_read b fuel s bytes :
  is_u8 b → (length bytes < 16)%nat →
  parse_uuid_from (S fuel) (hex_pair b ++ s) bytes = parse_uuid_from fuel s (bytes ++ [b]).
Proof.
  intros Hb Hl.
  assert (∀ b, 0 <= b < Z.of_nat 256 →
    Ascii.eqb (hex_digit (b / 16)) (Ascii.ascii_of_nat 45) = false ∧
    u8 (Z.lor (Z.shiftl (hex_value (hex_digit (b / 16))) 4) (hex_value (hex_digit (b mod 16)))) = b) as H.
  { refine (check_range (λ b, Ascii.eqb (hex_digit (b / 16)) (Ascii.ascii_of_nat 45) = false ∧
      u8 (Z.lor (Z.shiftl (hex_value (hex_digit (b / 16))) 4) (hex_value (hex_digit (b mod 16)))) = b) 256 _).
    by vm_compute. }
  destruct (H b Hb) as [H1 H2]. cbn [parse_uuid_from hex_pair app].
  rewrite (proj2 (Nat.leb_gt _ _)) by lia. rewrite H1. cbn [head tail default]. simpl. by rewrite H2.
Qed.

Lemma dash_read fuel s bytes :
  (length bytes < 16)%nat →
  parse_uuid_from (S fuel) ([Ascii.ascii_of_nat 45] ++ s) bytes = parse_uuid_from fuel s bytes.
Proof. intros Hl. cbn [parse_uuid_from app]. by rewrite (proj2 (Nat.leb_gt _ _)) by lia. Qed.

(** A UUID is read back from its canonical text, for all its 2^128 values. *)
Theorem uuid_round_trip u :
  length u = 16%nat → bytes_ok u → parse_uuid (print_uuid u) = u.
Proof.
  intros Hl Hu.
  do 15 (destruct u as [|? u]; [done|]). destruct u as [|last [|]]; [done| |done].
  unfold bytes_ok in Hu. rewrite !Forall_cons in Hu. destruct_and!. unfold parse_uuid.
  replace (String.length (print_uuid _) =? 36)%nat with true by reflexivity.
  unfold print_uuid. rewrite String.list_ascii_of_string_of_list_ascii.
  cbn [take drop map concat]. rewrite !app_nil_r, <- !app_assoc, <- (app_nil_r (hex_pair last)).
  set (l := parse_uuid_from 36 _ []).
  match goal with |- _ = ?u => assert (l = u) as -> end; [|reflexivity]. subst l.
  repeat first [rewrite hex_pair_read by (done || (simpl; lia)) | rewrite dash_read by (simpl; lia)].
  reflexivity.
Qed.

Lemma uuid_round_trip_witness :
  let u := map Z.of_nat (seq 240 16) in parse_uuid (print_uuid u) = u.
Proof.
  intros u. refine (uuid_round_trip u eq_refl _).
  repeat (constructor; [unfold is_u8; simpl; lia|]). constructor.
Defined.
