(* ===== verification/Control.v ===== *)
(** The control thread ([src/rt_control_thread.cpp],
    [include/nomos/rt/rt_control_thread.hpp], [src/session.cpp],
    [include/nomos/rt/param_event.hpp]): decoding of each IPC message and its
    effect on the parameter, input and staging queues, the modulator engine,
    the MIDI and OSC outputs, the session log and the client's socket.

    A handler takes the thread's state and returns it with the calls made to
    the outside, in order; [None] is undefined behaviour (a conversion of an
    out-of-range float to [int]).  edn-cpp, txlog, LuaJIT and RtMidi are the
    classes [Edn], [Txlog], [Lua] and [RtMidi]. *)
From S2P Require Import Prelude Binary Bytes Spsc Ipc Events Osc Scheduler.
From S2P Require Import Modulator ShiftRegister Logic Signal Chaos Engine Edn Graph Mts.
Local Open Scope Z_scope.

(** ** Third-party components *)

Class Lua (L : Type) := { lua_eval : L → string → L * string }.

(** [txlog::entry]: [None] is a field left at its default. *)
Record entry (V : Type) := Entry {
  e_id : option (list Z); e_beat : option f64; e_wall_ns : option Z; e_source : option string;
  e_path : option V; e_before : option V; e_after : option V; e_parent : option V }.
Arguments Entry {V}. Arguments e_id {V}. Arguments e_beat {V}. Arguments e_wall_ns {V}.
Arguments e_source {V}. Arguments e_path {V}. Arguments e_before {V}. Arguments e_after {V}.
Arguments e_parent {V}.

(** [txlog::log]: its constructor may throw. *)
Class Txlog (V T : Type) := {
  log_open : string → option T;
  log_register : string → string → string → T → T;
  log_emit : entry V → T → T
}.

(** ** Parameter events *)

Record param_event (V : Type) := ParamEvent { path : V; value : V; ptime : time_identity }.
Arguments ParamEvent {V}. Arguments path {V}. Arguments value {V}. Arguments ptime {V}.
Definition time_default : time_identity :=
  TimeIdentity (Timeline (lit64 120 1) (S754_zero false)) None.

(** ** The session *)

Section session.
Context {V T : Type} `{Txlog V T}.

(** The log, gone once closed. *)
Definition session : Type := option T.
Definition session_open (db_path : string) : option session := Some <$> log_open db_path.
Definition session_close (s : session) : session := None.
Definition session_register_source (id name description : string) (s : session) : session :=
  match s with Some t => Some (log_register id name description t) | None => None end.
Definition session_emit (e : entry V) (s : session) : session :=
  match s with Some t => Some (log_emit e t) | None => None end.
End session.
Arguments session : clear implicits.

(** ** Reading EDN maps *)

Definition text (payload : list Z) : string :=
  String.string_of_list_ascii (map (λ b, Ascii.ascii_of_nat (Z.to_nat b)) payload).

Section edn_fields.
Context {V : Type} `{Edn V}.

(** The common prologue: a non-empty payload that parses to a map. *)
Definition parse_map (payload : list Z) : option (list (V * V)) :=
  match payload with [] => None | _ => edn_parse (text payload) ≫= as_map end.

Definition get_i (m : list (V * V)) (kw : string) (def : Z) : Z :=
  default def (find_kw m kw ≫= as_int).
Definition get_i16 (m : list (V * V)) (kw : string) (def : Z) : Z :=
  match find_kw m kw ≫= as_int with Some z => i16 z | None => def end.
Definition get_u8 (m : list (V * V)) (kw : string) (def : Z) : Z :=
  match find_kw m kw ≫= as_int with Some z => u8 z | None => def end.

(** A double, or an integer converted. *)
Definition number_d (v : V) : option f64 :=
  match edn_view v with VDouble d => Some d | VInt z => Some (f64_of_Z z) | _ => None end.
Definition number_f (v : V) : option f32 :=
  match edn_view v with VDouble d => Some (f32_of_f64 d) | VInt z => Some (f32_of_Z z) | _ => None end.
Definition get_dbl (m : list (V * V)) (kw : string) (def : f64) : f64 :=
  default def (find_kw m kw ≫= number_d).
Definition get_f (m : list (V * V)) (kw : string) (def : f32) : f32 :=
  default def (find_kw m kw ≫= number_f).

(** An identifier: a keyword or a string, else empty. *)
Definition id_of (v : V) : string :=
  match edn_view v with VKeyword k => k | VString s => s | _ => "" end.

(** [[:src ...]]: the keyword in front of a vector. *)
Definition src_of (v : option V) : string :=
  match v ≫= as_vector with
  | Some (x :: _) => default ""%string (as_keyword x)
  | _ => ""
  end.
Definition get_src (m : list (V * V)) (kw : string) : string := src_of (find_kw m kw).
(** The same in the [:ins] sub-map. *)
Definition get_in_src (m : list (V * V)) (kw : string) : string :=
  match find_kw m "ins" ≫= as_map with Some ins => src_of (find_kw ins kw) | None => "" end.

(** Lookup of a keyword field in a table of names. *)
Definition lookup_name {A} (table : list (string * A)) (v : option V) (def : A) : A :=
  match v ≫= as_keyword with
  | Some k => default def (snd <$> List.find (λ '(n, _), (n =? k)%string) table)
  | None => def
  end.
End edn_fields.

(** ** Notes *)

Definition make_note_event (is_on : bool) (key channel port note_id : Z) (velocity : f64) : clap_event :=
  let n := Note (Events.Header 0 false) note_id port channel key velocity in
  if is_on then EvNoteOn n else EvNoteOff n.

Section notes.
Context {V : Type} `{Edn V}.

Definition note_event (is_on : bool) (m : list (V * V)) : clap_event :=
  make_note_event is_on (get_i16 m "key" 60) (get_i16 m "channel" 0) (get_i16 m "port" 0)
    (get_i16 m "note-id" (-1)) (get_dbl m "velocity" (S754_zero false)).

Definition midi_in_event (m : list (V * V)) (bytes : list V) : clap_event :=
  let byte i := match bytes !! i ≫= as_int with Some z => u8 z | None => 0 end in
  EvMidi (Midi (Events.Header 0 false)
    (match find_kw m "port" ≫= as_int with Some z => u16 z | None => 0 end)
    (byte 0%nat) (byte 1%nat) (byte 2%nat)).

Context (inet_pton : list Z → option Z).

Definition osc_arg (v : V) : option Osc.arg :=
  match edn_view v with
  | VInt z => Some (make_i (i32 z))
  | VDouble d => Some (make_f (f32_of_f64 d))
  | VString s => Some (make_s (bytes_of_string s))
  | _ => None
  end.

Definition build_osc_event_from_edn (m : list (V * V)) : option osc_event :=
  address ← find_kw m "address" ≫= as_string;
  port ← find_kw m "port" ≫= as_int;
  let host := default "127.0.0.1"%string (find_kw m "host" ≫= as_string) in
  let args := match find_kw m "args" ≫= as_vector with Some l => omap osc_arg l | None => [] end in
  build_osc_event inet_pton (bytes_of_string host) (Z.land port 0xFFFF) (bytes_of_string address) args.

(** One item of [:events]; [None] stages nothing. *)
Definition bundle_event (anchor : f64) (item : V) : option scheduled_event :=
  match as_map item with
  | None => None
  | Some em =>
      let beat := anchor +d f64_of_Z (get_i em "at-tick" 0) /d lit64 24 1 in
      let type := find_kw em "type" ≫= as_keyword in
      match type with
      | Some "osc"%string =>
          oe ← build_osc_event_from_edn em; Some (Scheduled beat (sched_osc oe))
      | _ =>
          let is_on := negb (bool_decide (type = Some "note-off"%string)) in
          Some (Scheduled beat (sched_clap (make_note_event is_on
            (i16 (get_i em "key" 60)) (i16 (get_i em "channel" 0)) (i16 (get_i em "port" 0))
            (i16 (get_i em "note-id" (-1))) (get_dbl em "velocity" (S754_zero false)))))
      end
  end.
End notes.

(** ** [msg_modulator_start] *)

#[local] Existing Instances Slope.slope_modulator Segment.segment_modulator Slew.slew_modulator
  Fractal.fractal_modulator Stochastic.stochastic_modulator CvChannel.cv_channel_modulator
  DivineCmos.divine_cmos_modulator Statues.statues_modulator Cipher.cipher_modulator
  BoolsRing.bools_ring_modulator SlothChaos.sloth_chaos_modulator SquidAxon.squid_axon_modulator
  Genie.genie_modulator Splosh.lets_splosh_modulator.

Section modulator_start.
Context {V : Type} `{Edn V} `{Libm}.

(** A sequence of [update] calls. *)
Fixpoint updates {M} `{Modulator M} (l : list (string * f32)) (mod_ : M) : option M :=
  match l with
  | [] => Some mod_
  | (k, v) :: l => mod_ ← mupdate k v mod_; updates l mod_
  end.

(** Inner [None]: the message starts nothing. *)
Definition started {M} {I : Modulator M} (mod_ : M) (l : list (string * f32)) : option (option any_mod) :=
  mod_ ← updates l mod_; Some (Some (AnyMod M I mod_)).

Definition start_slope (m : list (V * V)) : option (option any_mod) :=
  started Slope.make
    [("rate", get_f m "rate" f1); ("shape", get_f m "shape" f0); ("slope", get_f m "slope" f0);
     ("smoothness", get_f m "smoothness" f0); ("depth", get_f m "depth" f1);
     ("bipolar", get_f m "bipolar" f1)]%string.

Definition segment_types : list (string * Segment.type) :=
  [("ramp", Segment.ramp); ("step", Segment.step); ("hold", Segment.hold); ("alt", Segment.alt)]%string.

Definition segment_def_of (item : V) : option Segment.segment_def :=
  match as_map item with
  | None => None
  | Some sm =>
      let d := Segment.default_def in
      let loop := match find_kw sm "loop" with
                  | Some l => match edn_view l with VNil | VBool false => false | _ => true end
                  | None => Segment.loop d
                  end in
      Some (Segment.Def (lookup_name segment_types (find_kw sm "type") (Segment.kind d))
              (get_f sm "primary" fhalf) (get_f sm "secondary" fhalf) loop)
  end.

Definition start_segment (m : list (V * V)) : option (option any_mod) :=
  match find_kw m "segments" ≫= as_vector with
  | None => Some None
  | Some items =>
      match omap segment_def_of items with
      | [] => Some None
      | defs => mod_ ← Segment.make defs; started mod_ []
      end
  end.

Definition start_slew (m : list (V * V)) : option (option any_mod) :=
  started Slew.make
    [("rise", get_f m "rise" (lit32 1 10)); ("fall", get_f m "fall" (lit32 1 10));
     ("cycle", get_f m "cycle" f0); ("depth", get_f m "depth" f1)]%string.

Definition shift_register_modes : list (string * ShiftRegister.mode) :=
  [("lfsr", ShiftRegister.lfsr); ("rungler", ShiftRegister.rungler); ("turing", ShiftRegister.turing);
   ("open", ShiftRegister.open)]%string.

Definition start_shift_register (m : list (V * V)) : option (option any_mod) :=
  let sr_mode := lookup_name shift_register_modes (find_kw m "mode") turing in
  len ← f_to_int (get_f m "length" (lit32 16 1));
  dac_bits ← f_to_int (get_f m "dac_bits" (lit32 3 1));
  started (ShiftRegister.make sr_mode len dac_bits)
    [("clock_rate", get_f m "clock_rate" f2); ("data", get_f m "data" fhalf);
     ("param", get_f m "param" fhalf); ("depth", get_f m "depth" f1)]%string.

Definition start_fractal (m : list (V * V)) : option (option any_mod) :=
  started Fractal.make
    [("base_rate", get_f m "base_rate" (lit32 1 10)); ("octaves", get_f m "octaves" (lit32 4 1));
     ("lacunarity", get_f m "lacunarity" f2); ("persistence", get_f m "persistence" fhalf);
     ("depth", get_f m "depth" f1)]%string.

Definition start_stochastic (m : list (V * V)) : option (option any_mod) :=
  started Stochastic.make
    [("rate", get_f m "rate" f2); ("bias", get_f m "bias" fhalf); ("spread", get_f m "spread" fhalf);
     ("deja_vu", get_f m "deja_vu" f0); ("length", get_f m "length" (lit32 8 1));
     ("depth", get_f m "depth" f1)]%string.

(** The keyword entries whose value is a number. *)
Definition float_params (entries : list (V * V)) : list (string * f32) :=
  omap (λ '(k, v), name ← as_keyword k; x ← number_f v; Some (name, x)) entries.

(** The [:params] sub-map; a later entry of a key replaces an earlier one. *)
Definition graph_params (m : list (V * V)) : gmap string f32 :=
  match find_kw m "params" ≫= as_map with
  | Some entries => foldl (λ ps '(k, v), <[k := v]> ps) ∅ (float_params entries)
  | None => ∅
  end.

Definition start_graph (m : list (V * V)) : option (option any_mod) :=
  match find_kw m "graph" with
  | None => Some None
  | Some graph_v =>
      g ← parse_control_graph graph_v (graph_params m); started (Graph.make g true) []
  end.

Definition start_cv_channel_decoder (m : list (V * V)) : option (option any_mod) :=
  channels ← match edn_view <$> find_kw m "channels" with
             | Some (VInt z) => Some (i32 z)
             | Some (VDouble d) => f_to_int d
             | _ => Some 1
             end;
  let span := find_kw m "span" in
  let field := match span ≫= as_vector with
               | Some (_ :: x :: _) =>
                   match as_keyword x with
                   | Some "aux"%string => CvChannel.field_aux
                   | Some "gate"%string => CvChannel.field_gate
                   | _ => CvChannel.field_cv
                   end
               | _ => CvChannel.field_cv
               end in
  started (CvChannel.make channels true (src_of span) field)
    ([("space", get_f m "space" f1); ("clocked", get_f m "clocked" f0)]%string ++
     match span ≫= number_f with Some x => [("span"%string, x)] | None => [] end).

(** ["gain"] and a digit. *)
Definition indexed (prefix : string) (i : nat) : string :=
  prefix +:+ String (Ascii.ascii_of_nat (48 + i)) EmptyString.

Definition start_divine_cmos (m : list (V * V)) : option (option any_mod) :=
  let gains := match find_kw m "gains" ≫= as_vector with
               | Some items => imap (λ i x, (indexed "gain" i, default f1 (number_f x))) (take 4 items)
               | None => []
               end in
  started (DivineCmos.make true (get_src m "clock1") (get_src m "clock2"))
    (gains ++ [("slew"%string, get_f m "slew" f0)]).

Definition start_statues (m : list (V * V)) : option (option any_mod) :=
  started (Statues.make true (get_src m "in") (get_src m "addr")) [].

Definition start_cipher (m : list (V * V)) : option (option any_mod) :=
  started (Cipher.make true (get_src m "clock") (get_src m "data1") (get_src m "data2")
             (get_src m "strobe")) [].

Definition bools_ring_modes : list (string * BoolsRing.mode) :=
  [("xor", BoolsRing.xor_mode); ("or", BoolsRing.or_mode); ("and", BoolsRing.and_mode);
   ("nor", BoolsRing.nor_mode); ("nand", BoolsRing.nand_mode); ("xnor", BoolsRing.xnor_mode)]%string.

Definition start_bools_ring (m : list (V * V)) : option (option any_mod) :=
  started (BoolsRing.make (lookup_name bools_ring_modes (find_kw m "mode") BoolsRing.xor_mode) true
             (map (get_in_src m) ["in0"; "in1"; "in2"; "in3"]%string) "")
    [("slew"%string, get_f m "slew" f0)].

Definition sloth_variants : list (string * SlothChaos.variant) :=
  [("torpor", SlothChaos.torpor); ("apathy", SlothChaos.apathy); ("inertia", SlothChaos.inertia);
   ("triple", SlothChaos.triple)]%string.

Definition start_sloth_chaos (m : list (V * V)) : option (option any_mod) :=
  started (SlothChaos.make (lookup_name sloth_variants (find_kw m "variant") SlothChaos.torpor) true
             (get_src m "cv"))
    [("knob"%string, get_f m "knob" fhalf)].

Definition start_squid_axon (m : list (V * V)) : option (option any_mod) :=
  started (SquidAxon.make true (get_src m "clock") (get_src m "in1") (get_src m "in2") (get_src m "in3"))
    ([("nl_fb", get_f m "nl-fb" f0); ("lin_fb", get_f m "lin-fb" f0)]%string ++
     match find_kw m "in3" with Some _ => [("in3_patched"%string, f1)] | None => [] end).

(** The doubles of a vector, with their index. *)
Definition vec_param (m : list (V * V)) (kw prefix : string) : list (string * f32) :=
  match find_kw m kw ≫= as_vector with
  | Some items =>
      omap (λ '(i, x), d ← as_double x; Some (indexed prefix i, f32_of_f64 d))
        (imap pair (take (Z.to_nat Genie.kMaxN) items))
  | None => []
  end.

Definition start_genie (m : list (V * V)) : option (option any_mod) :=
  n ← f_to_int (get_f m "n" (lit32 3 1));
  started (Genie.make n true (replicate 8 ""%string))
    (vec_param m "gains" "gain" ++ vec_param m "sense" "sense" ++ vec_param m "response" "response").

Definition start_lets_splosh (m : list (V * V)) : option (option any_mod) :=
  started (Splosh.make true (map (get_in_src m) ["c"; "t"; "n"; "b"]%string)) [].

(** An extension type: the factory, then every numeric parameter. *)
Definition start_extension (reg : option modulator_registry) (type_name : string) (m : list (V * V))
  : option (option any_mod) :=
  match reg with
  | None => Some None
  | Some r =>
      match Engine.make type_name r with
      | None => Some None
      | Some a =>
          let ps := filter (λ '(k, _), k ≠ "id"%string ∧ k ≠ "type"%string) (float_params m) in
          mod_ ← foldl (λ a '(k, v), a ← a; any_update k v a) (Some a) ps;
          Some (Some mod_)
      end
  end.

Definition modulator_of (reg : option modulator_registry) (type_name : string) (m : list (V * V))
  : option (option any_mod) :=
  if (type_name =? "slope")%string then start_slope m
  else if (type_name =? "segment")%string then start_segment m
  else if (type_name =? "slew")%string then start_slew m
  else if (type_name =? "shift-register")%string then start_shift_register m
  else if (type_name =? "fractal")%string then start_fractal m
  else if (type_name =? "stochastic")%string then start_stochastic m
  else if (type_name =? "graph")%string then start_graph m
  else if (type_name =? "cv-channel-decoder")%string then start_cv_channel_decoder m
  else if (type_name =? "divine-cmos")%string then start_divine_cmos m
  else if (type_name =? "statues")%string then start_statues m
  else if (type_name =? "cipher")%string then start_cipher m
  else if (type_name =? "bools-ring")%string then start_bools_ring m
  else if (type_name =? "sloth-chaos")%string then start_sloth_chaos m
  else if (type_name =? "squid-axon")%string then start_squid_axon m
  else if (type_name =? "genie")%string then start_genie m
  else if (type_name =? "lets-splosh")%string then start_lets_splosh m
  else start_extension reg type_name m.
End modulator_start.

(** ** The thread *)

Inductive control_fx :=
| FxWrite (fd : Z) (type : opcode) (payload : string)   (* ipc::write_message *)
| FxTty (payload : string)                              (* cfg_.tty_sink *)
| FxMidi (fx : midi_fx)
| FxOsc (fx : osc_fx)
| FxSwap (node_id wasm_path : string).                  (* cfg_.wasm_swap_fn *)

Definition dq : string := String (Ascii.ascii_of_nat 34) EmptyString.
Definition quoted (s : string) : string := dq +:+ s +:+ dq.

(** [s.find(c)]: what follows, with what comes before. *)
Fixpoint split_at (c : Ascii.ascii) (s : string) : option (string * string) :=
  match s with
  | EmptyString => None
  | String d s =>
      if Ascii.eqb d c then Some (EmptyString, s)
      else match split_at c s with Some (a, b) => Some (String d a, b) | None => None end
  end.

Section control.
Context {V PQ IQ SQ R L T : Type}.
Context `{Edn V, Libm, BoundedQueue PQ (param_event V), BoundedQueue IQ clap_event,
          BoundedQueue SQ scheduled_event, RtMidi R, Lua L, Txlog V T}.
Context (inet_pton : list Z → option Z).

(** [config] with what it points to, and the two queues. *)
Record control := Control {
  db_path : string;
  sched_staging : option SQ;
  mod_engine : option modulator_engine;
  ext_registry : option modulator_registry;
  midi : option (midi_io (R := R) (Q := IQ));
  osc : option osc_server;
  lua : option L;
  tty_sink : bool;
  wasm_swap_fn : option (string → string → bool);
  queue_ : PQ;
  in_queue_ : IQ }.

Definition set_queue (c : control) (q : PQ) : control :=
  Control (db_path c) (sched_staging c) (mod_engine c) (ext_registry c) (midi c) (osc c) (lua c)
    (tty_sink c) (wasm_swap_fn c) q (in_queue_ c).
Definition set_in_queue (c : control) (q : IQ) : control :=
  Control (db_path c) (sched_staging c) (mod_engine c) (ext_registry c) (midi c) (osc c) (lua c)
    (tty_sink c) (wasm_swap_fn c) (queue_ c) q.
Definition set_staging (c : control) (q : SQ) : control :=
  Control (db_path c) (Some q) (mod_engine c) (ext_registry c) (midi c) (osc c) (lua c)
    (tty_sink c) (wasm_swap_fn c) (queue_ c) (in_queue_ c).
Definition set_engine (c : control) (e : modulator_engine) : control :=
  Control (db_path c) (sched_staging c) (Some e) (ext_registry c) (midi c) (osc c) (lua c)
    (tty_sink c) (wasm_swap_fn c) (queue_ c) (in_queue_ c).
Definition set_midi (c : control) (m : midi_io (R := R) (Q := IQ)) : control :=
  Control (db_path c) (sched_staging c) (mod_engine c) (ext_registry c) (Some m) (osc c) (lua c)
    (tty_sink c) (wasm_swap_fn c) (queue_ c) (in_queue_ c).
Definition set_lua (c : control) (l : option L) : control :=
  Control (db_path c) (sched_staging c) (mod_engine c) (ext_registry c) (midi c) (osc c) l
    (tty_sink c) (wasm_swap_fn c) (queue_ c) (in_queue_ c).
Definition set_tty_sink (c : control) (sink : bool) : control :=
  Control (db_path c) (sched_staging c) (mod_engine c) (ext_registry c) (midi c) (osc c) (lua c)
    sink (wasm_swap_fn c) (queue_ c) (in_queue_ c).
Definition set_wasm_swap_fn (c : control) (fn : option (string → string → bool)) : control :=
  Control (db_path c) (sched_staging c) (mod_engine c) (ext_registry c) (midi c) (osc c) (lua c)
    (tty_sink c) fn (queue_ c) (in_queue_ c).

(** ** Handlers *)

(** State, session and calls after a message. *)
Definition outcome : Type := control * option (session T) * list control_fx.

Definition on_register_source (m : list (V * V)) (s : session T) : session T :=
  match find_kw m "id" ≫= as_keyword with
  | None => s
  | Some id =>
      session_register_source id (default ""%string (find_kw m "name" ≫= as_string))
        (default ""%string (find_kw m "description" ≫= as_string)) s
  end.

Definition on_param_set (m : list (V * V)) (c : control) : control :=
  match find_kw m "path", find_kw m "value" with
  | Some p, Some v => set_queue c (bq_push (queue_ c) (ParamEvent p v time_default)).1
  | _, _ => c
  end.

Definition on_note (is_on : bool) (m : list (V * V)) (c : control) : control :=
  let ev := note_event is_on m in
  match find_kw m "beat", sched_staging c with
  | Some _, Some q =>
      set_staging c (bq_push q (Scheduled (get_dbl m "beat" (S754_zero false)) (sched_clap ev))).1
  | _, _ => set_in_queue c (bq_push (in_queue_ c) ev).1
  end.

Definition on_schedule_bundle (q : SQ) (m : list (V * V)) : SQ :=
  match find_kw m "at-beat", find_kw m "events" ≫= as_vector with
  | Some beat_v, Some items =>
      let anchor := default (S754_zero false) (number_d beat_v) in
      foldl (λ q e, (bq_push q e).1) q (omap (bundle_event inet_pton anchor) items)
  | _, _ => q
  end.

Definition on_midi_in (m : list (V * V)) (c : control) : control :=
  match find_kw m "data" ≫= as_vector with
  | None => c
  | Some bytes => set_in_queue c (bq_push (in_queue_ c) (midi_in_event m bytes)).1
  end.

Definition not_nil (v : V) : option V := match edn_view v with VNil => None | _ => Some v end.

Definition tx_entry (m : list (V * V)) : entry V :=
  Entry
    (match edn_view <$> find_kw m "id" with
     | Some (VTagged tag v) => if (tag =? "uuid")%string then parse_uuid <$> as_string v else None
     | _ => None
     end)
    (find_kw m "beat" ≫= number_d) (find_kw m "wall-ns" ≫= as_int) (find_kw m "source" ≫= as_keyword)
    (find_kw m "path") (find_kw m "before" ≫= not_nil) (find_kw m "after" ≫= not_nil)
    (find_kw m "parent" ≫= not_nil).

Definition on_modulator_start (reg : option modulator_registry) (m : list (V * V)) (e : modulator_engine)
  : option modulator_engine :=
  match find_kw m "id", find_kw m "type" with
  | Some id_v, Some type_v =>
      let id := id_of id_v in
      if (id =? "")%string then Some e
      else
        made ← modulator_of reg (default ""%string (as_keyword type_v)) m;
        Some (match made with Some mod_ => Engine.start id mod_ e | None => e end)
  | _, _ => Some e
  end.

Definition on_modulator_stop (m : list (V * V)) (e : modulator_engine) : modulator_engine :=
  match find_kw m "id" with
  | Some id_v => let id := id_of id_v in if (id =? "")%string then e else Engine.stop id e
  | None => e
  end.

Definition on_modulator_update (m : list (V * V)) (e : modulator_engine) : option modulator_engine :=
  match find_kw m "id", find_kw m "key", find_kw m "value" with
  | Some id_v, Some key_v, Some value_v =>
      let id := id_of id_v in
      let key := id_of key_v in
      if (id =? "")%string || (key =? "")%string then Some e
      else update_param id key (default f0 (number_f value_v)) e
  | _, _, _ => Some e
  end.

(** The bytes the channel messages and dumps send, if any. *)
Definition cc_bytes (m : list (V * V)) : list Z :=
  [u8 (Z.lor 0xB0 (Z.land (get_u8 m "channel" 0) 0x0F)); get_u8 m "cc" 0; get_u8 m "value" 0].
Definition pitch_bend_bytes (m : list (V * V)) : list Z :=
  let raw := Z.max 0 (Z.min 16383 (get_i m "value" 8192)) in
  [u8 (Z.lor 0xE0 (u8 (Z.land (get_i m "channel" 0) 0x0F))); u8 (Z.land raw 0x7F);
   u8 (Z.land (Z.shiftr raw 7) 0x7F)].
Definition chan_pressure_bytes (m : list (V * V)) : list Z :=
  [u8 (Z.lor 0xD0 (Z.land (get_u8 m "channel" 0) 0x0F)); get_u8 m "value" 0].
Definition sysex_bytes (m : list (V * V)) : list Z :=
  match find_kw m "data" ≫= as_vector with
  | Some items => omap (λ v, (λ z, u8 (Z.land z 0xFF)) <$> as_int v) items
  | None => []
  end.

(** Integer keys, as [int]; the value 0 when it is not a number. *)
Definition tuning_of (entries : list (V * V)) : gmap Z f64 :=
  foldl (λ t '(k, v), match as_int k with
                      | Some z => <[i32 z := default (S754_zero false) (number_d v)]> t
                      | None => t
                      end) ∅ entries.
Definition mts_bytes (m : list (V * V)) : option (list Z) :=
  match find_kw m "tuning" ≫= as_map with
  | None => Some []
  | Some entries =>
      let prog := match find_kw m "tuning-prog" ≫= as_int with Some z => u8 (Z.land z 0x7F) | None => 0 end in
      let dev := match find_kw m "device-id" ≫= as_int with Some z => u8 (Z.land z 0x7F) | None => 0x7F end in
      mts_bulk_dump (tuning_of entries) prog dev
  end.

Definition midi_send (c : control) (mi : midi_io (R := R) (Q := IQ)) (bytes : list Z)
  : control * list control_fx :=
  let '(mi, fx) := Events.send mi bytes in (set_midi c mi, map FxMidi fx).

(** [cfg_.lua->eval(src)], or the error. *)
Definition eval_fennel (c : control) (src : string) : control * string :=
  match lua c with
  | Some l => let '(l, r) := lua_eval l src in (set_lua c (Some l), r)
  | None => (c, "{:error " +:+ quoted "LuaJIT not loaded" +:+ "}")
  end.

Definition tty_payload (result_edn : string) : string :=
  if String.prefix "{:error" result_edn then
    let between :=
      '(_, after) ← split_at (Ascii.ascii_of_nat 34) result_edn;
      fst <$> split_at (Ascii.ascii_of_nat 34) after in
    "{:result nil :error " +:+ quoted (default "eval error"%string between) +:+ "}"
  else "{:result " +:+ result_edn +:+ " :error nil}".

Definition repl_response (id result_edn : string) : string :=
  "{:id " +:+ quoted id +:+ " :result " +:+ result_edn +:+ "}".

Definition on_repl_eval (conn_fd : Z) (m : list (V * V)) (c : control) : control * list control_fx :=
  let id := default ""%string (find_kw m "id" ≫= as_string) in
  let dest := default ""%string (find_kw m "dest" ≫= as_keyword) in
  let src := default ""%string (find_kw m "payload" ≫= as_string) in
  let '(c, result_edn, tty) :=
    if (dest =? "fennel")%string then let '(c, r) := eval_fennel c src in (c, r, [])
    else if (dest =? "nous")%string then (c, "{:error " +:+ quoted "nous forwarding not yet wired" +:+ "}", [])
    else if (dest =? "vcvrack-tty")%string then
      let '(c, r) := eval_fennel c src in (c, r, if tty_sink c then [FxTty (tty_payload r)] else [])
    else (c, "{:error " +:+ quoted "unknown :dest" +:+ "}", []) in
  (c, tty ++ if 0 <=? conn_fd then [FxWrite conn_fd msg_repl_eval (repl_response id result_edn)] else []).

Definition swap_response (ok : bool) (node_id : string) : string :=
  "{:node-id :" +:+ node_id +:+
  (if ok then " :status :ok}" else " :status :error :reason " +:+ quoted "swap not wired" +:+ "}").

(** The default [dispatch_extension]. *)
Definition dispatch_extension (conn_fd : Z) (t : opcode) (payload : list Z) (c : control) : list control_fx :=
  match t, parse_map payload with
  | msg_wasm_hot_swap, Some m =>
      match find_kw m "wasm-path" with
      | None => []
      | Some path_v =>
          let node_id := default ""%string (find_kw m "node-id" ≫= as_keyword) in
          let wasm_path := default ""%string (as_string path_v) in
          if (wasm_path =? "")%string then []
          else
            match wasm_swap_fn c with
            | Some fn =>
                [FxSwap node_id wasm_path;
                 FxWrite conn_fd msg_wasm_hot_swap (swap_response (fn node_id wasm_path) node_id)]
            | None => [FxWrite conn_fd msg_wasm_hot_swap (swap_response false node_id)]
            end
      end
  | _, _ => []
  end.

(** One definition per case of [dispatch_message]: the guards on the
    configuration and the session, the payload, the effect.  A case that leaves
    early keeps everything. *)
Definition handle_register_source (payload : list Z) (c : control) (sess : option (session T)) : outcome :=
  match sess, parse_map payload with
  | Some s, Some m => (c, Some (on_register_source m s), [])
  | _, _ => (c, sess, [])
  end.

Definition handle_param_set (payload : list Z) (c : control) (sess : option (session T)) : outcome :=
  match parse_map payload with Some m => (on_param_set m c, sess, []) | None => (c, sess, []) end.

Definition handle_note (is_on : bool) (payload : list Z) (c : control) (sess : option (session T)) : outcome :=
  match parse_map payload with Some m => (on_note is_on m c, sess, []) | None => (c, sess, []) end.

Definition handle_schedule_bundle (payload : list Z) (c : control) (sess : option (session T)) : outcome :=
  match sched_staging c, parse_map payload with
  | Some q, Some m => (set_staging c (on_schedule_bundle q m), sess, [])
  | _, _ => (c, sess, [])
  end.

Definition handle_midi_in (payload : list Z) (c : control) (sess : option (session T)) : outcome :=
  match parse_map payload with Some m => (on_midi_in m c, sess, []) | None => (c, sess, []) end.

Definition handle_tx_log (payload : list Z) (c : control) (sess : option (session T)) : outcome :=
  match sess, parse_map payload with
  | Some s, Some m => (c, Some (session_emit (tx_entry m) s), [])
  | _, _ => (c, sess, [])
  end.

Definition handle_modulator_start (payload : list Z) (c : control) (sess : option (session T)) : option outcome :=
  match mod_engine c, parse_map payload with
  | Some e, Some m => e ← on_modulator_start (ext_registry c) m e; Some (set_engine c e, sess, [])
  | _, _ => Some (c, sess, [])
  end.

Definition handle_modulator_stop (payload : list Z) (c : control) (sess : option (session T)) : outcome :=
  match mod_engine c, parse_map payload with
  | Some e, Some m => (set_engine c (on_modulator_stop m e), sess, [])
  | _, _ => (c, sess, [])
  end.

Definition handle_modulator_update (payload : list Z) (c : control) (sess : option (session T)) : option outcome :=
  match mod_engine c, parse_map payload with
  | Some e, Some m => e ← on_modulator_update m e; Some (set_engine c e, sess, [])
  | _, _ => Some (c, sess, [])
  end.

(** The MIDI cases: the bytes of the message, sent unless there are none. *)
Definition handle_midi (bytes_of : list (V * V) → option (list Z)) (payload : list Z) (c : control)
  (sess : option (session T)) : option outcome :=
  match midi c, parse_map payload with
  | Some mi, Some m =>
      bytes ← bytes_of m;
      Some (match bytes with
            | [] => (c, sess, [])
            | _ => let '(c, fx) := midi_send c mi bytes in (c, sess, fx)
            end)
  | _, _ => Some (c, sess, [])
  end.
Definition handle_cc := handle_midi (λ m, Some (cc_bytes m)).
Definition handle_pitch_bend := handle_midi (λ m, Some (pitch_bend_bytes m)).
Definition handle_chan_pressure := handle_midi (λ m, Some (chan_pressure_bytes m)).
Definition handle_sysex := handle_midi (λ m, Some (sysex_bytes m)).
Definition handle_mts := handle_midi mts_bytes.

Definition handle_osc (payload : list Z) (c : control) (sess : option (session T)) : outcome :=
  match osc c, parse_map payload with
  | Some o, Some m =>
      match build_osc_event_from_edn inet_pton m with
      | Some ev => (c, sess, map FxOsc (Osc.send_event o ev))
      | None => (c, sess, [])
      end
  | _, _ => (c, sess, [])
  end.

Definition handle_repl_eval (conn_fd : Z) (payload : list Z) (c : control) (sess : option (session T)) : outcome :=
  match parse_map payload with
  | Some m => let '(c, fx) := on_repl_eval conn_fd m c in (c, sess, fx)
  | None => (c, sess, [])
  end.

(** [dispatch_message] on a message whose type byte names [t]. *)
Definition dispatch_opcode (conn_fd : Z) (t : opcode) (payload : list Z) (c : control)
  (sess : option (session T)) : option outcome :=
  match t with
  | msg_session_open => Some (c, session_open (db_path c), [])
  | msg_session_close => Some (c, None, [])   (* close(), then reset() *)
  | msg_register_source => Some (handle_register_source payload c sess)
  | msg_param_set => Some (handle_param_set payload c sess)
  | msg_note_on => Some (handle_note true payload c sess)
  | msg_note_off => Some (handle_note false payload c sess)
  | msg_schedule_bundle => Some (handle_schedule_bundle payload c sess)
  | msg_midi_in => Some (handle_midi_in payload c sess)
  | msg_tx_log => Some (handle_tx_log payload c sess)
  | msg_modulator_start => handle_modulator_start payload c sess
  | msg_modulator_stop => Some (handle_modulator_stop payload c sess)
  | msg_modulator_update => handle_modulator_update payload c sess
  | msg_cc => handle_cc payload c sess
  | msg_pitch_bend => handle_pitch_bend payload c sess
  | msg_chan_pressure => handle_chan_pressure payload c sess
  | msg_sysex => handle_sysex payload c sess
  | msg_mts => handle_mts payload c sess
  | msg_osc => Some (handle_osc payload c sess)
  | msg_repl_eval => Some (handle_repl_eval conn_fd payload c sess)
  | _ => Some (c, sess, dispatch_extension conn_fd t payload c)
  end.

Definition dispatch_message (conn_fd : Z) (msg : Ipc.message) (c : control) (sess : option (session T))
  : option outcome :=
  match opcode_of (htype (hdr msg)) with
  | Some t => dispatch_opcode conn_fd t (Ipc.payload msg) c sess
  | None => Some (c, sess, [])
  end.

(** ** Connections *)

(** The loop of [handle_connection]: messages are dispatched until a read fails
    ([None]: a read blocks for ever).  Each turn consumes a header, so the
    bytes and interruptions left bound the turns. *)
Fixpoint serve (fuel : nat) (conn_fd : Z) (fd : list read_ev) (c : control) (sess : option (session T))
  : option (control * list control_fx) :=
  match fuel with
  | O => None
  | S fuel =>
      match read_message fd with
      | (RErr _, _) => Some (c, [])
      | (RBlocked, _) => None
      | (RMsg msg, fd) =>
          '(c, sess, fx) ← dispatch_message conn_fd msg c sess;
          '(c, rest) ← serve fuel conn_fd fd c sess;
          Some (c, fx ++ rest)
      end
  end.

(** A connection starts without a session. *)
Definition handle_connection (fuel : nat) (conn_fd : Z) (fd : list read_ev) (c : control)
  : option (control * list control_fx) := serve fuel conn_fd fd c None.

(** [dispatch_ctrl_frame]: a frame from shared memory.  One step of the state:
    the header lets any thread call it, and a call during the dispatch of a
    message of the connection, which would race with it, is not modelled. *)
Definition dispatch_ctrl_frame (buf : list Z) (c : control) : option (control * list control_fx) :=
  if (length buf <? header_size)%nat then Some (c, [])
  else
    let h := header_of_bytes (take 8 buf) in
    let payload_len := bswap32 (Ipc.payload_len h) in
    if Z.of_nat (length buf) - 8 <? payload_len then Some (c, [])
    else
      let msg := Message (Ipc.Header 0 (htype h) [0; 0; 0]) (take (Z.to_nat payload_len) (drop 8 buf)) in
      '(c, _, fx) ← dispatch_message (-1) msg c None;
      Some (c, fx).
End control.
