(* ===== verification/ControlSpec.v ===== *)
(** What the control thread of [Control] promises: malformed messages change
    nothing, a connection dispatches the messages its byte stream holds, frames
    from shared memory are handled like frames from the socket, modulator
    messages act on the engine's abstract list, and a bundle is played by the
    scheduler ([read_item]: what its items say). *)
From S2P Require Import Prelude Sequences Binary Bytes Spsc Ipc Events Osc Scheduler.
From S2P Require Import Modulator Engine Edn Graph Mts Control.
Local Open Scope Z_scope.

(** The cases of [dispatch_opcode]. *)
Ltac dispatch_cases :=
  unfold dispatch_opcode, handle_register_source, handle_param_set, handle_note, handle_schedule_bundle,
    handle_midi_in, handle_tx_log, handle_modulator_start, handle_modulator_stop, handle_modulator_update,
    handle_cc, handle_pitch_bend, handle_chan_pressure, handle_sysex, handle_mts, handle_midi, handle_osc,
    handle_repl_eval.

Section control_spec.
Context {V PQ IQ SQ R L T : Type}.
Context `{Edn V, Libm, BoundedQueue PQ (param_event V), BoundedQueue IQ clap_event,
          BoundedQueue SQ scheduled_event, RtMidi R, Lua L, Txlog V T}.
Context (inet_pton : list Z → option Z).

Abbreviation control := (Control.control (PQ := PQ) (IQ := IQ) (SQ := SQ) (R := R) (L := L)).

(** ** Malformed messages *)

(** A message whose payload is empty, does not parse or is not an EDN map
    changes nothing and sends nothing, whatever its type and whatever the state
    of the thread; only opening and closing a session need no payload.  A type
    byte that names no message is ignored too. *)
Theorem malformed_ignored conn_fd (msg : Ipc.message) (c : control) (sess : option (session T)) :
  opcode_of (htype (hdr msg)) ≠ Some msg_session_open →
  opcode_of (htype (hdr msg)) ≠ Some msg_session_close →
  opcode_of (htype (hdr msg)) = None ∨ parse_map (Ipc.payload msg) = None →
  dispatch_message inet_pton conn_fd msg c sess = Some (c, sess, []).
Proof.
  intros Ho Hc Hm. unfold dispatch_message. destruct (opcode_of (htype (hdr msg))) as [t|]; [|done].
  destruct Hm as [?|Hp]; [done|]. dispatch_cases. rewrite Hp.
  destruct t; try congruence; repeat case_match; try done; unfold dispatch_extension; by rewrite Hp.
Qed.

(** ** Connections *)

(** The messages dispatched one after the other. *)
Fixpoint dispatch_all (conn_fd : Z) (ms : list Ipc.message) (c : control) (sess : option (session T))
  : option (control * list control_fx) :=
  match ms with
  | [] => Some (c, [])
  | msg :: ms =>
      '(c, sess, fx) ← dispatch_message inet_pton conn_fd msg c sess;
      '(c, rest) ← dispatch_all conn_fd ms c sess;
      Some (c, fx ++ rest)
  end.

Lemma serve_read_all fuel conn_fd fd (c : control) sess ms e :
  read_all fuel fd = (ms, RErr e) →
  serve inet_pton fuel conn_fd fd c sess = dispatch_all conn_fd ms c sess.
Proof.
  revert fd c sess ms. induction fuel as [|fuel IH]; intros fd c sess ms Hr; [done|].
  rewrite read_all_S in Hr. cbn [serve]. destruct (read_message fd) as [[msg|e'|] fd']; simplify_eq; [|done].
  destruct (read_all fuel fd') as [ms' r] eqn:E. simplify_eq. cbn [dispatch_all].
  destruct (dispatch_message inet_pton conn_fd msg c sess) as [[[c' sess'] fx]|]; simpl; [|done].
  by rewrite (IH _ _ _ _ E).
Qed.

Lemma connection_dispatch_all conn_fd ms fd rest (c : control) :
  Forall (fits ∘ snd) ms →
  stream_data fd = concat (map (uncurry frame) ms) ++ rest → (length rest < header_size)%nat →
  stream_end fd ≠ EndOpen →
  handle_connection inet_pton (S (length ms)) conn_fd fd c =
  dispatch_all conn_fd (map (uncurry host_message) ms) c None.
Proof.
  intros Hf Hd Hr He. pose proof (read_all_frames ms fd rest Hf Hd Hr) as Ha.
  destruct (stream_end fd) eqn:E; [| |done]; by eapply serve_read_all.
Qed.

(** C9: A connection dispatches exactly the messages whose frames its byte
    stream holds, in order, however the stream was fragmented or interrupted,
    threading the session through them; it ends, without acting on a trailing
    incomplete frame, once the peer closes or the descriptor fails. *)
Theorem connection_dispatches conn_fd ms fd rest (c : control) :
  Forall (fits ∘ snd) ms →
  stream_data fd = concat (map (uncurry frame) ms) ++ rest → (length rest < header_size)%nat →
  stream_end fd ≠ EndOpen →
  handle_connection inet_pton (S (length ms)) conn_fd fd c =
  dispatch_all conn_fd (map (uncurry host_message) ms) c None.
Proof. apply connection_dispatch_all. Qed.

(** ** Frames from shared memory *)

(** The calls other than writes to the client. *)
Definition no_writes : list control_fx → list control_fx :=
  List.filter (λ f, match f with FxWrite _ _ _ => false | _ => true end).

Lemma dispatch_any_fd fd1 fd2 msg (c : control) (sess : option (session T)) :
  match dispatch_message inet_pton fd1 msg c sess, dispatch_message inet_pton fd2 msg c sess with
  | Some (c1, s1, fx1), Some (c2, s2, fx2) => c1 = c2 ∧ s1 = s2 ∧ no_writes fx1 = no_writes fx2
  | None, None => True
  | _, _ => False
  end.
Proof.
  unfold dispatch_message. destruct (opcode_of _) as [t|]; [|done].
  set (p := Ipc.payload msg). dispatch_cases.
  assert (∀ t, no_writes (dispatch_extension fd1 t p c) = no_writes (dispatch_extension fd2 t p c)) as Hx.
  { intros t'. unfold dispatch_extension. repeat (case_match; try done). }
  assert (∀ m, (on_repl_eval fd1 m c).1 = (on_repl_eval fd2 m c).1 ∧
    no_writes (on_repl_eval fd1 m c).2 = no_writes (on_repl_eval fd2 m c).2) as Hre.
  { intros m. unfold on_repl_eval. destruct (if (_ =? _)%string then _ else _) as [[c' r] tty].
    split; [done|]. cbn [snd]. unfold no_writes. rewrite !List.filter_app. f_equal.
    by destruct (0 <=? fd1), (0 <=? fd2). }
  destruct t; try (split_and!; [done..|apply Hx]).
  all: try by repeat (case_match; simplify_eq/=).
  destruct (parse_map p) as [m|]; [|done]. specialize (Hre m).
  destruct (on_repl_eval fd1 m c) as [c1 fx1], (on_repl_eval fd2 m c) as [c2 fx2]. by destruct Hre.
Qed.

Lemma ctrl_frame_dispatch ty p junk (c : control) :
  fits p →
  dispatch_ctrl_frame inet_pton (frame ty p ++ junk) c =
  ('(c', _, fx) ← dispatch_message inet_pton (-1) (host_message ty p) c (None : option (session T)); Some (c', fx)).
Proof.
  intros Hf. destruct (frame_header ty p) as (x & y & z & w & -> & Hv); [by apply fits_u32|].
  unfold dispatch_ctrl_frame. rewrite <- app_assoc. cbn [app].
  rewrite (proj2 (Nat.ltb_ge _ _)) by (unfold header_size; cbn [length]; lia).
  change (take 8 _) with [x; y; z; w; ty; 0; 0; 0]. change (drop 8 _) with (p ++ junk).
  rewrite header_of_bytes_eq. cbn [Ipc.payload_len htype]. rewrite Hv.
  rewrite (proj2 (Z.ltb_ge _ _)) by (cbn [length]; rewrite length_app; lia).
  rewrite Nat2Z.id, take_app_length. done.
Qed.

(** A frame handed over in shared memory has the effect it would have as
    the only message of a connection: the same state afterwards and the same
    calls, writes to the client apart, whatever follows the frame in the
    buffer; a truncated frame has no effect at all. *)
Theorem ctrl_frame_like_socket conn_fd ty p junk (c : control) :
  fits p →
  match dispatch_ctrl_frame inet_pton (frame ty p ++ junk) c,
        dispatch_all conn_fd [host_message ty p] c None with
  | Some (c1, fx1), Some (c2, fx2) => c1 = c2 ∧ no_writes fx1 = no_writes fx2
  | None, None => True
  | _, _ => False
  end ∧
  ∀ k, (k < length (frame ty p))%nat →
    dispatch_ctrl_frame inet_pton (take k (frame ty p)) c = Some (c, []).
Proof.
  intros Hf. split.
  - rewrite ctrl_frame_dispatch by done. cbn [dispatch_all].
    pose proof (dispatch_any_fd (-1) conn_fd (host_message ty p) c None) as Ha.
    destruct (dispatch_message inet_pton (-1) _ c None) as [[[c1 s1] fx1]|],
      (dispatch_message inet_pton conn_fd _ c None) as [[[c2 s2] fx2]|]; try done.
    simpl. rewrite app_nil_r. by destruct Ha as (? & _ & ?).
  - intros k Hk. rewrite length_frame in Hk by (by apply fits_u32).
    destruct (frame_header ty p) as (x & y & z & w & -> & Hv); [by apply fits_u32|].
    unfold dispatch_ctrl_frame, header_size in *. rewrite length_take_le by (rewrite length_app; simpl; lia).
    destruct (Nat.ltb_spec k 8) as [?|Hge]; [done|].
    rewrite take_take, Nat.min_l by lia.
    change (take 8 ([x; y; z; w; ty; 0; 0; 0] ++ p)) with [x; y; z; w; ty; 0; 0; 0].
    rewrite header_of_bytes_eq. cbn [Ipc.payload_len htype]. rewrite Hv.
    by rewrite (proj2 (Z.ltb_lt _ _)) by lia.
Qed.

(** ** Modulator messages *)

(** What a modulator message asks of the abstract engine. *)
Definition abs_message (reg : option modulator_registry) (t : opcode) (m : list (V * V)) (a : abs_engine)
  : option abs_engine :=
  match t, id_of <$> find_kw m "id" with
  | _, None | _, Some ""%string => Some a
  | msg_modulator_stop, Some id => Some (abs_stop id a)
  | msg_modulator_start, Some id =>
      match find_kw m "type" with
      | None => Some a
      | Some type_v =>
          made ← modulator_of reg (default ""%string (as_keyword type_v)) m;
          Some (match made with Some mod_ => abs_start id mod_ a | None => a end)
      end
  | msg_modulator_update, Some id =>
      match id_of <$> find_kw m "key", find_kw m "value" with
      | None, _ | _, None | Some ""%string, _ => Some a
      | Some key, Some value_v => abs_update id key (default f0 (number_f value_v)) a
      end
  | _, Some _ => Some a
  end.

Lemma modulator_dispatch conn_fd t payload m (c : control) (sess : option (session T)) e a :
  t ∈ [msg_modulator_start; msg_modulator_stop; msg_modulator_update] →
  mod_engine c = Some e → Engine.rep e a → parse_map payload = Some m →
  match dispatch_opcode inet_pton conn_fd t payload c sess, abs_message (ext_registry c) t m a with
  | Some (c', sess', fx), Some a' =>
      sess' = sess ∧ fx = [] ∧ ∃ e', c' = set_engine c e' ∧ Engine.rep e' a'
  | None, None => True
  | _, _ => False
  end.
Proof.
  intros Ht He Hr Hp. dispatch_cases. rewrite He, Hp.
  apply list_elem_of_In in Ht. destruct Ht as [<-|[<-|[<-|[]]]].
  - unfold on_modulator_start, abs_message.
    destruct (find_kw m "id") as [iv|]; simpl; [|by eauto 10].
    destruct (find_kw m "type") as [tv|]; [|by destruct (id_of iv); simpl; eauto 10].
    destruct (id_of iv) as [|x id]; simpl; [by eauto 10|].
    destruct (modulator_of (ext_registry c) _ m) as [[mo|]|]; simpl; [|by eauto 10|done].
    split_and!; [done|done|]. eexists. split; [done|]. by apply rep_start.
  - unfold on_modulator_stop, abs_message.
    destruct (find_kw m "id") as [iv|]; simpl; [|by eauto 10].
    destruct (id_of iv) as [|x id]; simpl; [by eauto 10|].
    split_and!; [done|done|]. eexists. split; [done|]. by apply rep_stop.
  - unfold on_modulator_update, abs_message.
    destruct (find_kw m "id") as [iv|]; simpl; [|by eauto 10].
    destruct (find_kw m "key") as [kv|]; simpl; [|by destruct (id_of iv); simpl; eauto 10].
    destruct (find_kw m "value") as [vv|]; [|by destruct (id_of iv), (id_of kv); simpl; eauto 10].
    destruct (id_of iv) as [|x id]; simpl; [by eauto 10|]. destruct (id_of kv) as [|y k]; simpl; [by eauto 10|].
    pose proof (rep_update (String x id) (String y k) (default f0 (number_f vv)) e a Hr) as Hu.
    destruct (update_param _ _ _ e), (abs_update _ _ _ a); simpl; try done. by eauto 10.
Qed.

(** C21: Starting, updating and stopping modulators by messages is starting,
    updating and stopping them in the list of running modulators: when the
    engine represents the list, the message leaves an engine that represents
    the list changed accordingly (replaced in place, appended, removed, or
    untouched when the message names no modulator or an unknown type), nothing
    else of the thread changes and nothing is sent. *)
Theorem modulator_messages_refine conn_fd t payload m (c : control) (sess : option (session T)) e a :
  t ∈ [msg_modulator_start; msg_modulator_stop; msg_modulator_update] →
  mod_engine c = Some e → Engine.rep e a → parse_map payload = Some m →
  match dispatch_opcode inet_pton conn_fd t payload c sess, abs_message (ext_registry c) t m a with
  | Some (c', sess', fx), Some a' =>
      sess' = sess ∧ fx = [] ∧ ∃ e', c' = set_engine c e' ∧ Engine.rep e' a'
  | None, None => True
  | _, _ => False
  end.
Proof. apply modulator_dispatch. Qed.

(** ** What messages say

    Notes, datagrams and the items of bundles read from the EDN values, case by
    case, with the defaults and widths of the protocol. *)

Definition int_at (m : list (V * V)) (k : string) (def : Z) : Z :=
  match edn_view <$> find_kw m k with Some (VInt z) => z | _ => def end.
Definition num_at (m : list (V * V)) (k : string) (def : f64) : f64 :=
  match edn_view <$> find_kw m k with Some (VDouble d) => d | Some (VInt z) => f64_of_Z z | _ => def end.
Definition word_at (m : list (V * V)) (k : string) : option string :=
  match edn_view <$> find_kw m k with Some (VKeyword w) => Some w | _ => None end.
Definition text_at (m : list (V * V)) (k : string) : option string :=
  match edn_view <$> find_kw m k with Some (VString s) => Some s | _ => None end.
Definition items_at (m : list (V * V)) (k : string) : option (list V) :=
  match edn_view <$> find_kw m k with Some (VVector l) => Some l | _ => None end.

(** A note: key 60, channel and port 0, no identifier and velocity 0 unless
    given, as 16-bit integers. *)
Definition read_note (on : bool) (m : list (V * V)) : clap_event :=
  let n := Note (Events.Header 0 false) (i16 (int_at m "note-id" (-1))) (i16 (int_at m "port" 0))
             (i16 (int_at m "channel" 0)) (i16 (int_at m "key" 60)) (num_at m "velocity" (S754_zero false)) in
  if on then EvNoteOn n else EvNoteOff n.

Definition read_args (l : list V) : list Osc.arg :=
  concat (map (λ v, match edn_view v with
                    | VInt z => [make_i (i32 z)]
                    | VDouble d => [make_f (f32_of_f64 d)]
                    | VString s => [make_s (bytes_of_string s)]
                    | _ => []
                    end) l).

(** A datagram: the OSC 1.0 message of the address and the arguments, for the
    port modulo 2^16 of a host that resolves; none when address or port is
    missing or the message is longer than 256 bytes. *)
Definition read_datagram (m : list (V * V)) : option osc_event :=
  match text_at m "address", edn_view <$> find_kw m "port" with
  | Some address, Some (VInt port) =>
      let host := default "127.0.0.1"%string (text_at m "host") in
      let msg := osc_message (bytes_of_string address) (read_args (default [] (items_at m "args"))) in
      d ← resolve_osc_endpoint inet_pton (bytes_of_string host) (port mod 2 ^ 16);
      if (length msg <=? 256)%nat then Some (OscEvent d msg) else None
  | _, _ => None
  end.

(** An item of a bundle, [:at-tick] twenty-fourths of a beat after its anchor:
    a datagram when its type is [:osc], a note-off when it is [:note-off], else
    a note-on; nothing when it is no map. *)
Definition read_item (anchor : f64) (item : V) : option scheduled_event :=
  match edn_view item with
  | VMap m =>
      let beat := anchor +d f64_of_Z (int_at m "at-tick" 0) /d lit64 24 1 in
      match word_at m "type" with
      | Some "osc"%string => Scheduled beat ∘ sched_osc <$> read_datagram m
      | Some "note-off"%string => Some (Scheduled beat (sched_clap (read_note false m)))
      | _ => Some (Scheduled beat (sched_clap (read_note true m)))
      end
  | _ => None
  end.

Lemma int_at_spec m k def : int_at m k def = get_i m k def.
Proof. unfold int_at, get_i, as_int. destruct (find_kw m k); simpl; [|done]. by destruct (edn_view v). Qed.
Lemma num_at_spec m k def : num_at m k def = get_dbl m k def.
Proof. unfold num_at, get_dbl, number_d. destruct (find_kw m k); simpl; [|done]. by destruct (edn_view v). Qed.
Lemma word_at_spec m k : word_at m k = find_kw m k ≫= as_keyword.
Proof. unfold word_at, as_keyword. destruct (find_kw m k); simpl; [|done]. by destruct (edn_view v). Qed.
Lemma text_at_spec m k : text_at m k = find_kw m k ≫= as_string.
Proof. unfold text_at, as_string. destruct (find_kw m k); simpl; [|done]. by destruct (edn_view v). Qed.
Lemma items_at_spec m k : items_at m k = find_kw m k ≫= as_vector.
Proof. unfold items_at, as_vector. destruct (find_kw m k); simpl; [|done]. by destruct (edn_view v). Qed.

Lemma i16_at_spec m k def : i16 def = def → i16 (int_at m k def) = get_i16 m k def.
Proof.
  intros Hd. unfold int_at, get_i16, as_int. destruct (find_kw m k); simpl; [|done].
  by destruct (edn_view v).
Qed.

Lemma read_note_spec on m : note_event on m = read_note on m.
Proof.
  unfold note_event, make_note_event, read_note. by rewrite <- !i16_at_spec, num_at_spec.
Qed.

Lemma read_args_spec l : read_args l = omap osc_arg l ∧ Forall known_tag (read_args l).
Proof.
  unfold read_args. induction l as [|v l [IH Hk]]; cbn [map concat omap list_omap]; [by split|].
  unfold osc_arg at 1. rewrite IH in *. unfold known_tag in *.
  destruct (edn_view v); cbn [app]; split; try done; constructor; cbn; auto.
Qed.

Lemma read_datagram_spec m : build_osc_event_from_edn inet_pton m = read_datagram m.
Proof.
  unfold build_osc_event_from_edn, read_datagram. rewrite text_at_spec.
  destruct (find_kw m "address" ≫= as_string) as [address|]; cbn [mbind option_bind]; [|done].
  unfold as_int. destruct (find_kw m "port") as [v|]; cbn [mbind option_bind fmap option_fmap option_map]; [|done].
  destruct (edn_view v) as [| |port| | | | | | |]; try done. cbn [mbind option_bind].
  rewrite text_at_spec, items_at_spec. unfold build_osc_event.
  replace (Z.land port 0xFFFF) with (port mod 2 ^ 16) by (rewrite <- Z.land_ones by lia; done).
  destruct (resolve_osc_endpoint _ _ _) as [d|]; cbn [mbind option_bind]; [|done].
  set (l := default [] (find_kw m "args" ≫= as_vector)).
  replace (match find_kw m "args" ≫= as_vector with Some l => omap osc_arg l | None => [] end)
    with (read_args l) by (unfold l; destruct (find_kw m "args" ≫= as_vector); [apply read_args_spec|done]).
  pose proof (encode_spec osc_event_max_bytes (bytes_of_string address) (read_args l)) as He.
  unfold osc_event_max_bytes in *.
  destruct (Nat.leb_spec (length (osc_message (bytes_of_string address) (read_args l))) 256) as [Hl|Hl].
  - rewrite decide_True in He by (split; [apply read_args_spec|done]). by rewrite He.
  - rewrite decide_False in He by (intros [_ ?]; lia). destruct (encode _ _ _) as [out ok]. cbn [snd] in He. by subst ok.
Qed.

Lemma read_item_spec anchor v : bundle_event inet_pton anchor v = read_item anchor v.
Proof.
  unfold bundle_event, read_item, as_map. destruct (edn_view v) as [| | | | | | |m| |]; try done.
  rewrite int_at_spec, word_at_spec, read_datagram_spec.
  set (beat := _ +d _). unfold read_note. rewrite !int_at_spec, num_at_spec.
  destruct (find_kw m "type" ≫= as_keyword) as [ty|] eqn:Ht; cbn [mbind option_bind].
  - destruct (decide (ty = "osc"%string)) as [->|Ho]; [by destruct (read_datagram m)|].
    destruct (decide (ty = "note-off"%string)) as [->|Hn]; [by rewrite bool_decide_eq_true_2|].
    rewrite bool_decide_eq_false_2 by congruence. cbn [negb make_note_event].
    repeat (case_match; try done).
  - by rewrite bool_decide_eq_false_2.
Qed.

(** ** Bundles *)

Context {O : Type} `{BoundedQueue O osc_event}.
Abbreviation event_scheduler := (Scheduler.event_scheduler SQ O).

(** The staging queue after a burst of pushes that fits. *)
Lemma push_fold_rep (q : SQ) xs new :
  bq_rep q xs → (length xs + length new ≤ @bq_room SQ _ _)%nat →
  bq_rep (foldl (λ q e, (bq_push q e).1) q new) (xs ++ new).
Proof.
  revert q xs. induction new as [|e new IH]; intros q xs Hq Hl; simpl; [by rewrite app_nil_r|].
  simpl in Hl. destruct (bq_push_ok q xs e Hq) as (q' & -> & Hq'); [lia|].
  replace (xs ++ e :: new) with ((xs ++ [e]) ++ new) by by rewrite <- app_assoc.
  apply IH; [done|]. rewrite length_app. simpl. lia.
Qed.

(** C3: a bundle is played.  With the control thread staging into the queue of
    a scheduler that holds the events [w] (with room for the bundle), the
    message stages one event for each of its well-formed items and changes
    nothing else: a note-on, a note-off or a datagram as the item says, at the
    anchor beat plus its ticks over 24 (the anchor is [:at-beat], 0 when that is
    no number; no beat is NaN).  The scheduler's next tick delivers the
    due ones among [w] and the bundle, sorted by beat, earlier arrivals first,
    notes to the graph and datagrams to the sender. *)
Theorem bundle_played conn_fd payload m items (c : control) (sess : option (session T))
  (s : event_scheduler) w t :
  parse_map payload = Some m → is_Some (find_kw m "at-beat") → items_at m "events" = Some items →
  sched_staging c = Some (staging_ s) → sched_rep s w → is_nan t = false →
  let new := omap (read_item (num_at m "at-beat" (S754_zero false))) items in
  Forall timed new → (length w + length new ≤ @bq_room SQ _ _)%nat →
  ∃ q', dispatch_opcode inet_pton conn_fd msg_schedule_bundle payload c sess = Some (set_staging c q', sess, []) ∧
    let fired := stable_sort beat_lt (List.filter (due t) (w ++ new)) in
    let s' := Scheduler q' (pending_ s) (osc_out_ s) in
    (Scheduler.tick s' t).2 = omap clap_of fired ∧
    osc_out_ (Scheduler.tick s' t).1 = option_map (λ q, push_each q (omap osc_of fired)) (osc_out_ s).
Proof.
  intros Hp [beat_v Hb] Hi Hq Hr Ht new Hnew Hroom. dispatch_cases. rewrite Hp, Hq.
  eexists. split; [done|]. unfold on_schedule_bundle. rewrite items_at_spec in Hi. rewrite Hb, Hi.
  assert (omap (bundle_event inet_pton (default (S754_zero false) (number_d beat_v))) items = new) as ->.
  { unfold new. rewrite num_at_spec. unfold get_dbl. rewrite Hb. apply list_omap_ext, Forall_Forall2_diag, Forall_true.
    apply read_item_spec. }
  set (fired := stable_sort _ _). set (s' := Scheduler _ _ _).
  assert (sched_rep s' (w ++ new)) as Hr'.
  { destruct Hr as (old & staged & -> & Hg & Hst & Hs & Hpg). exists old, (staged ++ new).
    rewrite length_app in Hroom. split_and!; try done.
    - by rewrite app_assoc.
    - by apply Forall_app.
    - apply push_fold_rep; [done|lia]. }
  pose proof (tick_rep s' (w ++ new) t Ht Hr') as Hk. destruct Hk as (s2 & -> & _ & Ho). done.
Qed.
End control_spec.

(** ** A concrete thread

    EDN by a table of texts, MIDI that always sends, an evaluator that echoes,
    a log that lists the sources of its entries, and the program's queues. *)

Module Sample.

Definition kw (name : string) (v : tree) : tree * tree := (TKeyword name, v).
Definition start_map : list (tree * tree) := [kw "id" (TKeyword "lfo"); kw "type" (TKeyword "slope")].
Definition bundle_items : list tree :=
  [TMap [kw "at-tick" (TInt 36); kw "key" (TInt 64)];
   TMap [kw "at-tick" (TInt 12); kw "type" (TKeyword "note-off"); kw "channel" (TInt 65539)];
   TMap [kw "at-tick" (TInt 24); kw "type" (TKeyword "osc"); kw "address" (TString "/a"); kw "port" (TInt 9000);
         kw "args" (TVector [TInt 5; TNil])];
   TInt 7].
Definition bundle_map : list (tree * tree) := [kw "at-beat" (TInt 2); kw "events" (TVector bundle_items)].
Definition note_map : list (tree * tree) := [kw "key" (TInt 64); kw "velocity" (TDouble f0)].

Definition texts : list (string * tree) :=
  [("{start}", TMap start_map); ("{bundle}", TMap bundle_map); ("{note}", TMap note_map); ("[]", TVector [])]%string.

#[local] Instance sample_edn : Edn tree := tree_edn texts.
#[local] Instance sample_midi : RtMidi unit := {|
  getPortCount _ := O; getPortName _ _ := ""%string; openPort r _ := Some r;
  openVirtualPort r _ := Some r; isPortOpen _ := true; closePort r := r; sendMessage r _ := Some r |}.
#[local] Instance sample_lua : Lua unit := {| lua_eval l src := (l, src) |}.
#[local] Instance sample_txlog : Txlog tree (list string) := {|
  log_open _ := Some []; log_register id _ _ l := l ++ [id];
  log_emit e l := l ++ [default ""%string (e_source e)] |}.

Lemma param_queue_bits : 1 <= 9 < 64.
Proof. lia. Qed.

(** [param_queue]: 512 slots. *)
Definition param_queue : BoundedQueue (spsc (param_event tree)) (param_event tree) :=
  spsc_queue 9 param_queue_bits.
#[local] Existing Instances coarse_libm param_queue input_event_queue sched_staging_queue osc_out_queue.

Definition thread (staging : option (spsc scheduled_event)) (e : option modulator_engine) :
  Control.control (PQ := spsc (param_event tree)) (IQ := spsc clap_event) (SQ := spsc scheduled_event)
    (R := unit) (L := unit) :=
  Control.Control "set.db" staging e None None None (Some tt) true None
    (spsc_init (ParamEvent TNil TNil time_default) 9) (spsc_init (EvOther (Events.Header 0 false)) 8).

Definition no_inet : list Z → option Z := λ _, None.
Definition no_log : option (session (list string)) := None.

Lemma malformed_ignored_witness :
  let msg := host_message (opcode_code msg_note_on) (bytes_of_string "[]") in
  dispatch_message no_inet 3 msg (thread None None) no_log = Some (thread None None, no_log, []).
Proof.
  intros msg. apply (malformed_ignored no_inet 3 msg (thread None None) no_log).
  - vm_compute. discriminate.
  - vm_compute. discriminate.
  - right. vm_compute. reflexivity.
Defined.

(** A note in pieces, and a session message cut short. *)
Definition note_frame : list Z := frame (opcode_code msg_note_on) (bytes_of_string "{note}").
Definition note_stream : list read_ev :=
  [RdData 0 [0; 0]; RdErr EINTR; RdData 6 (drop 4 note_frame); RdData 0 [0; 0]; RdEof].

Lemma connection_dispatches_witness :
  let ms := [(opcode_code msg_note_on, bytes_of_string "{note}")] in
  handle_connection no_inet 2 3 note_stream (thread None None) =
  dispatch_all no_inet 3 (map (uncurry host_message) ms) (thread None None) no_log.
Proof.
  intros ms. apply (connection_dispatches no_inet 3 ms note_stream [0; 0; 0] (thread None None)).
  - repeat constructor. vm_compute. discriminate.
  - vm_compute. reflexivity.
  - vm_compute. lia.
  - vm_compute. discriminate.
Defined.

Lemma ctrl_frame_like_socket_witness :
  dispatch_ctrl_frame (T := list string) no_inet (take 10 note_frame) (thread None None)
  = Some (thread None None, []).
Proof.
  refine (proj2 (ctrl_frame_like_socket (T := list string) no_inet 3 (opcode_code msg_note_on)
    (bytes_of_string "{note}") [] (thread None None) _) 10%nat _).
  - vm_compute. discriminate.
  - vm_compute. lia.
Defined.

Lemma modulator_messages_refine_witness :
  let c := thread None (Some engine_init) in
  match dispatch_opcode no_inet 3 msg_modulator_start (bytes_of_string "{start}") c no_log,
        abs_message None msg_modulator_start start_map (Abs [] ∅) with
  | Some (c', sess', fx), Some a' =>
      sess' = no_log ∧ fx = [] ∧ ∃ e', c' = set_engine c e' ∧ Engine.rep e' a'
  | None, None => True
  | _, _ => False
  end.
Proof.
  intros c. apply (modulator_messages_refine no_inet 3 msg_modulator_start (bytes_of_string "{start}") start_map
    c no_log engine_init (Abs [] ∅)).
  - by left.
  - reflexivity.
  - apply rep_init.
  - vm_compute. reflexivity.
Defined.

(** A bundle of a note-on at beat 3.5, a note-off at 2.5 and a datagram at 3. *)
Definition loopback : list Z → option Z := λ _, Some 2130706433.
Definition bundle_note (key channel : Z) : clap_event_note :=
  Note (Events.Header 0 false) (-1) 0 channel key (S754_zero false).
Definition bundle_datagram : osc_event :=
  OscEvent (SockAddr (htons 9000) 2130706433) [47; 97; 0; 0; 44; 105; 0; 0; 0; 0; 0; 5].

Lemma bundle_played_witness :
  let s := scheduler_init in let t := f64_of_Z 4 in let c := thread (Some (staging_ s)) None in
  let new := omap (read_item loopback (num_at bundle_map "at-beat" (S754_zero false))) bundle_items in
  new = [Scheduled (lit64 35 10) (sched_clap (EvNoteOn (bundle_note 64 0)));
         Scheduled (lit64 25 10) (sched_clap (EvNoteOff (bundle_note 60 3)));
         Scheduled (lit64 3 1) (sched_osc bundle_datagram)] ∧
  stable_sort beat_lt (List.filter (due t) ([] ++ new)) =
    [Scheduled (lit64 25 10) (sched_clap (EvNoteOff (bundle_note 60 3)));
     Scheduled (lit64 3 1) (sched_osc bundle_datagram);
     Scheduled (lit64 35 10) (sched_clap (EvNoteOn (bundle_note 64 0)))] ∧
  ∃ q', dispatch_opcode loopback 3 msg_schedule_bundle (bytes_of_string "{bundle}") c no_log
        = Some (set_staging c q', no_log, []) ∧
    let fired := stable_sort beat_lt (List.filter (due t) ([] ++ new)) in
    let s' := Scheduler q' (pending_ s) (osc_out_ s) in
    (Scheduler.tick s' t).2 = omap clap_of fired ∧
    osc_out_ (Scheduler.tick s' t).1 = option_map (λ q, push_each q (omap osc_of fired)) (osc_out_ s).
Proof.
  intros s t c new. split; [vm_compute; reflexivity|]. split; [vm_compute; reflexivity|].
  refine (bundle_played loopback 3 (bytes_of_string "{bundle}") bundle_map bundle_items c no_log s []
    t _ _ _ _ _ _ _ _).
  - vm_compute. reflexivity.
  - by eexists.
  - vm_compute. reflexivity.
  - reflexivity.
  - apply scheduler_init_rep.
  - vm_compute. reflexivity.
  - repeat constructor.
  - vm_compute. lia.
Defined.
End Sample.
