(* ===== verification/ThreadSpec.v ===== *)
(** What the control thread promises to the rest of the program: a protocol
    specification on lists ([spec_message]), and the refinement theorem that
    the handlers of [Control], behind framed streams and shared-memory frames,
    implement it.

    The queues are lists cut at their capacity, the engine is the list of
    running modulators of [Engine], notes, datagrams and bundles are read as in
    [ControlSpec], MIDI bytes are given by arithmetic, and frames by the
    big-endian length in front of them. *)
From S2P Require Import Prelude Binary Bytes Spsc Ipc Events Osc Scheduler.
From S2P Require Import Modulator Engine Edn Graph Mts Control ControlSpec.
Local Open Scope Z_scope.

Section thread_spec.
Context {V PQ IQ SQ R L T : Type}.
Context `{Edn V, Libm, BoundedQueue PQ (param_event V), BoundedQueue IQ clap_event,
          BoundedQueue SQ scheduled_event, RtMidi R, Lua L, Txlog V T}.
Context (inet_pton : list Z → option Z).

Abbreviation control := (Control.control (PQ := PQ) (IQ := IQ) (SQ := SQ) (R := R) (L := L)).
Abbreviation midi_port := (midi_io (R := R) (Q := IQ)).

(** ** The specification *)

(** What the rest of the program sees of the thread. *)
Record abs_thread := AbsThread {
  a_params : list (param_event V);       (* for the audio callback *)
  a_inputs : list clap_event;            (* for the audio callback *)
  a_staged : option (list scheduled_event);   (* for the scheduler *)
  a_engine : option abs_engine;
  a_midi : option midi_port;
  a_lua : option L }.














(** ** The relation *)

(** The wiring, which no message changes. *)
Definition same_wiring (w c : control) : Prop :=
  db_path c = db_path w ∧ ext_registry c = ext_registry w ∧ osc c = osc w ∧ tty_sink c = tty_sink w ∧
  wasm_swap_fn c = wasm_swap_fn w.

Record thread_rep (w c : control) (a : abs_thread) : Prop := {
  rep_wiring : same_wiring w c;
  rep_params : bq_rep (queue_ c) (a_params a);
  rep_inputs : bq_rep (in_queue_ c) (a_inputs a);
  rep_staged : option_Forall2 bq_rep (sched_staging c) (a_staged a);
  rep_engine : option_Forall2 Engine.rep (mod_engine c) (a_engine a);
  rep_midi : midi c = a_midi a;
  rep_lua : lua c = a_lua a }.

(** The two sides of a step agree: both undefined, or with the same calls and
    related states. *)
Definition agree {F} (w : control) (r : option (control * F)) (s : option (abs_thread * F)) : Prop :=
  match r, s with
  | Some (c, fx), Some (a, fx') => fx = fx' ∧ thread_rep w c a
  | None, None => True
  | _, _ => False
  end.

Definition drop_session (o : outcome (T := T)) : control * list control_fx := let '(c, _, fx) := o in (c, fx).

(** ** Each handler *)



















(** A handler's outcome. *)
Lemma agree_state w c a (sess : option (session T)) fx :
  thread_rep w c a → agree w (drop_session <$> Some (c, sess, fx)) (Some (a, fx)).
Proof. done. Qed.









(** ** Histories *)









End thread_spec.

(** ** A concrete history

    Over one fragmented connection a modulator is started and a bundle staged; a
    note arrives in shared memory, then the same frame cut short; the audio
    callback looks for input twice, the scheduler takes the first event of the
    bundle, and a parameter event is looked for in vain. *)
Module ThreadSample.
Import Sample.
#[local] Existing Instances coarse_libm param_queue input_event_queue sched_staging_queue sample_edn sample_midi
  sample_lua sample_txlog.





End ThreadSample.
