(* ===== verification/Live.v ===== *)
(** From the socket to the sound: what a client sends, followed through the
    control thread, the queues and the engine.

    Two modulators are equivalent when no history of ticks and updates tells
    them apart; the engine cannot tell equivalent modulators apart, so what is
    proved of a modulator alone ([Graph]) holds of the engine that runs it. *)
From S2P Require Import Prelude Binary Bytes Spsc Ipc Events Scheduler.
From S2P Require Import Modulator Engine Edn Graph Control ControlSpec.
Local Open Scope Z_scope.

(** ** Equivalent modulators *)

Definition same_result {A B} (R : A → A → Prop) (x y : option (A * B)) : Prop :=
  match x, y with
  | Some (a, o), Some (b, o') => R a b ∧ o = o'
  | None, None => True
  | _, _ => False
  end.

Definition same_state {A} (R : A → A → Prop) (x y : option A) : Prop :=
  match x, y with Some a, Some b => R a b | None, None => True | _, _ => False end.

(** A bisimulation of modulators: same outputs, same undefined behaviour. *)
Definition bisimulation (R : any_mod → any_mod → Prop) : Prop :=
  ∀ a b, R a b →
    (∀ lo beat rate, same_result R (any_tick lo beat rate a) (any_tick lo beat rate b)) ∧
    (∀ key v, same_state R (any_update key v a) (any_update key v b)).

#[export] Instance mod_equiv : Equiv any_mod := λ a b, ∃ R, bisimulation R ∧ R a b.

Lemma mod_equiv_bisimulation : bisimulation (≡).
Proof.
  intros a b (R & HR & Hab). destruct (HR a b Hab) as [Ht Hu]. split.
  - intros lo beat rate. specialize (Ht lo beat rate). unfold same_result in *.
    destruct (any_tick lo beat rate a) as [[a' o]|], (any_tick lo beat rate b) as [[b' o']|]; try done.
    destruct Ht as [? ->]. split; [by exists R|done].
  - intros key v. specialize (Hu key v). unfold same_state in *.
    destruct (any_update key v a), (any_update key v b); try done. by exists R.
Qed.

#[export] Instance mod_equiv_equivalence : Equivalence (≡@{any_mod}).
Proof.
  split.
  - intros a. exists eq. split; [|done]. intros x y ->. unfold same_result, same_state.
    split; intros; repeat case_match; auto.
  - intros a b (R & HR & Hab). exists (flip R). split; [|done]. intros x y Hxy. destruct (HR y x Hxy) as [Ht Hu].
    unfold same_result, same_state in *. split.
    + intros lo beat rate. specialize (Ht lo beat rate). repeat case_match; try done. by destruct Ht.
    + intros key v. specialize (Hu key v). repeat case_match; done.
  - intros a b c (R & HR & Hab) (S & HS & Hbc). exists (λ x z, ∃ y, R x y ∧ S y z). split; [|eauto].
    intros x z (y & Hxy & Hyz). destruct (HR x y Hxy) as [Ht Hu], (HS y z Hyz) as [Ht' Hu'].
    unfold same_result, same_state in *. split.
    + intros lo beat rate. specialize (Ht lo beat rate). specialize (Ht' lo beat rate).
      repeat case_match; try done; destruct Ht, Ht'; simplify_eq; eauto.
    + intros key v. specialize (Hu key v). specialize (Hu' key v). repeat case_match; try done; eauto.
Qed.

(** ** Equivalent engines *)

#[export] Instance abs_equiv : Equiv abs_engine := λ a b,
  Forall2 (λ x y, x.1 = y.1 ∧ x.2 ≡ y.2) (running a) (running b) ∧ Engine.outs a = Engine.outs b.

#[export] Instance abs_equiv_reflexive : Reflexive (≡@{abs_engine}).
Proof. intros a. split; [|done]. induction (running a) as [|x l IH]; constructor; [by split|done]. Qed.

Notation same_mods := (Forall2 (λ x y : string * any_mod, x.1 = y.1 ∧ x.2 ≡ y.2)).

Lemma same_mods_ids l1 l2 : same_mods l1 l2 → l1.*1 = l2.*1.
Proof. induction 1 as [|x y l1 l2 [Hi _] _ IH]; [done|]. by rewrite !fmap_cons, Hi, IH. Qed.

Lemma abs_set_equiv id f g l1 l2 :
  same_mods l1 l2 → (∀ m1 m2, m1 ≡ m2 → same_state (≡) (f m1) (g m2)) →
  same_state same_mods (abs_set id f l1) (abs_set id g l2).
Proof.
  intros Hl Hf. induction Hl as [|[i m1] [j m2] l1 l2 [Hi Hm] Hl IH]; cbn [abs_set]; [constructor|].
  cbn [fst snd] in *. subst j. specialize (Hf m1 m2 Hm). unfold same_state in *.
  case_decide.
  - destruct (f m1), (g m2); cbn; try done. by constructor.
  - destruct (abs_set id f l1), (abs_set id g l2); cbn; try done. by constructor.
Qed.

#[export] Instance abs_start_proper id : Proper ((≡) ==> (≡) ==> (≡)) (abs_start id).
Proof.
  intros m1 m2 Hm [l1 o1] [l2 o2] [Hl Ho]. cbn [running Engine.outs] in *. subst o2.
  unfold abs_start. cbn [running Engine.outs]. rewrite (same_mods_ids l1 l2 Hl). split; [|done]. cbn [running].
  case_decide.
  - pose proof (abs_set_equiv id (λ _, Some m1) (λ _, Some m2) l1 l2 Hl (λ _ _ _, Hm)) as Hs.
    by destruct (abs_set id _ l1), (abs_set id _ l2).
  - apply Forall2_app; [done|]. by repeat constructor.
Qed.

#[export] Instance abs_stop_proper id : Proper ((≡) ==> (≡)) (abs_stop id).
Proof.
  intros [l1 o1] [l2 o2] [Hl Ho]. cbn [running Engine.outs] in *. subst o2. split; [|done]. cbn [running abs_stop].
  induction Hl as [|[i m1] [j m2] l1 l2 [Hi Hm] Hl IH]; [constructor|]. cbn [fst snd] in *. subst j.
  rewrite !filter_cons. cbn [fst]. case_decide; [|done]. by constructor.
Qed.

Lemma abs_update_equiv id k v a b : a ≡ b → same_state (≡) (abs_update id k v a) (abs_update id k v b).
Proof.
  destruct a as [l1 o1], b as [l2 o2]. intros [Hl Ho]. cbn [running Engine.outs] in *. subst o2. unfold abs_update.
  pose proof (abs_set_equiv id (any_update k v) (any_update k v) l1 l2 Hl
    (λ m1 m2 Hm, proj2 (mod_equiv_bisimulation m1 m2 Hm) k v)) as Hs.
  cbn [running Engine.outs]. unfold same_state in *. destruct (abs_set id _ l1), (abs_set id _ l2); cbn; try done.
Qed.

Lemma abs_tick_equiv beat rate a b : a ≡ b → same_result (≡) (abs_tick beat rate a) (abs_tick beat rate b).
Proof.
  destruct a as [l1 o1], b as [l2 o2]. intros [Hl Ho]. cbn [running Engine.outs] in *. subst o2. unfold abs_tick.
  cbn [running Engine.outs].
  assert (match abs_tick_from beat rate l1 o1, abs_tick_from beat rate l2 o1 with
          | Some (l1, o1, cb1), Some (l2, o2, cb2) => same_mods l1 l2 ∧ o1 = o2 ∧ cb1 = cb2
          | None, None => True | _, _ => False end) as Ht.
  { revert o1. induction Hl as [|[i m1] [j m2] l1 l2 [Hi Hm] Hl IH]; intros o; cbn [abs_tick_from]; [by split_and!|].
    cbn [fst snd] in *. subst j.
    pose proof (proj1 (mod_equiv_bisimulation m1 m2 Hm) (λ i, o !! i) beat rate) as Hx. unfold same_result in Hx.
    destruct (any_tick _ beat rate m1) as [[m1' x]|], (any_tick _ beat rate m2) as [[m2' x']|]; cbn; try done.
    destruct Hx as [Hx ->]. specialize (IH (<[i := x']> o)).
    destruct (abs_tick_from beat rate l1 _) as [[[? ?] ?]|], (abs_tick_from beat rate l2 _) as [[[? ?] ?]|]; cbn; try done.
    destruct IH as (? & -> & ->). split_and!; [by constructor|done|done]. }
  destruct (abs_tick_from beat rate l1 o1) as [[[? ?] ?]|], (abs_tick_from beat rate l2 o1) as [[[? ?] ?]|]; cbn; try done.
  by destruct Ht as (? & -> & ->).
Qed.

(** The engine cannot tell equivalent modulators apart. *)
Lemma abs_run_equiv ops : ∀ a b, a ≡ b → abs_run a ops = abs_run b ops.
Proof.
  induction ops as [|[id m|id|id k v|b r] ops IH]; intros a1 a2 Ha; cbn [abs_run]; [done|..].
  - by apply IH, abs_start_proper.
  - by apply IH, abs_stop_proper.
  - pose proof (abs_update_equiv id k v a1 a2 Ha) as Hu. unfold same_state in Hu.
    destruct (abs_update id k v a1), (abs_update id k v a2); cbn; try done. by apply IH.
  - pose proof (abs_tick_equiv b r a1 a2 Ha) as Ht. unfold same_result in Ht.
    destruct (abs_tick b r a1) as [[? ?]|], (abs_tick b r a2) as [[? ?]|]; cbn; try done.
    destruct Ht as [Ht ->]. by rewrite (IH _ _ Ht).
Qed.

(** ** A graph sent by a client *)

#[export] Instance expr_modulator `{Libm} : Modulator expr_mod := {
  mtick := expr_tick; mupdate k v m := Some (expr_update k v m) }.

(** The modulator made from a parsed graph is the expression it was written as. *)
Lemma graph_is_expression `{Libm} (x : expr_mod) (g : graph_modulator) :
  Graph.rep x g → AnyMod graph_modulator graph_mod g ≡ AnyMod expr_mod expr_modulator x.
Proof.
  intros Hr. exists (λ a b, ∃ x g, Graph.rep x g ∧ a = AnyMod graph_modulator graph_mod g ∧
    b = AnyMod expr_mod expr_modulator x). split; [|by exists x, g].
  intros a b (y & h & Hh & -> & ->). split.
  - intros lo beat rate. pose proof (graph_tick_rep y h lo beat rate Hh) as Ht.
    unfold any_tick. cbn [mod_type mod_inst mod_state mtick graph_mod expr_modulator].
    destruct (expr_tick lo beat rate y) as [[y' o]|]; [|by rewrite Ht].
    destruct Ht as (h' & -> & Hh'). split; [|done]. by exists y', h'.
  - intros key v. exists (expr_update key v y), (Graph.update key v h). by split; [apply graph_update_rep|].
Qed.

Section live.
Context {V PQ IQ SQ R L T : Type}.
Context `{Edn V, Libm, BoundedQueue PQ (param_event V), BoundedQueue IQ clap_event,
          BoundedQueue SQ scheduled_event, RtMidi R, Lua L, Txlog V T}.
Context (inet_pton : list Z → option Z).

Abbreviation control := (Control.control (PQ := PQ) (IQ := IQ) (SQ := SQ) (R := R) (L := L)).

(** A connection that sends whole frames and closes dispatches them. *)
Lemma connection_of_frames conn_fd ms fd (c : control) :
  Forall (fits ∘ snd) ms → stream_data fd = concat (map (uncurry frame) ms) → stream_end fd = EndEof →
  handle_connection (T := T) inet_pton (S (length ms)) conn_fd fd c =
  dispatch_all inet_pton conn_fd (map (uncurry host_message) ms) c None.
Proof.
  intros Hf Hd He. pose proof (read_all_frames ms fd [] Hf) as Ha.
  rewrite app_nil_r in Ha. specialize (Ha Hd ltac:(unfold header_size; simpl; lia)). rewrite He in Ha.
  by eapply serve_read_all.
Qed.

(** C2: A graph sent by a client plays as it is written.  When the bytes of a
    connection are one message that starts a graph under an identifier, then
    whatever their fragmentation the message changes nothing but the engine, and
    over any later history of starts, stops, updates and ticks the engine's
    callbacks receive what they would if, in the list of running modulators, the
    expressions the graph denotes were evaluated recursively under that
    identifier (in its old place if it was running, last otherwise). *)
Theorem graph_message_plays conn_fd fd p m id graph_v (c : control) e a :
  fits p → stream_data fd = frame (opcode_code msg_modulator_start) p → stream_end fd = EndEof →
  parse_map p = Some m → id_of <$> find_kw m "id" = Some id → id ≠ ""%string →
  find_kw m "type" ≫= as_keyword = Some "graph"%string → find_kw m "graph" = Some graph_v →
  mod_engine c = Some e → Engine.rep e a →
  ∃ e' o, handle_connection (T := T) inet_pton 2 conn_fd fd c = Some (set_engine c e', []) ∧
    ast_graph graph_v = Some o ∧
    ∀ ops, engine_run e' ops =
      abs_run (abs_start id (AnyMod expr_mod expr_modulator (as_expr_mod true (graph_params m) o)) a) ops.
Proof.
  intros Hf Hd He Hp Hid Hne Ht Hg Hce Hr.
  destruct (parsed_graph_rep graph_v (graph_params m) true) as (g & o & Hpg & Ho & Hrep).
  exists (Engine.start id (AnyMod graph_modulator graph_mod (make g true)) e), o. split_and!; [|done|].
  - pose proof (connection_of_frames conn_fd [(opcode_code msg_modulator_start, p)] fd c) as Hc.
    cbn [length] in Hc. rewrite Hc; [|by repeat constructor|cbn [map concat uncurry]; by rewrite app_nil_r|done].
    cbn [map uncurry dispatch_all]. unfold dispatch_message. change (opcode_of _) with (Some msg_modulator_start).
    cbv iota. dispatch_cases. change (Ipc.payload _) with p. rewrite Hce, Hp. unfold on_modulator_start.
    destruct (find_kw m "id") as [id_v|]; [|done]. cbn in Hid. injection Hid as Hid.
    destruct (find_kw m "type") as [type_v|]; [|done]. cbn in Ht. rewrite Ht, Hid.
    rewrite (proj2 (String.eqb_neq id "") Hne). unfold modulator_of. cbn [default from_option].
    cbn -[start_graph]. unfold start_graph, started. rewrite Hg, Hpg. done.
  - intros ops. rewrite (run_refines ops _ _ (rep_start id _ e a Hr)). apply abs_run_equiv.
    apply abs_start_proper; [by apply graph_is_expression|done].
Qed.

(** ** Notes sent by a client *)

(** The event a note or MIDI message puts in the input queue. *)
Definition played (msg : Z * list Z) : option clap_event :=
  m ← parse_map msg.2;
  match opcode_of msg.1 with
  | Some msg_note_on => Some (note_event true m)
  | Some msg_note_off => Some (note_event false m)
  | Some msg_midi_in => midi_in_event m <$> (find_kw m "data" ≫= as_vector)
  | _ => None
  end.

(** Messages that are played at once: no beat is asked for, or there is no
    scheduler. *)
Definition immediate (c : control) (msg : Z * list Z) : Prop :=
  opcode_of msg.1 ∈ [Some msg_note_on; Some msg_note_off; Some msg_midi_in] ∧
  (sched_staging c = None ∨ ∀ m, parse_map msg.2 = Some m → find_kw m "beat" = None).

Definition push_inputs (c : control) (evs : list clap_event) : control :=
  set_in_queue c (push_list (in_queue_ c) evs).

Lemma dispatch_played conn_fd ty p (c : control) (sess : option (session T)) :
  immediate c (ty, p) →
  dispatch_message inet_pton conn_fd (host_message ty p) c sess =
    Some (push_inputs c (option_list (played (ty, p))), sess, []).
Proof.
  intros [Hop Hb]. unfold dispatch_message, played, push_inputs, push_list. cbn [fst snd] in *.
  change (htype (hdr (host_message ty p))) with ty. change (Ipc.payload (host_message ty p)) with p.
  assert (set_in_queue c (in_queue_ c) = c) as Hc by by destruct c.
  assert (∀ is_on m, parse_map p = Some m → on_note is_on m c = set_in_queue c (bq_push (in_queue_ c) (note_event is_on m)).1) as Hn.
  { intros is_on m Hm. unfold on_note. destruct Hb as [->|Hb]; [by destruct (find_kw m "beat")|by rewrite (Hb m Hm)]. }
  rewrite !elem_of_cons in Hop. destruct Hop as [-> |[-> |[-> |Hop]]]; [..|by apply elem_of_nil in Hop]; dispatch_cases;
    (destruct (parse_map p) as [m|]; cbn [mbind option_bind option_list option_rect foldl]; [|by rewrite Hc]).
  - by rewrite (Hn true m).
  - by rewrite (Hn false m).
  - unfold on_midi_in. destruct (find_kw m "data" ≫= as_vector); cbn [fmap option_fmap option_map option_list option_rect foldl];
      [done|by rewrite Hc].
Qed.

Lemma dispatch_all_played conn_fd ms (c : control) (sess : option (session T)) :
  Forall (immediate c) ms →
  dispatch_all inet_pton conn_fd (map (uncurry host_message) ms) c sess = Some (push_inputs c (omap played ms), []).
Proof.
  revert c. induction ms as [|[ty p] ms IH]; intros c Hm.
  - cbn. unfold push_inputs, push_list. by destruct c.
  - apply Forall_cons in Hm as [Hp Hm]. cbn [map uncurry dispatch_all]. rewrite dispatch_played by done.
    cbn [mbind option_bind]. rewrite IH; [|exact Hm]. cbn [mbind option_bind app]. do 2 f_equal.
    unfold push_inputs, push_list. cbn [in_queue_ set_in_queue]. rewrite <- foldl_app. f_equal. f_equal.
    cbn [omap list_omap]. by destruct (played (ty, p)).
Qed.

(** C11: The notes a client plays reach the plugins in order.  Over a connection
    of note and MIDI messages that are to be played at once, whatever the
    fragmentation of its bytes, the input queue receives the event of each
    message, messages that do not parse excepted, as far as it has room; and the
    next block presents the plugins the first 64 of the queued events, oldest
    first, and leaves the rest for the blocks to come. *)
Theorem notes_reach_plugins conn_fd fd ms (c : control) xs :
  Forall (fits ∘ snd) ms → Forall (immediate c) ms →
  stream_data fd = concat (map (uncurry frame) ms) → stream_end fd = EndEof →
  bq_rep (in_queue_ c) xs →
  let queued := take (@bq_room IQ _ _) (xs ++ omap played ms) in
  ∃ q q', handle_connection (T := T) inet_pton (S (length ms)) conn_fd fd c = Some (set_in_queue c q, []) ∧
    bq_rep q queued ∧ drain [] q = (take 64 queued, q') ∧ bq_rep q' (drop 64 queued).
Proof.
  intros Hf Hm Hd He Hq queued. rewrite (connection_of_frames conn_fd ms fd c), dispatch_all_played by done.
  pose proof (bq_push_list (omap played ms) (in_queue_ c) xs Hq) as Hr. fold queued in Hr.
  destruct (drain_from_spec max_input_events [] _ queued Hr) as (q' & Hdr & Hr'); [simpl; lia|].
  eexists _, q'. split; [done|]. split; [exact Hr|]. split; [exact Hdr|exact Hr'].
Qed.
End live.

(** ** A concrete session *)

Module LiveSample.
Import Sample.

(** [[:mul [:param :amt] 2.0]] with [:params {:amt 0.5}], and two notes. *)
Definition graph_v : tree :=
  TVector [TKeyword "mul"; TVector [TKeyword "param"; TKeyword "amt"]; TDouble (lit64 2 1)].
Definition graph_map : list (tree * tree) :=
  [kw "id" (TKeyword "g"); kw "type" (TKeyword "graph"); kw "graph" graph_v;
   kw "params" (TMap [kw "amt" (TDouble (lit64 1 2))])].
Definition on_map : list (tree * tree) := [kw "key" (TInt 64)].
Definition off_map : list (tree * tree) := [kw "key" (TInt 64); kw "channel" (TInt 1)].
Definition live_texts : list (string * tree) :=
  [("{graph}", TMap graph_map); ("{on}", TMap on_map); ("{off}", TMap off_map); ("7", TInt 7)]%string.
#[local] Instance live_edn : Edn tree := tree_edn live_texts.
#[local] Existing Instances coarse_libm param_queue input_event_queue sched_staging_queue sample_midi
  sample_lua sample_txlog.

Definition of_bytes (l : list Z) : list read_ev :=
  match l with b :: bs => [RdData b (take 5 bs); RdErr EINTR] ++ (match drop 5 bs with
                            b :: bs => [RdData b bs; RdEof] | [] => [RdEof] end) | [] => [RdEof] end.

Definition start_bytes : list Z := frame (opcode_code msg_modulator_start) (bytes_of_string "{graph}").

(** The graph doubles its parameter: 1, then 3 after an update to 1.5. *)
Lemma graph_message_plays_witness :
  ∃ e', handle_connection (T := list string) no_inet 2 3 (of_bytes start_bytes) (thread None (Some engine_init))
        = Some (set_engine (thread None (Some engine_init)) e', []) ∧
    map (map (λ '(id, o), (id, cv o))) <$>
      engine_run e' [OpTick f0 (lit32 48 1); OpUpdate "g" "amt" (lit32 3 2); OpTick f1 (lit32 48 1)] =
    Some [[("g"%string, f1)]; [("g"%string, lit32 3 1)]].
Proof.
  destruct (graph_message_plays (T := list string) no_inet 3 (of_bytes start_bytes) (bytes_of_string "{graph}")
    graph_map "g" graph_v (thread None (Some engine_init)) engine_init (Abs [] ∅)) as (e' & o & Hc & Ho & Hrun).
  1: vm_compute; discriminate.
  1-4: vm_compute; reflexivity.
  1: discriminate.
  1-3: reflexivity.
  1: apply rep_init.
  exists e'. split; [exact Hc|]. rewrite Hrun. vm_compute in Ho. injection Ho as <-. vm_compute. reflexivity.
Defined.

Definition note_msgs : list (Z * list Z) :=
  [(opcode_code msg_note_on, bytes_of_string "{on}"); (opcode_code msg_note_on, bytes_of_string "7");
   (opcode_code msg_note_off, bytes_of_string "{off}")].
Definition note_stream : list Z := concat (map (uncurry frame) note_msgs).

Lemma notes_reach_plugins_witness :
  ∃ q q', handle_connection (T := list string) no_inet 4 3 (of_bytes note_stream) (thread None None)
          = Some (set_in_queue (thread None None) q, []) ∧
    drain [] q = ([note_event true on_map; note_event false off_map], q').
Proof.
  destruct (notes_reach_plugins (T := list string) no_inet 3 (of_bytes note_stream) note_msgs (thread None None) [])
    as (q & q' & Hc & _ & Hd & _).
  - repeat constructor; vm_compute; discriminate.
  - repeat constructor; try (left; reflexivity); apply (bool_decide_unpack _); vm_compute; exact I.
  - vm_compute. reflexivity.
  - vm_compute. reflexivity.
  - apply spsc_init_rep. lia.
  - exists q, q'. split; [exact Hc|]. rewrite Hd. reflexivity.
Defined.
End LiveSample.
