(* ===== verification/Outbound.v ===== *)
(** The frames a client receives ([push_frame], [handle_connection] and the
    responses of [dispatch_message] in [src/rt_control_thread.cpp]).

    Any thread may push a frame: [push_frame] holds [write_mutex_] from the test
    of [conn_fd_write_] to the last write of the frame.  The control thread
    writes its responses without the mutex, and takes it to publish and to
    withdraw the descriptor.  A frame goes out in pieces: the header first, then
    the payload, and each [write] may accept any non-empty part of what is left.
    A descriptor on which a write failed stays failed, as for sockets whose
    peer is gone. *)
From S2P Require Import Prelude Sequences Binary Bytes Ipc.
Local Open Scope Z_scope.

(** ** Frames in flight *)

(** The buffers [write_message] hands to [write_exact]. *)
Definition buffers (type : Z) (payload : list Z) : list (list Z) :=
  (bytes_be (Z.of_nat (length payload)) ++ [type; 0; 0; 0]) ::
  match payload with [] => [] | _ => [payload] end.

(** A [write] accepts the bytes [b]. *)
Inductive accepts : list (list Z) → list Z → list (list Z) → Prop :=
| accepts_all b rest : b ≠ [] → accepts (b :: rest) b rest
| accepts_part b b' rest : b ≠ [] → b' ≠ [] → accepts ((b ++ b') :: rest) b (b' :: rest).

(** A call of [write_message]: its frame, and the buffers still to go. *)
Record writing := Writing { wfd : Z; wframe : Z * list Z; todo : list (list Z) }.
Definition begin_write (fd type : Z) (payload : list Z) : writing :=
  Writing fd (type, payload) (buffers type payload).

(** Where the control thread is. *)
Inductive control_pc :=
| Accepting                (* in accept *)
| Connected (fd : Z)       (* before conn_fd_write_ = conn_fd *)
| Serving (fd : Z)         (* in the message loop *)
| Responding (w : writing) (* in a handler's write_message *)
| Leaving (fd : Z)         (* the loop has ended *)
| Closing (fd : Z).        (* conn_fd_write_ = -1, before close *)

(** [pusher] is the thread inside [push_frame] that holds the mutex.  [broken]:
    a write on the current connection has failed.  [sent] is what the client of
    the current connection has received; [complete] the frames written out
    entirely, in order of completion. *)
Record outbound := Out {
  pc : control_pc; conn_fd_write : Z; pusher : option writing; broken : bool;
  sent : list Z; complete : list (Z * list Z) }.

Definition out_init : outbound := Out Accepting (-1) None false [] [].

(** [responds]: whether handlers write responses. *)
Section outbound.
Context (responds : bool).

Inductive step : outbound → outbound → Prop :=
(* the control thread *)
| s_accept fd c u b s l : 0 <= fd →
    step (Out Accepting c u b s l) (Out (Connected fd) c u false [] [])
| s_publish fd c b s l :                                   (* under the mutex *)
    step (Out (Connected fd) c None b s l) (Out (Serving fd) fd None b s l)
| s_respond fd c u b s l t p : responds = true →
    step (Out (Serving fd) c u b s l) (Out (Responding (begin_write fd t p)) c u b s l)
| s_respond_write fd f bs bs' x c u s l : accepts bs x bs' →
    step (Out (Responding (Writing fd f bs)) c u false s l)
         (Out (Responding (Writing fd f bs')) c u false (s ++ x) l)
| s_respond_done fd f c u b s l :
    step (Out (Responding (Writing fd f [])) c u b s l) (Out (Serving fd) c u b s (l ++ [f]))
| s_respond_fail w c u b s l :
    step (Out (Responding w) c u b s l) (Out (Serving (wfd w)) c u true s l)
| s_leave fd c u b s l :
    step (Out (Serving fd) c u b s l) (Out (Leaving fd) c u b s l)
| s_withdraw fd c b s l :                                  (* under the mutex *)
    step (Out (Leaving fd) c None b s l) (Out (Closing fd) (-1) None b s l)
| s_close fd c u b s l :
    step (Out (Closing fd) c u b s l) (Out Accepting c u b s l)
(* a thread in [push_frame] *)
| s_push q c b s l t p : 0 <= c →
    step (Out q c None b s l) (Out q c (Some (begin_write c t p)) b s l)
| s_push_write q fd f bs bs' x c s l : accepts bs x bs' →
    step (Out q c (Some (Writing fd f bs)) false s l)
         (Out q c (Some (Writing fd f bs')) false (s ++ x) l)
| s_push_done q fd f c b s l :
    step (Out q c (Some (Writing fd f [])) b s l) (Out q c None b s (l ++ [f]))
| s_push_fail q w c b s l :
    step (Out q c (Some w) b s l) (Out q c None true s l).
End outbound.

(** The descriptor that is open. *)
Definition open_fd (q : control_pc) : option Z :=
  match q with
  | Accepting => None
  | Connected fd | Serving fd | Leaving fd | Closing fd => Some fd
  | Responding w => Some (wfd w)
  end.

Definition stream (l : list (Z * list Z)) : list Z := concat (map (uncurry frame) l).

(** ** What clients receive *)

Lemma buffers_frame t p : concat (buffers t p) = frame t p.
Proof. unfold buffers, frame. destruct p; simpl; rewrite <- ?app_assoc, ?app_nil_r; done. Qed.

Lemma accepts_concat bs x bs' : accepts bs x bs' → concat bs = x ++ concat bs'.
Proof. destruct 1; simpl; [done|by rewrite <- app_assoc]. Qed.

Lemma stream_snoc l f : stream (l ++ [f]) = stream l ++ uncurry frame f.
Proof. unfold stream. by rewrite map_app, concat_app; simpl; rewrite app_nil_r. Qed.

(** The descriptor published is the one open, and pushes write to it. *)
Definition fd_inv (s : outbound) : Prop :=
  match pc s with
  | Serving fd | Leaving fd => conn_fd_write s = fd
  | Responding w => conn_fd_write s = wfd w
  | _ => conn_fd_write s = -1
  end ∧
  match open_fd (pc s) with Some fd => 0 <= fd | None => True end ∧
  match pusher s with Some w => wfd w = conn_fd_write s ∧ 0 <= wfd w | None => True end.

(** The stream is made of complete frames and the start of one more. *)
Definition stream_inv (s : outbound) : Prop :=
  match pc s with Responding _ => False | _ => True end ∧
  if broken s then
    (∃ f part, sent s = stream (complete s) ++ part ∧ part `prefix_of` uncurry frame f) ∧
    match pusher s with Some w => todo w ≠ [] | None => True end
  else match pusher s with
       | Some w => ∃ part, sent s = stream (complete s) ++ part ∧ uncurry frame (wframe w) = part ++ concat (todo w)
       | None => sent s = stream (complete s)
       end.

Lemma fd_inv_step r s s' : fd_inv s → step r s s' → fd_inv s'.
Proof.
  unfold fd_inv. intros (H1 & H2 & H3) Hs.
  destruct Hs; cbn [pc conn_fd_write pusher open_fd begin_write wfd] in *; split_and!;
    destruct_and?; subst; try done; try (destruct u); destruct_and?; try lia; done.
Qed.

Lemma stream_inv_step s s' : fd_inv s → stream_inv s → step false s s' → stream_inv s'.
Proof.
  unfold fd_inv, stream_inv. intros (H1 & H2 & H3) (Hp & Hs) Hst.
  destruct Hst as [fd c u b s l Hfd|fd c b s l|fd c u b s l t p|fd f bs bs' x c u s l|fd f c u b s l|w c u b s l
    |fd c u b s l|fd c b s l|fd c u b s l|q c b s l t p Hc|q fd f bs bs' x c s l Ha|q fd f c b s l|q w c b s l];
    cbn [pc conn_fd_write pusher broken sent complete begin_write wframe todo] in *; try done; (split; [done|]).
  - destruct u as [w|]; [|done]. lia.
  - destruct b; [by destruct Hs|]. exists []. rewrite app_nil_r. split; [done|].
    change (uncurry frame (t, p)) with (frame t p). by rewrite <- buffers_frame.
  - destruct Hs as (part & -> & Hf). exists (part ++ x).
    by rewrite Hf, (accepts_concat _ _ _ Ha), <- !app_assoc.
  - destruct b; [by destruct Hs|]. destruct Hs as (part & -> & Hf). simpl in Hf.
    rewrite app_nil_r in Hf. by rewrite stream_snoc, Hf.
  - split; [|done]. destruct b; [by destruct Hs|]. destruct Hs as (part & -> & Hf).
    exists (wframe w), part. split; [done|]. rewrite Hf. by apply prefix_app_r.
Qed.

Lemma reach_inv r s : reach (step r) out_init s → fd_inv s ∧ (r = false → stream_inv s).
Proof.
  apply (reach_invariant (step r) (λ s, fd_inv s ∧ (r = false → stream_inv s))).
  - by split.
  - intros a b [Hf Hs] Hst. split; [by eapply fd_inv_step|]. intros ->. eapply stream_inv_step; eauto.
Qed.

(** ** Responses are not serialised with pushes *)

(** A frame is pushed between the header and the payload of a response. *)
Definition mixed : outbound :=
  Out (Serving 3) 3 None false
    ([0; 0; 0; 8; 0x50; 0; 0; 0] ++ frame 0x60 [] ++ [1; 2; 3; 4; 5; 6; 7; 8])
    [(0x60, []); (0x50, [1; 2; 3; 4; 5; 6; 7; 8])].

(** A response and a pushed frame can mix.  The client of this reachable
    state has been sent two complete frames and no write has failed, yet what
    it reads first is a message nobody sent: the header of the response with
    the pushed frame as its payload. *)
Lemma response_mixes_with_push :
  reach (step true) out_init mixed ∧ broken mixed = false ∧ pusher mixed = None ∧
  sent mixed ≠ stream (complete mixed) ∧ sent mixed ≠ stream (reverse (complete mixed)) ∧
  (read_message [RdData 0 (tail (sent mixed))]).1 = RMsg (host_message 0x50 (frame 0x60 [])).
Proof.
  split; [|by vm_compute].
  set (p := [1; 2; 3; 4; 5; 6; 7; 8]). set (h := [0; 0; 0; 8; 0x50; 0; 0; 0]).
  set (f := (0x50, p)). set (g := (0x60, []) : Z * list Z).
  assert (∀ b bs, b ≠ [] → accepts (b :: bs) b bs) as Ha by (by constructor).
  eapply reach_step; [|exact (s_respond_done true 3 f 3 None false (sent mixed) [g])].
  eapply reach_step; [|refine (s_respond_write true 3 f [p] [] p 3 None (h ++ frame 0x60 []) [g] (Ha p [] _)); done].
  eapply reach_step; [|exact (s_push_done true (Responding (Writing 3 f [p])) 3 g 3 false (h ++ frame 0x60 []) [])].
  eapply reach_step;
    [|refine (s_push_write true _ 3 g [frame 0x60 []] [] (frame 0x60 []) 3 h [] (Ha _ [] _)); done].
  eapply reach_step; [|refine (s_push true _ 3 false h [] 0x60 [] _); lia].
  eapply reach_step; [|refine (s_respond_write true 3 f [h; p] [p] h 3 None [] [] (Ha h [p] _)); done].
  eapply reach_step; [|refine (s_respond true 3 3 None false [] [] 0x50 p _); done].
  eapply reach_step; [|exact (s_publish true 3 (-1) false [] [])].
  eapply reach_step; [|refine (s_accept true 3 (-1) None false [] [] _); lia]. apply reach_refl.
Qed.

(** C17: Whatever the threads do, a frame is only ever pushed to the descriptor
    of the client that is connected, and never to one that has been closed.
    And as long as the handlers write no response, frames pushed by different
    threads do not mix: the bytes a client has received are the complete
    frames, in order, followed by a beginning of the frame under way, so that
    once no push is under way and none has failed the client reads exactly the
    messages pushed.  A response, which is written without the mutex, does mix
    with a pushed frame: in a reachable state in which two complete frames were
    sent and nothing failed, the client reads a message nobody sent. *)
Theorem pushed_frames_intact r s :
  reach (step r) out_init s →
  (∀ w, pusher s = Some w → open_fd (pc s) = Some (wfd w) ∧ conn_fd_write s = wfd w) ∧
  (r = false →
    (∃ f part, sent s = stream (complete s) ++ part ∧ part `prefix_of` uncurry frame f) ∧
    ∀ rfd, pusher s = None → broken s = false → Forall (fits ∘ snd) (complete s) → stream_data rfd = sent s →
      read_all (S (length (complete s))) rfd =
      (map (uncurry host_message) (complete s), end_result (stream_end rfd))) ∧
  (reach (step true) out_init mixed ∧ broken mixed = false ∧ pusher mixed = None ∧
   sent mixed ≠ stream (complete mixed) ∧ sent mixed ≠ stream (reverse (complete mixed)) ∧
   (read_message [RdData 0 (tail (sent mixed))]).1 = RMsg (host_message 0x50 (frame 0x60 []))).
Proof.
  intros Hr. apply reach_inv in Hr as [(H1 & H2 & H3) Hs]. split; [|split; [|exact response_mixes_with_push]].
  - intros w Hw. rewrite Hw in H3. destruct H3 as [-> Hc]. split; [|done].
    destruct (pc s); simpl in *; subst; done || lia || congruence.
  - intros Hf. destruct (Hs Hf) as [_ Hst]. split.
    + destruct (broken s); [by destruct Hst|]. destruct (pusher s) as [w|].
      * destruct Hst as (part & -> & Hw). exists (wframe w), part. split; [done|]. rewrite Hw. by apply prefix_app_r.
      * exists (0, []), []. rewrite app_nil_r. split; [done|by eexists].
    + intros rfd Hn Hb Hfit Hd. rewrite Hb, Hn in Hst. apply (read_all_frames _ _ []); [done| |unfold header_size; simpl; lia].
      rewrite app_nil_r. by rewrite Hd, Hst.
Qed.

(** A frame pushed to the client on descriptor 3. *)
Definition pushed_once : outbound :=
  Out (Serving 3) 3 None false (frame 0x60 []) [(0x60, [])].

Lemma pushed_frames_intact_witness :
  reach (step false) out_init pushed_once ∧
  (read_all 2 [RdData 0 (tail (frame 0x60 [])); RdEof]) = ([host_message 0x60 []], RErr eof).
Proof.
  assert (reach (step false) out_init pushed_once) as Hr.
  { assert (∀ b bs, b ≠ [] → accepts (b :: bs) b bs) as Ha by (by constructor).
    eapply reach_step; [|exact (s_push_done false (Serving 3) 3 (0x60, []) 3 false (frame 0x60 []) [])].
    eapply reach_step;
      [|refine (s_push_write false _ 3 (0x60, []) [frame 0x60 []] [] (frame 0x60 []) 3 [] [] (Ha _ [] _)); done].
    eapply reach_step; [|refine (s_push false _ 3 false [] [] 0x60 [] _); lia].
    eapply reach_step; [|exact (s_publish false 3 (-1) false [] [])].
    eapply reach_step; [|refine (s_accept false 3 (-1) None false [] [] _); lia]. apply reach_refl. }
  split; [done|].
  refine (proj2 (proj1 (proj2 (pushed_frames_intact false pushed_once Hr)) eq_refl)
    [RdData 0 (tail (frame 0x60 [])); RdEof] eq_refl eq_refl _ eq_refl).
  repeat constructor. by vm_compute.
Defined.
