(* ===== verification/Shutdown.v ===== *)
(** Starting and stopping the control thread ([start], [stop], [run] and the
    loop of [handle_connection] in [src/rt_control_thread.cpp]).

    One thread calls [stop] while the control thread accepts and serves
    connections, any thread is inside [push_frame], and a client sends, reads,
    or does neither.  Each step is a call or a critical section of
    [write_mutex_].  The state says what the calls can observe: a read returns a
    message that has arrived, or fails once the connection was shut down or
    closed by its peer; a write ends when the client reads, or once the
    connection is gone; [accept] fails once the listening socket was shut
    down.  A handler may write its answer or not, and it may return or not: an
    evaluation runs user code, which may loop, or wait for a mutex its own
    thread holds ([Luajit.Register]). *)
From S2P Require Import Prelude Sequences.

(** Where the control thread is. *)
Inductive run_pc :=
| Check                       (* while (running_) *)
| Accept                      (* in accept *)
| Connected                   (* before conn_fd_write_ = conn_fd *)
| CheckConn                   (* while (running_), in handle_connection *)
| Reading                     (* in read_message *)
| Dispatching (writes returns : bool)
                              (* in dispatch_message: about to write or not, and
                                 with a handler that returns or not *)
| Leaving                     (* before conn_fd_write_ = -1 *)
| Closing                     (* before close(conn_fd) *)
| Finished.

(** Where the caller of [stop] is. *)
Inductive stop_pc := NotCalled | Stopping | Unlinking | Joining | Returned.

Record sys := Sys {
  running_ : bool;
  listening : bool;      (* listen_fd_ accepts *)
  published : bool;      (* conn_fd_write_ >= 0 *)
  pushing : bool;        (* a thread in push_frame holds write_mutex_ *)
  gone : bool;           (* the connection was shut down, or closed by its peer *)
  client_reads : bool;   (* the client takes what is written *)
  inbox : nat;           (* messages that arrived *)
  pc : run_pc; stop_at : stop_pc }.

(** After [start], with a socket to listen on. *)
Definition started : sys := Sys true true false false false true 0 Check NotCalled.

(** The control thread. *)
Inductive control_step : sys → sys → Prop :=
| c_check r l p u g c n st :
    control_step (Sys r l p u g c n Check st) (Sys r l p u g c n (if r then Accept else Finished) st)
| c_accept r p u g c n st :
    control_step (Sys r true p u g c n Accept st) (Sys r true p u false c 0 Connected st)
| c_interrupted r l p u g c n st :                                  (* EINTR *)
    control_step (Sys r l p u g c n Accept st) (Sys r l p u g c n Check st)
| c_accept_fails r p u g c n st :
    control_step (Sys r false p u g c n Accept st) (Sys r false p u g c n Finished st)
| c_accept_error r l p u g c n st :                                 (* any other errno *)
    control_step (Sys r l p u g c n Accept st) (Sys r l p u g c n Finished st)
| c_publish r l p g c n st :
    control_step (Sys r l p false g c n Connected st) (Sys r l true false g c n CheckConn st)
| c_loop r l p u g c n st :
    control_step (Sys r l p u g c n CheckConn st) (Sys r l p u g c n (if r then Reading else Leaving) st)
| c_message r l p u g c n writes returns st :
    control_step (Sys r l p u g c (S n) Reading st) (Sys r l p u g c n (Dispatching writes returns) st)
| c_eof r l p u c n st :
    control_step (Sys r l p u true c n Reading st) (Sys r l p u true c n Leaving st)
| c_handled r l p u g c n writes st : writes = false ∨ g = true ∨ c = true →
    control_step (Sys r l p u g c n (Dispatching writes true) st) (Sys r l p u g c n CheckConn st)
| c_withdraw r l p g c n st :
    control_step (Sys r l p false g c n Leaving st) (Sys r l false false g c n Closing st)
| c_close r l p u g c n st :
    control_step (Sys r l p u g c n Closing st) (Sys r l p u g c n Check st).

(** The caller of [stop]. *)
Inductive stop_step : sys → sys → Prop :=
| s_exchange r l p u g c n q :
    stop_step (Sys r l p u g c n q NotCalled) (Sys false l p u g c n q (if r then Stopping else Returned))
| s_shutdown r l p g c n q :                                        (* under the mutex *)
    stop_step (Sys r l p false g c n q Stopping) (Sys r l p false (g || p) c n q Unlinking)
| s_unlisten r l p u g c n q :
    stop_step (Sys r l p u g c n q Unlinking) (Sys r false p u g c n q Joining)
| s_join r l p u g c n :
    stop_step (Sys r l p u g c n Finished Joining) (Sys r l p u g c n Finished Returned).

(** Threads that push a frame. *)
Inductive push_step : sys → sys → Prop :=
| p_lock r l g c n q st :
    push_step (Sys r l true false g c n q st) (Sys r l true true g c n q st)
| p_done r l p g c n q st : g = true ∨ c = true →
    push_step (Sys r l p true g c n q st) (Sys r l p false g c n q st).

(** The client. *)
Inductive client_step : sys → sys → Prop :=
| e_send r l p u c n q st :
    client_step (Sys r l p u false c n q st) (Sys r l p u false c (S n) q st)
| e_reads r l p u g c c' n q st :
    client_step (Sys r l p u g c n q st) (Sys r l p u g c' n q st)
| e_close r l p u g c n q st :
    client_step (Sys r l p u g c n q st) (Sys r l p u true c n q st).

Inductive step (s s' : sys) : Prop :=
| by_control : control_step s s' → step s s'
| by_stop : stop_step s s' → step s s'
| by_push : push_step s s' → step s s'
| by_client : client_step s s' → step s s'.

(** ** The invariant *)

(** The descriptor is published while a connection is served; a push holds the
    mutex only then.  Once [stop] has shut the connection down, the control
    thread is not left in a read or a handler of a live connection, and once the
    listening socket is gone none is accepted. *)
Record inv (s : sys) : Prop := {
  inv_published : published s =
    match pc s with CheckConn | Reading | Dispatching _ _ | Leaving => true | _ => false end;
  inv_pushing : pushing s = true → published s = true;
  inv_running : running_ s = match stop_at s with NotCalled => true | _ => false end;
  inv_shut : match stop_at s, pc s with
             | (Unlinking | Joining | Returned), (Reading | Dispatching _ _) => gone s = true
             | _, _ => True
             end;
  inv_listening : listening s = match stop_at s with Joining | Returned => false | _ => true end;
  inv_returned : stop_at s = Returned → pc s = Finished }.

Lemma sys_inv_started : inv started.
Proof. by split. Qed.

Lemma sys_inv_step s s' : inv s → step s s' → inv s'.
Proof.
  intros [Hp Hu Hr Hs Hl Hf] Hst. destruct Hst as [Hst|Hst|Hst|Hst]; destruct Hst;
    cbn [running_ listening published pushing gone pc stop_at] in *; try subst p; try subst r; try subst l.
  all: try destruct st; split; cbn [running_ listening published pushing gone pc stop_at]; try done.
  all: try (intros E; by specialize (Hf E)).
  all: by destruct q; auto using orb_true_r.
Qed.

Lemma sys_inv_reach s : reach step started s → inv s.
Proof. apply (reach_invariant step inv); [apply sys_inv_started|apply sys_inv_step]. Qed.

(** ** [stop] ends *)

(** Steps left for the control thread once [running_] is false, and for the
    caller of [stop]. *)
Definition control_left (q : run_pc) : nat :=
  match q with
  | Accept => 7 | Reading => 6 | Connected | Dispatching _ _ => 5 | CheckConn => 4 | Leaving => 3 | Closing => 2
  | Check => 1 | Finished => 0
  end.
Definition stop_left (st : stop_pc) : nat :=
  match st with NotCalled => 4 | Stopping => 3 | Unlinking => 2 | Joining => 1 | Returned => 0 end.
Definition left (s : sys) : nat := control_left (pc s) + stop_left (stop_at s).

Lemma control_decreases s s' : running_ s = false → control_step s s' → (left s' < left s)%nat.
Proof. intros Hr. destruct 1; unfold left; cbn [running_ pc stop_at control_left] in *; subst; simpl; lia. Qed.

Lemma stop_decreases s s' : stop_step s s' → (left s' < left s)%nat.
Proof. destruct 1; try destruct r; unfold left; simpl; lia. Qed.

Lemma others_keep s s' : push_step s s' ∨ client_step s s' → left s' = left s ∧ stop_at s' = stop_at s.
Proof. by intros [[]|[]]. Qed.

(** The handler under way, if there is one, returns. *)
Definition handler_returns (s : sys) : Prop :=
  match pc s with Dispatching _ returns => returns = true | _ => True end.

(** Stopped, nobody inside [push_frame] holding the mutex and no handler that
    does not return: somebody moves, and not into such a handler. *)
Lemma stopping_moves s :
  inv s → stop_at s ≠ NotCalled → stop_at s ≠ Returned → pushing s = false → handler_returns s →
  ∃ s', (control_step s s' ∨ stop_step s s') ∧ handler_returns s'.
Proof.
  intros [Hp Hu Hr Hs Hl Hf] Hn Hd Hm Hh. destruct s as [r l p u g c n q st].
  cbn [running_ listening published pushing gone pc stop_at] in *. subst u.
  destruct st; try done; subst r.
  - eexists. split; [right; constructor|done].
  - eexists. split; [right; constructor|done].
  - subst l. destruct q as [| | | | |w returns| | |]; try (eexists; split; [left; constructor|done]; fail).
    + subst g. eexists. split; [left; apply c_eof|done].
    + subst g. unfold handler_returns in Hh. simpl in Hh. subst returns.
      eexists. split; [left; apply c_handled; auto|done].
    + eexists. split; [right; constructor|done].
Qed.


(** Moves that need nothing of the client. *)
Definition own (s s' : sys) : Prop :=
  control_step s s' ∨ stop_step s s' ∨ (push_step s s' ∧ pushing s' = false).

Lemma moves_keep_idle s s' : control_step s s' ∨ stop_step s s' → pushing s' = pushing s.
Proof. by intros [[]|[]]. Qed.

Lemma moves_keep_called s s' :
  control_step s s' ∨ stop_step s s' → stop_at s ≠ NotCalled → stop_at s' ≠ NotCalled.
Proof. intros [[]|[]]; simpl; try done; by repeat case_match. Qed.

Lemma returns_from s :
  inv s → stop_at s ≠ NotCalled → pushing s = false → handler_returns s →
  ∃ s', reach own s s' ∧ stop_at s' = Returned.
Proof.
  remember (left s) as k eqn:Hk. revert s Hk. induction (lt_wf k) as [k _ IH]. intros s -> Hi Hn Hm Hh.
  assert (stop_at s = Returned ∨ stop_at s ≠ Returned) as [?|Hd] by (destruct (stop_at s); auto).
  { exists s. by split; [apply reach_refl|]. }
  destruct (stopping_moves s Hi Hn Hd Hm Hh) as (s1 & Hs & Hh1).
  assert (left s1 < left s)%nat as Hl.
  { destruct Hs as [Hs|Hs]; [|by apply stop_decreases]. apply control_decreases; [|done].
    rewrite (inv_running s Hi). by destruct (stop_at s). }
  assert (stop_at s1 ≠ NotCalled) as Hn1 by by apply (moves_keep_called s).
  destruct (IH _ Hl s1 eq_refl) as (s2 & Hr & Hd2); [|done|by rewrite (moves_keep_idle s)|done|].
  - apply sys_inv_step with s; [done|]. destruct Hs; by constructor.
  - exists s2. split; [|done]. apply reach_trans with s1; [|done]. apply reach_one. unfold own. tauto.
Qed.

(** A silent client is being served. *)
Lemma silent_served : reach step started (Sys true true true false false false 0 Reading NotCalled).
Proof.
  unfold started.
  eapply reach_trans; [apply reach_one, by_client, e_reads with (c' := false)|].
  eapply reach_trans; [apply reach_one, by_control, c_check|].
  eapply reach_trans; [apply reach_one, by_control, c_accept|].
  eapply reach_trans; [apply reach_one, by_control, c_publish|].
  apply reach_one, by_control, (c_loop true).
Qed.

(** A thread is writing a frame to a client that does not read: it holds
    [write_mutex_], which [stop] takes before it shuts the connection down.  Neither [stop] nor the control thread nor the pushing
    thread can move until the client does something. *)
Lemma stop_can_hang :
  ∃ s, reach step started s ∧ stop_at s = Stopping ∧ running_ s = false ∧
    ∀ s', step s s' → client_step s s'.
Proof.
  exists (Sys false true true true false false 0 Reading Stopping). split_and!; [|done|done|].
  - eapply reach_step; [eapply reach_step; [apply silent_served|]|].
    + apply by_push, p_lock.
    + apply by_stop, (s_exchange true).
  - intros s' [Hs|Hs|Hs|Hs]; [by inversion Hs|by inversion Hs| |done].
    inversion Hs. by destruct_or?.
Qed.

(** The handler of a message does not return: [stop] waits in its [join] in
    every state that can follow. *)
Lemma stop_can_wait_for_handler :
  ∃ s, reach step started s ∧ stop_at s = Joining ∧ pushing s = false ∧
    ∀ s', reach step s s' → stop_at s' = Joining.
Proof.
  exists (Sys false false true false true false 0 (Dispatching false false) Joining). split_and!; [|done|done|].
  - apply reach_trans with (1 := silent_served).
    eapply reach_trans; [apply reach_one, by_client, e_send|].
    eapply reach_trans; [apply reach_one, by_control, (c_message _ _ _ _ _ _ _ false false)|].
    eapply reach_trans; [apply reach_one, by_stop, (s_exchange true)|].
    eapply reach_trans; [apply reach_one, by_stop, s_shutdown|].
    apply reach_one, by_stop, s_unlisten.
  - intros s' Hr. cut (pc s' = Dispatching false false ∧ stop_at s' = Joining); [tauto|].
    revert Hr. apply (reach_invariant step (λ s, pc s = Dispatching false false ∧ stop_at s = Joining)); [done|].
    intros s1 s2 [Hp Hj] [Hs|Hs|Hs|Hs]; destruct Hs; cbn [pc stop_at] in *; simplify_eq; done.
Qed.

(** C14: when [stop] returns.  Whatever the control thread is doing when [stop]
    is called (accepting, about to publish a connection, blocked in a read of a
    silent client, in a handler that writes to it), somebody can move until
    [stop] has returned, and it can return without the client doing anything,
    unless another thread is stuck inside [push_frame] on a client that does not
    read, or the handler under way does not return.  Each move of the control
    thread or of [stop] brings the return closer (eleven moves at most), and the
    pushes and the client cannot put it off.  When it returns the control thread
    is finished, no connection is published and nothing listens.  Both
    exceptions are real: with a push stuck on such a client, [stop], the control
    thread and the push all wait until the client moves; and behind a handler
    that does not return (an evaluation that loops, or that calls
    [osc.register], which waits for the mutex its own thread holds) [stop] waits
    in its join in every state that can follow. *)
Theorem stop_returns s :
  reach step started s → stop_at s ≠ NotCalled →
  (∀ s', control_step s s' ∨ stop_step s s' → (left s' < left s)%nat) ∧ (left s ≤ 11)%nat ∧
  (∀ s', push_step s s' ∨ client_step s s' → left s' = left s) ∧
  (stop_at s = Returned → pc s = Finished ∧ published s = false ∧ listening s = false) ∧
  (stop_at s ≠ Returned → pushing s = false → handler_returns s → ∃ s', control_step s s' ∨ stop_step s s') ∧
  (pushing s = false ∨ gone s = true ∨ client_reads s = true → handler_returns s →
   ∃ s', reach own s s' ∧ stop_at s' = Returned) ∧
  (∃ s0, reach step started s0 ∧ stop_at s0 = Stopping ∧ running_ s0 = false ∧ ∀ s', step s0 s' → client_step s0 s') ∧
  (∃ s0, reach step started s0 ∧ stop_at s0 = Joining ∧ pushing s0 = false ∧
     ∀ s', reach step s0 s' → stop_at s' = Joining).
Proof.
  intros Hi%sys_inv_reach Hn. split_and!; [..|exact stop_can_hang|exact stop_can_wait_for_handler].
  - intros s' [Hs|Hs]; [|by apply stop_decreases]. apply control_decreases; [|done].
    rewrite (inv_running s Hi). by destruct (stop_at s).
  - unfold left. destruct (pc s), (stop_at s); simpl; lia || done.
  - intros s' Hs. by apply others_keep.
  - intros Hd. destruct Hi as [Hp _ _ _ Hl Hf]. specialize (Hf Hd). rewrite Hf in Hp. by rewrite Hd in Hl.
  - intros Hd Hm Hh. destruct (stopping_moves s Hi Hn Hd Hm Hh) as (s' & Hs & _). by exists s'.
  - intros Hm Hh. destruct (pushing s) eqn:Hu; [|by apply returns_from].
    destruct Hm as [?|Hm]; [done|]. destruct s as [r l p u g c n q st]. cbn [pushing gone client_reads stop_at] in *.
    subst u. assert (push_step (Sys r l p true g c n q st) (Sys r l p false g c n q st)) as Hs by by constructor.
    destruct (returns_from (Sys r l p false g c n q st)) as (s2 & Hr & Hd); [|done|done|done|].
    + by eapply sys_inv_step, by_push.
    + exists s2. split; [|done]. eapply reach_trans; [|done]. apply reach_one. right. right. by split.
Qed.

Lemma stop_returns_witness :
  ∃ s', reach own (Sys false true true false false false 0 Reading Stopping) s' ∧ stop_at s' = Returned.
Proof.
  apply (stop_returns (Sys false true true false false false 0 Reading Stopping)).
  - eapply reach_step; [apply silent_served|]. apply by_stop, (s_exchange true).
  - discriminate.
  - by left.
  - exact I.
Defined.
