(* ===== verification/Sockets.v ===== *)
(** The sockets of the control thread and of the bridge: [make_listen_socket],
    [start] and [stop] of [src/rt_control_thread.cpp], seen as the calls they
    make of the system, and [connect_kairos] of [tools/nomos-mcp.cpp].

    What the system answers is an argument.  The part of the world that matters
    is the set of open descriptors and the set of names in the file system;
    [possible] states the two rules of the system that are used: a new socket
    gets a descriptor that is not open, and [bind] fails on a name that exists.
    [unlink] is taken to succeed on a name that exists (it fails, for one, in a
    directory that became read-only, and the name then stays).  Connections that
    [run] accepts open and close descriptors of their own, which are left out.
    The order in which [stop] and the thread's own calls interleave is the
    subject of [Shutdown]; here [start] and [stop] are each one step. *)
From S2P Require Import Prelude Sequences Bytes Spsc Binary Events Osc.
Local Open Scope Z_scope.

(** ** Names *)

Section sockets.
(** [sizeof(sockaddr_un::sun_path)]. *)
Context (sun_path_size : nat).

(** [std::string::c_str] as the system reads it. *)
Definition c_str (path : list Z) : list Z := take (strnlen path) path.

(** [strncpy] into a zeroed address. *)
Definition sun_path (path : list Z) : list Z := take (sun_path_size - 1) (c_str path).

(** ** Calls *)

(** A call, with its answer where the world depends on it. *)
Inductive syscall :=
| SysSocket (fd : Z)
| SysUnlink (path : list Z)
| SysBind (fd : Z) (name : list Z) (ok : bool)
| SysListen (fd : Z)
| SysConnect (fd : Z) (name : list Z)
| SysShutdown (fd : Z)
| SysClose (fd : Z).

Record world := World { fds : gset Z; names : gset (list Z) }.

Definition perform1 (w : world) (c : syscall) : world :=
  match c with
  | SysSocket fd => if 0 <=? fd then World (fds w ∪ {[fd]}) (names w) else w
  | SysUnlink p => World (fds w) (names w ∖ {[p]})
  | SysBind _ n ok => if ok then World (fds w) (names w ∪ {[n]}) else w
  | SysClose fd => World (fds w ∖ {[fd]}) (names w)
  | SysListen _ | SysConnect _ _ | SysShutdown _ => w
  end.
Definition perform (w : world) (cs : list syscall) : world := foldl perform1 w cs.

(** The answers a system can give. *)
Definition possible1 (w : world) (c : syscall) : Prop :=
  match c with
  | SysSocket fd => fd ∉ fds w
  | SysBind _ n ok => ok = true → n ∉ names w
  | _ => True
  end.
(** The descriptors a program may close. *)
Definition proper1 (w : world) (c : syscall) : Prop :=
  match c with SysClose fd => fd ∈ fds w | _ => True end.

Fixpoint along (P : world → syscall → Prop) (w : world) (cs : list syscall) : Prop :=
  match cs with [] => True | c :: cs => P w c ∧ along P (perform1 w c) cs end.
Abbreviation possible := (along possible1).
Abbreviation proper := (along proper1).

(** ** Listening *)

(** What [socket], [bind] and [listen] answer. *)
Record answers := Answers { a_socket : Z; a_bind : bool; a_listen : bool }.

Definition make_listen_socket (path : list Z) (a : answers) : list syscall * Z :=
  let fd := a_socket a in
  if fd <? 0 then ([SysSocket fd], -1)
  else
    let opened := [SysSocket fd; SysUnlink (c_str path); SysBind fd (sun_path path) (a_bind a)] in
    if negb (a_bind a) then (opened ++ [SysClose fd], -1)
    else if negb (a_listen a) then (opened ++ [SysListen fd; SysClose fd], -1)
    else (opened ++ [SysListen fd], fd).

(** What [socket] and [connect] answer. *)
Definition connect_kairos (path : list Z) (fd : Z) (connect_ok : bool) : list syscall * Z :=
  if fd <? 0 then ([SysSocket fd], -1)
  else if connect_ok then ([SysSocket fd; SysConnect fd (sun_path path)], fd)
  else ([SysSocket fd; SysConnect fd (sun_path path); SysClose fd], -1).

Section listener.
Context {L : Type} (path : list Z) (has_luajit wasm_swap_fn : bool) (register_wasm_swap_fn : L → L).

(** [joinable]: [thread_] holds a thread.  [lua_owned_] says whether [cfg_.lua]
    is the participant made by [start]. *)
Record listener := Listener {
  listen_fd_ : Z; running_ : bool; joinable : bool; lua : option L; lua_owned_ : bool }.

(** The constructor. *)
Definition constructed (l : option L) : listener := Listener (-1) false false l false.

(** [loaded] is what [luajit_participant::load] gives.  [None]: a thread is
    assigned over one that was not joined, which ends the program. *)
Definition start (t : listener) (a : answers) (loaded : option L) : option (listener * list syscall) :=
  let '(cs, fd) := make_listen_socket path a in
  if fd <? 0 then Some (Listener fd (running_ t) (joinable t) (lua t) (lua_owned_ t), cs)
  else
    let '(l, owned) := match lua t with
                       | None => if has_luajit then (loaded, bool_decide (is_Some loaded)) else (None, lua_owned_ t)
                       | Some l => (Some l, lua_owned_ t)
                       end in
    let l := if wasm_swap_fn then register_wasm_swap_fn <$> l else l in
    if joinable t then None else Some (Listener fd true true l owned, cs).

(** [conn] is [conn_fd_write_] when [stop] takes the mutex. *)
Definition stop (t : listener) (conn : Z) : listener * list syscall :=
  if running_ t then
    let '(fd, cs) := if 0 <=? listen_fd_ t
                     then (-1, [SysShutdown (listen_fd_ t); SysClose (listen_fd_ t); SysUnlink (c_str path)])
                     else (listen_fd_ t, []) in
    (Listener fd false false (lua t) (lua_owned_ t), (if 0 <=? conn then [SysShutdown conn] else []) ++ cs)
  else (t, []).

(** ** Histories *)

(** [start] on a stopped thread, and [stop]. *)
Inductive life_step : listener * world → listener * world → Prop :=
| l_start t t' w a loaded cs :
    running_ t = false → start t a loaded = Some (t', cs) → possible w cs →
    life_step (t, w) (t', perform w cs)
| l_stop t w conn : life_step (t, w) ((stop t conn).1, perform w (stop t conn).2).

Lemma start_stopped t a loaded :
  joinable t = false → ∃ l owned,
    start t a loaded = Some (if (make_listen_socket path a).2 <? 0 then Listener (make_listen_socket path a).2 (running_ t) false (lua t) (lua_owned_ t)
                             else Listener (make_listen_socket path a).2 true true l owned, (make_listen_socket path a).1).
Proof.
  intros Hj. unfold start. destruct (make_listen_socket path a) as [cs fd]. cbn [fst snd]. rewrite Hj.
  destruct (fd <? 0); [by exists None, false|]. destruct (lua t); [|destruct has_luajit]; eauto.
Qed.

(** What a call of [make_listen_socket] leaves behind. *)
Lemma make_listen_socket_spec a w :
  let '(cs, fd) := make_listen_socket path a in
  possible w cs →
  proper w cs ∧
  (if fd <? 0 then fd = -1 ∧ fds (perform w cs) = fds w
   else fd ∉ fds w ∧ fds (perform w cs) = {[fd]} ∪ fds w ∧ sun_path path ∈ names (perform w cs) ∧
        (sun_path path ≠ c_str path → sun_path path ∉ names w)).
Proof.
  unfold make_listen_socket. destruct (Z.ltb_spec (a_socket a) 0) as [Hn|Hn].
  { cbn -[Z.leb]. rewrite (proj2 (Z.leb_gt _ _)) by lia. done. }
  destruct (a_bind a); cbn [negb]; [destruct (a_listen a)|]; cbn [negb app]; cbn -[Z.leb Z.ltb];
    rewrite !(proj2 (Z.leb_le _ _)) by lia; cbn [fds names];
    rewrite ?(proj2 (Z.ltb_ge _ _)) by lia; intros Hp; destruct_and?.
  - split_and!; try done; try set_solver.
  - split_and!; try done; set_solver.
  - split_and!; try done; set_solver.
Qed.
Lemma along_app P w cs cs' : along P w (cs ++ cs') ↔ along P w cs ∧ along P (perform w cs) cs'.
Proof. revert w. induction cs as [|c cs IH]; intros w; cbn [app along]; [naive_solver|]. rewrite IH. cbn. naive_solver. Qed.

Lemma sun_path_fits : (length (c_str path) < sun_path_size)%nat → sun_path path = c_str path.
Proof. intros. apply take_ge. lia. Qed.

Lemma sun_path_cut : c_str path ≠ [] → (sun_path_size ≤ length (c_str path))%nat → sun_path path ≠ c_str path.
Proof.
  intros Hne Hl E. apply (f_equal length) in E. unfold sun_path in E. rewrite length_take in E.
  destruct (c_str path); [done|]. cbn [length] in *. lia.
Qed.

(** The descriptors [F] belong to others. *)
Definition listener_inv (F : gset Z) (s : listener * world) : Prop :=
  joinable s.1 = running_ s.1 ∧
  if running_ s.1
  then 0 <= listen_fd_ s.1 ∧ listen_fd_ s.1 ∉ F ∧ fds s.2 = {[listen_fd_ s.1]} ∪ F ∧ sun_path path ∈ names s.2
  else listen_fd_ s.1 = -1 ∧ fds s.2 = F.

(** [stop] on a running thread. *)
Lemma stop_running F t w conn : listener_inv F (t, w) → running_ t = true →
  stop t conn = (Listener (-1) false false (lua t) (lua_owned_ t),
    (if 0 <=? conn then [SysShutdown conn] else []) ++
    [SysShutdown (listen_fd_ t); SysClose (listen_fd_ t); SysUnlink (c_str path)]) ∧
  proper w (stop t conn).2 ∧
  perform w (stop t conn).2 = World F (names w ∖ {[c_str path]}).
Proof.
  unfold listener_inv, stop. cbn [fst snd]. intros [_ Hi] Hr. rewrite Hr in Hi |- *. destruct Hi as (H0 & Hn & Hf & _).
  rewrite (proj2 (Z.leb_le _ _)) by done. split; [done|]. cbn [snd].
  destruct (0 <=? conn); cbn [app along perform foldl perform1 proper1 fds names]; (split; [set_solver|]);
    f_equal; rewrite Hf; set_solver.
Qed.

Lemma listener_inv_step F s s' : listener_inv F s → life_step s s' → listener_inv F s'.
Proof.
  intros Hi Hst. destruct Hst as [t t' w a loaded cs Hr Hs Hp|t w conn].
  - destruct Hi as [Hj Hi]. cbn [fst snd] in *. rewrite Hr in *. destruct Hi as [Hl Hf].
    destruct (start_stopped t a loaded Hj) as (l & owned & Hs'). rewrite Hs in Hs'. injection Hs' as -> ->.
    pose proof (make_listen_socket_spec a w) as Hm. destruct (make_listen_socket path a) as [cs fd].
    cbn [fst snd] in *. specialize (Hm Hp) as [_ Hm].
    destruct (Z.ltb_spec fd 0); unfold listener_inv; cbn [fst snd running_ joinable listen_fd_]; [rewrite Hr|]; (split; [done|]).
    + destruct Hm as [-> ->]. by split.
    + destruct Hm as (Hn & -> & Hb & _). rewrite Hf in *. by split_and!.
  - destruct (running_ t) eqn:Hr.
    + destruct (stop_running F t w conn Hi Hr) as (-> & _ & Hw). cbn [fst snd] in *.
      rewrite Hw. by repeat split.
    + unfold stop. rewrite Hr. cbn [fst snd perform foldl]. exact Hi.
Qed.

Lemma listener_inv_reach l F N s :
  reach life_step (constructed l, World F N) s → listener_inv F s.
Proof. apply reach_invariant; [by repeat split|apply listener_inv_step]. Qed.

(** A thread that is stopped while a name longer than the address is in the file
    system never listens again. *)
Lemma long_path_stuck s s' :
  sun_path path ≠ c_str path →
  joinable s.1 = false ∧ running_ s.1 = false ∧ sun_path path ∈ names s.2 → reach life_step s s' → running_ s'.1 = false.
Proof.
  intros Hc H0 Hr.
  enough (joinable s'.1 = false ∧ running_ s'.1 = false ∧ sun_path path ∈ names s'.2) by tauto.
  revert Hr. apply (reach_invariant life_step
    (λ s, joinable s.1 = false ∧ running_ s.1 = false ∧ sun_path path ∈ names s.2)); [done|].
  clear s s' H0. intros s s' (Hj & Hn & Hin) Hst.
  destruct Hst as [t t' w a loaded cs Hr Hs Hp|t w conn]; cbn [fst snd] in *.
  - destruct (start_stopped t a loaded Hj) as (l & owned & Hs'). rewrite Hs in Hs'. injection Hs' as -> ->.
    unfold make_listen_socket in *. destruct (Z.ltb_spec (a_socket a) 0) as [Hlt|Hlt]; cbn -[Z.leb Z.ltb] in *.
    { by rewrite (proj2 (Z.leb_gt _ _)) by lia. }
    destruct (a_bind a); cbn -[Z.leb Z.ltb] in *.
    + destruct (a_listen a); cbn -[Z.leb Z.ltb] in *; rewrite (proj2 (Z.leb_le _ _)) in Hp by done;
        cbn [fds names] in Hp; destruct_and?; set_solver.
    + rewrite (proj2 (Z.leb_le _ _)) by done. cbn. split_and!; [done|done|set_solver].
  - unfold stop. by rewrite Hn.
Qed.

(** C34: The life of the listening socket.  Over any history of starts (on a
    stopped thread, with whatever the system answers) and stops, the descriptors
    the thread holds are the listening socket while it runs and none otherwise:
    nothing leaks on the error paths of [make_listen_socket], and only open
    descriptors are closed.  [start] never ends the program.  When the path fits
    the address, [stop] removes the name that was bound, and a stopped thread
    can start again whatever is left in the file system.  When it does not
    fit, the name is bound cut short while the whole path is unlinked: the name
    stays behind and no later [start] succeeds. *)
Theorem listener_life_cycle l F N t w :
  c_str path ≠ [] → reach life_step (constructed l, World F N) (t, w) →
  joinable t = running_ t ∧
  (if running_ t then listen_fd_ t ∉ F ∧ fds w = {[listen_fd_ t]} ∪ F ∧ sun_path path ∈ names w
   else listen_fd_ t = -1 ∧ fds w = F) ∧
  (∀ conn, proper w (stop t conn).2 ∧ fds (perform w (stop t conn).2) = F) ∧
  (running_ t = false → ∀ a loaded, ∃ t' cs, start t a loaded = Some (t', cs) ∧ (possible w cs → proper w cs)) ∧
  ((length (c_str path) < sun_path_size)%nat →
    (running_ t = true → ∀ conn, sun_path path ∉ names (perform w (stop t conn).2)) ∧
    (running_ t = false → ∀ fd loaded, 0 <= fd → fd ∉ F → ∃ t' cs,
      start t (Answers fd true true) loaded = Some (t', cs) ∧ possible w cs ∧ running_ t' = true)) ∧
  ((sun_path_size ≤ length (c_str path))%nat → running_ t = true → ∀ conn s',
    reach life_step ((stop t conn).1, perform w (stop t conn).2) s' → running_ s'.1 = false).
Proof.
  intros Hne Hr. apply listener_inv_reach in Hr as Hi. pose proof Hi as [Hj Hd]. cbn [fst snd] in *.
  split_and!; [done| | | | |].
  - destruct (running_ t); tauto.
  - intros conn. destruct (running_ t) eqn:Hrun.
    + destruct (stop_running F t w conn Hi Hrun) as (_ & Hp & ->). by split.
    + unfold stop. rewrite Hrun. split; [done|]. apply Hd.
  - intros Hrun a loaded. destruct (start_stopped t a loaded) as (l' & owned & ->); [congruence|].
    eexists _, _. split; [done|]. pose proof (make_listen_socket_spec a w) as Hm.
    destruct (make_listen_socket path a) as [cs fd]. intros Hp. by destruct (Hm Hp).
  - intros Hl. apply sun_path_fits in Hl as E. split.
    + intros Hrun conn. destruct (stop_running F t w conn Hi Hrun) as (_ & _ & ->). cbn [names]. rewrite E. set_solver.
    + intros Hrun fd loaded H0 Hfd. destruct (start_stopped t (Answers fd true true) loaded) as (l' & owned & ->); [congruence|].
      rewrite Hrun in Hd. destruct Hd as [_ Hd].
      eexists _, _. split; [done|]. unfold make_listen_socket. cbn [a_socket a_bind a_listen negb].
      rewrite (proj2 (Z.ltb_ge _ _)) by done. cbn -[Z.leb Z.ltb]. rewrite (proj2 (Z.ltb_ge _ _)), (proj2 (Z.leb_le _ _)) by done.
      cbn [fds names]. rewrite E, Hd. split; [|done]. split_and!; set_solver.
  - intros Hl Hrun conn s'. apply sun_path_cut in Hl; [|done]. apply long_path_stuck; [done|].
    destruct (stop_running F t w conn Hi Hrun) as (-> & _ & ->). cbn [fst snd joinable running_ names].
    rewrite Hrun in Hd. set_solver.
Qed.
End listener.
End sockets.

(** A path of two bytes for an address of four: bound, served, stopped. *)
Lemma listener_life_cycle_witness :
  sun_path 4 [47; 97] ∉
    names (perform (World {[5]} {[[47; 97]]})
             (stop (L := unit) [47; 97] (Listener 5 true true None false) (-1)).2).
Proof.
  refine (proj1 (proj1 (proj2 (proj2 (proj2 (proj2 (listener_life_cycle 4 [47; 97] true true id None ∅ {[[47; 97]]}
    (Listener 5 true true (None (A := unit)) false) (World {[5]} {[[47; 97]]}) _ _))))) _) _ (-1)).
  - discriminate.
  - replace (World {[5]} {[[47; 97]]} : world) with (perform (World ∅ {[[47; 97]]}) (make_listen_socket 4 [47; 97] (Answers 5 true true)).1)
      by (vm_compute; reflexivity).
    apply reach_one, (l_start 4 [47; 97] true true id _ _ _ (Answers 5 true true) None); [done|done|].
    cbn. split_and!; set_solver.
  - cbn. lia.
  - done.
Defined.
