(* ===== verification/Mcp.v ===== *)
(** The MCP bridge ([tools/nomos-mcp.cpp]): JSON-RPC requests on the standard
    input, answered on the standard output, one tool that evaluates an
    expression through the control thread's socket.

    Text is a list of bytes.  A connection to the socket is what its [write] and
    [read] calls will meet, as in [Ipc]; the bridge makes one call where the
    channel of [Ipc] loops.  [None] is a call that never returns, or an integer
    conversion the standard leaves undefined. *)
From S2P Require Import Prelude Bytes Text Ipc.
Local Open Scope Z_scope.

(** Literals: an apostrophe stands for a double quote. *)
Definition lit (s : string) : list Z := map (λ c, if c =? 39 then 34 else c) (bytes_of_string s).
Definition quote (s : list Z) : list Z := 34 :: s ++ [34].

(** ** IPC helpers *)

Definition kMsgReplEval : Z := 0x55.

(** One call of [write]: its result and the bytes that reach the peer. *)
Definition write_once (buf : list Z) (fd : list write_ev) : option (Z * list Z * list write_ev) :=
  match fd with
  | [] => None
  | WrTake n :: fd => let k := Nat.min (S n) (length buf) in Some (Z.of_nat k, take k buf, fd)
  | WrZero :: fd => Some (0, [], fd)
  | WrErr _ :: fd => Some (-1, [], fd)
  end.

Definition ipc_write (fd : list write_ev) (type : Z) (payload : list Z)
  : option (bool * list Z * list write_ev) :=
  let plen := u32 (Z.of_nat (length payload)) in
  let hdr := store_le (bswap32 plen) ++ [type; 0; 0; 0] in
  '(n, out, fd) ← write_once hdr fd;
  if negb (n =? 8) then Some (false, out, fd)
  else
    match payload with
    | [] => Some (true, out, fd)
    | _ =>
        '(written, out', fd) ← write_once payload fd;
        Some (written =? Z.of_nat (length payload), out ++ out', fd)
    end.

(** One call of [read] for at most [n] bytes: the bytes, none at the end of the
    stream, or an error. *)
Definition read_once (n : nat) (fd : list read_ev) : option (option (list Z) * list read_ev) :=
  match fd with
  | [] => None
  | RdData b bs :: fd => Some (Some (take n (b :: bs)), unread (drop n (b :: bs)) fd)
  | RdEof :: _ => Some (Some [], fd)
  | RdErr _ :: fd => Some (None, fd)
  end.

(** The payload loop; empty on a failed read. *)
Fixpoint fill (n : nat) (fd : list read_ev) : option (option (list Z)) :=
  match fd with
  | [] => None
  | RdData b bs :: fd =>
      let l := b :: bs in
      if (n <=? length l)%nat then Some (Some (take n l))
      else r ← fill (n - length l) fd; Some (option_map (app l) r)
  | RdEof :: _ | RdErr _ :: _ => Some None
  end.

(** Also the type of the frame, when a header was read. *)
Definition ipc_read (fd : list read_ev) : option (list Z * option Z) :=
  '(r, fd) ← read_once 8 fd;
  match r with
  | Some [a; b; c; d; type; _; _; _] =>
      let plen := bswap32 (load_le a b c d) in
      if plen =? 0 then Some ([], Some type)
      else result ← fill (Z.to_nat plen) fd; Some (default [] result, Some type)
  | _ => Some ([], None)
  end.

(** ** JSON helpers *)

Definition escape_char (c : Z) : list Z :=
  if c =? 34 then [92; 34]
  else if c =? 92 then [92; 92]
  else if c =? 10 then [92; 110]
  else if c =? 13 then [92; 114]
  else if c =? 9 then [92; 116]
  else [c].

Definition json_escape (s : list Z) : list Z := concat (map escape_char s).

(** The character an escape stands for. *)
Definition unescape_char (c : Z) : Z :=
  if c =? 110 then 10 else if c =? 114 then 13 else if c =? 116 then 9 else c.

(** The characters up to the closing quote. *)
Fixpoint json_chars (esc : bool) (s : list Z) : list Z :=
  match s with
  | [] => []
  | c :: s =>
      if esc then unescape_char c :: json_chars false s
      else if c =? 92 then json_chars true s
      else if c =? 34 then []
      else c :: json_chars false s
  end.

Definition after_key (pat json : list Z) : option (list Z) :=
  (λ pos, drop (pos + length pat) json) <$> find pat json.

Definition json_str (json key : list Z) : list Z :=
  match after_key (quote key) json with
  | None => []
  | Some s =>
      match skip (λ c, (c =? 32) || (c =? 58) || (c =? 9)) s with
      | 34 :: s => json_chars false s
      | _ => []
      end
  end.

(** Trailing spaces. *)
Definition trim_right (s : list Z) : list Z := rev (skip (λ c, c =? 32) (rev s)).

Definition json_id_raw (json : list Z) : list Z :=
  match after_key (lit "'id'") json with
  | None => lit "null"
  | Some s =>
      match skip (λ c, (c =? 32) || (c =? 58)) s with
      | [] => lit "null"
      | 34 :: _ => quote (json_escape (json_str json (lit "id")))
      | s => trim_right (span (λ c, negb ((c =? 44) || (c =? 125))) s)
      end
  end.

(** ** Framing *)

Definition content_length (header_buf : list Z) : option Z :=
  match find (lit "Content-Length:") header_buf with
  | Some pos => atoi (drop (pos + 15) header_buf)
  | None => Some (-1)
  end.

Definition header_complete (header_buf : list Z) : bool :=
  ends_with [13; 10; 13; 10] header_buf || ends_with [10; 10] header_buf.

(** Headers up to a blank line: the length announced and the rest of the input;
    no length when the input ends. *)
Fixpoint read_headers (header_buf stdin : list Z) : option (option Z * list Z) :=
  match stdin with
  | [] => Some (None, [])
  | c :: stdin =>
      let header_buf := header_buf ++ [c] in
      if header_complete header_buf then n ← content_length header_buf; Some (Some n, stdin)
      else read_headers header_buf stdin
  end.

(** An empty body ends the main loop. *)
Definition mcp_read (stdin : list Z) : option (list Z * list Z) :=
  '(n, stdin) ← read_headers [] stdin;
  match n with
  | Some n =>
      if n <=? 0 then Some ([], stdin)
      else if (length stdin <? Z.to_nat n)%nat then Some ([], [])
      else Some (take (Z.to_nat n) stdin, drop (Z.to_nat n) stdin)
  | None => Some ([], stdin)
  end.

Definition crlf : list Z := [13; 10].
Definition mcp_write (body : list Z) : list Z :=
  lit "Content-Length: " ++ to_string (Z.of_nat (length body)) ++ crlf ++ crlf ++ body.

Definition mcp_error (id_raw : list Z) (code : Z) (msg : list Z) : list Z :=
  mcp_write (lit "{'jsonrpc':'2.0','id':" ++ id_raw ++ lit ",'error':{'code':" ++ to_string code ++
             lit ",'message':'" ++ json_escape msg ++ lit "'}}").
Definition mcp_result (id_raw result_json : list Z) : list Z :=
  mcp_write (lit "{'jsonrpc':'2.0','id':" ++ id_raw ++ lit ",'result':" ++ result_json ++ lit "}").

(** ** The tool *)

(** The prefix [#v], [#f] or [#n] names the destination. *)
Definition destination (expr : list Z) : list Z * list Z :=
  let fennel := lit "fennel" in
  match expr with
  | 35 :: c :: _ :: _ =>
      let tail := drop 2 expr in
      if c =? 118 then (lit "vcvrack-tty", tail)
      else if c =? 102 then (fennel, tail)
      else if c =? 110 then (lit "nous", tail)
      else (fennel, expr)
  | _ => (fennel, expr)
  end.

Definition eval_payload (dest expr : list Z) : list Z :=
  lit "{:dest :" ++ dest ++ lit " :payload '" ++ json_escape expr ++ lit "'" ++ lit " :id 'mcp'}".

Definition text_content (resp : list Z) : list Z :=
  lit "{'content':[{'type':'text','text':'" ++ json_escape resp ++ lit "'}]}".

(** A connection, when [connect] succeeds.  The answer and the bytes sent. *)
Definition handle_evaluate (id_raw expression : list Z) (conn : option (list write_ev * list read_ev))
  : option (list Z * list Z) :=
  let '(dest, expr) := destination expression in
  let expr := skip (λ c, (c =? 32) || (c =? 9)) expr in
  match conn with
  | None => Some (mcp_error id_raw (-32603) (lit "cannot connect to kairos socket"), [])
  | Some (wfd, rfd) =>
      '(ok, sent, _) ← ipc_write wfd kMsgReplEval (eval_payload dest expr);
      if ok : bool then
        '(resp, _) ← ipc_read rfd;
        match resp with
        | [] => Some (mcp_error id_raw (-32603) (lit "no response from kairos"), sent)
        | _ => Some (mcp_result id_raw (text_content resp), sent)
        end
      else Some (mcp_error id_raw (-32603) (lit "failed to send eval to kairos"), sent)
  end.

Definition k_tool_schema : list Z := lit "{
  'name': 'evaluate',
  'description': 'Evaluate an expression in the nomos-rt runtime via kairos IPC. Prefix: #v → VCVRack TTY, #f → Fennel (default), #n → nous.',
  'inputSchema': {
    'type': 'object',
    'properties': {
      'expression': {
        'type': 'string',
        'description': 'Expression to evaluate. Optional prefix: #v (VCVRack TTY), #f (Fennel), #n (nous).'
      }
    },
    'required': ['expression']
  }
}".

Definition handle_initialize (id_raw : list Z) : list Z :=
  mcp_result id_raw (lit "{'protocolVersion':'2024-11-05','capabilities':{'tools':{}},'serverInfo':{'name':'nomos-mcp','version':'0.1.0'}}").
Definition handle_tools_list (id_raw : list Z) : list Z :=
  mcp_result id_raw (lit "{'tools':[" ++ k_tool_schema ++ lit "]}").

(** ** Main loop *)

Definition conns : Type := list (option (list write_ev * list read_ev)).

(** One request: what is written to the standard output and to the socket. *)
Record output := Output { stdout : list Z; sent : list Z }.

(** The connections the coming evaluations get; none once the list is used up. *)
Definition handle (body : list Z) (cs : conns) : option (output * conns) :=
  let id_raw := json_id_raw body in
  let method := json_str body (lit "method") in
  let say o := Some (Output o [], cs) in
  if bool_decide (method = lit "initialize") then say (handle_initialize id_raw)
  else if bool_decide (method = lit "notifications/initialized") then say []
  else if bool_decide (method = lit "tools/list") then say (handle_tools_list id_raw)
  else if bool_decide (method = lit "tools/call") then
    if bool_decide (json_str body (lit "name") = lit "evaluate") then
      match json_str body (lit "expression") with
      | [] => say (mcp_error id_raw (-32602) (lit "missing required argument: expression"))
      | expr =>
          '(out, sent) ← handle_evaluate id_raw expr (default None (head cs));
          Some (Output out sent, tail cs)
      end
    else say (mcp_error id_raw (-32601) (lit "unknown tool"))
  else if bool_decide (id_raw = lit "null") then say []
  else say (mcp_error id_raw (-32601) (lit "method not found")).

(** How [main] ends. *)
Inductive result := Exit (out : list output) | Stuck | OutOfFuel.

Definition prepend (o : output) (r : result) : result :=
  match r with Exit os => Exit (o :: os) | r => r end.

Fixpoint main_loop (fuel : nat) (stdin : list Z) (cs : conns) : result :=
  match fuel with
  | O => OutOfFuel
  | S fuel =>
      match mcp_read stdin with
      | None => Stuck
      | Some ([], _) => Exit []
      | Some (body, stdin) =>
          match handle body cs with
          | None => Stuck
          | Some (o, cs) => prepend o (main_loop fuel stdin cs)
          end
      end
  end.

(** Every request consumes input, so its length bounds the turns. *)
Definition main (stdin : list Z) (cs : conns) : result := main_loop (S (length stdin)) stdin cs.

(** The last [--socket] followed by a value wins. *)
Fixpoint socket_path (args : list (list Z)) (path : list Z) : list Z :=
  match args with
  | a :: ((value :: _) as rest) =>
      socket_path rest (if bool_decide (a = lit "--socket") then value else path)
  | _ => path
  end.

(** ** Framing is read back *)

Lemma ends_with_snoc pat s c : ends_with (pat ++ [c]) (s ++ [c]) = ends_with pat s.
Proof. unfold ends_with. rewrite !rev_app_distr. simpl. by rewrite Z.eqb_refl. Qed.

Lemma header_incomplete s c : c ≠ 10 → header_complete (s ++ [c]) = false.
Proof.
  intros Hc. unfold header_complete, ends_with. rewrite !rev_app_distr. cbn [rev app starts_with].
  by rewrite (proj2 (Z.eqb_neq 10 c)) by done.
Qed.

Lemma read_line l : ∀ acc stdin,
  Forall (λ c, c ≠ 10) l → read_headers acc (l ++ stdin) = read_headers (acc ++ l) stdin.
Proof.
  induction l as [|c l IH]; intros acc stdin Hl; [by rewrite app_nil_r|].
  apply Forall_cons in Hl as [Hc Hl]. cbn [app read_headers]. rewrite header_incomplete by done.
  rewrite IH by done. by rewrite <- app_assoc.
Qed.

(** A line feed after a line without one does not end the headers. *)
Lemma first_line s : Forall (λ c, c ≠ 10) s → header_complete (s ++ [13; 10]) = false.
Proof.
  intros Hs. unfold header_complete, ends_with. rewrite !rev_app_distr. cbn [rev app starts_with].
  destruct (rev s) as [|x r] eqn:E; [done|]. cbn [starts_with].
  assert (x ≠ 10) as Hx.
  { rewrite Forall_forall in Hs. apply Hs. apply list_elem_of_In, in_rev. rewrite E. by left. }
  by rewrite (proj2 (Z.eqb_neq 10 x)) by done.
Qed.

Lemma all_digits_no_lf s : all_digits s → Forall (λ c, c ≠ 10) s.
Proof. intros Hs. eapply Forall_impl; [exact Hs|]. by intros c Hc ->. Qed.

Lemma read_frame_headers n stdin : 0 <= n < 2 ^ 31 →
  read_headers [] (lit "Content-Length: " ++ to_string n ++ crlf ++ crlf ++ stdin) = Some (Some n, stdin).
Proof.
  intros Hn. destruct (to_string_digits n ltac:(lia)) as [Hd _].
  set (line := lit "Content-Length: " ++ to_string n).
  assert (Forall (λ c, c ≠ 10) line) as Hl.
  { apply Forall_app. split; [|by apply all_digits_no_lf]. vm_compute. repeat constructor; done. }
  rewrite app_assoc. fold line. unfold crlf. cbn [app].
  change (13 :: 10 :: 13 :: 10 :: stdin) with ([13] ++ 10 :: 13 :: 10 :: stdin).
  rewrite app_assoc, read_line by (apply Forall_app; split; [done|by repeat constructor]).
  cbn [app read_headers]. rewrite <- !app_assoc. cbn [app]. rewrite first_line by done.
  change (line ++ [13; 10; 13]) with (line ++ [13; 10] ++ [13]). rewrite app_assoc.
  rewrite header_incomplete by done.
  assert (header_complete (line ++ [13; 10; 13; 10]) = true) as ->.
  { unfold header_complete, ends_with. by rewrite !rev_app_distr. }
  unfold content_length, line. rewrite <- app_assoc.
  change (lit "Content-Length: ") with (lit "Content-Length:" ++ [32]).
  rewrite <- app_assoc, find_here. cbn [Nat.add].
  rewrite (drop_app_length' _ _ 15) by done.
  change (atoi ([32] ++ ?s)) with (atoi s). by rewrite atoi_to_string.
Qed.

Lemma mcp_read_write body stdin : body ≠ [] → Z.of_nat (length body) < 2 ^ 31 →
  mcp_read (mcp_write body ++ stdin) = Some (body, stdin).
Proof.
  intros Hb Hl. unfold mcp_read, mcp_write. rewrite <- !app_assoc, read_frame_headers by lia. cbn [mbind option_bind].
  assert (0 < Z.of_nat (length body)) as Hp by (destruct body; [done|simpl; lia]).
  rewrite (proj2 (Z.leb_gt _ _)) by lia. rewrite Nat2Z.id.
  rewrite (proj2 (Nat.ltb_ge _ _)) by (rewrite length_app; lia). by rewrite take_app_length, drop_app_length.
Qed.

(** Reading consumes input. *)
Lemma read_headers_length acc stdin n rest :
  read_headers acc stdin = Some (Some n, rest) → (length rest < length stdin)%nat.
Proof.
  revert acc. induction stdin as [|c stdin IH]; intros acc H; cbn [read_headers] in H; [done|].
  destruct (header_complete _).
  - apply bind_Some in H as (? & _ & [= _ <-]). simpl. lia.
  - apply IH in H. simpl. lia.
Qed.

Lemma mcp_read_length stdin body rest :
  mcp_read stdin = Some (body, rest) → body ≠ [] → (length rest < length stdin)%nat.
Proof.
  intros H Hb. unfold mcp_read in H. apply bind_Some in H as ([[n|] rest'] & Hh & H); [|by simplify_eq].
  apply read_headers_length in Hh. case_match; [by simplify_eq|]. case_match; [by simplify_eq|].
  simplify_eq. rewrite length_drop. lia.
Qed.

(** More fuel changes nothing. *)
Lemma main_loop_fuel fuel fuel' stdin cs :
  (length stdin < fuel)%nat → (length stdin < fuel')%nat → main_loop fuel stdin cs = main_loop fuel' stdin cs.
Proof.
  revert fuel' stdin cs. induction fuel as [|fuel IH]; intros [|fuel'] stdin cs H H'; [lia..|].
  cbn [main_loop]. destruct (mcp_read stdin) as [[[|b body] rest]|] eqn:E; [done| |done].
  apply mcp_read_length in E; [|done]. destruct (handle _ cs) as [[o cs']|]; [|done].
  f_equal. apply IH; lia.
Qed.

Lemma main_loop_halts fuel stdin cs : (length stdin < fuel)%nat → main_loop fuel stdin cs ≠ OutOfFuel.
Proof.
  revert stdin cs. induction fuel as [|fuel IH]; intros stdin cs H; [lia|].
  cbn [main_loop]. destruct (mcp_read stdin) as [[[|b body] rest]|] eqn:E; [done| |done].
  apply mcp_read_length in E; [|done]. destruct (handle _ cs) as [[o cs']|]; [|done].
  specialize (IH rest cs' ltac:(lia)). by destruct (main_loop fuel rest cs').
Qed.

(** The requests handled one after the other. *)
Fixpoint handle_all (bodies : list (list Z)) (cs : conns) : result :=
  match bodies with
  | [] => Exit []
  | body :: bodies =>
      match handle body cs with Some (o, cs) => prepend o (handle_all bodies cs) | None => Stuck end
  end.

(** C22: The bridge always comes to an end of its input or to a call that never
    returns, whatever it is fed; and when it is fed the frames of any requests,
    framed as the bridge frames its own answers, it handles exactly these
    requests, in order, then exits. *)
Theorem bridge_serves bodies cs stdin :
  main stdin cs ≠ OutOfFuel ∧
  (Forall (λ b, b ≠ [] ∧ Z.of_nat (length b) < 2 ^ 31) bodies → stdin = concat (map mcp_write bodies) →
   main stdin cs = handle_all bodies cs).
Proof.
  split; [apply main_loop_halts; lia|]. intros Hb ->. unfold main. revert cs.
  induction Hb as [|body bodies [Hne Hl] _ IH]; intros cs; [done|].
  cbn [map concat main_loop handle_all]. rewrite mcp_read_write by done. destruct body as [|b body]; [done|].
  destruct (handle _ cs) as [[o cs']|]; [|done]. f_equal. rewrite <- IH. apply main_loop_fuel; [|lia].
  rewrite length_app. unfold mcp_write. rewrite !length_app. simpl. lia.
Qed.

(** ** JSON strings are read back *)

Lemma chars_escape c s : json_chars false (escape_char c ++ s) = c :: json_chars false s.
Proof.
  unfold escape_char. destruct (Z.eqb_spec c 34) as [->|?]; [done|]. destruct (Z.eqb_spec c 92) as [->|?]; [done|].
  destruct (Z.eqb_spec c 10) as [->|?]; [done|]. destruct (Z.eqb_spec c 13) as [->|?]; [done|].
  destruct (Z.eqb_spec c 9) as [->|?]; [done|]. cbn [app json_chars].
  by rewrite (proj2 (Z.eqb_neq c 92)), (proj2 (Z.eqb_neq c 34)) by done.
Qed.

Lemma chars_json_escape v rest : json_chars false (json_escape v ++ 34 :: rest) = v.
Proof.
  unfold json_escape. induction v as [|c v IH]; [done|]. cbn [map concat].
  by rewrite <- app_assoc, chars_escape, IH.
Qed.

(** A field of an object: the key not found before it. *)
Lemma json_str_read pre key v rest :
  find (quote key) (pre ++ quote key ++ 58 :: quote (json_escape v) ++ rest) = Some (length pre) →
  json_str (pre ++ quote key ++ 58 :: quote (json_escape v) ++ rest) key = v.
Proof.
  intros Hf. unfold json_str, after_key. rewrite Hf. cbn [fmap option_fmap option_map].
  rewrite drop_app_add, drop_app_length. unfold quote at 1. cbn [app skip].
  change ((58 =? 32) || (58 =? 58) || (58 =? 9)) with true.
  change ((34 =? 32) || (34 =? 58) || (34 =? 9)) with false. cbv iota.
  rewrite <- app_assoc. apply chars_json_escape.
Qed.

(** A call of the tool, as a JSON library writes it. *)
Definition evaluate_request (id : Z) (expression : list Z) : list Z :=
  lit "{'jsonrpc':'2.0','id':" ++ to_string id ++
  lit ",'method':'tools/call','params':{'name':'evaluate','arguments':{'expression':" ++
  quote (json_escape expression) ++ lit "}}}".

(** No quote occurs in the digits, so a key is not found there. *)
Lemma find_after_digits pat l s : all_digits l →
  find (34 :: pat) (l ++ s) = (λ n, (length l + n)%nat) <$> find (34 :: pat) s.
Proof.
  intros Hl. apply find_skip. intros i Hi. destruct (drop i l) as [|c r] eqn:E.
  { apply (f_equal length) in E. rewrite length_drop in E. simpl in E. lia. }
  cbn [app starts_with]. assert (is_digit c = true) as Hc.
  { unfold all_digits in Hl. rewrite Forall_forall in Hl. apply Hl. apply (list_elem_of_lookup_2 _ i).
    rewrite <- (take_drop i l). rewrite lookup_app_r by (rewrite length_take; lia).
    rewrite length_take. replace (i - i `min` length l)%nat with O by lia. by rewrite E. }
  by destruct (Z.eqb_spec 34 c) as [<-|?].
Qed.

(** A mismatch already visible in the beginning [l] of a text. *)
Fixpoint mismatch (pat l : list Z) : bool :=
  match pat, l with a :: pat, b :: l => negb (a =? b) || mismatch pat l | _, _ => false end.

Lemma mismatch_starts pat l s : mismatch pat l = true → starts_with pat (l ++ s) = false.
Proof.
  revert l. induction pat as [|a pat IH]; intros [|b l] Hm; try done. cbn [mismatch app starts_with] in *.
  destruct (a =? b); simpl in *; [by apply IH|done].
Qed.

(** A text in which the pattern does not start. *)
Definition no_start (pat pre : list Z) : bool :=
  forallb (λ i, mismatch pat (drop i pre)) (seq 0 (length pre)).

Lemma find_past pat pre s : no_start pat pre = true →
  find pat (pre ++ s) = (λ n, (length pre + n)%nat) <$> find pat s.
Proof.
  intros Hn. apply find_skip. intros i Hi. apply mismatch_starts.
  unfold no_start in Hn. rewrite forallb_forall in Hn. apply Hn. apply in_seq. lia.
Qed.

(** A field behind two literals with a number in between. *)
Lemma field_read key n p1 p2 v rest : 0 <= n →
  no_start (quote key) p1 = true → no_start (quote key) p2 = true →
  json_str (p1 ++ to_string n ++ p2 ++ quote key ++ 58 :: quote (json_escape v) ++ rest) key = v.
Proof.
  intros Hn H1 H2. destruct (to_string_digits n Hn) as [Hd _].
  set (pre := p1 ++ to_string n ++ p2).
  replace (p1 ++ to_string n ++ p2 ++ quote key ++ _) with (pre ++ quote key ++ 58 :: quote (json_escape v) ++ rest)
    by (unfold pre; by rewrite <- !app_assoc).
  apply json_str_read. unfold pre. rewrite <- !app_assoc, find_past by done.
  change (quote key) with (34 :: (key ++ [34])) at 1. rewrite find_after_digits by done.
  change (34 :: (key ++ [34])) with (quote key). rewrite find_past by done. rewrite find_here.
  cbn [fmap option_fmap option_map]. f_equal. rewrite !length_app. lia.
Qed.

Lemma skip_first p c s : p c = false → skip p (c :: s) = c :: s.
Proof. simpl. by intros ->. Qed.

Lemma trim_right_digits s : all_digits s → trim_right s = s.
Proof.
  intros Hs. unfold trim_right. destruct (rev s) as [|c r] eqn:E; [by rewrite <- (rev_involutive s), E|].
  assert (is_digit c = true) as Hc.
  { unfold all_digits in Hs. rewrite Forall_forall in Hs. apply Hs. apply list_elem_of_In, in_rev. rewrite E. by left. }
  rewrite skip_first, <- E, rev_involutive; [done|]. by destruct (Z.eqb_spec c 32) as [->|?].
Qed.

Lemma id_read id rest : 0 <= id →
  json_id_raw (lit "{'jsonrpc':'2.0','id':" ++ to_string id ++ 44 :: rest) = to_string id.
Proof.
  intros Hid. destruct (to_string_digits id Hid) as (Hd & c & s & Hs & Hc). unfold json_id_raw, after_key.
  change (lit "{'jsonrpc':'2.0','id':") with (lit "{'jsonrpc':'2.0'," ++ lit "'id'" ++ [58]).
  rewrite <- !app_assoc, find_past by done. rewrite find_here. cbn [fmap option_fmap option_map].
  rewrite Nat.add_0_r, drop_app_add, drop_app_length. cbn [app skip].
  change ((58 =? 32) || (58 =? 58)) with true. cbv iota. rewrite Hs in *. cbn [app].
  assert (c ≠ 34 ∧ (c =? 32) || (c =? 58) = false) as [Hq Hk].
  { unfold is_digit in Hc. bool_to_prop. rewrite (proj2 (Z.eqb_neq c 32)), (proj2 (Z.eqb_neq c 58)) by lia. split; [lia|done]. }
  rewrite skip_first by done.
  transitivity (trim_right (span (λ c, negb ((c =? 44) || (c =? 125))) ((c :: s) ++ 44 :: rest))).
  { destruct c as [|p|p]; [done| |done]. do 6 (destruct p as [p|p|]; try done). }
  rewrite span_app; [by apply trim_right_digits| |done].
  eapply Forall_impl; [exact Hd|]. intros x Hx. unfold is_digit in Hx. bool_to_prop.
  by rewrite (proj2 (Z.eqb_neq x 44)), (proj2 (Z.eqb_neq x 125)) by lia.
Qed.

(** A call of the tool is understood, whatever the expression is made of
    (quotes, backslashes, line feeds, JSON text, key names) and whatever the
    identifier's number: the text scanner extracts exactly the identifier, the
    method, the tool and the expression that were serialised. *)
Lemma request_understood id expression :
  0 <= id →
  let req := evaluate_request id expression in
  json_id_raw req = to_string id ∧ json_str req (lit "method") = lit "tools/call" ∧
  json_str req (lit "name") = lit "evaluate" ∧ json_str req (lit "expression") = expression.
Proof.
  intros Hid req. unfold req, evaluate_request. split_and!.
  - exact (id_read id _ Hid).
  - exact (field_read (lit "method") id (lit "{'jsonrpc':'2.0','id':") (lit ",") (lit "tools/call")
      (lit ",'params':{'name':'evaluate','arguments':{'expression':" ++ quote (json_escape expression) ++ lit "}}}")
      Hid eq_refl eq_refl).
  - exact (field_read (lit "name") id (lit "{'jsonrpc':'2.0','id':") (lit ",'method':'tools/call','params':{")
      (lit "evaluate") (lit ",'arguments':{'expression':" ++ quote (json_escape expression) ++ lit "}}}")
      Hid eq_refl eq_refl).
  - exact (field_read (lit "expression") id (lit "{'jsonrpc':'2.0','id':")
      (lit ",'method':'tools/call','params':{'name':'evaluate','arguments':{") expression (lit "}}}")
      Hid eq_refl eq_refl).
Qed.

(** Keys are searched for in values too: behind an expression that ends in a
    quote and [id], the identifier is lost. *)
Example key_in_value_misread :
  json_id_raw (lit "{'method':'tools/call','params':{'arguments':{'expression':" ++
    quote (json_escape (lit "x 'id")) ++ lit "}},'id':7}") = [].
Proof. reflexivity. Qed.

(** ** The bridge and the channel *)

Lemma write_once_all buf fd n out fd' :
  write_once buf fd = Some (n, out, fd') → n = Z.of_nat (length buf) → buf ≠ [] → out = buf.
Proof.
  intros Hw Hn Hb. assert (length buf ≠ O) by (by destruct buf). unfold write_once in Hw.
  destruct fd as [|[k| |e] fd]; [done| | |]; injection Hw as <- <- <-; [apply take_ge; lia|lia..].
Qed.

(** A frame that was written out is the frame of the channel. *)
Lemma ipc_write_frame fd type payload out fd' :
  is_u32 (Z.of_nat (length payload)) →
  ipc_write fd type payload = Some (true, out, fd') → out = frame type payload.
Proof.
  intros Hl H. unfold ipc_write in H. set (hdr := store_le _ ++ _) in H.
  assert (hdr ++ payload = frame type payload ∧ length hdr = 8%nat ∧ hdr ≠ []) as (<- & H8 & Hne).
  { unfold hdr, frame. rewrite u32_small, store_bswap32 by done. by rewrite <- app_assoc. }
  clearbody hdr. apply bind_Some in H as ([[n o] fd1] & Hn & H). destruct (Z.eqb_spec n 8) as [->|?]; [|done].
  simpl in H. apply write_once_all in Hn as ->; [|by rewrite H8|done].
  destruct payload as [|b payload]; [simplify_eq; by rewrite app_nil_r|].
  apply bind_Some in H as ([[n' o'] fd2] & Hn' & H). injection H as Hlen <- <-. apply Z.eqb_eq in Hlen.
  by apply write_once_all in Hn' as ->.
Qed.

(** No call is interrupted or fails. *)
Definition uninterrupted (fd : list read_ev) : Prop :=
  Forall (λ e, match e with RdErr _ => False | _ => True end) fd.

Lemma fill_data p fd junk : p ≠ [] → uninterrupted fd →
  stream_data fd = p ++ junk → fill (length p) fd = Some (Some p).
Proof.
  intros Hp Hu. revert p Hp. induction Hu as [|[b bs| |e] fd He Hu IH]; intros p Hp Hd; try done.
  - by destruct p.
  - cbn [stream_data fill] in *. change (b :: bs ++ stream_data fd) with ((b :: bs) ++ stream_data fd) in Hd.
    set (l := b :: bs) in *. destruct (Nat.leb_spec (length p) (length l)) as [Hle|Hlt].
    + do 2 f_equal. apply (f_equal (take (length p))) in Hd. rewrite take_app_le in Hd by done.
      by rewrite take_app_length in Hd.
    + assert (p = l ++ drop (length l) p) as Hs.
      { apply (f_equal (take (length l))) in Hd. rewrite take_app_length, take_app_le in Hd by lia.
        rewrite Hd at 1. by rewrite take_drop. }
      rewrite <- length_drop, (IH (drop (length l) p)); [cbn [mbind option_bind option_map]; by rewrite <- Hs| |].
      * intros Hn. apply (f_equal length) in Hn. rewrite length_drop in Hn. change (length []) with O in Hn. lia.
      * rewrite Hs in Hd at 1. rewrite <- app_assoc in Hd. by apply app_inv_head in Hd.
  - by destruct p.
Qed.

(** The payload of a frame whose header arrives in one piece. *)
Lemma ipc_read_frame b bs fd type p junk :
  is_u32 (Z.of_nat (length p)) → (7 <= length bs)%nat → uninterrupted fd →
  (b :: bs) ++ stream_data fd = frame type p ++ junk →
  ipc_read (RdData b bs :: fd) = Some (p, Some type).
Proof.
  intros Hl H7 Hu Hd. destruct (load_bytes_be _ Hl) as (x & y & z & w & Hb & Hv).
  unfold frame in Hd. rewrite Hb in Hd. cbn [app] in Hd.
  do 7 (destruct bs as [|? bs]; [simpl in H7; lia|]). cbn [app] in Hd. injection Hd as -> -> -> -> -> -> -> -> Hd.
  unfold ipc_read, read_once. cbn [take drop mbind option_bind]. rewrite Hv.
  destruct (Z.eqb_spec (Z.of_nat (length p)) 0) as [Hz|Hz]; [by destruct p|]. rewrite Nat2Z.id.
  rewrite (fill_data p _ junk); [done|by intros ->| |].
  - destruct bs; [done|]. by constructor.
  - destruct bs; [done|]. exact Hd.
Qed.

Lemma bridge_serves_witness :
  let bodies := [lit "{'id':1,'method':'initialize'}"; lit "{'method':'notifications/initialized'}"] in
  main (concat (map mcp_write bodies)) [] = handle_all bodies [] ∧
  handle_all bodies [] = Exit [Output (handle_initialize (lit "1")) []; Output [] []].
Proof.
  intros bodies. split; [|vm_compute; reflexivity].
  refine (proj2 (bridge_serves bodies [] (concat (map mcp_write bodies))) _ eq_refl).
  repeat constructor; (by vm_compute) || discriminate.
Defined.
