(* ===== verification/Evaluate.v ===== *)
(** The two ends of the evaluation tool put together: the bridge of [Mcp], the
    channel of [Ipc] and the control thread of [Control]. *)
From S2P Require Import Prelude Binary Bytes Text Spsc Ipc Events Scheduler.
From S2P Require Import Engine Edn Control ControlSpec Mcp.
Local Open Scope Z_scope.

Section evaluate.
Context {V PQ IQ SQ R L T : Type}.
Context `{Edn V, Libm, BoundedQueue PQ (param_event V), BoundedQueue IQ clap_event,
          BoundedQueue SQ scheduled_event, RtMidi R, Lua L, Txlog V T}.
Context (inet_pton : list Z → option Z).

Abbreviation control := (Control.control (PQ := PQ) (IQ := IQ) (SQ := SQ) (R := R) (L := L)).



End evaluate.

(** ** A concrete evaluation *)

Module EvalSample.
Import Sample.

Definition expr : list Z := lit "(+ 1 2)".
Definition request_map : list (tree * tree) :=
  [kw "dest" (TKeyword "vcvrack-tty"); kw "payload" (TString (text expr)); kw "id" (TString "mcp")].
Definition eval_texts : list (string * tree) :=
  [(text (eval_payload (lit "vcvrack-tty") expr), TMap request_map)].
#[local] Instance eval_edn : Edn tree := tree_edn eval_texts.
#[local] Existing Instances coarse_libm param_queue input_event_queue sched_staging_queue sample_midi
  sample_lua sample_txlog.


End EvalSample.
