(* ===== verification/Args.v ===== *)
(** The command line shared by the processes
    ([include/nomos/rt/common_args.hpp]).

    Arguments are byte strings without a terminator.  [std::atof] is a
    parameter: which [double] a decimal text denotes plays no part in how the
    arguments are taken apart.  [None] is an [atoi] whose value is no [int]. *)
From S2P Require Import Prelude Binary Bytes Text.
Local Open Scope Z_scope.

Record common_args := CommonArgs {
  socket_path : list Z; db_path : list Z; bpm : f64;
  midi_port : Z; midi_port_name : list Z; midi_in_port : Z; midi_in_port_name : list Z;
  osc_port : Z; audio_device : Z; audio_out_ch : Z; audio_in_ch : Z; block_size : Z; heartbeat_ms : Z;
  no_audio : bool; list_audio_devs : bool; version : bool }.

Definition default_args : common_args :=
  CommonArgs [] (bytes_of_string "nomos.db") (lit64 120 1) (-1) [] (-1) [] 9000 0 2 0 256 0 false false false.

(** The assignments. *)
Definition set_socket_path v a := let 'CommonArgs _ d b m mn i n o ad oc ic bs h x l r := a in
  CommonArgs v d b m mn i n o ad oc ic bs h x l r.
Definition set_db_path v a := let 'CommonArgs s _ b m mn i n o ad oc ic bs h x l r := a in
  CommonArgs s v b m mn i n o ad oc ic bs h x l r.
Definition set_bpm v a := let 'CommonArgs s d _ m mn i n o ad oc ic bs h x l r := a in
  CommonArgs s d v m mn i n o ad oc ic bs h x l r.
Definition set_midi (p : Z * list Z) a := let 'CommonArgs s d b _ _ i n o ad oc ic bs h x l r := a in
  CommonArgs s d b p.1 p.2 i n o ad oc ic bs h x l r.
Definition set_midi_in (p : Z * list Z) a := let 'CommonArgs s d b m mn _ _ o ad oc ic bs h x l r := a in
  CommonArgs s d b m mn p.1 p.2 o ad oc ic bs h x l r.
Definition set_osc_port v a := let 'CommonArgs s d b m mn i n _ ad oc ic bs h x l r := a in
  CommonArgs s d b m mn i n v ad oc ic bs h x l r.
Definition set_audio_device v a := let 'CommonArgs s d b m mn i n o _ oc ic bs h x l r := a in
  CommonArgs s d b m mn i n o v oc ic bs h x l r.
Definition set_audio_out_ch v a := let 'CommonArgs s d b m mn i n o ad _ ic bs h x l r := a in
  CommonArgs s d b m mn i n o ad v ic bs h x l r.
Definition set_audio_in_ch v a := let 'CommonArgs s d b m mn i n o ad oc _ bs h x l r := a in
  CommonArgs s d b m mn i n o ad oc v bs h x l r.
Definition set_block_size v a := let 'CommonArgs s d b m mn i n o ad oc ic _ h x l r := a in
  CommonArgs s d b m mn i n o ad oc ic v h x l r.
Definition set_heartbeat_ms v a := let 'CommonArgs s d b m mn i n o ad oc ic bs _ x l r := a in
  CommonArgs s d b m mn i n o ad oc ic bs v x l r.
Definition set_no_audio a := let 'CommonArgs s d b m mn i n o ad oc ic bs h _ l r := a in
  CommonArgs s d b m mn i n o ad oc ic bs h true l r.
Definition set_list_audio_devs a := let 'CommonArgs s d b m mn i n o ad oc ic bs h x _ r := a in
  CommonArgs s d b m mn i n o ad oc ic bs h x true r.
Definition set_version a := let 'CommonArgs s d b m mn i n o ad oc ic bs h x l _ := a in
  CommonArgs s d b m mn i n o ad oc ic bs h x l true.

(** A port index when the whole text is a number, else part of a name. *)
Definition parse_midi (p : Z * list Z) (v : list Z) : Z * list Z :=
  match strtol v with Some (n, []) => (i32 n, p.2) | _ => (p.1, v) end.

(** [if (a == flag)]. *)
Definition flag_is (flag : string) (a : list Z) : bool := bool_decide (a = bytes_of_string flag).

Section parse.
Context (atof : list Z → f64).

(** A flag with a value: what it does to the arguments; [None] when the flag is
    unknown, the inner [None] when the conversion is undefined. *)
Definition value_flag (flag v : list Z) (a : common_args) : option (option common_args) :=
  if flag_is "--socket" flag then Some (Some (set_socket_path v a))
  else if flag_is "--db" flag then Some (Some (set_db_path v a))
  else if flag_is "--bpm" flag then Some (Some (set_bpm (atof v) a))
  else if flag_is "--midi-port" flag then Some (Some (set_midi (parse_midi (midi_port a, midi_port_name a) v) a))
  else if flag_is "--midi-in-port" flag then
    Some (Some (set_midi_in (parse_midi (midi_in_port a, midi_in_port_name a) v) a))
  else if flag_is "--osc-port" flag then Some (n ← atoi v; Some (set_osc_port (u16 n) a))
  else if flag_is "--audio-device" flag then Some (n ← atoi v; Some (set_audio_device (u32 n) a))
  else if flag_is "--audio-out-ch" flag then Some (n ← atoi v; Some (set_audio_out_ch (u32 n) a))
  else if flag_is "--audio-in-ch" flag then Some (n ← atoi v; Some (set_audio_in_ch (u32 n) a))
  else if flag_is "--block-size" flag then Some (n ← atoi v; Some (set_block_size (u32 n) a))
  else if flag_is "--heartbeat-ms" flag then Some (n ← atoi v; Some (set_heartbeat_ms (u32 n) a))
  else None.

Definition switch (flag : list Z) (a : common_args) : option common_args :=
  if flag_is "--no-audio" flag then Some (set_no_audio a)
  else if flag_is "--list-audio-devices" flag then Some (set_list_audio_devs a)
  else if flag_is "--version" flag then Some (set_version a)
  else None.

(** A token that does not look like a flag. *)
Definition is_value (v : list Z) : bool := match v with 45 :: _ => false | _ => true end.

(** [argv] from index 1; the remainder in order. *)
Fixpoint parse_common_args (argv : list (list Z)) (args : common_args)
  : option (common_args * list (list Z)) :=
  match argv with
  | [] => Some (args, [])
  | a :: rest =>
      match rest, (match rest with v :: _ => value_flag a v args | [] => None end) with
      | _ :: rest', Some r => args ← r; parse_common_args rest' args
      | _, _ =>
          match switch a args with
          | Some args => parse_common_args rest args
          | None =>
              match rest with
              | v :: rest' =>
                  if is_value v then
                    '(args, rem) ← parse_common_args rest' args; Some (args, a :: v :: rem)
                  else '(args, rem) ← parse_common_args rest args; Some (args, a :: rem)
              | [] => Some (args, [a])
              end
          end
      end
  end.
End parse.

(** [print_common_args_help]; [show] is [operator<<] on a double. *)
Definition print_common_args_help (show : f64 → list Z) (defaults : common_args) : list Z :=
  let t := bytes_of_string in
  let nl := [10] in
  t "  --socket <path>            Unix domain socket          (default: " ++ socket_path defaults ++ t ")" ++ nl ++
  t "  --db <path>                txlog database path         (default: " ++ db_path defaults ++ t ")" ++ nl ++
  t "  --bpm <bpm>                Initial Link tempo          (default: " ++ show (bpm defaults) ++ t ")" ++ nl ++
  t "  --midi-port <n|name>       MIDI output port index or name substring" ++ nl ++
  t "  --midi-in-port <n|name>    MIDI input port index or name substring" ++ nl ++
  t "  --osc-port <n>             UDP OSC listen port         (default: " ++
    to_string (osc_port defaults) ++ t ")" ++ nl ++
  t "  --audio-device <id>        RtAudio device id           (default: " ++
    to_string (audio_device defaults) ++ t ", see --list-audio-devices)" ++ nl ++
  t "  --audio-out-ch <n>         Audio output channels       (default: " ++
    to_string (audio_out_ch defaults) ++ t ")" ++ nl ++
  t "  --audio-in-ch <n>          Audio input channels        (default: " ++
    to_string (audio_in_ch defaults) ++ t ")" ++ nl ++
  t "  --block-size <n>           Audio buffer / CLAP block   (default: " ++
    to_string (block_size defaults) ++ t ")" ++ nl ++
  t "  --heartbeat-ms <n>         Emit [heartbeat] to stderr every n ms (default: 0 = off)" ++ nl ++
  t "  --no-audio                 Skip audio device" ++ nl ++
  t "  --list-audio-devices       Print available audio devices and exit" ++ nl ++
  t "  --version                  Print version and exit" ++ nl.

(** ** What a command line says is what the process gets *)

(** The arguments on a command line; a MIDI name takes the place of an index. *)
Section print.
Context (show_bpm : f64 → list Z).

Definition opt (flag : string) (v : list Z) : list (list Z) := [bytes_of_string flag; v].
Definition midi_value (port : Z) (name : list Z) : list Z := if bool_decide (name = []) then to_string port else name.
Definition print_switch (flag : string) (b : bool) : list (list Z) := if b then [bytes_of_string flag] else [].

Definition print_args (a : common_args) : list (list Z) :=
  opt "--socket" (socket_path a) ++ opt "--db" (db_path a) ++ opt "--bpm" (show_bpm (bpm a)) ++
  opt "--midi-port" (midi_value (midi_port a) (midi_port_name a)) ++
  opt "--midi-in-port" (midi_value (midi_in_port a) (midi_in_port_name a)) ++
  opt "--osc-port" (to_string (osc_port a)) ++ opt "--audio-device" (to_string (audio_device a)) ++
  opt "--audio-out-ch" (to_string (audio_out_ch a)) ++ opt "--audio-in-ch" (to_string (audio_in_ch a)) ++
  opt "--block-size" (to_string (block_size a)) ++ opt "--heartbeat-ms" (to_string (heartbeat_ms a)) ++
  print_switch "--no-audio" (no_audio a) ++ print_switch "--list-audio-devices" (list_audio_devs a) ++
  print_switch "--version" (version a).
End print.

(** A port is an index, or a name that is not a number (the index then keeps its
    default). *)
Definition midi_ok (port : Z) (name : list Z) : Prop :=
  (name = [] ∧ 0 <= port < 2 ^ 31) ∨ (name ≠ [] ∧ port = -1 ∧ ∀ n, strtol name ≠ Some (n, [])).

Record args_ok (a : common_args) : Prop := {
  ok_midi : midi_ok (midi_port a) (midi_port_name a);
  ok_midi_in : midi_ok (midi_in_port a) (midi_in_port_name a);
  ok_osc : 0 <= osc_port a < 2 ^ 16;
  ok_device : 0 <= audio_device a < 2 ^ 31;
  ok_out : 0 <= audio_out_ch a < 2 ^ 31;
  ok_in : 0 <= audio_in_ch a < 2 ^ 31;
  ok_block : 0 <= block_size a < 2 ^ 31;
  ok_heartbeat : 0 <= heartbeat_ms a < 2 ^ 31 }.

(** The flags the parser knows. *)
Definition known_flags : list string :=
  ["--socket"; "--db"; "--bpm"; "--midi-port"; "--midi-in-port"; "--osc-port"; "--audio-device"; "--audio-out-ch";
   "--audio-in-ch"; "--block-size"; "--heartbeat-ms"; "--no-audio"; "--list-audio-devices"; "--version"]%string.
Definition foreign (t : list Z) : Prop := t ∉ map bytes_of_string known_flags.

Section args_spec.
Context (atof : list Z → f64).
Abbreviation parse := (parse_common_args atof).

Lemma flag_is_foreign f t : f ∈ known_flags → foreign t → flag_is f t = false.
Proof. intros Hf Ht. apply bool_decide_eq_false_2. intros ->. apply Ht. by apply list_elem_of_fmap_2. Qed.

Ltac known := apply (bool_decide_unpack _); vm_compute; exact I.

Lemma foreign_unknown t : foreign t → (∀ v a, value_flag atof t v a = None) ∧ ∀ a, switch t a = None.
Proof.
  intros Ht. unfold value_flag, switch.
  split; intros; by repeat (rewrite flag_is_foreign; [|known|exact Ht]).
Qed.

(** Foreign tokens pass through untouched. *)
Lemma parse_foreign ts a : Forall foreign ts → parse ts a = Some (a, ts).
Proof.
  remember (length ts) as n eqn:E. assert (length ts ≤ n)%nat as Hn by lia. clear E. revert ts Hn.
  induction n as [|n IH]; intros [|t ts] Hn Hf; simpl in Hn; try done; [lia|].
  inv Hf as [|? ? Ht Hts]. destruct (foreign_unknown t Ht) as [Hv Hs]. cbn [parse_common_args].
  destruct ts as [|v ts]; [by rewrite Hs|]. rewrite Hv, Hs. inv Hts. simpl in Hn. destruct (is_value v).
  - rewrite IH by (done || lia). done.
  - rewrite IH by (done || (simpl; lia) || by constructor). done.
Qed.

Lemma parse_opt flag v rest a a' :
  value_flag atof (bytes_of_string flag) v a = Some (Some a') → parse (opt flag v ++ rest) a = parse rest a'.
Proof. intros H. cbn [opt app parse_common_args]. by rewrite H. Qed.

(** A flag whose value is a number. *)
Lemma parse_num flag (set : Z → common_args → common_args) w n rest a :
  (∀ v, value_flag atof (bytes_of_string flag) v a = Some (k ← atoi v; Some (set (wrapu w k) a))) →
  0 <= n < 2 ^ 31 → n < 2 ^ w → 0 < w →
  parse (opt flag (to_string n) ++ rest) a = parse rest (set n a).
Proof.
  intros H Hn Hw H0. apply parse_opt. rewrite H. rewrite <- (app_nil_r (to_string n)), atoi_to_string by done.
  cbn [mbind option_bind]. by rewrite wrapu_small by lia.
Qed.

Lemma parse_print_switch flag b (set : common_args → common_args) rest a :
  (∀ v, value_flag atof (bytes_of_string flag) v a = None) → switch (bytes_of_string flag) a = Some (set a) →
  parse (print_switch flag b ++ rest) a = parse rest (if b then set a else a).
Proof.
  intros Hv Hs. destruct b; [|done]. unfold print_switch. cbn [app parse_common_args].
  rewrite Hs. destruct rest as [|v rest]; [done|]. by rewrite Hv.
Qed.

Lemma parse_midi_ok port name : midi_ok port name → parse_midi (-1, []) (midi_value port name) = (port, name).
Proof.
  unfold parse_midi, midi_value. intros [[-> Hp]|(Hn & -> & Hs)].
  - rewrite bool_decide_eq_true_2, strtol_to_string by (done || lia). f_equal. apply wraps_small; lia.
  - rewrite bool_decide_eq_false_2 by done. destruct (strtol name) as [[n [|]]|] eqn:E; try done. by destruct (Hs n).
Qed.

(** C32: The command line that spells a process's arguments out gives it exactly
    these arguments, for all settings in range (MIDI ports by index or by
    name), whatever the texts contain; and the process's own arguments that
    follow reach it unchanged and in order, values included. *)
Theorem args_round_trip show_bpm a extra :
  atof (show_bpm (bpm a)) = bpm a → args_ok a → Forall foreign extra →
  parse (print_args show_bpm a ++ extra) default_args = Some (a, extra).
Proof.
  intros Hb [Hm Hi Ho Had Hoc Hic Hbs Hh] Hf. unfold print_args, default_args. rewrite <- !app_assoc.
  rewrite (parse_opt "--socket" _ _ _ _ eq_refl), (parse_opt "--db" _ _ _ _ eq_refl), (parse_opt "--bpm" _ _ _ _ eq_refl).
  rewrite (parse_opt "--midi-port" _ _ _ _ eq_refl), (parse_opt "--midi-in-port" _ _ _ _ eq_refl).
  rewrite (parse_num "--osc-port" set_osc_port 16) by (reflexivity || lia).
  rewrite (parse_num "--audio-device" set_audio_device 32) by (reflexivity || lia).
  rewrite (parse_num "--audio-out-ch" set_audio_out_ch 32) by (reflexivity || lia).
  rewrite (parse_num "--audio-in-ch" set_audio_in_ch 32) by (reflexivity || lia).
  rewrite (parse_num "--block-size" set_block_size 32) by (reflexivity || lia).
  rewrite (parse_num "--heartbeat-ms" set_heartbeat_ms 32) by (reflexivity || lia).
  rewrite (parse_print_switch "--no-audio" _ set_no_audio), (parse_print_switch "--list-audio-devices" _ set_list_audio_devs),
    (parse_print_switch "--version" _ set_version) by reflexivity.
  rewrite parse_foreign by done. do 2 f_equal. destruct a. cbn -[parse_midi midi_value] in *.
  rewrite Hb, !parse_midi_ok by done. by destruct no_audio0, list_audio_devs0, version0.
Qed.
End args_spec.

Definition sample_args : common_args :=
  CommonArgs (bytes_of_string "--db") (bytes_of_string "x.db") (f64_of_Z 90) (-1) (bytes_of_string "IAC 1") 2 []
    9001 0 2 0 128 1000 true false false.

Lemma args_round_trip_witness :
  parse_common_args (λ _, f64_of_Z 90) (print_args (λ _, bytes_of_string "90") sample_args ++
    [bytes_of_string "--plugin"; bytes_of_string "a.clap"]) default_args =
  Some (sample_args, [bytes_of_string "--plugin"; bytes_of_string "a.clap"]).
Proof.
  apply (args_round_trip (λ _, f64_of_Z 90) (λ _, bytes_of_string "90") sample_args).
  - reflexivity.
  - split; try (simpl; lia).
    + right. split_and!; [done|done|]. intros n. by vm_compute.
    + left. split; [done|simpl; lia].
  - repeat constructor; by apply (bool_decide_unpack _); vm_compute.
Defined.
