(* ===== verification/Luajit.v ===== *)
(** The LuaJIT and Fennel participant ([src/luajit_participant.hpp/.cpp]).

    LuaJIT and Fennel are third-party: the class [LuaRuntime] has what the C API
    does to the state ([lua_pcall], table and global access, conversions).  The
    C API's value stack is modelled as documented, and the member functions are
    written against it in a state monad, call by call.  [eval], [dispatch_osc],
    [get_osc_endpoints], the two registrations and [tick_once] hold the
    participant's mutex, so each is one step here ([set_beat] is two atomic
    stores).  [load] and the [load_prelude] in it take no mutex, and the
    constructor has started the timer thread by then; they are sequential here,
    as they are when the first tick comes late enough, and [LuaLife] shows that
    it may not.

    Module [Repl] models the part of the Fennel prelude that keeps time, Module
    [Register] the registration of OSC handlers and the mutex it needs. *)
From S2P Require Import Prelude Binary Bytes Text Osc.
Local Open Scope Z_scope.

(** ** Lua values and the C API *)

(** Tables, functions and other objects are references. *)
Inductive lval :=
| LNil | LBool (b : bool) | LNumber (d : f64) | LString (s : list Z)
| LTable (t : Z) | LFunction (f : Z) | LObject (o : Z).

Class LuaRuntime (R : Type) := {
  get_global : R → string → lval;
  set_global : string → lval → R → R;
  (** [lua_getfield] and [lua_gettable] on a table. *)
  get_index : R → Z → lval → lval;
  (** The keys [lua_next] visits. *)
  table_keys : R → Z → list lval;
  (** A protected call: the results, or the error value. *)
  call : R → lval → list lval → R * (list lval + lval);
  (** [luaL_loadbuffer]: the chunk compiled, or the error value. *)
  load_chunk : R → list Z → R * (lval + lval);
  number_text : f64 → list Z;   (* lua_tolstring of a number *)
  to_integer : f64 → Z;         (* lua_tointeger *)
  print_g : f64 → list Z        (* snprintf of %g *)
}.

(** The state and the stack, top first. *)
Record lua_State (R : Type) := LuaState { runtime : R; stack : list lval }.
Arguments LuaState {R}. Arguments runtime {R}. Arguments stack {R}.

Inductive lua_type := TNone | TNilT | TBoolean | TNumber | TStringT | TTable | TFunction | TObject.

Section capi.
Context {R : Type} `{LuaRuntime R}.

Definition M (A : Type) : Type := lua_State R → lua_State R * A.
Definition ret {A} (a : A) : M A := λ L, (L, a).
Definition bind {A B} (m : M A) (f : A → M B) : M B := λ L, let '(L, a) := m L in f a L.
Definition on_stack (f : list lval → list lval) : M unit := λ L, (LuaState (runtime L) (f (stack L)), tt).
End capi.

Notation "'do' x <- m ; k" := (bind m (λ x, k)) (at level 200, x binder, m at level 100, k at level 200) : rt_scope.
Notation "m >> k" := (bind m (λ _, k)) (at level 100, right associativity) : rt_scope.
Local Open Scope rt_scope.

Section operations.
Context {R : Type} `{LuaRuntime R}.
Abbreviation M := (M (R := R)).

Definition lua_gettop : M nat := λ L, (L, length (stack L)).
(** [settop] to a height not above the current one. *)
Definition lua_settop (n : nat) : M unit := on_stack (λ st, drop (length st - n) st).
Definition lua_pop (n : nat) : M unit := on_stack (drop n).
Definition lua_push (v : lval) : M unit := on_stack (cons v).

(** Negative indices count from the top, positive ones from the bottom. *)
Definition lua_value (idx : Z) : M (option lval) :=
  λ L, (L, if idx <? 0 then stack L !! Z.to_nat (- idx - 1) else rev (stack L) !! Z.to_nat (idx - 1)).

Definition type_of (v : option lval) : lua_type :=
  match v with
  | None => TNone | Some LNil => TNilT | Some (LBool _) => TBoolean | Some (LNumber _) => TNumber
  | Some (LString _) => TStringT | Some (LTable _) => TTable | Some (LFunction _) => TFunction
  | Some (LObject _) => TObject
  end.
Definition lua_typeof (idx : Z) : M lua_type := do v <- lua_value idx; ret (type_of v).

Definition lua_getglobal (name : string) : M unit := λ L, lua_push (get_global (runtime L) name) L.
Definition lua_setglobal (name : string) : M unit := λ L,
  (LuaState (set_global name (default LNil (head (stack L))) (runtime L)) (tail (stack L)), tt).
Definition lua_pushvalue (idx : Z) : M unit := do v <- lua_value idx; lua_push (default LNil v).

(** [getfield] at an index, [gettable] at [-2] with the key on top. *)
Definition lua_getfield (idx : Z) (key : list Z) : M unit := do v <- lua_value idx; λ L,
  lua_push (match v with Some (LTable t) => get_index (runtime L) t (LString key) | _ => LNil end) L.
Definition lua_gettable : M unit := λ L,
  (LuaState (runtime L)
     (match stack L with
      | k :: LTable t :: st => get_index (runtime L) t k :: LTable t :: st
      | st => st
      end), tt).

(** Results adjusted to the number asked for; [true] is success. *)
Definition adjust (nres : nat) (rs : list lval) : list lval := take nres (rs ++ replicate nres LNil).
Definition lua_pcall (nargs nres : nat) : M bool := λ L,
  let args := rev (take nargs (stack L)) in
  match drop nargs (stack L) with
  | f :: st =>
      match call (runtime L) f args with
      | (r, inl rs) => (LuaState r (rev (adjust nres rs) ++ st), true)
      | (r, inr err) => (LuaState r (err :: st), false)
      end
  | [] => (L, false)
  end.

(** Pushes the chunk or the error; [true] is success. *)
Definition luaL_loadbuffer (src : list Z) : M bool := λ L,
  match load_chunk (runtime L) src with
  | (r, inl f) => (LuaState r (f :: stack L), true)
  | (r, inr err) => (LuaState r (err :: stack L), false)
  end.

Definition value_text (v : option lval) : list Z :=
  match v with Some (LString s) => s | Some (LNumber d) => number_text d | _ => [] end.
Definition lua_tostring_safe (idx : Z) : M (list Z) := do v <- lua_value idx; ret (value_text v).

(** ** Values as EDN *)

Definition edn_quote (raw : list Z) : list Z :=
  concat (map (λ c, if (c =? 34) || (c =? 92) then [92; c] else [c]) raw).

(** Single quotes in the literals stand for double quotes. *)
Definition quoted (s : list Z) : list Z := 34 :: s ++ [34].
Definition error_edn (msg : list Z) : list Z :=
  bytes_of_string "{:error " ++ quoted msg ++ bytes_of_string "}".

Definition lua_to_edn (idx : Z) : M (list Z) :=
  do v <- lua_value idx;
  match v with
  | Some (LNumber n) =>
      let i := to_integer n in
      ret (if SFeqb (f64_of_Z i) n then to_string i else print_g n)
  | Some (LBool b) => ret (bytes_of_string (if b then "true" else "false"))
  | Some LNil => ret (bytes_of_string "nil")
  | Some (LString raw) => ret (quoted (edn_quote raw))
  | _ =>
      lua_getglobal "tostring" >> lua_pushvalue idx >>
      do ok <- lua_pcall 1 1;
      if ok : bool then do s <- lua_tostring_safe (-1); lua_pop 1 >> ret (quoted s)
      else lua_pop 1 >> ret (bytes_of_string ":unknown")
  end.

(** ** The participant *)

Definition is_type (t : lua_type) (a : lua_type) : bool :=
  match t, a with TTable, TTable | TFunction, TFunction | TStringT, TStringT => true | _, _ => false end.

(** Fetch [fennel.eval] on the stack, or an error. *)
Definition eval (src : list Z) : M (list Z) :=
  do base <- lua_gettop;
  lua_getglobal "fennel" >>
  do t <- lua_typeof (-1);
  if negb (is_type TTable t) then lua_settop base >> ret (error_edn (bytes_of_string "fennel global missing"))
  else
    lua_getfield (-1) (bytes_of_string "eval") >>
    do t <- lua_typeof (-1);
    if negb (is_type TFunction t) then lua_settop base >> ret (error_edn (bytes_of_string "fennel.eval missing"))
    else
      lua_push (LString src) >>
      do ok <- lua_pcall 1 1;
      if negb ok then
        do err <- lua_tostring_safe (-1); lua_settop base >> ret (error_edn (edn_quote err))
      else do result <- lua_to_edn (-1); lua_settop base >> ret result.

(** Evaluates the prelude; whether it was loaded. *)
Definition load_prelude (kPrelude : list Z) : M bool :=
  do base <- lua_gettop;
  lua_getglobal "fennel" >>
  do t <- lua_typeof (-1);
  if negb (is_type TTable t) then lua_settop base >> ret false
  else
    lua_getfield (-1) (bytes_of_string "eval") >>
    do t <- lua_typeof (-1);
    if negb (is_type TFunction t) then lua_settop base >> ret false
    else
      lua_push (LString kPrelude) >>
      do ok <- lua_pcall 1 1; lua_settop base >> ret ok.

(** The factory [load].  Reading a file ([slurp]) gives its bytes, none when it
    cannot be opened; [luaL_newstate] with [luaL_openlibs] gives a runtime or
    fails. *)
Section load.
Context (slurp : list Z → list Z) (newstate : option R) (kPrelude : list Z).

Definition kFennelPaths : list (list Z) :=
  map bytes_of_string ["/opt/homebrew/share/lua/5.1/fennel.lua"; "/usr/local/share/lua/5.1/fennel.lua";
    "/usr/share/lua/5.1/fennel.lua"; "fennel.lua"]%string.

(** The candidates in order, up to the first that is not empty. *)
Fixpoint first_source (paths : list (list Z)) : list Z :=
  match paths with
  | [] => []
  | p :: paths => match slurp p with [] => first_source paths | src => src end
  end.

Definition find_fennel (fennel_path_hint : list Z) : list Z :=
  let fennel_src := match fennel_path_hint with [] => [] | _ => slurp fennel_path_hint end in
  match fennel_src with [] => first_source kFennelPaths | _ => fennel_src end.

(** Runs the chunk and names its result [fennel]. *)
Definition init_fennel (fennel_src : list Z) : M bool :=
  do ok <- luaL_loadbuffer fennel_src;
  if negb ok then ret false
  else
    do ok <- lua_pcall 0 1;
    if negb ok then ret false else lua_setglobal "fennel" >> ret true.

(** [None]: no participant (the state, if any, is closed). *)
Definition load (fennel_path_hint : list Z) : option (lua_State R) :=
  match find_fennel fennel_path_hint, newstate with
  | [], _ | _, None => None
  | fennel_src, Some r =>
      let '(L, ok) := init_fennel fennel_src (LuaState r []) in
      if ok : bool then Some (load_prelude kPrelude L).1 else None
  end.
End load.

(** The participant's own copies of the server's decoding helpers: a [uint32_t]
    copied from the packet and swapped. *)
Definition osc_read_u32 (p : list Z) : Z :=
  match p with a :: b :: c :: d :: _ => bswap32 (load_le a b c d) | _ => 0 end.
Definition osc_read_i32 (p : list Z) : Z := i32 (osc_read_u32 p).
Definition osc_read_f32 (p : list Z) : f32 := f32_of_bits (osc_read_u32 p).
Definition osc_pad4 (n : Z) : Z := Z.land (u64 (n + 3)) (u64 (Z.lnot 3)).

(** The arguments pushed for the type tags, from offset [off]; how many. *)
Fixpoint push_args (tags : list Z) (off : nat) (args : list Z) : M nat :=
  match tags with
  | [] => ret O
  | tag :: tags =>
      if (tag =? tag_i) && (off + 4 <=? length args)%nat then
        lua_push (LNumber (f64_of_Z (osc_read_i32 (drop off args)))) >>
        do n <- push_args tags (off + 4) args; ret (S n)
      else if (tag =? tag_f) && (off + 4 <=? length args)%nat then
        lua_push (LNumber (f64_of_f32 (osc_read_f32 (drop off args)))) >>
        do n <- push_args tags (off + 4) args; ret (S n)
      else if (tag =? tag_s) && (off <? length args)%nat then
        let slen := strnlen (drop off args) in
        lua_push (LString (take slen (drop off args))) >>
        do n <- push_args tags (off + Z.to_nat (osc_pad4 (Z.of_nat slen + 1))) args; ret (S n)
      else push_args tags off args
  end.

Definition dispatch_osc (path type_tags args : list Z) : M bool :=
  do base <- lua_gettop;
  lua_getglobal "nomos-osc-dispatch" >>
  do t <- lua_typeof (-1);
  if negb (is_type TTable t) then lua_settop base >> ret false
  else
    lua_push (LString path) >> lua_gettable >>
    do t <- lua_typeof (-1);
    if negb (is_type TFunction t) then lua_settop base >> ret false
    else
      do nargs <- push_args type_tags O args;
      do _ <- lua_pcall nargs 0;   (* an error is only reported *)
      lua_settop base >> ret true.

(** The [lua_next] loop leaves the key of each turn to the next one. *)
Fixpoint endpoint_lines (keys : list lval) : list Z :=
  match keys with
  | [] => []
  | LString s :: keys => s ++ 10 :: endpoint_lines keys
  | _ :: keys => endpoint_lines keys
  end.

Definition get_osc_endpoints : M (list Z) :=
  do base <- lua_gettop;
  lua_getglobal "nomos-osc-dispatch" >>
  do v <- lua_value (-1);
  match v with
  | Some (LTable t) =>
      do keys <- (λ L, (L, table_keys (runtime L) t));
      lua_settop base >> ret (endpoint_lines keys)
  | _ => lua_settop base >> ret []
  end.

(** The shared beat and tempo are read when the timer fires. *)
Definition tick_once (beat : f64) (bpm : f32) : M unit :=
  lua_getglobal "nomos_rt_tick" >>
  do t <- lua_typeof (-1);
  if negb (is_type TFunction t) then lua_pop 1
  else
    lua_push (LNumber beat) >> lua_push (LNumber (f64_of_f32 bpm)) >>
    do ok <- lua_pcall 2 0;
    if ok : bool then ret tt else lua_pop 1.

(** [register_wasm_swap_fn] and [register_osc_push_fn] bind a closure to a
    global. *)
Definition register_fn (name : string) (closure : Z) : M unit :=
  lua_push (LFunction closure) >> lua_setglobal name.

(** The Lua function behind [vcv.hot-swap!]: the node it names, and the status
    it returns; no call without both arguments. *)
Definition l_vcv_hot_swap (fn : list Z → list Z → bool) (s1 s2 : option (list Z)) : list Z :=
  match s1, s2 with
  | Some s1, Some s2 =>
      if fn (bytes_of_string "vcv-slot-" ++ s1) s2 then bytes_of_string "{:status :ok}"
      else bytes_of_string "{:status :error :reason " ++ quoted (bytes_of_string "swap failed") ++ bytes_of_string "}"
  | _, _ => bytes_of_string "{:status :error :reason " ++ quoted (bytes_of_string "bad args") ++ bytes_of_string "}"
  end.

(** The [ctrl] and [vcv] tables of the prelude: [f] is what the global of the
    binding holds, [tostring] is Lua's.  An unbound binding makes a text. *)
Definition ctrl_set (tostring : lval → list Z) (f : option (lval → lval → lval)) (path val : lval) : lval :=
  match f with
  | Some f => f path val
  | None => LString (bytes_of_string "ctrl.set! " ++ tostring path ++ bytes_of_string " " ++ tostring val)
  end.
Definition ctrl_get (tostring : lval → list Z) (f : option (lval → lval)) (path : lval) : lval :=
  match f with
  | Some f => f path
  | None => LString (bytes_of_string "ctrl.get " ++ tostring path ++ bytes_of_string " (stub)")
  end.
Definition vcv_hot_swap (tostring : lval → list Z) (f : option (list Z → list Z → bool)) (slot path : lval) : list Z :=
  match f with
  | Some fn => l_vcv_hot_swap fn (Some (tostring slot)) (Some (tostring path))
  | None => bytes_of_string "vcv.hot-swap! not wired (slot=" ++ tostring slot ++
            bytes_of_string " path=" ++ tostring path ++ bytes_of_string ")"
  end.
Definition vcv_load_alembic (tostring : lval → list Z) (slot expr : lval) : list Z :=
  bytes_of_string "(alembic/compile-and-load! " ++ tostring slot ++ bytes_of_string " '" ++ tostring expr ++
  bytes_of_string ")".
End operations.

(** ** Without the stack

    What the member functions compute on the runtime alone. *)

Section specification.
Context {R : Type} `{LuaRuntime R}.

(** A value that is neither a number, a boolean, a string nor nil is not
    printed: [lua_pushvalue(L, idx)] comes after [tostring] was pushed, so with
    [idx = -1] the argument of [tostring] is [tostring] itself. *)
Definition edn_of (r : R) (v : lval) : R * list Z :=
  match v with
  | LNumber n => (r, if SFeqb (f64_of_Z (to_integer n)) n then to_string (to_integer n) else print_g n)
  | LBool b => (r, bytes_of_string (if b then "true" else "false"))
  | LNil => (r, bytes_of_string "nil")
  | LString raw => (r, quoted (edn_quote raw))
  | _ =>
      let tostring := get_global r "tostring" in
      match call r tostring [tostring] with
      | (r, inl rs) => (r, quoted (value_text (Some (default LNil (head rs)))))
      | (r, inr _) => (r, bytes_of_string ":unknown")
      end
  end.

(** [fennel.eval], or what is missing. *)
Definition fennel_eval (r : R) : Z + list Z :=
  match get_global r "fennel" with
  | LTable t =>
      match get_index r t (LString (bytes_of_string "eval")) with
      | LFunction f => inl f
      | _ => inr (bytes_of_string "fennel.eval missing")
      end
  | _ => inr (bytes_of_string "fennel global missing")
  end.

Definition eval_spec (src : list Z) (r : R) : R * list Z :=
  match fennel_eval r with
  | inr missing => (r, error_edn missing)
  | inl f =>
      match call r (LFunction f) [LString src] with
      | (r, inl rs) => edn_of r (default LNil (head rs))
      | (r, inr err) => (r, error_edn (edn_quote (value_text (Some err))))
      end
  end.

Definition prelude_spec (src : list Z) (r : R) : R * bool :=
  match fennel_eval r with
  | inr _ => (r, false)
  | inl f => let '(r, res) := call r (LFunction f) [LString src] in
             (r, match res with inl _ => true | inr _ => false end)
  end.

(** The first candidate with a content is run; its result becomes [fennel] and
    the prelude is evaluated by it. *)
Definition load_spec (slurp : list Z → list Z) (newstate : option R) (kPrelude hint : list Z) : option R :=
  r ← newstate;
  src ← head (List.filter (λ src, negb (bool_decide (src = [])))
                (map slurp ((if bool_decide (hint = []) then [] else [hint]) ++ kFennelPaths)));
  match load_chunk r src with
  | (r, inl chunk) =>
      match call r chunk [] with
      | (r, inl rs) => Some (prelude_spec kPrelude (set_global "fennel" (default LNil (head rs)) r)).1
      | _ => None
      end
  | _ => None
  end.

(** The decoded arguments. *)
Fixpoint osc_values (tags : list Z) (off : nat) (args : list Z) : list lval :=
  match tags with
  | [] => []
  | tag :: tags =>
      if (tag =? tag_i) && (off + 4 <=? length args)%nat then
        LNumber (f64_of_Z (osc_int32 (drop off args))) :: osc_values tags (off + 4) args
      else if (tag =? tag_f) && (off + 4 <=? length args)%nat then
        LNumber (f64_of_f32 (osc_float (drop off args))) :: osc_values tags (off + 4) args
      else if (tag =? tag_s) && (off <? length args)%nat then
        let slen := strnlen (drop off args) in
        LString (take slen (drop off args)) :: osc_values tags (off + Z.to_nat (pad4 (Z.of_nat slen + 1))) args
      else osc_values tags off args
  end.

Definition dispatch_spec (path tags args : list Z) (r : R) : R * bool :=
  match get_global r "nomos-osc-dispatch" with
  | LTable t =>
      match get_index r t (LString path) with
      | LFunction f => ((call r (LFunction f) (osc_values tags O args)).1, true)
      | _ => (r, false)
      end
  | _ => (r, false)
  end.

Definition endpoints_spec (r : R) : R * list Z :=
  match get_global r "nomos-osc-dispatch" with
  | LTable t => (r, endpoint_lines (table_keys r t))
  | _ => (r, [])
  end.

Definition tick_spec (beat : f64) (bpm : f32) (r : R) : R * unit :=
  match get_global r "nomos_rt_tick" with
  | LFunction f => ((call r (LFunction f) [LNumber beat; LNumber (f64_of_f32 bpm)]).1, tt)
  | _ => (r, tt)
  end.

(** [m] does what [spec] says and leaves the stack as it was. *)
Definition implements {A} (m : M (R := R) A) (spec : R → R * A) : Prop :=
  ∀ r st, m (LuaState r st) = (LuaState (spec r).1 st, (spec r).2).

Lemma settop_restores (r : R) pre st : lua_settop (length st) (LuaState r (pre ++ st)) = (LuaState r st, tt).
Proof.
  unfold lua_settop, on_stack. cbn [stack runtime]. rewrite length_app.
  replace (length pre + length st - length st)%nat with (length pre) by lia. by rewrite drop_app_length.
Qed.

Lemma adjust_1 rs : adjust 1 rs = [default LNil (head rs)].
Proof. by destruct rs. Qed.

(** Running one call of the API. *)
Lemma bind_run {A B} (m : M A) (f : A → M B) (L L' : lua_State R) a : m L = (L', a) → bind m f L = f a L'.
Proof. unfold bind. by intros ->. Qed.

Lemma run_global name r st : lua_getglobal name (LuaState r st) = (LuaState r (get_global r name :: st), tt).
Proof. done. Qed.
Lemma run_push v (r : R) st : lua_push v (LuaState r st) = (LuaState r (v :: st), tt).
Proof. done. Qed.
Lemma run_pop (r : R) v st : lua_pop 1 (LuaState r (v :: st)) = (LuaState r st, tt).
Proof. done. Qed.
Lemma run_value (r : R) v st : lua_value (-1) (LuaState r (v :: st)) = (LuaState r (v :: st), Some v).
Proof. done. Qed.
Lemma run_typeof (r : R) v st : lua_typeof (-1) (LuaState r (v :: st)) = (LuaState r (v :: st), type_of (Some v)).
Proof. done. Qed.
Lemma run_text (r : R) v st : lua_tostring_safe (-1) (LuaState r (v :: st)) = (LuaState r (v :: st), value_text (Some v)).
Proof. done. Qed.
Lemma run_pushvalue (r : R) v st : lua_pushvalue (-1) (LuaState r (v :: st)) = (LuaState r (v :: v :: st), tt).
Proof. done. Qed.
Lemma run_gettop (r : R) st : lua_gettop (LuaState r st) = (LuaState r st, length st).
Proof. done. Qed.
Lemma run_getfield (r : R) t st key :
  lua_getfield (-1) key (LuaState r (LTable t :: st)) =
  (LuaState r (get_index r t (LString key) :: LTable t :: st), tt).
Proof. done. Qed.
Lemma run_gettable (r : R) k t st :
  lua_gettable (LuaState r (k :: LTable t :: st)) = (LuaState r (get_index r t k :: LTable t :: st), tt).
Proof. done. Qed.
Lemma run_pcall (r : R) nres args f st :
  lua_pcall (length args) nres (LuaState r (rev args ++ f :: st)) =
  match call r f args with
  | (r, inl rs) => (LuaState r (rev (adjust nres rs) ++ st), true)
  | (r, inr err) => (LuaState r (err :: st), false)
  end.
Proof.
  unfold lua_pcall. cbn [stack runtime]. rewrite <- (length_rev args).
  by rewrite drop_app_length, take_app_length, rev_involutive.
Qed.
Lemma run_settop_base (r : R) pre st n : n = length st → lua_settop n (LuaState r (pre ++ st)) = (LuaState r st, tt).
Proof. intros ->. apply settop_restores. Qed.
Lemma run_settop_0 (r : R) st n : n = length st → lua_settop n (LuaState r st) = (LuaState r st, tt).
Proof. apply (run_settop_base r []). Qed.
Lemma run_settop_1 (r : R) a st n : n = length st → lua_settop n (LuaState r (a :: st)) = (LuaState r st, tt).
Proof. apply (run_settop_base r [a]). Qed.
Lemma run_settop_2 (r : R) a b st n : n = length st → lua_settop n (LuaState r (a :: b :: st)) = (LuaState r st, tt).
Proof. apply (run_settop_base r [a; b]). Qed.

Lemma run_setglobal name (r : R) v st : lua_setglobal name (LuaState r (v :: st)) = (LuaState (set_global name v r) st, tt).
Proof. done. Qed.

Lemma first_source_spec slurp paths :
  first_source slurp paths = default [] (head (List.filter (λ src, negb (bool_decide (src = []))) (map slurp paths))).
Proof. induction paths as [|p paths IH]; [done|]. cbn [first_source map List.filter]. by destruct (slurp p). Qed.

Lemma find_fennel_spec slurp hint :
  find_fennel slurp hint =
  default [] (head (List.filter (λ src, negb (bool_decide (src = [])))
    (map slurp ((if bool_decide (hint = []) then [] else [hint]) ++ kFennelPaths)))).
Proof.
  unfold find_fennel. rewrite first_source_spec. destruct hint as [|c hint]; [done|].
  rewrite bool_decide_eq_false_2 by done. cbn [map app List.filter]. by destruct (slurp (c :: hint)).
Qed.

#[local] Opaque lua_gettop lua_settop lua_pop lua_push lua_value lua_typeof lua_getglobal lua_pushvalue lua_getfield
  lua_gettable lua_pcall lua_tostring_safe lua_setglobal.

Ltac lua_run :=
  repeat (erewrite bind_run;
    [|first [apply run_global | apply run_push | apply run_pop | apply run_value | apply run_typeof | apply run_text
            | apply run_pushvalue | apply run_gettop | apply run_getfield | apply run_gettable]]; cbv beta).

(** Back to the stack at the start, whatever was pushed above. *)
Ltac restore :=
  erewrite bind_run; [|first [apply run_settop_0; reflexivity | apply run_settop_1; reflexivity
                             | apply run_settop_2; reflexivity]]; cbv beta; try reflexivity.

Lemma to_edn_object r v st :
  (lua_getglobal "tostring" >> lua_pushvalue (-1) >>
   do ok <- lua_pcall 1 1;
   if ok : bool then do s <- lua_tostring_safe (-1); lua_pop 1 >> ret (quoted s)
   else lua_pop 1 >> ret (bytes_of_string ":unknown")) (LuaState r (v :: st)) =
  let tostring := get_global r "tostring" in
  match call r tostring [tostring] with
  | (r, inl rs) => (LuaState r (v :: st), quoted (value_text (Some (default LNil (head rs)))))
  | (r, inr _) => (LuaState r (v :: st), bytes_of_string ":unknown")
  end.
Proof.
  lua_run. set (f := get_global r "tostring"). pose proof (run_pcall r 1 [f] f (v :: st)) as Hp.
  cbn [length rev app] in Hp. cbv zeta. destruct (call r f [f]) as [r' [rs|err]]; erewrite bind_run by exact Hp; cbv beta iota.
  - rewrite adjust_1. cbn [rev app]. by lua_run.
  - by lua_run.
Qed.

Lemma to_edn_spec r v st :
  lua_to_edn (-1) (LuaState r (v :: st)) = (LuaState (edn_of r v).1 (v :: st), (edn_of r v).2).
Proof.
  unfold lua_to_edn. lua_run. destruct v; try reflexivity; rewrite to_edn_object; unfold edn_of; cbv zeta;
    by destruct (call r _ _) as [? [?|?]].
Qed.

Lemma push_args_spec tags off args (r : R) st :
  push_args tags off args (LuaState r st) =
  (LuaState r (rev (osc_values tags off args) ++ st), length (osc_values tags off args)).
Proof.
  revert off st. induction tags as [|tag tags IH]; intros off st; [done|]. cbn [push_args osc_values].
  repeat (case_if; [lua_run; erewrite bind_run by apply IH; cbv beta; cbn [rev length]; by rewrite <- app_assoc|]).
  apply IH.
Qed.

(** A value of the wrong kind on top: the guards leave through [settop]. *)
Ltac bail := cbn [type_of is_type negb]; solve [restore].

Lemma eval_implements src : implements (eval src) (eval_spec src).
Proof.
  intros r st. unfold eval, eval_spec, fennel_eval. lua_run.
  destruct (get_global r "fennel") as [|?|?|?|t|?|?]; try bail.
  cbn [type_of is_type negb]. lua_run.
  destruct (get_index r t _) as [|?|?|?|?|f|?]; try bail.
  cbn [type_of is_type negb]. lua_run.
  pose proof (run_pcall r 1 [LString src] (LFunction f) (LTable t :: st)) as Hp. cbn [length rev app] in Hp.
  destruct (call r (LFunction f) [LString src]) as [r' [rs|err]]; erewrite bind_run by exact Hp; cbv beta; cbn [negb].
  - rewrite adjust_1. cbn [rev app]. erewrite bind_run by apply to_edn_spec. cbv beta. restore.
  - lua_run. restore.
Qed.

Lemma prelude_implements src : implements (load_prelude src) (prelude_spec src).
Proof.
  intros r st. unfold load_prelude, prelude_spec, fennel_eval. lua_run.
  destruct (get_global r "fennel") as [|?|?|?|t|?|?]; try bail.
  cbn [type_of is_type negb]. lua_run.
  destruct (get_index r t _) as [|?|?|?|?|f|?]; try bail.
  cbn [type_of is_type negb]. lua_run.
  pose proof (run_pcall r 1 [LString src] (LFunction f) (LTable t :: st)) as Hp. cbn [length rev app] in Hp.
  destruct (call r (LFunction f) [LString src]) as [r' [rs|err]]; erewrite bind_run by exact Hp; cbv beta.
  - rewrite adjust_1. restore.
  - restore.
Qed.

Lemma filter_nonempty (l : list (list Z)) src :
  head (List.filter (λ src, negb (bool_decide (src = []))) l) = Some src → src ≠ [].
Proof.
  induction l as [|x l IH]; [done|]. cbn [List.filter]. destruct x; cbn; [done|]. by intros [= <-].
Qed.

Lemma load_implements slurp newstate kPrelude hint :
  load slurp newstate kPrelude hint = option_map (λ r, LuaState r []) (load_spec slurp newstate kPrelude hint).
Proof.
  unfold load, load_spec. rewrite find_fennel_spec. destruct newstate as [r|]; [|by destruct (default _ _)].
  cbn [mbind option_bind]. destruct (head _) as [src|] eqn:Hs; [|done]. apply filter_nonempty in Hs.
  cbn [default from_option Datatypes.id mbind option_bind]. destruct src as [|c src]; [done|]. clear Hs.
  unfold init_fennel, luaL_loadbuffer, bind at 1. cbn [runtime stack].
  destruct (load_chunk r (c :: src)) as [r' [chunk|err]]; cbn [negb]; [|done].
  pose proof (run_pcall r' 1 [] chunk []) as Hp. cbn [length rev app] in Hp.
  destruct (call r' chunk []) as [r2 [rs|err]]; erewrite bind_run by exact Hp; cbv beta; cbn [negb]; [|done].
  rewrite adjust_1. cbn [rev app]. erewrite bind_run by apply run_setglobal. cbv beta. unfold ret at 1.
  by rewrite prelude_implements.
Qed.

Lemma dispatch_implements path tags args : implements (dispatch_osc path tags args) (dispatch_spec path tags args).
Proof.
  intros r st. unfold dispatch_osc, dispatch_spec. lua_run.
  destruct (get_global r "nomos-osc-dispatch") as [|?|?|?|t|?|?]; try bail.
  cbn [type_of is_type negb]. lua_run.
  destruct (get_index r t _) as [|?|?|?|?|f|?]; try bail.
  cbn [type_of is_type negb]. erewrite bind_run by apply push_args_spec. cbv beta.
  set (vs := osc_values tags 0 args).
  pose proof (run_pcall r 0 vs (LFunction f) (LTable t :: st)) as Hp.
  destruct (call r (LFunction f) vs) as [r' [rs|err]]; erewrite bind_run by exact Hp; cbv beta.
  - restore.
  - restore.
Qed.

Lemma endpoints_implements : implements get_osc_endpoints endpoints_spec.
Proof.
  intros r st. unfold get_osc_endpoints, endpoints_spec. lua_run.
  destruct (get_global r "nomos-osc-dispatch") as [|?|?|?|t|?|?]; try solve [restore].
  erewrite bind_run by reflexivity. cbv beta. restore.
Qed.

Lemma tick_implements beat bpm : implements (tick_once beat bpm) (tick_spec beat bpm).
Proof.
  intros r st. unfold tick_once, tick_spec. lua_run.
  destruct (get_global r "nomos_rt_tick") as [|?|?|?|?|f|?]; try reflexivity.
  cbn [type_of is_type negb]. lua_run.
  set (vs := [LNumber beat; LNumber (f64_of_f32 bpm)]).
  pose proof (run_pcall r 0 vs (LFunction f) st) as Hp. cbn [length rev app vs] in Hp. fold vs in Hp.
  destruct (call r (LFunction f) vs) as [r' [rs|err]]; erewrite bind_run by exact Hp; cbv beta; [done|].
  by rewrite run_pop.
Qed.

(** C18: The member functions are what their specifications say on the runtime
    alone, and leave Lua's stack exactly as they found it on every path, error
    paths included: evaluation with its EDN answer (in which an object that is
    neither a number, a string, a boolean nor nil comes out as the text of the
    function [tostring] itself), the loading of the prelude, the dispatch of
    OSC messages, the list of endpoints and the timer's tick.  The factory runs
    the first readable Fennel source of its list, names the result [fennel],
    evaluates the prelude with it and hands out a state with an empty stack; it
    fails only when there is no source, no state, or the chunk does not run. *)
Theorem participant_refines src path tags args beat bpm slurp newstate hint :
  implements (eval src) (eval_spec src) ∧ implements (load_prelude src) (prelude_spec src) ∧
  implements (dispatch_osc path tags args) (dispatch_spec path tags args) ∧
  implements get_osc_endpoints endpoints_spec ∧ implements (tick_once beat bpm) (tick_spec beat bpm) ∧
  load slurp newstate src hint = option_map (λ r, LuaState r []) (load_spec slurp newstate src hint).
Proof.
  split_and!; [apply eval_implements|apply prelude_implements|apply dispatch_implements|apply endpoints_implements
    |apply tick_implements|apply load_implements].
Qed.

(** ** From OSC messages to Fennel handlers *)

(** The Lua value of an argument. *)
Definition lval_of_arg (a : arg) : lval :=
  if tag a =? tag_i then LNumber (f64_of_Z (arg_i a))
  else if tag a =? tag_f then LNumber (f64_of_f32 (arg_f a))
  else LString (arg_s a).

Lemma osc_values_args l : ∀ pre, Forall arg_ok l →
  osc_values (map tag l) (length pre) (pre ++ concat (map arg_bytes l)) = map lval_of_arg l.
Proof.
  induction l as [|a l IH]; intros pre Hl; [done|]. apply Forall_cons in Hl as [Ha Hl].
  cbn [map concat osc_values]. rewrite drop_app_length.
  destruct Ha as [[Ht Hi]|[(Ht & Hv & Hn)|(Ht & Hn & Hs)]]; unfold arg_bytes, lval_of_arg; rewrite Ht;
    cbn [Z.eqb Pos.eqb tag_i tag_f tag_s andb].
  - rewrite (proj2 (Nat.leb_le _ _)) by (rewrite !length_app; simpl; lia). rewrite osc_int32_be by done. f_equal.
    specialize (IH (pre ++ bytes_be (u32 (arg_i a))) Hl). by rewrite length_app, <- app_assoc in IH.
  - rewrite (proj2 (Nat.leb_le _ _)) by (rewrite !length_app; simpl; lia). unfold osc_float.
    rewrite osc_u32_be, f32_of_bits_of_f32 by auto using bits_of_f32_range. f_equal.
    specialize (IH (pre ++ bytes_be (bits_of_f32 (arg_f a))) Hl). by rewrite length_app, <- app_assoc in IH.
  - pose proof (length_osc_string_bounds (arg_s a)).
    rewrite (proj2 (Nat.ltb_lt _ _)) by (rewrite !length_app; lia).
    rewrite strnlen_osc_string, take_osc_string, pad4_string by done. f_equal.
    specialize (IH (pre ++ osc_string (arg_s a)) Hl). by rewrite length_app, <- app_assoc in IH.
Qed.

(** The addresses the server answers itself. *)
Definition served : list string := ["/nous/note/on"; "/nous/note/off"; "/nous/midi"; "/nous/endpoints"]%string.

Lemma route_dispatch s p : address p ∉ map bytes_of_string served → has_dispatch (dispatch_fns_ s) = true →
  route s p = [FxDispatch p].
Proof.
  intros Ha Hd. unfold route.
  assert (∀ x, x ∈ served → bool_decide (address p = bytes_of_string x) = false) as Hx.
  { intros x Hx. apply bool_decide_eq_false_2. intros E. apply Ha. rewrite E. by apply list_elem_of_fmap_2. }
  rewrite !Hx by (apply (bool_decide_unpack _); vm_compute; exact I). cbn [andb]. by rewrite Hd.
Qed.

(** C19: A registered Fennel handler receives the arguments that were sent.  A
    message the encoder accepts, for an address the server does not answer
    itself, makes the server dispatch a packet; and dispatching it calls the
    handler the script registered for that address, once, with the integers,
    floats and strings of the message in order. *)
Theorem osc_to_fennel s a l out (r : R) t f :
  no_nul a → a ∉ map bytes_of_string served → Forall arg_ok l →
  encode osc_event_max_bytes a l = (out, true) → has_dispatch (dispatch_fns_ s) = true →
  get_global r "nomos-osc-dispatch" = LTable t → get_index r t (LString a) = LFunction f →
  ∃ p, handle_packet s out = [FxDispatch p] ∧
    ∀ st, dispatch_osc (address p) (types p) (args p) (LuaState r st) =
      (LuaState (call r (LFunction f) (map lval_of_arg l)).1 st, true).
Proof.
  intros Ha Hb Hok (Hk & -> & Hl)%encode_ok Hd Ht Hf. unfold osc_message in *.
  rewrite !length_app in Hl. unfold osc_event_max_bytes in Hl.
  pose proof (length_osc_string_bounds a). pose proof (length_osc_string_bounds (comma :: map tag l)).
  exists (Packet a (map tag l) (concat (map arg_bytes l))). split.
  - unfold handle_packet. rewrite parse_layout; [by apply route_dispatch|done| |unfold small_len; lia..].
    apply Forall_map, (Forall_impl _ _ _ Hk). intros b. by intros [-> | [-> | ->]].
  - intros st. rewrite dispatch_implements. unfold dispatch_spec. cbn [address types args]. rewrite Ht, Hf.
    pose proof (osc_values_args l [] Hok) as Hv. cbn [length app] in Hv. by rewrite Hv.
Qed.
End specification.

(** A runtime that records the calls made, with one handler. *)
#[local] Instance recording : LuaRuntime (list (lval * list lval)) := {|
  get_global _ name := if (name =? "nomos-osc-dispatch")%string then LTable 1 else LNil;
  set_global _ _ r := r;
  get_index _ _ k := match k with LString s => if bool_decide (s = bytes_of_string "/grid") then LFunction 7 else LNil | _ => LNil end;
  table_keys _ _ := [LString (bytes_of_string "/grid")];
  call r f args := (r ++ [(f, args)], inl []);
  load_chunk r _ := (r, inl LNil);
  number_text _ := []; to_integer _ := 0; print_g _ := [] |}.

Lemma osc_to_fennel_witness :
  let s := OscServer 9000 true true (DispatchFns true None) (SockAddr 0 0) false in
  let l := [make_i (-2); make_s [65; 66; 67]] in
  ∃ out p, encode osc_event_max_bytes (bytes_of_string "/grid") l = (out, true) ∧
    handle_packet s out = [FxDispatch p] ∧
    dispatch_osc (address p) (types p) (args p) (LuaState [] [LNil]) =
      (LuaState [(LFunction 7, [LNumber (f64_of_Z (-2)); LString [65; 66; 67]])] [LNil], true).
Proof.
  intros s l.
  assert (Forall arg_ok l) as Hl.
  { unfold l. rewrite !Forall_cons. split_and!; [left; split; [done|simpl; lia]| |done]. right. right.
    split; [done|]. split; [by repeat constructor|vm_compute; reflexivity]. }
  destruct (osc_to_fennel s (bytes_of_string "/grid") l
    (encode osc_event_max_bytes (bytes_of_string "/grid") l).1 [] 1 7) as (p & Hp & Hd).
  - by repeat constructor.
  - apply (bool_decide_unpack _). vm_compute. exact I.
  - exact Hl.
  - vm_compute. reflexivity.
  - reflexivity.
  - reflexivity.
  - reflexivity.
  - eexists _, p. split; [vm_compute; reflexivity|]. split; [exact Hp|exact (Hd [LNil])].
Defined.

(** ** Scheduling in the prelude

    [schedule-at], [fire-and-forget] and [nomos_rt_tick] of [kPrelude].  A thunk
    is known by what it does to the queue: the [schedule-at] calls it makes, in
    order, and whether it raises an error afterwards. *)
Module Repl.
Section repl.
Context {thunk : Type}.

Inductive timing := beat_boundary | bar.

Record repl := MkRepl { nomos_beat : f64; nomos_bpm : f64; nomos_scheduled : list (f64 * thunk) }.
Definition repl_init : repl := MkRepl (S754_zero false) (lit64 120 1) [].

Definition step (t : timing) : f64 := match t with beat_boundary => lit64 1 1 | bar => lit64 4 1 end.

Definition schedule_at (t : timing) (th : thunk) (r : repl) : repl :=
  MkRepl (nomos_beat r) (nomos_bpm r) (nomos_scheduled r ++ [(nomos_beat r +d step t, th)]).

Context (calls : thunk → list (timing * thunk)) (raises : thunk → option (list Z)).

(** [pcall] keeps what a thunk did before an error. *)
Definition run_thunk (th : thunk) (r : repl) : repl := foldl (λ r '(t, th), schedule_at t th r) r (calls th).

Definition fire_and_forget (th : thunk) (r : repl) : repl * list Z :=
  (run_thunk th r, match raises th with None => bytes_of_string "ok" | Some err => bytes_of_string "! " ++ err end).

(** The [while] loop: [i] counts from 1.  Also the thunks run, in order. *)
Fixpoint tick_loop (fuel i : nat) (beat : f64) (r : repl) : option (repl * list thunk) :=
  match fuel with
  | O => None
  | S fuel =>
      match nomos_scheduled r !! pred i with
      | None => Some (r, [])
      | Some (target, th) =>
          if target <=f beat then
            let r := MkRepl (nomos_beat r) (nomos_bpm r) (delete (pred i) (nomos_scheduled r)) in
            '(r, ran) ← tick_loop fuel i beat (run_thunk th r); Some (r, th :: ran)
          else tick_loop fuel (S i) beat r
      end
  end.

Definition nomos_rt_tick (fuel : nat) (beat bpm : f64) (r : repl) : option (repl * list thunk) :=
  tick_loop fuel 1 beat (MkRepl beat bpm (nomos_scheduled r)).

(** ** Every event fires once, at the first tick that reaches it *)

Definition due (beat : f64) (e : f64 * thunk) : bool := e.1 <=f beat.
(** What a thunk leaves in the queue when it runs at [beat]. *)
Definition queued (beat : f64) (th : thunk) : list (f64 * thunk) := map (λ '(t, th), (beat +d step t, th)) (calls th).

Lemma run_thunk_queue th r :
  run_thunk th r = MkRepl (nomos_beat r) (nomos_bpm r) (nomos_scheduled r ++ queued (nomos_beat r) th).
Proof.
  unfold run_thunk, queued. generalize (calls th) as l. intros l. revert r.
  induction l as [|[t th'] l IH]; intros r; [destruct r; by rewrite app_nil_r|].
  cbn [foldl]. rewrite IH. cbn [schedule_at nomos_beat nomos_bpm nomos_scheduled map]. by rewrite <- app_assoc.
Qed.

Lemma ltb_not_leb x y : x <f y = true → y <=f x = true → False.
Proof.
  intros Hl Hle. destruct (SFleb_nan_l _ _ Hle) as [Hy Hx]. rewrite SFltb_key in Hl by done.
  rewrite SFleb_key in Hle by done. by apply Hle.
Qed.

(** Items at positions already passed stay; new ones are not due. *)
Lemma tick_loop_spec beat bpm rest : ∀ fuel kept news,
  (beat <f beat +d step beat_boundary) = true → (beat <f beat +d step bar) = true →
  Forall (λ e, due beat e = false) news →
  let fired := List.filter (due beat) rest in
  let added := concat (map (queued beat ∘ snd) fired) in
  (length rest + length news + length added < fuel)%nat →
  tick_loop fuel (S (length kept)) beat (MkRepl beat bpm (kept ++ rest ++ news)) =
    Some (MkRepl beat bpm (kept ++ List.filter (λ e, negb (due beat e)) rest ++ news ++ added), map snd fired).
Proof.
  induction rest as [|e rest IH]; intros fuel kept news H1 H4 Hn fired added Hf.
  - subst fired added. cbn [List.filter map concat app] in *. rewrite app_nil_r in *. revert fuel kept Hf.
    induction Hn as [|e news He Hn IH]; intros [|fuel] kept Hf; simpl in Hf; try lia; cbn [tick_loop pred].
    + cbn [nomos_scheduled]. by rewrite app_nil_r, lookup_ge_None_2 by done.
    + cbn [nomos_scheduled]. rewrite list_lookup_middle by done. destruct e as [target th]. unfold due in He. simpl in He.
      rewrite He. specialize (IH fuel (kept ++ [(target, th)]) ltac:(simpl; lia)).
      rewrite length_app, <- !app_assoc in IH. cbn [length app] in IH. by rewrite Nat.add_comm in IH.
  - destruct fuel as [|fuel]; [simpl in Hf; lia|]. cbn [tick_loop pred nomos_scheduled app].
    rewrite list_lookup_middle by done. destruct e as [target th].
    subst fired added. cbn [List.filter] in *. change (target <=f beat) with (due beat (target, th)).
    destruct (due beat (target, th)) eqn:E; cbn [negb map concat] in *.
    + rewrite run_thunk_queue. cbn [nomos_beat nomos_bpm nomos_scheduled].
      rewrite delete_middle, <- !app_assoc.
      rewrite length_app in Hf. cbn [compose snd length] in *.
      rewrite (IH fuel kept (news ++ queued beat th)); [|done|done| |rewrite length_app; lia].
      { cbn [mbind option_bind]. by rewrite <- !app_assoc. }
      apply Forall_app. split; [done|]. unfold queued. apply Forall_map, Forall_true. intros [t th'].
      unfold due. cbn [fst]. destruct (_ <=f beat) eqn:El; [|done]. exfalso.
      destruct t; [by apply (ltb_not_leb _ _ H1)|by apply (ltb_not_leb _ _ H4)].
    + specialize (IH fuel (kept ++ [(target, th)]) news H1 H4 Hn ltac:(simpl in Hf; lia)).
      rewrite length_app, <- !app_assoc in IH. cbn [length app] in IH. by rewrite Nat.add_comm in IH.
Qed.

(** C23: A tick of the prelude's clock runs each scheduled thunk whose beat has
    been reached exactly once, in the order in which they were scheduled, and
    keeps the others in order; what the thunks schedule meanwhile is appended
    and never runs in the same tick.  The loop ends: one turn per event of the
    queue and per event added is enough fuel.  (The beat must be one to which
    adding a beat makes a difference, as all below 2^53 are.) *)
Theorem tick_fires_due beat bpm r fuel :
  (beat <f beat +d step beat_boundary) = true → (beat <f beat +d step bar) = true →
  let fired := List.filter (due beat) (nomos_scheduled r) in
  let kept := List.filter (λ e, negb (due beat e)) (nomos_scheduled r) in
  let added := concat (map (queued beat ∘ snd) fired) in
  (length (nomos_scheduled r) + length added < fuel)%nat →
  nomos_rt_tick fuel beat bpm r = Some (MkRepl beat bpm (kept ++ added), map snd fired) ∧
  Permutation (nomos_scheduled r) (fired ++ kept).
Proof.
  intros H1 H4 fired kept added Hf. split.
  - pose proof (tick_loop_spec beat bpm (nomos_scheduled r) fuel [] [] H1 H4 ltac:(constructor)) as Ht.
    cbn [length app Nat.add] in Ht. rewrite app_nil_r in Ht. apply Ht. fold fired added. lia.
  - subst fired kept. clear. induction (nomos_scheduled r) as [|e l IH]; [done|]. cbn [List.filter].
    destruct (due beat e); cbn [negb app]; [by constructor|]. rewrite IH at 1. apply Permutation_middle.
Qed.
End repl.

(** Thunk 0 schedules itself again, thunk 1 does nothing. *)
Definition sample_calls (n : nat) : list (timing * nat) := match n with O => [(beat_boundary, O)] | _ => [] end.

Lemma tick_fires_due_witness :
  let r := MkRepl (f64_of_Z 3) (f64_of_Z 120) [(f64_of_Z 4, O); (f64_of_Z 8, 1%nat); (f64_of_Z 4, 2%nat)] in
  nomos_rt_tick sample_calls 5 (f64_of_Z 4) (f64_of_Z 120) r =
    Some (MkRepl (f64_of_Z 4) (f64_of_Z 120) [(f64_of_Z 8, 1%nat); (f64_of_Z 4 +d lit64 1 1, O)], [O; 2%nat]).
Proof.
  intros r. refine (proj1 (tick_fires_due sample_calls (f64_of_Z 4) (f64_of_Z 120) r 5 _ _ _)).
  - vm_compute. reflexivity.
  - vm_compute. reflexivity.
  - vm_compute. lia.
Defined.
End Repl.

(** ** [osc.register] and the participant's mutex

    [eval] holds [mutex_] while the script runs.  The script's [osc.register]
    calls the C function [l_osc_push_endpoints], which calls
    [osc_server::push_endpoints]; the server's [dispatch_fns_.get_endpoints] is
    the participant's [get_osc_endpoints], which takes [mutex_].  The mutex is
    not recursive: locking it again does not return ([None]). *)
Module Register.

Record state := MkState {
  locked : bool;                 (* mutex_ *)
  handlers : list (list Z);      (* the keys of nomos-osc-dispatch *)
  push_bound : bool;             (* nomos_osc_push_endpoints is registered *)
  has_sender : bool }.           (* osc_server::has_sender_ *)

Definition M (A : Type) : Type := state → option (state * A).

(** [std::lock_guard]. *)
Definition with_mutex {A} (m : M A) : M A := λ s,
  if locked s then None
  else '(s, a) ← m (MkState true (handlers s) (push_bound s) (has_sender s));
       Some (MkState false (handlers s) (push_bound s) (has_sender s), a).

Definition get_osc_endpoints : M (list Z) :=
  with_mutex (λ s, Some (s, endpoint_lines (map LString (handlers s)))).

(** The packet sent, if any. *)
Definition push_endpoints : M (option (list Z)) := λ s,
  if has_sender s then
    '(s, paths) ← get_osc_endpoints s;
    Some (s, Some (build_osc_string_msg (bytes_of_string "/nous/endpoints") paths))
  else Some (s, None).

(** The C function: the endpoints are pushed, and [true] returned to Lua. *)
Definition l_osc_push_endpoints : M (option (list Z) * bool) := λ s,
  '(s, sent) ← push_endpoints s; Some (s, (sent, true)).

(** [tset] with a handler, and with [nil]. *)
Definition set_handlers (l : list (list Z)) (s : state) : state :=
  MkState (locked s) l (push_bound s) (has_sender s).
Definition tset (path : list Z) (s : state) : state :=
  set_handlers (if bool_decide (path ∈ handlers s) then handlers s else handlers s ++ [path]) s.
Definition tset_nil (path : list Z) (s : state) : state :=
  set_handlers (filter (λ p, p ≠ path) (handlers s)) s.

(** [(when f (f))], then the status string. *)
Definition push_when_bound (status : list Z) : M (option (list Z) * list Z) := λ s,
  if push_bound s then '(s, (sent, _)) ← l_osc_push_endpoints s; Some (s, (sent, status))
  else Some (s, (None, status)).
Definition osc_register (path : list Z) : M (option (list Z) * list Z) := λ s,
  push_when_bound (bytes_of_string "osc: registered " ++ path) (tset path s).
Definition osc_unregister (path : list Z) : M (option (list Z) * list Z) := λ s,
  push_when_bound (bytes_of_string "osc: unregistered " ++ path) (tset_nil path s).

(** [eval] on the sources [(osc.register path ...)] and [(osc.unregister path)]. *)
Definition eval_register (path : list Z) : M (option (list Z) * list Z) := with_mutex (osc_register path).
Definition eval_unregister (path : list Z) : M (option (list Z) * list Z) := with_mutex (osc_unregister path).

Lemma push_in_eval status l s :
  locked s = false →
  with_mutex (λ s, push_when_bound status (set_handlers l s)) s =
    if push_bound s && has_sender s then None else Some (set_handlers l s, (None, status)).
Proof.
  intros Hl. destruct s as [lk h pb hs]. simpl in Hl. subst lk. unfold with_mutex. cbn.
  unfold push_when_bound, l_osc_push_endpoints, push_endpoints. cbn. by destruct pb, hs.
Qed.

(** C30: Once a controller has spoken to the OSC server, registering a handler
    from a script never returns, and neither does removing one: the evaluation
    holds the mutex that the push of the endpoints takes again.  Without a known
    controller, or without the push function, the table of handlers is updated,
    the mutex released and the status returned. *)
Theorem register_never_returns path s :
  locked s = false →
  let stuck := push_bound s && has_sender s in
  eval_register path s =
    (if stuck then None else Some (tset path s, (None, bytes_of_string "osc: registered " ++ path))) ∧
  eval_unregister path s =
    (if stuck then None else Some (tset_nil path s, (None, bytes_of_string "osc: unregistered " ++ path))).
Proof.
  intros Hl stuck. destruct s as [lk h pb hs]. simpl in Hl. subst lk.
  split; [apply (push_in_eval _ _ (MkState false h pb hs))|apply (push_in_eval _ _ (MkState false h pb hs))]; done.
Qed.

Lemma register_never_returns_witness :
  eval_register (bytes_of_string "/grid") (MkState false [] true true) = None ∧
  eval_unregister (bytes_of_string "/grid") (MkState false [] true true) = None.
Proof. exact (register_never_returns (bytes_of_string "/grid") (MkState false [] true true) eq_refl). Defined.
End Register.
