(* ===== verification/LuaLife.v ===== *)
(** The life of the LuaJIT participant: its constructor, the thread it starts,
    [load] and the destructor ([src/luajit_participant.cpp]).

    A Lua state is not thread safe, so at most one thread may be inside its C
    API.  The steps are the reads and writes of [tick_running_], the lockings of
    [mutex_] and the entries to and exits from the API.  The object is handed
    out when [load] returns; its owner destroys it when no member function is
    running, the rule for every C++ object.  [tick_once] runs the scheduled
    thunks, user code: a tick may return or not, and may hold the mutex for
    ever. *)
From S2P Require Import Prelude Sequences.

(** The timer thread. *)
Inductive tick_pc :=
| TCheck       (* while (tick_running_) *)
| TSleep       (* sleep_for *)
| TLock        (* before locking mutex_ in tick_once *)
| TIn (returns : bool)  (* in tick_once, past the lock; the tick returns or not *)
| TDone.

(** The thread that calls [load], and later the destructor. *)
Inductive owner_pc :=
| LPrelude     (* in load_prelude *)
| LReady       (* load has returned *)
| DJoin        (* in the destructor, tick_running_ stored *)
| DClose       (* after join *)
| DClosed.     (* after lua_close *)

(** [user]: a thread is in a member function, past the lock of [mutex_]. *)
Record life := Life { tick_running_ : bool; tick_at : tick_pc; owner : owner_pc; user : bool }.

(** The constructor has stored the flag and started the thread. *)
Definition constructed : life := Life true TCheck LPrelude false.

Definition mutex_free (s : life) : Prop := (∀ returns, tick_at s ≠ TIn returns) ∧ user s = false.

(** The timer thread. *)
Inductive timer_step : life → life → Prop :=
| t_check r o u : timer_step (Life r TCheck o u) (Life r (if r then TSleep else TDone) o u)
| t_wake r o u : timer_step (Life r TSleep o u) (Life r TLock o u)
| t_lock r o u returns : mutex_free (Life r TLock o u) → timer_step (Life r TLock o u) (Life r (TIn returns) o u)
| t_unlock r o u : timer_step (Life r (TIn true) o u) (Life r TCheck o u).

(** [load] and the destructor. *)
Inductive owner_step : life → life → Prop :=
| o_loaded r t u : owner_step (Life r t LPrelude u) (Life r t LReady u)
| o_destroy r t : owner_step (Life r t LReady false) (Life false t DJoin false)
| o_join r u : owner_step (Life r TDone DJoin u) (Life r TDone DClose u)
| o_close r t u : owner_step (Life r t DClose u) (Life r t DClosed u).

(** The other threads. *)
Inductive user_step : life → life → Prop :=
| u_lock r t : mutex_free (Life r t LReady false) → user_step (Life r t LReady false) (Life r t LReady true)
| u_unlock r t o : user_step (Life r t o true) (Life r t o false).

Inductive step (s s' : life) : Prop :=
| by_timer : timer_step s s' → step s s'
| by_owner : owner_step s s' → step s s'
| by_user : user_step s s' → step s s'.

(** The threads inside the C API. *)
Definition b2n (b : bool) : nat := if b then 1 else 0.
Definition inside (s : life) : nat :=
  b2n (match tick_at s with TIn _ => true | _ => false end) + b2n (user s) +
  b2n (match owner s with LPrelude | DClose => true | _ => false end).

Record inv (s : life) : Prop := {
  inv_flag : tick_running_ s = match owner s with LPrelude | LReady => true | _ => false end;
  inv_mutex returns : tick_at s = TIn returns → user s = false;
  inv_user : user s = true → owner s = LReady;
  inv_joined : match owner s with DClose | DClosed => tick_at s = TDone | _ => True end }.

Lemma life_inv_step s s' : inv s → step s s' → inv s'.
Proof.
  intros [Hf Hm Hu Hj] Hst. destruct Hst as [Hst|Hst|Hst]; destruct Hst;
    unfold mutex_free in *; cbn [tick_running_ tick_at owner user] in *;
    split; cbn [tick_running_ tick_at owner user]; repeat case_match; naive_solver.
Qed.

Lemma life_inv s : reach step constructed s → inv s.
Proof. apply reach_invariant; [by split|exact life_inv_step]. Qed.

(** What is left of the destructor: the timer thread leaves its loop within
    one more turn, then two steps of the owner. *)
Definition to_end (s : life) : nat :=
  (match tick_at s with TSleep => 4 | TLock => 3 | TIn _ => 2 | TCheck => 1 | TDone => 0 end) +
  (match owner s with DJoin => 2 | DClose => 1 | _ => 0 end).

Definition destroying (s : life) : Prop :=
  match owner s with DJoin | DClose => True | _ => False end.

(** The tick under way, if there is one, returns. *)
Definition tick_returns (s : life) : Prop :=
  match tick_at s with TIn returns => returns = true | _ => True end.

(** While the destructor runs, a step exists if the tick under way returns, and
    every step brings its end nearer. *)
Lemma destructor_moves s :
  inv s → destroying s →
  (tick_returns s → ∃ s', step s s') ∧
  (∀ s', step s s' → to_end s' < to_end s ∧ (destroying s' ∨ owner s' = DClosed)).
Proof.
  intros [Hf Hm Hu Hj] Hd. destruct s as [r t o u]. unfold destroying in Hd. unfold tick_returns.
  cbn [tick_running_ tick_at owner user] in *.
  assert (u = false) as -> by (destruct u; [|done]; rewrite Hu in Hd by done; done).
  split.
  - intros Ht. destruct o; try done.
    + destruct t as [| | |[]|]; try done; eexists;
        try (apply by_timer; econstructor; try done); try (apply by_owner; constructor).
      Unshelve. exact true.
    + subst t. eexists. apply by_owner; constructor.
  - intros s' [Hst|Hst|Hst]; inversion Hst; subst; try done;
      unfold to_end, destroying; cbn [tick_running_ tick_at owner user]; repeat case_match; simplify_eq; try lia; auto with lia.
Qed.

Lemma closed_stays s s' : inv s → owner s = DClosed → step s s' → False.
Proof.
  intros [Hf Hm Hu Hj] Ho Hst. rewrite Ho in Hf, Hj.
  destruct Hst as [Hst|Hst|Hst]; inversion Hst; subst; cbn [owner tick_at user] in *; try done.
  specialize (Hu eq_refl). congruence.
Qed.

Lemma destroying_run n s s' :
  inv s → destroying s → nsteps step n s s' →
  n + to_end s' ≤ to_end s ∧ (destroying s' ∨ owner s' = DClosed).
Proof.
  intros Hi Hd Hn. revert Hi Hd. induction Hn as [s|n s t s' Hst Hn IH]; intros Hi Hd; [auto with lia|].
  pose proof (life_inv_step _ _ Hi Hst) as Hit.
  destruct (proj2 (destructor_moves s Hi Hd) t Hst) as [Hlt [Ht|Ht]].
  - destruct (IH Hit Ht). auto with lia.
  - inversion Hn; subst; [auto with lia|]. by edestruct closed_stays.
Qed.

Lemma prelude_races : ∃ s, reach step constructed s ∧ owner s = LPrelude ∧ inside s = 2.
Proof.
  exists (Life true (TIn true) LPrelude false). split; [|done].
  apply (reach_step _ _ (Life true TLock LPrelude false)); [|by apply by_timer; constructor].
  apply (reach_step _ _ (Life true TSleep LPrelude false)); [|by apply by_timer; constructor].
  apply reach_one. apply by_timer, (t_check true).
Qed.

(** A thunk that does not return: the destructor waits for its tick for ever. *)
Lemma destructor_can_hang :
  ∃ s, reach step constructed s ∧ owner s = DJoin ∧ ∀ s', reach step s s' → s' = s.
Proof.
  exists (Life false (TIn false) DJoin false). split_and!; [|done|].
  - eapply reach_trans; [apply reach_one, by_owner, o_loaded|].
    eapply reach_trans; [apply reach_one, by_timer, (t_check true)|].
    eapply reach_trans; [apply reach_one, by_timer, t_wake|].
    eapply reach_trans; [apply reach_one, by_timer, (t_lock _ _ _ false); done|].
    apply reach_one, by_owner, o_destroy.
  - apply reach_invariant; [done|]. intros s1 s2 -> [Hst|Hst|Hst]; inversion Hst.
Qed.

(** C24: one thread at a time is inside the Lua state once [load] has returned:
    the timer thread and the callers exclude each other by the mutex, and the
    destructor joins the timer thread before it closes the state, after which
    no step is left.  A destructor that has stored the flag has a step unless
    the tick under way does not return, and it takes six at most, whatever the
    schedule.  A tick runs user thunks, and one that does not return (it
    loops, reschedules itself where the beat no longer grows, or calls
    [osc.register] and waits for the mutex its own thread holds) leaves the
    destructor in its join for ever.  Before [load] returns there is no
    exclusion: the constructor has already started the timer thread, so a slow
    [load_prelude] runs beside a tick, two threads in one Lua state. *)
Theorem lua_exclusive :
  (∀ s, reach step constructed s →
     (owner s ≠ LPrelude → inside s ≤ 1) ∧
     (owner s = DClosed → inside s = 0 ∧ ∀ s', ¬ step s s') ∧
     (destroying s → (tick_returns s → ∃ s', step s s') ∧
        ∀ n s', nsteps step n s s' → n ≤ 6 ∧ (destroying s' ∨ owner s' = DClosed))) ∧
  (∃ s, reach step constructed s ∧ owner s = LPrelude ∧ inside s = 2) ∧
  (∃ s, reach step constructed s ∧ owner s = DJoin ∧ ∀ s', reach step s s' → s' = s).
Proof.
  split; [|split; [exact prelude_races|exact destructor_can_hang]]. intros s Hr%life_inv. split_and!.
  - destruct Hr as [Hf Hm Hu Hj]. destruct s as [r t o u]. unfold inside. cbn [tick_at owner user] in *.
    intros Ho. destruct t, o, u; unfold b2n; try lia;
      first [done|by specialize (Hm _ eq_refl)|by specialize (Hu eq_refl)].
  - intros Ho. split; [|intros s' Hst; by apply (closed_stays s s')].
    destruct Hr as [Hf Hm Hu Hj]. destruct s as [r t o u]. cbn [tick_at owner user] in *. subst o. cbn in Hj. subst t.
    destruct u; [by specialize (Hu eq_refl)|done].
  - intros Hd. split; [by apply destructor_moves|]. intros n s' Hn.
    destruct (destroying_run n s s' Hr Hd Hn) as [Hle ?]. split; [|done].
    unfold to_end in Hle. destruct (tick_at s), (owner s); lia.
Qed.
