(* ===== verification/Audio.v ===== *)
(** The audio device ([src/audio_device.hpp/.cpp]).

    RtAudio is third-party: the class [RtAudio] has the calls the source makes,
    with the laws its documentation gives for opening, starting, stopping and
    closing a stream.  A [float*] into the buffer RtAudio hands over is the
    offset from its start. *)
From S2P Require Import Prelude Binary.
Local Open Scope Z_scope.

Record stream_parameters := StreamParameters { deviceId : Z; nChannels : Z; firstChannel : Z }.

Class RtAudio (R : Type) := {
  getDefaultOutputDevice : R → Z;
  getDefaultInputDevice : R → Z;
  (** Sample rate and buffer frames last; whether there was no error. *)
  openStream : stream_parameters → option stream_parameters → Z → Z → R → R * bool;
  startStream : R → R * bool;
  stopStream : R → R;
  closeStream : R → R;
  isStreamOpen : R → bool;
  isStreamRunning : R → bool;
  open_law o i sr n r r' : openStream o i sr n r = (r', true) → isStreamOpen r' = true;
  stop_law r : isStreamRunning (stopStream r) = false ∧ isStreamOpen (stopStream r) = isStreamOpen r;
  close_law r : isStreamRunning r = false →
    isStreamOpen (closeStream r) = false ∧ isStreamRunning (closeStream r) = false
}.

Record audio_device_config := Config {
  device_id : Z; out_channels : Z; in_channels : Z; sample_rate : f64; buffer_frames : Z }.

Section device.
Context {R CB : Type} `{RtAudio R}.

Record audio_device := Device {
  rt_ : R; cb_ : option CB; out_ch_ : Z; in_ch_ : Z; out_ptrs_ : list Z; in_ptrs_ : list Z }.

Definition set_rt (r : R) (d : audio_device) : audio_device :=
  Device r (cb_ d) (out_ch_ d) (in_ch_ d) (out_ptrs_ d) (in_ptrs_ d).

(** [std::vector::resize]; a new pointer is null. *)
Definition resize (n : Z) (l : list Z) : list Z :=
  take (Z.to_nat n) l ++ replicate (Z.to_nat n - length l) 0.

(** [None]: the sample rate has no [unsigned] value. *)
Definition open (cfg : audio_device_config) (cb : option CB) (d : audio_device) : option (audio_device * bool) :=
  let d := Device (rt_ d) cb (out_channels cfg) (in_channels cfg)
             (resize (out_channels cfg) (out_ptrs_ d)) (resize (in_channels cfg) (in_ptrs_ d)) in
  let device def := if device_id cfg =? 0 then def (rt_ d) else device_id cfg in
  let out_params := StreamParameters (device getDefaultOutputDevice) (out_channels cfg) 0 in
  let in_params := if 0 <? in_channels cfg
                   then Some (StreamParameters (device getDefaultInputDevice) (in_channels cfg) 0) else None in
  sr ← to_Z false (sample_rate cfg);
  if (0 <=? sr) && (sr <? 2 ^ 32) then
    let '(r, ok) := openStream out_params in_params sr (buffer_frames cfg) (rt_ d) in
    Some (set_rt r d, ok)
  else None.

Definition start (d : audio_device) : audio_device * bool :=
  let '(r, ok) := startStream (rt_ d) in (set_rt r d, ok).
Definition stop (d : audio_device) : audio_device :=
  if isStreamRunning (rt_ d) then set_rt (stopStream (rt_ d)) d else d.
(** Also what the destructor does. *)
Definition close (d : audio_device) : audio_device :=
  let d := stop d in if isStreamOpen (rt_ d) then set_rt (closeStream (rt_ d)) d else d.
Definition is_open (d : audio_device) : bool := isStreamOpen (rt_ d).
Definition is_running (d : audio_device) : bool := isStreamRunning (rt_ d).

(** ** The callback *)

(** What the client's callback receives. *)
Record block := Block { outputs : list Z; inputs : option (list Z); out_ch : Z; in_ch : Z; nframes : Z }.

(** [ptrs[c] = buf + c * nframes] for each channel, in 32-bit arithmetic. *)
Definition set_ptrs (channels n : Z) (ptrs : list Z) : list Z :=
  foldl (λ ptrs c, <[c := u32 (Z.of_nat c * n)]> ptrs) ptrs (seq 0 (Z.to_nat channels)).

Definition rt_callback (has_input : bool) (n : Z) (d : audio_device) : audio_device * option block :=
  let outs := set_ptrs (out_ch_ d) n (out_ptrs_ d) in
  let ins := if has_input then set_ptrs (in_ch_ d) n (in_ptrs_ d) else in_ptrs_ d in
  let d := Device (rt_ d) (cb_ d) (out_ch_ d) (in_ch_ d) outs ins in
  (d, match cb_ d with
      | Some _ => Some (Block outs (if has_input then Some ins else None) (out_ch_ d) (in_ch_ d) n)
      | None => None
      end).

(** ** Channels do not overlap *)

(** The client writes the samples of each channel through its pointer, channel
    after channel. *)
Definition play (ptrs : list Z) (render : nat → list f32) (buf : list f32) : list f32 :=
  foldl (λ buf '(c, p), list_inserts (Z.to_nat p) (render c) buf) buf (imap pair ptrs).

(** [n] samples read through a pointer. *)
Definition samples (n : Z) (buf : list f32) (p : Z) : list f32 := take (Z.to_nat n) (drop (Z.to_nat p) buf).

Lemma length_resize n l : length (resize n l) = Z.to_nat n.
Proof. unfold resize. rewrite length_app, length_take, length_replicate. lia. Qed.

Lemma set_ptrs_spec channels n ptrs :
  length ptrs = Z.to_nat channels →
  set_ptrs channels n ptrs = map (λ c, u32 (Z.of_nat c * n)) (seq 0 (Z.to_nat channels)).
Proof.
  unfold set_ptrs. intros Hl.
  assert (∀ k, (k ≤ length ptrs)%nat → foldl (λ ptrs c, <[c := u32 (Z.of_nat c * n)]> ptrs) ptrs (seq 0 k) =
    map (λ c, u32 (Z.of_nat c * n)) (seq 0 k) ++ drop k ptrs) as Hk.
  { induction k as [|k IH]; intros Hk; [done|]. rewrite seq_S, foldl_snoc, IH, map_app, Nat.add_0_l by lia.
    rewrite <- app_assoc. rewrite insert_app_r_alt by (rewrite length_map, length_seq; lia).
    rewrite length_map, length_seq, Nat.sub_diag. f_equal.
    destruct (lookup_lt_is_Some_2 ptrs k) as [x Hx]; [lia|]. by rewrite (drop_S _ _ _ Hx). }
  rewrite Hk, <- Hl, drop_all by lia. by rewrite app_nil_r, Hl.
Qed.

(** Under the 32-bit bound the pointers are the multiples of the block length. *)
Lemma set_ptrs_exact channels n ptrs :
  length ptrs = Z.to_nat channels → 0 <= channels → 0 <= n → channels * n < 2 ^ 32 →
  set_ptrs channels n ptrs = map (λ c, Z.of_nat c * n) (seq 0 (Z.to_nat channels)).
Proof.
  intros Hl Hc Hn Hb. rewrite set_ptrs_spec by done. apply map_ext_in. intros c Hi%in_seq.
  assert (0 <= Z.of_nat c * n <= channels * n) by (split; [lia|apply Z.mul_le_mono_nonneg_r; lia]).
  unfold u32, wrapu. apply Z.mod_small. lia.
Qed.

Lemma play_layout n (render : nat → list f32) k (pre buf : list f32) :
  0 <= n → (∀ c, length (render c) = Z.to_nat n) → length buf = (k * Z.to_nat n)%nat →
  ∀ j, length pre = (j * Z.to_nat n)%nat →
  foldl (λ buf '(c, p), list_inserts (Z.to_nat p) (render c) buf) (pre ++ buf)
    (map (λ c, (c, Z.of_nat c * n)) (seq j k)) = pre ++ concat (map render (seq j k)).
Proof.
  intros Hn Hr. revert pre buf. induction k as [|k IH]; intros pre buf Hb j Hj.
  - destruct buf; [done|discriminate].
  - cbn [seq map foldl concat]. replace (Z.to_nat (Z.of_nat j * n)) with (length pre) by nia.
    assert (length (take (Z.to_nat n) buf) = length (render j)) as Ht by (rewrite length_take, Hr; nia).
    rewrite <- (take_drop (Z.to_nat n) buf) at 1. rewrite <- (Nat.add_0_r (length pre)), list_inserts_app_r.
    rewrite list_inserts_0_r by done. rewrite app_assoc, IH.
    + by rewrite <- !app_assoc.
    + rewrite length_drop. nia.
    + rewrite length_app, Hr, Hj. lia.
Qed.

Lemma imap_pair_seq (f : nat → Z) k : imap pair (map f (seq 0 k)) = map (λ c, (c, f c)) (seq 0 k).
Proof.
  apply list_eq. intros i. rewrite list_lookup_imap, !list_lookup_fmap.
  destruct (decide (i < k)%nat); [by rewrite lookup_seq_lt by lia|by rewrite lookup_seq_ge by lia].
Qed.

(** A non-interleaved buffer: the channels one after the other. *)
Definition layout (channels : Z) (f : nat → list f32) : list f32 :=
  concat (map f (seq 0 (Z.to_nat channels))).

Lemma length_concat_map (f : nat → list f32) n l :
  (∀ c, length (f c) = n) → length (concat (map f l)) = (length l * n)%nat.
Proof. intros Hf. induction l as [|c l IH]; [done|]. simpl. by rewrite length_app, Hf, IH. Qed.

Lemma samples_layout n channels f c :
  0 <= n → (∀ c, length (f c) = Z.to_nat n) → (c < Z.to_nat channels)%nat →
  samples n (layout channels f) (Z.of_nat c * n) = f c.
Proof.
  intros Hn Hf Hc. unfold samples, layout. set (k := Z.to_nat channels) in *. clearbody k.
  replace k with (c + S (k - S c))%nat by lia. rewrite seq_app, map_app, concat_app, Nat.add_0_l.
  replace (Z.to_nat (Z.of_nat c * n)) with (length (concat (map f (seq 0 c))))
    by (rewrite (length_concat_map f (Z.to_nat n)), length_seq by done; nia).
  rewrite drop_app_length. cbn [seq map concat]. rewrite <- (Hf c). apply take_app_length.
Qed.

Lemma close_closes d : is_open (close d) = false ∧ is_running (close d) = false.
Proof.
  unfold close, is_open, is_running.
  assert (isStreamRunning (rt_ (stop d)) = false) as Hs.
  { unfold stop. destruct (isStreamRunning (rt_ d)) eqn:E; [|done]. apply stop_law. }
  destruct (isStreamOpen (rt_ (stop d))) eqn:E; [|done]. by apply close_law.
Qed.

Lemma open_device cfg cb d0 d :
  open cfg cb d0 = Some (d, true) →
  is_open d = true ∧ cb_ d = cb ∧ out_ch_ d = out_channels cfg ∧ in_ch_ d = in_channels cfg ∧
  length (out_ptrs_ d) = Z.to_nat (out_channels cfg) ∧ length (in_ptrs_ d) = Z.to_nat (in_channels cfg).
Proof.
  unfold open. intros (sr & Hsr & Ho)%bind_Some. destruct (_ && _); [|done].
  match type of Ho with context [openStream ?o ?i ?s ?n ?r] => destruct (openStream o i s n r) as [r' ok] eqn:E end.
  injection Ho as <- ->. apply open_law in E. split_and!; try done; apply length_resize.
Qed.

(** C33: Channels are laid out one after the other and never overlap.  A stream
    is opened for the channels asked for, and in every block of it (of a length
    whose total number of samples fits 32 bits) the client gets one pointer per
    channel: whatever it writes through the output pointers, the device plays,
    channel by channel; what it reads through the input pointers is what the
    device recorded, and it gets no input pointers without an input buffer.
    Closing the device leaves no stream open. *)
Theorem audio_blocks cfg cb d0 d has_input n render record out_buf :
  0 <= out_channels cfg → 0 <= in_channels cfg → 0 <= n →
  out_channels cfg * n < 2 ^ 32 → in_channels cfg * n < 2 ^ 32 →
  open cfg (Some cb) d0 = Some (d, true) →
  (∀ c, length (render c) = Z.to_nat n) → (∀ c, length (record c) = Z.to_nat n) →
  length out_buf = (Z.to_nat (out_channels cfg) * Z.to_nat n)%nat →
  is_open d = true ∧ is_open (close d) = false ∧ is_running (close d) = false ∧
  ∃ b, (rt_callback has_input n d).2 = Some b ∧
    play (outputs b) render out_buf = layout (out_channels cfg) render ∧
    option_map (map (samples n (layout (in_channels cfg) record))) (inputs b) =
      if has_input then Some (map record (seq 0 (Z.to_nat (in_channels cfg)))) else None.
Proof.
  intros Ho Hi Hn Hbo Hbi Hd Hr Hc Hl. apply open_device in Hd as (Hop & Hcb & Hoc & Hic & Hlo & Hli).
  split; [done|]. destruct (close_closes d) as [-> ->]. do 2 (split; [done|]).
  unfold rt_callback. rewrite Hcb. eexists. split; [done|]. cbn [outputs inputs]. rewrite Hoc, Hic. split.
  - rewrite set_ptrs_exact by done. unfold play. rewrite imap_pair_seq.
    by apply (play_layout n render _ [] out_buf Hn Hr Hl 0).
  - destruct has_input; [|done]. rewrite set_ptrs_exact by done. cbn [option_map]. f_equal. rewrite map_map.
    apply map_ext_in. intros c Hin%in_seq. apply samples_layout; [done|done|lia].
Qed.
End device.

(** A device that always opens. *)
#[local] Instance quiet_rt : RtAudio (bool * bool).
Proof.
  refine {|
    getDefaultOutputDevice _ := 1; getDefaultInputDevice _ := 2;
    openStream _ _ _ _ r := ((true, r.2), true); startStream r := ((r.1, true), true);
    stopStream r := (r.1, false); closeStream r := (false, r.2);
    isStreamOpen := fst; isStreamRunning := snd |}.
  - by intros o i sr n r r' [= <-].
  - done.
  - by intros [op ru].
Defined.

Definition stereo : audio_device_config := Config 0 2 1 (f64_of_Z 48000) 256.
Definition idle : audio_device (CB := unit) := Device (false, false) None 0 0 [] [].
Definition opened : audio_device (CB := unit) :=
  match open stereo (Some tt) idle with Some (d, _) => d | None => idle end.
Definition ramp (c : nat) : list f32 := [f32_of_Z (Z.of_nat c); f32_of_Z 1; f32_of_Z 2].

(** Three frames, two channels out and one in. *)
Lemma audio_blocks_witness :
  let silence := replicate 6 (S754_zero false) in
  is_open (close opened) = false ∧
  ∃ b, (rt_callback true 3 opened).2 = Some b ∧ outputs b = [0; 3] ∧
    play (outputs b) ramp silence = ramp 0 ++ ramp 1.
Proof.
  intros silence.
  destruct (audio_blocks stereo tt idle opened true 3 ramp ramp silence) as (_ & Hc & _ & b & Hb & Hp & _).
  1-5: vm_compute; congruence.
  1: vm_compute; reflexivity.
  1-2: reflexivity.
  1: vm_compute; reflexivity.
  split; [exact Hc|]. exists b. split; [exact Hb|]. split; [|exact Hp].
  assert (option_map outputs (rt_callback true 3 opened).2 = Some [0; 3]) as Ho by (vm_compute; reflexivity).
  rewrite Hb in Ho. by injection Ho.
Defined.
