(* ===== verification/Process.v ===== *)
(** What a process sets up around its threads: signal dispositions and masks
    ([include/nomos/rt/signal_handlers.hpp]) and the heartbeat its supervisor
    listens to ([include/nomos/rt/heartbeat.hpp]). *)
From S2P Require Import Prelude.

(** ** Signals *)

Inductive signal := SIGINT | SIGTERM | SIGPIPE | SigOther (n : nat).
#[export] Instance signal_eq_dec : EqDecision signal.
Proof. solve_decision. Defined.

(** [sa_handler]; [sa_flags] is 0, so a caught signal interrupts system calls. *)
Inductive disposition := SigDefault | SigIgnore | SigHandler (handler : nat).
Record sigaction := SigAction { sa_handler : disposition; sa_restart : bool }.

Definition actions : Type := signal → sigaction.
Definition set_action (s : signal) (a : sigaction) (t : actions) : actions :=
  λ s', if decide (s' = s) then a else t s'.

Definition install_signal_handlers (handler : nat) (t : actions) : actions :=
  set_action SIGPIPE (SigAction SigIgnore false)
    (set_action SIGTERM (SigAction (SigHandler handler) false)
      (set_action SIGINT (SigAction (SigHandler handler) false) t)).

(** A thread's mask: the signals it does not take. *)
Definition block_signals_on_this_thread (mask : signal → bool) : signal → bool := λ _, true.

(** What a pending signal does to a system call of a thread. *)
Inductive outcome := Blocked | Ignored | Interrupted (handler : nat) | Defaulted.
Definition deliver (t : actions) (mask : signal → bool) (s : signal) : outcome :=
  if mask s then Blocked
  else match sa_handler (t s) with
       | SigDefault => Defaulted
       | SigIgnore => Ignored
       | SigHandler h => Interrupted h
       end.

(** A write to a closed peer never kills the process; interrupt and
    termination reach the handler, in threads that have not blocked them only. *)
Lemma signals_installed handler t mask :
  let t' := install_signal_handlers handler t in
  deliver t' mask SIGPIPE ∈ [Blocked; Ignored] ∧
  (∀ s, s ∈ [SIGINT; SIGTERM] → deliver t' mask s = if mask s then Blocked else Interrupted handler) ∧
  (∀ s, deliver t' (block_signals_on_this_thread mask) s = Blocked) ∧
  (∀ n, t' (SigOther n) = t (SigOther n)).
Proof.
  cbv zeta. unfold deliver, install_signal_handlers, set_action, block_signals_on_this_thread. split_and!.
  - rewrite decide_True by done. destruct (mask SIGPIPE); set_solver.
  - intros s [-> |[-> |[]%elem_of_nil]%elem_of_cons]%elem_of_cons;
      rewrite ?(decide_False (P := SIGINT = SIGPIPE)), ?(decide_False (P := SIGTERM = SIGPIPE)),
        ?(decide_False (P := SIGINT = SIGTERM)) by done; by rewrite decide_True.
  - done.
  - intros n. by rewrite !decide_False.
Qed.

(** ** The heartbeat *)

Inductive beat_fx := Sleep (ms : nat) | Beat.

(** The loop of the thread: [reads] are the values its reads of [running]
    give.  The effects, and whether the thread has ended. *)
Fixpoint heartbeat_loop (ms : nat) (reads : list bool) : list beat_fx * bool :=
  match reads with
  | [] => ([], false)
  | false :: _ => ([], true)
  | true :: [] => ([Sleep ms], false)
  | true :: r :: reads =>
      let '(fx, ended) := heartbeat_loop ms reads in (Sleep ms :: (if r then [Beat] else []) ++ fx, ended)
  end.

(** No thread when the interval is 0. *)
Definition start_heartbeat_thread (interval_ms : nat) (reads : list bool) : option (list beat_fx * bool) :=
  if interval_ms =? 0 then None else Some (heartbeat_loop interval_ms reads).

(** A process that runs for [n] reads and then stops: one beat per interval
    slept while it ran, none afterwards, and the thread has ended at the latest
    two reads later, after at most one more interval. *)
Lemma heartbeat_beats ms n rest :
  0 < ms →
  start_heartbeat_thread ms (replicate n true ++ false :: false :: rest) =
    Some (concat (replicate (n / 2) [Sleep ms; Beat]) ++ (if Nat.even n then [] else [Sleep ms]), true).
Proof.
  intros Hms. unfold start_heartbeat_thread. rewrite (proj2 (Nat.eqb_neq _ _)) by lia. f_equal.
  induction n as [n IH] using lt_wf_ind. destruct n as [|[|n]]; [done..|].
  cbn [replicate app heartbeat_loop]. rewrite IH by lia.
  replace (S (S n)) with (n + 1 * 2) by lia. rewrite Nat.div_add by lia. rewrite Nat.add_1_r.
  cbn [replicate concat app]. replace (Nat.even (n + 1 * 2)) with (Nat.even n); [done|].
  replace (n + 1 * 2) with (S (S n)) by lia. done.
Qed.

(** ** Version ([src/version.cpp]) *)

Definition version : string := "0.1.0".
